(* ===== verification/_CoqProject ===== *)
-Q . S2P
Prelude.v
GoStrings.v
GoSort.v
GoPath.v
Metrics.v
Bytes.v
Proto.v
Pair.v
Floats.v
GoTime.v
Raydium.v
SlotCache.v
Pools.v
Meteora.v
Orca.v
Publisher.v
IngestDecoder.v
Processor.v
Backfill.v
Bridge.v
BridgeRun.v
BridgeRefine.v
Sink.v
HttpCache.v
HttpApi.v
ClickHouse.v
Parquet.v
GeyserConfig.v
HeliusConfig.v
Streams.v
Failover.v
Channels.v
Services.v
Candles.v
Commands.v
Processes.v
HeliusClient.v
Pipeline.v
WellTyped.v
Dedup.v
EndToEnd.v
Mirror.v
SinkReplay.v
ParquetInspect.v
Demo.v
DocGen.v
