(* ===== verification/Prelude.v ===== *)
(** * Solana liquidity indexer: verification development

    The program reads Solana updates from streams (Yellowstone Geyser, Helius),
    decodes the swaps of three kinds of pools, publishes canonical events on
    NATS JetStream, settles them when their slot is finalized or dies, and feeds
    sinks. Paths below are relative to [src/].

    ** Files, and the code each one models

    - [Prelude.v]: shared notation, machine integers with their wrap-around, Go
      errors ([errors.Is], [errors.As], [%w]), the result and state monads with
      the [for range] loop, the iteration order of Go maps ([RangeOrder]).
    - [GoStrings.v]: the parts of [strings], [strconv] and [unicode/utf8] in use.
      [GoPath.v]: [path/filepath]. [GoSort.v]: [sort.Slice] as any function that
      sorts, and a stable sort.
    - [Metrics.v]: [observability/] and the registration of every metric.
    - [Bytes.v]: little-endian integers, slices, the [Base58] interface.
    - [Proto.v]: the messages of [proto/dex/sol/v1/core.proto] and the fields read
      from Yellowstone updates.
    - [Pair.v]: [decoder/common/pair.go] and [mint_metadata.go]; the class
      [MintMetadataProvider] is the Go interface.
    - [Floats.v]: [decoder/common/fixed_point.go] on binary64 ([SpecFloat]).
    - [GoTime.v]: durations of the package [time]: parsing, rounding, printing.
    - [Raydium.v]: [decoder/raydium/]. [Meteora.v]: [decoder/meteora/].
      [Orca.v]: [decoder/orca_whirlpool/], against [MintMetadataProvider].
    - [SlotCache.v]: [ingestor/common/slot_cache.go]; the class [SlotTimeCache] is
      the Go interface and [Mem_SlotTimeCache] the in-memory instance.
    - [Pools.v]: [ingestor/internal/pools/], the account layouts.
    - [Publisher.v]: [sinks/nats/], over the class [JetStream]; the class
      [SwapPublisher] is the interface [ingestor/geyser/processor.go] states, and
      [Publisher_SwapPublisher] its instance.
    - [IngestDecoder.v]: [ingestor/decoder/decoder.go], [ingestor/common/txmeta.go],
      over any [SlotTimeCache]; it calls [Raydium], [Orca], [Meteora] and [Pools].
    - [Processor.v]: [ingestor/geyser/processor.go], over any [SwapPublisher] and
      any [SlotTimeCache].
    - [Backfill.v]: [backfill/orchestrator/], the goroutines as a step relation.
    - [Bridge.v]: [bridge/], the subject mapper, the service and its options, the
      forwarding loop. [BridgeRun.v]: [Service.Run], the goroutines as a step
      relation over the same [forward]. [BridgeRefine.v]: both are the same for one
      subject. [Mirror.v]: what the runs leave in the target stream.
    - [Sink.v]: the pull loop of both sink services and the class [ProtoUnmarshal].
    - [ClickHouse.v]: [sinks/clickhouse/], over the class [ChClient]; the class
      [TradeWriter] is the interface [service.go] states, and
      [Writer_TradeWriter] its instance.
    - [Parquet.v]: [sinks/parquet/], over the classes [ParquetCodec] and [S3World].
    - [HttpCache.v], [HttpApi.v]: [api/http/], the types, the cache and the server
      with its background writes, over the classes [Redis] and [JsonCandles].
    - [GeyserConfig.v], [HeliusConfig.v]: the [config.go] of [ingestor/geyser/] and
      [ingestor/helius/].
    - [Streams.v]: [geyser/client.go] and [helius/stream_client.go], the requests
      and the goroutine that subscribes and reconnects.
    - [Failover.v]: [geyser/service.go] and [geyser/failover_service.go]; the class
      [ClientInterface] is the Go interface, with both clients as instances.
      [Channels.v]: the goroutine of [Subscribe], the loop of [runClient] and
      [Close] as a step relation over the bounded channels between them.
    - [Services.v]: the constructors and the end of the services, over the class
      [Nats] of the NATS client library. [Commands.v]: the [main] functions of
      [cmd/ingestor/geyser], [cmd/sink/] and [cmd/bridge]. [Processes.v]: what the
      processes of [cmd/sink/] store.
    - [Candles.v]: [cmd/candles/main.go], over [ClickHouse.v] and [Parquet.v].
    - [HeliusClient.v]: [helius/client.go], the fallback that emits canonical
      messages itself.
    - [SinkReplay.v], [ParquetInspect.v]: the tools of [cmd/tools/]. [Demo.v]:
      [cmd/ingestor/geyser-demo]. [DocGen.v]: [scripts/docs/], over the class
      [FileSystem].
    - [Pipeline.v]: the composition of [Processor], [Publisher], a stream
      ([StreamStore], [DedupWindow]) and [ClickHouse]; its class [CallInvariant]
      turns an invariant of publish calls into one of the processor.
      [WellTyped.v]: machine widths of what the decoders put in messages.
      [Dedup.v]: what the deduplication leaves in the table, by both.
      [EndToEnd.v]: the process of [cmd/ingestor/geyser] from its environment to its
      updates, and its composition with the ClickHouse sink process.

    ** Conventions

    A Go integer is the [Z] it denotes, and an operation that can leave its width
    is wrapped ([u64], [i64], ...). A string is a byte string. An error keeps its
    format and arguments unrendered. A nil pointer argument is [None]. A method
    that mutates its receiver returns the new state; code that threads state and
    errors is in the state monad [M], where the changes made before an error stay.
    A goroutine or a [select] is driven by what the outside decides (rounds, turns,
    picks), and the theorems hold for every choice. A panic of a goroutine ends the
    process: a subscription says whether its goroutine panics ([sb_panics]), and the
    [main] functions are told whether that moment has come ([died]).
    A loop over a Go map takes the visiting order as an argument, and so does
    [sort.Slice] its choice among sorted permutations: the theorems hold for all.
    Third-party code is a class or an argument with what the program relies on:
    [Base58] (injective), [JetStream], [ProtoMarshal] and [ProtoUnmarshal] (what
    was marshalled reads back), [ChClient], [ChDial], [ParquetCodec] (what was
    encoded reads back), [S3World], [Nats] (what is open), [Grpc], [Redis], [JsonCandles], [AsyncJetStream],
    [Prometheus], [url.Parse], YAML, [math.Log] and the fractional [math.Pow], the Unicode case table
    above ASCII, the range processor of the backfill. Records of calls ([calls],
    [history], [queries], [uploads], [st_trace]) are histories, not fields of the
    Go structs.

    ** What the theorems show

    - The processor ([Processor.v]) loses and invents nothing: for every stream of
      updates and every pattern of refused publishes, the provisional swaps of a
      slot are those settled followed by those pending; without refusals each is
      settled exactly once and in order; the effect of each settlement and of
      each transaction, errors included.
    - The decoder ([IngestDecoder.v]): the label and direction of every event, the
      error cases, all-or-nothing decoding, independence of the order of account
      updates, fees as the join of two tables, vault resolution independent of
      the map order. The program decoders below it: amounts, orientation and
      canonical pairs, layouts as round trips, fee bounds.
    - The backfill ([Backfill.v]): the ranges partition the span, a successful run
      processed all of it, no slot twice in any run, termination and absence of
      deadlock. The invariant is proved by induction on the steps.
    - The bridge ([Bridge.v]): longest-prefix mapping for any sort, durable names.
      [BridgeRun.v]: for every interleaving of the consumers, acknowledgement only
      after acceptance and in order per consumer; what [Run] returns; that a
      cancelled run ends within a bounded number of steps; what a failed first
      subscription leaves behind. [BridgeRefine.v]: the steps of one consumer, with
      everything else in between, compute what [consumeLoop] does. [Mirror.v]: over
      any number of runs that stop anywhere, the target never holds a copy twice and,
      once all is acknowledged, holds every copy.
    - The publisher ([Publisher.v]): what the Msg-Id of each kind of message
      identifies, validity of subject tokens.
    - The sinks ([ClickHouse.v], [Parquet.v]): whatever the client or the uploads
      refuse, the rows accepted followed by the rows in memory are the rows of the
      handled messages, each once and in order; which rows a failed call of the writer
      drops; batches, columns and objects are well formed; the row of a published
      swap, field by field, and the name of an object; bounded reconnection.
    - The streams ([Streams.v], [Failover.v]): the replay slot of every request, the
      filters, the alternation of the clients, and that a closed client never
      streams again. [Channels.v]: for every interleaving over the bounded channels
      the goroutine does what [stream_loop] says, and nothing is lost or reordered
      on the way to the processor; when it ends after [Close], and the unread error
      that keeps it. [HeliusClient.v]: the fallback emits what the processor
      publishes. [Candles.v]: from the setup on, every fetched batch is settled
      once, and what was acknowledged was taken by the writers.
    - The compositions. [Pipeline.v]: every row of the table comes from an event
      decoded from the stream; within the deduplication window of the stream no
      settled swap is ever stored. [Dedup.v]: within it a transaction has at most one
      row, however often the streams replay it: that of its first published swap, if
      that was accepted, so its other swaps have none; [EndToEnd.v] states it of the
      two processes. [SinkReplay.v]: the rows of a replayed fixture, field by field.
      [ParquetInspect.v]: inspecting the objects of the Parquet sink counts what it
      was given. [DocGen.v]: a run keeps the files that were there and a second one
      does nothing; the blocks of a page are its declarations in order.
    - The processes. [EndToEnd.v]: what the ingestor has set up when it runs, what
      it hands to the processor, that it leaves no NATS connection when it does
      not run, and that only a nil message makes it panic. [Commands.v]: the setup, and
      when the ticker of a sink panics. [Processes.v]: the theorems on the running
      sinks as statements about their [main]. [Services.v]: the connections of every constructor, and how
      [Service.Run] leaves its metrics server. [Metrics.v]: registering the metrics
      never panics in a registry that has none of them.
    - The HTTP API: with stub data only, the cache is transparent in every order of
      its background writes ([cache_transparent]); an answer from the cache is
      written back ([answer_written_back]).
    - The slot cache: ranges, pruning in any order, and the one end slot for which
      [GetRange] diverges.

    Lemmas outside the property sections state defects of the code on concrete
    inputs ([ParseSwapEvent_wraps], [calculateFeeAmount_wraps],
    [buildOrcaSwap_zero_amounts], [durableName_collision], [sink_process_panics],
    [nil_message_panics], [Run_loses_acked], [swap_before_head], [objectName_cut], [Process_acks_buffered]).

    ** Fuel and bounds

    [Mem_GetRange] has one unit per iteration: range length plus two is enough
    ([GetRange_total]), except for the last slot, where none is
    ([GetRange_diverges_at_max]). [schedule] needs one per batch and one more
    ([schedule_partition]). The runs of [Backfill.v] and [BridgeRun.v] are lists of
    steps, bounded by a measure of the state. In [Channels.v] the capacities are
    those of the code (100 updates, 128 for the Helius client, one error), and
    after [Close] the goroutine has at most seven steps left. The deduplication
    window ([DedupWindow]) is not bounded in time: the theorems that use it are on
    what is replayed within the window of the stream. [runes] gets the byte length, one rune being at least
    one byte. [math.Pow] recurses on the bits of its exponent. The loops over
    streams ([run], [consumeLoop], [pull_loop], [stream_loop], [clientLoop]) recurse
    on the list of inputs.

    ** Not modelled

    Signal handling (a signal is a choice that drives a run), the exposition of
    metrics, generated code and the C++ engine: they are I/O, third-party or not Go.
    The routing of chi is the type of the requests of [HttpApi.v], the JSON of a
    fixture or a summary is the value it stands for, and the Go parser and printer
    that [DocGen.v] calls are its arguments. *)

From Stdlib Require Export ZArith Lia.
From stdpp Require Export base tactics numbers strings list gmap sorting pretty.

(** Files of the development open both scopes; integers are [Z]. *)
Open Scope Z_scope.

(** ** Notation scope, hint databases and automation *)

Declare Scope go_scope.
Delimit Scope go_scope with go.
Open Scope go_scope.

(** [go_simpl] holds the rewriting rules that evaluate Go integer conversions;
    [go] holds the bounds and well-formedness facts used by [eauto]. *)
Create Rewrite HintDb go_simpl.
Create HintDb go discriminated.

(** Split every [if]/[match] of the goal or of the hypotheses, then clean up. *)
Ltac go_cases :=
  repeat (case_match || case_decide || case_bool_decide); simplify_eq/=.

(** Turn boolean comparisons of the model into propositions for [lia]. *)
Ltac go_bool :=
  repeat match goal with
  | H : (_ && _)%bool = true |- _ => apply andb_true_iff in H as [? ?]
  | H : (_ && _)%bool = false |- _ => apply andb_false_iff in H
  | H : (_ || _)%bool = true |- _ => apply orb_true_iff in H
  | H : (_ || _)%bool = false |- _ => apply orb_false_iff in H as [? ?]
  | H : negb _ = true |- _ => apply negb_true_iff in H
  | H : negb _ = false |- _ => apply negb_false_iff in H
  | H : (_ =? _) = true |- _ => apply Z.eqb_eq in H
  | H : (_ =? _) = false |- _ => apply Z.eqb_neq in H
  | H : (_ <? _) = true |- _ => apply Z.ltb_lt in H
  | H : (_ <? _) = false |- _ => apply Z.ltb_ge in H
  | H : (_ <=? _) = true |- _ => apply Z.leb_le in H
  | H : (_ <=? _) = false |- _ => apply Z.leb_gt in H
  | H : (_ >? _) = true |- _ => rewrite Z.gtb_ltb in H
  | H : (_ >? _) = false |- _ => rewrite Z.gtb_ltb in H
  | H : (_ >=? _) = true |- _ => rewrite Z.geb_leb in H
  | H : (_ >=? _) = false |- _ => rewrite Z.geb_leb in H
  end.

(** ** Machine integers

    A Go integer is the [Z] it denotes; a conversion or an operation that can
    leave its range is written with the wrap-around function of its width. *)

Definition u8 (z : Z) : Z := z mod 2 ^ 8.
Definition u16 (z : Z) : Z := z mod 2 ^ 16.
Definition u32 (z : Z) : Z := z mod 2 ^ 32.
Definition u64 (z : Z) : Z := z mod 2 ^ 64.
Definition i64 (z : Z) : Z := (z + 2 ^ 63) mod 2 ^ 64 - 2 ^ 63.
Definition i32 (z : Z) : Z := (z + 2 ^ 31) mod 2 ^ 32 - 2 ^ 31.

Definition MaxUint64 : Z := 2 ^ 64 - 1.

Definition is_u8 (z : Z) : Prop := 0 <= z < 2 ^ 8.
Definition is_u16 (z : Z) : Prop := 0 <= z < 2 ^ 16.
Definition is_u32 (z : Z) : Prop := 0 <= z < 2 ^ 32.
Definition is_u64 (z : Z) : Prop := 0 <= z < 2 ^ 64.
Definition is_i64 (z : Z) : Prop := - 2 ^ 63 <= z < 2 ^ 63.

Lemma u8_range z : is_u8 (u8 z).
Proof. apply Z.mod_pos_bound. lia. Qed.
Lemma u16_range z : is_u16 (u16 z).
Proof. apply Z.mod_pos_bound. lia. Qed.
Lemma u32_range z : is_u32 (u32 z).
Proof. apply Z.mod_pos_bound. lia. Qed.
Lemma u64_range z : is_u64 (u64 z).
Proof. apply Z.mod_pos_bound. lia. Qed.
Lemma i64_range z : is_i64 (i64 z).
Proof. unfold is_i64, i64. pose proof (Z.mod_pos_bound (z + 2 ^ 63) (2 ^ 64)). lia. Qed.

Lemma u8_small z : is_u8 z → u8 z = z.
Proof. apply Z.mod_small. Qed.
Lemma u16_small z : is_u16 z → u16 z = z.
Proof. apply Z.mod_small. Qed.
Lemma u32_small z : is_u32 z → u32 z = z.
Proof. apply Z.mod_small. Qed.
Lemma u64_small z : is_u64 z → u64 z = z.
Proof. apply Z.mod_small. Qed.
Lemma i64_small z : is_i64 z → i64 z = z.
Proof. unfold is_i64, i64. intros. rewrite Z.mod_small; lia. Qed.

Lemma u64_u64 z : u64 (u64 z) = u64 z.
Proof. apply u64_small, u64_range. Qed.

(** Two's complement subtraction does not see the intermediate conversions. *)
Lemma i64_sub a b : i64 (i64 a - i64 b) = i64 (a - b).
Proof.
  unfold i64. f_equal.
  replace ((a + 2 ^ 63) mod 2 ^ 64 - 2 ^ 63 - ((b + 2 ^ 63) mod 2 ^ 64 - 2 ^ 63) + 2 ^ 63)
    with ((a + 2 ^ 63) mod 2 ^ 64 - (b + 2 ^ 63) mod 2 ^ 64 + 2 ^ 63) by lia.
  rewrite <- Zplus_mod_idemp_l, <- Zminus_mod, Zplus_mod_idemp_l. f_equal. lia.
Qed.

Lemma i64_succ a : i64 (i64 a + 1) = i64 (a + 1).
Proof. replace (i64 a + 1) with (i64 a - i64 (-1)) by done. rewrite i64_sub. done. Qed.

(** [uint64(-d)] of a negative [int64] is its magnitude, [MinInt64] included. *)
Lemma u64_neg_i64 d : is_i64 d → d < 0 → u64 (i64 (- d)) = - d.
Proof.
  unfold is_i64, i64, u64. intros ??.
  destruct (Z.eq_dec d (- 2 ^ 63)) as [->|]; [reflexivity|].
  rewrite (Z.mod_small (- d + 2 ^ 63)) by lia. rewrite Z.mod_small; lia.
Qed.

#[export] Hint Resolve u8_range u16_range u32_range u64_range i64_range : go.
#[export] Hint Rewrite u64_u64 i64_sub : go_simpl.

(** ** Go errors

    [Errorf] is an error built by [fmt.Errorf] or a local [errors.New] without
    a wrapped error: its format string and its arguments, unrendered. [Wrapf]
    is [fmt.Errorf] with a [%w] verb. [Sentinel] is a package-level error value,
    compared by identity. [DecodeError] is the struct of
    [ingestor/decoder/decoder.go]. *)

Inductive fmtarg :=
  | FStr (s : string)
  | FInt (z : Z)
  | FBool (b : bool)
  | FStrs (ss : list string).

Inductive error :=
  | Errorf (fmt : string) (args : list fmtarg)
  | Wrapf (fmt : string) (args : list fmtarg) (inner : error)
  | Sentinel (name : string)
  | DecodeError (Program : string) (Err : error).

#[global] Instance fmtarg_eq_dec : EqDecision fmtarg.
Proof. solve_decision. Defined.
#[global] Instance error_eq_dec : EqDecision error.
Proof. solve_decision. Defined.

(** [errors.Is] against a sentinel. *)
Fixpoint errors_Is (e : error) (name : string) : bool :=
  match e with
  | Errorf _ _ => false
  | Wrapf _ _ e' => errors_Is e' name
  | Sentinel n => bool_decide (n = name)
  | DecodeError _ e' => errors_Is e' name
  end.

(** [errors.As] with a [*DecodeError] target: the program of the first match. *)
Fixpoint errors_As_DecodeError (e : error) : option string :=
  match e with
  | DecodeError p _ => Some p
  | Wrapf _ _ e' => errors_As_DecodeError e'
  | Errorf _ _ | Sentinel _ => None
  end.

(** ** Fallible and stateful code *)

Inductive result (A : Type) :=
  | Ok (a : A)
  | Err (e : error).
Arguments Ok {A} _.
Arguments Err {A} _.

#[global] Instance result_eq_dec `{EqDecision A} : EqDecision (result A).
Proof. solve_decision. Defined.

#[global] Instance result_ret : MRet result := @Ok.
#[global] Instance result_bind : MBind result := λ A B f m,
  match m with Ok a => f a | Err e => Err e end.
#[global] Instance result_fmap : FMap result := λ A B f m,
  match m with Ok a => Ok (f a) | Err e => Err e end.

(** [fmt.Errorf("ctx: %w", err)] around a fallible call. *)
Definition wrap_err {A} (fmt : string) (args : list fmtarg) (m : result A) : result A :=
  match m with Ok a => Ok a | Err e => Err (Wrapf fmt args e) end.

Definition is_ok {A} (m : result A) : bool :=
  match m with Ok _ => true | Err _ => false end.

Lemma bind_Ok {A B} (m : result A) (f : A → result B) b :
  m ≫= f = Ok b ↔ ∃ a, m = Ok a ∧ f a = Ok b.
Proof. destruct m; simpl; naive_solver. Qed.

Lemma wrap_err_Ok {A} fmt args (m : result A) a :
  wrap_err fmt args m = Ok a ↔ m = Ok a.
Proof. destruct m; simpl; naive_solver. Qed.

(** A computation that threads a mutable state and may return an error; the
    state changed before the error stays changed, as in the code. *)
Definition M (S A : Type) : Type := S → S * result A.

#[global] Instance M_ret {S} : MRet (M S) := λ A a s, (s, Ok a).
#[global] Instance M_bind {S} : MBind (M S) := λ A B f m s,
  match m s with
  | (s', Ok a) => f a s'
  | (s', Err e) => (s', Err e)
  end.

Definition M_throw {S A} (e : error) : M S A := λ s, (s, Err e).
Definition M_get {S} : M S S := λ s, (s, Ok s).
Definition M_modify {S} (f : S → S) : M S () := λ s, (f s, Ok tt).

(** A [for range] loop whose body may return an error. *)
Fixpoint M_for {S A} (l : list A) (body : A → M S ()) : M S () :=
  match l with
  | [] => mret tt
  | x :: l' => body x ≫= λ _, M_for l' body
  end.

Lemma M_bind_run {S A B} (m : M S A) (f : A → M S B) s :
  (m ≫= f) s = match m s with (s', Ok a) => f a s' | (s', Err e) => (s', Err e) end.
Proof. reflexivity. Qed.

Lemma M_for_cons {S A} (x : A) (l : list A) (body : A → M S ()) s :
  M_for (x :: l) body s
  = match body x s with (s', Ok _) => M_for l body s' | (s', Err e) => (s', Err e) end.
Proof. reflexivity. Qed.

Lemma M_for_app {S A} (l1 l2 : list A) (body : A → M S ()) s :
  M_for (l1 ++ l2) body s = (M_for l1 body ≫= λ _, M_for l2 body) s.
Proof.
  revert s. induction l1 as [|x l1 IH]; intros s; [done|].
  unfold mbind, M_bind in *. simpl. unfold mbind, M_bind.
  destruct (body x s) as [s' [[]|e]]; [|done]. by rewrite IH.
Qed.

(** A property of the state that every iteration keeps is kept by the loop,
    whether or not the loop ends early. *)
Lemma M_for_inv {S A} (I : S → Prop) (l : list A) (body : A → M S ()) s :
  (∀ x s, x ∈ l → I s → I (body x s).1) → I s → I (M_for l body s).1.
Proof.
  revert s. induction l as [|x l IH]; intros s Hbody HI; [done|].
  simpl. unfold mbind, M_bind.
  pose proof (Hbody x s ltac:(left) HI) as Hx.
  destruct (body x s) as [s' [[]|e]]; [|done].
  apply IH; [|done]. intros y s0 Hy. apply Hbody. by right.
Qed.

(** ** Lists *)

Definition slice {A} (i j : nat) (l : list A) : list A := take (j - i) (drop i l).

Lemma length_slice {A} i j (l : list A) :
  (i <= j <= length l)%nat → length (slice i j l) = (j - i)%nat.
Proof. intros. unfold slice. rewrite length_take, length_drop. lia. Qed.

Definition zlen {A} (l : list A) : Z := Z.of_nat (length l).

Lemma zlen_nonneg {A} (l : list A) : 0 <= zlen l.
Proof. unfold zlen. lia. Qed.

#[export] Hint Resolve zlen_nonneg : go.

Section list_filter.
Context {A : Type} (P : A → Prop) `{∀ x, Decision (P x)}.
Lemma list_filter_all l : Forall P l → filter P l = l.
Proof. induction 1 as [|x l Hx _ IH]; [done|]. by rewrite filter_cons_True, IH by done. Qed.
Lemma list_filter_none l : Forall (λ x, ¬ P x) l → filter P l = [].
Proof. induction 1 as [|x l Hx _ IH]; [done|]. by rewrite filter_cons_False by done. Qed.
End list_filter.

Lemma elem_of_concat {A} (x : A) ls : x ∈ concat ls ↔ ∃ l, x ∈ l ∧ l ∈ ls.
Proof.
  rewrite list_elem_of_In, in_concat. setoid_rewrite list_elem_of_In. naive_solver.
Qed.

(** ** Iteration over a Go map

    [range] over a map visits each entry once in an unspecified order. Code that
    ranges over a map takes the visiting order as an argument, a [range_order],
    and the theorems hold for every order that lists the entries of the map. *)

Class RangeOrder (K V : Type) `{Countable K} := {
  range_entries : gmap K V → list (K * V);
  range_entries_perm m : range_entries m ≡ₚ map_to_list m;
}.
Arguments RangeOrder K V {_ _}.

(** One such order. *)
Definition map_to_list_order {K V} `{Countable K} : RangeOrder K V :=
  {| range_entries := map_to_list; range_entries_perm m := Permutation_refl _ |}.

Section range_order.
Context {K V : Type} `{Countable K} {R : RangeOrder K V}.

Lemma elem_of_range_entries (m : gmap K V) k v :
  (k, v) ∈ range_entries m ↔ m !! k = Some v.
Proof. rewrite range_entries_perm. apply elem_of_map_to_list. Qed.

Lemma elem_of_range_values (m : gmap K V) v :
  v ∈ (range_entries m).*2 ↔ ∃ k, m !! k = Some v.
Proof.
  rewrite list_elem_of_fmap. split.
  - intros ([k v'] & -> & Hin%elem_of_range_entries). by exists k.
  - intros [k Hk%elem_of_range_entries]. by exists (k, v).
Qed.

Lemma NoDup_range_entries (m : gmap K V) : NoDup (range_entries m).*1.
Proof. rewrite range_entries_perm. apply NoDup_fst_map_to_list. Qed.
End range_order.
