(* ===== verification/GoStrings.v ===== *)
(** * Go strings

    A Go string is a byte string: [string] is a sequence of 8-bit [ascii]. This
    file models what the program uses of the packages [strings], [strconv] and
    [unicode/utf8]: prefixes and cuts, decoding of runes, [strings.Map],
    [strings.Fields], [strings.Trim], [strings.ToLower], [strconv.ParseUint] in
    base 10 and the [%d] verb ([pretty], stdpp's decimal printer).

    The only part that is not computed is the Unicode case table above ASCII,
    which is an argument of [ToLower]. *)

From S2P Require Import Prelude.
From Stdlib Require Import Ascii.
Local Open Scope string_scope.
Local Open Scope Z_scope.
Local Open Scope list_scope.

(** ** Bytes of a string *)

Definition bval (c : ascii) : Z := Z.of_N (N_of_ascii c).
Definition bchr (z : Z) : ascii := ascii_of_N (Z.to_N (z mod 256)).

Fixpoint bytes (s : string) : list ascii :=
  match s with EmptyString => [] | String c s' => c :: bytes s' end.
Fixpoint of_bytes (l : list ascii) : string :=
  match l with [] => EmptyString | c :: l' => String c (of_bytes l') end.

(** [len(s)] *)
Definition slen (s : string) : nat := length (bytes s).

Lemma app_str_cons c (s t : string) : String c s +:+ t = String c (s +:+ t).
Proof. reflexivity. Qed.
Lemma app_str_nil_l (s : string) : "" +:+ s = s.
Proof. reflexivity. Qed.

Lemma of_bytes_bytes s : of_bytes (bytes s) = s.
Proof. induction s; simpl; congruence. Qed.
Lemma bytes_of_bytes l : bytes (of_bytes l) = l.
Proof. induction l; simpl; congruence. Qed.
Lemma bytes_app s t : bytes (s +:+ t) = bytes s ++ bytes t.
Proof. induction s; rewrite ?app_str_cons; simpl; [done|]. by f_equal. Qed.
Lemma of_bytes_app l k : of_bytes (l ++ k) = of_bytes l +:+ of_bytes k.
Proof. induction l; simpl; rewrite ?app_str_cons; [done|]. by f_equal. Qed.
Lemma slen_app s t : slen (s +:+ t) = (slen s + slen t)%nat.
Proof. unfold slen. by rewrite bytes_app, length_app. Qed.
Lemma bytes_inj s t : bytes s = bytes t → s = t.
Proof. intros H. rewrite <- (of_bytes_bytes s), <- (of_bytes_bytes t). by f_equal. Qed.
Lemma slen_0 s : slen s = 0%nat ↔ s = "".
Proof. destruct s; unfold slen; simpl; naive_solver. Qed.

#[export] Hint Rewrite of_bytes_bytes bytes_of_bytes bytes_app slen_app : go_simpl.

Lemma app_str_assoc (s t u : string) : (s +:+ t) +:+ u = s +:+ (t +:+ u).
Proof. induction s; rewrite ?app_str_cons; [done|]. by f_equal. Qed.
Lemma app_str_nil_r (s : string) : s +:+ "" = s.
Proof. induction s; rewrite ?app_str_cons; [done|]. by f_equal. Qed.

(** [s[:n]] and [s[n:]], for [n <= len(s)] as the callers ensure. *)
Definition str_take (n : nat) (s : string) : string := of_bytes (take n (bytes s)).
Definition str_drop (n : nat) (s : string) : string := of_bytes (drop n (bytes s)).

Lemma str_take_drop n s : str_take n s +:+ str_drop n s = s.
Proof. unfold str_take, str_drop. by rewrite <- of_bytes_app, take_drop, of_bytes_bytes. Qed.
Lemma slen_str_take n s : slen (str_take n s) = Nat.min n (slen s).
Proof. unfold slen, str_take. by rewrite bytes_of_bytes, length_take. Qed.

(** [strings.HasPrefix], [strings.HasSuffix], [strings.TrimPrefix],
    [strings.Contains]. *)
Definition HasPrefix (s pre : string) : bool :=
  bool_decide (take (slen pre) (bytes s) = bytes pre).
Definition HasSuffix (s suf : string) : bool :=
  bool_decide (slen suf ≤ slen s)%nat
  && bool_decide (drop (slen s - slen suf) (bytes s) = bytes suf).
Definition TrimPrefix (s pre : string) : string :=
  if HasPrefix s pre then str_drop (slen pre) s else s.
Definition TrimSuffix (s suf : string) : string :=
  if HasSuffix s suf then str_take (slen s - slen suf) s else s.
Fixpoint Contains (s sub : string) : bool :=
  HasPrefix s sub || match s with EmptyString => false | String _ s' => Contains s' sub end.

Lemma HasPrefix_spec s pre : HasPrefix s pre = true ↔ ∃ t, s = pre +:+ t.
Proof.
  unfold HasPrefix. rewrite bool_decide_eq_true. split.
  - intros H. exists (str_drop (slen pre) s). apply bytes_inj. unfold str_drop.
    rewrite bytes_app, bytes_of_bytes, <- H. by rewrite take_drop.
  - intros [t ->]. rewrite bytes_app. unfold slen. by rewrite take_app_length.
Qed.

Lemma HasPrefix_app pre t : HasPrefix (pre +:+ t) pre = true.
Proof. apply HasPrefix_spec. eauto. Qed.

Lemma str_drop_app pre t : str_drop (slen pre) (pre +:+ t) = t.
Proof.
  unfold str_drop, slen. rewrite bytes_app, drop_app_length. apply of_bytes_bytes.
Qed.

Lemma HasSuffix_spec s suf : HasSuffix s suf = true ↔ ∃ t, s = t +:+ suf.
Proof.
  unfold HasSuffix. rewrite andb_true_iff, !bool_decide_eq_true. split.
  - intros [Hl H]. exists (str_take (slen s - slen suf) s). apply bytes_inj. unfold str_take.
    rewrite bytes_app, bytes_of_bytes, <- H. by rewrite take_drop.
  - intros [t ->]. unfold slen. rewrite bytes_app, length_app. split; [lia|].
    replace (length (bytes t) + length (bytes suf) - length (bytes suf))%nat
      with (length (bytes t)) by lia. by rewrite drop_app_length.
Qed.

(** A suffix that ends with another byte. *)
Lemma HasSuffix_last s a b :
  last (bytes a) ≠ last (bytes b) → a ≠ "" → b ≠ "" → HasSuffix (s +:+ a) b = false.
Proof.
  intros Hne Ha Hb. destruct (HasSuffix _ _) eqn:E; [|done]. apply HasSuffix_spec in E as [t E].
  apply (f_equal (λ x, last (bytes x))) in E. rewrite !bytes_app, !last_app in E.
  assert (∀ x, x ≠ "" → is_Some (last (bytes x))) as Hs.
  { intros x Hx. apply last_is_Some. intros Hn. apply Hx. by apply bytes_inj. }
  destruct (Hs a Ha) as [x Hx], (Hs b Hb) as [y Hy]. rewrite Hx, Hy in E. congruence.
Qed.

#[export] Hint Resolve HasPrefix_app : go.

(** ** Runes

    [for _, r := range s]: the runes of a string with the bytes of each; an
    invalid byte is one [RuneError]. The table is that of [unicode/utf8]. *)

Definition RuneError : Z := 65533.

Definition is_cont (z : Z) : bool := (128 <=? z) && (z <=? 191).

(** [utf8.DecodeRune] on a non-empty byte list: the rune and its width. *)
Definition decode_rune (l : list ascii) : Z * nat :=
  match bval <$> l with
  | [] => (RuneError, 0%nat)
  | b0 :: t =>
    let in_range lo hi z := (lo <=? z) && (z <=? hi) in
    if b0 <? 128 then (b0, 1%nat)
    else if in_range 194 223 b0 then
      match t with
      | b1 :: _ => if is_cont b1 then ((b0 - 192) * 64 + (b1 - 128), 2%nat) else (RuneError, 1%nat)
      | _ => (RuneError, 1%nat)
      end
    else if in_range 224 239 b0 then
      let lo := if b0 =? 224 then 160 else 128 in
      let hi := if b0 =? 237 then 159 else 191 in
      match t with
      | b1 :: b2 :: _ =>
        if in_range lo hi b1 && is_cont b2
        then ((b0 - 224) * 4096 + (b1 - 128) * 64 + (b2 - 128), 3%nat) else (RuneError, 1%nat)
      | _ => (RuneError, 1%nat)
      end
    else if in_range 240 244 b0 then
      let lo := if b0 =? 240 then 144 else 128 in
      let hi := if b0 =? 244 then 143 else 191 in
      match t with
      | b1 :: b2 :: b3 :: _ =>
        if in_range lo hi b1 && is_cont b2 && is_cont b3
        then ((b0 - 240) * 262144 + (b1 - 128) * 4096 + (b2 - 128) * 64 + (b3 - 128), 4%nat)
        else (RuneError, 1%nat)
      | _ => (RuneError, 1%nat)
      end
    else (RuneError, 1%nat)
  end.

(** Fuel: one rune consumes at least one byte. *)
Fixpoint runes_go (fuel : nat) (l : list ascii) : list (Z * list ascii) :=
  match fuel, l with
  | S fuel', _ :: _ =>
    let '(r, w) := decode_rune l in (r, take w l) :: runes_go fuel' (drop w l)
  | _, _ => []
  end.
Definition runes (s : string) : list (Z * list ascii) := runes_go (slen s) (bytes s).

(** [utf8.AppendRune] *)
Definition encode_rune (r : Z) : list ascii :=
  if (0 <=? r) && (r <? 128) then [bchr r]
  else if (128 <=? r) && (r <? 2048) then [bchr (192 + r / 64); bchr (128 + r mod 64)]
  else if (r <? 0) || (1114111 <? r) || ((55296 <=? r) && (r <=? 57343)) then
    [bchr 239; bchr 191; bchr 189]
  else if r <? 65536 then
    [bchr (224 + r / 4096); bchr (128 + (r / 64) mod 64); bchr (128 + r mod 64)]
  else
    [bchr (240 + r / 262144); bchr (128 + (r / 4096) mod 64);
     bchr (128 + (r / 64) mod 64); bchr (128 + r mod 64)].

(** [strings.Map]: a negative result drops the rune. *)
Definition strings_Map (f : Z → Z) (s : string) : string :=
  of_bytes (concat ((λ r, if f r <? 0 then [] else encode_rune (f r)) <$> (runes s).*1)).

(** Strings of 7-bit bytes. *)
Definition is_ascii (s : string) : Prop := Forall (λ c, bval c < 128) (bytes s).
#[global] Instance is_ascii_dec s : Decision (is_ascii s).
Proof. unfold is_ascii. apply _. Defined.

Lemma bval_range c : 0 <= bval c < 256.
Proof.
  unfold bval. destruct c as [[] [] [] [] [] [] [] []]; vm_compute; split; congruence.
Qed.
Lemma bchr_bval c : bchr (bval c) = c.
Proof. by destruct c as [[] [] [] [] [] [] [] []]. Qed.
Lemma bval_inj c d : bval c = bval d → c = d.
Proof. intros H. rewrite <- (bchr_bval c), <- (bchr_bval d). by f_equal. Qed.

Lemma decode_rune_ascii c l : bval c < 128 → decode_rune (c :: l) = (bval c, 1%nat).
Proof. intros. unfold decode_rune. simpl. destruct (Z.ltb_spec (bval c) 128); [done|lia]. Qed.

(** On an ASCII string a rune is a byte. *)
Lemma runes_ascii s : is_ascii s → runes s = (λ c, (bval c, [c])) <$> bytes s.
Proof.
  unfold runes, is_ascii, slen. generalize (bytes s) as l. clear s.
  induction l as [|c l IH]; intros Hl; [done|].
  apply Forall_cons in Hl as [Hc Hl]. cbn [length runes_go].
  rewrite decode_rune_ascii by done. simpl. by rewrite drop_0, IH.
Qed.

Lemma encode_rune_ascii r : 0 <= r < 128 → encode_rune r = [bchr r].
Proof. intros. unfold encode_rune. destruct (Z.leb_spec 0 r), (Z.ltb_spec r 128); done || lia. Qed.

(** [strings.Map] on an ASCII string whose image is ASCII. *)
Lemma strings_Map_ascii f s :
  is_ascii s → (∀ r, 0 <= r < 128 → f r < 128) →
  bytes (strings_Map f s)
  = omap (λ c, if f (bval c) <? 0 then None else Some (bchr (f (bval c)))) (bytes s).
Proof.
  intros Hs Hf. unfold strings_Map. rewrite bytes_of_bytes, runes_ascii by done.
  unfold is_ascii in Hs. revert Hs. generalize (bytes s) as l. clear s.
  induction l as [|c l IH]; intros Hs; [done|]. apply Forall_cons in Hs as [Hc Hs].
  pose proof (bval_range c). pose proof (Hf (bval c) ltac:(lia)).
  cbn [fmap list_fmap concat omap list_omap fst]. rewrite <- IH by done.
  destruct (Z.ltb_spec (f (bval c)) 0); [done|]. by rewrite encode_rune_ascii by lia.
Qed.

(** ** [strings.ToLower], [strings.TrimSpace]'s and [strings.Fields]' spaces,
    [strings.Trim] *)

(** [unicode.ToLower] below 128; [upper_table] is the rest of the table. *)
Definition ToLower (unicode_lower : Z → Z) (s : string) : string :=
  strings_Map (λ r, if r <? 128 then
                      (if (65 <=? r) && (r <=? 90) then r + 32 else r)
                    else unicode_lower r) s.

(** [unicode.IsSpace] *)
Definition IsSpace (r : Z) : bool :=
  bool_decide (r ∈ [9; 10; 11; 12; 13; 32; 133; 160; 5760; 8232; 8233; 8239; 8287; 12288])
  || ((8192 <=? r) && (r <=? 8202)).

Fixpoint fields_go (cur : list ascii) (l : list (Z * list ascii)) : list string :=
  match l with
  | [] => match cur with [] => [] | _ => [of_bytes cur] end
  | (r, raw) :: l' =>
    if IsSpace r then
      match cur with [] => fields_go [] l' | _ => of_bytes cur :: fields_go [] l' end
    else fields_go (cur ++ raw) l'
  end.
Definition Fields (s : string) : list string := fields_go [] (runes s).

Fixpoint drop_while {A} (p : A → bool) (l : list A) : list A :=
  match l with [] => [] | x :: l' => if p x then drop_while p l' else l end.

(** [strings.TrimSpace] *)
Definition TrimSpace (s : string) : string :=
  let space (rw : Z * list ascii) := IsSpace rw.1 in
  of_bytes (concat (reverse (drop_while space (reverse (drop_while space (runes s))))).*2).

(** [strings.Trim(s, cutset)] for an ASCII cutset. *)
Definition Trim (cutset s : string) : string :=
  let cut c := bool_decide (c ∈ bytes cutset) in
  of_bytes (reverse (drop_while cut (reverse (drop_while cut (bytes s))))).

Lemma drop_while_suffix {A} p (l : list A) : ∃ k, l = k ++ drop_while p l.
Proof.
  induction l as [|x l [k IH]]; [by exists []|]. simpl. destruct (p x).
  - exists (x :: k). simpl. by f_equal.
  - by exists [].
Qed.

Lemma slen_Trim cutset s : (slen (Trim cutset s) ≤ slen s)%nat.
Proof.
  unfold Trim, slen. rewrite bytes_of_bytes, length_reverse.
  set (cut := λ c, _).
  destruct (drop_while_suffix cut (reverse (drop_while cut (bytes s)))) as [k Hk].
  destruct (drop_while_suffix cut (bytes s)) as [k' Hk'].
  apply (f_equal length) in Hk, Hk'. rewrite length_app in Hk, Hk'.
  rewrite length_reverse in Hk. lia.
Qed.

(** ** [strconv.ParseUint(s, 10, 64)] *)

Definition ErrSyntax : error := Sentinel "strconv.ErrSyntax".
Definition ErrRange : error := Sentinel "strconv.ErrRange".

Definition digit (c : ascii) : option Z :=
  if (48 <=? bval c) && (bval c <=? 57) then Some (bval c - 48) else None.

(** The loop of [ParseUint]: [cutoff] is [MaxUint64/10 + 1]; both overflow tests
    of the code are kept. *)
Fixpoint ParseUint_go (n : Z) (l : list ascii) : result Z :=
  match l with
  | [] => Ok n
  | c :: l' =>
    match digit c with
    | None => Err ErrSyntax
    | Some d =>
      if MaxUint64 / 10 + 1 <=? n then Err ErrRange
      else
        let n10 := u64 (n * 10) in
        let n1 := u64 (n10 + d) in
        if (n1 <? n10) || (MaxUint64 <? n1) then Err ErrRange else ParseUint_go n1 l'
    end
  end.
Definition ParseUint (s : string) : result Z :=
  match s with EmptyString => Err ErrSyntax | _ => ParseUint_go 0 (bytes s) end.

(** The number a digit string denotes, with no bound. *)
Fixpoint digits_value (n : Z) (l : list ascii) : option Z :=
  match l with
  | [] => Some n
  | c :: l' => match digit c with Some d => digits_value (n * 10 + d) l' | None => None end
  end.

Lemma digit_range c d : digit c = Some d → 0 <= d <= 9.
Proof. unfold digit. intros. case_match; simplify_eq. go_bool. lia. Qed.

Lemma digits_value_ge n l v : digits_value n l = Some v → 0 <= n → n <= v.
Proof.
  revert n. induction l as [|c l IH]; simpl; intros n H Hn; [by simplify_eq|].
  destruct (digit c) as [d|] eqn:Hd; [|done]. apply digit_range in Hd.
  apply IH in H; lia.
Qed.

(** [ParseUint] succeeds exactly on digit strings whose value fits 64 bits. *)
Lemma ParseUint_go_spec n l z :
  is_u64 n → ParseUint_go n l = Ok z ↔ digits_value n l = Some z ∧ z <= MaxUint64.
Proof.
  revert n. induction l as [|c l IH]; intros n Hn.
  { simpl. unfold MaxUint64, is_u64 in *. split; [intros; simplify_eq; split; [done|lia]|].
    intros [? ?]. by simplify_eq. }
  cbn [ParseUint_go digits_value]. destruct (digit c) as [d|] eqn:Hd; [|naive_solver].
  apply digit_range in Hd.
  assert (MaxUint64 / 10 + 1 = 1844674407370955162) as -> by reflexivity.
  assert (∀ v, digits_value (n * 10 + d) l = Some v → n * 10 + d <= v) as Hge.
  { intros v Hv. apply digits_value_ge in Hv; unfold is_u64 in *; lia. }
  unfold MaxUint64, is_u64 in *.
  destruct (Z.leb_spec 1844674407370955162 n).
  { split; [done|]. intros [Hv ?]. apply Hge in Hv. lia. }
  rewrite (u64_small (n * 10)) by (unfold is_u64; lia).
  destruct (decide (n * 10 + d < 2 ^ 64)).
  - rewrite u64_small by (unfold is_u64; lia).
    destruct (Z.ltb_spec (n * 10 + d) (n * 10)); [lia|].
    destruct (Z.ltb_spec (2 ^ 64 - 1) (n * 10 + d)); [lia|]. simpl. apply IH. lia.
  - assert (u64 (n * 10 + d) = n * 10 + d - 2 ^ 64) as ->.
    { unfold u64. symmetry. apply (Zmod_unique _ _ 1); lia. }
    destruct (Z.ltb_spec (n * 10 + d - 2 ^ 64) (n * 10)); [|lia]. simpl.
    split; [done|]. intros [Hv ?]. apply Hge in Hv. lia.
Qed.

Lemma digits_value_app n l1 l2 :
  digits_value n (l1 ++ l2)
  = match digits_value n l1 with Some m => digits_value m l2 | None => None end.
Proof.
  revert n. induction l1 as [|c l1 IH]; intros n; [done|]. simpl.
  by destruct (digit c).
Qed.

Lemma digit_pretty_N_char x : (x < 10)%N → digit (pretty_N_char x) = Some (Z.of_N x).
Proof.
  intros. assert (x = 0 ∨ x = 1 ∨ x = 2 ∨ x = 3 ∨ x = 4 ∨ x = 5 ∨ x = 6 ∨ x = 7 ∨ x = 8 ∨ x = 9)%N
    by lia. by repeat destruct_or?; subst.
Qed.

Lemma digits_value_pretty_N_go x s n :
  0 <= n →
  ∃ k, 0 <= k ∧
  digits_value n (bytes (pretty_N_go x s))
  = digits_value (n * 10 ^ k + Z.of_N x) (bytes s).
Proof.
  revert s n. induction (N.lt_wf_0 x) as [x _ IH]; intros s n Hn.
  destruct (decide (x = 0)%N) as [->|].
  { exists 0. split; [done|]. rewrite pretty_N_go_0. f_equal. lia. }
  rewrite pretty_N_go_step by lia.
  destruct (IH (x `div` 10)%N) with (s := String (pretty_N_char (x `mod` 10)) s) (n := n)
    as [k [? Hk]]; [by apply N.div_lt; lia|done|].
  exists (k + 1). split; [lia|]. rewrite Hk. simpl.
  rewrite digit_pretty_N_char by (apply N.mod_lt; lia). f_equal.
  rewrite Z.pow_add_r, Z.pow_1_r, N2Z.inj_div, N2Z.inj_mod by lia.
  change (Z.of_N 10) with 10. pose proof (Z_div_mod_eq_full (Z.of_N x) 10). nia.
Qed.

Lemma pretty_Z_nonneg z : 0 <= z → pretty z = pretty (Z.to_N z).
Proof. by destruct z; [| |lia]. Qed.

Lemma digits_value_pretty z : 0 <= z → digits_value 0 (bytes (pretty z)) = Some z.
Proof.
  intros. rewrite pretty_Z_nonneg by done. unfold pretty, pretty_N.
  destruct (decide _) as [Hz|]; [assert (z = 0) as -> by lia; reflexivity|].
  destruct (digits_value_pretty_N_go (Z.to_N z) "" 0) as [k [_ ->]]; [done|].
  simpl. f_equal. rewrite Z2N.id; lia.
Qed.

Lemma pretty_nonempty z : 0 <= z → pretty z ≠ "".
Proof. intros Hz H. apply digits_value_pretty in Hz. rewrite H in Hz. simpl in Hz.
  injection Hz as <-. discriminate H. Qed.

Lemma digits_value_digits n l v : digits_value n l = Some v → Forall (λ c, is_Some (digit c)) l.
Proof.
  revert n. induction l as [|c l IH]; intros n; simpl; [constructor|].
  destruct (digit c) eqn:E; [|done]. intros ?%IH. constructor; eauto.
Qed.

(** The decimal printer emits digits only. *)
Lemma pretty_digits z : 0 <= z → Forall (λ c, is_Some (digit c)) (bytes (pretty z)).
Proof. intros ?%digits_value_pretty. by eapply digits_value_digits. Qed.

Lemma ParseUint_range s z : ParseUint s = Ok z → is_u64 z.
Proof.
  unfold ParseUint. destruct s as [|c s]; [done|].
  intros [Hv ?]%ParseUint_go_spec; [|by unfold is_u64].
  apply digits_value_ge in Hv; [|done]. unfold is_u64, MaxUint64 in *. lia.
Qed.

Lemma ParseUint_pretty z : is_u64 z → ParseUint (pretty z) = Ok z.
Proof.
  intros [??]. pose proof (pretty_nonempty z) as Hne. pose proof (digits_value_pretty z) as Hv.
  unfold ParseUint. destruct (pretty z) as [|c s] eqn:E; [by destruct Hne|].
  apply ParseUint_go_spec; [by unfold is_u64|]. rewrite Hv by done.
  unfold MaxUint64. split; [done|lia].
Qed.

#[export] Hint Resolve ParseUint_range ParseUint_pretty : go.

(** ** [strconv.Atoi] *)

Definition Atoi (s : string) : result Z :=
  match bytes s with
  | [] => Err ErrSyntax
  | c :: l =>
    let neg := bval c =? 45 in
    let digits := if neg || (bval c =? 43) then l else c :: l in
    un ← ParseUint (of_bytes digits);
    if negb neg && (2 ^ 63 <=? un) then Err ErrRange
    else if neg && (2 ^ 63 <? un) then Err ErrRange
    else Ok (if neg then - un else un)
  end.

Lemma Atoi_range s z : Atoi s = Ok z → is_i64 z.
Proof.
  unfold Atoi. destruct (bytes s) as [|c l]; [done|]. rewrite bind_Ok.
  intros (un & Hun%ParseUint_range & H). unfold is_u64, is_i64 in *.
  destruct (bval c =? 45); cbn [negb andb] in H; go_cases; go_bool; lia.
Qed.

(** ** Separators *)

(** A string that does not hold the byte [c]. *)
Definition free_of (c : ascii) (s : string) : Prop := c ∉ bytes s.
#[global] Instance free_of_dec c s : Decision (free_of c s).
Proof. unfold free_of. apply _. Defined.

(** Cutting at the first separator is unambiguous. *)
Lemma app_sep_inj {A} (c : A) l1 l2 k1 k2 :
  c ∉ l1 → c ∉ l2 → l1 ++ c :: k1 = l2 ++ c :: k2 → l1 = l2 ∧ k1 = k2.
Proof.
  revert l2. induction l1 as [|x l1 IH]; intros [|y l2]; rewrite ?not_elem_of_cons; simpl.
  - by intros _ _ [= ->].
  - intros _ [Hne _] [= E _]. congruence.
  - intros [Hne _] _ [= E _]. congruence.
  - intros [_ H1] [_ H2] [= -> E]. destruct (IH l2 H1 H2 E) as [-> ->]. done.
Qed.
Lemma app_sep_not_free {A} (c : A) l k l' : c ∉ l' → l ++ c :: k ≠ l'.
Proof. intros H <-. set_solver. Qed.

Lemma free_of_pretty c z : 0 <= z → digit c = None → free_of c (pretty z).
Proof.
  intros Hz Hc Hin. apply pretty_digits in Hz. rewrite Forall_forall in Hz.
  apply Hz in Hin as [d Hd]. congruence.
Qed.
Lemma pretty_inj z1 z2 : 0 <= z1 → 0 <= z2 → pretty z1 = pretty z2 → z1 = z2.
Proof.
  intros H1%digits_value_pretty H2%digits_value_pretty E. rewrite E in H1. congruence.
Qed.

#[export] Hint Resolve free_of_pretty : go.

(** ** [sort.Strings] *)

Definition sort_Strings : list string → list string := merge_sort String.le.

Lemma sort_Strings_sorted l : Sorted String.le (sort_Strings l).
Proof. apply (Sorted_merge_sort String.le). Qed.
Lemma sort_Strings_perm l : sort_Strings l ≡ₚ l.
Proof. apply merge_sort_Permutation. Qed.
Lemma sort_Strings_unique l l' : Sorted String.le l' → l ≡ₚ l' → sort_Strings l = l'.
Proof.
  intros Hs Hp. apply (Sorted_unique String.le); [apply sort_Strings_sorted|exact Hs|].
  by rewrite sort_Strings_perm.
Qed.

(** ** Hexadecimal and [strconv.Quote] *)

Definition hex_digit (z : Z) : ascii := bchr (if z <? 10 then 48 + z else 87 + z).
(** The last [n] digits. *)
Fixpoint hex_fixed (n : nat) (z : Z) : list ascii :=
  match n with 0%nat => [] | S n => hex_fixed n (z / 16) ++ [hex_digit (z mod 16)] end.
(** [fmt.Sprintf("%x", b)] of bytes. *)
Definition format_hex (b : list ascii) : string :=
  of_bytes (concat ((λ c, hex_fixed 2 (bval c)) <$> b)).

(** [strconv.IsPrint] up to Latin-1; [print_table] is the rest of the table. *)
Definition strconv_IsPrint (print_table : Z → bool) (r : Z) : bool :=
  if r <=? 255 then ((32 <=? r) && (r <? 127)) || ((161 <=? r) && negb (r =? 173))
  else print_table r.

Definition backslash : ascii := bchr 92.
Definition appendEscapedRune (print_table : Z → bool) (r : Z) (raw : list ascii) : list ascii :=
  if (r =? 34) || (r =? 92) then backslash :: raw
  else if strconv_IsPrint print_table r then raw
  else if (7 <=? r) && (r <=? 13) then
    backslash :: take 1 (drop (Z.to_nat (r - 7)) (bytes "abtnvfr"))
  else if (r <? 32) || (r =? 127) then backslash :: bytes "x" ++ hex_fixed 2 r
  else if r <? 65536 then backslash :: bytes "u" ++ hex_fixed 4 r
  else backslash :: bytes "U" ++ hex_fixed 8 r.

(** The runes of a string are valid; a byte that is none is written by its value. *)
Definition strconv_Quote (print_table : Z → bool) (s : string) : string :=
  of_bytes ([bchr 34] ++
    concat ((λ p : Z * list ascii,
      let '(r, raw) := p in
      if (r =? RuneError) && (length raw =? 1)%nat
      then backslash :: bytes "x" ++ hex_fixed 2 (match raw with c :: _ => bval c | [] => 0 end)
      else appendEscapedRune print_table r raw) <$> runes s)
    ++ [bchr 34]).

Example Quote_1 :
  bytes (strconv_Quote (λ _, true) (of_bytes (bchr <$> [97; 34; 10; 200; 1; 226; 130; 172])))
  = bchr <$> [34; 97; 92; 34; 92; 110; 92; 120; 99; 56; 92; 120; 48; 49; 226; 130; 172; 34].
Proof. reflexivity. Qed.
