(* ===== verification/GoSort.v ===== *)
(** * Sorting

    [sort.Slice] is any function that returns a sorted permutation; an insertion
    sort is one, and, as it is stable, it is [sort.SliceStable]. *)

From S2P Require Import Prelude.
Local Open Scope list_scope.

(** ** [sort.Slice] *)

Class SortSlice := {
  sort_Slice : ∀ {A}, (A → A → bool) → list A → list A;
  sort_Slice_perm {A} (less : A → A → bool) l : sort_Slice less l ≡ₚ l;
  (** [less] a strict weak order: no element is followed by a smaller one *)
  sort_Slice_sorted {A} (less : A → A → bool) l :
    (∀ x y z, less x y = true → less y z = true → less x z = true) →
    (∀ x, less x x = false) →
    (∀ x y z, less x y = true → less x z = true ∨ less z y = true) →
    ∀ i j x y, (i < j)%nat → sort_Slice less l !! i = Some x → sort_Slice less l !! j = Some y →
    less y x = false;
}.

(** ** A sorting function *)

Section insertion_sort.
Context {A : Type} (less : A → A → bool).

Fixpoint sort_insert (x : A) (l : list A) : list A :=
  match l with
  | [] => [x]
  | y :: l' => if less y x then y :: sort_insert x l' else x :: l
  end.
Definition insertion_sort (l : list A) : list A := foldr sort_insert [] l.

Lemma sort_insert_perm x l : sort_insert x l ≡ₚ x :: l.
Proof.
  induction l as [|y l IH]; [done|]. simpl. destruct (less y x); [|done].
  rewrite IH. constructor.
Qed.
Lemma insertion_sort_perm l : insertion_sort l ≡ₚ l.
Proof. induction l as [|x l IH]; [done|]. simpl. by rewrite sort_insert_perm, IH. Qed.

Context (Htrans : ∀ x y z, less x y = true → less y z = true → less x z = true)
  (Hirr : ∀ x, less x x = false)
  (Hweak : ∀ x y z, less x y = true → less x z = true ∨ less z y = true).

Lemma sort_insert_sorted x l :
  StronglySorted (λ a b, less b a = false) l →
  StronglySorted (λ a b, less b a = false) (sort_insert x l).
Proof.
  induction 1 as [|y l Hl IH Hy]; simpl; [by repeat constructor|].
  destruct (less y x) eqn:Hyx.
  - constructor; [done|]. rewrite sort_insert_perm. constructor; [|done].
    destruct (less x y) eqn:E; [|done]. pose proof (Htrans _ _ _ Hyx E). by rewrite Hirr in *.
  - constructor; [by constructor|]. constructor; [done|].
    eapply Forall_impl; [done|]. intros z Hz. simpl in Hz. destruct (less z x) eqn:Hzx; [|done].
    destruct (Hweak z x y Hzx); congruence.
Qed.
Lemma insertion_sort_sorted l : StronglySorted (λ a b, less b a = false) (insertion_sort l).
Proof. induction l; simpl; [constructor|by apply sort_insert_sorted]. Qed.
End insertion_sort.

Lemma StronglySorted_lookup {A} (R : A → A → Prop) l i j x y :
  StronglySorted R l → (i < j)%nat → l !! i = Some x → l !! j = Some y → R x y.
Proof.
  intros Hs. revert i j. induction Hs as [|z l Hs IH Hz]; intros i j Hij Hi Hj; [done|].
  destruct i as [|i], j as [|j]; try lia; simplify_eq/=.
  - rewrite Forall_forall in Hz. apply Hz. by eapply list_elem_of_lookup_2.
  - by apply (IH i j); [lia|..].
Qed.

Program Definition insertion_SortSlice : SortSlice := {|
  sort_Slice := @insertion_sort;
  sort_Slice_perm := @insertion_sort_perm;
|}.
Next Obligation.
  intros A less l Ht Hi Hw i j x y Hij Hx Hy.
  eapply (StronglySorted_lookup (λ a b, less b a = false)); [|done..]. by apply insertion_sort_sorted.
Qed.

(** [sort.SliceStable] *)
Notation sort_SliceStable := insertion_sort (only parsing).

(** Elements that [less] does not tell apart keep their order. *)
Lemma insertion_sort_stable {A} (less : A → A → bool) (P : A → Prop) `{∀ x, Decision (P x)} l :
  (∀ x y, P x → P y → less x y = false) → filter P (insertion_sort less l) = filter P l.
Proof.
  intros HP. induction l as [|x l IH]; [done|]. simpl. rewrite filter_cons, <- IH. clear IH.
  induction (insertion_sort less l) as [|y k IHk]; simpl; [by rewrite filter_cons|].
  destruct (less y x) eqn:Hyx; [|by rewrite filter_cons]. rewrite !filter_cons, IHk.
  destruct (decide (P y)) as [Hy|], (decide (P x)) as [Hx|]; try done.
  rewrite HP in Hyx; done.
Qed.

Lemma StronglySorted_impl {A} (R R' : A → A → Prop) l :
  (∀ x y, R x y → R' x y) → StronglySorted R l → StronglySorted R' l.
Proof.
  intros HR. induction 1 as [|x l Hl IH Hx]; constructor; [done|].
  eapply Forall_impl; [exact Hx|]. apply HR.
Qed.
