(* ===== verification/GoPath.v ===== *)
(** * Paths

    The part of [path/filepath] that the program uses, for the separator of Unix. *)

From S2P Require Import Prelude GoStrings.
From Stdlib Require Import Ascii.
Local Open Scope list_scope.

Definition slash : ascii := bchr 47.

(** The elements between the slashes, empty ones included. *)
Fixpoint split_on (c : ascii) (l : list ascii) : list (list ascii) :=
  match l with
  | [] => [[]]
  | x :: l' =>
    if decide (x = c) then [] :: split_on c l'
    else match split_on c l' with
         | [] => [[x]]
         | w :: ws => (x :: w) :: ws
         end
  end.

Fixpoint join_with (c : ascii) (ws : list (list ascii)) : list ascii :=
  match ws with
  | [] => []
  | [w] => w
  | w :: ws => w ++ c :: join_with c ws
  end.

(** The rules of [filepath.Clean] on the reversed list of kept elements. *)
Definition clean_step (rooted : bool) (out : list (list ascii)) (e : list ascii) :
    list (list ascii) :=
  if decide (e = [] ∨ e = bytes ".") then out
  else if decide (e = bytes "..") then
    match out with
    | [] => if rooted then [] else [e]
    | x :: out' => if decide (x = bytes "..") then e :: out else out'
    end
  else e :: out.

Definition filepath_Clean (path : string) : string :=
  let l := bytes path in
  let rooted := match l with x :: _ => bool_decide (x = slash) | [] => false end in
  let out := reverse (foldl (clean_step rooted) [] (split_on slash l)) in
  match rooted, out with
  | false, [] => "."
  | _, _ => of_bytes ((if rooted then [slash] else []) ++ join_with slash out)
  end.

Fixpoint filepath_Join (elems : list string) : string :=
  match elems with
  | [] => ""
  | e :: rest =>
    if bool_decide (e = "") then filepath_Join rest
    else filepath_Clean (of_bytes (join_with slash (bytes <$> elems)))
  end.


Definition filepath_IsAbs (path : string) : bool :=
  match bytes path with c :: _ => bool_decide (c = slash) | [] => false end.

(** The bytes after the last slash, and those up to it. *)
Fixpoint base_go (l : list ascii) : list ascii * list ascii :=
  match l with
  | [] => ([], [])
  | c :: l =>
    let '(dir, base) := base_go l in
    if decide (dir = [] ∧ c ≠ slash) then ([], c :: base) else (c :: dir, base)
  end.

Definition filepath_Dir (path : string) : string := filepath_Clean (of_bytes (base_go (bytes path)).1).

(** The last dot of the last element and what follows it. *)
Fixpoint ext_go (l : list ascii) : option (list ascii) :=
  match l with
  | [] => None
  | c :: l' =>
    match ext_go l' with
    | Some ext => Some ext
    | None => if decide (c = bchr 46) then Some l else None
    end
  end.
Definition filepath_Ext (path : string) : string :=
  of_bytes (default [] (ext_go (base_go (bytes path)).2)).

(** The elements of a path that [filepath_Clean] returned. *)
Definition elements (path : string) : list (list ascii) :=
  filter (λ e, e ≠ []) (split_on slash (bytes path)).

Fixpoint strip_common (base targ : list (list ascii)) : list (list ascii) * list (list ascii) :=
  match base, targ with
  | b :: base', t :: targ' => if decide (b = t) then strip_common base' targ' else (base, targ)
  | _, _ => (base, targ)
  end.

Definition filepath_Rel (basepath targpath : string) : result string :=
  let base := filepath_Clean basepath in
  let targ := filepath_Clean targpath in
  if decide (targ = base) then Ok "."
  else
    let base := if decide (base = ".") then "" else base in
    let '(b, t) := strip_common (elements base) (elements targ) in
    if negb (Bool.eqb (filepath_IsAbs base) (filepath_IsAbs targ))
       || bool_decide (head b = Some (bytes "..") ∧ t ≠ [])
    then Err (Errorf "Rel: can't make %s relative to %s" [FStr targpath; FStr basepath])
    else Ok (of_bytes (join_with slash (replicate (length b) (bytes "..") ++ t))).

Example Clean_1 : filepath_Clean "/a/./b//../c/" = "/a/c".
Proof. reflexivity. Qed.
Example Dir_1 : filepath_Dir "/a/b/c.go" = "/a/b".
Proof. reflexivity. Qed.
Example Dir_2 : filepath_Dir "c.go" = ".".
Proof. reflexivity. Qed.
Example Ext_1 : filepath_Ext "/a.b/c_test.go" = ".go" ∧ filepath_Ext "/a.b/c" = "".
Proof. split; reflexivity. Qed.
Example Rel_1 : filepath_Rel "/r/x" "/r/x/cmd/a.go" = Ok "cmd/a.go".
Proof. reflexivity. Qed.
Example Rel_2 : filepath_Rel "/r/x" "/r/y/a.go" = Ok "../y/a.go".
Proof. reflexivity. Qed.
Example Rel_3 : filepath_Rel "/" "/a" = Ok "a" ∧ filepath_Rel "a/b" "a" = Ok "..".
Proof. split; reflexivity. Qed.

(** ** [filepath_Clean] is idempotent *)

Lemma split_on_free c w : c ∉ w → split_on c w = [w].
Proof.
  induction w as [|x w IH]; [done|]. intros Hc. simpl. apply not_elem_of_cons in Hc as [Hx Hw].
  rewrite decide_False by congruence. by rewrite IH.
Qed.

Lemma split_on_app c w l : c ∉ w → split_on c (w ++ c :: l) = w :: split_on c l.
Proof.
  induction w as [|x w IH]; intros Hc; simpl; [by rewrite decide_True|].
  apply not_elem_of_cons in Hc as [Hx Hw]. rewrite decide_False by congruence. by rewrite IH.
Qed.

Lemma split_join c ws : Forall (λ w, c ∉ w) ws → ws ≠ [] → split_on c (join_with c ws) = ws.
Proof.
  induction 1 as [|w ws Hw Hws IH]; [done|]. intros _. destruct ws as [|w' ws].
  - by apply split_on_free.
  - change (join_with c (w :: w' :: ws)) with (w ++ c :: join_with c (w' :: ws)).
    rewrite split_on_app by done. by rewrite IH.
Qed.

Lemma split_on_parts c l : Forall (λ w, c ∉ w) (split_on c l).
Proof.
  induction l as [|x l IH]; simpl; [repeat constructor; by apply not_elem_of_nil|].
  case_decide as Hx.
  - constructor; [by apply not_elem_of_nil|done].
  - destruct (split_on c l) as [|w ws]; [repeat constructor; set_solver|].
    apply Forall_cons in IH as [Hw Hws]. constructor; [set_solver|done].
Qed.

(** What the reversed list of kept elements looks like. *)
Inductive kept (rooted : bool) : list (list ascii) → Prop :=
  | kept_nil : kept rooted []
  | kept_up out : rooted = false → Forall (λ e, e = bytes "..") out → kept rooted (bytes ".." :: out)
  | kept_down e out : e ≠ [] → e ≠ bytes "." → e ≠ bytes ".." → slash ∉ e → kept rooted out →
      kept rooted (e :: out).

Lemma kept_tail rooted e out : kept rooted (e :: out) → kept rooted out.
Proof.
  inversion 1 as [|out' Hr Hf|]; subst; [|done]. destruct out as [|e' out]; [constructor|].
  apply Forall_cons in Hf as [-> Hf]. by constructor.
Qed.

Lemma kept_ups rooted out : kept rooted (bytes ".." :: out) → rooted = false ∧ Forall (λ e, e = bytes "..") out.
Proof. by inversion 1; subst. Qed.

Lemma clean_step_kept rooted out e : kept rooted out → slash ∉ e → kept rooted (clean_step rooted out e).
Proof.
  intros Hk He. unfold clean_step. case_decide as H1; [done|]. case_decide as H2; [subst e|].
  - destruct out as [|x out]; [destruct rooted; constructor; [done|constructor]|].
    case_decide as H3; [subst x|by eapply kept_tail]. apply kept_ups in Hk as [Hr Hf].
    constructor; [done|by constructor].
  - apply kept_down; naive_solver.
Qed.

Lemma foldl_kept rooted es out :
  kept rooted out → Forall (λ w, slash ∉ w) es → kept rooted (foldl (clean_step rooted) out es).
Proof.
  revert out. induction es as [|e es IH]; intros out Hk Hes; [done|].
  apply Forall_cons in Hes as [He Hes]. simpl. by apply IH; [apply clean_step_kept|].
Qed.

(** Kept elements are kept again. *)
Lemma foldl_clean_kept rooted out : kept rooted out → foldl (clean_step rooted) [] (reverse out) = out.
Proof.
  induction out as [|e out IH]; intros Hk; [done|]. rewrite reverse_cons, foldl_app. simpl.
  rewrite IH by (by eapply kept_tail). unfold clean_step. inversion Hk as [|out' Hr Hf|e' out' H1 H2 H3]; subst.
  - rewrite decide_False by naive_solver. rewrite decide_True by done. destruct out as [|x out]; [done|].
    apply Forall_cons in Hf as [-> _]. by rewrite decide_True.
  - rewrite decide_False by naive_solver. by rewrite decide_False.
Qed.

Lemma kept_free rooted out : kept rooted out → Forall (λ w, w ≠ [] ∧ slash ∉ w) out.
Proof.
  assert (slash ∉ bytes "..") as Hd by (apply (bool_decide_unpack _); vm_compute; exact I).
  induction 1 as [|out Hr Hf|]; [constructor| |by constructor].
  constructor; [done|]. eapply Forall_impl; [exact Hf|]. by intros ? ->.
Qed.

(** The path of a reversed list of kept elements. *)
Definition path_of (rooted : bool) (out : list (list ascii)) : string :=
  match rooted, reverse out with
  | false, [] => "."
  | _, l => of_bytes ((if rooted then [slash] else []) ++ join_with slash l)
  end.

Lemma filepath_Clean_path_of path :
  ∃ rooted out, kept rooted out ∧ filepath_Clean path = path_of rooted out.
Proof.
  unfold filepath_Clean. set (rooted := match bytes path with x :: _ => _ | [] => _ end).
  exists rooted, (foldl (clean_step rooted) [] (split_on slash (bytes path))). split.
  - apply foldl_kept; [constructor|apply split_on_parts].
  - unfold path_of. by destruct rooted, (reverse _).
Qed.

Lemma join_with_head w ws : w ≠ [] → ∃ x l, w = x :: l ∧ head (join_with slash (w :: ws)) = Some x.
Proof. intros Hw. destruct w as [|x l]; [done|]. exists x, l. split; [done|]. by destruct ws. Qed.

Lemma Clean_path_of rooted out : kept rooted out → filepath_Clean (path_of rooted out) = path_of rooted out.
Proof.
  intros Hk. pose proof (foldl_clean_kept _ _ Hk) as Hfold. pose proof (kept_free _ _ Hk) as Hfree.
  assert (Forall (λ w, w ≠ [] ∧ slash ∉ w) (reverse out)) as Hrev by by apply Forall_reverse.
  assert (Forall (λ w, slash ∉ w) (reverse out)) as Hslash
    by (eapply Forall_impl; [exact Hrev|]; by intros w [_ ?]).
  unfold path_of in *. destruct (reverse out) as [|w ws] eqn:Hout.
  { destruct rooted; reflexivity. }
  apply Forall_cons in Hrev as [[Hw Hws] _]. destruct rooted.
  - unfold filepath_Clean. rewrite bytes_of_bytes. cbn [app]. rewrite bool_decide_eq_true_2 by done.
    change (slash :: join_with slash (w :: ws)) with ([] ++ slash :: join_with slash (w :: ws)).
    rewrite split_on_app, split_join by (done || apply not_elem_of_nil).
    change (foldl (clean_step true) [] ([] :: w :: ws)) with (foldl (clean_step true) [] (w :: ws)).
    rewrite <- Hout in Hfold |- *. rewrite Hfold, Hout. done.
  - unfold filepath_Clean. rewrite bytes_of_bytes, app_nil_l.
    destruct (join_with_head w ws Hw) as (x & l & -> & Hx).
    destruct (join_with slash ((x :: l) :: ws)) as [|y k] eqn:Hj; [done|]. injection Hx as ->.
    rewrite bool_decide_eq_false_2 by (intros ->; set_solver). rewrite <- Hj, split_join by done.
    rewrite <- Hout in Hfold |- *. rewrite Hfold, Hout, app_nil_l. done.
Qed.

Lemma filepath_Clean_idem path : filepath_Clean (filepath_Clean path) = filepath_Clean path.
Proof.
  destruct (filepath_Clean_path_of path) as (rooted & out & Hk & ->). by apply Clean_path_of.
Qed.

Lemma filepath_Join_clean elems : filepath_Join elems ≠ "" → filepath_Clean (filepath_Join elems) = filepath_Join elems.
Proof.
  induction elems as [|e rest IH]; [done|]. cbn [filepath_Join].
  case_bool_decide; [done|]. intros _. apply filepath_Clean_idem.
Qed.

(** ** Paths that end in plain elements *)

(** An element that [filepath_Clean] keeps. *)
Definition plain (e : list ascii) : Prop := e ≠ [] ∧ e ≠ bytes "." ∧ e ≠ bytes ".." ∧ slash ∉ e.

(** A cleaned directory as the start of a path: with its slash, or nothing. *)
Definition clean_dir (path : string) : string :=
  let l := bytes path in
  let rooted := match l with x :: _ => bool_decide (x = slash) | [] => false end in
  let out := reverse (foldl (clean_step rooted) [] (split_on slash l)) in
  of_bytes ((if rooted then [slash] else []) ++ concat ((λ e, e ++ [slash]) <$> out)).

Example clean_dir_1 : clean_dir "a/./b//../c" = "a/c/" ∧ clean_dir "" = "" ∧ clean_dir "/" = "/".
Proof. split_and!; reflexivity. Qed.

Lemma split_on_nonempty c l : split_on c l ≠ [].
Proof. destruct l as [|x l]; simpl; [done|]. case_decide; [done|]. by destruct (split_on c l). Qed.
Lemma split_on_app_sep c l1 l2 : split_on c (l1 ++ c :: l2) = split_on c l1 ++ split_on c l2.
Proof.
  induction l1 as [|x l1 IH]; simpl; [by rewrite decide_True|]. rewrite IH.
  case_decide; [done|]. pose proof (split_on_nonempty c l1). by destruct (split_on c l1).
Qed.

Lemma foldl_plain rooted out es : Forall plain es → foldl (clean_step rooted) out es = reverse es ++ out.
Proof.
  intros Hes. revert out. induction Hes as [|e es (H1 & H2 & H3 & _) _ IH]; intros out; [done|].
  cbn [foldl]. unfold clean_step at 2. rewrite decide_False by naive_solver. rewrite decide_False by done.
  rewrite IH, reverse_cons. by rewrite <- app_assoc.
Qed.

Lemma join_with_app c ws es :
  es ≠ [] → join_with c (ws ++ es) = concat ((λ w, w ++ [c]) <$> ws) ++ join_with c es.
Proof.
  intros Hes. induction ws as [|w ws IH]; [done|]. cbn [fmap list_fmap concat app].
  rewrite <- !app_assoc, <- IH. destruct (ws ++ es) as [|w' l] eqn:E; [|done].
  by apply app_eq_nil in E as [_ ?].
Qed.

Lemma Clean_plain path es :
  es ≠ [] → Forall plain es → path ≠ "" →
  filepath_Clean (of_bytes (bytes path ++ slash :: join_with slash es))
  = clean_dir path +:+ of_bytes (join_with slash es).
Proof.
  intros Hne Hes Hp. apply bytes_inj. unfold filepath_Clean, clean_dir.
  rewrite bytes_app, !bytes_of_bytes, split_on_app_sep, foldl_app.
  rewrite split_join by first [done|eapply Forall_impl; [exact Hes|]; by intros e (_ & _ & _ & ?)].
  rewrite foldl_plain by done. rewrite reverse_app, reverse_involutive.
  assert (∃ x l, bytes path = x :: l) as (x & l & E).
  { destruct (bytes path) as [|x l] eqn:E; [|by eauto]. by destruct path. }
  rewrite E. cbn [app]. set (rooted := bool_decide (x = slash)). set (ws := reverse _).
  rewrite <- app_assoc, <- (join_with_app slash ws es Hne).
  destruct rooted; [by rewrite bytes_of_bytes|].
  destruct (ws ++ es) as [|w k] eqn:E'; [by apply app_eq_nil in E' as [_ ?]|]. by rewrite bytes_of_bytes.
Qed.

Lemma Clean_plain_alone es :
  es ≠ [] → Forall plain es →
  filepath_Clean (of_bytes (join_with slash es)) = of_bytes (join_with slash es).
Proof.
  intros Hne Hes. unfold filepath_Clean. rewrite bytes_of_bytes.
  rewrite split_join by first [done|eapply Forall_impl; [exact Hes|]; by intros e (_ & _ & _ & ?)].
  rewrite foldl_plain, app_nil_r, reverse_involutive by done.
  destruct es as [|e es]; [done|]. apply Forall_cons in Hes as [(He & _ & _ & Hs) _].
  destruct (join_with_head e es He) as (x & l & -> & Hx).
  destruct (join_with slash ((x :: l) :: es)) as [|y k]; [done|]. injection Hx as ->.
  by rewrite bool_decide_eq_false_2 by (intros ->; set_solver).
Qed.

(** [filepath.Join] of a directory with plain elements keeps them as they are. *)
Lemma filepath_Join_plain path elems :
  elems ≠ [] → Forall (λ e, plain (bytes e)) elems →
  filepath_Join (path :: elems) = clean_dir path +:+ of_bytes (join_with slash (bytes <$> elems)).
Proof.
  intros Hne Hes. assert (Forall plain (bytes <$> elems)) as Hes' by by apply Forall_fmap.
  assert (bytes <$> elems ≠ []) as Hne' by by destruct elems.
  cbn [filepath_Join]. case_bool_decide as Hp.
  - subst path. change (clean_dir "" +:+ ?s) with s.
    destruct elems as [|e elems]; [done|]. cbn [filepath_Join].
    rewrite bool_decide_eq_false_2; [by apply Clean_plain_alone|].
    intros ->. apply Forall_cons in Hes as [[He _] _]. done.
  - cbn [fmap list_fmap]. rewrite <- (Clean_plain path (bytes <$> elems) Hne' Hes' Hp).
    do 2 f_equal. destruct elems as [|e elems]; done.
Qed.
