(* ===== verification/Metrics.v ===== *)
(** * Metrics and their registration

    The names of [observability/metrics.go] and the options with which
    [newProcessorMetrics], [newFailoverMetrics] and [newServiceMetrics] of the bridge
    register them. The Prometheus client is the class [Registry]: [promauto] panics
    when a registry refuses a metric. The values of the metrics are in
    [Processor.v], [Failover.v] and [Bridge.v]. *)

From S2P Require Import Prelude GoStrings.
From Stdlib Require Import Ascii.
Local Open Scope list_scope.

(** ** observability/metrics.go *)

Definition MetricIngestorSlotLag : string := "ingestor_slot_lag".
Definition MetricPublisherNATSacksTotal : string := "publisher_nats_acks_total".
Definition MetricPublisherNATSErrors : string := "publisher_nats_errors_total".
Definition MetricBridgeForwardTotal : string := "bridge_forward_total".
Definition MetricBridgeDroppedTotal : string := "bridge_dropped_total".
Definition MetricBridgePublishErrors : string := "bridge_publish_errors_total".
Definition MetricBridgeSourceLagSecond : string := "bridge_source_lag_seconds".
Definition MetricRaydiumSwapsTotal : string := "ingestor_raydium_swaps_total".
Definition MetricRaydiumDecodeErrors : string := "ingestor_raydium_decode_errors_total".
Definition MetricOrcaSwapsTotal : string := "ingestor_orca_swaps_total".
Definition MetricOrcaDecodeErrors : string := "ingestor_orca_decode_errors_total".
Definition MetricMeteoraSwapsTotal : string := "ingestor_meteora_swaps_total".
Definition MetricMeteoraDecodeErrors : string := "ingestor_meteora_decode_errors_total".

(** The options of a metric, with the labels of a vector. *)
Record MetricOpts := mkOpts {
  mo_Namespace : string; mo_Subsystem : string; mo_Name : string; mo_Help : string;
  mo_Labels : list string;
}.

Definition processorOpts : list MetricOpts :=
  [mkOpts "dex" "geyser" MetricRaydiumSwapsTotal "Total Raydium swaps decoded from geyser transactions." [];
   mkOpts "dex" "geyser" MetricRaydiumDecodeErrors "Raydium swap decode or publish errors." [];
   mkOpts "dex" "geyser" MetricOrcaSwapsTotal "Total Orca swaps decoded from geyser transactions." [];
   mkOpts "dex" "geyser" MetricOrcaDecodeErrors "Orca swap decode or publish errors." [];
   mkOpts "dex" "geyser" MetricMeteoraSwapsTotal "Total Meteora swaps decoded from geyser transactions." [];
   mkOpts "dex" "geyser" MetricMeteoraDecodeErrors "Meteora swap decode or publish errors." []].
Definition failoverOpts : list MetricOpts :=
  [mkOpts "dex" "ingestor" "active_source"
     "Indicates which ingest source is currently active (1=primary, 2=fallback)" [];
   mkOpts "dex" "ingestor" "source_failures_total" "Count of stream failures per ingest source." ["source"]].
Definition bridgeOpts : list MetricOpts :=
  [mkOpts "dex" "bridge" MetricBridgeForwardTotal
     "Total number of messages mirrored to the legacy stream." ["subject"];
   mkOpts "dex" "bridge" MetricBridgeDroppedTotal
     "Count of messages dropped by the bridge due to mapping rules." ["subject"];
   mkOpts "dex" "bridge" MetricBridgePublishErrors
     "Count of publish failures when forwarding to the legacy stream." ["subject"];
   mkOpts "dex" "bridge" MetricBridgeSourceLagSecond
     "Age in seconds between the source message timestamp and bridge processing time." ["subject"]].

(** ** The Prometheus client *)

(** The characters of a metric name; a label has no colon. *)
Definition name_char (c : ascii) : bool :=
  let z := bval c in
  ((97 <=? z) && (z <=? 122)) || ((65 <=? z) && (z <=? 90)) || (z =? 95) || (z =? 58).
Definition is_digit (c : ascii) : bool := (48 <=? bval c) && (bval c <=? 57).
Definition valid_name (s : string) : bool :=
  match bytes s with
  | [] => false
  | c :: l => name_char c && forallb (λ c, name_char c || is_digit c) l
  end.
Definition valid_label (s : string) : bool :=
  valid_name s && negb (bool_decide (bchr 58 ∈ bytes s)) && negb (HasPrefix s "__").

(** [registered] is the names of the metrics of a registry. A metric with a valid
    name that is not among them, and valid labels, is taken; a name that is taken
    is refused. *)
Class Registry (R : Type) := {
  BuildFQName : string → string → string → string;
  prom_Register : MetricOpts → R → option R;
  registered : R → list string;
  FQName_joins namespace subsystem name :
    namespace ≠ "" → subsystem ≠ "" → name ≠ "" →
    BuildFQName namespace subsystem name = namespace +:+ "_" +:+ subsystem +:+ "_" +:+ name;
  register_new o r :
    let name := BuildFQName (mo_Namespace o) (mo_Subsystem o) (mo_Name o) in
    valid_name name = true → forallb valid_label (mo_Labels o) = true → name ∉ registered r →
    ∃ r', prom_Register o r = Some r' ∧ registered r' = registered r ++ [name];
  register_taken o r :
    BuildFQName (mo_Namespace o) (mo_Subsystem o) (mo_Name o) ∈ registered r → prom_Register o r = None;
}.

Section registration.
Context {R : Type} `{Registry R}.

(** The calls of [promauto]; [None] is the panic. *)
Fixpoint registerAll (os : list MetricOpts) (r : R) : option R :=
  match os with
  | [] => Some r
  | o :: os => r ← prom_Register o r; registerAll os r
  end.

(** What the service of the ingestor registers in its registry, and the failover
    service after it; what the bridge registers. *)
Definition registerProcessor (r : R) : option R := registerAll processorOpts r.
Definition registerFailover (r : R) : option R := registerAll failoverOpts r.
Definition registerBridge (r : R) : option R := registerAll bridgeOpts r.

(** ** Lemmas *)

Definition fq_name (o : MetricOpts) : string :=
  mo_Namespace o +:+ "_" +:+ mo_Subsystem o +:+ "_" +:+ mo_Name o.
Definition good (o : MetricOpts) : bool :=
  bool_decide (mo_Namespace o ≠ "") && bool_decide (mo_Subsystem o ≠ "") && bool_decide (mo_Name o ≠ "")
  && valid_name (fq_name o) && forallb valid_label (mo_Labels o).

Lemma good_name o : good o = true → BuildFQName (mo_Namespace o) (mo_Subsystem o) (mo_Name o) = fq_name o.
Proof. unfold good. rewrite !andb_true_iff, !bool_decide_eq_true. intros ((((? & ?) & ?) & _) & _). by apply FQName_joins. Qed.

Lemma registerAll_new os r :
  forallb good os = true → NoDup (fq_name <$> os) → (∀ o, o ∈ os → fq_name o ∉ registered r) →
  ∃ r', registerAll os r = Some r' ∧ registered r' = registered r ++ (fq_name <$> os).
Proof.
  revert r. induction os as [|o os IH]; intros r Hg Hnd Hnew.
  { exists r. split; [done|]. by rewrite app_nil_r. }
  simpl in Hg. apply andb_true_iff in Hg as [Ho Hos]. apply NoDup_cons in Hnd as [Hfresh Hnd].
  pose proof (good_name o Ho) as Hname.
  destruct (register_new o r) as (r1 & Hr1 & Hreg).
  { rewrite Hname. unfold good in Ho. rewrite !andb_true_iff in Ho. tauto. }
  { unfold good in Ho. rewrite !andb_true_iff in Ho. tauto. }
  { rewrite Hname. apply Hnew. left. }
  rewrite Hname in Hreg. destruct (IH r1 Hos Hnd) as (r2 & Hr2 & Hreg2).
  - intros o' Ho'. rewrite Hreg, elem_of_app, list_elem_of_singleton. intros [Hin|Heq].
    + by apply (Hnew o'); [right|].
    + apply Hfresh. rewrite <- Heq. by apply list_elem_of_fmap_2.
  - exists r2. simpl. rewrite Hr1. simpl. split; [done|]. by rewrite Hreg2, Hreg, <- app_assoc.
Qed.

Lemma registerAll_taken os o r :
  head os = Some o → good o = true → fq_name o ∈ registered r → registerAll os r = None.
Proof.
  destruct os as [|o' os]; [done|]. intros [= ->] Ho Hin. simpl. rewrite register_taken; [done|].
  by rewrite (good_name o Ho).
Qed.

(** ** Properties *)

Lemma dex_good : forallb good (processorOpts ++ failoverOpts ++ bridgeOpts) = true.
Proof. vm_compute. reflexivity. Qed.
Lemma dex_NoDup : NoDup (fq_name <$> processorOpts ++ failoverOpts ++ bridgeOpts).
Proof. apply (bool_decide_unpack _). vm_compute. exact I. Qed.
Lemma dex_prefix : Forall (λ name, HasPrefix name "dex_" = true) (fq_name <$> processorOpts ++ failoverOpts ++ bridgeOpts).
Proof. apply (bool_decide_unpack _). vm_compute. exact I. Qed.

(** No process panics when it registers its metrics: in a registry where no name
    starts with ["dex_"], which is one with the collectors of the Go client, the
    metrics of the processor, then those of the failover service, then even those
    of the bridge are taken; and a registry is good for one processor and one
    bridge only. *)
Theorem registration r :
  Forall (λ name, HasPrefix name "dex_" = false) (registered r) →
  ∃ r1 r2 r3, registerProcessor r = Some r1 ∧ registerFailover r1 = Some r2 ∧ registerBridge r2 = Some r3
  ∧ registered r3 = registered r ++ (fq_name <$> processorOpts ++ failoverOpts ++ bridgeOpts)
  ∧ registerProcessor r3 = None ∧ registerFailover r3 = None ∧ registerBridge r3 = None.
Proof.
  intros Hr. unfold registerProcessor, registerFailover, registerBridge.
  pose proof dex_good as Hg. rewrite !forallb_app, !andb_true_iff in Hg. destruct Hg as (Hg1 & Hg2 & Hg3).
  pose proof dex_NoDup as Hnd. rewrite !fmap_app, !NoDup_app in Hnd.
  destruct Hnd as (Hnd1 & Hd1 & Hnd2 & Hd2 & Hnd3).
  pose proof dex_prefix as Hp. rewrite !fmap_app, !Forall_app in Hp. destruct Hp as (Hp1 & Hp2 & Hp3).
  assert (∀ os, Forall (λ name, HasPrefix name "dex_" = true) (fq_name <$> os) →
    ∀ o, o ∈ os → fq_name o ∉ registered r) as Hfresh.
  { intros os Hos o Ho Hin. rewrite Forall_forall in Hos, Hr.
    pose proof (Hos _ (list_elem_of_fmap_2 fq_name _ _ Ho)) as H1. by rewrite (Hr _ Hin) in H1. }
  destruct (registerAll_new processorOpts r) as (r1 & E1 & R1); [done..|by apply Hfresh|].
  destruct (registerAll_new failoverOpts r1) as (r2 & E2 & R2); [done..| |].
  { intros o Ho. rewrite R1, elem_of_app. intros [Hin|Hin]; [by apply (Hfresh failoverOpts Hp2 o Ho)|].
    apply (Hd1 _ Hin), elem_of_app. left. by apply list_elem_of_fmap_2. }
  destruct (registerAll_new bridgeOpts r2) as (r3 & E3 & R3); [done..| |].
  { intros o Ho. rewrite R2, R1, !elem_of_app. intros [[Hin|Hin]|Hin]; [by apply (Hfresh bridgeOpts Hp3 o Ho)| |].
    - apply (Hd1 _ Hin), elem_of_app. right. by apply list_elem_of_fmap_2.
    - apply (Hd2 _ Hin). by apply list_elem_of_fmap_2. }
  exists r1, r2, r3. do 3 (split; [done|]).
  assert (registered r3 = registered r ++ (fq_name <$> processorOpts ++ failoverOpts ++ bridgeOpts)) as Hall.
  { by rewrite R3, R2, R1, !fmap_app, !app_assoc. }
  split; [exact Hall|].
  split_and!; (eapply registerAll_taken; [reflexivity|reflexivity|]; rewrite Hall, !fmap_app, !elem_of_app; right).
  - left. left.
  - right. left. left.
  - right. right. left.
Qed.
End registration.

(** The names end up with the subsystem twice: no series of the bridge has one of
    the names that [scripts/check_bridge_metrics.sh] and [docs-archive/BRIDGE.md]
    look for. *)
Example bridge_names :
  fq_name <$> bridgeOpts =
    ["dex_bridge_bridge_forward_total"; "dex_bridge_bridge_dropped_total";
     "dex_bridge_bridge_publish_errors_total"; "dex_bridge_bridge_source_lag_seconds"]
  ∧ Forall (λ name, Forall (λ s, Contains name ("dex_bridge_" +:+ s) = false)
      ["forward_total"; "dropped_total"; "publish_errors_total"; "source_lag_seconds"]) (fq_name <$> bridgeOpts).
Proof. split; [reflexivity|]. apply (bool_decide_unpack _). vm_compute. exact I. Qed.

(** ** Witness *)

#[local] Program Instance test_registry : Registry (list string) := {|
  BuildFQName namespace subsystem name := namespace +:+ "_" +:+ subsystem +:+ "_" +:+ name;
  prom_Register o r :=
    if bool_decide (fq_name o ∈ r) then None else Some (r ++ [fq_name o]);
  registered r := r;
|}.
Next Obligation. done. Qed.
Next Obligation. intros o r name _ _ Hn. exists (r ++ [fq_name o]). split; [|done]. case_bool_decide; [contradiction|done]. Qed.
Next Obligation. intros o r Hin. simpl in *. rewrite bool_decide_eq_true_2; [done|exact Hin]. Qed.

Lemma registration_witness :
  ∃ r, registerProcessor ["go_goroutines"; "process_open_fds"] = Some r
  ∧ last r = Some "dex_geyser_ingestor_meteora_decode_errors_total".
Proof.
  destruct (registration (R:=list string) ["go_goroutines"; "process_open_fds"]) as (r1 & _ & _ & E & _).
  - apply (bool_decide_unpack _). vm_compute. exact I.
  - exists r1. split; [exact E|]. vm_compute in E. injection E as <-. vm_compute. reflexivity.
Defined.
