(* ===== verification/Bytes.v ===== *)
(** * Byte slices and little-endian integers

    A [[]byte] is a [list byte]. [le_uint] is [binary.LittleEndian.Uint16],
    [Uint32] and [Uint64] applied to a slice of 2, 4 and 8 bytes; [le_bytes] is
    its inverse, used to state round trips of the account and instruction
    layouts. [base58.Encode] is third-party code: an interface with the one fact
    the program relies on, that different keys get different strings. *)

From S2P Require Import Prelude GoStrings.
From Stdlib Require Import Ascii.

Notation byte := ascii (only parsing).

(** The [or] of the shifted bytes, lowest first. *)
Fixpoint le_uint (l : list byte) : Z :=
  match l with
  | [] => 0
  | b :: l' => Z.lor (bval b) (Z.shiftl (le_uint l') 8)
  end.

Fixpoint le_bytes (n : nat) (z : Z) : list byte :=
  match n with
  | O => []
  | S n' => bchr (Z.land z 255) :: le_bytes n' (Z.shiftr z 8)
  end.

Lemma bval_bchr z : bval (bchr z) = z mod 256.
Proof.
  unfold bval, bchr. pose proof (Z.mod_pos_bound z 256).
  rewrite N_ascii_embedding by lia. lia.
Qed.

Lemma le_uint_cons b l : le_uint (b :: l) = bval b + 256 * le_uint l.
Proof.
  simpl. pose proof (bval_range b).
  assert (Z.land (bval b) (Z.shiftl (le_uint l) 8) = 0) as Hland.
  { apply Z.bits_inj'. intros n Hn. rewrite Z.land_spec, Z.bits_0.
    destruct (decide (n < 8)).
    - by rewrite Z.shiftl_spec_low, andb_false_r by lia.
    - replace (bval b) with (bval b mod 2 ^ 8) by (apply Z.mod_small; lia).
      by rewrite Z.mod_pow2_bits_high by lia. }
  pose proof (Z.add_lor_land (bval b) (Z.shiftl (le_uint l) 8)) as Hadd. rewrite Hland in Hadd.
  rewrite Z.shiftl_mul_pow2 in * by lia. lia.
Qed.

Lemma le_uint_range l : 0 <= le_uint l < 2 ^ (8 * zlen l).
Proof.
  induction l as [|b l IH]; [done|]. rewrite le_uint_cons.
  pose proof (bval_range b).
  replace (2 ^ (8 * zlen (b :: l))) with (256 * 2 ^ (8 * zlen l)); [lia|].
  unfold zlen. cbn [length].
  replace (8 * Z.of_nat (S (length l))) with (8 + 8 * Z.of_nat (length l)) by lia.
  by rewrite Z.pow_add_r by lia.
Qed.

Lemma le_uint_range_n n l : length l = n → 0 <= le_uint l < 2 ^ (8 * Z.of_nat n).
Proof. intros <-. apply le_uint_range. Qed.

Lemma length_le_bytes n z : length (le_bytes n z) = n.
Proof. revert z. induction n; intros; simpl; auto. Qed.

Lemma le_uint_le_bytes n z : 0 <= z < 2 ^ (8 * Z.of_nat n) → le_uint (le_bytes n z) = z.
Proof.
  revert z. induction n as [|n IH]; intros z Hz; [simpl in *; lia|].
  assert (2 ^ (8 * Z.of_nat (S n)) = 256 * 2 ^ (8 * Z.of_nat n)) as Hp.
  { replace (8 * Z.of_nat (S n)) with (8 + 8 * Z.of_nat n) by lia. by rewrite Z.pow_add_r by lia. }
  change (le_bytes (S n) z) with (bchr (Z.land z 255) :: le_bytes n (Z.shiftr z 8)).
  rewrite le_uint_cons, bval_bchr.
  change 255 with (Z.ones 8). rewrite Z.land_ones by lia. change (2 ^ 8) with 256.
  rewrite Z.mod_mod, Z.shiftr_div_pow2 by lia. change (2 ^ 8) with 256.
  rewrite IH; pose proof (Z_div_mod_eq_full z 256); [lia|].
  pose proof (Z.mod_pos_bound z 256). nia.
Qed.

Lemma le_bytes_le_uint l : le_bytes (length l) (le_uint l) = l.
Proof.
  induction l as [|b l IH]; [done|]. cbn [length].
  change (bchr (Z.land (le_uint (b :: l)) 255) :: le_bytes (length l) (Z.shiftr (le_uint (b :: l)) 8) = b :: l).
  rewrite le_uint_cons. pose proof (bval_range b).
  f_equal.
  - rewrite <- (bchr_bval b) at 2. unfold bchr. do 2 f_equal.
    change 255 with (Z.ones 8). rewrite Z.land_ones by lia. change (2 ^ 8) with 256.
    rewrite Z.mod_mod by lia. rewrite (Z.mul_comm 256), Z_mod_plus_full. done.
  - rewrite Z.shiftr_div_pow2 by lia. change (2 ^ 8) with 256.
    rewrite (Z.mul_comm 256), Z_div_plus_full, Z.div_small, Z.add_0_l by lia. done.
Qed.

(** Reading back a field from a buffer assembled from consecutive fields. *)
Lemma slice_app_l {A} (i j : nat) (l k : list A) :
  (j <= length l)%nat → slice i j (l ++ k) = slice i j l.
Proof.
  intros. unfold slice. destruct (decide (i <= length l)%nat).
  - rewrite drop_app_le, take_app_le by (rewrite ?length_drop; lia). done.
  - replace (j - i)%nat with 0%nat by lia. done.
Qed.
Lemma slice_app_r {A} (i j : nat) (l k : list A) :
  (length l <= i)%nat → slice i j (l ++ k) = slice (i - length l) (j - length l) k.
Proof.
  intros. unfold slice. rewrite drop_app_ge by done. f_equal. lia.
Qed.
Lemma slice_all {A} (j : nat) (l : list A) : length l = j → slice 0 j l = l.
Proof. intros <-. unfold slice. rewrite drop_0, Nat.sub_0_r. apply firstn_all. Qed.

Lemma le_uint_slice_range i j (l : list byte) :
  (i <= j <= length l)%nat → 0 <= le_uint (slice i j l) < 2 ^ (8 * Z.of_nat (j - i)).
Proof. intros. apply le_uint_range_n, length_slice. done. Qed.

(** ** base58 *)

Class Base58 := {
  base58_Encode : list byte → string;
  base58_Encode_inj : Inj (=) (=) base58_Encode;
}.
#[export] Existing Instance base58_Encode_inj.

(** An instance of the interface, for concrete evaluations. *)
Definition raw_base58 : Base58.
Proof.
  refine {| base58_Encode := of_bytes |}.
  intros l k H. rewrite <- (bytes_of_bytes l), <- (bytes_of_bytes k). by f_equal.
Defined.
