(* ===== verification/Proto.v ===== *)
(** * Messages

    The canonical protobuf messages of [proto/dex/sol/v1/core.proto] that the
    program emits, and the shape of the Yellowstone messages it reads: exactly
    the fields its getters ask for. A missing sub-message is [None]; a repeated
    field holds no missing element, as after unmarshalling.

    A [time.Time] of the program has second resolution: it is the number of
    seconds since the Unix epoch, and [zero_time] is the zero [time.Time]. *)

From S2P Require Import Prelude GoStrings Bytes.
From Stdlib Require SpecFloat.

(** ** dex.sol.v1 *)

Record U128 := mkU128 { u128_Hi : Z; u128_Lo : Z }.

Record BlockHead := mkBlockHead {
  bh_ChainId : Z;
  bh_Slot : Z;
  bh_TsSec : Z;
  bh_Status : string;
}.

Record TxMeta := mkTxMeta {
  tm_ChainId : Z;
  tm_Slot : Z;
  tm_Sig : string;
  tm_Success : bool;
  tm_CuUsed : Z;
  tm_CuPrice : Z;
  tm_LogMsgs : list string;
}.

Record SwapEvent := mkSwapEvent {
  sw_ChainId : Z;
  sw_Slot : Z;
  sw_Sig : string;
  sw_Index : Z;
  sw_ProgramId : string;
  sw_PoolId : string;
  sw_MintBase : string;
  sw_MintQuote : string;
  sw_DecBase : Z;
  sw_DecQuote : Z;
  sw_BaseIn : Z;
  sw_BaseOut : Z;
  sw_QuoteIn : Z;
  sw_QuoteOut : Z;
  sw_SqrtPriceQ64Pre : Z;
  sw_SqrtPriceQ64Post : Z;
  sw_ReservesBase : Z;
  sw_ReservesQuote : Z;
  sw_FeeBps : Z;
  sw_Provisional : bool;
  sw_IsUndo : bool;
}.

Record PoolSnapshot := mkPoolSnapshot {
  ps_ChainId : Z;
  ps_Slot : Z;
  ps_PoolId : string;
  ps_MintBase : string;
  ps_MintQuote : string;
  ps_SqrtPriceQ64 : Z;
  ps_ReservesBase : Z;
  ps_ReservesQuote : Z;
  ps_FeeBps : Z;
  ps_Liquidity : Z;
}.

Record Candle := mkCandle {
  cd_ChainId : Z;
  cd_PairId : string;
  cd_PoolId : string;
  cd_Timeframe : string;
  cd_WindowStart : Z;
  cd_Provisional : bool;
  cd_IsCorrection : bool;
  cd_OpenPxQ32 : Z;
  cd_HighPxQ32 : Z;
  cd_LowPxQ32 : Z;
  cd_ClosePxQ32 : Z;
  cd_VwapNum : option U128;
  cd_VwapDen : option U128;
  cd_VolBase : option U128;
  cd_VolQuote : option U128;
  cd_Trades : Z;
}.

(** Written in the schema, by no code. [wh_BundledPct] is a float32. *)
Record WalletHeuristics := mkWalletHeuristics {
  wh_ChainId : Z;
  wh_Wallet : string;
  wh_FirstSeenSlot : Z;
  wh_Swaps24h : Z;
  wh_Swaps7d : Z;
  wh_IsFresh : bool;
  wh_IsSniper : bool;
  wh_BundledPct : SpecFloat.spec_float;
}.

#[global] Instance U128_eq_dec : EqDecision U128.
Proof. solve_decision. Defined.
#[global] Instance BlockHead_eq_dec : EqDecision BlockHead.
Proof. solve_decision. Defined.
#[global] Instance TxMeta_eq_dec : EqDecision TxMeta.
Proof. solve_decision. Defined.
#[global] Instance SwapEvent_eq_dec : EqDecision SwapEvent.
Proof. solve_decision. Defined.
#[global] Instance PoolSnapshot_eq_dec : EqDecision PoolSnapshot.
Proof. solve_decision. Defined.
#[global] Instance Candle_eq_dec : EqDecision Candle.
Proof. solve_decision. Defined.

(** A clone of an event with its two lifecycle flags set. *)
Definition sw_set_flags (e : SwapEvent) (provisional undo : bool) : SwapEvent :=
  mkSwapEvent (sw_ChainId e) (sw_Slot e) (sw_Sig e) (sw_Index e) (sw_ProgramId e)
    (sw_PoolId e) (sw_MintBase e) (sw_MintQuote e) (sw_DecBase e) (sw_DecQuote e)
    (sw_BaseIn e) (sw_BaseOut e) (sw_QuoteIn e) (sw_QuoteOut e)
    (sw_SqrtPriceQ64Pre e) (sw_SqrtPriceQ64Post e) (sw_ReservesBase e)
    (sw_ReservesQuote e) (sw_FeeBps e) provisional undo.

Definition bh_set_status (h : BlockHead) (status : string) : BlockHead :=
  mkBlockHead (bh_ChainId h) (bh_Slot h) (bh_TsSec h) status.

(** ** Yellowstone updates *)

Record UiTokenAmount := mkUiTokenAmount { ua_Amount : string; ua_Decimals : Z }.

Record TokenBalance := mkTokenBalance {
  tb_AccountIndex : Z;
  tb_Mint : string;
  tb_Owner : string;
  tb_UiTokenAmount : option UiTokenAmount;
}.

Record CompiledInstruction := mkInstruction {
  ci_ProgramIdIndex : Z;
  ci_Accounts : list byte;
  ci_Data : list byte;
}.

Record Message := mkMessage {
  msg_AccountKeys : list (list byte);
  msg_Instructions : list CompiledInstruction;
}.

Record Transaction := mkTransaction {
  tx_Signatures : list (list byte);
  tx_Message : option Message;
}.

Record TransactionStatusMeta := mkStatusMeta {
  meta_Err : bool; (** [GetErr() != nil] *)
  meta_PreTokenBalances : list TokenBalance;
  meta_PostTokenBalances : list TokenBalance;
  meta_LogMessages : list string;
  meta_ComputeUnitsConsumed : Z;
}.

Record TransactionInfo := mkTransactionInfo {
  ti_Signature : list byte;
  ti_Transaction : option Transaction;
  ti_Meta : option TransactionStatusMeta;
  ti_Index : Z;
}.

Record UpdateTransaction := mkUpdateTransaction {
  ut_Transaction : option TransactionInfo;
  ut_Slot : Z;
}.

Record UpdateBlockMeta := mkUpdateBlockMeta {
  bm_Slot : Z;
  bm_BlockTime : option Z;
}.

Record AccountInfo := mkAccountInfo {
  ai_Owner : list byte;
  ai_Pubkey : list byte;
  ai_Data : list byte;
}.

Record UpdateAccount := mkUpdateAccount {
  ua_Account : option AccountInfo;
  ua_Slot : Z;
}.

Inductive SlotStatus := SLOT_FINALIZED | SLOT_DEAD | SLOT_OTHER (n : Z).

Record UpdateSlot := mkUpdateSlot { us_Slot : Z; us_Status : SlotStatus }.

(** The [oneof] of a [SubscribeUpdate]; [U_Other] is entry and the like. *)
Inductive SubscribeUpdate :=
  | U_Transaction (tx : option UpdateTransaction)
  | U_BlockMeta (meta : option UpdateBlockMeta)
  | U_Account (account : option UpdateAccount)
  | U_Slot (slot : option UpdateSlot)
  | U_Block (slot : Z)
  | U_Ping
  | U_Other.

#[global] Instance UiTokenAmount_eq_dec : EqDecision UiTokenAmount.
Proof. solve_decision. Defined.
#[global] Instance TokenBalance_eq_dec : EqDecision TokenBalance.
Proof. solve_decision. Defined.

(** The nil-safe getters chained by the decoders. *)
Definition ui_amount (b : TokenBalance) : string :=
  match tb_UiTokenAmount b with Some a => ua_Amount a | None => "" end.
Definition ui_decimals (b : TokenBalance) : Z :=
  match tb_UiTokenAmount b with Some a => ua_Decimals a | None => 0 end.

Definition zero_time : Z := -62135596800.
