(* ===== verification/Pair.v ===== *)
(** * Canonical pairs and mint metadata

    [decoder/common/pair.go]: the registry of known tokens and of quote
    priorities, [ResolvePair] and its helpers. [decoder/common/mint_metadata.go]:
    the provider interface, its in-memory implementation and
    [DetermineBaseQuote]. The two package-level maps of [pair.go], changed by
    [RegisterToken] and [SetQuotePriority], are the state [PairRegistry]. *)

From S2P Require Import Prelude GoStrings.
Local Open Scope list_scope.

(** ** pair.go *)

Record PairRegistry := mkPairRegistry {
  quotePriority : gmap string Z;
  knownTokens : gmap string string;
}.

Definition initial_registry : PairRegistry := {|
  quotePriority := list_to_map
    [("USDC", 100); ("USDT", 90); ("SOL", 80); ("WSOL", 75); ("ETH", 70);
     ("WETH", 65); ("BTC", 60); ("WBTC", 55); ("default", 0)];
  knownTokens := list_to_map
    [("EPjFWdd5AufqSSqeM2qN1xzybapC8G4wEGGkZwyTDt1v", "USDC");
     ("Es9vMFrzaCERmJfrF4H2FYD4KCoNkY11McCe8BenwNYB", "USDT");
     ("So11111111111111111111111111111111111111112", "SOL");
     ("So11111111111111111111111111111111111111111", "WSOL")];
|}.

Definition RegisterToken (r : PairRegistry) (mint symbol : string) : PairRegistry :=
  mkPairRegistry (quotePriority r) (<[mint := symbol]> (knownTokens r)).

Definition SetQuotePriority (r : PairRegistry) (symbol : string) (priority : Z) : PairRegistry :=
  mkPairRegistry (<[symbol := priority]> (quotePriority r)) (knownTokens r).

Record CanonicalPair := mkCanonicalPair {
  BaseToken : string;
  BaseMint : string;
  QuoteToken : string;
  QuoteMint : string;
  Inverted : bool;
}.

#[global] Instance CanonicalPair_eq_dec : EqDecision CanonicalPair.
Proof. solve_decision. Defined.

Definition resolveTokenSymbol (r : PairRegistry) (mint : string) : string :=
  match knownTokens r !! mint with
  | Some symbol => symbol
  | None => if decide (8 < slen mint)%nat then str_take 8 mint else mint
  end.

Definition getQuotePriority (r : PairRegistry) (symbol : string) : Z :=
  match quotePriority r !! symbol with
  | Some priority => priority
  | None => default 0 (quotePriority r !! "default")
  end.

(** Go's [<=] on strings. *)
Definition str_le (a b : string) : bool := bool_decide (String.le a b).

Definition ResolvePair (r : PairRegistry) (mintA mintB : string) : result CanonicalPair :=
  if bool_decide (mintA = "") || bool_decide (mintB = "") then
    Err (Errorf "mint addresses cannot be empty" [])
  else
    let symbolA := resolveTokenSymbol r mintA in
    let symbolB := resolveTokenSymbol r mintB in
    let priorityA := getQuotePriority r symbolA in
    let priorityB := getQuotePriority r symbolB in
    if priorityA =? priorityB then
      if str_le mintA mintB
      then Ok (mkCanonicalPair symbolA mintA symbolB mintB false)
      else Ok (mkCanonicalPair symbolB mintB symbolA mintA true)
    else if priorityA >? priorityB
    then Ok (mkCanonicalPair symbolB mintB symbolA mintA true)
    else Ok (mkCanonicalPair symbolA mintA symbolB mintB false).

Definition Symbol (p : CanonicalPair) : string := BaseToken p +:+ "/" +:+ QuoteToken p.

Definition IsStablecoinPair (p : CanonicalPair) : bool :=
  let stablecoin s := bool_decide (s ∈ ["USDC"; "USDT"; "BUSD"; "DAI"; "UST"; "FRAX"]) in
  stablecoin (BaseToken p) && stablecoin (QuoteToken p).

(** ** mint_metadata.go *)

Record MintMetadata := mkMintMetadata {
  mm_Address : string;
  mm_Symbol : string;
  mm_Decimals : Z;
  mm_Name : string;
}.

(** The Go interface, with what its documentation promises: [GetDecimals] is
    the decimals field of [GetMintMetadata]. *)
Class MintMetadataProvider (P : Type) := {
  GetMintMetadata : P → string → result MintMetadata;
  GetDecimals : P → string → result Z;
  CacheMintMetadata : P → list string → result ();
  GetDecimals_spec p m : GetDecimals p m = mm_Decimals <$> GetMintMetadata p m;
}.

Record InMemoryMintMetadataProvider := mkInMemory { im_metadata : gmap string MintMetadata }.

Definition InMemory_AddMintMetadata (p : InMemoryMintMetadataProvider) (m : MintMetadata) :
    InMemoryMintMetadataProvider :=
  mkInMemory (<[mm_Address m := m]> (im_metadata p)).

Definition NewInMemoryMintMetadataProvider : InMemoryMintMetadataProvider :=
  foldl InMemory_AddMintMetadata (mkInMemory ∅)
    [mkMintMetadata "So11111111111111111111111111111111111111112" "SOL" 9 "Wrapped SOL";
     mkMintMetadata "EPjFWdd5AufqSSqeM2qN1xzybapC8G4wEGGkZwyTDt1v" "USDC" 6 "USD Coin";
     mkMintMetadata "Es9vMFrzaCERmJfrF4H2FYD4KCoNkY11McCe8BenwNYB" "USDT" 6 "USDT";
     mkMintMetadata "7vfCXTUXx5WJV5JADk17DUJ4ksgau7utNKj4b963voxs" "ORCA" 6 "Orca"].

Definition InMemory_GetMintMetadata (p : InMemoryMintMetadataProvider) (mint : string) :
    result MintMetadata :=
  match im_metadata p !! mint with
  | None => Err (Errorf "mint metadata not found for address: %s" [FStr mint])
  | Some metadata => Ok metadata
  end.

Definition InMemory_GetDecimals (p : InMemoryMintMetadataProvider) (mint : string) : result Z :=
  match InMemory_GetMintMetadata p mint with
  | Err e => Err e
  | Ok metadata => Ok (mm_Decimals metadata)
  end.

Definition InMemory_CacheMintMetadata (p : InMemoryMintMetadataProvider) (mints : list string) :
    result () := Ok tt.

#[global] Program Instance InMemory_provider :
    MintMetadataProvider InMemoryMintMetadataProvider := {|
  GetMintMetadata := InMemory_GetMintMetadata;
  GetDecimals := InMemory_GetDecimals;
  CacheMintMetadata := InMemory_CacheMintMetadata;
|}.
Next Obligation. intros. unfold InMemory_GetDecimals. by destruct InMemory_GetMintMetadata. Qed.

Definition canonicalPriority : gmap string Z :=
  list_to_map [("USDC", 100); ("USDT", 90); ("SOL", 80); ("default", 0)].

Definition getPriority (symbol : string) : Z :=
  match canonicalPriority !! symbol with
  | Some priority => priority
  | None => default 0 (canonicalPriority !! "default")
  end.

Definition DetermineBaseQuote `{MintMetadataProvider P} (provider : P) (mintA mintB : string) :
    result (string * string) :=
  metadataA ← GetMintMetadata provider mintA;
  metadataB ← GetMintMetadata provider mintB;
  let priorityA := getPriority (mm_Symbol metadataA) in
  let priorityB := getPriority (mm_Symbol metadataB) in
  if priorityA =? priorityB then
    if str_le mintA mintB then Ok (mintA, mintB) else Ok (mintB, mintA)
  else if priorityA >? priorityB then Ok (mintB, mintA)
  else Ok (mintA, mintB).

(** ** Lemmas *)

Lemma str_le_total a b : str_le a b = false → str_le b a = true.
Proof.
  unfold str_le. rewrite bool_decide_eq_false, bool_decide_eq_true.
  destruct (total String.le a b); naive_solver.
Qed.

Lemma str_le_antisym a b : str_le a b = true → str_le b a = true → a = b.
Proof. unfold str_le. rewrite !bool_decide_eq_true. apply (anti_symm String.le). Qed.

Lemma str_le_refl a : str_le a a = true.
Proof. unfold str_le. by apply bool_decide_eq_true. Qed.

(** The order [ResolvePair] sorts the two mints by. *)
Definition mint_before (r : PairRegistry) (a b : string) : bool :=
  let pa := getQuotePriority r (resolveTokenSymbol r a) in
  let pb := getQuotePriority r (resolveTokenSymbol r b) in
  (pa <? pb) || ((pa =? pb) && str_le a b).

Lemma mint_before_total r a b : mint_before r a b = false → mint_before r b a = true.
Proof.
  unfold mint_before. set (pa := getQuotePriority _ _). set (pb := getQuotePriority _ _).
  destruct (Z.ltb_spec pa pb), (Z.ltb_spec pb pa), (Z.eqb_spec pa pb), (Z.eqb_spec pb pa);
    simpl; try done; try lia. apply str_le_total.
Qed.

Lemma mint_before_antisym r a b : mint_before r a b = true → mint_before r b a = true → a = b.
Proof.
  unfold mint_before. set (pa := getQuotePriority _ _). set (pb := getQuotePriority _ _).
  destruct (Z.ltb_spec pa pb), (Z.ltb_spec pb pa), (Z.eqb_spec pa pb), (Z.eqb_spec pb pa);
    simpl; try done; try lia. apply str_le_antisym.
Qed.

(** [ResolvePair] in terms of that order. *)
Lemma ResolvePair_unfold r a b :
  a ≠ "" → b ≠ "" →
  ResolvePair r a b = Ok
    (if mint_before r a b
     then mkCanonicalPair (resolveTokenSymbol r a) a (resolveTokenSymbol r b) b false
     else mkCanonicalPair (resolveTokenSymbol r b) b (resolveTokenSymbol r a) a true).
Proof.
  intros Ha Hb. unfold ResolvePair, mint_before.
  rewrite !bool_decide_eq_false_2 by done. simpl. rewrite Z.gtb_ltb.
  set (pa := getQuotePriority _ _). set (pb := getQuotePriority _ _).
  destruct (Z.ltb_spec pa pb), (Z.ltb_spec pb pa), (Z.eqb_spec pa pb);
    simpl; try done; try lia. by destruct (str_le a b).
Qed.

Lemma ResolvePair_nonempty r a b p : ResolvePair r a b = Ok p → a ≠ "" ∧ b ≠ "".
Proof.
  unfold ResolvePair. destruct (bool_decide (a = "")) eqn:Ea; [done|].
  destruct (bool_decide (b = "")) eqn:Eb; [done|].
  by rewrite !bool_decide_eq_false in *.
Qed.

(** The pair holds the two mints, in one of the two orders. *)
Lemma ResolvePair_mints r a b p :
  ResolvePair r a b = Ok p →
  if Inverted p then BaseMint p = b ∧ QuoteMint p = a else BaseMint p = a ∧ QuoteMint p = b.
Proof.
  intros H. destruct (ResolvePair_nonempty _ _ _ _ H).
  rewrite ResolvePair_unfold in H by done. simplify_eq. by destruct mint_before.
Qed.

(** [DetermineBaseQuote] in terms of the same comparison, for any provider. *)
Lemma DetermineBaseQuote_ResolvePair `{MintMetadataProvider P} (provider : P) r a b ma mb :
  GetMintMetadata provider a = Ok ma → GetMintMetadata provider b = Ok mb →
  getPriority (mm_Symbol ma) = getQuotePriority r (resolveTokenSymbol r a) →
  getPriority (mm_Symbol mb) = getQuotePriority r (resolveTokenSymbol r b) →
  a ≠ "" → b ≠ "" →
  DetermineBaseQuote provider a b
  = (λ p, (BaseMint p, QuoteMint p)) <$> ResolvePair r a b.
Proof.
  intros Ha Hb Hpa Hpb ??. rewrite ResolvePair_unfold by done.
  unfold DetermineBaseQuote. rewrite Ha, Hb. simpl. rewrite Hpa, Hpb, Z.gtb_ltb.
  unfold mint_before. set (pa := getQuotePriority _ _). set (pb := getQuotePriority _ _).
  destruct (Z.ltb_spec pa pb), (Z.ltb_spec pb pa), (Z.eqb_spec pa pb);
    simpl; try done; try lia. by destruct (str_le a b).
Qed.

Lemma NewInMemory_mints m md :
  im_metadata NewInMemoryMintMetadataProvider !! m = Some md →
  m ∈ ["So11111111111111111111111111111111111111112";
       "EPjFWdd5AufqSSqeM2qN1xzybapC8G4wEGGkZwyTDt1v";
       "Es9vMFrzaCERmJfrF4H2FYD4KCoNkY11McCe8BenwNYB";
       "7vfCXTUXx5WJV5JADk17DUJ4ksgau7utNKj4b963voxs"].
Proof.
  unfold NewInMemoryMintMetadataProvider, InMemory_AddMintMetadata.
  cbn [foldl im_metadata mm_Address].
  rewrite !lookup_insert_Some, lookup_empty, !elem_of_cons. intuition congruence.
Qed.

(** ** Properties *)

(** The canonical pair does not depend on the order in which the two
    mints are given: swapping the arguments of [ResolvePair] keeps base and
    quote, symbols included, and flips [Inverted]. *)
Theorem ResolvePair_symmetric r a b p :
  ResolvePair r a b = Ok p → a ≠ b →
  ResolvePair r b a
  = Ok (mkCanonicalPair (BaseToken p) (BaseMint p) (QuoteToken p) (QuoteMint p)
          (negb (Inverted p))).
Proof.
  intros H Hab. destruct (ResolvePair_nonempty _ _ _ _ H).
  rewrite ResolvePair_unfold in * by done. simplify_eq.
  destruct (mint_before r a b) eqn:E1, (mint_before r b a) eqn:E2; try done.
  - destruct Hab. by eapply mint_before_antisym.
  - apply mint_before_total in E1. congruence.
Qed.

Lemma ResolvePair_symmetric_witness :
  ResolvePair initial_registry
    "EPjFWdd5AufqSSqeM2qN1xzybapC8G4wEGGkZwyTDt1v"
    "So11111111111111111111111111111111111111112"
  = Ok (mkCanonicalPair "SOL" "So11111111111111111111111111111111111111112"
          "USDC" "EPjFWdd5AufqSSqeM2qN1xzybapC8G4wEGGkZwyTDt1v" true) ∧
  ResolvePair initial_registry
    "So11111111111111111111111111111111111111112"
    "EPjFWdd5AufqSSqeM2qN1xzybapC8G4wEGGkZwyTDt1v"
  = Ok (mkCanonicalPair "SOL" "So11111111111111111111111111111111111111112"
          "USDC" "EPjFWdd5AufqSSqeM2qN1xzybapC8G4wEGGkZwyTDt1v" false).
Proof.
  split; [vm_compute; reflexivity|].
  refine (ResolvePair_symmetric initial_registry
    "EPjFWdd5AufqSSqeM2qN1xzybapC8G4wEGGkZwyTDt1v"
    "So11111111111111111111111111111111111111112"
    (mkCanonicalPair "SOL" "So11111111111111111111111111111111111111112"
          "USDC" "EPjFWdd5AufqSSqeM2qN1xzybapC8G4wEGGkZwyTDt1v" true) _ _).
  - vm_compute. reflexivity.
  - discriminate.
Defined.

(** A resolved pair is canonical: the quote leg never has a lower
    priority than the base leg, ties are ordered by mint address, the two legs
    are the two arguments with [Inverted] telling which is which, and resolving
    the pair again in canonical order changes nothing and is not inverted. *)
Theorem ResolvePair_canonical r a b p :
  ResolvePair r a b = Ok p →
  let prio m := getQuotePriority r (resolveTokenSymbol r m) in
  prio (BaseMint p) <= prio (QuoteMint p) ∧
  (prio (BaseMint p) = prio (QuoteMint p) → String.le (BaseMint p) (QuoteMint p)) ∧
  (if Inverted p then BaseMint p = b ∧ QuoteMint p = a else BaseMint p = a ∧ QuoteMint p = b) ∧
  BaseToken p = resolveTokenSymbol r (BaseMint p) ∧
  QuoteToken p = resolveTokenSymbol r (QuoteMint p) ∧
  ResolvePair r (BaseMint p) (QuoteMint p)
  = Ok (mkCanonicalPair (BaseToken p) (BaseMint p) (QuoteToken p) (QuoteMint p) false).
Proof.
  intros H prio. pose proof (ResolvePair_mints _ _ _ _ H) as Hm.
  destruct (ResolvePair_nonempty _ _ _ _ H).
  rewrite ResolvePair_unfold in H by done.
  assert (mint_before r (BaseMint p) (QuoteMint p) = true) as Hb.
  { simplify_eq. destruct (mint_before r a b) eqn:E; simpl; [done|].
    by apply mint_before_total. }
  pose proof Hb as Hb'. unfold mint_before in Hb'. fold (prio (BaseMint p)) in Hb'.
  fold (prio (QuoteMint p)) in Hb'.
  repeat split; try done.
  - go_bool. destruct Hb'; go_bool; lia.
  - intros Heq. rewrite Heq, Z.ltb_irrefl, Z.eqb_refl in Hb'. simpl in Hb'.
    by apply bool_decide_eq_true in Hb'.
  - simplify_eq. by destruct mint_before.
  - simplify_eq. by destruct mint_before.
  - rewrite ResolvePair_unfold; [rewrite Hb; simplify_eq; by destruct mint_before|..];
      destruct (Inverted p); naive_solver.
Qed.

Lemma ResolvePair_canonical_witness :
  BaseMint (mkCanonicalPair "SOL" "So11111111111111111111111111111111111111112"
     "USDT" "Es9vMFrzaCERmJfrF4H2FYD4KCoNkY11McCe8BenwNYB" true)
  = "So11111111111111111111111111111111111111112".
Proof.
  destruct (ResolvePair_canonical initial_registry
    "Es9vMFrzaCERmJfrF4H2FYD4KCoNkY11McCe8BenwNYB"
    "So11111111111111111111111111111111111111112"
    (mkCanonicalPair "SOL" "So11111111111111111111111111111111111111112"
     "USDT" "Es9vMFrzaCERmJfrF4H2FYD4KCoNkY11McCe8BenwNYB" true)) as (_ & _ & [-> _] & _).
  - vm_compute. reflexivity.
  - reflexivity.
Defined.

(** The two base/quote rules of the repository agree on the mints both
    know: for any pair the in-memory provider has metadata for,
    [DetermineBaseQuote] returns the base and quote mints of [ResolvePair] under
    the initial registry. *)
Theorem DetermineBaseQuote_agrees a b x y :
  DetermineBaseQuote NewInMemoryMintMetadataProvider a b = Ok (x, y) →
  ∃ p, ResolvePair initial_registry a b = Ok p ∧ BaseMint p = x ∧ QuoteMint p = y.
Proof.
  intros H.
  assert (∀ m, is_ok (GetMintMetadata NewInMemoryMintMetadataProvider m) = true →
    m ≠ "" ∧ ∃ md, GetMintMetadata NewInMemoryMintMetadataProvider m = Ok md ∧
    getPriority (mm_Symbol md)
    = getQuotePriority initial_registry (resolveTokenSymbol initial_registry m)) as Hmint.
  { intros m. unfold GetMintMetadata; simpl; unfold InMemory_GetMintMetadata.
    destruct (_ !! m) as [md|] eqn:Hm; [|done]. intros _.
    pose proof (NewInMemory_mints _ _ Hm) as Hin. rewrite !elem_of_cons, elem_of_nil in Hin.
    split; [by intros ->; destruct_or?|]. eexists; split; [done|].
    destruct Hin as [->|[->|[->|[->|[]]]]]; vm_compute in Hm; injection Hm as <-;
      vm_compute; reflexivity. }
  destruct (GetMintMetadata NewInMemoryMintMetadataProvider a) as [ma|] eqn:Ha;
    [|by unfold DetermineBaseQuote in H; rewrite Ha in H].
  destruct (GetMintMetadata NewInMemoryMintMetadataProvider b) as [mb|] eqn:Hb;
    [|by unfold DetermineBaseQuote in H; rewrite Ha, Hb in H].
  destruct (Hmint a) as (? & ma' & Ha' & Hpa); [by rewrite Ha|].
  destruct (Hmint b) as (? & mb' & Hb' & Hpb); [by rewrite Hb|].
  rewrite (DetermineBaseQuote_ResolvePair _ initial_registry a b ma' mb') in H by congruence.
  revert H. generalize (ResolvePair initial_registry a b). intros [p|]; [|done].
  intros [= <- <-]. exists p. split; [reflexivity|]. split; reflexivity.
Qed.

Lemma DetermineBaseQuote_agrees_witness :
  ∃ p, ResolvePair initial_registry "EPjFWdd5AufqSSqeM2qN1xzybapC8G4wEGGkZwyTDt1v"
         "7vfCXTUXx5WJV5JADk17DUJ4ksgau7utNKj4b963voxs" = Ok p ∧
       BaseMint p = "7vfCXTUXx5WJV5JADk17DUJ4ksgau7utNKj4b963voxs" ∧
       QuoteMint p = "EPjFWdd5AufqSSqeM2qN1xzybapC8G4wEGGkZwyTDt1v".
Proof. apply DetermineBaseQuote_agrees. vm_compute. reflexivity. Defined.
