(* ===== verification/Floats.v ===== *)
(** * float64 and fixed point

    Go's [float64] is IEEE 754 binary64 with round to nearest even: the
    standard library's [spec_float] with 53 bits of precision. This file models
    [decoder/common/fixed_point.go]: [math/big] is exact integer arithmetic with
    an explicit rounding where [big.Float] rounds, and [math.Pow] is its
    square-and-multiply loop on integral exponents, the only ones used here.
    The tick conversions take [math.Pow] on fractional exponents and [math.Log],
    which are assembly on some platforms, as arguments, and so do the conversions
    to an integer type what they give outside its range, which Go leaves to the
    implementation. *)

From S2P Require Import Prelude GoStrings.
From Stdlib Require Import SpecFloat.
Local Open Scope list_scope.

Abbreviation float64 := spec_float.

Definition f64_prec : Z := 53.
Definition f64_emax : Z := 1024.

(** [float64(z)] of an integer, [x * y], [x / y], [x == y]. *)
Definition f64_of_Z (z : Z) : float64 := binary_normalize f64_prec f64_emax z 0 false.
Definition f64_mul : float64 → float64 → float64 := SFmul f64_prec f64_emax.
Definition f64_add : float64 → float64 → float64 := SFadd f64_prec f64_emax.
Definition f64_div : float64 → float64 → float64 := SFdiv f64_prec f64_emax.
Definition f64_eqb : float64 → float64 → bool := SFeqb.
Definition f64_ltb : float64 → float64 → bool := SFltb.
Definition f64_zero : float64 := S754_zero false.
Definition f64_one : float64 := f64_of_Z 1.
Definition f64_half : float64 := f64_div f64_one (f64_of_Z 2).

(** The integer part, towards zero; [None] for an infinity or NaN. *)
Definition f64_trunc (x : float64) : option Z :=
  match x with
  | S754_zero _ => Some 0
  | S754_finite sg m e => Some ((if sg then Z.opp else id) (Z.shiftl (Zpos m) e))
  | S754_infinity _ | S754_nan => None
  end.
(** [uint64(x)] and [int32(x)]; [outside] is what the implementation gives when
    the integer part is not in range. *)
Definition f64_to_u64 (outside : float64 → Z) (x : float64) : Z :=
  match f64_trunc x with
  | Some z => if (0 <=? z) && (z <? 2 ^ 64) then z else outside x
  | None => outside x
  end.
Definition f64_to_i32 (outside : float64 → Z) (x : float64) : Z :=
  match f64_trunc x with
  | Some z => if (- 2 ^ 31 <=? z) && (z <? 2 ^ 31) then z else outside x
  | None => outside x
  end.
(** [math.Sqrt] is correctly rounded. *)
Definition f64_sqrt : float64 → float64 := SFsqrt f64_prec f64_emax.
(** [math.Floor] *)
Definition f64_floor (x : float64) : float64 :=
  match x with
  | S754_finite sg m e =>
    let z := (if sg then Z.opp else id) (Zpos m) in
    if 0 <=? e then x
    else let q := z / 2 ^ (- e) in if q =? 0 then S754_zero sg else f64_of_Z q
  | _ => x
  end.

(** The loop of [math.Pow]: [x1 * 2^xe] is the current square of the base,
    [a1 * 2^ae] the product so far. *)
Fixpoint Pow_loop (i : positive) (a1 : float64) (ae : Z) (x1 : float64) (xe : Z) : float64 * Z :=
  if (xe <? -4096) || (4096 <? xe) then (a1, ae + xe)
  else
    let square :=
      let x1 := f64_mul x1 x1 in
      let xe := Z.shiftl xe 1 in
      if f64_ltb x1 f64_half then (f64_add x1 x1, xe - 1) else (x1, xe) in
    match i with
    | xH => (f64_mul a1 x1, ae + xe)
    | xO i' => Pow_loop i' a1 ae square.1 square.2
    | xI i' => Pow_loop i' (f64_mul a1 x1) (ae + xe) square.1 square.2
    end.

(** [math.Pow(x, float64(n))] for a finite positive [x] and [0 <= n]. *)
Definition Pow (x : float64) (n : Z) : float64 :=
  match n with
  | Zpos 1 => x
  | Zpos i =>
    let '(x1, xe) := SFfrexp f64_prec f64_emax x in
    let '(a1, ae) := Pow_loop i f64_one 0 x1 xe in
    SFldexp f64_prec f64_emax a1 ae
  | _ => f64_one
  end.

(** ** fixed_point.go *)

Definition Q64Shift : Z := 64.
Definition Q64One : Z := Z.shiftl 1 Q64Shift.

(** [new(big.Int).SetString(s, 10)]: an optional sign and at least one digit. *)
Definition SetString (s : string) : option Z :=
  let digits l := match l with [] => None | _ => digits_value 0 l end in
  match bytes s with
  | c :: l =>
    if bval c =? 45 then Z.opp <$> digits l
    else if bval c =? 43 then digits l
    else digits (c :: l)
  | [] => None
  end.

(** The bits of a magnitude, and rounding of an integer to [p] significant bits,
    to nearest even, as [big.Float] does. *)
Definition BitLen (z : Z) : Z := if z =? 0 then 0 else Z.log2 (Z.abs z) + 1.
Definition round_bits (p z : Z) : Z :=
  let drop := BitLen z - p in
  if drop <=? 0 then z
  else
    let q := Z.shiftr (Z.abs z) drop in
    let r := Z.abs z - Z.shiftl q drop in
    let half := Z.shiftl 1 (drop - 1) in
    let q := if (half <? r) || ((half =? r) && Z.odd q) then q + 1 else q in
    Z.sgn z * Z.shiftl q drop.

(** [SetInt] keeps every bit (at least 64); the quotient by 2^64 is exact; the
    square is rounded to the precision of its operand, then to float64. *)
Definition SqrtPriceQ64ToFloat (sqrtPriceQ64Str : string) : result float64 :=
  match SetString sqrtPriceQ64Str with
  | None => Err (Errorf "invalid sqrt price string: %s" [FStr sqrtPriceQ64Str])
  | Some sqrtPrice =>
    let prec := Z.max (BitLen sqrtPrice) 64 in
    let square := round_bits prec (sqrtPrice * sqrtPrice) in
    Ok (binary_normalize f64_prec f64_emax square (- (2 * Q64Shift)) false)
  end.

Definition ScaleAmount (amount decimals : Z) : float64 :=
  let divisor := Pow (f64_of_Z 10) decimals in
  f64_div (f64_of_Z amount) divisor.

Definition UnscaleAmount (outside : float64 → Z) (amount : float64) (decimals : Z) : Z :=
  let multiplier := Pow (f64_of_Z 10) decimals in
  f64_to_u64 outside (f64_mul amount multiplier).

(** [new(big.Float).SetFloat64(x)] times 2^64, its integer part and its decimal:
    the product is exact; an infinity leaves the result at zero; [SetFloat64]
    panics on NaN ([None]). *)
Definition floatToQ64 (x : float64) : option string :=
  match x with
  | S754_nan => None
  | S754_zero _ | S754_infinity _ => Some "0"
  | S754_finite sg m e =>
    Some (pretty ((if sg then Z.opp else id) (Z.shiftl (Zpos m) (e + Q64Shift))))
  end.

Definition FloatToSqrtPriceQ64 (price : float64) : option string := floatToQ64 (f64_sqrt price).

Section ticks.
Context (math_Pow : float64 → float64 → float64) (math_Log : float64 → float64)
  (outside : float64 → Z).

(** The constant 1.0001, rounded to the nearest float64. *)
Definition tick_base : float64 := f64_div (f64_of_Z 10001) (f64_of_Z 10000).

Definition TickIndexToSqrtPrice (tickIndex : Z) : option string :=
  let exponent := f64_div (f64_of_Z tickIndex) (f64_of_Z 2) in
  floatToQ64 (math_Pow tick_base exponent).

(** The quotient by 2^64 only changes the exponent. *)
Definition SqrtPriceToTickIndex (sqrtPriceQ64Str : string) : result Z :=
  match SetString sqrtPriceQ64Str with
  | None => Err (Errorf "invalid sqrt price string: %s" [FStr sqrtPriceQ64Str])
  | Some sqrtPrice =>
    let price := binary_normalize f64_prec f64_emax sqrtPrice (- Q64Shift) false in
    let logBase := math_Log tick_base in
    Ok (f64_to_i32 outside
          (f64_floor (f64_mul (f64_div (math_Log price) logBase) (f64_of_Z 2))))
  end.
End ticks.

Definition CalculatePriceFromAmounts (amountA amountB decimalsA decimalsB : Z) : float64 :=
  if amountA =? 0 then f64_zero
  else
    let scaledA := ScaleAmount amountA decimalsA in
    let scaledB := ScaleAmount amountB decimalsB in
    f64_div scaledB scaledA.

Example Pow_ten_9 : Pow (f64_of_Z 10) 9 = f64_of_Z 1000000000.
Proof. vm_compute. reflexivity. Qed.
Example ScaleAmount_usdc : ScaleAmount 1500000 6 = f64_div (f64_of_Z 3) (f64_of_Z 2).
Proof. vm_compute. reflexivity. Qed.
Example SqrtPrice_two : SqrtPriceQ64ToFloat "36893488147419103232" = Ok (f64_of_Z 4).
Proof. vm_compute. reflexivity. Qed.
Example FloatToSqrtPriceQ64_four : FloatToSqrtPriceQ64 (f64_of_Z 4) = Some "36893488147419103232".
Proof. vm_compute. reflexivity. Qed.
Example f64_floor_half : f64_floor (f64_div (f64_of_Z (-3)) (f64_of_Z 2)) = f64_of_Z (-2).
Proof. vm_compute. reflexivity. Qed.

(** The conversion truncates, so a scaled amount does not always convert back: the
    product of the rounded quotient by the power of ten can fall just below. *)
Example Unscale_Scale_29 outside : UnscaleAmount outside (ScaleAmount 29 2) 2 = 28.
Proof. vm_compute. reflexivity. Qed.
