(* ===== verification/GoTime.v ===== *)
(** * Durations

    What the program uses of the package [time] beyond arithmetic on
    nanoseconds: [ParseDuration], [Duration.Round] and [Duration.String]. A
    [time.Duration] is an [int64] of nanoseconds. *)

From S2P Require Import Prelude GoStrings Floats.
From Stdlib Require Import Ascii.
Local Open Scope list_scope.

Definition Minute : Z := 60000000000.
Definition Hour : Z := 3600000000000.

(** ** [time.ParseDuration] *)

Definition unitMap : gmap string Z := list_to_map
  [("ns", 1); ("us", 1000);
   (of_bytes [bchr 194; bchr 181; bchr 115], 1000); (** U+00B5 *)
   (of_bytes [bchr 206; bchr 188; bchr 115], 1000); (** U+03BC *)
   ("ms", 1000000); ("s", 1000000000); ("m", Minute); ("h", Hour)].

(** [leadingInt]: the number and the rest, [None] on overflow. *)
Fixpoint leadingInt (x : Z) (l : list ascii) : option (Z * list ascii) :=
  match l with
  | [] => Some (x, [])
  | c :: l' =>
    match digit c with
    | None => Some (x, l)
    | Some d =>
      if 2 ^ 63 / 10 <? x then None
      else
        let x := u64 (x * 10 + d) in
        if 2 ^ 63 <? x then None else leadingInt x l'
    end
  end.

(** [leadingFraction]: the number, its power of ten and the rest; the digits
    after an overflow are dropped. *)
Fixpoint leadingFraction (x : Z) (scale : float64) (overflow : bool) (l : list ascii) :
    Z * float64 * list ascii :=
  match l with
  | [] => (x, scale, [])
  | c :: l' =>
    match digit c with
    | None => (x, scale, l)
    | Some d =>
      if overflow then leadingFraction x scale true l'
      else if (2 ^ 63 - 1) / 10 <? x then leadingFraction x scale true l'
      else
        let y := u64 (x * 10 + d) in
        if 2 ^ 63 <? y then leadingFraction x scale true l'
        else leadingFraction y (f64_mul scale (f64_of_Z 10)) false l'
    end
  end.

(** The bytes of a unit: up to the next digit or period. *)
Definition unit_byte (c : ascii) : bool := negb ((bval c =? 46) || bool_decide (is_Some (digit c))).
Fixpoint span_unit (l : list ascii) : list ascii * list ascii :=
  match l with
  | c :: l' => if unit_byte c then let '(u, r) := span_unit l' in (c :: u, r) else ([], l)
  | [] => ([], [])
  end.

Definition invalidDuration (orig : string) : error := Errorf "time: invalid duration %q" [FStr orig].

(** One turn of the loop: a number with its unit, and the rest. *)
Definition durationPart (orig : string) (l : list ascii) : result (Z * list ascii) :=
  match l with
  | [] => Err (invalidDuration orig)
  | c :: _ =>
    if unit_byte c then Err (invalidDuration orig)
    else
      match leadingInt 0 l with
      | None => Err (invalidDuration orig)
      | Some (v, l1) =>
        let pre := bool_decide (length l1 ≠ length l) in
        let '(f, scale, l2, post) :=
          match l1 with
          | c :: l2 =>
            if bval c =? 46 then
              let '(f, scale, l3) := leadingFraction 0 f64_one false l2 in
              (f, scale, l3, bool_decide (length l3 ≠ length l2))
            else (0, f64_one, l1, false)
          | [] => (0, f64_one, [], false)
          end in
        if negb pre && negb post then Err (invalidDuration orig)
        else
          let '(u, l3) := span_unit l2 in
          match u with
          | [] => Err (Errorf "time: missing unit in duration %q" [FStr orig])
          | _ =>
            match unitMap !! of_bytes u with
            | None => Err (Errorf "time: unknown unit %q in duration %q" [FStr (of_bytes u); FStr orig])
            | Some unit =>
              if 2 ^ 63 / unit <? v then Err (invalidDuration orig)
              else
                let v := u64 (v * unit) in
                if 0 <? f then
                  let frac := f64_mul (f64_of_Z f) (f64_div (f64_of_Z unit) scale) in
                  let v := u64 (v + default 0 (f64_trunc frac)) in
                  if 2 ^ 63 <? v then Err (invalidDuration orig) else Ok (v, l3)
                else Ok (v, l3)
            end
          end
      end
  end.

(** The loop; every turn consumes a byte, so the length is enough fuel. *)
Fixpoint ParseDuration_go (orig : string) (fuel : nat) (d : Z) (l : list ascii) : result Z :=
  match l, fuel with
  | [], _ => Ok d
  | _, O => Err (invalidDuration orig)
  | _, S fuel =>
    '(v, l) ← durationPart orig l;
    let d := u64 (d + v) in
    if 2 ^ 63 <? d then Err (invalidDuration orig) else ParseDuration_go orig fuel d l
  end.

Definition ParseDuration (s : string) : result Z :=
  let '(neg, l) := match bytes s with
    | c :: l => if bval c =? 45 then (true, l) else if bval c =? 43 then (false, l) else (false, c :: l)
    | [] => (false, [])
    end in
  if bool_decide (l = bytes "0") then Ok 0
  else match l with
  | [] => Err (invalidDuration s)
  | _ =>
    d ← ParseDuration_go s (length l) 0 l;
    if neg then Ok (i64 (- d))
    else if 2 ^ 63 - 1 <? d then Err (invalidDuration s) else Ok d
  end.

(** ** [Duration.Round] and [Duration.String] *)

Definition lessThanHalf (x y : Z) : bool := u64 (u64 x + u64 x) <? u64 y.

Definition Round (d m : Z) : Z :=
  if m <=? 0 then d
  else
    let r := Z.rem d m in
    if d <? 0 then
      let r := - r in
      if lessThanHalf r m then i64 (d + r)
      else let d1 := i64 (i64 (d - m) + r) in if d1 <? d then d1 else - 2 ^ 63
    else
      if lessThanHalf r m then i64 (d - r)
      else let d1 := i64 (i64 (d + m) - r) in if d <? d1 then d1 else 2 ^ 63 - 1.

Definition digit_char (d : Z) : ascii := bchr (48 + d).

(** [fmtFrac]: [prec] decimals of [v] before the bytes [acc], without trailing
    zeros, and the integer part. *)
Fixpoint fmtFrac_go (prec : nat) (print : bool) (v : Z) (acc : list ascii) : list ascii * Z :=
  match prec with
  | O => (if print then bchr 46 :: acc else acc, v)
  | S prec =>
    let d := v mod 10 in
    let print := print || negb (d =? 0) in
    fmtFrac_go prec print (v / 10) (if print then digit_char d :: acc else acc)
  end.
Definition fmtFrac (prec : nat) (v : Z) (acc : list ascii) : list ascii * Z :=
  fmtFrac_go prec false v acc.

Definition fmtInt (v : Z) (acc : list ascii) : list ascii := bytes (pretty v) ++ acc.

Definition Duration_String (d : Z) : string :=
  let neg := d <? 0 in
  let u := u64 d in
  let u := if neg then u64 (- u) else u in
  let buf :=
    if u <? 1000000000 then
      if u =? 0 then bytes "0s"
      else if u <? 1000 then
        let '(acc, v) := fmtFrac 0 u (bytes "ns") in fmtInt v acc
      else if u <? 1000000 then
        let '(acc, v) := fmtFrac 3 u [bchr 194; bchr 181; bchr 115] in fmtInt v acc
      else
        let '(acc, v) := fmtFrac 6 u (bytes "ms") in fmtInt v acc
    else
      let '(acc, sec) := fmtFrac 9 u (bytes "s") in
      let acc := fmtInt (sec mod 60) acc in
      let mins := sec / 60 in
      if 0 <? mins then
        let acc := fmtInt (mins mod 60) (bchr 109 :: acc) in
        let hours := mins / 60 in
        if 0 <? hours then fmtInt hours (bchr 104 :: acc) else acc
      else acc in
  of_bytes (if neg then bchr 45 :: buf else buf).

(** ** Examples *)

Example ParseDuration_examples :
  ParseDuration "5m" = Ok (5 * Minute) ∧ ParseDuration "1h30m" = Ok (Hour + 30 * Minute)
  ∧ ParseDuration "1.5s" = Ok 1500000000 ∧ ParseDuration "-.5h" = Ok (- (30 * Minute))
  ∧ ParseDuration "0" = Ok 0 ∧ is_ok (ParseDuration "30") = false
  ∧ is_ok (ParseDuration "9223372036854775808ns") = false.
Proof. vm_compute. split_and!; reflexivity. Qed.
Example Duration_String_examples :
  Duration_String 0 = "0s" ∧ Duration_String (Hour + 90 * 1000000000) = "1h1m30s"
  ∧ Duration_String 1500000 = "1.5ms" ∧ Duration_String (- 2500000000) = "-2.5s"
  ∧ Duration_String (Round 1234567890 1000000) = "1.235s".
Proof. vm_compute. split_and!; reflexivity. Qed.

(** ** Lemmas *)

Lemma leadingInt_suffix x l v l' : leadingInt x l = Some (v, l') → l' `suffix_of` l.
Proof.
  revert x. induction l as [|c l IH]; intros x; simpl; [by intros [= _ <-]|].
  destruct (digit c); [|by intros [= _ <-]].
  repeat case_match; try done. intros Hl%IH. by apply suffix_cons_r.
Qed.

Lemma ParseDuration_go_range orig fuel d l v :
  0 <= d <= 2 ^ 63 → ParseDuration_go orig fuel d l = Ok v → 0 <= v <= 2 ^ 63.
Proof.
  revert d l. induction fuel as [|fuel IH]; intros d l Hd; destruct l as [|x l]; cbn [ParseDuration_go];
    try (by intros [= <-]).
  rewrite bind_Ok. intros ([w k] & _ & Hgo). destruct (_ <? u64 (d + w)) eqn:E; [done|].
  eapply IH; [|done]. go_bool. pose proof (u64_range (d + w)) as Hu. unfold is_u64 in Hu. lia.
Qed.

Lemma ParseDuration_range s d : ParseDuration s = Ok d → is_i64 d.
Proof.
  unfold ParseDuration. destruct (match bytes s with [] => _ | _ => _ end) as [neg l].
  case_bool_decide; [intros [= <-]; done|]. destruct l as [|c l]; [done|].
  rewrite bind_Ok. intros (v & Hv%ParseDuration_go_range & Hd); [|lia].
  destruct neg; [simplify_eq; apply i64_range|].
  destruct (_ <? v) eqn:E; simplify_eq. go_bool. unfold is_i64. lia.
Qed.
