(* ===== verification/Raydium.v ===== *)
(** * Raydium CLMM swaps

    [decoder/raydium/instruction.go] and [decoder/raydium/parser.go]: the layout
    of the swap instruction, the swap event built from the vault balances before
    and after the transaction, and its normalisation to the canonical pair. A
    nil pointer argument is [None]; a method that changes its receiver returns
    the new event with its result. *)

From S2P Require Import Prelude GoStrings Bytes Pair Floats.
Local Open Scope list_scope.

Definition ProgramID : string := "CAMMCzo5YL8w4VFF8KVHrK22GGUsp5VTaW7grrKgrWqK".

Record SwapInstruction := mkSwapInstruction {
  si_Discriminator : list byte; (** 8 bytes *)
  si_Amount : Z;
  si_OtherAmountThreshold : Z;
  si_SqrtPriceLimitX64Low : Z;
  si_SqrtPriceLimitX64High : Z;
  si_IsBaseInput : bool;
}.

Record SwapEvent := mkSwapEvent {
  ev_PoolAddress : string;
  ev_MintA : string;
  ev_MintB : string;
  ev_DecimalsA : Z;
  ev_DecimalsB : Z;
  ev_AmountIn : Z;
  ev_AmountOut : Z;
  ev_FeeBps : Z;
  ev_SqrtPriceX64Low : Z;
  ev_SqrtPriceX64High : Z;
  ev_IsBaseInput : bool;
  ev_Slot : Z;
  ev_Signature : string;
  ev_Timestamp : Z;
}.

Definition ParseSwapInstruction (data : list byte) : result SwapInstruction :=
  if zlen data <? 41 then
    Err (Errorf "instruction data too short: got %d bytes, need at least 41" [FInt (zlen data)])
  else Ok {|
    si_Discriminator := slice 0 8 data;
    si_Amount := le_uint (slice 8 16 data);
    si_OtherAmountThreshold := le_uint (slice 16 24 data);
    si_SqrtPriceLimitX64Low := le_uint (slice 24 32 data);
    si_SqrtPriceLimitX64High := le_uint (slice 32 40 data);
    si_IsBaseInput := negb (le_uint (slice 40 41 data) =? 0);
  |}.

Definition SqrtPriceX64 (s : SwapInstruction) : Z * Z :=
  (si_SqrtPriceLimitX64Low s, si_SqrtPriceLimitX64High s).

Record AccountKeys := mkAccountKeys {
  ak_PoolAddress : string;
  ak_TokenVaultA : string;
  ak_TokenVaultB : string;
  ak_MintA : string;
  ak_MintB : string;
  ak_UserTokenA : string;
  ak_UserTokenB : string;
  ak_TickArrayLower : string;
  ak_TickArrayUpper : string;
  ak_ObservationKey : string;
}.

Record SwapContext := mkSwapContext {
  sc_Accounts : AccountKeys;
  sc_PreTokenA : Z;
  sc_PostTokenA : Z;
  sc_PreTokenB : Z;
  sc_PostTokenB : Z;
  sc_DecimalsA : Z;
  sc_DecimalsB : Z;
  sc_FeeBps : Z;
  sc_Slot : Z;
  sc_Signature : string;
  sc_Timestamp : Z;
}.

Definition ParseSwapEvent (instr : option SwapInstruction) (ctx : option SwapContext) :
    result SwapEvent :=
  match instr, ctx with
  | None, _ => Err (Errorf "instruction cannot be nil" [])
  | _, None => Err (Errorf "context cannot be nil" [])
  | Some instr, Some ctx =>
    let event amountIn amountOut isBaseInput := {|
      ev_PoolAddress := ak_PoolAddress (sc_Accounts ctx);
      ev_MintA := ak_MintA (sc_Accounts ctx);
      ev_MintB := ak_MintB (sc_Accounts ctx);
      ev_DecimalsA := sc_DecimalsA ctx;
      ev_DecimalsB := sc_DecimalsB ctx;
      ev_AmountIn := amountIn;
      ev_AmountOut := amountOut;
      ev_FeeBps := sc_FeeBps ctx;
      ev_SqrtPriceX64Low := si_SqrtPriceLimitX64Low instr;
      ev_SqrtPriceX64High := si_SqrtPriceLimitX64High instr;
      ev_IsBaseInput := isBaseInput;
      ev_Slot := sc_Slot ctx;
      ev_Signature := sc_Signature ctx;
      ev_Timestamp := sc_Timestamp ctx;
    |} in
    let deltaA := i64 (i64 (sc_PostTokenA ctx) - i64 (sc_PreTokenA ctx)) in
    let deltaB := i64 (i64 (sc_PostTokenB ctx) - i64 (sc_PreTokenB ctx)) in
    event ←
      (if (deltaA >? 0) && (deltaB <? 0) then
         Ok (event (u64 deltaA) (u64 (i64 (- deltaB))) true)
       else if (deltaA <? 0) && (deltaB >? 0) then
         Ok (event (u64 deltaB) (u64 (i64 (- deltaA))) false)
       else Err (Errorf "unable to determine swap direction: deltaA=%d deltaB=%d"
                   [FInt deltaA; FInt deltaB]));
    if ev_AmountIn event =? 0 then Err (Errorf "invalid swap: amount in is zero" [])
    else if ev_AmountOut event =? 0 then Err (Errorf "invalid swap: amount out is zero" [])
    else Ok event
  end.

(** The event after the call, and the pair or the error it returns. *)
Definition NormalizeToCanonicalPair (r : PairRegistry) (e : SwapEvent) :
    SwapEvent * result CanonicalPair :=
  match ResolvePair r (ev_MintA e) (ev_MintB e) with
  | Err err => (e, Err (Wrapf "failed to resolve canonical pair: %w" [] err))
  | Ok cp =>
    (if Inverted cp then {|
       ev_PoolAddress := ev_PoolAddress e;
       ev_MintA := ev_MintB e;
       ev_MintB := ev_MintA e;
       ev_DecimalsA := ev_DecimalsB e;
       ev_DecimalsB := ev_DecimalsA e;
       ev_AmountIn := ev_AmountIn e;
       ev_AmountOut := ev_AmountOut e;
       ev_FeeBps := ev_FeeBps e;
       ev_SqrtPriceX64Low := ev_SqrtPriceX64Low e;
       ev_SqrtPriceX64High := ev_SqrtPriceX64High e;
       ev_IsBaseInput := negb (ev_IsBaseInput e);
       ev_Slot := ev_Slot e;
       ev_Signature := ev_Signature e;
       ev_Timestamp := ev_Timestamp e;
     |} else e, Ok cp)
  end.

Definition CalculatePrice (e : SwapEvent) : float64 :=
  let baseAmount := if negb (ev_IsBaseInput e) then ScaleAmount (ev_AmountOut e) (ev_DecimalsA e)
                    else ScaleAmount (ev_AmountIn e) (ev_DecimalsA e) in
  let quoteAmount := if negb (ev_IsBaseInput e) then ScaleAmount (ev_AmountIn e) (ev_DecimalsB e)
                     else ScaleAmount (ev_AmountOut e) (ev_DecimalsB e) in
  if f64_eqb baseAmount f64_zero then f64_zero else f64_div quoteAmount baseAmount.

Definition CalculateVolume (e : SwapEvent) : Z :=
  if ev_IsBaseInput e then ev_AmountOut e else ev_AmountIn e.

(** ** Specification of the layout *)

(** The bytes of a swap instruction. *)
Definition encode_SwapInstruction (s : SwapInstruction) : list byte :=
  si_Discriminator s ++ le_bytes 8 (si_Amount s) ++ le_bytes 8 (si_OtherAmountThreshold s)
  ++ le_bytes 8 (si_SqrtPriceLimitX64Low s) ++ le_bytes 8 (si_SqrtPriceLimitX64High s)
  ++ le_bytes 1 (if si_IsBaseInput s then 1 else 0).

(** The Go types of the fields. *)
Definition wf_SwapInstruction (s : SwapInstruction) : Prop :=
  length (si_Discriminator s) = 8%nat ∧ is_u64 (si_Amount s) ∧
  is_u64 (si_OtherAmountThreshold s) ∧ is_u64 (si_SqrtPriceLimitX64Low s) ∧
  is_u64 (si_SqrtPriceLimitX64High s).

(** The mint, the decimals and the amount of the leg the user pays ([In]) and of
    the leg the user receives ([Out]). *)
Definition leg_in (e : SwapEvent) : string * Z * Z :=
  if ev_IsBaseInput e then (ev_MintA e, ev_DecimalsA e, ev_AmountIn e)
  else (ev_MintB e, ev_DecimalsB e, ev_AmountIn e).
Definition leg_out (e : SwapEvent) : string * Z * Z :=
  if ev_IsBaseInput e then (ev_MintB e, ev_DecimalsB e, ev_AmountOut e)
  else (ev_MintA e, ev_DecimalsA e, ev_AmountOut e).

(** ** Lemmas *)

Lemma ParseSwapInstruction_Ok data instr :
  ParseSwapInstruction data = Ok instr → (41 <= length data)%nat ∧ wf_SwapInstruction instr.
Proof.
  unfold ParseSwapInstruction, zlen. destruct (Z.ltb_spec (Z.of_nat (length data)) 41); [done|].
  intros [= <-]. split; [lia|]. unfold wf_SwapInstruction; simpl.
  split; [by rewrite length_slice by lia|].
  repeat split; eapply le_uint_slice_range; lia.
Qed.

Lemma length_encode_SwapInstruction s :
  length (si_Discriminator s) = 8%nat → length (encode_SwapInstruction s) = 41%nat.
Proof.
  intros H. unfold encode_SwapInstruction. rewrite !length_app, !length_le_bytes, H. done.
Qed.

(** The two deltas of [ParseSwapEvent], as differences of the balances. *)
Definition deltaA (ctx : SwapContext) : Z := i64 (sc_PostTokenA ctx - sc_PreTokenA ctx).
Definition deltaB (ctx : SwapContext) : Z := i64 (sc_PostTokenB ctx - sc_PreTokenB ctx).

Lemma ParseSwapEvent_Ok instr ctx e :
  ParseSwapEvent (Some instr) (Some ctx) = Ok e →
  ev_PoolAddress e = ak_PoolAddress (sc_Accounts ctx) ∧
  ev_MintA e = ak_MintA (sc_Accounts ctx) ∧ ev_MintB e = ak_MintB (sc_Accounts ctx) ∧
  ev_DecimalsA e = sc_DecimalsA ctx ∧ ev_DecimalsB e = sc_DecimalsB ctx ∧
  ev_SqrtPriceX64Low e = si_SqrtPriceLimitX64Low instr ∧
  ev_SqrtPriceX64High e = si_SqrtPriceLimitX64High instr ∧
  if ev_IsBaseInput e
  then ev_AmountIn e = deltaA ctx ∧ ev_AmountOut e = - deltaB ctx ∧ 0 < deltaA ctx ∧ deltaB ctx < 0
  else ev_AmountIn e = deltaB ctx ∧ ev_AmountOut e = - deltaA ctx ∧ 0 < deltaB ctx ∧ deltaA ctx < 0.
Proof.
  unfold ParseSwapEvent. rewrite !i64_sub. fold (deltaA ctx) (deltaB ctx).
  assert (is_i64 (deltaA ctx)) as HA by apply i64_range.
  assert (is_i64 (deltaB ctx)) as HB by apply i64_range.
  rewrite bind_Ok. intros (e' & He' & H).
  destruct (Z.eqb_spec (ev_AmountIn e') 0); [done|].
  destruct (Z.eqb_spec (ev_AmountOut e') 0); [done|]. injection H as <-.
  rewrite !Z.gtb_ltb in He'.
  destruct (Z.ltb_spec 0 (deltaA ctx)), (Z.ltb_spec (deltaB ctx) 0); simpl in He';
    [injection He' as <-|..].
  2-4: destruct (Z.ltb_spec (deltaA ctx) 0), (Z.ltb_spec 0 (deltaB ctx)); simpl in He'; try done;
    injection He' as <-.
  all: simpl in *; rewrite u64_small, u64_neg_i64 by (done || unfold is_u64, is_i64 in *; lia).
  all: split_and!; done || lia.
Qed.

Lemma ParseSwapEvent_is_ok instr ctx :
  is_ok (ParseSwapEvent (Some instr) (Some ctx)) = true ↔
  (0 < deltaA ctx ∧ deltaB ctx < 0) ∨ (deltaA ctx < 0 ∧ 0 < deltaB ctx).
Proof.
  unfold ParseSwapEvent. rewrite !i64_sub. fold (deltaA ctx) (deltaB ctx).
  assert (is_i64 (deltaA ctx)) as HA by apply i64_range.
  assert (is_i64 (deltaB ctx)) as HB by apply i64_range.
  rewrite !Z.gtb_ltb.
  destruct (Z.ltb_spec 0 (deltaA ctx)), (Z.ltb_spec (deltaB ctx) 0); simpl;
    [rewrite u64_small, u64_neg_i64 by (done || unfold is_u64, is_i64 in *; lia)|..].
  { destruct (Z.eqb_spec (deltaA ctx) 0), (Z.eqb_spec (- deltaB ctx) 0); simpl; lia || naive_solver lia. }
  all: destruct (Z.ltb_spec (deltaA ctx) 0), (Z.ltb_spec 0 (deltaB ctx)); simpl.
  all: rewrite ?u64_small, ?u64_neg_i64 by (done || unfold is_u64, is_i64 in *; lia).
  all: try (split; [done|lia]).
  all: destruct (Z.eqb_spec (deltaB ctx) 0), (Z.eqb_spec (- deltaA ctx) 0); simpl; lia || naive_solver lia.
Qed.

(** Reading a field of an encoded instruction. *)
Lemma ParseSwapInstruction_encode s tail :
  wf_SwapInstruction s → ParseSwapInstruction (encode_SwapInstruction s ++ tail) = Ok s.
Proof.
  intros (Hd & Ha & Ho & Hl & Hh). unfold ParseSwapInstruction, zlen.
  rewrite length_app, length_encode_SwapInstruction by done.
  destruct (Z.ltb_spec (Z.of_nat (41 + length tail)) 41); [lia|].
  rewrite !slice_app_l by (rewrite length_encode_SwapInstruction by done; lia).
  destruct s as [d a o l h f]; simpl in *.
  do 8 (destruct d as [|? d]; [done|]). destruct d; [|done].
  set (E := encode_SwapInstruction _).
  assert (slice 8 16 E = le_bytes 8 a) as -> by reflexivity.
  assert (slice 16 24 E = le_bytes 8 o) as -> by reflexivity.
  assert (slice 24 32 E = le_bytes 8 l) as -> by reflexivity.
  assert (slice 32 40 E = le_bytes 8 h) as -> by reflexivity.
  assert (slice 40 41 E = le_bytes 1 (if f then 1 else 0)) as -> by reflexivity.
  rewrite !le_uint_le_bytes by (done || by destruct f). by destruct f.
Qed.

(** ** Properties *)

(** [ParseSwapInstruction] reads back every instruction laid out as
    discriminator, three little-endian [u64], a [u128] in two halves and a flag
    byte, whatever bytes follow, and rejects exactly the inputs shorter than 41
    bytes. *)
Theorem ParseSwapInstruction_roundtrip s tail :
  wf_SwapInstruction s →
  ParseSwapInstruction (encode_SwapInstruction s ++ tail) = Ok s ∧
  (∀ data, is_ok (ParseSwapInstruction data) = bool_decide (41 <= length data)%nat).
Proof.
  intros Hs. split; [by apply ParseSwapInstruction_encode|]. intros data.
  unfold ParseSwapInstruction, zlen.
  destruct (Z.ltb_spec (Z.of_nat (length data)) 41); simpl; symmetry;
    [apply bool_decide_eq_false|apply bool_decide_eq_true]; lia.
Qed.

Definition example_instruction : SwapInstruction :=
  mkSwapInstruction (le_bytes 8 0xc88775e1919ec6f8) 1000000 990000 (2 ^ 63) 7 true.

Lemma ParseSwapInstruction_roundtrip_witness :
  ParseSwapInstruction (encode_SwapInstruction example_instruction ++ [bchr 9])
  = Ok example_instruction.
Proof.
  apply ParseSwapInstruction_roundtrip. unfold wf_SwapInstruction, is_u64. simpl.
  repeat split; lia.
Defined.

(** C38. The amounts of a swap: as long as each vault moved by less than 2^63
    units, [ParseSwapEvent] accepts exactly the contexts where one vault gained
    and the other lost; the input amount is the gain, the output amount is the
    loss, both positive (so its two zero-amount errors are unreachable), and
    [IsBaseInput] says that vault A gained, whatever the instruction's flag. *)
Theorem ParseSwapEvent_amounts instr ctx :
  is_i64 (sc_PostTokenA ctx - sc_PreTokenA ctx) →
  is_i64 (sc_PostTokenB ctx - sc_PreTokenB ctx) →
  let gainA := sc_PostTokenA ctx - sc_PreTokenA ctx in
  let gainB := sc_PostTokenB ctx - sc_PreTokenB ctx in
  (is_ok (ParseSwapEvent (Some instr) (Some ctx)) = true ↔
   (0 < gainA ∧ gainB < 0) ∨ (gainA < 0 ∧ 0 < gainB)) ∧
  (∀ e, ParseSwapEvent (Some instr) (Some ctx) = Ok e →
   0 < ev_AmountIn e ∧ 0 < ev_AmountOut e ∧
   ev_IsBaseInput e = bool_decide (0 < gainA) ∧
   (if ev_IsBaseInput e then ev_AmountIn e = gainA ∧ ev_AmountOut e = - gainB
    else ev_AmountIn e = gainB ∧ ev_AmountOut e = - gainA)).
Proof.
  intros HA HB gainA gainB.
  assert (deltaA ctx = gainA) as EA by (by apply i64_small).
  assert (deltaB ctx = gainB) as EB by (by apply i64_small).
  split; [rewrite ParseSwapEvent_is_ok, EA, EB; done|].
  intros e He. apply ParseSwapEvent_Ok in He as (_ & _ & _ & _ & _ & _ & _ & He).
  rewrite EA, EB in He.
  destruct (ev_IsBaseInput e); destruct He as (-> & -> & ? & ?);
    (split_and!; try lia); symmetry;
    [apply bool_decide_eq_true|apply bool_decide_eq_false]; lia.
Qed.

Definition example_context (preA postA preB postB : Z) : SwapContext :=
  mkSwapContext (mkAccountKeys "pool" "" "" "mintA" "mintB" "" "" "" "" "")
    preA postA preB postB 9 6 0 12 "sig" 0.

Lemma ParseSwapEvent_amounts_witness :
  is_ok (ParseSwapEvent (Some example_instruction) (Some (example_context 500 700 90 40))) = true.
Proof.
  apply (ParseSwapEvent_amounts example_instruction (example_context 500 700 90 40));
    simpl; unfold is_i64; lia.
Defined.

(** 1000000 units of 6 decimals against 2000 of 3: a price of 2. *)
Example CalculatePrice_two :
  CalculatePrice (mkSwapEvent "pool" "A" "B" 6 3 1000000 2000 0 0 0 true 0 "" 0) = f64_of_Z 2.
Proof. vm_compute. reflexivity. Qed.

(** A vault that gains 2^63 units or more in one transaction is read as a vault
    that lost: here both vaults gain and the event still reports a B to A swap. *)
Lemma ParseSwapEvent_wraps :
  match ParseSwapEvent (Some example_instruction)
          (Some (example_context 0 (2 ^ 63 + 5) 10 11)) with
  | Ok e => ev_IsBaseInput e = false ∧ ev_AmountIn e = 1 ∧ ev_AmountOut e = 2 ^ 63 - 5
  | Err _ => False
  end.
Proof. vm_compute. auto. Qed.

(** [NormalizeToCanonicalPair] only relabels the legs: the mint, decimals and
    amount paid and those received are the same before and after; afterwards
    mint A is the canonical base and mint B the canonical quote, the volume is
    the amount of the quote leg, and a second call finds nothing to invert. *)
Theorem NormalizeToCanonicalPair_legs r e e' cp :
  NormalizeToCanonicalPair r e = (e', Ok cp) →
  leg_in e' = leg_in e ∧ leg_out e' = leg_out e ∧
  ev_MintA e' = BaseMint cp ∧ ev_MintB e' = QuoteMint cp ∧
  ((leg_in e').1.1 = QuoteMint cp ∧ CalculateVolume e' = (leg_in e').2 ∨
   (leg_out e').1.1 = QuoteMint cp ∧ CalculateVolume e' = (leg_out e').2) ∧
  NormalizeToCanonicalPair r e'
  = (e', Ok (mkCanonicalPair (BaseToken cp) (BaseMint cp) (QuoteToken cp) (QuoteMint cp) false)).
Proof.
  unfold NormalizeToCanonicalPair at 1.
  destruct (ResolvePair r (ev_MintA e) (ev_MintB e)) as [p|] eqn:Hp; [|done].
  intros [= <- <-].
  destruct (ResolvePair_nonempty _ _ _ _ Hp).
  assert (ResolvePair r (BaseMint p) (QuoteMint p)
    = Ok (mkCanonicalPair (BaseToken p) (BaseMint p) (QuoteToken p) (QuoteMint p) false)) as Hc.
  { rewrite ResolvePair_unfold in Hp by done. simplify_eq.
    destruct (mint_before r (ev_MintA e) (ev_MintB e)) eqn:E; simpl;
      rewrite ResolvePair_unfold by done; rewrite ?E; [done|].
    by rewrite (mint_before_total _ _ _ E). }
  apply ResolvePair_mints in Hp. unfold leg_in, leg_out, CalculateVolume.
  destruct (Inverted p); destruct Hp as [Hb Hq]; simpl.
  all: split; [by destruct (ev_IsBaseInput e)|]; split; [by destruct (ev_IsBaseInput e)|].
  all: split; [done|]; split; [done|]; split;
    [destruct (ev_IsBaseInput e); simpl; auto|].
  all: unfold NormalizeToCanonicalPair; simpl; rewrite <- Hb, <- Hq, Hc; done.
Qed.

Definition example_event : SwapEvent :=
  mkSwapEvent "pool" "EPjFWdd5AufqSSqeM2qN1xzybapC8G4wEGGkZwyTDt1v"
    "So11111111111111111111111111111111111111112" 6 9 2500 100 30 0 1 true 12 "sig" 0.

Lemma NormalizeToCanonicalPair_legs_witness :
  leg_in (NormalizeToCanonicalPair initial_registry example_event).1 = leg_in example_event ∧
  ev_MintA (NormalizeToCanonicalPair initial_registry example_event).1
  = "So11111111111111111111111111111111111111112".
Proof.
  destruct (NormalizeToCanonicalPair_legs initial_registry example_event
    (NormalizeToCanonicalPair initial_registry example_event).1
    (mkCanonicalPair "SOL" "So11111111111111111111111111111111111111112"
       "USDC" "EPjFWdd5AufqSSqeM2qN1xzybapC8G4wEGGkZwyTDt1v" true)) as (H1 & _ & H2 & _).
  - vm_compute. reflexivity.
  - split; [exact H1|exact H2].
Defined.
