(* ===== verification/SlotCache.v ===== *)
(** * Slot time cache

    [ingestor/common/slot_cache.go]: the [SlotTimeCache] interface and its
    in-memory implementation. The mutex makes each method atomic, so a method is
    one state transition. *)

From S2P Require Import Prelude GoStrings Proto.
Local Open Scope list_scope.

(** The Go interface. [Size] and [PruneBeforeSlot] return Go's [int]; [GetRange]
    takes the number of loop iterations it may use and returns [None] when they
    do not suffice. The laws are the interface's documentation. *)
Class SlotTimeCache (C : Type) := {
  Get : C → Z → result Z;
  Set_ : C → Z → Z → C;
  GetRange : nat → C → Z → Z → option (gmap Z Z);
  SetReplayMarker : C → Z → C;
  GetReplayMarker : C → Z;
  IsReplaySlot : C → Z → bool;
  Clear : C → C;
  Size : C → Z;
  PruneBeforeSlot : C → Z → C * Z;

  Get_Set_eq c slot ts : Get (Set_ c slot ts) slot = Ok ts;
  Get_Set_ne c slot slot' ts : slot ≠ slot' → Get (Set_ c slot ts) slot' = Get c slot';
  Get_Clear c slot : is_ok (Get (Clear c) slot) = false;
  Get_SetReplayMarker c m slot : Get (SetReplayMarker c m) slot = Get c slot;
  GetReplayMarker_Set c slot ts : GetReplayMarker (Set_ c slot ts) = GetReplayMarker c;
  GetReplayMarker_SetReplayMarker c m : GetReplayMarker (SetReplayMarker c m) = m;
  IsReplaySlot_spec c slot :
    IsReplaySlot c slot = (0 <? GetReplayMarker c) && (GetReplayMarker c <=? slot);
  Get_PruneBeforeSlot c slot slot' :
    Get (PruneBeforeSlot c slot).1 slot'
    = if slot' <? slot then Get (Clear c) slot' else Get c slot';
  Size_PruneBeforeSlot c slot :
    Size c = Size (PruneBeforeSlot c slot).1 + (PruneBeforeSlot c slot).2;
}.

Record MemorySlotTimeCache := mkCache {
  slots : gmap Z Z;
  replayMarker : Z;
}.

Definition NewMemorySlotTimeCache : MemorySlotTimeCache := mkCache ∅ 0.

Definition Mem_Get (c : MemorySlotTimeCache) (slot : Z) : result Z :=
  match slots c !! slot with
  | None => Err (Errorf "slot %d not found in cache" [FInt slot])
  | Some ts => Ok ts
  end.

Definition Mem_Set (c : MemorySlotTimeCache) (slot timestamp : Z) : MemorySlotTimeCache :=
  mkCache (<[slot := timestamp]> (slots c)) (replayMarker c).

(** [for slot := startSlot; slot <= endSlot; slot++]: the increment wraps. *)
Fixpoint Mem_GetRange_loop (fuel : nat) (c : MemorySlotTimeCache) (slot endSlot : Z)
    (result : gmap Z Z) : option (gmap Z Z) :=
  match fuel with
  | O => None
  | S fuel' =>
    if slot <=? endSlot then
      let result := match slots c !! slot with
                    | Some ts => <[slot := ts]> result
                    | None => result
                    end in
      Mem_GetRange_loop fuel' c (u64 (slot + 1)) endSlot result
    else Some result
  end.
Definition Mem_GetRange (fuel : nat) (c : MemorySlotTimeCache) (startSlot endSlot : Z) :
    option (gmap Z Z) :=
  Mem_GetRange_loop fuel c startSlot endSlot ∅.

Definition Mem_SetReplayMarker (c : MemorySlotTimeCache) (slot : Z) : MemorySlotTimeCache :=
  mkCache (slots c) slot.
Definition Mem_GetReplayMarker (c : MemorySlotTimeCache) : Z := replayMarker c.
Definition Mem_IsReplaySlot (c : MemorySlotTimeCache) (slot : Z) : bool :=
  (replayMarker c >? 0) && (slot >=? replayMarker c).
Definition Mem_Clear (c : MemorySlotTimeCache) : MemorySlotTimeCache := mkCache ∅ 0.
Definition Mem_Size (c : MemorySlotTimeCache) : Z := Z.of_nat (size (slots c)).

(** The body of the [range] loop of [PruneBeforeSlot] over one key. *)
Definition prune_step (slot : Z) (acc : gmap Z Z * Z) (s : Z) : gmap Z Z * Z :=
  if s <? slot then (delete s acc.1, acc.2 + 1) else acc.

(** Deleting the visited key during [range] does not disturb the iteration. *)
Definition Mem_PruneBeforeSlot `{!RangeOrder Z Z} (c : MemorySlotTimeCache) (slot : Z) :
    MemorySlotTimeCache * Z :=
  let '(m, pruned) := foldl (prune_step slot) (slots c, 0) (range_entries (slots c)).*1 in
  (mkCache m (replayMarker c), pruned).

(** ** Lemmas *)

Lemma prune_foldl slot ks m n :
  NoDup ks → (∀ k, k ∈ ks → is_Some (m !! k)) →
  let r := foldl (prune_step slot) (m, n) ks in
  (∀ k, r.1 !! k = if bool_decide (k ∈ ks) && (k <? slot) then None else m !! k) ∧
  Z.of_nat (size m) = Z.of_nat (size r.1) + (r.2 - n).
Proof.
  revert m n. induction ks as [|k ks IH]; intros m n Hnd Hin; simpl.
  { split; [done|lia]. }
  apply NoDup_cons in Hnd as [Hk Hnd]. unfold prune_step at 2 4 6; simpl.
  destruct (Z.ltb_spec k slot) as [Hlt|Hge].
  - destruct (IH (delete k m) (n + 1) Hnd) as [IH1 IH2].
    { intros k' Hk'. rewrite lookup_delete_ne by set_solver. apply Hin. set_solver. }
    split.
    + intros k'. rewrite IH1. destruct (decide (k' = k)) as [->|Hne].
      * rewrite lookup_delete_eq, (bool_decide_eq_true_2 (k ∈ k :: ks)) by set_solver.
        destruct (Z.ltb_spec k slot); [|lia]. by case_match.
      * rewrite lookup_delete_ne by done.
        rewrite (bool_decide_ext (k' ∈ k :: ks) (k' ∈ ks)) by set_solver. done.
    + destruct (Hin k) as [v Hv]; [set_solver|].
      rewrite map_size_delete_Some in IH2 by eauto.
      assert (size m ≠ 0%nat) by (intros ->%map_size_empty_inv; by rewrite lookup_empty in Hv).
      lia.
  - destruct (IH m n Hnd) as [IH1 IH2]; [intros; apply Hin; set_solver|].
    split; [|done]. intros k'. rewrite IH1. destruct (decide (k' = k)) as [->|Hne].
    + destruct (Z.ltb_spec k slot); [lia|]. by rewrite !andb_false_r.
    + by rewrite (bool_decide_ext (k' ∈ k :: ks) (k' ∈ ks)) by set_solver.
Qed.

Lemma Mem_PruneBeforeSlot_spec `{!RangeOrder Z Z} c slot :
  let '(c', n) := Mem_PruneBeforeSlot c slot in
  (∀ k, slots c' !! k = if k <? slot then None else slots c !! k) ∧
  replayMarker c' = replayMarker c ∧ Mem_Size c = Mem_Size c' + n.
Proof.
  unfold Mem_PruneBeforeSlot.
  destruct (prune_foldl slot (range_entries (slots c)).*1 (slots c) 0) as [H1 H2].
  { apply NoDup_range_entries. }
  { intros k ([k' v] & -> & Hkv)%list_elem_of_fmap. apply elem_of_range_entries in Hkv. eauto. }
  destruct (foldl _ _ _) as [m n]. simpl in *. split; [|split; [done|unfold Mem_Size; simpl; lia]].
  intros k. rewrite H1. case_bool_decide as Hk; [done|]. simpl.
  destruct (k <? slot); [|done]. destruct (slots c !! k) as [v|] eqn:Hv; [|done].
  destruct Hk. apply list_elem_of_fmap. exists (k, v). split; [done|].
  by apply elem_of_range_entries.
Qed.

(** The implementation discharges the interface's laws. *)
#[global] Program Instance Mem_SlotTimeCache `{!RangeOrder Z Z} :
    SlotTimeCache MemorySlotTimeCache := {|
  Get := Mem_Get;
  Set_ := Mem_Set;
  GetRange := Mem_GetRange;
  SetReplayMarker := Mem_SetReplayMarker;
  GetReplayMarker := Mem_GetReplayMarker;
  IsReplaySlot := Mem_IsReplaySlot;
  Clear := Mem_Clear;
  Size := Mem_Size;
  PruneBeforeSlot := Mem_PruneBeforeSlot;
|}.
Next Obligation. intros. unfold Mem_Get; simpl. by rewrite lookup_insert_eq. Qed.
Next Obligation. intros. unfold Mem_Get; simpl. by rewrite lookup_insert_ne. Qed.
Next Obligation. intros. unfold Mem_Get; simpl. by rewrite lookup_empty. Qed.
Next Obligation. done. Qed.
Next Obligation. done. Qed.
Next Obligation. done. Qed.
Next Obligation.
  intros. unfold Mem_IsReplaySlot, Mem_GetReplayMarker. by rewrite Z.gtb_ltb, Z.geb_leb.
Qed.
Next Obligation.
  intros R c slot slot'. pose proof (Mem_PruneBeforeSlot_spec c slot) as H.
  destruct (Mem_PruneBeforeSlot c slot) as [c' n]. destruct H as (H & _ & _).
  unfold Mem_Get; simpl. rewrite H, lookup_empty. by destruct (slot' <? slot).
Qed.
Next Obligation.
  intros R c slot. pose proof (Mem_PruneBeforeSlot_spec c slot) as H.
  destruct (Mem_PruneBeforeSlot c slot) as [c' n]. by destruct H as (_ & _ & H).
Qed.

(** One run of the loop of [GetRange], from any slot and accumulator. *)
Lemma Mem_GetRange_loop_spec fuel c slot endSlot acc :
  0 <= slot → endSlot < MaxUint64 → Z.max 0 (endSlot - slot + 1) < Z.of_nat fuel →
  ∃ m, Mem_GetRange_loop fuel c slot endSlot acc = Some m ∧
  ∀ k, m !! k = if (slot <=? k) && (k <=? endSlot)
                then (match slots c !! k with Some ts => Some ts | None => acc !! k end)
                else acc !! k.
Proof.
  revert slot acc. induction fuel as [|fuel IH]; intros slot acc Hs He Hf.
  { lia. }
  simpl. destruct (Z.leb_spec slot endSlot).
  - rewrite u64_small by (unfold is_u64, MaxUint64 in *; lia).
    edestruct IH as (m & -> & Hm); [..|exists m; split; [done|]]; [lia|lia|lia|].
    intros k. rewrite Hm. destruct (decide (k = slot)) as [->|Hne].
    + destruct (Z.leb_spec (slot + 1) slot), (Z.leb_spec slot endSlot), (Z.leb_spec slot slot);
        try lia; simpl. destruct (slots c !! slot); [by rewrite lookup_insert_eq|done].
    + assert (∀ v, <[slot := v]> acc !! k = acc !! k) as Hk by (intros; by apply lookup_insert_ne).
      destruct (Z.leb_spec (slot + 1) k), (Z.leb_spec slot k), (Z.leb_spec k endSlot); try lia;
        simpl; destruct (slots c !! slot), (slots c !! k); rewrite ?Hk; done.
  - exists acc. split; [done|]. intros k.
    destruct (Z.leb_spec slot k), (Z.leb_spec k endSlot); try lia; done.
Qed.

(** ** Properties *)

(** [GetRange] is total below the top slot: for an end slot below 2^64-1 the
    loop ends within [end - start + 2] iterations, and returns exactly the
    cached slots of the closed range with their times. *)
Theorem GetRange_total c startSlot endSlot fuel :
  is_u64 startSlot → is_u64 endSlot → endSlot < MaxUint64 →
  Z.max 0 (endSlot - startSlot + 1) < Z.of_nat fuel →
  ∃ m, Mem_GetRange fuel c startSlot endSlot = Some m ∧
  ∀ k ts, m !! k = Some ts ↔ slots c !! k = Some ts ∧ startSlot <= k <= endSlot.
Proof.
  intros Hs He Hlt Hf. unfold is_u64 in *.
  destruct (Mem_GetRange_loop_spec fuel c startSlot endSlot ∅) as (m & Hm & Hk); [lia..|].
  exists m. split; [done|]. intros k ts. rewrite Hk, lookup_empty.
  destruct (Z.leb_spec startSlot k), (Z.leb_spec k endSlot); simpl; try naive_solver lia.
  destruct (slots c !! k); naive_solver lia.
Qed.

Definition example_cache : MemorySlotTimeCache :=
  Mem_Set (Mem_Set (Mem_Set NewMemorySlotTimeCache 5 100) 7 102) 9 104.

Lemma GetRange_total_witness :
  ∃ m, Mem_GetRange 5 example_cache 5 8 = Some m ∧
  ∀ k ts, m !! k = Some ts ↔ slots example_cache !! k = Some ts ∧ 5 <= k <= 8.
Proof. apply GetRange_total; unfold is_u64, MaxUint64; simpl; lia. Defined.

(** With the largest [uint64] as end slot the loop variable wraps to 0 and
    [GetRange] never returns: no number of iterations is enough, for any cache
    and any start. *)
Theorem GetRange_diverges_at_max c startSlot fuel :
  is_u64 startSlot → Mem_GetRange fuel c startSlot MaxUint64 = None.
Proof.
  unfold Mem_GetRange. generalize (∅ : gmap Z Z) as acc. revert startSlot.
  induction fuel as [|fuel IH]; intros slot acc Hs; [done|]. simpl.
  destruct (Z.leb_spec slot MaxUint64); [apply IH, u64_range|].
  unfold is_u64, MaxUint64 in *. lia.
Qed.

Lemma GetRange_diverges_at_max_witness :
  Mem_GetRange 100 example_cache (MaxUint64 - 3) MaxUint64 = None.
Proof. apply GetRange_diverges_at_max. unfold is_u64, MaxUint64. lia. Defined.

(** [PruneBeforeSlot], in whatever order the map is visited: exactly the
    slots before the bound disappear, the replay marker stays, and the returned
    count is the number of removed entries. *)
Theorem PruneBeforeSlot_correct (R : RangeOrder Z Z) c slot :
  let '(c', n) := Mem_PruneBeforeSlot c slot in
  (∀ k, Mem_Get c' k = if k <? slot then Mem_Get NewMemorySlotTimeCache k else Mem_Get c k) ∧
  Mem_GetReplayMarker c' = Mem_GetReplayMarker c ∧
  n = Mem_Size c - Mem_Size c' ∧ 0 <= n.
Proof.
  pose proof (Mem_PruneBeforeSlot_spec c slot) as H.
  destruct (Mem_PruneBeforeSlot c slot) as [c' n]. destruct H as (Hk & Hm & Hn).
  split; [|split; [done|split; [lia|]]].
  - intros k. unfold Mem_Get. rewrite Hk. simpl. rewrite lookup_empty.
    by destruct (k <? slot).
  - unfold Mem_Size in Hn.
    assert (slots c' ⊆ slots c) as Hsub.
    { apply map_subseteq_spec. intros k v. rewrite Hk. by case_match. }
    apply map_subseteq_size in Hsub. lia.
Qed.
