(* ===== verification/Pools.v ===== *)
(** * Pool account layouts

    [ingestor/internal/pools/orca.go] and [ingestor/internal/pools/raydium.go]:
    the fields the ingestor reads out of raw account data, at the offsets the
    code computes. *)

From S2P Require Import Prelude GoStrings Bytes.
Local Open Scope list_scope.

(** ** orca.go *)

Definition orcaDiscriminatorLen : nat := 8.
Definition orcaConfigOffset : nat := orcaDiscriminatorLen.
Definition orcaFeeRateOffset : nat := orcaConfigOffset + 32 + 1 + 2 + 2.
Definition orcaProtocolFeeOffset : nat := orcaFeeRateOffset + 2.
Definition orcaLiquidityOffset : nat := orcaProtocolFeeOffset + 2.
Definition orcaSqrtPriceOffset : nat := orcaLiquidityOffset + 16.
Definition orcaTickOffset : nat := orcaSqrtPriceOffset + 16.
Definition orcaProtocolFeeAOOffset : nat := orcaTickOffset + 4.
Definition orcaProtocolFeeBOOffset : nat := orcaProtocolFeeAOOffset + 8.
Definition orcaTokenMintAOffset : nat := orcaProtocolFeeBOOffset + 8.
Definition orcaTokenVaultAOffset : nat := orcaTokenMintAOffset + 32.
Definition orcaFeeGrowthAOffset : nat := orcaTokenVaultAOffset + 32.
Definition orcaTokenMintBOffset : nat := orcaFeeGrowthAOffset + 16.
Definition orcaTokenVaultBOffset : nat := orcaTokenMintBOffset + 32.
Definition orcaRequiredLength : nat := orcaTokenVaultBOffset + 32.

Record OrcaPoolInfo := mkOrcaPoolInfo {
  op_Config : string;
  op_FeeRate : Z;
  op_ProtocolFee : Z;
  op_TokenMintA : string;
  op_TokenMintB : string;
  op_TokenVaultA : string;
  op_TokenVaultB : string;
}.

Section orca.
Context `{Base58}.

Definition DecodeOrcaPool (data : list byte) : result OrcaPoolInfo :=
  if decide (length data < orcaRequiredLength)%nat then
    Err (Errorf "orca pool account too short: have %d want >= %d"
           [FInt (zlen data); FInt (Z.of_nat orcaRequiredLength)])
  else Ok {|
    op_Config := base58_Encode (slice orcaConfigOffset (orcaConfigOffset + 32) data);
    op_FeeRate := le_uint (slice orcaFeeRateOffset (orcaFeeRateOffset + 2) data);
    op_ProtocolFee := le_uint (slice orcaProtocolFeeOffset (orcaProtocolFeeOffset + 2) data);
    op_TokenMintA := base58_Encode (slice orcaTokenMintAOffset (orcaTokenMintAOffset + 32) data);
    op_TokenVaultA := base58_Encode (slice orcaTokenVaultAOffset (orcaTokenVaultAOffset + 32) data);
    op_TokenMintB := base58_Encode (slice orcaTokenMintBOffset (orcaTokenMintBOffset + 32) data);
    op_TokenVaultB := base58_Encode (slice orcaTokenVaultBOffset (orcaTokenVaultBOffset + 32) data);
  |}.

End orca.

(** ** raydium.go *)

Definition poolHeaderLen : nat := 8.
Definition poolConfigOffset : nat := poolHeaderLen + 1.
Definition poolConfigEnd : nat := poolConfigOffset + 32.
Definition ammHeaderLen : nat := 8.
Definition ammTradeFeeOffset : nat := ammHeaderLen + 1 + 2 + 32 + 4.
Definition ammRequiredLength : nat := ammTradeFeeOffset + 4.
Definition ApproxConfigAccountMax : nat := 256.

Definition ammConfigDiscriminator : list byte :=
  bchr <$> [218; 244; 33; 104; 203; 203; 43; 111].
Definition poolStateDiscriminator : list byte :=
  bchr <$> [247; 237; 227; 245; 215; 195; 222; 70].

(** The loop compares byte by byte and stops at the first difference. *)
Fixpoint equalDiscriminator_loop (a b : list byte) : bool :=
  match a, b with
  | x :: a', y :: b' => if bool_decide (x = y) then equalDiscriminator_loop a' b' else false
  | _, _ => true
  end.
Definition equalDiscriminator (a b : list byte) : bool :=
  if decide (length a = length b) then equalDiscriminator_loop a b else false.

Definition HasAmmConfigDiscriminator (data : list byte) : bool :=
  (8 <=? zlen data) && equalDiscriminator (slice 0 8 data) ammConfigDiscriminator.
Definition HasPoolDiscriminator (data : list byte) : bool :=
  (8 <=? zlen data) && equalDiscriminator (slice 0 8 data) poolStateDiscriminator.

Definition DecodeRaydiumPool (data : list byte) : result (list byte) :=
  if decide (length data < poolConfigEnd)%nat then
    Err (Errorf "raydium pool account too short: have %d want >= %d"
           [FInt (zlen data); FInt (Z.of_nat poolConfigEnd)])
  else Ok (slice poolConfigOffset poolConfigEnd data).

Definition DecodeAmmConfig (data : list byte) : result Z :=
  if decide (length data < ammRequiredLength)%nat then
    Err (Errorf "amm config account too short: have %d want >= %d"
           [FInt (zlen data); FInt (Z.of_nat ammRequiredLength)])
  else Ok (le_uint (slice ammTradeFeeOffset (ammTradeFeeOffset + 4) data)).

(** ** Lemmas *)

Lemma equalDiscriminator_loop_spec a b :
  length a = length b → equalDiscriminator_loop a b = true ↔ a = b.
Proof.
  revert b. induction a as [|x a IH]; intros [|y b]; simpl; try done.
  intros [= Hl]. case_bool_decide as Hxy; [|naive_solver]. rewrite IH by done. naive_solver.
Qed.

Lemma equalDiscriminator_spec a b : equalDiscriminator a b = true ↔ a = b.
Proof.
  unfold equalDiscriminator. case_decide as Hl.
  - by apply equalDiscriminator_loop_spec.
  - split; [done|]. intros ->. done.
Qed.

(** An account is never taken for both kinds by its discriminator. *)
Lemma discriminators_exclusive data :
  HasPoolDiscriminator data = true → HasAmmConfigDiscriminator data = false.
Proof.
  unfold HasPoolDiscriminator, HasAmmConfigDiscriminator.
  rewrite andb_true_iff, equalDiscriminator_spec. intros [-> ->]. reflexivity.
Qed.

Lemma DecodeAmmConfig_range data rate : DecodeAmmConfig data = Ok rate → is_u32 rate.
Proof.
  unfold DecodeAmmConfig. case_decide; [done|]. intros [= <-].
  apply (le_uint_slice_range ammTradeFeeOffset (ammTradeFeeOffset + 4)).
  unfold ammRequiredLength in *. lia.
Qed.

Lemma DecodeOrcaPool_fee_range `{Base58} data info :
  DecodeOrcaPool data = Ok info → is_u16 (op_FeeRate info).
Proof.
  unfold DecodeOrcaPool. case_decide; [done|]. intros [= <-]. simpl.
  apply (le_uint_slice_range orcaFeeRateOffset (orcaFeeRateOffset + 2)).
  unfold orcaRequiredLength, orcaTokenVaultBOffset, orcaTokenMintBOffset,
    orcaFeeGrowthAOffset, orcaTokenVaultAOffset, orcaTokenMintAOffset,
    orcaProtocolFeeBOOffset, orcaProtocolFeeAOOffset, orcaTickOffset, orcaSqrtPriceOffset,
    orcaLiquidityOffset, orcaProtocolFeeOffset in *. lia.
Qed.

(** ** The on-chain layout *)

(** A Whirlpool account, field by field in account order. *)
Record WhirlpoolAccount := mkWhirlpoolAccount {
  wp_discriminator : list byte; (** 8 *)
  wp_config : list byte; (** 32 *)
  wp_bump : list byte; (** 1 *)
  wp_tick_spacing : Z; (** u16 *)
  wp_tick_spacing_seed : Z; (** u16 *)
  wp_fee_rate : Z; (** u16 *)
  wp_protocol_fee_rate : Z; (** u16 *)
  wp_liquidity : Z; (** u128 *)
  wp_sqrt_price : Z; (** u128 *)
  wp_tick_current_index : Z; (** the 4 bytes of an i32 *)
  wp_protocol_fee_owed_a : Z; (** u64 *)
  wp_protocol_fee_owed_b : Z; (** u64 *)
  wp_token_mint_a : list byte; (** 32 *)
  wp_token_vault_a : list byte; (** 32 *)
  wp_fee_growth_global_a : Z; (** u128 *)
  wp_token_mint_b : list byte; (** 32 *)
  wp_token_vault_b : list byte; (** 32 *)
}.

Definition encode_WhirlpoolAccount (w : WhirlpoolAccount) : list (list byte) :=
  [wp_discriminator w; wp_config w; wp_bump w; le_bytes 2 (wp_tick_spacing w);
   le_bytes 2 (wp_tick_spacing_seed w); le_bytes 2 (wp_fee_rate w);
   le_bytes 2 (wp_protocol_fee_rate w); le_bytes 16 (wp_liquidity w);
   le_bytes 16 (wp_sqrt_price w); le_bytes 4 (wp_tick_current_index w);
   le_bytes 8 (wp_protocol_fee_owed_a w); le_bytes 8 (wp_protocol_fee_owed_b w);
   wp_token_mint_a w; wp_token_vault_a w; le_bytes 16 (wp_fee_growth_global_a w);
   wp_token_mint_b w; wp_token_vault_b w].

Definition wf_WhirlpoolAccount (w : WhirlpoolAccount) : Prop :=
  length (wp_discriminator w) = 8%nat ∧ length (wp_config w) = 32%nat ∧
  length (wp_bump w) = 1%nat ∧ length (wp_token_mint_a w) = 32%nat ∧
  length (wp_token_vault_a w) = 32%nat ∧ length (wp_token_mint_b w) = 32%nat ∧
  length (wp_token_vault_b w) = 32%nat ∧
  is_u16 (wp_fee_rate w) ∧ is_u16 (wp_protocol_fee_rate w).

(** A slice of a concatenation of fields that starts and ends on the borders of
    the field number [n] is that field. *)
Lemma slice_concat (fs : list (list byte)) tail n f i j :
  fs !! n = Some f → sum_list (length <$> take n fs) = i → j = (i + length f)%nat →
  slice i j (concat fs ++ tail) = f.
Proof.
  intros Hn Hi ->. rewrite <- (take_drop_middle fs n f) by done.
  rewrite concat_app. cbn [concat]. rewrite <- app_assoc.
  assert (length (concat (take n fs)) = i) as Hl.
  { rewrite <- Hi. clear. induction (take n fs) as [|x l IH]; [done|].
    cbn. rewrite length_app, IH. done. }
  rewrite slice_app_r by lia. rewrite Hl, Nat.sub_diag, Nat.add_comm, Nat.add_sub.
  rewrite <- app_assoc, slice_app_l by lia. by apply slice_all.
Qed.

(** ** Properties *)

(** [DecodeOrcaPool] reads every field it returns from the right bytes: for
    any account laid out as the Whirlpool program lays it out, whatever follows,
    it returns the base58 form of the account's keys and its two fee rates; and
    it rejects exactly the data shorter than 245 bytes. *)
Theorem DecodeOrcaPool_layout `{Base58} w tail :
  wf_WhirlpoolAccount w →
  DecodeOrcaPool (concat (encode_WhirlpoolAccount w) ++ tail) = Ok {|
    op_Config := base58_Encode (wp_config w);
    op_FeeRate := wp_fee_rate w;
    op_ProtocolFee := wp_protocol_fee_rate w;
    op_TokenMintA := base58_Encode (wp_token_mint_a w);
    op_TokenMintB := base58_Encode (wp_token_mint_b w);
    op_TokenVaultA := base58_Encode (wp_token_vault_a w);
    op_TokenVaultB := base58_Encode (wp_token_vault_b w);
  |} ∧
  (∀ data, is_ok (DecodeOrcaPool data) = bool_decide (245 <= length data)%nat).
Proof.
  intros (Hd & Hc & Hb & Hma & Hva & Hmb & Hvb & Hf & Hp). split.
  - unfold DecodeOrcaPool. case_decide as Hlen.
    { exfalso. revert Hlen. unfold encode_WhirlpoolAccount. cbn [concat].
      rewrite !length_app, !length_le_bytes, Hd, Hc, Hb, Hma, Hva, Hmb, Hvb.
      change orcaRequiredLength with 245%nat. simpl. lia. }
    assert (∀ n f i j, encode_WhirlpoolAccount w !! n = Some f →
      sum_list (length <$> take n (encode_WhirlpoolAccount w)) = i → j = (i + length f)%nat →
      slice i j (concat (encode_WhirlpoolAccount w) ++ tail) = f) as Hs
      by (intros; by eapply slice_concat).
    rewrite (Hs 1%nat (wp_config w)), (Hs 5%nat (le_bytes 2 (wp_fee_rate w))),
      (Hs 6%nat (le_bytes 2 (wp_protocol_fee_rate w))), (Hs 12%nat (wp_token_mint_a w)),
      (Hs 15%nat (wp_token_mint_b w)), (Hs 13%nat (wp_token_vault_a w)),
      (Hs 16%nat (wp_token_vault_b w));
      try (unfold encode_WhirlpoolAccount; cbn [take fmap list_fmap sum_list sum_list_with];
        rewrite ?length_le_bytes, ?Hd, ?Hc, ?Hb, ?Hma, ?Hva, ?Hmb, ?Hvb; reflexivity).
    rewrite !le_uint_le_bytes by assumption. reflexivity.
  - intros data. unfold DecodeOrcaPool. case_decide as Hl; simpl; symmetry;
      [apply bool_decide_eq_false|apply bool_decide_eq_true]; change orcaRequiredLength with 245%nat in Hl; lia.
Qed.

Definition example_whirlpool : WhirlpoolAccount :=
  mkWhirlpoolAccount (replicate 8 (bchr 1)) (replicate 32 (bchr 2)) [bchr 255] 64 64 3000 300
    5 6 7 8 9 (replicate 32 (bchr 10)) (replicate 32 (bchr 11)) 12
    (replicate 32 (bchr 13)) (replicate 32 (bchr 14)).

Lemma DecodeOrcaPool_layout_witness :
  op_FeeRate <$> @DecodeOrcaPool raw_base58 (concat (encode_WhirlpoolAccount example_whirlpool))
  = Ok 3000.
Proof.
  destruct (@DecodeOrcaPool_layout raw_base58 example_whirlpool []) as [H _].
  - unfold wf_WhirlpoolAccount, is_u16. simpl. repeat split; lia.
  - rewrite app_nil_r in H. by rewrite H.
Defined.
