(* ===== verification/Meteora.v ===== *)
(** * Meteora swaps

    [decoder/meteora/types.go], [decoder.go] and [proto.go]: program kinds, the
    decoding of a swap from the token balance snapshots of a transaction, the
    metadata read from its log lines, and the projection to the canonical
    message. The [tokenBalanceDelta] pointers are never nil where the code uses
    them, so they are plain values. *)

From S2P Require Import Prelude GoStrings Bytes Proto Pair.
Local Open Scope list_scope.

(** ** types.go *)

(** [type PoolKind string] *)
Definition PoolKindDLMM : string := "dlmm".
Definition PoolKindCPMM : string := "cpmm".

Definition initial_programKinds : gmap string string := list_to_map
  [("cpamdpZCGKUy5JxQXB4dcpGPiikHawvSWAd6mEn1sGG", PoolKindCPMM);
   ("LBUZKhRxPF3XUpBCjp4YzTKgLccjZhTSDM9YuVaPwxo", PoolKindCPMM);
   ("Eo7WjKq67rjJQSZxS6z3YkapzY3eMj6Xy8X5EQVn5UaB", PoolKindDLMM)].

Definition ProgramKindForID (programKinds : gmap string string) (programID : string) :
    option string := programKinds !! programID.

Definition SetProgramKind (programKinds : gmap string string) (programID kind : string) :
    gmap string string := <[programID := kind]> programKinds.

Record SwapEvent := mkSwapEvent {
  me_Signature : string;
  me_Slot : Z;
  me_Timestamp : Z;
  me_ProgramID : string;
  me_Pool : string;
  me_Kind : string;
  me_BaseMint : string;
  me_QuoteMint : string;
  me_BaseDec : Z;
  me_QuoteDec : Z;
  me_BaseAmount : Z;
  me_QuoteAmount : Z;
  me_FeeBps : Z;
  me_VirtualReservesBase : Z;
  me_VirtualReservesQuote : Z;
  me_RealReservesBase : Z;
  me_RealReservesQuote : Z;
  me_MintBase : string;
  me_MintQuote : string;
  me_DecBase : Z;
  me_DecQuote : Z;
  me_BaseDecreased : bool;
}.

Record InstructionContext := mkInstructionContext {
  ic_Slot : Z;
  ic_Signature : string;
  ic_Logs : list string;
  ic_Accounts : list string;
  ic_InstructionAccounts : list byte;
  ic_PreTokenBalances : list TokenBalance;
  ic_PostTokenBalances : list TokenBalance;
  ic_ProgramID : string;
  ic_Kind : string;
  ic_Timestamp : Z;
}.

(** The fields the log lines may set. *)
Definition me_set_meta (e : SwapEvent) (fee vbase vquote rbase rquote : Z) : SwapEvent :=
  mkSwapEvent (me_Signature e) (me_Slot e) (me_Timestamp e) (me_ProgramID e) (me_Pool e)
    (me_Kind e) (me_BaseMint e) (me_QuoteMint e) (me_BaseDec e) (me_QuoteDec e)
    (me_BaseAmount e) (me_QuoteAmount e) fee vbase vquote rbase rquote
    (me_MintBase e) (me_MintQuote e) (me_DecBase e) (me_DecQuote e) (me_BaseDecreased e).

(** ** decoder.go *)

Definition ErrUnsupportedInstruction : string := "meteora.ErrUnsupportedInstruction".

Record tokenBalanceDelta := mkDelta {
  d_accountIndex : Z;
  d_mint : string;
  d_decimals : Z;
  d_pre : Z;
  d_post : Z;
}.

Definition outgoing (b : tokenBalanceDelta) : Z :=
  if d_pre b >=? d_post b then u64 (d_pre b - d_post b) else 0.
Definition incoming (b : tokenBalanceDelta) : Z :=
  if d_post b >=? d_pre b then u64 (d_post b - d_pre b) else 0.

Fixpoint findTokenBalance (balances : list TokenBalance) (accountIdx : Z) : option TokenBalance :=
  match balances with
  | [] => None
  | bal :: rest =>
    if tb_AccountIndex bal =? accountIdx then Some bal else findTokenBalance rest accountIdx
  end.

Definition extractBalance (balance : option TokenBalance) : result (Z * Z * string) :=
  match balance with
  | None => Ok (0, 0, "")
  | Some balance =>
    let amountStr := if bool_decide (ui_amount balance = "") then "0" else ui_amount balance in
    parsed ← wrap_err "parse amount %q: %w" [FStr amountStr] (ParseUint amountStr);
    let dec := ui_decimals balance in
    if dec >? 255 then Err (Errorf "decimals overflow: %d" [FInt dec])
    else Ok (parsed, u8 dec, tb_Mint balance)
  end.

Fixpoint pickNonEmpty (values : list string) : string :=
  match values with
  | [] => ""
  | v :: rest => if bool_decide (v ≠ "") then v else pickNonEmpty rest
  end.
Fixpoint pickDecimals (values : list Z) : Z :=
  match values with
  | [] => 0
  | v :: rest => if negb (v =? 0) then v else pickDecimals rest
  end.

Definition balanceForAccount (ctx : InstructionContext) (accountIdx : Z) :
    result tokenBalanceDelta :=
  let pre := findTokenBalance (ic_PreTokenBalances ctx) accountIdx in
  let post := findTokenBalance (ic_PostTokenBalances ctx) accountIdx in
  if bool_decide (pre = None) && bool_decide (post = None) then
    Err (Errorf "token account %d not present in balance snapshots" [FInt accountIdx])
  else
    '(preAmount, preDecimals, preMint) ←
      wrap_err "pre balance parse: %w" [] (extractBalance pre);
    '(postAmount, postDecimals, postMint) ←
      wrap_err "post balance parse: %w" [] (extractBalance post);
    Ok {|
      d_accountIndex := accountIdx;
      d_mint := pickNonEmpty [preMint; postMint];
      d_decimals := pickDecimals [preDecimals; postDecimals];
      d_pre := preAmount;
      d_post := postAmount;
    |}.

Fixpoint decimalsInDeltas (mint : string) (deltas : list tokenBalanceDelta) : option Z :=
  match deltas with
  | [] => None
  | delta :: rest =>
    if bool_decide (d_mint delta = mint) then Some (d_decimals delta)
    else decimalsInDeltas mint rest
  end.
(** One of the two loops over a balance snapshot. *)
Fixpoint decimalsInBalances (mint : string) (balances : list TokenBalance) : option Z :=
  match balances with
  | [] => None
  | bal :: rest =>
    match bool_decide (tb_Mint bal = mint), tb_UiTokenAmount bal with
    | true, Some amt => if ua_Decimals amt >? 255 then Some 0 else Some (u8 (ua_Decimals amt))
    | _, _ => decimalsInBalances mint rest
    end
  end.
Definition decimalsForMint (ctx : InstructionContext) (mint : string)
    (deltas : list tokenBalanceDelta) : Z :=
  match decimalsInDeltas mint deltas with
  | Some dec => dec
  | None =>
    match decimalsInBalances mint (ic_PreTokenBalances ctx) with
    | Some dec => dec
    | None => default 0 (decimalsInBalances mint (ic_PostTokenBalances ctx))
    end
  end.

Definition tokenize (line : string) : list string := Trim " ,:" <$> Fields line.

Fixpoint extractUint_loop (tokens : list string) (prefix : string) : option Z :=
  match tokens with
  | [] => None
  | tok :: rest =>
    if HasPrefix tok prefix then
      let valStr := TrimPrefix tok prefix in
      if bool_decide (valStr = "") then extractUint_loop rest prefix
      else match ParseUint valStr with
           | Ok val => Some val
           | Err _ => extractUint_loop rest prefix
           end
    else extractUint_loop rest prefix
  end.
Definition extractUint (tokens : list string) (key : string) : option Z :=
  extractUint_loop tokens (key +:+ "=").

Section decoder.
Context (unicode_lower : Z → Z).

(** [None]: a value failed to parse and the function returned early. *)
Fixpoint extractReserves_loop (tokens : list string) (marker : string)
    (found : bool) (baseVal quoteVal : Z) : option (bool * Z * Z) :=
  match tokens with
  | [] => Some (found, baseVal, quoteVal)
  | tok :: rest =>
    let lower := ToLower unicode_lower tok in
    if bool_decide (lower = marker) || Contains lower marker then
      extractReserves_loop rest marker true baseVal quoteVal
    else
      match (if HasPrefix tok "base=" then
               match ParseUint (TrimPrefix tok "base=") with Ok v => Some v | Err _ => None end
             else Some baseVal) with
      | None => None
      | Some baseVal =>
        match (if HasPrefix tok "quote=" then
                 match ParseUint (TrimPrefix tok "quote=") with Ok v => Some v | Err _ => None end
               else Some quoteVal) with
        | None => None
        | Some quoteVal => extractReserves_loop rest marker found baseVal quoteVal
        end
      end
  end.
Definition extractReserves (tokens : list string) (marker : string) : option (Z * Z) :=
  match extractReserves_loop tokens marker false 0 0 with
  | None => None
  | Some (found, baseVal, quoteVal) =>
    if negb found || ((baseVal =? 0) && (quoteVal =? 0)) then None else Some (baseVal, quoteVal)
  end.

(** The body of the loop over the log lines. *)
Definition applyLogLine (kind : string) (event : SwapEvent) (line : string) : SwapEvent :=
  let tokens := tokenize line in
  match tokens with
  | [] => event
  | _ =>
    let event := match extractUint tokens "fee_bps" with
      | Some fee =>
        me_set_meta event (u32 fee) (me_VirtualReservesBase event) (me_VirtualReservesQuote event)
          (me_RealReservesBase event) (me_RealReservesQuote event)
      | None => event
      end in
    if bool_decide (kind = PoolKindDLMM) then
      match extractReserves tokens "virtual_reserves" with
      | Some (base, quote) =>
        me_set_meta event (me_FeeBps event) base quote
          (me_RealReservesBase event) (me_RealReservesQuote event)
      | None => event
      end
    else if bool_decide (kind = PoolKindCPMM) then
      match extractReserves tokens "cpmm_reserves" with
      | Some (base, quote) =>
        me_set_meta event (me_FeeBps event) (me_VirtualReservesBase event)
          (me_VirtualReservesQuote event) base quote
      | None => event
      end
    else event
  end.
Definition applyLogMetadata (event : SwapEvent) (ctx : InstructionContext) : SwapEvent :=
  foldl (applyLogLine (ic_Kind ctx)) event (ic_Logs ctx).

Definition resolveAccount (ctx : InstructionContext) (pos : nat) : result string :=
  match ic_InstructionAccounts ctx !! pos with
  | None => Err (Errorf "instruction missing account at position %d" [FInt (Z.of_nat pos)])
  | Some b =>
    let index := bval b in
    match ic_Accounts ctx !! Z.to_nat index with
    | None => Err (Errorf "account index %d out of range (len=%d)"
                     [FInt index; FInt (zlen (ic_Accounts ctx))])
    | Some account => Ok account
    end
  end.

(** The [switch] on the orientation of the pair: base amount, quote amount,
    [BaseDecreased]. *)
Definition orient (base quote inMint outMint : string) (amountIn amountOut : Z) : Z * Z * bool :=
  if bool_decide (base = inMint) && bool_decide (quote = outMint) then
    (amountIn, amountOut, false)
  else if bool_decide (base = outMint) && bool_decide (quote = inMint) then
    (amountOut, amountIn, true)
  else (amountOut, amountIn, true).

Definition DecodeSwapEvent (r : PairRegistry) (data : list byte)
    (ctx : option InstructionContext) : result SwapEvent :=
  match ctx with
  | None => Err (Errorf "instruction context is required" [])
  | Some ctx =>
    if zlen (ic_InstructionAccounts ctx) <? 8 then
      Err (Wrapf "%w: insufficient accounts (%d)" [FInt (zlen (ic_InstructionAccounts ctx))]
             (Sentinel ErrUnsupportedInstruction))
    else if zlen (ic_Accounts ctx) =? 0 then
      Err (Wrapf "%w: empty account key list" [] (Sentinel ErrUnsupportedInstruction))
    else
      pool ← resolveAccount ctx 1;
      let inputAccountIndex := le_uint (slice 2 3 (ic_InstructionAccounts ctx)) in
      let outputAccountIndex := le_uint (slice 3 4 (ic_InstructionAccounts ctx)) in
      inputBalance ←
        wrap_err "input account balance lookup: %w" [] (balanceForAccount ctx inputAccountIndex);
      outputBalance ←
        wrap_err "output account balance lookup: %w" [] (balanceForAccount ctx outputAccountIndex);
      let amountIn := outgoing inputBalance in
      let amountOut := incoming outputBalance in
      if (amountIn =? 0) && (amountOut =? 0) then
        Err (Wrapf "%w: no token balance delta detected" [] (Sentinel ErrUnsupportedInstruction))
      else
        cp ← wrap_err "resolve canonical pair: %w" []
               (ResolvePair r (d_mint inputBalance) (d_mint outputBalance));
        let baseMint := BaseMint cp in
        let quoteMint := QuoteMint cp in
        let baseDecimals := decimalsForMint ctx baseMint [inputBalance; outputBalance] in
        let quoteDecimals := decimalsForMint ctx quoteMint [inputBalance; outputBalance] in
        let '(baseAmount, quoteAmount, baseDecreased) :=
          orient baseMint quoteMint (d_mint inputBalance) (d_mint outputBalance)
            amountIn amountOut in
        if (baseAmount =? 0) || (quoteAmount =? 0) then
          Err (Wrapf "%w: zero-sized swap (base=%d quote=%d)" [FInt baseAmount; FInt quoteAmount]
                 (Sentinel ErrUnsupportedInstruction))
        else
          let timestamp := if ic_Timestamp ctx =? zero_time then 0 else ic_Timestamp ctx in
          Ok (applyLogMetadata {|
            me_Signature := ic_Signature ctx;
            me_Slot := ic_Slot ctx;
            me_Timestamp := timestamp;
            me_ProgramID := ic_ProgramID ctx;
            me_Pool := pool;
            me_Kind := ic_Kind ctx;
            me_BaseMint := baseMint;
            me_QuoteMint := quoteMint;
            me_BaseDec := baseDecimals;
            me_QuoteDec := quoteDecimals;
            me_BaseAmount := baseAmount;
            me_QuoteAmount := quoteAmount;
            me_FeeBps := 0;
            me_VirtualReservesBase := 0;
            me_VirtualReservesQuote := 0;
            me_RealReservesBase := 0;
            me_RealReservesQuote := 0;
            me_MintBase := baseMint;
            me_MintQuote := quoteMint;
            me_DecBase := u32 baseDecimals;
            me_DecQuote := u32 quoteDecimals;
            me_BaseDecreased := baseDecreased;
          |} ctx)
  end.

End decoder.

(** ** proto.go *)

Definition ToProto (e : option SwapEvent) : option Proto.SwapEvent :=
  match e with
  | None => None
  | Some e =>
    let programID := if bool_decide (me_ProgramID e = "")
                     then "cpamdpZCGKUy5JxQXB4dcpGPiikHawvSWAd6mEn1sGG"
                     else me_ProgramID e in
    Some {|
      sw_ChainId := 501;
      sw_Slot := me_Slot e;
      sw_Sig := me_Signature e;
      sw_Index := 0;
      sw_ProgramId := programID;
      sw_PoolId := me_Pool e;
      sw_MintBase := me_MintBase e;
      sw_MintQuote := me_MintQuote e;
      sw_DecBase := me_DecBase e;
      sw_DecQuote := me_DecQuote e;
      sw_BaseIn := if me_BaseDecreased e then 0 else me_BaseAmount e;
      sw_BaseOut := if me_BaseDecreased e then me_BaseAmount e else 0;
      sw_QuoteIn := if me_BaseDecreased e then me_QuoteAmount e else 0;
      sw_QuoteOut := if me_BaseDecreased e then 0 else me_QuoteAmount e;
      sw_SqrtPriceQ64Pre := 0;
      sw_SqrtPriceQ64Post := 0;
      sw_ReservesBase := 0;
      sw_ReservesQuote := 0;
      sw_FeeBps := me_FeeBps e;
      sw_Provisional := true;
      sw_IsUndo := false;
    |}
  end.

(** ** Lemmas *)

Lemma extractBalance_range b amount dec mint :
  extractBalance b = Ok (amount, dec, mint) → is_u64 amount ∧ is_u8 dec.
Proof.
  unfold extractBalance. destruct b as [b|]; [|by intros [= <- <- <-]].
  rewrite bind_Ok. intros (p & Hp & H). apply wrap_err_Ok, ParseUint_range in Hp.
  destruct (ui_decimals b >? 255); [done|]. injection H as <- <- <-.
  split; [done|apply u8_range].
Qed.

Lemma balanceForAccount_range ctx i d :
  balanceForAccount ctx i = Ok d → is_u64 (d_pre d) ∧ is_u64 (d_post d) ∧ is_u8 (d_decimals d).
Proof.
  unfold balanceForAccount. destruct (bool_decide _ && bool_decide _); [done|].
  rewrite bind_Ok. intros ([[pa pd] pm] & Hpre%wrap_err_Ok%extractBalance_range & H).
  rewrite bind_Ok in H. destruct H as ([[qa qd] qm] & Hpost%wrap_err_Ok%extractBalance_range & H).
  injection H as <-. simpl. destruct Hpre, Hpost. split; [done|split; [done|]].
  by repeat case_match.
Qed.

Lemma outgoing_spec d :
  is_u64 (d_pre d) → is_u64 (d_post d) → outgoing d = Z.max 0 (d_pre d - d_post d).
Proof.
  unfold outgoing, is_u64. intros. rewrite Z.geb_leb. destruct (Z.leb_spec (d_post d) (d_pre d)).
  - rewrite u64_small by (unfold is_u64; lia). lia.
  - lia.
Qed.
Lemma incoming_spec d :
  is_u64 (d_pre d) → is_u64 (d_post d) → incoming d = Z.max 0 (d_post d - d_pre d).
Proof.
  unfold incoming, is_u64. intros. rewrite Z.geb_leb. destruct (Z.leb_spec (d_pre d) (d_post d)).
  - rewrite u64_small by (unfold is_u64; lia). lia.
  - lia.
Qed.

(** The [default] branch of the switch is never taken: the orientation follows
    [Inverted]. *)
Lemma orient_ResolvePair r a b cp ain aout :
  ResolvePair r a b = Ok cp →
  orient (BaseMint cp) (QuoteMint cp) a b ain aout
  = if Inverted cp then (aout, ain, true) else (ain, aout, false).
Proof.
  intros H. pose proof (ResolvePair_mints _ _ _ _ H) as Hm.
  destruct (ResolvePair_nonempty _ _ _ _ H).
  unfold orient. destruct (Inverted cp) eqn:Hinv; destruct Hm as [-> ->].
  - destruct (decide (b = a)) as [->|Hne].
    + rewrite ResolvePair_unfold in H by done. unfold mint_before in H.
      rewrite Z.eqb_refl, str_le_refl, orb_true_r in H. by simplify_eq.
    + rewrite (bool_decide_eq_false_2 (b = a)), (bool_decide_eq_true_2 (b = b)),
        (bool_decide_eq_true_2 (a = a)) by done. done.
  - rewrite (bool_decide_eq_true_2 (a = a)), (bool_decide_eq_true_2 (b = b)) by done. done.
Qed.

(** The event fields that log lines cannot touch. *)
Definition same_swap (e e' : SwapEvent) : Prop :=
  ∃ fee vb vq rb rq, e' = me_set_meta e fee vb vq rb rq ∧ (is_u32 (me_FeeBps e) → is_u32 fee).

Lemma same_swap_refl e : same_swap e e.
Proof.
  exists (me_FeeBps e), (me_VirtualReservesBase e), (me_VirtualReservesQuote e),
    (me_RealReservesBase e), (me_RealReservesQuote e). by destruct e.
Qed.
Lemma same_swap_trans e1 e2 e3 : same_swap e1 e2 → same_swap e2 e3 → same_swap e1 e3.
Proof.
  intros (f & a & b & c & d & -> & H1) (f' & a' & b' & c' & d' & -> & H2).
  exists f', a', b', c', d'. auto.
Qed.

Lemma applyLogLine_same low kind e line : same_swap e (applyLogLine low kind e line).
Proof.
  unfold applyLogLine. destruct (tokenize line) as [|t ts]; [apply same_swap_refl|].
  set (e1 := match extractUint (t :: ts) "fee_bps" with Some _ => _ | None => _ end).
  assert (same_swap e e1) as H1.
  { unfold e1. destruct (extractUint (t :: ts) "fee_bps"); [|apply same_swap_refl].
    do 5 eexists. split; [done|]. intros. apply u32_range. }
  apply (same_swap_trans _ e1); [done|].
  repeat case_match; try apply same_swap_refl; do 5 eexists; split; done.
Qed.

Lemma applyLogMetadata_same low e ctx : same_swap e (applyLogMetadata low e ctx).
Proof.
  unfold applyLogMetadata. generalize (ic_Logs ctx) as logs. intros logs. revert e.
  induction logs as [|l logs IH]; intros e; simpl; [apply same_swap_refl|].
  eapply same_swap_trans; [apply applyLogLine_same|apply IH].
Qed.

(** The accounts [DecodeSwapEvent] looks at. *)
Definition input_index (ctx : InstructionContext) : Z :=
  le_uint (slice 2 3 (ic_InstructionAccounts ctx)).
Definition output_index (ctx : InstructionContext) : Z :=
  le_uint (slice 3 4 (ic_InstructionAccounts ctx)).

(** What a decoded event says, in terms of the two balances it was read from. *)
Definition swap_of (ctx : InstructionContext) (cp : CanonicalPair) (bi bo : tokenBalanceDelta)
    (e : SwapEvent) : Prop :=
  me_Signature e = ic_Signature ctx ∧ me_Slot e = ic_Slot ctx ∧
  me_ProgramID e = ic_ProgramID ctx ∧ me_Kind e = ic_Kind ctx ∧
  resolveAccount ctx 1 = Ok (me_Pool e) ∧
  me_BaseMint e = BaseMint cp ∧ me_QuoteMint e = QuoteMint cp ∧
  me_MintBase e = BaseMint cp ∧ me_MintQuote e = QuoteMint cp ∧
  is_u32 (me_FeeBps e) ∧ is_u32 (me_DecBase e) ∧ is_u32 (me_DecQuote e) ∧
  me_BaseDecreased e = Inverted cp ∧
  (me_BaseAmount e, me_QuoteAmount e)
  = (if Inverted cp then (d_post bo - d_pre bo, d_pre bi - d_post bi)
     else (d_pre bi - d_post bi, d_post bo - d_pre bo)).

Lemma DecodeSwapEvent_cases low r data ctx bi bo pool :
  (8 <= length (ic_InstructionAccounts ctx))%nat →
  resolveAccount ctx 1 = Ok pool →
  balanceForAccount ctx (input_index ctx) = Ok bi →
  balanceForAccount ctx (output_index ctx) = Ok bo →
  match ResolvePair r (d_mint bi) (d_mint bo) with
  | Ok cp =>
    if bool_decide (d_post bi < d_pre bi ∧ d_pre bo < d_post bo) then
      ∃ e, DecodeSwapEvent low r data (Some ctx) = Ok e ∧ swap_of ctx cp bi bo e
    else ∃ err, DecodeSwapEvent low r data (Some ctx) = Err err ∧
         errors_Is err ErrUnsupportedInstruction = true
  | Err _ => is_ok (DecodeSwapEvent low r data (Some ctx)) = false
  end.
Proof.
  intros Hlen Hpool Hbi Hbo.
  destruct (balanceForAccount_range _ _ _ Hbi) as (Hi1 & Hi2 & _).
  destruct (balanceForAccount_range _ _ _ Hbo) as (Ho1 & Ho2 & _).
  unfold DecodeSwapEvent. fold (input_index ctx) (output_index ctx).
  destruct (Z.ltb_spec (zlen (ic_InstructionAccounts ctx)) 8); [unfold zlen in *; lia|].
  destruct (Z.eqb_spec (zlen (ic_Accounts ctx)) 0) as [Hz|].
  { exfalso. unfold resolveAccount, zlen in *. destruct (_ !! 1%nat); [|done].
    destruct (ic_Accounts ctx); [|simpl in Hz; lia]. by rewrite lookup_nil in Hpool. }
  rewrite Hpool, Hbi, Hbo. cbn [mbind result_bind wrap_err].
  rewrite outgoing_spec, incoming_spec by done. unfold is_u64 in *.
  destruct (ResolvePair r (d_mint bi) (d_mint bo)) as [cp|err] eqn:Hcp; cbn [wrap_err mbind result_bind].
  2: by destruct (_ && _).
  rewrite (orient_ResolvePair _ _ _ _ _ _ Hcp).
  set (ain := Z.max 0 (d_pre bi - d_post bi)). set (aout := Z.max 0 (d_post bo - d_pre bo)).
  case_bool_decide as Hpos.
  - destruct (Z.eqb_spec ain 0), (Z.eqb_spec aout 0); try lia. cbn [andb].
    assert (ain = d_pre bi - d_post bi) as -> by lia.
    assert (aout = d_post bo - d_pre bo) as -> by lia.
    destruct (Inverted cp) eqn:Hinv; simpl.
    all: destruct (Z.eqb_spec (d_pre bi - d_post bi) 0), (Z.eqb_spec (d_post bo - d_pre bo) 0);
      try lia; cbn [orb].
    all: eexists; split; [reflexivity|].
    all: match goal with |- swap_of _ _ _ _ (applyLogMetadata _ ?e0 _) =>
      destruct (applyLogMetadata_same low e0 ctx) as (f & a & b & c & d & -> & Hf) end.
    all: unfold swap_of; simpl; rewrite Hpool, Hinv.
    all: split_and!; try done; try (by apply u32_range); by apply Hf.
  - destruct (Z.eqb_spec ain 0), (Z.eqb_spec aout 0); try lia; cbn [andb]; try (eexists; split; [done|]; done).
    all: destruct (Inverted cp); simpl.
    all: destruct (Z.eqb_spec ain 0), (Z.eqb_spec aout 0); try lia; cbn [orb].
    all: eexists; split; [done|]; vm_compute; done.
Qed.

(** Every decoded event comes from two balances that moved in the right way. *)
Lemma DecodeSwapEvent_Ok low r data ctx e :
  DecodeSwapEvent low r data (Some ctx) = Ok e →
  ∃ bi bo cp, balanceForAccount ctx (input_index ctx) = Ok bi ∧
  balanceForAccount ctx (output_index ctx) = Ok bo ∧
  ResolvePair r (d_mint bi) (d_mint bo) = Ok cp ∧ swap_of ctx cp bi bo e ∧
  0 < me_BaseAmount e ∧ 0 < me_QuoteAmount e.
Proof.
  intros He. pose proof He as He'. unfold DecodeSwapEvent in He'.
  destruct (Z.ltb_spec (zlen (ic_InstructionAccounts ctx)) 8) as [|Hl]; [done|].
  destruct (zlen (ic_Accounts ctx) =? 0); [done|].
  apply bind_Ok in He' as (pool & Hpool & He').
  apply bind_Ok in He' as (bi & Hbi%wrap_err_Ok & He').
  apply bind_Ok in He' as (bo & Hbo%wrap_err_Ok & _).
  pose proof (DecodeSwapEvent_cases low r data ctx bi bo pool ltac:(unfold zlen in *; lia)
    Hpool Hbi Hbo) as H. rewrite He in H.
  destruct (ResolvePair r (d_mint bi) (d_mint bo)) as [cp|] eqn:Hcp; [|done].
  case_bool_decide as Hpos; [|by destruct H as (? & ? & _)].
  destruct H as (e' & [= <-] & Hs). exists bi, bo, cp. split_and!; try done.
  all: destruct Hs as (_&_&_&_&_&_&_&_&_&_&_&_&_&Hamt);
    destruct (Inverted cp); injection Hamt; lia.
Qed.

(** The value of the last log line on which [f] finds one. *)
Definition last_some {A} (f : string → option A) (logs : list string) : option A :=
  foldl (λ acc l, match f l with Some v => Some v | None => acc end) None logs.

Lemma foldl_last_some {A} (f : string → option A) logs acc :
  foldl (λ acc l, match f l with Some v => Some v | None => acc end) acc logs
  = match last_some f logs with Some v => Some v | None => acc end.
Proof.
  unfold last_some. induction logs as [|l logs IH] using rev_ind; [done|].
  rewrite !foldl_app. simpl. destruct (f l); [done|]. apply IH.
Qed.

(** One field of the event, followed through the log lines. *)
Lemma log_field {A B} low kind (get : SwapEvent → B) (put : A → B) (f : string → option A) :
  (∀ e l, get (applyLogLine low kind e l) = from_option put (get e) (f l)) →
  ∀ logs e, get (foldl (applyLogLine low kind) e logs) = from_option put (get e) (last_some f logs).
Proof.
  intros Hstep logs. induction logs as [|l logs IH] using rev_ind; intros e; [done|].
  rewrite foldl_app. simpl. rewrite Hstep, IH.
  unfold last_some. rewrite foldl_app. simpl. by destruct (f l).
Qed.

(** ** Properties *)

(** C39. What [DecodeSwapEvent] accepts and what it returns. Once the pool and
    the two token accounts resolve, it succeeds exactly when both mints are known,
    the input account lost tokens and the output account gained tokens; the event
    then carries the canonical pair of the two mints, [BaseDecreased] says that
    the pair is inverted (the base is what the user received), and the two
    amounts are the loss and the gain on the matching legs. The fallback branch
    of the orientation switch is never used. *)
Theorem DecodeSwapEvent_swap low r data ctx bi bo pool :
  (8 <= length (ic_InstructionAccounts ctx))%nat →
  resolveAccount ctx 1 = Ok pool →
  balanceForAccount ctx (input_index ctx) = Ok bi →
  balanceForAccount ctx (output_index ctx) = Ok bo →
  (is_ok (DecodeSwapEvent low r data (Some ctx)) = true ↔
   d_mint bi ≠ "" ∧ d_mint bo ≠ "" ∧ d_post bi < d_pre bi ∧ d_pre bo < d_post bo) ∧
  (∀ e, DecodeSwapEvent low r data (Some ctx) = Ok e →
   0 < me_BaseAmount e < 2 ^ 64 ∧ 0 < me_QuoteAmount e < 2 ^ 64 ∧
   ∃ cp, ResolvePair r (d_mint bi) (d_mint bo) = Ok cp ∧ swap_of ctx cp bi bo e).
Proof.
  intros Hlen Hpool Hbi Hbo.
  pose proof (DecodeSwapEvent_cases low r data ctx bi bo pool Hlen Hpool Hbi Hbo) as H.
  destruct (balanceForAccount_range _ _ _ Hbi) as (Hi1 & Hi2 & _).
  destruct (balanceForAccount_range _ _ _ Hbo) as (Ho1 & Ho2 & _). unfold is_u64 in *.
  destruct (ResolvePair r (d_mint bi) (d_mint bo)) as [cp|err] eqn:Hcp.
  - pose proof (ResolvePair_nonempty _ _ _ _ Hcp).
    case_bool_decide as Hpos.
    + destruct H as (e & -> & He). split; [naive_solver|]. intros e' [= <-].
      assert (me_BaseAmount e = d_pre bi - d_post bi ∧ me_QuoteAmount e = d_post bo - d_pre bo ∨
              me_BaseAmount e = d_post bo - d_pre bo ∧ me_QuoteAmount e = d_pre bi - d_post bi)
        as Hamt by (destruct He as (?&?&?&?&?&?&?&?&?&?&?&?&?&Hamt); destruct (Inverted cp);
          injection Hamt; auto).
      split_and!; try lia. eauto.
    + destruct H as (err & -> & _). split; [naive_solver|done].
  - destruct (DecodeSwapEvent low r data (Some ctx)); [done|]. split; [|done].
    split; [done|]. intros (Ha & Hb & _). by rewrite ResolvePair_unfold in Hcp.
Qed.

Definition example_balance (i : Z) (mint amount : string) : TokenBalance :=
  mkTokenBalance i mint "owner" (Some (mkUiTokenAmount amount 6)).

Definition example_ctx (logs : list string) : InstructionContext := {|
  ic_Slot := 12;
  ic_Signature := "sig";
  ic_Logs := logs;
  ic_Accounts := ["authority"; "pool"; "in"; "out"];
  ic_InstructionAccounts := bchr <$> [0; 1; 2; 3; 0; 0; 0; 0];
  ic_PreTokenBalances := [example_balance 2 "EPjFWdd5AufqSSqeM2qN1xzybapC8G4wEGGkZwyTDt1v" "900";
                          example_balance 3 "mintX" "10"];
  ic_PostTokenBalances := [example_balance 2 "EPjFWdd5AufqSSqeM2qN1xzybapC8G4wEGGkZwyTDt1v" "650";
                           example_balance 3 "mintX" "60"];
  ic_ProgramID := "cpamdpZCGKUy5JxQXB4dcpGPiikHawvSWAd6mEn1sGG";
  ic_Kind := PoolKindCPMM;
  ic_Timestamp := zero_time;
|}.

Lemma DecodeSwapEvent_swap_witness :
  is_ok (DecodeSwapEvent id initial_registry [] (Some (example_ctx []))) = true.
Proof.
  apply (DecodeSwapEvent_swap id initial_registry [] (example_ctx [])
    (mkDelta 2 "EPjFWdd5AufqSSqeM2qN1xzybapC8G4wEGGkZwyTDt1v" 6 900 650)
    (mkDelta 3 "mintX" 6 10 60) "pool").
  - simpl. lia.
  - reflexivity.
  - vm_compute. reflexivity.
  - vm_compute. reflexivity.
  - simpl. repeat split; done || lia.
Defined.

(** Log metadata: the last log line that carries a value wins, line by line
    and field by field; virtual reserves are only read for DLMM pools and real
    reserves only for CPMM pools, and no other field of the event changes. *)
Theorem applyLogMetadata_last_wins low e ctx :
  let fee l := extractUint (tokenize l) "fee_bps" in
  let reserves kind marker l :=
    if bool_decide (ic_Kind ctx = kind) then extractReserves low (tokenize l) marker else None in
  let e' := applyLogMetadata low e ctx in
  me_FeeBps e' = from_option u32 (me_FeeBps e) (last_some fee (ic_Logs ctx)) ∧
  (me_VirtualReservesBase e', me_VirtualReservesQuote e')
  = default (me_VirtualReservesBase e, me_VirtualReservesQuote e)
      (last_some (reserves PoolKindDLMM "virtual_reserves") (ic_Logs ctx)) ∧
  (me_RealReservesBase e', me_RealReservesQuote e')
  = default (me_RealReservesBase e, me_RealReservesQuote e)
      (last_some (reserves PoolKindCPMM "cpmm_reserves") (ic_Logs ctx)) ∧
  same_swap e e'.
Proof.
  intros fee reserves e'. unfold e', applyLogMetadata.
  assert (PoolKindDLMM ≠ PoolKindCPMM) as Hkinds by done.
  split_and!; [| | |apply applyLogMetadata_same].
  - apply (log_field low (ic_Kind ctx) me_FeeBps u32 fee). intros e0 l. unfold applyLogLine, fee.
    destruct (tokenize l) as [|t ts]; [done|]. by repeat case_match.
  - apply (log_field low (ic_Kind ctx)
      (λ e, (me_VirtualReservesBase e, me_VirtualReservesQuote e)) id).
    intros e0 l. unfold applyLogLine, reserves.
    destruct (tokenize l) as [|t ts]; [by case_bool_decide|].
    repeat case_match; simplify_eq/=; try done; congruence.
  - apply (log_field low (ic_Kind ctx)
      (λ e, (me_RealReservesBase e, me_RealReservesQuote e)) id).
    intros e0 l. unfold applyLogLine, reserves.
    destruct (tokenize l) as [|t ts]; [by case_bool_decide|].
    destruct (bool_decide (ic_Kind ctx = PoolKindDLMM)) eqn:E1.
    + apply bool_decide_eq_true in E1. rewrite (bool_decide_eq_false_2 (ic_Kind ctx = PoolKindCPMM))
        by congruence. by repeat case_match.
    + by repeat case_match; simplify_eq/=.
Qed.

(** A fee printed into a log token is the fee that is read back. *)
Lemma extractUint_pretty n rest :
  is_u64 n → extractUint (("fee_bps=" +:+ pretty n) :: rest) "fee_bps" = Some n.
Proof.
  intros Hn. unfold extractUint, extractUint_loop.
  change ("fee_bps" +:+ "=") with "fee_bps=". rewrite HasPrefix_app.
  unfold TrimPrefix. rewrite HasPrefix_app, str_drop_app.
  rewrite bool_decide_eq_false_2 by (apply pretty_nonempty; unfold is_u64 in *; lia).
  by rewrite ParseUint_pretty.
Qed.

Example applyLogMetadata_example :
  let e := DecodeSwapEvent id initial_registry []
    (Some (example_ctx ["Program log: swap fee_bps=25,"; "CPMM_reserves: base=7 quote=9"])) in
  (me_FeeBps <$> e, me_RealReservesBase <$> e, me_RealReservesQuote <$> e) = (Ok 25, Ok 7, Ok 9).
Proof. vm_compute. reflexivity. Qed.
