(* ===== verification/Orca.v ===== *)
(** * Orca Whirlpool decoder

    [decoder/orca_whirlpool/types.go], [decoder.go] and [proto.go]: the swap
    instruction, the amounts taken from user balances, the fee arithmetic on
    [uint64], the decimal rendering of a [u128], and [DecodeSwapTransaction],
    whose token metadata comes from the [MintMetadataProvider] interface. A nil
    pool state is [None]. *)

From S2P Require Import Prelude GoStrings Bytes Proto Pair Floats.
Local Open Scope list_scope.

Definition WhirlpoolProgramID : string := "whirLbMiicVdio4qvUfM5KAg6Ct8VwpYzGff3uctyCc".
Definition SwapInstructionDiscriminator : Z := 0xf8c69e91e17587c8.

Record SwapEvent := mkSwapEvent {
  oe_Signature : string;
  oe_Slot : Z;
  oe_Timestamp : Z;
  oe_PoolAddress : string;
  oe_MintA : string;
  oe_MintB : string;
  oe_AToB : bool;
  oe_AmountIn : Z;
  oe_AmountOut : Z;
  oe_SqrtPriceQ64Pre : string;
  oe_SqrtPriceQ64Post : string;
  oe_TickIndexPre : Z;
  oe_TickIndexPost : Z;
  oe_LiquidityPre : string;
  oe_LiquidityPost : string;
  oe_FeeAmount : Z;
  oe_ProtocolFee : Z;
  oe_Price : float64;
  oe_VolumeBase : float64;
  oe_VolumeQuote : float64;
  oe_BaseAsset : string;
  oe_QuoteAsset : string;
}.

Record SwapInstruction := mkSwapInstruction {
  oi_Amount : Z;
  oi_OtherAmountThreshold : Z;
  oi_SqrtPriceLimit : string;
  oi_AmountSpecifiedIsInput : bool;
  oi_AToB : bool;
}.

Record WhirlpoolState := mkWhirlpoolState {
  ws_WhirlpoolAddress : string;
  ws_TokenMintA : string;
  ws_TokenMintB : string;
  ws_TokenVaultA : string;
  ws_TokenVaultB : string;
  ws_SqrtPrice : string;
  ws_TickCurrentIndex : Z;
  ws_Liquidity : string;
  ws_FeeRate : Z;
  ws_ProtocolFeeRate : Z;
}.

(** [%016d] *)
Definition pad16 (s : string) : string :=
  of_bytes (replicate (16 - slen s) (bchr 48)) +:+ s.

(** The reversed copy that the code builds and drops is left out. *)
Definition bytesToU128String (b : list byte) : string :=
  let low := le_uint (slice 0 8 b) in
  let high := le_uint (slice 8 16 b) in
  if high =? 0 then pretty low
  else pretty high +:+ pad16 (pretty low).

(** [reader.Read] of [n] bytes. *)
Definition read_bytes (n : nat) (reader : list byte) : result (list byte * list byte) :=
  if decide (length reader < n)%nat then Err (Sentinel "io.ErrUnexpectedEOF")
  else Ok (take n reader, drop n reader).

Definition decodeSwapInstruction (data : list byte) : result SwapInstruction :=
  if zlen data <? 34 then
    Err (Errorf "swap instruction data too short: %d bytes" [FInt (zlen data)])
  else
    '(amount, reader) ← wrap_err "failed to read amount: %w" [] (read_bytes 8 data);
    '(threshold, reader) ←
      wrap_err "failed to read other_amount_threshold: %w" [] (read_bytes 8 reader);
    '(sqrtPriceLimitBytes, reader) ←
      wrap_err "failed to read sqrt_price_limit: %w" [] (read_bytes 16 reader);
    '(isInput, reader) ←
      wrap_err "failed to read amount_specified_is_input: %w" [] (read_bytes 1 reader);
    '(aToB, reader) ← wrap_err "failed to read a_to_b: %w" [] (read_bytes 1 reader);
    Ok {|
      oi_Amount := le_uint amount;
      oi_OtherAmountThreshold := le_uint threshold;
      oi_SqrtPriceLimit := bytesToU128String sqrtPriceLimitBytes;
      oi_AmountSpecifiedIsInput := negb (le_uint isInput =? 0);
      oi_AToB := negb (le_uint aToB =? 0);
    |}.

Definition balance_at (balances : list Z) (i : nat) : Z := default 0 (balances !! i).

Definition calculateAmounts (instruction : SwapInstruction) (preBalances postBalances : list Z)
    : result (Z * Z) :=
  if (zlen preBalances <? 7) || (zlen postBalances <? 7) then
    Err (Errorf "insufficient balance data" [])
  else if oi_AToB instruction then
    Ok (u64 (balance_at preBalances 3 - balance_at postBalances 3),
        u64 (balance_at postBalances 5 - balance_at preBalances 5))
  else
    Ok (u64 (balance_at preBalances 5 - balance_at postBalances 5),
        u64 (balance_at postBalances 3 - balance_at preBalances 3)).

Definition calculateFeeAmount (amountIn feeRate : Z) : Z := u64 (amountIn * feeRate) / 10000.
Definition calculateProtocolFee (feeAmount protocolFeeRate : Z) : Z :=
  u64 (feeAmount * protocolFeeRate) / 10000.

(** The volumes and the price of [DecodeSwapTransaction]. *)
Definition orientVolumes (aToB baseIsA : bool) (amountIn amountOut decimalsA decimalsB : Z) :
    float64 * float64 :=
  if aToB then
    if baseIsA then (ScaleAmount amountIn decimalsA, ScaleAmount amountOut decimalsB)
    else (ScaleAmount amountOut decimalsB, ScaleAmount amountIn decimalsA)
  else
    if baseIsA then (ScaleAmount amountOut decimalsA, ScaleAmount amountIn decimalsB)
    else (ScaleAmount amountIn decimalsB, ScaleAmount amountOut decimalsA).

Definition DecodeSwapTransaction `{MintMetadataProvider P} (metadataProvider : P)
    (signature : string) (slot timestamp : Z) (instructionData : list byte)
    (accounts : list string) (preBalances postBalances : list Z)
    (poolStatePre poolStatePost : option WhirlpoolState) : result SwapEvent :=
  if zlen instructionData <? 8 then Err (Errorf "instruction data too short" [])
  else
    let discriminator := le_uint (slice 0 8 instructionData) in
    if negb (discriminator =? SwapInstructionDiscriminator) then
      Err (Errorf "not a swap instruction: discriminator %x" [FInt discriminator])
    else
      instruction ← wrap_err "failed to decode swap instruction: %w" []
                      (decodeSwapInstruction (drop 8 instructionData));
      match accounts !! 2%nat with
      | None => Err (Errorf "insufficient accounts" [])
      | Some poolAddress =>
        match poolStatePre, poolStatePost with
        | None, _ => Err (Errorf "pool state pre is required" [])
        | _, None => Err (Errorf "pool state post is required" [])
        | Some pre, Some post =>
          let mintA := ws_TokenMintA pre in
          let mintB := ws_TokenMintB pre in
          '(amountIn, amountOut) ← wrap_err "failed to calculate amounts: %w" []
                                     (calculateAmounts instruction preBalances postBalances);
          decimalsA ← wrap_err "failed to get decimals for mint A: %w" []
                        (GetDecimals metadataProvider mintA);
          decimalsB ← wrap_err "failed to get decimals for mint B: %w" []
                        (GetDecimals metadataProvider mintB);
          '(baseMint, quoteMint) ← wrap_err "failed to determine base/quote: %w" []
                                     (DetermineBaseQuote metadataProvider mintA mintB);
          pricePost ← wrap_err "failed to convert sqrt price to float: %w" []
                        (SqrtPriceQ64ToFloat (ws_SqrtPrice post));
          let baseIsA := bool_decide (baseMint = mintA) in
          let '(volumeBase, volumeQuote) :=
            orientVolumes (oi_AToB instruction) baseIsA amountIn amountOut decimalsA decimalsB in
          let price := if baseIsA then pricePost else f64_div f64_one pricePost in
          let feeAmount := calculateFeeAmount amountIn (ws_FeeRate pre) in
          let protocolFee := calculateProtocolFee feeAmount (ws_ProtocolFeeRate pre) in
          Ok {|
            oe_Signature := signature;
            oe_Slot := slot;
            oe_Timestamp := timestamp;
            oe_PoolAddress := poolAddress;
            oe_MintA := mintA;
            oe_MintB := mintB;
            oe_AToB := oi_AToB instruction;
            oe_AmountIn := amountIn;
            oe_AmountOut := amountOut;
            oe_SqrtPriceQ64Pre := ws_SqrtPrice pre;
            oe_SqrtPriceQ64Post := ws_SqrtPrice post;
            oe_TickIndexPre := ws_TickCurrentIndex pre;
            oe_TickIndexPost := ws_TickCurrentIndex post;
            oe_LiquidityPre := ws_Liquidity pre;
            oe_LiquidityPost := ws_Liquidity post;
            oe_FeeAmount := feeAmount;
            oe_ProtocolFee := protocolFee;
            oe_Price := price;
            oe_VolumeBase := volumeBase;
            oe_VolumeQuote := volumeQuote;
            oe_BaseAsset := baseMint;
            oe_QuoteAsset := quoteMint;
          |}
        end
      end.

(** ** proto.go *)

Definition ToProto (e : option SwapEvent) : option Proto.SwapEvent :=
  (λ e, Proto.mkSwapEvent 501 (oe_Slot e) (oe_Signature e) 0 WhirlpoolProgramID
          (oe_PoolAddress e) (oe_BaseAsset e) (oe_QuoteAsset e) 0 0 0 0 0 0 0 0 0 0 0
          true false) <$> e.

(** ** Lemmas *)

Lemma digits_value_replicate_0 n k l : digits_value n (replicate k (bchr 48) ++ l)
  = digits_value (n * 10 ^ Z.of_nat k) l.
Proof.
  revert n. induction k as [|k IH]; intros n.
  { simpl. f_equal. lia. }
  change (digits_value n (bchr 48 :: (replicate k (bchr 48) ++ l))
    = digits_value (n * 10 ^ Z.of_nat (S k)) l).
  change (digits_value (n * 10 + 0) (replicate k (bchr 48) ++ l)
    = digits_value (n * 10 ^ Z.of_nat (S k)) l).
  rewrite IH. f_equal. rewrite Nat2Z.inj_succ, Z.pow_succ_r by lia. lia.
Qed.

(** Reading on after a number shifts it by the number of digits read. *)
Lemma digits_value_shift n l v :
  digits_value 0 l = Some v → digits_value n l = Some (n * 10 ^ zlen l + v).
Proof.
  intros Hv.
  assert (∀ a b w, digits_value a l = Some w →
    digits_value (a + b) l = Some (b * 10 ^ zlen l + w)) as Hgen.
  { unfold zlen. clear. induction l as [|c l IH]; intros a b w.
    - simpl. intros [= <-]. f_equal. lia.
    - cbn [digits_value length]. rewrite Nat2Z.inj_succ, Z.pow_succ_r by lia.
      destruct (digit c) as [d|]; [|done]. intros Hw.
      replace ((a + b) * 10 + d) with (a * 10 + d + b * 10) by lia.
      rewrite (IH _ _ _ Hw). f_equal. lia. }
  by rewrite <- (Hgen 0 n v Hv).
Qed.

Lemma digits_value_pad16 z :
  0 <= z → ∃ k, digits_value 0 (bytes (pad16 (pretty z))) = Some z ∧
  zlen (bytes (pad16 (pretty z))) = k ∧ 0 <= k.
Proof.
  intros Hz. eexists. split; [|split; [done|unfold zlen; lia]].
  unfold pad16. rewrite bytes_app, bytes_of_bytes, digits_value_replicate_0.
  rewrite Z.mul_0_l. by apply digits_value_pretty.
Qed.

Lemma pow10_ne_pow2_64 k : 10 ^ k ≠ 2 ^ 64.
Proof.
  intros H. assert (0 <= k) by (destruct (Z.neg_nonneg_cases k); [rewrite Z.pow_neg_r in H; lia|done]).
  destruct (decide (k <= 19)).
  - assert (10 ^ k <= 10 ^ 19) by (apply Z.pow_le_mono_r; lia). lia.
  - assert (10 ^ 20 <= 10 ^ k) by (apply Z.pow_le_mono_r; lia). lia.
Qed.

Lemma le_uint_halves b : length b = 16%nat →
  le_uint b = le_uint (slice 0 8 b) + 2 ^ 64 * le_uint (slice 8 16 b).
Proof.
  intros Hl. do 16 (destruct b as [|? b]; [done|]). destruct b; [|done].
  change (slice 0 8 ?l) with (take 8 l). change (slice 8 16 ?l) with (drop 8 l).
  cbn [take drop]. rewrite !le_uint_cons. change (le_uint []) with 0. lia.
Qed.

Lemma calculateAmounts_Ok i pre post ain aout :
  calculateAmounts i pre post = Ok (ain, aout) → is_u64 ain ∧ is_u64 aout.
Proof.
  unfold calculateAmounts. repeat case_match; try done;
    intros [= <- <-]; split; apply u64_range.
Qed.

Lemma bytesToU128String_value b :
  length b = 16%nat →
  ∃ k, digits_value 0 (bytes (bytesToU128String b))
  = Some (if le_uint (slice 8 16 b) =? 0 then le_uint b
          else le_uint (slice 8 16 b) * 10 ^ k + le_uint (slice 0 8 b)).
Proof.
  intros Hl. pose proof (le_uint_slice_range 0 8 b) as Hlow.
  pose proof (le_uint_slice_range 8 16 b) as Hhigh.
  rewrite (le_uint_halves b Hl). unfold bytesToU128String.
  set (low := le_uint (slice 0 8 b)) in *. set (high := le_uint (slice 8 16 b)) in *.
  destruct (Z.eqb_spec high 0) as [->|Hh].
  { exists 0. rewrite digits_value_pretty by lia. f_equal. lia. }
  destruct (digits_value_pad16 low) as (k & Hv & Hk & _); [lia|].
  exists k. rewrite bytes_app, digits_value_app, digits_value_pretty by lia.
  by rewrite (digits_value_shift _ _ _ Hv), Hk.
Qed.

(** The rendering is the number exactly when its upper half is zero. *)
Lemma bytesToU128String_exact b :
  length b = 16%nat → bytesToU128String b = pretty (le_uint b) ↔ le_uint b < 2 ^ 64.
Proof.
  intros Hl. pose proof (le_uint_halves b Hl) as Hh.
  pose proof (le_uint_slice_range 0 8 b) as Hlow. pose proof (le_uint_slice_range 8 16 b) as Hhigh.
  change (2 ^ (8 * Z.of_nat (8 - 0))) with (2 ^ 64) in Hlow.
  destruct (bytesToU128String_value b Hl) as [k Hv]. split.
  - intros Heq. rewrite Heq, digits_value_pretty in Hv by lia.
    destruct (Z.eqb_spec (le_uint (slice 8 16 b)) 0) as [E|E]; [lia|].
    injection Hv as Hv. pose proof (pow10_ne_pow2_64 k). nia.
  - intros Hlt. unfold bytesToU128String.
    assert (le_uint (slice 8 16 b) = 0) as E by lia. rewrite E. simpl. f_equal. lia.
Qed.

(** The bytes of a swap instruction after its discriminator. *)
Definition encode_instruction (amount threshold limit : Z) (isInput aToB : byte) : list byte :=
  le_bytes 8 amount ++ le_bytes 8 threshold ++ le_bytes 16 limit ++ [isInput; aToB].

Lemma read_bytes_app n l k : length l = n → read_bytes n (l ++ k) = Ok (l, k).
Proof.
  intros <-. unfold read_bytes. rewrite length_app, decide_False by lia.
  by rewrite take_app_length, drop_app_length.
Qed.

Lemma decodeSwapInstruction_encode amount threshold limit isInput aToB tail :
  is_u64 amount → is_u64 threshold → 0 <= limit < 2 ^ 128 →
  decodeSwapInstruction (encode_instruction amount threshold limit isInput aToB ++ tail)
  = Ok (mkSwapInstruction amount threshold (bytesToU128String (le_bytes 16 limit))
          (negb (bval isInput =? 0)) (negb (bval aToB =? 0))).
Proof.
  intros Ha Ht Hl. unfold decodeSwapInstruction, encode_instruction.
  assert (34 <= zlen ((le_bytes 8 amount ++ le_bytes 8 threshold ++ le_bytes 16 limit
    ++ [isInput; aToB]) ++ tail)) as Hlen.
  { unfold zlen. rewrite !length_app, !length_le_bytes. simpl. lia. }
  rewrite (proj2 (Z.ltb_ge _ _) Hlen). clear Hlen. rewrite <- !app_assoc.
  rewrite read_bytes_app by apply length_le_bytes. unfold wrap_err, mbind, result_bind.
  rewrite read_bytes_app by apply length_le_bytes.
  rewrite read_bytes_app by apply length_le_bytes.
  change ([isInput; aToB] ++ tail) with ([isInput] ++ [aToB] ++ tail).
  rewrite read_bytes_app by done. rewrite read_bytes_app by done.
  rewrite !le_uint_le_bytes by assumption. rewrite !le_uint_cons. change (le_uint []) with 0.
  by rewrite !Z.mul_0_r, !Z.add_0_r.
Qed.

(** What a successful [DecodeSwapTransaction] went through. *)
Lemma DecodeSwapTransaction_Ok `{MintMetadataProvider P} (p : P) sig slot ts data accounts
    preB postB spre spost e :
  DecodeSwapTransaction p sig slot ts data accounts preB postB spre spost = Ok e →
  ∃ instr pre post pool ain aout decA decB base quote px,
  slice 0 8 data = le_bytes 8 SwapInstructionDiscriminator ∧
  decodeSwapInstruction (drop 8 data) = Ok instr ∧
  spre = Some pre ∧ spost = Some post ∧ accounts !! 2%nat = Some pool ∧
  calculateAmounts instr preB postB = Ok (ain, aout) ∧
  GetDecimals p (ws_TokenMintA pre) = Ok decA ∧ GetDecimals p (ws_TokenMintB pre) = Ok decB ∧
  DetermineBaseQuote p (ws_TokenMintA pre) (ws_TokenMintB pre) = Ok (base, quote) ∧
  SqrtPriceQ64ToFloat (ws_SqrtPrice post) = Ok px ∧
  oe_PoolAddress e = pool ∧ oe_MintA e = ws_TokenMintA pre ∧ oe_MintB e = ws_TokenMintB pre ∧
  oe_SqrtPriceQ64Post e = ws_SqrtPrice post ∧
  oe_AToB e = oi_AToB instr ∧ oe_AmountIn e = ain ∧ oe_AmountOut e = aout ∧
  oe_BaseAsset e = base ∧ oe_QuoteAsset e = quote ∧
  (oe_VolumeBase e, oe_VolumeQuote e)
  = orientVolumes (oi_AToB instr) (bool_decide (base = ws_TokenMintA pre)) ain aout decA decB ∧
  oe_Price e = (if bool_decide (base = ws_TokenMintA pre) then px else f64_div f64_one px) ∧
  oe_FeeAmount e = calculateFeeAmount ain (ws_FeeRate pre) ∧
  oe_ProtocolFee e = calculateProtocolFee (oe_FeeAmount e) (ws_ProtocolFeeRate pre).
Proof.
  unfold DecodeSwapTransaction, zlen.
  destruct (Z.ltb_spec (Z.of_nat (length data)) 8); [done|].
  destruct (Z.eqb_spec (le_uint (slice 0 8 data)) SwapInstructionDiscriminator) as [Hd|]; [|done].
  cbn [negb]. rewrite bind_Ok. intros (instr & Hi%wrap_err_Ok & Hrest).
  destruct (accounts !! 2%nat) as [pool|]; [|done].
  destruct spre as [pre|]; [|done]. destruct spost as [post|]; [|done].
  apply bind_Ok in Hrest as ([ain aout] & Ham%wrap_err_Ok & Hrest).
  apply bind_Ok in Hrest as (decA & HdA%wrap_err_Ok & Hrest).
  apply bind_Ok in Hrest as (decB & HdB%wrap_err_Ok & Hrest).
  apply bind_Ok in Hrest as ([base quote] & Hbq%wrap_err_Ok & Hrest).
  apply bind_Ok in Hrest as (px & Hpx%wrap_err_Ok & Hrest).
  exists instr, pre, post, pool, ain, aout, decA, decB, base, quote, px.
  destruct (orientVolumes _ _ _ _ _ _) as [vb vq] eqn:Ho. injection Hrest as <-. simpl.
  split_and!; try done.
  assert (length (slice 0 8 data) = 8%nat) as H8 by (rewrite length_slice; lia).
  pose proof (le_bytes_le_uint (slice 0 8 data)) as Hle. by rewrite H8, Hd in Hle.
Qed.

Lemma DetermineBaseQuote_cases `{MintMetadataProvider P} (p : P) a b base quote :
  DetermineBaseQuote p a b = Ok (base, quote) →
  (base = a ∧ quote = b) ∨ (base = b ∧ quote = a).
Proof.
  unfold DetermineBaseQuote. rewrite bind_Ok. intros (? & _ & H1).
  apply bind_Ok in H1 as (? & _ & H1). repeat case_match; naive_solver.
Qed.

(** ** Properties *)

(** C40. The whirlpool event, whatever provider supplies the metadata: a decoded
    event names the two mints of the pool as base and quote; the base volume is
    the amount of the leg in the base mint, scaled by that mint's decimals, the
    quote volume likewise; and the price is the pool's price, inverted exactly
    when the base is mint B. *)
Theorem DecodeSwapTransaction_legs `{MintMetadataProvider P} (p : P) sig slot ts data accounts
    preB postB pre post e :
  DecodeSwapTransaction p sig slot ts data accounts preB postB (Some pre) (Some post) = Ok e →
  let mintIn := if oe_AToB e then oe_MintA e else oe_MintB e in
  let mintOut := if oe_AToB e then oe_MintB e else oe_MintA e in
  oe_MintA e ≠ oe_MintB e →
  ∃ decBase decQuote px,
  GetDecimals p (oe_BaseAsset e) = Ok decBase ∧ GetDecimals p (oe_QuoteAsset e) = Ok decQuote ∧
  SqrtPriceQ64ToFloat (ws_SqrtPrice post) = Ok px ∧
  oe_SqrtPriceQ64Post e = ws_SqrtPrice post ∧
  ((oe_BaseAsset e = mintIn ∧ oe_QuoteAsset e = mintOut ∧
    oe_VolumeBase e = ScaleAmount (oe_AmountIn e) decBase ∧
    oe_VolumeQuote e = ScaleAmount (oe_AmountOut e) decQuote) ∨
   (oe_BaseAsset e = mintOut ∧ oe_QuoteAsset e = mintIn ∧
    oe_VolumeBase e = ScaleAmount (oe_AmountOut e) decBase ∧
    oe_VolumeQuote e = ScaleAmount (oe_AmountIn e) decQuote)) ∧
  oe_Price e = (if bool_decide (oe_BaseAsset e = oe_MintA e) then px else f64_div f64_one px).
Proof.
  intros He. cbv zeta. intros Hne.
  apply DecodeSwapTransaction_Ok in He as (instr & pre' & post' & pool & ain & aout & decA & decB
    & base & quote & px & _ & _ & [= <-] & [= <-] & _ & _ & HdA & HdB & Hbq & Hpx & _ & HA & HB
    & Hsq & HAB & Hin & Hout & Hbase & Hquote & Hvol & Hprice & _).
  rewrite HA, HB, Hsq, HAB, Hin, Hout, Hbase, Hquote in *. unfold orientVolumes in Hvol.
  apply DetermineBaseQuote_cases in Hbq as [[-> ->]|[-> ->]].
  - rewrite (bool_decide_eq_true_2 (ws_TokenMintA pre = ws_TokenMintA pre)) in * by done.
    exists decA, decB, px. destruct (oi_AToB instr); injection Hvol as -> ->; naive_solver.
  - rewrite (bool_decide_eq_false_2 (ws_TokenMintB pre = ws_TokenMintA pre)) in * by done.
    exists decB, decA, px. destruct (oi_AToB instr); injection Hvol as -> ->; naive_solver.
Qed.

Definition example_pool : WhirlpoolState :=
  mkWhirlpoolState "pool" "So11111111111111111111111111111111111111112"
    "EPjFWdd5AufqSSqeM2qN1xzybapC8G4wEGGkZwyTDt1v" "va" "vb" "18446744073709551616" 0 "0" 30 300.
Definition example_data : list byte :=
  le_bytes 8 SwapInstructionDiscriminator
  ++ encode_instruction 1000 1 (2 ^ 63) (bchr 1) (bchr 1).
Definition example_decode : result SwapEvent :=
  DecodeSwapTransaction NewInMemoryMintMetadataProvider "sig" 5 0 example_data
    ["prog"; "auth"; "pool"] [0; 0; 0; 4000000000; 0; 100; 0] [0; 0; 0; 1000000000; 0; 450; 0]
    (Some example_pool) (Some example_pool).

Lemma DecodeSwapTransaction_legs_witness :
  match example_decode with
  | Ok e => ∃ dec, GetDecimals NewInMemoryMintMetadataProvider (oe_BaseAsset e) = Ok dec
  | Err _ => False
  end.
Proof.
  destruct example_decode as [e|err] eqn:He; [|by vm_compute in He].
  assert (oe_MintA e ≠ oe_MintB e) as Hne.
  { assert (match example_decode with
            | Ok e' => bool_decide (oe_MintA e' ≠ oe_MintB e') | Err _ => true end = true) as H
      by (vm_compute; reflexivity).
    rewrite He in H. by apply bool_decide_eq_true in H. }
  destruct (DecodeSwapTransaction_legs _ _ _ _ _ _ _ _ _ _ e He Hne) as (dec & _ & _ & H & _).
  exists dec. exact H.
Defined.

(** [decodeSwapInstruction] reads back the layout [u64, u64, u128, bool,
    bool] whatever follows, any non-zero byte being true, and accepts exactly
    the inputs of at least 34 bytes; the price limit is rendered as a decimal
    number that is the right one exactly when it fits in 64 bits. *)
Theorem decodeSwapInstruction_roundtrip amount threshold limit isInput aToB tail :
  is_u64 amount → is_u64 threshold → 0 <= limit < 2 ^ 128 →
  (∃ i, decodeSwapInstruction (encode_instruction amount threshold limit isInput aToB ++ tail) = Ok i
   ∧ oi_Amount i = amount ∧ oi_OtherAmountThreshold i = threshold ∧
   oi_AmountSpecifiedIsInput i = negb (bval isInput =? 0) ∧ oi_AToB i = negb (bval aToB =? 0) ∧
   (oi_SqrtPriceLimit i = pretty limit ↔ limit < 2 ^ 64)) ∧
  (∀ data, is_ok (decodeSwapInstruction data) = bool_decide (34 <= length data)%nat).
Proof.
  intros Ha Ht Hl. split.
  - rewrite decodeSwapInstruction_encode by done. eexists. split; [done|].
    cbn [oi_Amount oi_OtherAmountThreshold oi_SqrtPriceLimit oi_AmountSpecifiedIsInput oi_AToB].
    split_and!; try done.
    pose proof (bytesToU128String_exact (le_bytes 16 limit) (length_le_bytes 16 limit)) as Hx.
    by rewrite le_uint_le_bytes in Hx.
  - intros data. unfold decodeSwapInstruction, zlen.
    destruct (Z.ltb_spec (Z.of_nat (length data)) 34); simpl.
    { symmetry. apply bool_decide_eq_false. lia. }
    unfold read_bytes. repeat (rewrite decide_False; [|rewrite ?length_drop; lia]; simpl).
    symmetry. apply bool_decide_eq_true. lia.
Qed.

Lemma decodeSwapInstruction_roundtrip_witness :
  ∃ i, decodeSwapInstruction (encode_instruction 1000 1 (2 ^ 64 + 7) (bchr 1) (bchr 0) ++ [bchr 9])
  = Ok i ∧ oi_AToB i = false ∧ oi_SqrtPriceLimit i ≠ pretty (2 ^ 64 + 7).
Proof.
  destruct (decodeSwapInstruction_roundtrip 1000 1 (2 ^ 64 + 7) (bchr 1) (bchr 0) [bchr 9])
    as [(i & Hi & _ & _ & _ & HAB & Hp) _]; [unfold is_u64; lia..|].
  exists i. split; [exact Hi|]. split; [exact HAB|].
  intros H. apply Hp in H. lia.
Defined.

(** The fees: while amount times rate fits in 64 bits the trade fee is
    [amountIn * feeRate / 10000] rounded down and the protocol fee a part of it;
    both stay below the input amount for rates up to 10000. *)
Theorem fees_bounded amountIn feeRate protocolFeeRate :
  is_u64 amountIn → 0 <= feeRate <= 10000 → 0 <= protocolFeeRate <= 10000 →
  amountIn * feeRate < 2 ^ 64 →
  let fee := calculateFeeAmount amountIn feeRate in
  let protocol := calculateProtocolFee fee protocolFeeRate in
  fee = amountIn * feeRate / 10000 ∧ fee <= amountIn ∧
  protocol = fee * protocolFeeRate / 10000 ∧ 0 <= protocol <= fee.
Proof.
  intros Ha Hf Hp Hprod fee protocol. unfold is_u64 in *.
  assert (fee = amountIn * feeRate / 10000) as Hfee.
  { unfold fee, calculateFeeAmount. rewrite u64_small; [done|]. unfold is_u64. nia. }
  assert (0 <= fee <= amountIn) as Hle.
  { rewrite Hfee. split; [apply Z.div_pos; nia|]. apply Z.div_le_upper_bound; nia. }
  assert (fee * protocolFeeRate < 2 ^ 64) as Hsmall.
  { assert (10000 * fee <= amountIn * feeRate) by (rewrite Hfee; apply Z.mul_div_le; lia). nia. }
  assert (protocol = fee * protocolFeeRate / 10000) as Hpr.
  { unfold protocol, calculateProtocolFee. rewrite u64_small; [done|]. unfold is_u64. nia. }
  split_and!; try done; try lia.
  - rewrite Hpr. apply Z.div_pos; nia.
  - rewrite Hpr. apply Z.div_le_upper_bound; nia.
Qed.

Lemma fees_bounded_witness :
  calculateFeeAmount 1000000 30 = 1000000 * 30 / 10000 ∧
  calculateFeeAmount 1000000 30 <= 1000000.
Proof.
  destruct (fees_bounded 1000000 30 300) as (H1 & H2 & _); [unfold is_u64; lia..|].
  split; [exact H1|exact H2].
Defined.

(** Beyond, the product wraps and the fee of a large swap is far too small. *)
Lemma calculateFeeAmount_wraps : calculateFeeAmount (2 ^ 59) 32 = 0.
Proof. reflexivity. Qed.
