(* ===== verification/Publisher.v ===== *)
(** * JetStream publisher

    [sinks/nats/config.go] and [sinks/nats/publisher.go]: the configuration, the
    subject and the deduplication id of each message, and the publish call. The
    JetStream client and [proto.Marshal] are third-party code, given by the
    classes [JetStream] and [ProtoMarshal].

    [SwapPublisher] is the interface of [ingestor/geyser/processor.go] that the
    publisher implements: its three calls, and the record of the calls made with
    their outcome, which its clients' theorems are stated on. *)

From S2P Require Import Prelude GoStrings Bytes Proto.
From Stdlib Require Import Ascii.
Local Open Scope list_scope.

(** ** The interface *)

Inductive ProtoMessage :=
  | PM_Swap (e : SwapEvent)
  | PM_BlockHead (h : BlockHead)
  | PM_TxMeta (t : TxMeta)
  | PM_PoolSnapshot (s : PoolSnapshot)
  | PM_Candle (c : Candle).

#[global] Instance ProtoMessage_eq_dec : EqDecision ProtoMessage.
Proof. solve_decision. Defined.

(** A [context.Context]: its deadline, in nanoseconds. *)
Record context := mkContext { Deadline : option Z }.
Definition Background : context := mkContext None.

(** [calls] is a history: one entry per call with a message, [true] when the
    call returned a nil error. *)
Class SwapPublisher (P : Type) := {
  PublishSwap_ : context → option SwapEvent → M P ();
  PublishBlockHead_ : context → option BlockHead → M P ();
  PublishTxMeta_ : context → option TxMeta → M P ();
  calls : P → list (ProtoMessage * bool);
  calls_PublishSwap ctx e p :
    calls (PublishSwap_ ctx (Some e) p).1
    = calls p ++ [(PM_Swap e, is_ok (PublishSwap_ ctx (Some e) p).2)];
  calls_PublishBlockHead ctx h p :
    calls (PublishBlockHead_ ctx (Some h) p).1
    = calls p ++ [(PM_BlockHead h, is_ok (PublishBlockHead_ ctx (Some h) p).2)];
  calls_PublishTxMeta ctx t p :
    calls (PublishTxMeta_ ctx (Some t) p).1
    = calls p ++ [(PM_TxMeta t, is_ok (PublishTxMeta_ ctx (Some t) p).2)];
}.

(** ** config.go *)

Definition Millisecond : Z := 1000000.
Definition defaultPublishTimeout : Z := 5000 * Millisecond.

Record Config := mkConfig {
  URL : string;
  Stream : string;
  SubjectRoot : string;
  PublishTimeout : Z;
}.

Definition DefaultConfig : Config := mkConfig "" "" "dex.sol" defaultPublishTimeout.

Definition Validate (c : Config) : result () :=
  if bool_decide (URL c = "") then Err (Errorf "NATS URL is required" [])
  else if bool_decide (Stream c = "") then Err (Errorf "NATS stream is required" [])
  else if bool_decide (SubjectRoot c = "") then Err (Errorf "subject root cannot be empty" [])
  else if PublishTimeout c <=? 0 then Err (Errorf "publish timeout must be positive" [])
  else Ok tt.

(** [os.Getenv] is the function [env]. *)
Definition FromEnv (env : string → string) : Config * result () :=
  let cfg := DefaultConfig in
  let cfg := if bool_decide (env "NATS_URL" ≠ "")
             then mkConfig (env "NATS_URL") (Stream cfg) (SubjectRoot cfg) (PublishTimeout cfg)
             else cfg in
  let cfg := if bool_decide (env "NATS_STREAM" ≠ "")
             then mkConfig (URL cfg) (env "NATS_STREAM") (SubjectRoot cfg) (PublishTimeout cfg)
             else cfg in
  let cfg := if bool_decide (env "NATS_SUBJECT_ROOT" ≠ "")
             then mkConfig (URL cfg) (Stream cfg) (env "NATS_SUBJECT_ROOT") (PublishTimeout cfg)
             else cfg in
  if bool_decide (env "NATS_PUBLISH_TIMEOUT_MS" ≠ "") then
    match Atoi (env "NATS_PUBLISH_TIMEOUT_MS") with
    | Err err =>
      (mkConfig "" "" "" 0,
       Err (Wrapf "invalid %s: %w" [FStr "NATS_PUBLISH_TIMEOUT_MS"] err))
    | Ok ms =>
      let cfg := mkConfig (URL cfg) (Stream cfg) (SubjectRoot cfg) (i64 (ms * Millisecond)) in
      (cfg, Validate cfg)
    end
  else (cfg, Validate cfg).

(** ** publisher.go *)

Record NatsMsg := mkNatsMsg {
  nm_Subject : string;
  nm_Data : list byte;
  nm_Header : gmap string (list string);
}.

(** The options of the publish call: its context and [nats.ExpectStream]. *)
Record PubOpts := mkPubOpts { po_Context : context; po_ExpectStream : string }.

Record PubAck := mkPubAck { ack_Stream : string }.

Class JetStream (J : Type) := {
  js_PublishMsg : NatsMsg → PubOpts → M J (option PubAck);
}.

Class ProtoMarshal := { proto_Marshal : ProtoMessage → result (list byte) }.

(** The publisher; [history] is the record of its calls, not a field of the Go
    struct. *)
Record Publisher (J : Type) := mkPublisher {
  cfg : Config;
  js : J;
  history : list (ProtoMessage * bool);
}.
Arguments mkPublisher {J} _ _ _.
Arguments cfg {J} _.
Arguments js {J} _.
Arguments history {J} _.

Definition programSubjectAliases : gmap string string := list_to_map
  [("CAMMCzo5YL8w4VFF8KVHrK22GGUsp5VTaW7grrKgrWqK", "raydium");
   ("whirLbMiicVdio4qvUfM5KAg6Ct8VwpYzGff3uctyCc", "orca");
   ("METoRa111111111111111111111111111111111111111", "meteora")].

(** The function given to [strings.Map]: drops ['.', ' ', '*', '>']. *)
Definition subject_rune (r : Z) : Z := if bool_decide (r ∈ [46; 32; 42; 62]) then -1 else r.

Definition format_bool (b : bool) : string := if b then "true" else "false".

Definition swapMsgID (e : SwapEvent) : string :=
  "501:" +:+ pretty (sw_Slot e) +:+ ":" +:+ sw_Sig e +:+ ":" +:+ pretty (sw_Index e).
Definition blockHeadMsgID (h : BlockHead) : string := "501:" +:+ pretty (bh_Slot h).
Definition txMetaMsgID (t : TxMeta) : string :=
  "501:" +:+ pretty (tm_Slot t) +:+ ":" +:+ tm_Sig t.
Definition poolSnapshotMsgID (s : PoolSnapshot) : string :=
  "501:" +:+ pretty (ps_Slot s) +:+ ":" +:+ ps_PoolId s.
Definition candleMsgID (c : Candle) : string :=
  "501:" +:+ cd_PairId c +:+ ":" +:+ cd_PoolId c +:+ ":" +:+ pretty (cd_WindowStart c) +:+ ":"
  +:+ format_bool (cd_Provisional c).

Section publisher.
Context (unicode_lower : Z → Z).

Definition programSegment (programID : string) : string :=
  if bool_decide (programID = "") then "unknown"
  else match programSubjectAliases !! programID with
  | Some alias => alias
  | None =>
    let cleaned := strings_Map subject_rune programID in
    let cleaned := if decide (16 < slen cleaned)%nat then str_take 16 cleaned else cleaned in
    ToLower unicode_lower cleaned
  end.

Definition swapSubject (c : Config) (e : SwapEvent) : string :=
  SubjectRoot c +:+ "." +:+ programSegment (sw_ProgramId e) +:+ ".swap".
Definition candleSubject (c : Config) (k : Candle) : string :=
  let scope := if bool_decide (cd_PoolId k ≠ "") then "pool" else "pair" in
  SubjectRoot c +:+ ".candle." +:+ scope +:+ "." +:+ cd_Timeframe k.

Context {J : Type} `{JetStream J, ProtoMarshal} (now : Z).

(** A nil parent is [None]. *)
Definition ensureTimeout (c : Config) (parent : option context) : context :=
  let parent := default Background parent in
  match Deadline parent with
  | Some _ => parent
  | None =>
    if PublishTimeout c <=? 0 then parent else mkContext (Some (now + PublishTimeout c))
  end.

(** The message handed to JetStream. *)
Definition natsMsg (subject : string) (data : list byte) (msgID : string) : NatsMsg :=
  mkNatsMsg subject data
    (<["Content-Type" := ["application/protobuf"]]>
      (if bool_decide (msgID ≠ "") then {["Nats-Msg-Id" := [msgID]]} else ∅)).

Definition publish (parent : context) (subject : string) (message : ProtoMessage)
    (msgID : string) : M (Publisher J) () := λ p,
  let '(js', r) :=
    match wrap_err "marshal payload: %w" [] (proto_Marshal message) with
    | Err e => (js p, Err e)
    | Ok data =>
      let '(js', r) := js_PublishMsg (natsMsg subject data msgID)
        (mkPubOpts (ensureTimeout (cfg p) (Some parent)) (Stream (cfg p))) (js p) in
      (js',
       ack ← wrap_err "publish %s: %w" [FStr subject] r;
       match ack with
       | Some a =>
         if bool_decide (ack_Stream a ≠ "") && bool_decide (ack_Stream a ≠ Stream (cfg p)) then
           Err (Errorf "unexpected stream ack %q (expected %q)"
                  [FStr (ack_Stream a); FStr (Stream (cfg p))])
         else Ok tt
       | None => Ok tt
       end)
    end in
  (mkPublisher (cfg p) js' (history p ++ [(message, is_ok r)]), r).

Definition PublishSwap (ctx : context) (event : option SwapEvent) : M (Publisher J) () := λ p,
  match event with
  | None => (p, Err (Errorf "swap event is nil" []))
  | Some e => publish ctx (swapSubject (cfg p) e) (PM_Swap e) (swapMsgID e) p
  end.

Definition PublishBlockHead (ctx : context) (head : option BlockHead) : M (Publisher J) () := λ p,
  match head with
  | None => (p, Err (Errorf "block head is nil" []))
  | Some h =>
    publish ctx (SubjectRoot (cfg p) +:+ ".blocks.head") (PM_BlockHead h) (blockHeadMsgID h) p
  end.

Definition PublishTxMeta (ctx : context) (meta : option TxMeta) : M (Publisher J) () := λ p,
  match meta with
  | None => (p, Err (Errorf "tx meta is nil" []))
  | Some t => publish ctx (SubjectRoot (cfg p) +:+ ".tx.meta") (PM_TxMeta t) (txMetaMsgID t) p
  end.

Definition PublishPoolSnapshot (ctx : context) (snap : option PoolSnapshot) :
    M (Publisher J) () := λ p,
  match snap with
  | None => (p, Err (Errorf "pool snapshot is nil" []))
  | Some s =>
    publish ctx (SubjectRoot (cfg p) +:+ ".pool.snapshot") (PM_PoolSnapshot s)
      (poolSnapshotMsgID s) p
  end.

Definition PublishCandle (ctx : context) (candle : option Candle) : M (Publisher J) () := λ p,
  match candle with
  | None => (p, Err (Errorf "candle is nil" []))
  | Some k => publish ctx (candleSubject (cfg p) k) (PM_Candle k) (candleMsgID k) p
  end.

Lemma history_publish ctx subject m msgID p :
  history (publish ctx subject m msgID p).1
  = history p ++ [(m, is_ok (publish ctx subject m msgID p).2)].
Proof. unfold publish. repeat case_match; simplify_eq; done. Qed.

(** The publisher implements the interface of the processor. *)
#[local] Program Instance Publisher_SwapPublisher_ : SwapPublisher (Publisher J) := {|
  PublishSwap_ := PublishSwap;
  PublishBlockHead_ := PublishBlockHead;
  PublishTxMeta_ := PublishTxMeta;
  calls := history;
|}.
Next Obligation. intros. apply history_publish. Qed.
Next Obligation. intros. apply history_publish. Qed.
Next Obligation. intros. apply history_publish. Qed.

End publisher.

Definition Publisher_SwapPublisher := @Publisher_SwapPublisher_.

(** The subject and Msg-Id the publisher uses for a message. *)
Definition message_subject (unicode_lower : Z → Z) (c : Config) (m : ProtoMessage) : string :=
  match m with
  | PM_Swap e => swapSubject unicode_lower c e
  | PM_BlockHead _ => SubjectRoot c +:+ ".blocks.head"
  | PM_TxMeta _ => SubjectRoot c +:+ ".tx.meta"
  | PM_PoolSnapshot _ => SubjectRoot c +:+ ".pool.snapshot"
  | PM_Candle k => candleSubject c k
  end.
Definition message_id (m : ProtoMessage) : string :=
  match m with
  | PM_Swap e => swapMsgID e
  | PM_BlockHead h => blockHeadMsgID h
  | PM_TxMeta t => txMetaMsgID t
  | PM_PoolSnapshot s => poolSnapshotMsgID s
  | PM_Candle k => candleMsgID k
  end.


(** The call for a message of each kind. *)
Definition publish_message (unicode_lower : Z → Z) {J : Type} `{JetStream J, ProtoMarshal} (now : Z)
    (ctx : context) (m : ProtoMessage) : M (Publisher J) () :=
  match m with
  | PM_Swap e => PublishSwap unicode_lower now ctx (Some e)
  | PM_BlockHead h => PublishBlockHead now ctx (Some h)
  | PM_TxMeta t => PublishTxMeta now ctx (Some t)
  | PM_PoolSnapshot s => PublishPoolSnapshot now ctx (Some s)
  | PM_Candle k => PublishCandle now ctx (Some k)
  end.

(** A JetStream that only records what it is given, and what the calls hand to it. *)
Definition Recorder : Type := list NatsMsg.
#[local] Instance Recorder_JetStream : JetStream Recorder := {|
  js_PublishMsg msg _ j := (j ++ [msg], Ok None);
|}.
Definition sent (unicode_lower : Z → Z) `{ProtoMarshal} (now : Z) (ctx : context) (c : Config)
    (m : ProtoMessage) : list NatsMsg :=
  js (publish_message unicode_lower (J:=Recorder) now ctx m (mkPublisher c [] [])).1.

Lemma sent_message unicode_lower `{ProtoMarshal} now ctx c m data :
  proto_Marshal m = Ok data →
  sent unicode_lower now ctx c m = [natsMsg (message_subject unicode_lower c m) data (message_id m)].
Proof.
  intros Hd. unfold sent. by destruct m; simpl; unfold publish; simpl; rewrite Hd.
Qed.

(** A publisher that accepts a message exactly when [accept] does and only keeps
    the history: an instance of the interface for concrete runs. *)
Definition TestPublisher : Type := list (ProtoMessage * bool).
Definition test_publish (accept : ProtoMessage → bool) (m : ProtoMessage) : M TestPublisher () :=
  λ h, (h ++ [(m, accept m)],
        if accept m then Ok tt else Err (Errorf "publish refused" [])).
#[local] Obligation Tactic := idtac.
Program Definition TestPublisher_SwapPublisher (accept : ProtoMessage → bool) :
    SwapPublisher TestPublisher := {|
  PublishSwap_ _ e := match e with
    Some e => test_publish accept (PM_Swap e) | None => M_throw (Errorf "nil" []) end;
  PublishBlockHead_ _ h := match h with
    Some h => test_publish accept (PM_BlockHead h) | None => M_throw (Errorf "nil" []) end;
  PublishTxMeta_ _ t := match t with
    Some t => test_publish accept (PM_TxMeta t) | None => M_throw (Errorf "nil" []) end;
  calls := id;
|}.
Next Obligation. intros. unfold test_publish. simpl. by destruct (accept _). Qed.
Next Obligation. intros. unfold test_publish. simpl. by destruct (accept _). Qed.
Next Obligation. intros. unfold test_publish. simpl. by destruct (accept _). Qed.

(** ** Lemmas *)

Definition colon : ascii := bchr 58.

Lemma free_colon_pretty z : 0 <= z → colon ∉ bytes (pretty z).
Proof. intros. by apply free_of_pretty. Qed.

Lemma swapMsgID_bytes e : bytes (swapMsgID e) = bytes "501" ++ colon :: bytes (pretty (sw_Slot e))
  ++ colon :: bytes (sw_Sig e) ++ colon :: bytes (pretty (sw_Index e)).
Proof. unfold swapMsgID. by rewrite !bytes_app. Qed.
Lemma txMetaMsgID_bytes t :
  bytes (txMetaMsgID t) = bytes "501" ++ colon :: bytes (pretty (tm_Slot t))
  ++ colon :: bytes (tm_Sig t).
Proof. unfold txMetaMsgID. by rewrite !bytes_app. Qed.
Lemma blockHeadMsgID_bytes h :
  bytes (blockHeadMsgID h) = bytes "501" ++ colon :: bytes (pretty (bh_Slot h)).
Proof. unfold blockHeadMsgID. by rewrite !bytes_app. Qed.

Lemma colon_not_501 : colon ∉ bytes "501".
Proof. apply (bool_decide_eq_false_1 _). reflexivity. Qed.

(** What an id tells. *)
Lemma swapMsgID_inj e1 e2 :
  free_of colon (sw_Sig e1) → free_of colon (sw_Sig e2) →
  0 <= sw_Slot e1 → 0 <= sw_Slot e2 → 0 <= sw_Index e1 → 0 <= sw_Index e2 →
  swapMsgID e1 = swapMsgID e2 →
  sw_Slot e1 = sw_Slot e2 ∧ sw_Sig e1 = sw_Sig e2 ∧ sw_Index e1 = sw_Index e2.
Proof.
  unfold free_of. intros Hf1 Hf2 Hs1 Hs2 Hi1 Hi2 E%(f_equal bytes). pose proof free_colon_pretty.
  rewrite !swapMsgID_bytes in E. apply app_inv_head in E. injection E as E.
  apply app_sep_inj in E as [E1 E]; [|auto..]. apply app_sep_inj in E as [E2 E3]; [|auto..].
  split_and!; [apply pretty_inj| |apply pretty_inj]; try done; by apply bytes_inj.
Qed.
Lemma swapMsgID_head e h :
  0 <= sw_Slot e → 0 <= bh_Slot h → swapMsgID e ≠ blockHeadMsgID h.
Proof.
  intros Hs Hh E%(f_equal bytes). pose proof free_colon_pretty.
  rewrite swapMsgID_bytes, blockHeadMsgID_bytes in E.
  apply app_inv_head in E. injection E as E. by apply app_sep_not_free in E; auto.
Qed.
Lemma swapMsgID_meta e t :
  free_of colon (tm_Sig t) → 0 <= sw_Slot e → 0 <= tm_Slot t → swapMsgID e ≠ txMetaMsgID t.
Proof.
  unfold free_of. intros Hf Hs Ht E%(f_equal bytes). pose proof free_colon_pretty.
  rewrite swapMsgID_bytes, txMetaMsgID_bytes in E. apply app_inv_head in E. injection E as E.
  apply app_sep_inj in E as [_ E]; [|auto..]. by apply app_sep_not_free in E; auto.
Qed.

(** Dropping the separators and then cutting and lowering an ASCII id. *)
Lemma subject_rune_ascii r : 0 <= r < 128 → subject_rune r < 128.
Proof. unfold subject_rune. case_bool_decide; lia. Qed.

Definition lower_rune (r : Z) : Z := if (65 <=? r) && (r <=? 90) then r + 32 else r.

Lemma lower_rune_range r : 0 <= r < 128 → 0 <= lower_rune r < 128.
Proof. unfold lower_rune. intros. destruct (_ && _) eqn:E; go_bool; lia. Qed.

Lemma ToLower_ascii unicode_lower s :
  is_ascii s → bytes (ToLower unicode_lower s) = (λ c, bchr (lower_rune (bval c))) <$> bytes s.
Proof.
  intros Hs. unfold ToLower. rewrite strings_Map_ascii; [|done|].
  2:{ intros r Hr. destruct (Z.ltb_spec r 128); [|lia]. by apply lower_rune_range. }
  unfold is_ascii in Hs. induction Hs as [|c l Hc Hl IH]; [done|].
  cbn [omap list_omap fmap list_fmap].
  pose proof (bval_range c). pose proof (lower_rune_range (bval c) ltac:(lia)).
  destruct (Z.ltb_spec (bval c) 128); [|lia]. fold (lower_rune (bval c)).
  destruct (Z.ltb_spec (lower_rune (bval c)) 0); [lia|]. by rewrite IH.
Qed.

(** The bytes the segment of an ASCII id is made of. *)
Definition token_byte (c : ascii) : Prop :=
  bval c < 128 ∧ bval c ∉ [46; 32; 42; 62] ∧ ¬ (65 <= bval c <= 90).

#[global] Instance token_byte_dec c : Decision (token_byte c).
Proof. unfold token_byte. apply _. Defined.

Lemma bval_bchr_small z : 0 <= z < 256 → bval (bchr z) = z.
Proof. intros. rewrite bval_bchr. by apply Z.mod_small. Qed.

Lemma lower_token c :
  bval c < 128 → bval c ∉ [46; 32; 42; 62] → token_byte (bchr (lower_rune (bval c))).
Proof.
  intros Hc Hn. pose proof (bval_range c). pose proof (lower_rune_range (bval c) ltac:(lia)).
  unfold token_byte. rewrite bval_bchr_small by lia. split; [lia|].
  unfold lower_rune in *. rewrite !not_elem_of_cons in *.
  destruct (_ && _) eqn:E; go_bool; [|naive_solver lia].
  split_and!; try lia. apply not_elem_of_nil.
Qed.

(** Removing the separators of an ASCII id. *)
Lemma cleaned_bytes programID :
  is_ascii programID →
  bytes (strings_Map subject_rune programID)
  = filter (λ c, bval c ∉ [46; 32; 42; 62]) (bytes programID).
Proof.
  intros Hs. rewrite strings_Map_ascii by (done || apply subject_rune_ascii).
  induction (bytes programID) as [|c l IH]; [done|]. cbn [omap list_omap filter list_filter].
  rewrite IH. unfold subject_rune. pose proof (bval_range c).
  case_bool_decide; case_decide; try done.
  destruct (Z.ltb_spec (bval c) 0); [lia|]. by rewrite bchr_bval.
Qed.

Lemma programSubjectAliases_tokens programID alias :
  programSubjectAliases !! programID = Some alias →
  Forall token_byte (bytes alias) ∧ (0 < slen alias <= 16)%nat.
Proof.
  intros H. assert (alias ∈ ["raydium"; "orca"; "meteora"]) as Hin.
  { unfold programSubjectAliases in H. apply elem_of_list_to_map_2 in H.
    rewrite !elem_of_cons in H. set_solver. }
  rewrite !elem_of_cons, elem_of_nil in Hin. destruct Hin as [-> |[-> |[-> |[]]]].
  all: split; [by apply (bool_decide_unpack _)|vm_compute; lia].
Qed.

Lemma is_ascii_filter p `{∀ c, Decision (p c)} l :
  Forall (λ c, bval c < 128) l → Forall (λ c, bval c < 128) (filter p l).
Proof. rewrite !Forall_forall. intros Hl c [_ Hc]%list_elem_of_filter. by apply Hl. Qed.

(** The segment of an ASCII id that has no alias. *)
Lemma programSegment_bytes unicode_lower programID :
  is_ascii programID → programID ≠ "" → programSubjectAliases !! programID = None →
  bytes (programSegment unicode_lower programID)
  = (λ c, bchr (lower_rune (bval c)))
    <$> take 16 (filter (λ c, bval c ∉ [46; 32; 42; 62]) (bytes programID)).
Proof.
  intros Hs Hne Hal. unfold programSegment. rewrite bool_decide_eq_false_2, Hal by done.
  set (cleaned := strings_Map subject_rune programID).
  assert (bytes (if decide (16 < slen cleaned)%nat then str_take 16 cleaned else cleaned)
    = take 16 (filter (λ c, bval c ∉ [46; 32; 42; 62]) (bytes programID))) as Hb.
  { rewrite <- cleaned_bytes by done. fold cleaned. case_decide as Hl.
    - unfold str_take. by rewrite bytes_of_bytes.
    - rewrite take_ge; [done|]. unfold slen in Hl. lia. }
  rewrite ToLower_ascii, Hb; [done|]. unfold is_ascii. rewrite Hb.
  apply Forall_take, is_ascii_filter, Hs.
Qed.

(** *** What a Msg-Id tells *)

(** The part of a message that its Msg-Id is made of: a transaction and a pool
    snapshot both give their slot and a text. *)
Inductive msg_key :=
  | K_Head (slot : Z)
  | K_Text (slot : Z) (text : string)
  | K_Swap (slot : Z) (sig : string) (index : Z)
  | K_Candle (pairId poolId : string) (start : Z) (provisional : bool).
Definition message_key (m : ProtoMessage) : msg_key :=
  match m with
  | PM_Swap e => K_Swap (sw_Slot e) (sw_Sig e) (sw_Index e)
  | PM_BlockHead h => K_Head (bh_Slot h)
  | PM_TxMeta t => K_Text (tm_Slot t) (tm_Sig t)
  | PM_PoolSnapshot s => K_Text (ps_Slot s) (ps_PoolId s)
  | PM_Candle k => K_Candle (cd_PairId k) (cd_PoolId k) (cd_WindowStart k) (cd_Provisional k)
  end.

(** No separator in the texts, no sign in the integers. *)
Definition separable (m : ProtoMessage) : Prop :=
  match message_key m with
  | K_Head slot => 0 <= slot
  | K_Text slot text => 0 <= slot ∧ free_of colon text
  | K_Swap slot sig index => 0 <= slot ∧ free_of colon sig ∧ 0 <= index
  | K_Candle pairId poolId start _ => free_of colon pairId ∧ free_of colon poolId ∧ 0 <= start
  end.

(** The fields between the colons. *)
Definition key_fields (k : msg_key) : list string :=
  match k with
  | K_Head slot => [pretty slot]
  | K_Text slot text => [pretty slot; text]
  | K_Swap slot sig index => [pretty slot; sig; pretty index]
  | K_Candle pairId poolId start provisional => [pairId; poolId; pretty start; format_bool provisional]
  end.
Definition with_colons (fields : list string) : list ascii := concat ((λ f, colon :: bytes f) <$> fields).

Lemma message_id_fields m : bytes (message_id m) = bytes "501" ++ with_colons (key_fields (message_key m)).
Proof.
  destruct m; unfold with_colons; simpl;
    unfold swapMsgID, blockHeadMsgID, txMetaMsgID, poolSnapshotMsgID, candleMsgID;
    rewrite !bytes_app, ?app_nil_r; reflexivity.
Qed.

(** Fields without the separator can be read back. *)
Lemma with_colons_inj fs1 fs2 :
  Forall (free_of colon) fs1 → Forall (free_of colon) fs2 →
  with_colons fs1 = with_colons fs2 → fs1 = fs2.
Proof.
  unfold with_colons. intros Hf1. revert fs2.
  induction Hf1 as [|f1 fs1 H1 Hf1 IH]; intros [|f2 fs2] Hf2 E; [done..|].
  apply Forall_cons in Hf2 as [H2 Hf2]. cbn [fmap list_fmap concat app] in E. injection E as E.
  assert (∀ l1 l2 : list string,
    bytes f1 ++ concat ((λ f, colon :: bytes f) <$> l1) = bytes f2 ++ concat ((λ f, colon :: bytes f) <$> l2) →
    bytes f1 = bytes f2
    ∧ concat ((λ f, colon :: bytes f) <$> l1) = concat ((λ f, colon :: bytes f) <$> l2)) as Hcut.
  { intros [|g1 l1] [|g2 l2] E'; cbn [fmap list_fmap concat app] in E' |- *; rewrite ?app_nil_r in E'.
    - done.
    - symmetry in E'. by apply app_sep_not_free in E'.
    - by apply app_sep_not_free in E'.
    - apply app_sep_inj in E' as [E1 E2]; [|done..]. split; [done|]. by f_equal. }
  apply Hcut in E as [E1 E2]. apply bytes_inj in E1 as ->. f_equal. by apply IH.
Qed.

Lemma format_bool_inj a b : format_bool a = format_bool b → a = b.
Proof. by destruct a, b. Qed.
Lemma cons_eq_inv {A} (x y : A) l k : x :: l = y :: k → x = y ∧ l = k.
Proof. by intros [= -> ->]. Qed.
Lemma format_bool_free b : free_of colon (format_bool b).
Proof. destruct b; apply (bool_decide_unpack _); vm_compute; exact I. Qed.

Lemma separable_fields m : separable m → Forall (free_of colon) (key_fields (message_key m)).
Proof.
  unfold separable. pose proof free_colon_pretty as Hp. unfold free_of in *.
  destruct (message_key m); simpl; intros; repeat constructor; destruct_and?; try by apply Hp.
  - done.
  - done.
  - done.
  - done.
  - apply format_bool_free.
Qed.

Lemma message_id_key m1 m2 :
  separable m1 → separable m2 → message_id m1 = message_id m2 → message_key m1 = message_key m2.
Proof.
  intros H1 H2 E%(f_equal bytes). rewrite !message_id_fields in E. apply app_inv_head in E.
  apply with_colons_inj in E; [|by apply separable_fields..]. unfold separable in *.
  pose proof (f_equal length E) as El.
  destruct (message_key m1), (message_key m2); cbn [key_fields length] in E, El; try discriminate El;
    repeat (apply cons_eq_inv in E as [? E]); destruct_and?;
    repeat match goal with
    | Hp : pretty _ = pretty _ |- _ => apply pretty_inj in Hp; [|assumption..]
    | Hb : format_bool _ = format_bool _ |- _ => apply format_bool_inj in Hb
    end; by f_equal.
Qed.

Lemma message_key_id m1 m2 : message_key m1 = message_key m2 → message_id m1 = message_id m2.
Proof. intros E. apply bytes_inj. by rewrite !message_id_fields, E. Qed.

Lemma natsMsg_id subject data m :
  nm_Header (natsMsg subject data (message_id m)) !! "Nats-Msg-Id" = Some [message_id m].
Proof.
  unfold natsMsg. cbn [nm_Header]. rewrite bool_decide_eq_true_2 by (by destruct m).
  rewrite lookup_insert_ne by done. apply lookup_singleton_eq.
Qed.

(** ** Properties *)

(** C37. The Msg-Ids of everything the publisher sends. For integers that are not
    negative and for signatures, pools and pairs without a colon, the calls for two
    messages hand JetStream one message each, with a Msg-Id, and the two ids are
    equal exactly when the keys are: the slot, signature and transaction index of a
    swap, whose flags are not in it, so that its provisional, final and undo
    versions share their id; the slot of a block head, whatever its status; the pair,
    pool, start and provisional flag of a candle, but not its timeframe. Messages of
    different kinds differ, but a pool snapshot and the meta of a transaction share
    an id when the pool of the one is the signature of the other. *)
Theorem msg_ids_identify unicode_lower `{ProtoMarshal} now ctx c m1 m2 data1 data2 :
  proto_Marshal m1 = Ok data1 → proto_Marshal m2 = Ok data2 → separable m1 → separable m2 →
  ∃ n1 n2 id1 id2, sent unicode_lower now ctx c m1 = [n1] ∧ sent unicode_lower now ctx c m2 = [n2]
  ∧ nm_Header n1 !! "Nats-Msg-Id" = Some [id1] ∧ nm_Header n2 !! "Nats-Msg-Id" = Some [id2]
  ∧ (id1 = id2 ↔ message_key m1 = message_key m2).
Proof.
  intros Hd1 Hd2 Hs1 Hs2. eexists _, _, (message_id m1), (message_id m2).
  split; [by apply sent_message|]. split; [by apply sent_message|].
  split_and!; [apply natsMsg_id..|]. split; [by apply message_id_key|apply message_key_id].
Qed.

Definition example_swap (slot : Z) (sig : string) (index : Z) : SwapEvent :=
  mkSwapEvent 501 slot sig index "whirLbMiicVdio4qvUfM5KAg6Ct8VwpYzGff3uctyCc" "pool" "A" "B"
    6 9 100 0 0 50 0 0 0 0 30 true false.

(** Every message is encoded as one byte. *)
#[local] Instance any_marshal : ProtoMarshal := {| proto_Marshal _ := Ok [bchr 1] |}.

(** The undo version of a swap, the swap, and its transaction. *)
Definition example_sent (m : ProtoMessage) : list NatsMsg := sent id 0 Background DefaultConfig m.
Definition example_undo : ProtoMessage := PM_Swap (sw_set_flags (example_swap 7 "sig" 1) false true).
Definition example_meta : ProtoMessage := PM_TxMeta (mkTxMeta 501 7 "sig" true 0 0 []).

Lemma msg_ids_identify_witness :
  (∃ n1 n2, example_sent example_undo = [n1] ∧ example_sent (PM_Swap (example_swap 7 "sig" 1)) = [n2]
   ∧ nm_Header n1 !! "Nats-Msg-Id" = nm_Header n2 !! "Nats-Msg-Id")
  ∧ ∃ n1 n2, example_sent example_undo = [n1] ∧ example_sent example_meta = [n2]
    ∧ nm_Header n1 !! "Nats-Msg-Id" ≠ nm_Header n2 !! "Nats-Msg-Id".
Proof.
  assert (∀ provisional undo, separable (PM_Swap (sw_set_flags (example_swap 7 "sig" 1) provisional undo))) as Hs.
  { intros provisional undo. unfold separable. simpl. split_and!; [lia| |lia].
    apply (bool_decide_unpack _). vm_compute. exact I. }
  assert (separable example_meta) as Hm.
  { unfold separable. simpl. split; [lia|]. apply (bool_decide_unpack _). vm_compute. exact I. }
  split.
  - destruct (msg_ids_identify id 0 Background DefaultConfig example_undo (PM_Swap (example_swap 7 "sig" 1))
      [bchr 1] [bchr 1]) as (n1 & n2 & id1 & id2 & E1 & E2 & H1 & H2 & Hkey);
      [done|done|apply Hs|apply (Hs true false)|].
    exists n1, n2. split; [exact E1|]. split; [exact E2|]. by rewrite H1, H2, (proj2 Hkey eq_refl).
  - destruct (msg_ids_identify id 0 Background DefaultConfig example_undo example_meta
      [bchr 1] [bchr 1]) as (n1 & n2 & id1 & id2 & E1 & E2 & H1 & H2 & Hkey);
      [done|done|apply Hs|exact Hm|].
    exists n1, n2. split; [exact E1|]. split; [exact E2|]. rewrite H1, H2. intros [= E].
    by apply Hkey in E.
Defined.

(** The subject segment of an ASCII program id is a valid subject token:
    none of ['.', ' ', '*', '>'] and no capital letter, at most 16 bytes, and
    empty only for an id made of separators. *)
Theorem programSegment_token unicode_lower programID :
  is_ascii programID →
  Forall token_byte (bytes (programSegment unicode_lower programID)) ∧
  (slen (programSegment unicode_lower programID) <= 16)%nat ∧
  (programSegment unicode_lower programID = "" ↔
   programID ≠ "" ∧ Forall (λ c, bval c ∈ [46; 32; 42; 62]) (bytes programID)).
Proof.
  intros Hs. destruct (decide (programID = "")) as [->|Hne].
  { split; [by apply (bool_decide_unpack _)|]. split; [vm_compute; lia|]. naive_solver. }
  destruct (programSubjectAliases !! programID) as [alias|] eqn:Hal.
  { unfold programSegment. rewrite bool_decide_eq_false_2, Hal by done.
    destruct (programSubjectAliases_tokens _ _ Hal) as [H1 H2].
    split; [done|]. split; [lia|]. split; [intros ->; unfold slen in H2; simpl in H2; lia|].
    intros [_ Hall]. exfalso. clear H1 H2 Hne.
    assert (programID ∈ (map_to_list programSubjectAliases).*1) as Hin.
    { apply list_elem_of_fmap. exists (programID, alias). split; [done|].
      by apply elem_of_map_to_list. }
    revert Hin Hall. clear. intros Hin Hall.
    assert (Forall (λ s, ¬ Forall (λ c, bval c ∈ [46; 32; 42; 62]) (bytes s))
      (map_to_list programSubjectAliases).*1) as Hno by (apply (bool_decide_unpack _); vm_compute; exact I).
    rewrite Forall_forall in Hno. by apply (Hno _ Hin). }
  pose proof (programSegment_bytes unicode_lower _ Hs Hne Hal) as Hb. unfold slen. rewrite Hb.
  split; [|split; [rewrite length_fmap, length_take; lia|]].
  - apply Forall_fmap, Forall_take. unfold is_ascii in Hs.
    rewrite Forall_forall in *. intros c [Hc Hin]%list_elem_of_filter. apply lower_token; auto.
  - split.
    + intros Hseg. rewrite Hseg in Hb. split; [done|].
      rewrite Forall_forall. intros c Hc. destruct (decide (bval c ∈ [46; 32; 42; 62])); [done|].
      assert (c ∈ filter (λ c, bval c ∉ [46; 32; 42; 62]) (bytes programID)) as Hin
        by by apply list_elem_of_filter.
      destruct (filter _ _); [by apply elem_of_nil in Hin|done].
    + intros [_ Hall]. apply bytes_inj. rewrite Hb.
      assert (filter (λ c, bval c ∉ [46; 32; 42; 62]) (bytes programID) = []) as ->; [|done].
      clear -Hall. induction Hall as [|c l Hc _ IH]; [done|].
      rewrite filter_cons_False by naive_solver. done.
Qed.

Lemma programSegment_token_witness :
  (slen (programSegment id "cpamdpZCGKUy5JxQXB4dcpGPiikHawvSWAd6mEn1sGG") <= 16)%nat.
Proof.
  apply (programSegment_token id "cpamdpZCGKUy5JxQXB4dcpGPiikHawvSWAd6mEn1sGG").
  by apply (bool_decide_unpack _).
Defined.
