(* ===== verification/IngestDecoder.v ===== *)
(** * Transaction decoder of the ingestor

    [ingestor/decoder/decoder.go] and [ingestor/common/txmeta.go]: the state
    shared by the stream consumers (slot times, pool configurations and fees,
    Orca pools), its updates from block metadata and account data, and the
    decoding of a transaction into canonical swap events with the Raydium, Orca
    and Meteora decoders. [New] replaces a nil slot cache, so the cache is a
    value of any type that implements [SlotTimeCache]. The package-level tables
    of [decoder/common] and [decoder/meteora] are the arguments [registry] and
    [programKinds]. Decoding reads the state and does not change it. *)

From S2P Require Import Prelude GoStrings Bytes Proto Pair Raydium SlotCache Pools Meteora Orca.
Local Open Scope list_scope.

Definition chainIDSolana : Z := 501.

Record Decoder (C : Type) := mkDecoder {
  d_slotCache : C;
  d_poolConfig : gmap string string;
  d_poolFees : gmap string Z;
  d_configFees : gmap string Z;
  d_orcaPools : gmap string OrcaPoolInfo;
}.
Arguments mkDecoder {C} _ _ _ _ _.
Arguments d_slotCache {C} _.
Arguments d_poolConfig {C} _.
Arguments d_poolFees {C} _.
Arguments d_configFees {C} _.
Arguments d_orcaPools {C} _.

Record tokenBalance := mkTokenBal {
  v_accountIndex : Z;
  v_mint : string;
  v_owner : string;
  v_pre : Z;
  v_post : Z;
  v_decimals : Z;
}.

Definition New {C} (cache : C) : Decoder C := mkDecoder cache ∅ ∅ ∅ ∅.

(** The zero value a pointer to a new event starts from, with the fields all
    three decoders set. *)
Definition event_base (slot : Z) (sig : string) (index : Z) (program pool mintBase mintQuote : string)
    (decBase decQuote feeBps : Z) : Proto.SwapEvent :=
  Proto.mkSwapEvent chainIDSolana slot sig (u32 index) program pool mintBase mintQuote
    decBase decQuote 0 0 0 0 0 0 0 0 feeBps true false.

(** The four amounts of an event. *)
Definition sw_set_amounts (e : Proto.SwapEvent) (baseIn baseOut quoteIn quoteOut : Z) :
    Proto.SwapEvent :=
  Proto.mkSwapEvent (sw_ChainId e) (sw_Slot e) (sw_Sig e) (sw_Index e) (sw_ProgramId e)
    (sw_PoolId e) (sw_MintBase e) (sw_MintQuote e) (sw_DecBase e) (sw_DecQuote e)
    baseIn baseOut quoteIn quoteOut (sw_SqrtPriceQ64Pre e) (sw_SqrtPriceQ64Post e)
    (sw_ReservesBase e) (sw_ReservesQuote e) (sw_FeeBps e) (sw_Provisional e) (sw_IsUndo e).
Definition sw_set_prices (e : Proto.SwapEvent) (pre post : Z) : Proto.SwapEvent :=
  Proto.mkSwapEvent (sw_ChainId e) (sw_Slot e) (sw_Sig e) (sw_Index e) (sw_ProgramId e)
    (sw_PoolId e) (sw_MintBase e) (sw_MintQuote e) (sw_DecBase e) (sw_DecQuote e)
    (sw_BaseIn e) (sw_BaseOut e) (sw_QuoteIn e) (sw_QuoteOut e) pre post
    (sw_ReservesBase e) (sw_ReservesQuote e) (sw_FeeBps e) (sw_Provisional e) (sw_IsUndo e).
Definition sw_set_reserves (e : Proto.SwapEvent) (base quote : Z) : Proto.SwapEvent :=
  Proto.mkSwapEvent (sw_ChainId e) (sw_Slot e) (sw_Sig e) (sw_Index e) (sw_ProgramId e)
    (sw_PoolId e) (sw_MintBase e) (sw_MintQuote e) (sw_DecBase e) (sw_DecQuote e)
    (sw_BaseIn e) (sw_BaseOut e) (sw_QuoteIn e) (sw_QuoteOut e)
    (sw_SqrtPriceQ64Pre e) (sw_SqrtPriceQ64Post e)
    base quote (sw_FeeBps e) (sw_Provisional e) (sw_IsUndo e).

(** ** State updates *)

Section state.
Context {C : Type} `{SlotTimeCache C, Base58, !RangeOrder string string}.

Definition HandleBlockMeta (meta : option UpdateBlockMeta) (d : Decoder C) : Decoder C :=
  match meta with
  | None => d
  | Some meta =>
    match bm_BlockTime meta with
    | Some ts => mkDecoder (Set_ (d_slotCache d) (bm_Slot meta) ts) (d_poolConfig d)
                   (d_poolFees d) (d_configFees d) (d_orcaPools d)
    | None => d
    end
  end.

(** The branch of [handleRaydiumAccount] for a pool account. *)
Definition recordPool (pubkey configKey : string) (d : Decoder C) : Decoder C :=
  mkDecoder (d_slotCache d) (<[pubkey := configKey]> (d_poolConfig d))
    (match d_configFees d !! configKey with
     | Some fee => <[pubkey := fee]> (d_poolFees d)
     | None => d_poolFees d
     end)
    (d_configFees d) (d_orcaPools d).

(** The branch for a configuration account, with its loop over the pools. *)
Definition recordConfig (pubkey : string) (tradeRate : Z) (d : Decoder C) : Decoder C :=
  let feeBps := u16 (tradeRate / 100) in
  mkDecoder (d_slotCache d) (d_poolConfig d)
    (foldl (λ fees '(pool, cfg),
              if bool_decide (cfg = pubkey) then <[pool := feeBps]> fees else fees)
       (d_poolFees d) (range_entries (d_poolConfig d)))
    (<[pubkey := feeBps]> (d_configFees d)) (d_orcaPools d).

Definition handleRaydiumAccount (pubkey : string) (data : list byte) (d : Decoder C) : Decoder C :=
  match HasPoolDiscriminator data, DecodeRaydiumPool data with
  | true, Ok cfg => recordPool pubkey (base58_Encode cfg) d
  | _, _ =>
    match HasAmmConfigDiscriminator data, DecodeAmmConfig data with
    | true, Ok tradeRate => recordConfig pubkey tradeRate d
    | _, _ =>
      match decide (ApproxConfigAccountMax < length data)%nat, DecodeRaydiumPool data with
      | left _, Ok cfg => recordPool pubkey (base58_Encode cfg) d
      | _, _ =>
        match DecodeAmmConfig data with
        | Ok tradeRate => recordConfig pubkey tradeRate d
        | Err _ =>
          match DecodeRaydiumPool data with
          | Ok cfg => recordPool pubkey (base58_Encode cfg) d
          | Err _ => d
          end
        end
      end
    end
  end.

Definition HandleAccount (account : option UpdateAccount) (d : Decoder C) : Decoder C :=
  match account ≫= ua_Account with
  | None => d
  | Some info =>
    let owner := base58_Encode (ai_Owner info) in
    let pubkey := base58_Encode (ai_Pubkey info) in
    let data := ai_Data info in
    if bool_decide (owner = Raydium.ProgramID) then handleRaydiumAccount pubkey data d
    else if bool_decide (owner = WhirlpoolProgramID) then
      match DecodeOrcaPool data with
      | Ok poolInfo => mkDecoder (d_slotCache d) (d_poolConfig d) (d_poolFees d)
                         (d_configFees d) (<[pubkey := poolInfo]> (d_orcaPools d))
      | Err _ => d
      end
    else d
  end.

End state.

(** ** Token balances of a transaction *)

Definition parseAmount (amount : option UiTokenAmount) (mint : string) : result Z :=
  match amount with
  | None => Err (Errorf "missing ui amount for mint %s" [FStr mint])
  | Some a =>
    let val := ua_Amount a in
    if bool_decide (val = "") then Err (Errorf "empty amount for mint %s" [FStr mint])
    else wrap_err "parse amount %s for mint %s: %w" [FStr val; FStr mint] (ParseUint val)
  end.

(** The bodies of the two loops over the snapshots, and of the loop over the
    collected balances. *)
Definition pre_step (balances : gmap Z tokenBalance) (bal : TokenBalance) : gmap Z tokenBalance :=
  match parseAmount (tb_UiTokenAmount bal) (tb_Mint bal) with
  | Err _ => balances
  | Ok amt =>
    <[tb_AccountIndex bal :=
      mkTokenBal (tb_AccountIndex bal) (tb_Mint bal) (tb_Owner bal) amt 0 (u8 (ui_decimals bal))]>
      balances
  end.
Definition post_step (balances : gmap Z tokenBalance) (bal : TokenBalance) : gmap Z tokenBalance :=
  match parseAmount (tb_UiTokenAmount bal) (tb_Mint bal) with
  | Err _ => balances
  | Ok amt =>
    let entry := match balances !! tb_AccountIndex bal with
      | Some entry => entry
      | None => mkTokenBal (tb_AccountIndex bal) (tb_Mint bal) (tb_Owner bal) 0 0
                  (u8 (ui_decimals bal))
      end in
    <[tb_AccountIndex bal :=
      mkTokenBal (v_accountIndex entry) (v_mint entry) (v_owner entry) (v_pre entry) amt
        (v_decimals entry)]> balances
  end.
Definition owner_step (owners : gmap string (list tokenBalance)) (entry : Z * tokenBalance) :
    gmap string (list tokenBalance) :=
  let bal := entry.2 in
  if bool_decide (v_owner bal = "") then owners
  else <[v_owner bal := default [] (owners !! v_owner bal) ++ [bal]]> owners.

Definition collectBalances (meta : TransactionStatusMeta) : gmap Z tokenBalance :=
  foldl post_step (foldl pre_step ∅ (meta_PreTokenBalances meta)) (meta_PostTokenBalances meta).

Definition extractVaultBalances `{!RangeOrder Z tokenBalance} (meta : TransactionStatusMeta) :
    gmap string (list tokenBalance) :=
  foldl owner_step ∅ (range_entries (collectBalances meta)).

(** The first account of the instruction that owns balances. *)
Fixpoint firstOwner (accounts : list byte) (accountStrs : list string)
    (vaults : gmap string (list tokenBalance)) : string :=
  match accounts with
  | [] => ""
  | rawIdx :: rest =>
    match accountStrs !! Z.to_nat (bval rawIdx) with
    | None => firstOwner rest accountStrs vaults
    | Some addr =>
      match vaults !! addr with
      | Some _ => if bool_decide (addr = "") then firstOwner rest accountStrs vaults else addr
      | None => firstOwner rest accountStrs vaults
      end
    end
  end.

Definition resolvePool (instr : CompiledInstruction) (accountStrs : list string)
    (vaults : gmap string (list tokenBalance)) :
    string * option tokenBalance * option tokenBalance :=
  let pool := firstOwner (ci_Accounts instr) accountStrs vaults in
  if bool_decide (pool = "") then ("", None, None)
  else
    let poolVaults := default [] (vaults !! pool) in
    let ordered := concat ((λ rawIdx,
      filter (λ tb, v_accountIndex tb = bval rawIdx) poolVaults) <$> ci_Accounts instr) in
    let ordered := if decide (length ordered < 2)%nat then poolVaults else ordered in
    match ordered with
    | a :: b :: _ => (pool, Some a, Some b)
    | _ => ("", None, None)
    end.

Definition encodeSignature `{Base58} (signatures : list (list byte)) : string :=
  match signatures with [] => "" | s :: _ => base58_Encode s end.

Definition lookupSlotTimestamp `{SlotTimeCache C} (cache : C) (slot : Z) : Z :=
  match Get cache slot with
  | Err _ => 0
  | Ok ts => if ts =? zero_time then 0 else ts
  end.

(** ** Building events *)

Definition convertRaydiumSwap (ev : Raydium.SwapEvent) (slot timestamp : Z) (signature : string)
    (index feeBps : Z) : Proto.SwapEvent :=
  let msg := sw_set_prices
    (event_base slot signature index Raydium.ProgramID (ev_PoolAddress ev) (ev_MintA ev)
       (ev_MintB ev) (u32 (ev_DecimalsA ev)) (u32 (ev_DecimalsB ev)) (u32 feeBps))
    (ev_SqrtPriceX64Low ev) (ev_SqrtPriceX64High ev) in
  if ev_IsBaseInput ev then sw_set_amounts msg (ev_AmountIn ev) 0 0 (ev_AmountOut ev)
  else sw_set_amounts msg 0 (ev_AmountOut ev) (ev_AmountIn ev) 0.

Definition buildRaydiumSwap {C} (d : Decoder C) (signature : string) (slot timestamp index : Z)
    (instr : CompiledInstruction) (accountStrs : list string)
    (vaults : gmap string (list tokenBalance)) : result (option Proto.SwapEvent) :=
  let data := ci_Data instr in
  if zlen data =? 0 then Ok None
  else
    let '(pool, vaultA, vaultB) := resolvePool instr accountStrs vaults in
    match bool_decide (pool = ""), vaultA, vaultB with
    | false, Some vaultA, Some vaultB =>
      swapInstr ← wrap_err "parse swap instruction: %w" [] (ParseSwapInstruction data);
      let ctx := mkSwapContext
        (mkAccountKeys pool "" "" (v_mint vaultA) (v_mint vaultB) "" "" "" "" "")
        (v_pre vaultA) (v_post vaultA) (v_pre vaultB) (v_post vaultB)
        (v_decimals vaultA) (v_decimals vaultB) 0 slot signature timestamp in
      event ← wrap_err "parse swap event: %w" [] (ParseSwapEvent (Some swapInstr) (Some ctx));
      let feeBps := default 0 (d_poolFees d !! pool) in
      Ok (Some (convertRaydiumSwap event slot timestamp signature index feeBps))
    | _, _, _ => Ok None
    end.

(** The loop that picks the two vaults of an Orca pool: the last one of each
    mint. *)
Definition orca_vaults (poolInfo : OrcaPoolInfo) (balances : list tokenBalance) :
    option tokenBalance * option tokenBalance :=
  foldl (λ '(vaultA, vaultB) tb,
           if bool_decide (v_mint tb = op_TokenMintA poolInfo) then (Some tb, vaultB)
           else if bool_decide (v_mint tb = op_TokenMintB poolInfo) then (vaultA, Some tb)
           else (vaultA, vaultB)) (None, None) balances.

Definition buildOrcaSwap {C} (d : Decoder C) (signature : string) (slot timestamp index : Z)
    (instr : CompiledInstruction) (accountStrs : list string)
    (vaults : gmap string (list tokenBalance)) : result (option Proto.SwapEvent) :=
  match ci_Accounts instr !! 2%nat with
  | None => Ok None
  | Some rawIdx =>
    match accountStrs !! Z.to_nat (bval rawIdx) with
    | None => Ok None
    | Some poolID =>
      match d_orcaPools d !! poolID with
      | None => Ok None
      | Some poolInfo =>
        let balances := default [] (vaults !! poolID) in
        if decide (length balances = 0)%nat then Ok None
        else
          match orca_vaults poolInfo balances with
          | (Some vaultA, Some vaultB) =>
            let deltaA := i64 (i64 (v_post vaultA) - i64 (v_pre vaultA)) in
            let deltaB := i64 (i64 (v_post vaultB) - i64 (v_pre vaultB)) in
            if (deltaA =? 0) && (deltaB =? 0) then Ok None
            else
              let event := event_base slot signature index WhirlpoolProgramID poolID
                (op_TokenMintA poolInfo) (op_TokenMintB poolInfo)
                (u32 (v_decimals vaultA)) (u32 (v_decimals vaultB))
                (u32 (op_FeeRate poolInfo / 100)) in
              if (deltaA <? 0) && (deltaB >? 0) then
                Ok (Some (sw_set_amounts event 0 (u64 (i64 (- deltaA))) (u64 deltaB) 0))
              else
                Ok (Some (sw_set_amounts event
                  (if deltaA >? 0 then u64 deltaA else 0) 0 0
                  (if deltaB <? 0 then u64 (i64 (- deltaB)) else 0)))
          | _ => Ok None
          end
      end
    end
  end.

Section decode.
Context (unicode_lower : Z → Z) (registry : PairRegistry) (programKinds : gmap string string).

Definition buildMeteoraSwap (signature : string) (slot timestamp index : Z)
    (instr : CompiledInstruction) (accountStrs : list string) (meta : TransactionStatusMeta)
    (programID kind : string) : result (option Proto.SwapEvent) :=
  let ctx := mkInstructionContext slot signature (meta_LogMessages meta) accountStrs
    (ci_Accounts instr) (meta_PreTokenBalances meta) (meta_PostTokenBalances meta)
    programID kind (if negb (timestamp =? 0) then timestamp else zero_time) in
  event ← DecodeSwapEvent unicode_lower registry (ci_Data instr) (Some ctx);
  let proto := event_base slot signature index programID (me_Pool event) (me_MintBase event)
    (me_MintQuote event) (me_DecBase event) (me_DecQuote event) (me_FeeBps event) in
  let '(resBase, resQuote) :=
    if (me_VirtualReservesBase event =? 0) && (me_VirtualReservesQuote event =? 0)
    then (me_RealReservesBase event, me_RealReservesQuote event)
    else (me_VirtualReservesBase event, me_VirtualReservesQuote event) in
  let proto := if negb (resBase =? 0) || negb (resQuote =? 0)
               then sw_set_reserves proto resBase resQuote else proto in
  Ok (Some
    (if me_BaseDecreased event
     then sw_set_amounts proto 0 (me_BaseAmount event) (me_QuoteAmount event) 0
     else sw_set_amounts proto (me_BaseAmount event) 0 0 (me_QuoteAmount event))).

Context {C : Type} `{SlotTimeCache C, Base58, !RangeOrder Z tokenBalance}.

(** A failed build annotated with the program, and an event appended if any. *)
Definition append_event (program : string) (ev : result (option Proto.SwapEvent))
    (events : list Proto.SwapEvent) : result (list Proto.SwapEvent) :=
  match ev with
  | Err err => Err (DecodeError program err)
  | Ok None => Ok events
  | Ok (Some ev) => Ok (events ++ [ev])
  end.

(** The body of the loop over the instructions. *)
Definition decodeInstruction (d : Decoder C) (signature : string) (slot timestamp index : Z)
    (meta : TransactionStatusMeta) (accountStrs : list string)
    (vaults : gmap string (list tokenBalance)) (events : list Proto.SwapEvent)
    (instr : CompiledInstruction) : result (list Proto.SwapEvent) :=
  match accountStrs !! Z.to_nat (ci_ProgramIdIndex instr) with
  | None => Ok events
  | Some programID =>
    if bool_decide (programID = Raydium.ProgramID) then
      append_event Raydium.ProgramID
        (buildRaydiumSwap d signature slot timestamp index instr accountStrs vaults) events
    else if bool_decide (programID = WhirlpoolProgramID) then
      append_event WhirlpoolProgramID
        (buildOrcaSwap d signature slot timestamp index instr accountStrs vaults) events
    else
      match ProgramKindForID programKinds programID with
      | Some kind =>
        append_event programID
          (buildMeteoraSwap signature slot timestamp index instr accountStrs meta programID kind)
          events
      | None => Ok events
      end
  end.

Fixpoint decodeInstructions (d : Decoder C) (signature : string) (slot timestamp index : Z)
    (meta : TransactionStatusMeta) (accountStrs : list string)
    (vaults : gmap string (list tokenBalance)) (instrs : list CompiledInstruction)
    (events : list Proto.SwapEvent) : result (list Proto.SwapEvent) :=
  match instrs with
  | [] => Ok events
  | instr :: rest =>
    events ← decodeInstruction d signature slot timestamp index meta accountStrs vaults events instr;
    decodeInstructions d signature slot timestamp index meta accountStrs vaults rest events
  end.

Definition DecodeTransaction (d : Decoder C) (tx : option UpdateTransaction) :
    result (list Proto.SwapEvent) :=
  match tx with
  | None => Ok []
  | Some tx =>
    match ut_Transaction tx with
    | None => Ok []
    | Some info =>
      match ti_Meta info, ti_Transaction info with
      | None, _ | _, None => Ok []
      | Some meta, Some txMsg =>
        match tx_Message txMsg with
        | None => Ok []
        | Some message =>
          let accountStrs := base58_Encode <$> msg_AccountKeys message in
          decodeInstructions d (encodeSignature (tx_Signatures txMsg)) (ut_Slot tx)
            (lookupSlotTimestamp (d_slotCache d) (ut_Slot tx)) (ti_Index info) meta accountStrs
            (extractVaultBalances meta) (msg_Instructions message) []
        end
      end
    end
  end.

End decode.

(** ** txmeta.go *)

Definition ConvertTxMeta `{Base58} (tx : option UpdateTransaction) : option TxMeta :=
  match tx with
  | None => None
  | Some tx =>
    match ut_Transaction tx with
    | None => None
    | Some info =>
      match ti_Meta info with
      | None => None
      | Some meta => Some {|
          tm_ChainId := 501;
          tm_Slot := ut_Slot tx;
          tm_Sig := base58_Encode (ti_Signature info);
          tm_Success := negb (meta_Err meta);
          tm_CuUsed := meta_ComputeUnitsConsumed meta;
          tm_CuPrice := 0;
          tm_LogMsgs := meta_LogMessages meta;
        |}
      end
    end
  end.

(** ** Lemmas on the state updates *)

(** The loop of [recordConfig] in closed form. *)
Lemma recordConfig_foldl (q : string) (fee : Z) (l : list (string * string)) fees p :
  foldl (λ fees '(pool, cfg), if bool_decide (cfg = q) then <[pool := fee]> fees else fees)
    fees l !! p
  = if bool_decide ((p, q) ∈ l) then Some fee else (fees : gmap string Z) !! p.
Proof.
  revert fees. induction l as [|[pool cfg] l IH]; intros fees; [done|]. simpl. rewrite IH. clear IH.
  case_bool_decide as H1.
  { by rewrite bool_decide_eq_true_2 by (by right). }
  case_bool_decide as Hq; subst.
  - destruct (decide (p = pool)) as [->|Hne].
    + rewrite lookup_insert_eq. rewrite bool_decide_eq_true_2; [done|left].
    + rewrite lookup_insert_ne by done. rewrite bool_decide_eq_false_2; [done|].
      rewrite elem_of_cons. naive_solver.
  - rewrite bool_decide_eq_false_2; [done|]. rewrite elem_of_cons. naive_solver.
Qed.

Section state_lemmas.
Context {C : Type} `{SlotTimeCache C, Base58, !RangeOrder string string}.
Implicit Types d : Decoder C.

Lemma recordConfig_fees q rate d p :
  d_poolFees (recordConfig q rate d) !! p
  = if bool_decide (d_poolConfig d !! p = Some q) then Some (u16 (rate / 100))
    else d_poolFees d !! p.
Proof.
  simpl. rewrite recordConfig_foldl. by rewrite (bool_decide_ext _ _ (elem_of_range_entries _ p q)).
Qed.

Lemma recordPool_fees p c d p' :
  d_poolFees (recordPool p c d) !! p'
  = if bool_decide (p' = p) then
      match d_configFees d !! c with Some fee => Some fee | None => d_poolFees d !! p' end
    else d_poolFees d !! p'.
Proof.
  simpl. case_bool_decide as Hp; subst.
  - destruct (d_configFees d !! c); [by rewrite lookup_insert_eq|done].
  - destruct (d_configFees d !! c); [by rewrite lookup_insert_ne|done].
Qed.

(** What an account is taken for depends on its bytes only. *)
Inductive effect :=
  | E_Pool (pubkey configKey : string)
  | E_Config (pubkey : string) (tradeRate : Z)
  | E_Orca (pubkey : string) (info : OrcaPoolInfo).

Definition raydium_effect (pubkey : string) (data : list byte) : option effect :=
  let pool := match DecodeRaydiumPool data with
    Ok cfg => Some (E_Pool pubkey (base58_Encode cfg)) | Err _ => None end in
  let config := match DecodeAmmConfig data with
    Ok rate => Some (E_Config pubkey rate) | Err _ => None end in
  let or_else (a b : option effect) := match a with Some e => Some e | None => b end in
  or_else (if HasPoolDiscriminator data then pool else None)
    (or_else (if HasAmmConfigDiscriminator data then config else None)
       (or_else (if decide (ApproxConfigAccountMax < length data)%nat then pool else None)
          (or_else config pool))).

Definition account_effect (account : option UpdateAccount) : option effect :=
  info ← account ≫= ua_Account;
  if bool_decide (base58_Encode (ai_Owner info) = Raydium.ProgramID) then
    raydium_effect (base58_Encode (ai_Pubkey info)) (ai_Data info)
  else if bool_decide (base58_Encode (ai_Owner info) = WhirlpoolProgramID) then
    match DecodeOrcaPool (ai_Data info) with
    | Ok poolInfo => Some (E_Orca (base58_Encode (ai_Pubkey info)) poolInfo)
    | Err _ => None
    end
  else None.

Definition run_effect (e : effect) (d : Decoder C) : Decoder C :=
  match e with
  | E_Pool p c => recordPool p c d
  | E_Config q rate => recordConfig q rate d
  | E_Orca p info => mkDecoder (d_slotCache d) (d_poolConfig d) (d_poolFees d)
                       (d_configFees d) (<[p := info]> (d_orcaPools d))
  end.

Definition effect_key (e : effect) : string :=
  match e with E_Pool p _ => p | E_Config q _ => q | E_Orca p _ => p end.

Lemma HandleAccount_effect a d :
  HandleAccount a d = match account_effect a with Some e => run_effect e d | None => d end.
Proof.
  unfold HandleAccount, account_effect. destruct (a ≫= ua_Account) as [info|]; [|done]. simpl.
  case_bool_decide.
  - unfold handleRaydiumAccount, raydium_effect.
    destruct (HasPoolDiscriminator (ai_Data info)), (DecodeRaydiumPool (ai_Data info)),
      (HasAmmConfigDiscriminator (ai_Data info)), (DecodeAmmConfig (ai_Data info)),
      (decide (ApproxConfigAccountMax < length (ai_Data info))%nat); done.
  - case_bool_decide; [|done]. by destruct (DecodeOrcaPool _).
Qed.

Lemma account_effect_key a e :
  account_effect a = Some e →
  ∃ info, a ≫= ua_Account = Some info ∧ effect_key e = base58_Encode (ai_Pubkey info).
Proof.
  unfold account_effect. destruct (a ≫= ua_Account) as [info|]; [|done]. simpl. intros He.
  exists info. split; [done|]. case_bool_decide.
  - unfold raydium_effect in He.
    destruct (HasPoolDiscriminator (ai_Data info)), (DecodeRaydiumPool (ai_Data info)),
      (HasAmmConfigDiscriminator (ai_Data info)), (DecodeAmmConfig (ai_Data info)),
      (decide (ApproxConfigAccountMax < length (ai_Data info))%nat); by simplify_eq/=.
  - case_bool_decide; [|done]. destruct (DecodeOrcaPool _); by simplify_eq/=.
Qed.

Lemma Decoder_eq d1 d2 :
  d_slotCache d1 = d_slotCache d2 → d_poolConfig d1 = d_poolConfig d2 →
  (∀ p, d_poolFees d1 !! p = d_poolFees d2 !! p) → d_configFees d1 = d_configFees d2 →
  d_orcaPools d1 = d_orcaPools d2 → d1 = d2.
Proof. intros ?? Hfees%map_eq ??. destruct d1, d2; simpl in *. by subst. Qed.

(** Updates of different accounts commute, as long as neither is a pool that
    already has a configuration. *)
Lemma run_pool_config_comm p q c rate d :
  p ≠ q → d_poolConfig d !! p = None →
  recordPool p c (recordConfig q rate d) = recordConfig q rate (recordPool p c d).
Proof.
  intros Hne Hp. apply Decoder_eq; try done. intros p'.
  rewrite recordPool_fees, !recordConfig_fees, recordPool_fees. simpl.
  destruct (decide (p' = p)) as [->|Hp'].
  - rewrite (bool_decide_eq_true_2 (p = p)), lookup_insert_eq, Hp by done.
    rewrite (bool_decide_eq_false_2 (None = Some q)) by done.
    destruct (decide (c = q)) as [->|Hc].
    + by rewrite lookup_insert_eq, (bool_decide_eq_true_2 (Some q = Some q)).
    + rewrite lookup_insert_ne by done.
      by rewrite (bool_decide_eq_false_2 (Some c = Some q)) by congruence.
  - by rewrite (bool_decide_eq_false_2 (p' = p)), lookup_insert_ne by done.
Qed.

Lemma run_effect_comm e1 e2 d :
  effect_key e1 ≠ effect_key e2 →
  d_poolConfig d !! effect_key e1 = None → d_poolConfig d !! effect_key e2 = None →
  run_effect e1 (run_effect e2 d) = run_effect e2 (run_effect e1 d).
Proof.
  destruct e1 as [p1 c1|q1 r1|p1 i1], e2 as [p2 c2|q2 r2|p2 i2];
    cbn [run_effect effect_key]; intros Hne H1 H2;
    try (by apply run_pool_config_comm); try (by symmetry; apply run_pool_config_comm);
    apply Decoder_eq; try done; try (by apply insert_insert_ne).
  - intros p. rewrite !recordPool_fees. simpl.
    case_bool_decide; case_bool_decide; congruence || done.
  - intros p. rewrite !recordConfig_fees. simpl.
    case_bool_decide; case_bool_decide; congruence || done.
Qed.

Lemma run_effect_poolConfig e d p :
  p ≠ effect_key e → d_poolConfig (run_effect e d) !! p = d_poolConfig d !! p.
Proof. destruct e; simpl; intros; [by apply lookup_insert_ne|done|done]. Qed.

(** The key an account is stored under. *)
Definition account_key (a : option UpdateAccount) : option string :=
  base58_Encode ∘ ai_Pubkey <$> (a ≫= ua_Account).

Lemma HandleAccounts_perm l1 l2 d :
  l1 ≡ₚ l2 → NoDup (omap account_key l1) →
  (∀ p, p ∈ omap account_key l1 → d_poolConfig d !! p = None) →
  foldl (λ d a, HandleAccount a d) d l1 = foldl (λ d a, HandleAccount a d) d l2.
Proof.
  intros Hperm. revert d. induction Hperm as [|a l1 l2 Hp IH|a b l|l1 l2 l3 Hp1 IH1 Hp2 IH2];
    intros d Hnd Hd; [done| | |].
  - cbn [foldl]. rewrite HandleAccount_effect.
    destruct (account_effect a) as [e|] eqn:He.
    + destruct (account_effect_key _ _ He) as (info & Hinfo & Hk).
      cbn [omap list_omap] in Hnd, Hd. unfold account_key in Hnd, Hd at 1.
      rewrite Hinfo in Hnd, Hd. cbn in Hnd, Hd.
      apply NoDup_cons in Hnd as [Hni Hnd]. apply IH; [done|].
      intros p Hpin. rewrite run_effect_poolConfig; [apply Hd; by right|].
      intros ->. rewrite Hk in Hpin. by apply Hni.
    + cbn [omap list_omap] in Hnd, Hd. apply IH.
      * destruct (account_key a); [by apply NoDup_cons in Hnd as [_ ?]|done].
      * intros p Hpin. apply Hd. destruct (account_key a); [by right|done].
  - cbn [foldl]. f_equal. rewrite !HandleAccount_effect.
    destruct (account_effect a) as [e1|] eqn:He1, (account_effect b) as [e2|] eqn:He2; try done.
    destruct (account_effect_key _ _ He1) as (i1 & Hi1 & Hk1).
    destruct (account_effect_key _ _ He2) as (i2 & Hi2 & Hk2).
    cbn [omap list_omap] in Hnd, Hd. unfold account_key in Hnd, Hd at 1 2.
    rewrite Hi1, Hi2 in Hnd, Hd. cbn in Hnd, Hd.
    apply NoDup_cons in Hnd as [Hni _]. rewrite elem_of_cons in Hni.
    apply run_effect_comm; rewrite ?Hk1, ?Hk2.
    + intros E. apply Hni. by left.
    + apply Hd. rewrite !elem_of_cons. by auto.
    + apply Hd. rewrite !elem_of_cons. by auto.
  - rewrite IH1 by done. apply IH2.
    + by rewrite <- Hp1.
    + intros p Hpin. apply Hd. by rewrite Hp1.
Qed.

(** The pool fees are the join of the two other tables. *)
Definition fees_joined (d : Decoder C) : Prop :=
  ∀ p c f, d_poolConfig d !! p = Some c → d_configFees d !! c = Some f →
  d_poolFees d !! p = Some f.

Lemma fees_joined_run_effect e d : fees_joined d → fees_joined (run_effect e d).
Proof.
  intros Hd p c f. destruct e as [p1 c1|q1 r1|p1 i1]; cbn [run_effect]; [| |apply Hd].
  - rewrite recordPool_fees. simpl. intros Hc Hf. case_bool_decide as Hp; subst.
    + rewrite lookup_insert_eq in Hc. injection Hc as ->. by rewrite Hf.
    + rewrite lookup_insert_ne in Hc by done. by eapply Hd.
  - rewrite recordConfig_fees. simpl. intros Hc Hf. rewrite Hc.
    case_bool_decide as Hq; simplify_eq.
    + by rewrite lookup_insert_eq in Hf.
    + rewrite lookup_insert_ne in Hf by congruence. by eapply Hd.
Qed.

Lemma fees_joined_HandleAccount a d : fees_joined d → fees_joined (HandleAccount a d).
Proof.
  rewrite HandleAccount_effect. destruct (account_effect a); [apply fees_joined_run_effect|done].
Qed.
Lemma fees_joined_HandleBlockMeta m d : fees_joined d → fees_joined (HandleBlockMeta m d).
Proof. by destruct m as [[? []]|]. Qed.

End state_lemmas.
#[export] Hint Resolve fees_joined_HandleAccount fees_joined_HandleBlockMeta : go.

(** ** Lemmas on the token balances *)

Definition balance_ok (i : Z) (tb : tokenBalance) : Prop :=
  v_accountIndex tb = i ∧ is_u64 (v_pre tb) ∧ is_u64 (v_post tb) ∧ is_u8 (v_decimals tb).

Lemma parseAmount_range a mint z : parseAmount a mint = Ok z → is_u64 z.
Proof.
  unfold parseAmount. destruct a as [a|]; [|done]. case_bool_decide; [done|].
  intros Hz%wrap_err_Ok. by apply ParseUint_range in Hz.
Qed.

Lemma collectBalances_ok meta : map_Forall balance_ok (collectBalances meta).
Proof.
  unfold collectBalances.
  assert (∀ l m, map_Forall balance_ok m → map_Forall balance_ok (foldl pre_step m l)) as Hpre.
  { induction l as [|b l IH]; intros m Hm; [done|]. simpl. apply IH. unfold pre_step.
    destruct (parseAmount _ _) as [amt|] eqn:Ha; [|done]. apply map_Forall_insert_2; [|done].
    apply parseAmount_range in Ha. split_and!; try done. apply u8_range. }
  assert (∀ l m, map_Forall balance_ok m → map_Forall balance_ok (foldl post_step m l)) as Hpost.
  { induction l as [|b l IH]; intros m Hm; [done|]. simpl. apply IH. unfold post_step.
    destruct (parseAmount _ _) as [amt|] eqn:Ha; [|done]. apply map_Forall_insert_2; [|done].
    apply parseAmount_range in Ha. destruct (m !! tb_AccountIndex b) as [tb|] eqn:Hb.
    - apply Hm in Hb as (H1 & H2 & H3 & H4). by split_and!.
    - split_and!; try done. apply u8_range. }
  apply Hpost, Hpre, map_Forall_empty.
Qed.

(** The balances of one owner, in visiting order. *)
Definition owned (o : string) (l : list (Z * tokenBalance)) : list (Z * tokenBalance) :=
  filter (λ e, v_owner e.2 = o) l.

Lemma owner_foldl o l :
  o ≠ "" →
  foldl owner_step ∅ l !! o = match owned o l with [] => None | es => Some es.*2 end.
Proof.
  intros Ho. induction l as [|[i tb] l IH] using rev_ind; [done|].
  rewrite foldl_snoc. unfold owned. rewrite filter_app. fold (owned o l). unfold owner_step at 1.
  cbn [snd]. rewrite filter_cons, filter_nil. cbn [snd].
  case_bool_decide as He.
  { rewrite decide_False by congruence. by rewrite app_nil_r. }
  case_decide as Htb; subst.
  - rewrite lookup_insert_eq, IH. destruct (owned _ l); [done|].
    cbn [app fmap list_fmap default]. by rewrite fmap_app.
  - by rewrite lookup_insert_ne, app_nil_r.
Qed.
Lemma owner_foldl_empty l : foldl owner_step ∅ l !! "" = None.
Proof.
  induction l as [|[i tb] l IH] using rev_ind; [done|]. rewrite foldl_snoc. unfold owner_step at 1.
  cbn [snd]. case_bool_decide; [done|]. by rewrite lookup_insert_ne.
Qed.

Section vaults.
Context {R : RangeOrder Z tokenBalance}.

Lemma elem_of_owned meta o i tb :
  (i, tb) ∈ owned o (range_entries (collectBalances meta))
  ↔ collectBalances meta !! i = Some tb ∧ v_owner tb = o.
Proof. unfold owned. rewrite list_elem_of_filter, elem_of_range_entries. naive_solver. Qed.

(** An address is a key of the result exactly when it owns a balance. *)
Definition owns (meta : TransactionStatusMeta) (o : string) : Prop :=
  o ≠ "" ∧ map_Exists (λ _ tb, v_owner tb = o) (collectBalances meta).
#[global] Instance owns_dec meta o : Decision (owns meta o).
Proof. unfold owns. apply _. Defined.

Lemma vaults_is_Some meta o : is_Some (extractVaultBalances meta !! o) ↔ owns meta o.
Proof.
  unfold owns, extractVaultBalances. destruct (decide (o = "")) as [->|Ho].
  { rewrite owner_foldl_empty, is_Some_alt. naive_solver. }
  rewrite owner_foldl by done. split.
  - intros Hs. split; [done|]. destruct (owned _ _) as [|[i tb] es] eqn:He; [by destruct Hs|].
    exists i, tb. apply elem_of_owned. rewrite He. by left.
  - intros (_ & i & tb & Hi). apply elem_of_owned in Hi.
    destruct (owned _ _); [by apply elem_of_nil in Hi|eauto].
Qed.

Lemma vaults_owned meta o :
  owns meta o → extractVaultBalances meta !! o
  = Some (owned o (range_entries (collectBalances meta))).*2.
Proof.
  intros Ho. pose proof (proj2 (vaults_is_Some meta o) Ho) as Hs. destruct Ho as [Ho _].
  unfold extractVaultBalances in *. rewrite owner_foldl in Hs |- * by done.
  destruct (owned _ _); [by destruct Hs|done].
Qed.

(** The balances of the owner at one account index: at most one. *)
Lemma owned_at_index meta o i :
  filter (λ tb, v_accountIndex tb = i) (owned o (range_entries (collectBalances meta))).*2
  = match collectBalances meta !! i with
    | Some tb => if decide (v_owner tb = o) then [tb] else []
    | None => []
    end.
Proof.
  set (m := collectBalances meta).
  assert (∀ l, (∀ j tb, (j, tb) ∈ l → v_accountIndex tb = j) → NoDup l.*1 →
    filter (λ tb, v_accountIndex tb = i) (owned o l).*2
    = match list_to_map (M := gmap Z tokenBalance) l !! i with
      | Some tb => if decide (v_owner tb = o) then [tb] else [] | None => [] end) as Hgen.
  { induction l as [|[j tb] l IH]; intros Hix Hnd; [done|].
    cbn [fmap list_fmap fst] in Hnd. apply NoDup_cons in Hnd as [Hj Hnd].
    cbn [list_to_map foldr]. unfold owned. rewrite filter_cons. fold (owned o l). cbn [snd fst uncurry].
    assert (v_accountIndex tb = j) as Hjx by (apply Hix; left).
    specialize (IH ltac:(intros; apply Hix; by right) Hnd).
    destruct (decide (j = i)) as [->|Hne].
    - rewrite lookup_insert_eq.
      assert (list_to_map (M := gmap Z tokenBalance) l !! i = None) as Hno
        by by apply not_elem_of_list_to_map_1.
      rewrite Hno in IH. case_decide; [|done].
      cbn [fmap list_fmap snd]. rewrite filter_cons, decide_True by done. by rewrite IH.
    - rewrite lookup_insert_ne by done. rewrite <- IH. case_decide; [|done].
      cbn [fmap list_fmap snd]. rewrite filter_cons, decide_False by congruence. done. }
  rewrite Hgen.
  - rewrite <- (list_to_map_flip m (range_entries m)); [done|]. by rewrite range_entries_perm.
  - intros j tb Hin%elem_of_range_entries. by apply (collectBalances_ok meta) in Hin as [? _].
  - apply NoDup_range_entries.
Qed.

(** The pool the instruction names and its vaults in instruction order, with no
    reference to the order of the map. *)
Definition instruction_pool (meta : TransactionStatusMeta) (instr : CompiledInstruction)
    (accountStrs : list string) : string :=
  default "" (head (filter (owns meta)
    (omap (λ rawIdx, accountStrs !! Z.to_nat (bval rawIdx)) (ci_Accounts instr)))).
Definition instruction_vaults (meta : TransactionStatusMeta) (instr : CompiledInstruction)
    (pool : string) : list tokenBalance :=
  filter (λ tb, v_owner tb = pool)
    (omap (λ rawIdx, collectBalances meta !! bval rawIdx) (ci_Accounts instr)).

Lemma firstOwner_pool meta instr accountStrs :
  firstOwner (ci_Accounts instr) accountStrs (extractVaultBalances meta)
  = instruction_pool meta instr accountStrs.
Proof.
  unfold instruction_pool. induction (ci_Accounts instr) as [|x l IH]; [done|].
  cbn [firstOwner omap list_omap]. destruct (accountStrs !! Z.to_nat (bval x)) as [addr|]; [|done].
  rewrite filter_cons. pose proof (vaults_is_Some meta addr) as Hs.
  destruct (extractVaultBalances meta !! addr) eqn:Hv.
  - assert (owns meta addr) as Ho by (apply Hs; eauto). rewrite decide_True by done.
    rewrite bool_decide_eq_false_2; [done|]. apply Ho.
  - rewrite decide_False; [done|]. intros Ho. apply Hs in Ho. by destruct Ho.
Qed.

Lemma ordered_vaults meta instr pool :
  concat ((λ rawIdx, filter (λ tb, v_accountIndex tb = bval rawIdx)
     (owned pool (range_entries (collectBalances meta))).*2) <$> ci_Accounts instr)
  = instruction_vaults meta instr pool.
Proof.
  unfold instruction_vaults. induction (ci_Accounts instr) as [|x l IH]; [done|].
  cbn [fmap list_fmap concat omap list_omap]. rewrite IH, owned_at_index.
  destruct (collectBalances meta !! bval x); [|done]. rewrite filter_cons.
  by case_decide.
Qed.

End vaults.

(** ** Lemmas on decoding *)

(** What every event of a transaction carries. *)
Definition event_of (slot : Z) (sig : string) (index : Z) (e : Proto.SwapEvent) : Prop :=
  sw_ChainId e = 501 ∧ sw_Slot e = slot ∧ sw_Sig e = sig ∧ sw_Index e = u32 index ∧
  sw_Provisional e = true ∧ sw_IsUndo e = false.

(** One side of the pool pays in and the other side pays out. *)
Definition one_direction (e : Proto.SwapEvent) : Prop :=
  (0 < sw_BaseIn e ∧ 0 < sw_QuoteOut e ∧ sw_BaseOut e = 0 ∧ sw_QuoteIn e = 0) ∨
  (0 < sw_BaseOut e ∧ 0 < sw_QuoteIn e ∧ sw_BaseIn e = 0 ∧ sw_QuoteOut e = 0).

(** The change of the balance of a vault, in the signed width the code takes it. *)
Definition vault_delta (v : tokenBalance) : Z := i64 (i64 (v_post v) - i64 (v_pre v)).

(** The amounts of an Orca event whose vaults changed by [dA] and [dB], not both zero.
    Base out and quote in when A fell and B rose; otherwise what A gained is base
    in and what B lost is quote out, and a change in the other direction counts as
    nothing, so that all four may be zero. *)
Definition orca_amounts (dA dB : Z) (e : Proto.SwapEvent) : Prop :=
  (dA ≠ 0 ∨ dB ≠ 0)
  ∧ (sw_BaseIn e, sw_BaseOut e, sw_QuoteIn e, sw_QuoteOut e)
    = (if bool_decide (dA < 0 ∧ 0 < dB) then (0, - dA, dB, 0) else (Z.max 0 dA, 0, 0, Z.max 0 (- dB))).

(** The vaults are balances of the pool in the two mints of the event. *)
Definition orca_event (vaults : gmap string (list tokenBalance)) (e : Proto.SwapEvent) : Prop :=
  ∃ va vb, va ∈ default [] (vaults !! sw_PoolId e) ∧ vb ∈ default [] (vaults !! sw_PoolId e)
  ∧ v_mint va = sw_MintBase e ∧ v_mint vb = sw_MintQuote e
  ∧ orca_amounts (vault_delta va) (vault_delta vb) e.

Lemma orca_vaults_in info balances va vb :
  orca_vaults info balances = (Some va, Some vb) →
  va ∈ balances ∧ vb ∈ balances ∧ v_mint va = op_TokenMintA info ∧ v_mint vb = op_TokenMintB info.
Proof.
  assert (∀ oa ob, orca_vaults info balances = (oa, ob) →
    (∀ v, oa = Some v → v ∈ balances ∧ v_mint v = op_TokenMintA info)
    ∧ ∀ v, ob = Some v → v ∈ balances ∧ v_mint v = op_TokenMintB info) as Hall; cycle 1.
  { intros [Ha Hb]%Hall. destruct (Ha va eq_refl), (Hb vb eq_refl). done. }
  unfold orca_vaults. induction balances as [|tb balances IH] using rev_ind; intros oa ob.
  { by intros [= <- <-]. }
  rewrite foldl_snoc. destruct (foldl _ _ balances) as [oa' ob']. destruct (IH _ _ eq_refl) as [Ha Hb].
  setoid_rewrite elem_of_app. setoid_rewrite list_elem_of_singleton.
  repeat case_bool_decide; intros [= <- <-]; naive_solver.
Qed.

Lemma buildRaydiumSwap_event {C} (d : Decoder C) sig slot ts index instr accts vaults e :
  buildRaydiumSwap d sig slot ts index instr accts vaults = Ok (Some e) →
  event_of slot sig index e ∧ sw_ProgramId e = Raydium.ProgramID ∧ one_direction e ∧
  sw_FeeBps e = u32 (default 0 (d_poolFees d !! sw_PoolId e)) ∧
  sw_PoolId e = firstOwner (ci_Accounts instr) accts vaults.
Proof.
  unfold buildRaydiumSwap. destruct (zlen (ci_Data instr) =? 0); [done|].
  destruct (resolvePool instr accts vaults) as [[pool va] vb] eqn:Hp.
  case_bool_decide as Hpool; [by destruct va, vb|].
  destruct va as [va|]; [|done]. destruct vb as [vb|]; [|done].
  rewrite bind_Ok. intros (si & _ & Hr). apply bind_Ok in Hr as (ev & Hev%wrap_err_Ok & Hr).
  apply ParseSwapEvent_Ok in Hev as (Hpa & _ & _ & _ & _ & _ & _ & Hdir).
  assert (firstOwner (ci_Accounts instr) accts vaults = pool) as Hfo.
  { unfold resolvePool in Hp. case_bool_decide; [congruence|]. repeat case_match; congruence. }
  injection Hr as <-. unfold convertRaydiumSwap, event_of, one_direction.
  destruct (ev_IsBaseInput ev); simpl in *; rewrite Hpa; split_and!; try done; lia.
Qed.

Lemma buildOrcaSwap_ok {C} (d : Decoder C) sig slot ts index instr accts vaults :
  ∃ o, buildOrcaSwap d sig slot ts index instr accts vaults = Ok o.
Proof. unfold buildOrcaSwap. repeat case_match; eauto. Qed.

Lemma buildOrcaSwap_event {C} (d : Decoder C) sig slot ts index instr accts vaults e :
  buildOrcaSwap d sig slot ts index instr accts vaults = Ok (Some e) →
  event_of slot sig index e ∧ sw_ProgramId e = WhirlpoolProgramID ∧ orca_event vaults e ∧
  ∃ info, d_orcaPools d !! sw_PoolId e = Some info ∧
  sw_MintBase e = op_TokenMintA info ∧ sw_MintQuote e = op_TokenMintB info.
Proof.
  unfold buildOrcaSwap. destruct (ci_Accounts instr !! 2%nat) as [idx|]; [|done].
  destruct (accts !! Z.to_nat (bval idx)) as [pool|]; [|done].
  destruct (d_orcaPools d !! pool) as [info|] eqn:Hinfo; [|done].
  case_decide; [done|]. destruct (orca_vaults _ _) as [[va|] [vb|]] eqn:Hv; try done.
  apply orca_vaults_in in Hv as (Hva & Hvb & Hma & Hmb).
  fold (vault_delta va) (vault_delta vb). cbv zeta.
  assert (is_i64 (vault_delta va)) as HA by apply i64_range.
  assert (is_i64 (vault_delta vb)) as HB by apply i64_range.
  destruct ((vault_delta va =? 0) && (vault_delta vb =? 0)) eqn:Hz; [done|].
  intros He. assert (event_of slot sig index e ∧ sw_ProgramId e = WhirlpoolProgramID
    ∧ sw_PoolId e = pool ∧ sw_MintBase e = op_TokenMintA info ∧ sw_MintQuote e = op_TokenMintB info)
    as (H1 & H2 & Hp & H3 & H4).
  { destruct ((vault_delta va <? 0) && (vault_delta vb >? 0)); injection He as <-; done. }
  split_and!; [done|done| |rewrite Hp; eauto].
  exists va, vb. rewrite Hp, H3, H4. split_and!; [done..|]. clear H1 H2 H3 H4 Hp Hva Hvb Hma Hmb.
  revert He HA HB Hz. generalize (vault_delta va) (vault_delta vb). clear. intros dA dB He HA HB Hz.
  rewrite !Z.gtb_ltb in He. unfold orca_amounts. split.
  { apply andb_false_iff in Hz as [Hz|Hz]; apply Z.eqb_neq in Hz; auto. }
  destruct ((dA <? 0) && (0 <? dB)) eqn:Hneg; injection He as <-; simpl.
  - go_bool. rewrite bool_decide_eq_true_2 by done.
    by rewrite u64_neg_i64, u64_small by (unfold is_u64, is_i64 in *; lia).
  - rewrite bool_decide_eq_false_2.
    2:{ intros [Ha Hb]. apply andb_false_iff in Hneg as [Hn|Hn]; apply Z.ltb_ge in Hn; lia. }
    destruct (Z.ltb_spec 0 dA), (Z.ltb_spec dB 0);
      rewrite ?u64_neg_i64, ?u64_small by (unfold is_u64, is_i64 in *; lia); repeat f_equal; lia.
Qed.

Section decode_lemmas.
Context (low : Z → Z) (r : PairRegistry) (kinds : gmap string string).

Lemma buildMeteoraSwap_event sig slot ts index instr accts meta program kind o :
  buildMeteoraSwap low r sig slot ts index instr accts meta program kind = Ok o →
  ∃ e, o = Some e ∧ event_of slot sig index e ∧ sw_ProgramId e = program ∧ one_direction e.
Proof.
  unfold buildMeteoraSwap. rewrite bind_Ok. intros (ev & Hev & Ho).
  apply DecodeSwapEvent_Ok in Hev as (_ & _ & _ & _ & _ & _ & _ & Hb & Hq).
  destruct (if (me_VirtualReservesBase ev =? 0) && _ then _ else _) as [rb rq].
  injection Ho as <-. eexists. split; [done|]. unfold event_of, one_direction.
  destruct (me_BaseDecreased ev), (negb (rb =? 0) || negb (rq =? 0)); simpl; split_and!; auto.
Qed.

Context {C : Type} `{SlotTimeCache C, Base58, !RangeOrder Z tokenBalance}.
Implicit Types d : Decoder C.

(** The program an instruction is decoded for. *)
Definition recognised (program : string) : Prop :=
  program = Raydium.ProgramID ∨ program = WhirlpoolProgramID ∨ is_Some (kinds !! program).

Definition event_from (slot : Z) (sig : string) (index : Z) (accts : list string)
    (vaults : gmap string (list tokenBalance)) (e : Proto.SwapEvent) : Prop :=
  event_of slot sig index e ∧ sw_ProgramId e ∈ accts ∧ recognised (sw_ProgramId e) ∧
  (if bool_decide (sw_ProgramId e = WhirlpoolProgramID) then orca_event vaults e
   else one_direction e).

(** One instruction adds at most one event, and fails only on a recognised
    program other than Orca. *)
Lemma decodeInstruction_spec d sig slot ts index meta accts vaults instr :
  match decodeInstruction low r kinds d sig slot ts index meta accts vaults [] instr with
  | Ok new => (length new <= 1)%nat ∧ Forall (event_from slot sig index accts vaults) new
  | Err e => ∃ program err, e = DecodeError program err ∧ program ∈ accts ∧
      recognised program ∧ program ≠ WhirlpoolProgramID
  end.
Proof.
  unfold decodeInstruction, event_from, recognised.
  destruct (accts !! Z.to_nat (ci_ProgramIdIndex instr)) as [program|] eqn:Hp; [|simpl; split; [lia|done]].
  apply list_elem_of_lookup_2 in Hp. case_bool_decide as Hr; subst.
  { destruct (buildRaydiumSwap _ _ _ _ _ _ _ _) as [[e|]|err] eqn:He; simpl.
    - apply buildRaydiumSwap_event in He as (H1 & H2 & H3 & _). split; [lia|].
      apply Forall_singleton. rewrite H2. split_and!; auto.
    - split; [lia|done].
    - do 2 eexists. split; [done|]. auto. }
  case_bool_decide as Ho; subst.
  { destruct (buildOrcaSwap_ok d sig slot ts index instr accts vaults) as [[e|] He]; rewrite He; simpl.
    - apply buildOrcaSwap_event in He as (H1 & H2 & H3 & _). split; [lia|].
      apply Forall_singleton. rewrite H2. split_and!; auto.
    - split; [lia|done]. }
  unfold ProgramKindForID. destruct (kinds !! program) as [kind|] eqn:Hk; [|simpl; split; [lia|done]].
  destruct (buildMeteoraSwap _ _ _ _ _ _ _ _ _ _ _) as [o|err] eqn:He; simpl.
  - apply buildMeteoraSwap_event in He as (e & -> & H1 & H2 & H3). split; [simpl; lia|].
    apply Forall_singleton. rewrite H2, bool_decide_eq_false_2 by done. split_and!; eauto.
  - do 2 eexists. split; [done|]. eauto.
Qed.

Lemma decodeInstruction_append d sig slot ts index meta accts vaults events instr :
  decodeInstruction low r kinds d sig slot ts index meta accts vaults events instr
  = (λ new, events ++ new)
    <$> decodeInstruction low r kinds d sig slot ts index meta accts vaults [] instr.
Proof.
  unfold decodeInstruction, append_event. repeat case_match; simpl; by rewrite ?app_nil_r.
Qed.

(** The loop is the concatenation of what each instruction gives alone. *)
Lemma decodeInstructions_concat d sig slot ts index meta accts vaults instrs events :
  decodeInstructions low r kinds d sig slot ts index meta accts vaults instrs events
  = foldr (λ instr k out,
      new ← decodeInstruction low r kinds d sig slot ts index meta accts vaults [] instr;
      k (out ++ new)) Ok instrs events.
Proof.
  revert events. induction instrs as [|i instrs IH]; intros events; [done|].
  cbn [decodeInstructions foldr]. rewrite decodeInstruction_append.
  by destruct (decodeInstruction _ _ _ _ _ _ _ _ _ _ _ [] i); simpl.
Qed.

Lemma decodeInstructions_spec d sig slot ts index meta accts vaults instrs events :
  match decodeInstructions low r kinds d sig slot ts index meta accts vaults instrs events with
  | Ok out => ∃ new, out = events ++ new ∧ (length new <= length instrs)%nat ∧
      Forall (event_from slot sig index accts vaults) new
  | Err e => ∃ program err, e = DecodeError program err ∧ program ∈ accts ∧
      recognised program ∧ program ≠ WhirlpoolProgramID
  end.
Proof.
  revert events. induction instrs as [|i instrs IH]; intros events; simpl.
  { exists []. rewrite app_nil_r. split_and!; [done|simpl; lia|done]. }
  rewrite decodeInstruction_append.
  pose proof (decodeInstruction_spec d sig slot ts index meta accts vaults i) as Hi.
  destruct (decodeInstruction _ _ _ _ _ _ _ _ _ _ _ [] i) as [new|err]; [|done]. simpl.
  destruct Hi as [Hl Hf]. specialize (IH (events ++ new)).
  destruct (decodeInstructions _ _ _ _ _ _ _ _ _ _ _ instrs (events ++ new)); [|done].
  destruct IH as (new' & -> & Hl' & Hf'). exists (new ++ new'). rewrite app_assoc.
  split_and!; [done|rewrite length_app; lia|by apply Forall_app].
Qed.

(** The account keys and the signature of a transaction, empty when it has no
    message; the number of its instructions. *)
Definition tx_message (tx : UpdateTransaction) : option Message :=
  (ut_Transaction tx ≫= ti_Transaction) ≫= tx_Message.
Definition tx_keys (tx : UpdateTransaction) : list string :=
  match tx_message tx with Some m => base58_Encode <$> msg_AccountKeys m | None => [] end.
Definition tx_sig (tx : UpdateTransaction) : string :=
  match ut_Transaction tx ≫= ti_Transaction with
  | Some t => encodeSignature (tx_Signatures t) | None => "" end.
Definition tx_index (tx : UpdateTransaction) : Z :=
  match ut_Transaction tx with Some info => ti_Index info | None => 0 end.
Definition tx_instrs (tx : UpdateTransaction) : list CompiledInstruction :=
  match tx_message tx with Some m => msg_Instructions m | None => [] end.
Definition tx_instructions (tx : UpdateTransaction) : nat := length (tx_instrs tx).
(** The token balances of the transaction, by their owner. *)
Definition tx_vaults (tx : UpdateTransaction) : gmap string (list tokenBalance) :=
  match ut_Transaction tx ≫= ti_Meta with Some meta => extractVaultBalances meta | None => ∅ end.

Lemma DecodeTransaction_spec d tx :
  match DecodeTransaction low r kinds d (Some tx) with
  | Ok out => (length out <= tx_instructions tx)%nat ∧
      Forall (event_from (ut_Slot tx) (tx_sig tx) (tx_index tx) (tx_keys tx) (tx_vaults tx)) out
  | Err e => ∃ program err, e = DecodeError program err ∧ program ∈ tx_keys tx ∧
      recognised program ∧ program ≠ WhirlpoolProgramID
  end.
Proof.
  unfold DecodeTransaction, tx_keys, tx_sig, tx_index, tx_instructions, tx_instrs, tx_vaults, tx_message.
  destruct (ut_Transaction tx) as [info|]; [|simpl; split; [lia|done]]. simpl.
  destruct (ti_Meta info) as [meta|]; [|simpl; split; [lia|done]].
  destruct (ti_Transaction info) as [txMsg|]; [|simpl; split; [lia|done]]. simpl.
  destruct (tx_Message txMsg) as [message|]; [|simpl; split; [lia|done]].
  set (accts := base58_Encode <$> msg_AccountKeys message).
  pose proof (decodeInstructions_spec d (encodeSignature (tx_Signatures txMsg)) (ut_Slot tx)
    (lookupSlotTimestamp (d_slotCache d) (ut_Slot tx)) (ti_Index info) meta accts
    (extractVaultBalances meta) (msg_Instructions message) []) as Hspec.
  destruct (decodeInstructions _ _ _ _ _ _ _ _ _ _ _ _ _); [|done].
  by destruct Hspec as (new & -> & Hl & Hf).
Qed.

(** The transaction with other instructions. *)
Definition with_instructions (instrs : list CompiledInstruction) (tx : UpdateTransaction) : UpdateTransaction :=
  mkUpdateTransaction
    ((λ info, mkTransactionInfo (ti_Signature info)
        ((λ t, mkTransaction (tx_Signatures t)
            ((λ m, mkMessage (msg_AccountKeys m) instrs) <$> tx_Message t)) <$> ti_Transaction info)
        (ti_Meta info) (ti_Index info)) <$> ut_Transaction tx) (ut_Slot tx).

Lemma decodeInstructions_mapM d sig slot ts index meta accts vaults instrs out :
  decodeInstructions low r kinds d sig slot ts index meta accts vaults instrs out
  = (λ news, out ++ concat news)
    <$> mapM (decodeInstruction low r kinds d sig slot ts index meta accts vaults []) instrs.
Proof.
  rewrite decodeInstructions_concat. revert out.
  induction instrs as [|i instrs IH]; intros out; [simpl; by rewrite app_nil_r|].
  cbn [foldr mapM]. destruct (decodeInstruction _ _ _ _ _ _ _ _ _ _ _ [] i); [|done]. simpl.
  rewrite IH. destruct (mapM _ instrs); [|done]. simpl. by rewrite <- app_assoc.
Qed.

(** An instruction that fails alone makes [mapM] fail. *)
Lemma mapM_fails {A B} (f : A → result B) l x :
  x ∈ l → (∃ err, f x = Err err) → ∃ err, mapM f l = Err err.
Proof.
  intros Hin [err He]. induction Hin as [x l|x y l _ IH]; cbn [mapM].
  - rewrite He. by exists err.
  - destruct (f y) as [b|err']; [|by exists err']. destruct (IH He) as [err' Hm].
    exists err'. simpl. by rewrite Hm.
Qed.

Lemma mapM_result_ext {A B} (f g : A → result B) l : (∀ x, f x = g x) → mapM f l = mapM g l.
Proof. intros E. induction l as [|x l IH]; [done|]. cbn [mapM]. by rewrite E, IH. Qed.
Lemma mapM_nils {A B} (l : list A) : @concat B <$> mapM (λ _, Ok []) l = Ok [].
Proof.
  induction l as [|x l IH]; [done|]. cbn [mapM]. simpl.
  destruct (mapM (λ _, Ok []) l) as [bs|err]; [|done]. simpl in *. by injection IH as ->.
Qed.

Lemma DecodeTransaction_concat d tx :
  DecodeTransaction low r kinds d (Some tx)
  = @concat _ <$> mapM (λ i, DecodeTransaction low r kinds d (Some (with_instructions [i] tx))) (tx_instrs tx).
Proof.
  unfold DecodeTransaction, with_instructions, tx_instrs, tx_message.
  destruct (ut_Transaction tx) as [info|]; [|done]. simpl.
  destruct (ti_Meta info) as [meta|]; [|symmetry; apply mapM_nils].
  destruct (ti_Transaction info) as [t|]; [|done]. simpl.
  destruct (tx_Message t) as [message|]; [|done]. simpl.
  rewrite decodeInstructions_mapM. f_equal. apply mapM_result_ext. intros i.
  destruct (decodeInstruction _ _ _ _ _ _ _ _ _ _ _ [] i); done.
Qed.

(** An instruction of a Meteora program with too few accounts. *)
Lemma short_meteora_fails d tx i program :
  i ∈ tx_instrs tx → is_Some (ut_Transaction tx ≫= ti_Meta) →
  tx_keys tx !! Z.to_nat (ci_ProgramIdIndex i) = Some program →
  program ≠ Raydium.ProgramID → program ≠ WhirlpoolProgramID → is_Some (kinds !! program) →
  zlen (ci_Accounts i) < 8 →
  ∃ err, DecodeTransaction low r kinds d (Some (with_instructions [i] tx)) = Err err.
Proof.
  unfold tx_instrs, tx_keys, DecodeTransaction, with_instructions, tx_message.
  intros Hi [meta Hm] Hp Hr Ho [kind Hk] Hl. destruct (ut_Transaction tx) as [info|]; [|done]. simpl in *.
  rewrite Hm. destruct (ti_Transaction info) as [t|]; [|by apply elem_of_nil in Hi]. simpl in *.
  destruct (tx_Message t) as [message|]; [|by apply elem_of_nil in Hi]. simpl in *.
  unfold decodeInstruction. rewrite Hp, !bool_decide_eq_false_2 by done.
  unfold ProgramKindForID. rewrite Hk. unfold buildMeteoraSwap, DecodeSwapEvent. simpl.
  destruct (Z.ltb_spec (zlen (ci_Accounts i)) 8); [by eexists|lia].
Qed.

End decode_lemmas.

(** The events of which the state is built. *)
Inductive StateUpdate :=
  | SU_Account (a : option UpdateAccount)
  | SU_BlockMeta (m : option UpdateBlockMeta).
Definition run_update {C} `{SlotTimeCache C, Base58, !RangeOrder string string}
    (d : Decoder C) (u : StateUpdate) : Decoder C :=
  match u with SU_Account a => HandleAccount a d | SU_BlockMeta m => HandleBlockMeta m d end.

(** ** Concrete inputs *)

#[local] Existing Instance raw_base58.
#[local] Instance example_order_ZZ : RangeOrder Z Z := map_to_list_order.
#[local] Instance example_order_ss : RangeOrder string string := map_to_list_order.
#[local] Instance example_order_tb : RangeOrder Z tokenBalance := map_to_list_order.

Definition raydium_account (pubkey : string) (data : list byte) : option UpdateAccount :=
  Some (mkUpdateAccount (Some (mkAccountInfo (bytes Raydium.ProgramID) (bytes pubkey) data)) 5).
(** A pool whose configuration account is ["cfg" ++ zeros], and that account,
    with a trade rate of 2500. *)
Definition example_config_key : list byte := bytes "cfg" ++ replicate 29 (bchr 0).
Definition example_accounts : list (option UpdateAccount) :=
  [raydium_account "pool" (poolStateDiscriminator ++ [bchr 255] ++ example_config_key);
   raydium_account (of_bytes example_config_key)
     (ammConfigDiscriminator ++ replicate 39 (bchr 0) ++ le_bytes 4 2500)].

Definition example_bal (i : Z) (mint owner amount : string) : TokenBalance :=
  mkTokenBalance i mint owner (Some (mkUiTokenAmount amount 6)).
Definition example_meta : TransactionStatusMeta :=
  mkStatusMeta false
    [example_bal 2 "mintA" "pool" "500"; example_bal 3 "mintB" "pool" "90";
     example_bal 4 "mintA" "user" "1000"]
    [example_bal 2 "mintA" "pool" "700"; example_bal 3 "mintB" "pool" "40";
     example_bal 4 "mintA" "user" "800"] [] 0.
Definition example_swap_data : list byte :=
  encode_SwapInstruction (Raydium.mkSwapInstruction (replicate 8 (bchr 1)) 200 1 5 6 true).
Definition example_instr (data : list byte) : CompiledInstruction :=
  mkInstruction 0 (bchr <$> [1; 4; 2; 3]) data.
Definition example_tx (instrs : list CompiledInstruction) : UpdateTransaction :=
  mkUpdateTransaction
    (Some (mkTransactionInfo (bytes "sig")
       (Some (mkTransaction [bytes "sig"]
          (Some (mkMessage (bytes <$> [Raydium.ProgramID; "pool"; "va"; "vb"; "ua"]) instrs))))
       (Some example_meta) 3)) 77.
Definition example_decoder : Decoder MemorySlotTimeCache :=
  foldl (λ d a, HandleAccount a d) (New NewMemorySlotTimeCache) example_accounts.

(** ** Properties *)

(** C13. The state the accounts build does not depend on the order in which they
    arrive: for any two orders of a list of updates of different accounts, none
    of them already known as a pool, the configurations, fees and Orca pools are
    the same; in particular a pool gets its fee whether its configuration account
    comes before or after it. *)
Theorem HandleAccount_order_irrelevant {C} `{SlotTimeCache C, Base58, !RangeOrder string string}
    (d : Decoder C) accounts1 accounts2 :
  accounts1 ≡ₚ accounts2 → NoDup (omap account_key accounts1) →
  (∀ p, p ∈ omap account_key accounts1 → d_poolConfig d !! p = None) →
  foldl (λ d a, HandleAccount a d) d accounts1 = foldl (λ d a, HandleAccount a d) d accounts2.
Proof. apply HandleAccounts_perm. Qed.

Lemma HandleAccount_order_irrelevant_witness :
  d_poolFees example_decoder !! "pool" = Some 25 ∧
  example_decoder
  = foldl (λ d a, HandleAccount a d) (New NewMemorySlotTimeCache) (reverse example_accounts).
Proof.
  split; [vm_compute; reflexivity|]. apply HandleAccount_order_irrelevant.
  - by rewrite reverse_Permutation.
  - apply (bool_decide_unpack _). vm_compute. exact I.
  - intros p _. apply lookup_empty.
Defined.

(** After any sequence of block metas and accounts, repeated ones included,
    every pool whose configuration account is known has that configuration's
    fee. *)
Theorem fees_joined_reachable {C} `{SlotTimeCache C, Base58, !RangeOrder string string}
    (cache : C) (updates : list StateUpdate) :
  fees_joined (foldl run_update (New cache) updates).
Proof.
  induction updates as [|u updates IH] using rev_ind; [by intros p c f Hp|].
  rewrite foldl_snoc. destruct u; [by apply fees_joined_HandleAccount|].
  by apply fees_joined_HandleBlockMeta.
Qed.

(** C3. Every event a transaction decodes to is labelled with that transaction
    (chain 501, slot, first signature, index), is provisional and not an undo, and
    comes from a program among the transaction's accounts that the decoder
    recognises. A Raydium or Meteora event moves the pool in one direction: base in
    and quote out, or base out and quote in, both amounts positive. The amounts of
    an Orca event are those of [orca_amounts] for the changes of two balances of its
    pool in the transaction, in its two mints, not both of them zero; the amounts
    may all be zero. There is at most one event per instruction. *)
Theorem DecodeTransaction_events low r kinds {C}
    `{SlotTimeCache C, Base58, !RangeOrder Z tokenBalance} (d : Decoder C) tx events :
  DecodeTransaction low r kinds d (Some tx) = Ok events →
  (length events <= tx_instructions tx)%nat ∧
  ∀ e, e ∈ events →
    event_of (ut_Slot tx) (tx_sig tx) (tx_index tx) e ∧
    sw_ProgramId e ∈ tx_keys tx ∧ recognised kinds (sw_ProgramId e) ∧
    (if bool_decide (sw_ProgramId e = WhirlpoolProgramID) then orca_event (tx_vaults tx) e
     else one_direction e).
Proof.
  intros Hd. pose proof (DecodeTransaction_spec low r kinds d tx) as H1. rewrite Hd in H1.
  destruct H1 as [Hl Hf]. split; [done|]. by apply Forall_forall.
Qed.

Lemma DecodeTransaction_events_witness :
  match DecodeTransaction id initial_registry initial_programKinds example_decoder
          (Some (example_tx [example_instr example_swap_data])) with
  | Ok events => (length events = 1)%nat ∧ ∀ e, e ∈ events → sw_Slot e = 77
  | Err _ => False
  end.
Proof.
  destruct (DecodeTransaction _ _ _ _ _) as [events|e] eqn:He; [|vm_compute in He; discriminate].
  destruct (DecodeTransaction_events _ _ _ _ _ _ He) as [_ Hev]. split.
  - vm_compute in He. injection He as <-. reflexivity.
  - intros e Hin. apply Hev in Hin as [Hin _]. apply Hin.
Defined.

(** Decoding fails only with a [DecodeError] that names the program of an
    instruction of the transaction, which [errors.As] recovers, and never for an
    Orca instruction or for a program the decoder does not know. *)
Theorem DecodeTransaction_error low r kinds {C}
    `{SlotTimeCache C, Base58, !RangeOrder Z tokenBalance} (d : Decoder C) tx err :
  DecodeTransaction low r kinds d (Some tx) = Err err →
  ∃ program, errors_As_DecodeError err = Some program ∧ program ∈ tx_keys tx ∧
  (program = Raydium.ProgramID ∨ is_Some (kinds !! program)) ∧ program ≠ WhirlpoolProgramID.
Proof.
  intros Hd. pose proof (DecodeTransaction_spec low r kinds d tx) as H1. rewrite Hd in H1.
  destruct H1 as (program & err' & -> & Hin & Hr & Hne). exists program.
  unfold recognised in Hr. naive_solver.
Qed.

Lemma DecodeTransaction_error_witness :
  match DecodeTransaction id initial_registry initial_programKinds example_decoder
          (Some (example_tx [example_instr example_swap_data; example_instr [bchr 1]])) with
  | Err e => is_Some (errors_As_DecodeError e)
  | Ok _ => False
  end.
Proof.
  destruct (DecodeTransaction _ _ _ _ _) as [events|e] eqn:He; [vm_compute in He; discriminate|].
  destruct (DecodeTransaction_error _ _ _ _ _ _ He) as (program & Hp & _). exists program. exact Hp.
Defined.

(** C36. A transaction is decoded instruction by instruction, with no influence of
    one instruction on another, and all or nothing: the events are the concatenation,
    in order, of those of the same transaction with each of its instructions alone,
    and the error is that of the first instruction which fails alone. In particular
    an instruction of a Meteora program with fewer than eight accounts, such as one
    that is not a swap, makes the transaction fail, and the swaps of its other
    instructions are lost. *)
Theorem DecodeTransaction_all_or_nothing low r kinds {C}
    `{SlotTimeCache C, Base58, !RangeOrder Z tokenBalance} (d : Decoder C) tx :
  DecodeTransaction low r kinds d (Some tx)
  = @concat _ <$> mapM (λ i, DecodeTransaction low r kinds d (Some (with_instructions [i] tx))) (tx_instrs tx)
  ∧ ∀ i program, i ∈ tx_instrs tx → is_Some (ut_Transaction tx ≫= ti_Meta) →
      tx_keys tx !! Z.to_nat (ci_ProgramIdIndex i) = Some program →
      program ≠ Raydium.ProgramID → program ≠ WhirlpoolProgramID → is_Some (kinds !! program) →
      zlen (ci_Accounts i) < 8 → ∃ err, DecodeTransaction low r kinds d (Some tx) = Err err.
Proof.
  assert (DecodeTransaction low r kinds d (Some tx)
    = @concat _ <$> mapM (λ i, DecodeTransaction low r kinds d (Some (with_instructions [i] tx))) (tx_instrs tx))
    as Hcat by apply DecodeTransaction_concat.
  split; [exact Hcat|]. intros i program Hi Hm Hp Hr Ho Hk Hl. rewrite Hcat.
  destruct (short_meteora_fails low r kinds d tx i program) as [err He]; [done..|].
  edestruct (mapM_fails (λ i, DecodeTransaction low r kinds d (Some (with_instructions [i] tx))))
    as [err' ->]; [exact Hi|by exists err|by exists err'].
Qed.

(** A Raydium swap, with and without an instruction of a Meteora program. *)
Definition mixed_tx (instrs : list CompiledInstruction) : UpdateTransaction :=
  mkUpdateTransaction
    (Some (mkTransactionInfo (bytes "sig")
       (Some (mkTransaction [bytes "sig"]
          (Some (mkMessage (bytes <$> [Raydium.ProgramID; "pool"; "va"; "vb"; "ua";
             "cpamdpZCGKUy5JxQXB4dcpGPiikHawvSWAd6mEn1sGG"]) instrs))))
       (Some example_meta) 3)) 77.

Lemma DecodeTransaction_all_or_nothing_witness :
  length <$> DecodeTransaction id initial_registry initial_programKinds example_decoder
    (Some (mixed_tx [example_instr example_swap_data])) = Ok 1%nat
  ∧ ∃ err, DecodeTransaction id initial_registry initial_programKinds example_decoder
      (Some (mixed_tx [example_instr example_swap_data; mkInstruction 5 (bchr <$> [1; 2]) []])) = Err err.
Proof.
  split; [vm_compute; reflexivity|].
  destruct (DecodeTransaction_all_or_nothing id initial_registry initial_programKinds example_decoder
    (mixed_tx [example_instr example_swap_data; mkInstruction 5 (bchr <$> [1; 2]) []])) as [_ Hfail].
  apply (Hfail (mkInstruction 5 (bchr <$> [1; 2]) []) "cpamdpZCGKUy5JxQXB4dcpGPiikHawvSWAd6mEn1sGG").
  - simpl. right. left.
  - eexists. reflexivity.
  - vm_compute. reflexivity.
  - vm_compute. discriminate.
  - vm_compute. discriminate.
  - vm_compute. eexists. reflexivity.
  - vm_compute. reflexivity.
Defined.

(** The pool and the vaults of a Raydium swap do not depend on the order in
    which the balances are visited: the pool is the first account of the
    instruction that owns a token balance, and when at least two balances of that
    owner are accounts of the instruction, the vaults are the first two in the
    order of the instruction. *)
Theorem resolvePool_instruction_order (R : RangeOrder Z tokenBalance) meta instr accts a b rest :
  let pool := instruction_pool meta instr accts in
  pool ≠ "" → instruction_vaults meta instr pool = a :: b :: rest →
  resolvePool instr accts (extractVaultBalances meta) = (pool, Some a, Some b).
Proof.
  intros pool Hpool Hv. unfold resolvePool. rewrite firstOwner_pool. fold pool.
  rewrite bool_decide_eq_false_2 by done.
  assert (owns meta pool) as Ho.
  { unfold pool, instruction_pool in *. destruct (head _) as [o|] eqn:Ho; [|done].
    apply head_Some_elem_of, list_elem_of_filter in Ho as [Ho _]. done. }
  rewrite vaults_owned by done. cbn [from_option id].
  rewrite ordered_vaults, Hv. rewrite decide_False by (simpl; lia). done.
Qed.

Lemma resolvePool_instruction_order_witness :
  (resolvePool (example_instr []) ["p"; "pool"; "va"; "vb"; "ua"]
    (extractVaultBalances example_meta)).1.1 = "pool".
Proof.
  rewrite (resolvePool_instruction_order _ example_meta (example_instr [])
    ["p"; "pool"; "va"; "vb"; "ua"]
    (mkTokenBal 2 "mintA" "pool" 500 700 6) (mkTokenBal 3 "mintB" "pool" 90 40 6) []).
  all: vm_compute; try reflexivity; discriminate.
Defined.

(** An Orca pool that only loses token A is reported as a swap of nothing. *)
Lemma buildOrcaSwap_zero_amounts :
  let info := mkOrcaPoolInfo "cfg" 3000 300 "mintA" "mintB" "va" "vb" in
  let d := mkDecoder NewMemorySlotTimeCache ∅ ∅ ∅ {["pool" := info]} in
  let vault mint pre post := mkTokenBal 0 mint "pool" pre post 6 in
  match buildOrcaSwap d "sig" 7 0 1 (mkInstruction 0 (bchr <$> [0; 0; 1]) []) ["prog"; "pool"]
          {["pool" := [vault "mintA" 10 4; vault "mintB" 5 5]]} with
  | Ok (Some e) => sw_BaseIn e = 0 ∧ sw_BaseOut e = 0 ∧ sw_QuoteIn e = 0 ∧ sw_QuoteOut e = 0
  | _ => False
  end.
Proof. vm_compute. auto. Qed.
