(* ===== verification/Processor.v ===== *)
(** * Geyser processor

    [ingestor/geyser/processor.go]: the state machine that turns the updates of
    a stream into published messages. It publishes every decoded swap as
    provisional, keeps a copy per slot, and publishes the copies again as final
    or as undo when the slot is finalized or dies. The publisher is any
    implementation of [SwapPublisher]; the theorems are about the record of its
    calls. Prometheus counters are integers. *)

From S2P Require Import Prelude GoStrings Bytes Pair Raydium SlotCache Pools Meteora Orca.
From S2P Require Import Publisher IngestDecoder Proto.
Local Open Scope list_scope.

Record processorMetrics := mkMetrics {
  raydiumSwaps : Z;
  raydiumErrors : Z;
  orcaSwaps : Z;
  orcaErrors : Z;
  meteoraSwaps : Z;
  meteoraErrors : Z;
}.
Definition newProcessorMetrics : processorMetrics := mkMetrics 0 0 0 0 0 0.

Record Processor (P C : Type) := mkProcessor {
  publisher : P;
  decoder : Decoder C;
  metrics : processorMetrics;
  pending : gmap Z (list SwapEvent);
  blockHeads : gmap Z BlockHead;
}.
Arguments mkProcessor {P C} _ _ _ _ _.
Arguments publisher {P C} _.
Arguments decoder {P C} _.
Arguments metrics {P C} _.
Arguments pending {P C} _.
Arguments blockHeads {P C} _.

Section processor.
Context (unicode_lower : Z → Z) (registry : PairRegistry) (programKinds : gmap string string).
Context {P C : Type} `{SwapPublisher P, SlotTimeCache C, Base58,
  !RangeOrder string string, !RangeOrder Z tokenBalance}.
Notation proc := (Processor P C).

Definition NewProcessor (publisher : P) (cache : C) : proc :=
  mkProcessor publisher (New cache) newProcessorMetrics ∅ ∅.

(** ** Metrics *)

Definition recordSwap (m : processorMetrics) (programID : string) : processorMetrics :=
  if bool_decide (programID = Raydium.ProgramID) then
    mkMetrics (raydiumSwaps m + 1) (raydiumErrors m) (orcaSwaps m) (orcaErrors m)
      (meteoraSwaps m) (meteoraErrors m)
  else if bool_decide (programID = WhirlpoolProgramID) then
    mkMetrics (raydiumSwaps m) (raydiumErrors m) (orcaSwaps m + 1) (orcaErrors m)
      (meteoraSwaps m) (meteoraErrors m)
  else match ProgramKindForID programKinds programID with
    | Some _ => mkMetrics (raydiumSwaps m) (raydiumErrors m) (orcaSwaps m) (orcaErrors m)
        (meteoraSwaps m + 1) (meteoraErrors m)
    | None => m
    end.

Definition recordError (m : processorMetrics) (programID : string) : processorMetrics :=
  if bool_decide (programID = Raydium.ProgramID) then
    mkMetrics (raydiumSwaps m) (raydiumErrors m + 1) (orcaSwaps m) (orcaErrors m)
      (meteoraSwaps m) (meteoraErrors m)
  else if bool_decide (programID = WhirlpoolProgramID) then
    mkMetrics (raydiumSwaps m) (raydiumErrors m) (orcaSwaps m) (orcaErrors m + 1)
      (meteoraSwaps m) (meteoraErrors m)
  else match ProgramKindForID programKinds programID with
    | Some _ => mkMetrics (raydiumSwaps m) (raydiumErrors m) (orcaSwaps m) (orcaErrors m)
        (meteoraSwaps m) (meteoraErrors m + 1)
    | None => m
    end.

Definition set_metrics (f : processorMetrics → processorMetrics) : M proc () :=
  M_modify (λ p, mkProcessor (publisher p) (decoder p) (f (metrics p)) (pending p) (blockHeads p)).
Definition set_decoder (f : Decoder C → Decoder C) : M proc () :=
  M_modify (λ p, mkProcessor (publisher p) (f (decoder p)) (metrics p) (pending p) (blockHeads p)).
Definition set_pending (f : gmap Z (list SwapEvent) → gmap Z (list SwapEvent)) : M proc () :=
  M_modify (λ p, mkProcessor (publisher p) (decoder p) (metrics p) (f (pending p)) (blockHeads p)).
Definition set_blockHeads (f : gmap Z BlockHead → gmap Z BlockHead) : M proc () :=
  M_modify (λ p, mkProcessor (publisher p) (decoder p) (metrics p) (pending p) (f (blockHeads p))).

(** A call of the publisher, its error kept by [k]. *)
Definition call (m : M P ()) (k : result () → M proc ()) : M proc () := λ p,
  let '(pub, r) := m (publisher p) in
  k r (mkProcessor pub (decoder p) (metrics p) (pending p) (blockHeads p)).

(** ** Handlers *)

Definition appendPending (slot : Z) (event : SwapEvent) : M proc () :=
  set_pending (λ m, <[slot := default [] (m !! slot) ++ [event]]> m).

(** The body of the loop over the decoded events. *)
Definition publishEvent (ctx : context) (ev : SwapEvent) : M proc () :=
  _ ← set_metrics (λ m, recordSwap m (sw_ProgramId ev));
  call (PublishSwap_ ctx (Some ev)) (λ r,
    match r with
    | Err err =>
      _ ← set_metrics (λ m, recordError m (sw_ProgramId ev));
      M_throw (Wrapf "publish swap: %w" [] err)
    | Ok _ => appendPending (sw_Slot ev) ev
    end).

Definition handleTransaction (ctx : context) (tx : option UpdateTransaction) : M proc () :=
  match tx with
  | None => mret tt
  | Some _ =>
    p ← M_get;
    match DecodeTransaction unicode_lower registry programKinds (decoder p) tx with
    | Err err =>
      _ ← set_metrics (λ m,
            match errors_As_DecodeError err with
            | Some program => recordError m program
            | None => m
            end);
      M_throw (Wrapf "decode transaction: %w" [] err)
    | Ok events =>
      _ ← match ConvertTxMeta tx with
          | None => mret tt
          | Some meta =>
            call (PublishTxMeta_ ctx (Some meta)) (λ r,
              match r with
              | Err err => M_throw (Wrapf "publish tx meta: %w" [] err)
              | Ok _ => mret tt
              end)
          end;
      M_for events (publishEvent ctx)
    end
  end.

Definition handleBlockMeta (ctx : context) (meta : option UpdateBlockMeta) : M proc () :=
  _ ← set_decoder (HandleBlockMeta meta);
  match meta with
  | None => mret tt
  | Some meta =>
    let head := mkBlockHead chainIDSolana (bm_Slot meta)
      (match bm_BlockTime meta with Some ts => u64 ts | None => 0 end) "confirmed" in
    _ ← set_blockHeads (insert (bh_Slot head) head);
    call (PublishBlockHead_ ctx (Some head)) (λ r p, (p, r))
  end.

Definition handleAccount (account : option UpdateAccount) : M proc () :=
  set_decoder (HandleAccount account).

(** The body of the loops of [finalizeSlot] and [undoSlot]. *)
Definition settleEvent (ctx : context) (undo : bool) (msg : string) (ev : SwapEvent) : M proc () :=
  let copy := sw_set_flags ev false undo in
  call (PublishSwap_ ctx (Some copy)) (λ r,
    match r with
    | Err err =>
      _ ← set_metrics (λ m, recordError m (sw_ProgramId copy));
      M_throw (Wrapf msg [] err)
    | Ok _ => mret tt
    end).

Definition finalizeSlot (ctx : context) (slot : Z) : M proc () :=
  p ← M_get;
  let events := default [] (pending p !! slot) in
  if decide (length events = 0)%nat then set_pending (delete slot)
  else
    _ ← M_for events (settleEvent ctx false "publish finalized swap: %w");
    set_pending (delete slot).

Definition undoSlot (ctx : context) (slot : Z) : M proc () :=
  p ← M_get;
  let events := default [] (pending p !! slot) in
  if decide (length events = 0)%nat then set_pending (delete slot)
  else
    _ ← M_for events (settleEvent ctx true "publish undo swap: %w");
    set_pending (delete slot).

Definition publishBlockHeadStatus (ctx : context) (slot : Z) (status : string) : M proc () :=
  p ← M_get;
  match blockHeads p !! slot with
  | None => mret tt
  | Some head =>
    let updated := bh_set_status head status in
    call (PublishBlockHead_ ctx (Some updated)) (λ r,
      match r with
      | Err err => M_throw (Wrapf "publish block head %s: %w" [FStr status] err)
      | Ok _ =>
        _ ← set_blockHeads (insert slot updated);
        if bool_decide (status = "finalized") || bool_decide (status = "dead")
        then set_blockHeads (delete slot) else mret tt
      end)
  end.

Definition handleSlot (ctx : context) (update : option UpdateSlot) : M proc () :=
  match update with
  | None => mret tt
  | Some update =>
    let slot := us_Slot update in
    match us_Status update with
    | SLOT_FINALIZED =>
      _ ← finalizeSlot ctx slot; publishBlockHeadStatus ctx slot "finalized"
    | SLOT_DEAD =>
      _ ← undoSlot ctx slot; publishBlockHeadStatus ctx slot "dead"
    | SLOT_OTHER _ => mret tt
    end
  end.

Definition HandleUpdate (ctx : context) (update : option SubscribeUpdate) : M proc () :=
  match update with
  | None => mret tt
  | Some (U_Transaction tx) => handleTransaction ctx tx
  | Some (U_BlockMeta meta) => handleBlockMeta ctx meta
  | Some (U_Account account) => handleAccount account
  | Some (U_Slot slot) => handleSlot ctx slot
  | Some (U_Block _) | Some U_Ping | Some U_Other => mret tt
  end.

(** The states after each update of a stream; an error ends one update, not the
    state. *)
Definition run (p : proc) (updates : list (context * option SubscribeUpdate)) : proc :=
  foldl (λ p '(ctx, u), (HandleUpdate ctx u p).1) p updates.

End processor.

(** ** The history of a processor *)

(** The messages that were accepted, in order. *)
Definition accepted (l : list (ProtoMessage * bool)) : list ProtoMessage :=
  fst <$> filter (λ c, c.2 = true) l.

(** The accepted provisional swaps of a slot, in order. *)
Definition provisional_swap (slot : Z) (m : ProtoMessage) : option SwapEvent :=
  match m with
  | PM_Swap e => if sw_Provisional e && (sw_Slot e =? slot) then Some e else None
  | _ => None
  end.
Definition provisional_swaps (slot : Z) (l : list (ProtoMessage * bool)) : list SwapEvent :=
  omap (provisional_swap slot) (accepted l).

(** The accepted final and undo copies for a slot, as the provisional events they
    are copies of. *)
Definition settled_swap (slot : Z) (m : ProtoMessage) : option SwapEvent :=
  match m with
  | PM_Swap e => if negb (sw_Provisional e) && (sw_Slot e =? slot)
                 then Some (sw_set_flags e true false) else None
  | _ => None
  end.
Definition settled_swaps (slot : Z) (l : list (ProtoMessage * bool)) : list SwapEvent :=
  omap (settled_swap slot) (accepted l).

(** The event was published again, as final or as undo. *)
Definition settled (l : list (ProtoMessage * bool)) (e : SwapEvent) : Prop :=
  PM_Swap (sw_set_flags e false false) ∈ accepted l ∨
  PM_Swap (sw_set_flags e false true) ∈ accepted l.

Definition copies (undo : bool) (es : list SwapEvent) : list (ProtoMessage * bool) :=
  (λ e, (PM_Swap (sw_set_flags e false undo), true)) <$> es.

Lemma accepted_app l1 l2 : accepted (l1 ++ l2) = accepted l1 ++ accepted l2.
Proof. unfold accepted. by rewrite filter_app, fmap_app. Qed.
Lemma accepted_true m : accepted [(m, true)] = [m].
Proof. done. Qed.
Lemma accepted_false m : accepted [(m, false)] = [].
Proof. done. Qed.
Lemma accepted_copies undo es :
  accepted (copies undo es) = (λ e, PM_Swap (sw_set_flags e false undo)) <$> es.
Proof.
  unfold accepted, copies. induction es as [|e es IH]; [done|].
  cbn [fmap list_fmap]. rewrite filter_cons_True by done. cbn [fmap list_fmap]. by f_equal.
Qed.
Lemma provisional_swaps_app slot l1 l2 :
  provisional_swaps slot (l1 ++ l2) = provisional_swaps slot l1 ++ provisional_swaps slot l2.
Proof. unfold provisional_swaps. by rewrite accepted_app, omap_app. Qed.
Lemma provisional_swaps_copies slot undo es : provisional_swaps slot (copies undo es) = [].
Proof. unfold provisional_swaps. rewrite accepted_copies. by induction es. Qed.
Lemma settled_swaps_app slot l1 l2 :
  settled_swaps slot (l1 ++ l2) = settled_swaps slot l1 ++ settled_swaps slot l2.
Proof. unfold settled_swaps. by rewrite accepted_app, omap_app. Qed.
Lemma settled_swaps_copies slot undo es s :
  Forall (λ e, sw_Slot e = s ∧ sw_Provisional e = true ∧ sw_IsUndo e = false) es →
  settled_swaps slot (copies undo es) = if decide (slot = s) then es else [].
Proof.
  unfold settled_swaps. rewrite accepted_copies. intros Hes.
  induction Hes as [|e es (Hs & Hp & Hu) _ IH]; [by case_decide|].
  cbn [fmap list_fmap omap list_omap settled_swap]. rewrite IH. simpl.
  destruct (Z.eqb_spec (sw_Slot e) slot), (decide (slot = s)); try congruence.
  f_equal. destruct e; simpl in *. by subst.
Qed.
Lemma settled_mono l1 l2 e : settled l1 e → settled (l1 ++ l2) e.
Proof. unfold settled. rewrite accepted_app. set_solver. Qed.
Lemma settled_copies l undo es e : e ∈ es → settled (l ++ copies undo es) e.
Proof.
  intros He. unfold settled. rewrite accepted_app, accepted_copies.
  destruct undo; [right|left]; apply elem_of_app; right; apply list_elem_of_fmap; by exists e.
Qed.

(** ** Invariant *)

Section invariant.
Context (unicode_lower : Z → Z) (registry : PairRegistry) (programKinds : gmap string string).
Context {P C : Type} `{SwapPublisher P, SlotTimeCache C, Base58,
  !RangeOrder string string, !RangeOrder Z tokenBalance}.
Notation proc := (Processor P C).
Implicit Types p : proc.

Definition log (p : proc) : list (ProtoMessage * bool) := calls (publisher p).
Definition pending_at (p : proc) (slot : Z) : list SwapEvent := default [] (pending p !! slot).

(** Pending events are provisional events of their slot, and no entry is empty. *)
Definition pending_ok (p : proc) : Prop :=
  ∀ slot es, pending p !! slot = Some es →
  es ≠ [] ∧ Forall (λ e, sw_Slot e = slot ∧ sw_Provisional e = true ∧ sw_IsUndo e = false) es.

(** What was published as provisional is what was settled and what is pending;
    nothing is settled that was not published; and as long as no call was refused
    every event was settled once, in order. *)
Definition published_ok (p : proc) : Prop :=
  (∀ slot, ∃ done_, provisional_swaps slot (log p) = done_ ++ pending_at p slot ∧
     Forall (settled (log p)) done_) ∧
  (∀ f, PM_Swap f ∈ accepted (log p) → sw_Provisional f = false →
     ∃ e, e ∈ provisional_swaps (sw_Slot f) (log p) ∧ f = sw_set_flags e false (sw_IsUndo f)) ∧
  (Forall (λ c, c.2 = true) (log p) → ∀ slot,
     provisional_swaps slot (log p) = settled_swaps slot (log p) ++ pending_at p slot).

Definition heads_ok (p : proc) : Prop :=
  ∀ slot h, blockHeads p !! slot = Some h →
  bh_Slot h = slot ∧ bh_ChainId h = 501 ∧ bh_Status h = "confirmed".

Definition Inv (p : proc) : Prop := pending_ok p ∧ published_ok p ∧ heads_ok p.

(** The invariant is about the record of calls, the pending events and the heads
    only. *)
Lemma Inv_ext p p' :
  log p' = log p → pending p' = pending p → blockHeads p' = blockHeads p → Inv p → Inv p'.
Proof.
  unfold Inv, pending_ok, published_ok, heads_ok, pending_at. intros -> -> ->. done.
Qed.

(** A refused call, or an accepted message that is not a swap. *)
Lemma published_ok_other p p' m b :
  log p' = log p ++ [(m, b)] → pending p' = pending p →
  (b = true → ∀ e, m ≠ PM_Swap e) → published_ok p → published_ok p'.
Proof.
  intros Hlog Hpend Hm (Hsuf & Hcopy & Hexact).
  assert (∀ f, PM_Swap f ∉ accepted [(m, b)]) as Hno.
  { intros f Hf. destruct b; [|by apply elem_of_nil in Hf].
    rewrite accepted_true, list_elem_of_singleton in Hf. by eapply Hm. }
  assert (∀ slot, provisional_swaps slot (log p') = provisional_swaps slot (log p)) as Hprov.
  { intros slot. rewrite Hlog, provisional_swaps_app.
    assert (provisional_swaps slot [(m, b)] = []) as ->; [|by rewrite app_nil_r].
    unfold provisional_swaps. destruct b; [|done]. rewrite accepted_true.
    destruct m; try done. by destruct (Hm eq_refl e eq_refl). }
  split; [|split].
  - intros slot. destruct (Hsuf slot) as (d & Hd & Hs). exists d. unfold pending_at.
    rewrite Hprov, Hpend. split; [done|]. rewrite Hlog. eapply Forall_impl; [done|].
    intros. by apply settled_mono.
  - intros f Hf Hp. rewrite Hprov. apply Hcopy; [|done].
    rewrite Hlog, accepted_app in Hf. set_solver.
  - intros Hall slot. rewrite Hprov. unfold pending_at. rewrite Hpend. rewrite Hlog in Hall |- *.
    apply Forall_app in Hall as [Hall Hb]. rewrite settled_swaps_app.
    assert (settled_swaps slot [(m, b)] = []) as ->.
    { apply Forall_singleton in Hb. destruct b; [|done]. unfold settled_swaps.
      rewrite accepted_true. destruct m; try done. by destruct (Hm eq_refl e eq_refl). }
    rewrite app_nil_r. by apply Hexact.
Qed.

(** One copy published. *)
Lemma settleEvent_run ctx undo msg e p :
  settleEvent programKinds ctx undo msg e p
  = let '(pub, r) := PublishSwap_ ctx (Some (sw_set_flags e false undo)) (publisher p) in
    match r with
    | Ok _ => (mkProcessor pub (decoder p) (metrics p) (pending p) (blockHeads p), Ok tt)
    | Err err => (mkProcessor pub (decoder p)
                    (recordError programKinds (metrics p) (sw_ProgramId e))
                    (pending p) (blockHeads p), Err (Wrapf msg [] err))
    end.
Proof. unfold settleEvent, call. by destruct (PublishSwap_ _ _ _) as [pub []]. Qed.

(** The loops of [finalizeSlot] and [undoSlot]: the copies are published in order
    until one is refused, and nothing else changes. *)
Lemma settle_loop ctx undo msg es p :
  let '(p', r) := M_for es (settleEvent programKinds ctx undo msg) p in
  decoder p' = decoder p ∧ pending p' = pending p ∧ blockHeads p' = blockHeads p ∧
  match r with
  | Ok _ => log p' = log p ++ copies undo es
  | Err _ => ∃ pre e post, es = pre ++ e :: post ∧
      log p' = log p ++ copies undo pre ++ [(PM_Swap (sw_set_flags e false undo), false)]
  end.
Proof.
  revert p. induction es as [|e es IH]; intros p.
  { simpl. by rewrite app_nil_r. }
  rewrite M_for_cons, settleEvent_run. set (copy := sw_set_flags e false undo).
  pose proof (calls_PublishSwap ctx copy (publisher p)) as Hc.
  destruct (PublishSwap_ ctx (Some copy) (publisher p)) as [pub [[]|err]]; simpl in Hc.
  - specialize (IH (mkProcessor pub (decoder p) (metrics p) (pending p) (blockHeads p))).
    destruct (M_for es _ _) as [p' [[]|err]];
      destruct IH as (H1' & H2' & H3' & Hlog); split_and!; try done.
    + rewrite Hlog. unfold log at 1. simpl. rewrite Hc. by rewrite <- app_assoc.
    + destruct Hlog as (pre & e' & post & -> & Hlog). exists (e :: pre), e', post.
      split; [done|]. rewrite Hlog. unfold log at 1. simpl. rewrite Hc. by rewrite <- app_assoc.
  - split_and!; try done. exists [], e, es. by split.
Qed.

(** [finalizeSlot] and [undoSlot] differ in a flag and a message. *)
Definition settleSlot (ctx : context) (undo : bool) (msg : string) (slot : Z) : M proc () :=
  p ← M_get;
  let events := default [] (pending p !! slot) in
  if decide (length events = 0)%nat then set_pending (delete slot)
  else
    _ ← M_for events (settleEvent programKinds ctx undo msg);
    set_pending (delete slot).

Lemma settleSlot_spec ctx undo msg slot p :
  let '(p', r) := settleSlot ctx undo msg slot p in
  decoder p' = decoder p ∧ blockHeads p' = blockHeads p ∧
  match r with
  | Ok _ => log p' = log p ++ copies undo (pending_at p slot) ∧
            pending p' = delete slot (pending p)
  | Err _ => pending p' = pending p ∧ ∃ pre e post, pending_at p slot = pre ++ e :: post ∧
      log p' = log p ++ copies undo pre ++ [(PM_Swap (sw_set_flags e false undo), false)]
  end.
Proof.
  unfold settleSlot. rewrite M_bind_run. cbn [M_get]. unfold pending_at.
  set (events := default [] (pending p !! slot)). case_decide as Hl.
  { apply nil_length_inv in Hl. rewrite Hl. simpl. by rewrite app_nil_r. }
  rewrite M_bind_run. pose proof (settle_loop ctx undo msg events p) as Hloop.
  destruct (M_for events _ p) as [p' [[]|err]]; destruct Hloop as (H1' & H2' & H3' & Hlog); simpl.
  - by rewrite H2'.
  - split_and!; done.
Qed.

Lemma published_ok_copies p p' slot undo pre post tail :
  pending_ok p → log p' = log p ++ copies undo pre ++ tail → accepted tail = [] →
  pending_at p slot = pre ++ post →
  (pending p' = pending p ∧ Exists (λ c, c.2 = false) tail) ∨
  (post = [] ∧ pending p' = delete slot (pending p)) →
  published_ok p → published_ok p'.
Proof.
  intros Hok Hlog Htail Hat Hpend (Hsuf & Hcopy & Hexact).
  assert (∀ s, provisional_swaps s (log p') = provisional_swaps s (log p)) as Hprov.
  { intros s. rewrite Hlog, !provisional_swaps_app, provisional_swaps_copies.
    unfold provisional_swaps at 2. rewrite Htail. by rewrite !app_nil_r. }
  assert (Forall (λ e, sw_Slot e = slot ∧ sw_Provisional e = true ∧ sw_IsUndo e = false)
    (pending_at p slot)) as Hpat.
  { unfold pending_at. destruct (pending p !! slot) as [es|] eqn:Hes; [|done]. by apply Hok in Hes as [_ ?]. }
  split; [|split].
  - intros s. destruct (Hsuf s) as (d & Hd & Hs). rewrite Hprov.
    assert (Forall (settled (log p')) d) as Hs'.
    { eapply Forall_impl; [done|]. intros. rewrite Hlog. by apply settled_mono. }
    destruct Hpend as [[Hpend _]|[-> Hpend]].
    { exists d. unfold pending_at. by rewrite Hpend. }
    rewrite app_nil_r in Hat. unfold pending_at at 1. rewrite Hpend.
    destruct (decide (s = slot)) as [->|Hne].
    + rewrite lookup_delete_eq. exists (d ++ pre). rewrite Hd, Hat, app_nil_r. split; [done|].
      apply Forall_app. split; [done|]. apply Forall_forall. intros e He.
      rewrite Hlog, app_assoc. by apply settled_mono, settled_copies.
    + rewrite lookup_delete_ne by done. by exists d.
  - intros f Hf Hfp. rewrite Hprov. rewrite Hlog, !accepted_app, Htail, app_nil_r in Hf.
    apply elem_of_app in Hf as [Hf|Hf]; [by apply Hcopy|].
    rewrite accepted_copies in Hf. apply list_elem_of_fmap in Hf as (e & [= ->] & He).
    assert (e ∈ pending_at p slot) as Hep by (rewrite Hat; apply elem_of_app; by left).
    destruct (Hsuf slot) as (d & Hd & _). exists e. split; [|done].
    assert (sw_Slot e = slot) as Hslot by (rewrite Forall_forall in Hpat; by apply Hpat).
    simpl. rewrite Hslot, Hd. apply elem_of_app. by right.
  - intros Hall s. rewrite Hlog in Hall. apply Forall_app in Hall as [Hall Hct].
    apply Forall_app in Hct as [_ Ht]. destruct Hpend as [[_ Hf]|[-> Hpend]].
    { apply Exists_exists in Hf as (c & Hc & Hf). rewrite Forall_forall in Ht.
      apply Ht in Hc. congruence. }
    rewrite Hprov, (Hexact Hall), Hlog, !settled_swaps_app, app_nil_r in *. subst pre.
    rewrite (settled_swaps_copies s undo _ slot Hpat).
    unfold settled_swaps at 3. rewrite Htail. unfold pending_at at 3. rewrite Hpend.
    case_decide; subst; simpl; rewrite app_nil_r.
    + by rewrite lookup_delete_eq, app_nil_r.
    + by rewrite lookup_delete_ne by done.
Qed.

Lemma Inv_settleSlot ctx undo msg slot p : Inv p → Inv (settleSlot ctx undo msg slot p).1.
Proof.
  intros (Hok & Hpub & Hheads). pose proof (settleSlot_spec ctx undo msg slot p) as Hs.
  destruct (settleSlot ctx undo msg slot p) as [p' [[]|err]]; destruct Hs as (_ & Hbh & Hs); simpl.
  - destruct Hs as [Hlog Hpend]. split; [|split].
    + unfold pending_ok. rewrite Hpend. intros s es [_ Hes]%lookup_delete_Some. by eapply Hok.
    + eapply (published_ok_copies p p' slot undo (pending_at p slot) [] []); try done.
      * by rewrite app_nil_r.
      * by rewrite app_nil_r.
      * by right.
    + unfold heads_ok. by rewrite Hbh.
  - destruct Hs as (Hpend & pre & e & post & Hat & Hlog). split; [|split].
    + unfold pending_ok. by rewrite Hpend.
    + eapply published_ok_copies; try done. left. split; [done|by left].
    + unfold heads_ok. by rewrite Hbh.
Qed.

Lemma publishEvent_run ctx e p :
  publishEvent programKinds ctx e p
  = let '(pub, r) := PublishSwap_ ctx (Some e) (publisher p) in
    let m := recordSwap programKinds (metrics p) (sw_ProgramId e) in
    match r with
    | Ok _ => (mkProcessor pub (decoder p) m
                 (<[sw_Slot e := pending_at p (sw_Slot e) ++ [e]]> (pending p)) (blockHeads p), Ok tt)
    | Err err => (mkProcessor pub (decoder p) (recordError programKinds m (sw_ProgramId e))
                    (pending p) (blockHeads p), Err (Wrapf "publish swap: %w" [] err))
    end.
Proof.
  unfold publishEvent, call. rewrite M_bind_run. simpl.
  by destruct (PublishSwap_ _ _ _) as [pub []].
Qed.

Lemma Inv_publishEvent ctx e p :
  sw_Provisional e = true → sw_IsUndo e = false → Inv p → Inv (publishEvent programKinds ctx e p).1.
Proof.
  intros Hp Hu (Hok & Hpub & Hheads). rewrite publishEvent_run.
  pose proof (calls_PublishSwap ctx e (publisher p)) as Hc.
  destruct (PublishSwap_ ctx (Some e) (publisher p)) as [pub [[]|err]]; simpl in Hc; cbv zeta iota.
  2:{ split; [done|split; [|done]].
      by eapply (published_ok_other p _ (PM_Swap e) false). }
  set (p' := (mkProcessor _ _ _ _ _, _).1).
  assert (log p' = log p ++ [(PM_Swap e, true)]) as Hlog by done.
  assert (∀ s, pending_at p' s
    = if decide (s = sw_Slot e) then pending_at p s ++ [e] else pending_at p s) as Hat.
  { intros s. unfold pending_at at 1. simpl. case_decide; subst.
    - by rewrite lookup_insert_eq.
    - by rewrite lookup_insert_ne. }
  assert (∀ s, provisional_swaps s (log p')
    = provisional_swaps s (log p) ++ if decide (s = sw_Slot e) then [e] else []) as Hprov.
  { intros s. rewrite Hlog, provisional_swaps_app. f_equal. unfold provisional_swaps.
    rewrite accepted_true. simpl. rewrite Hp. simpl.
    destruct (Z.eqb_spec (sw_Slot e) s), (decide (s = sw_Slot e)); try done; lia. }
  split; [|split; [split; [|split]|done]].
  - intros s es. simpl. destruct (decide (s = sw_Slot e)) as [->|Hne].
    + rewrite lookup_insert_eq. intros [= <-]. split; [by destruct (pending_at _ _)|].
      apply Forall_app. split; [|by apply Forall_singleton].
      unfold pending_at. destruct (pending p !! sw_Slot e) as [es|] eqn:Hes; [|done].
      by destruct (Hok _ _ Hes).
    + rewrite lookup_insert_ne by done. apply Hok.
  - intros s. destruct Hpub as (Hsuf & _ & _), (Hsuf s) as (d & Hd & Hs). exists d.
    rewrite Hprov, Hat, Hd. split.
    + case_decide; [by rewrite <- app_assoc|by rewrite app_nil_r].
    + rewrite Hlog. eapply Forall_impl; [done|]. intros. by apply settled_mono.
  - destruct Hpub as (_ & Hcopy & _). intros f Hf Hfp. rewrite Hlog, accepted_app, accepted_true in Hf.
    apply elem_of_app in Hf as [Hf|Hf].
    + destruct (Hcopy f Hf Hfp) as (e' & He' & Hfe). exists e'. split; [|exact Hfe].
      rewrite Hprov. apply elem_of_app. by left.
    + rewrite list_elem_of_singleton in Hf. injection Hf as ->. congruence.
  - destruct Hpub as (_ & _ & Hexact). intros Hall s. rewrite Hlog in Hall.
    apply Forall_app in Hall as [Hall _]. rewrite Hprov, Hat, (Hexact Hall), Hlog, settled_swaps_app.
    assert (settled_swaps s [(PM_Swap e, true)] = []) as ->.
    { unfold settled_swaps. rewrite accepted_true. simpl. by rewrite Hp. }
    rewrite app_nil_r. case_decide; [by rewrite <- app_assoc|by rewrite app_nil_r].
Qed.

(** A call whose message is not a swap keeps the invariant, whatever the heads
    become. *)
Lemma Inv_call_other p pub m b heads :
  calls pub = calls (publisher p) ++ [(m, b)] → (∀ e, m ≠ PM_Swap e) →
  heads_ok (mkProcessor pub (decoder p) (metrics p) (pending p) heads) → Inv p →
  Inv (mkProcessor pub (decoder p) (metrics p) (pending p) heads).
Proof.
  intros Hc Hm Hh (Hok & Hpub & _). split; [done|split; [|done]].
  eapply published_ok_other; eauto.
Qed.

Lemma Inv_handleTransaction ctx tx p :
  Inv p → Inv (handleTransaction unicode_lower registry programKinds ctx tx p).1.
Proof.
  intros HI. destruct tx as [tx|]; [|done]. unfold handleTransaction.
  rewrite M_bind_run. cbn [M_get].
  pose proof (DecodeTransaction_spec unicode_lower registry programKinds (decoder p) tx) as Hd.
  destruct (DecodeTransaction _ _ _ _ _) as [events|err].
  2:{ eapply Inv_ext; [..|exact HI]; done. }
  destruct Hd as [_ Hd]. rewrite Forall_forall in Hd.
  assert (∀ p', Inv p' → Inv (M_for events (publishEvent programKinds ctx) p').1) as Hloop.
  { intros p' HI'. apply M_for_inv; [|done]. intros e p1 He HI1. apply Inv_publishEvent; [..|done].
    - by apply Hd in He as ((_ & _ & _ & _ & ? & _) & _).
    - by apply Hd in He as ((_ & _ & _ & _ & _ & ?) & _). }
  rewrite M_bind_run. destruct (ConvertTxMeta (Some tx)) as [meta|]; [|by apply Hloop].
  unfold call. pose proof (calls_PublishTxMeta ctx meta (publisher p)) as Hc.
  destruct (PublishTxMeta_ ctx (Some meta) (publisher p)) as [pub [[]|err]]; simpl in Hc.
  - apply Hloop. eapply Inv_call_other; try done. apply HI.
  - eapply Inv_call_other; try done. apply HI.
Qed.

Lemma Inv_handleBlockMeta ctx meta p : Inv p → Inv (handleBlockMeta ctx meta p).1.
Proof.
  intros HI. unfold handleBlockMeta. rewrite M_bind_run. simpl.
  destruct meta as [meta|]; [|by eapply Inv_ext; [..|exact HI]].
  rewrite M_bind_run. simpl. unfold call. simpl. set (head := mkBlockHead _ _ _ _).
  pose proof (calls_PublishBlockHead ctx head (publisher p)) as Hc.
  destruct (PublishBlockHead_ ctx (Some head) (publisher p)) as [pub r]; simpl in *.
  set (p1 := mkProcessor (publisher p) (HandleBlockMeta (Some meta) (decoder p)) (metrics p)
    (pending p) (blockHeads p)).
  eapply (Inv_call_other p1); [exact Hc|done| |by eapply Inv_ext; [..|exact HI]].
  intros slot h. simpl. destruct HI as (_ & _ & Hh).
  destruct (decide (slot = bm_Slot meta)) as [->|Hne].
  - rewrite lookup_insert_eq. by intros [= <-].
  - rewrite lookup_insert_ne by done. apply Hh.
Qed.

Lemma Inv_publishBlockHeadStatus ctx slot status p :
  status = "finalized" ∨ status = "dead" → Inv p → Inv (publishBlockHeadStatus ctx slot status p).1.
Proof.
  intros Hst HI. unfold publishBlockHeadStatus. rewrite M_bind_run. cbn [M_get].
  destruct (blockHeads p !! slot) as [head|]; [|done]. unfold call.
  pose proof (calls_PublishBlockHead ctx (bh_set_status head status) (publisher p)) as Hc.
  destruct (PublishBlockHead_ ctx _ (publisher p)) as [pub [[]|err]]; simpl in Hc.
  - rewrite M_bind_run. simpl.
    assert (bool_decide (status = "finalized") || bool_decide (status = "dead") = true) as ->
      by (by destruct Hst as [-> | ->]). simpl.
    eapply Inv_call_other; [exact Hc|done| |done]. destruct HI as (_ & _ & Hh).
    intros s h. simpl. rewrite delete_insert_eq. intros [_ Hs]%lookup_delete_Some. by apply Hh.
  - eapply Inv_call_other; [exact Hc|done|apply HI|done].
Qed.

Lemma Inv_bind (m : M proc ()) (k : () → M proc ()) p :
  Inv (m p).1 → (∀ u p', Inv p' → Inv (k u p').1) → Inv ((m ≫= k) p).1.
Proof. intros Hm Hk. rewrite M_bind_run. destruct (m p) as [p' [u|err]]; [by apply Hk|done]. Qed.

Lemma Inv_HandleUpdate ctx u p :
  Inv p → Inv (HandleUpdate unicode_lower registry programKinds ctx u p).1.
Proof.
  intros HI. destruct u as [[tx|meta|account|[[slot status]|]|slot| |]|]; simpl; try done.
  - by apply Inv_handleTransaction.
  - by apply Inv_handleBlockMeta.
  - destruct status; [| |done].
    + apply Inv_bind; [by apply (Inv_settleSlot ctx false _ slot)|].
      intros. apply Inv_publishBlockHeadStatus; auto.
    + apply Inv_bind; [by apply (Inv_settleSlot ctx true _ slot)|].
      intros. apply Inv_publishBlockHeadStatus; auto.
Qed.

Lemma Inv_NewProcessor (pub : P) (cache : C) : calls pub = [] → Inv (NewProcessor pub cache).
Proof.
  intros Hc. split; [|split; [split; [|split]|]].
  - by intros slot es Hes.
  - intros slot. exists []. unfold log, pending_at. simpl. by rewrite Hc.
  - intros f. unfold log. simpl. rewrite Hc. by intros ?%elem_of_nil.
  - intros _ slot. unfold log, pending_at. simpl. by rewrite Hc.
  - by intros slot h Hh.
Qed.

Lemma Inv_run p updates : Inv p → Inv (run unicode_lower registry programKinds p updates).
Proof.
  revert p. induction updates as [|[ctx u] us IH]; intros p HI; [done|].
  apply IH. by apply Inv_HandleUpdate.
Qed.

End invariant.

(** ** Concrete runs *)

#[local] Existing Instance raw_base58.
#[local] Instance run_order_ZZ : RangeOrder Z Z := map_to_list_order.
#[local] Instance run_order_ss : RangeOrder string string := map_to_list_order.
#[local] Instance run_order_tb : RangeOrder Z tokenBalance := map_to_list_order.

Definition example_processor : Processor TestPublisher MemorySlotTimeCache :=
  mkProcessor [] example_decoder newProcessorMetrics ∅ ∅.
Definition example_updates (final : SlotStatus) : list (context * option SubscribeUpdate) :=
  (λ u, (Background, Some u)) <$>
    [U_Transaction (Some (example_tx [example_instr example_swap_data]));
     U_BlockMeta (Some (mkUpdateBlockMeta 77 (Some 1700000000)));
     U_Transaction (Some (example_tx [example_instr example_swap_data]));
     U_Slot (Some (mkUpdateSlot 77 final))].

(** A publisher that refuses final messages. *)
Definition refuse_final (m : ProtoMessage) : bool :=
  match m with PM_Swap e => sw_Provisional e | _ => true end.

(** ** Lemmas on successful transactions *)

Section success.
Context (unicode_lower : Z → Z) (registry : PairRegistry) (programKinds : gmap string string).
Context {P C : Type} `{SwapPublisher P, SlotTimeCache C, Base58,
  !RangeOrder string string, !RangeOrder Z tokenBalance}.
Notation proc := (Processor P C).

Lemma publish_loop_ok ctx es (p p' : proc) :
  M_for es (publishEvent programKinds ctx) p = (p', Ok tt) →
  log p' = log p ++ ((λ e, (PM_Swap e, true)) <$> es) ∧
  ∀ slot, pending_at p' slot = pending_at p slot ++ filter (λ e, sw_Slot e = slot) es.
Proof.
  revert p. induction es as [|e es IH]; intros p; [intros [= <-]; simpl; split; intros; by rewrite app_nil_r|].
  rewrite M_for_cons, publishEvent_run.
  pose proof (calls_PublishSwap ctx e (publisher p)) as Hc.
  destruct (PublishSwap_ ctx (Some e) (publisher p)) as [pub [[]|err]]; simpl in Hc; cbv zeta iota; [|done].
  intros (Hlog & Hpend)%IH. split.
  - rewrite Hlog. unfold log at 1. simpl. rewrite Hc. by rewrite <- app_assoc.
  - intros slot. rewrite Hpend. unfold pending_at at 1. simpl. rewrite filter_cons.
    case_decide as Hs; subst.
    + rewrite lookup_insert_eq. simpl. by rewrite <- app_assoc.
    + by rewrite lookup_insert_ne.
Qed.
End success.

(** ** Properties *)

(** C1. Nothing is lost: after any stream of updates, whatever calls the publisher
    refused on the way, the accepted provisional swaps of a slot are, in order,
    those already published again (as final or as undo) followed by those still
    pending, which a later finalized or dead status will publish. *)
Theorem provisional_settled_or_pending low r kinds {P C} `{SwapPublisher P, SlotTimeCache C,
    Base58, !RangeOrder string string, !RangeOrder Z tokenBalance}
    (pub : P) (cache : C) updates slot :
  calls pub = [] →
  let p := run low r kinds (NewProcessor pub cache) updates in
  ∃ done_, provisional_swaps slot (log p) = done_ ++ pending_at p slot ∧
  Forall (settled (log p)) done_.
Proof.
  intros Hc p. destruct (Inv_run low r kinds _ updates (Inv_NewProcessor pub cache Hc))
    as (_ & (Hsuf & _ & _) & _). apply Hsuf.
Qed.

Definition example_run (accept : ProtoMessage → bool) (final : SlotStatus) :
    Processor TestPublisher MemorySlotTimeCache :=
  @run id initial_registry initial_programKinds _ _ (TestPublisher_SwapPublisher accept) _ _ _ _
    (@NewProcessor TestPublisher MemorySlotTimeCache [] NewMemorySlotTimeCache)
    (example_updates final).

Lemma provisional_settled_or_pending_witness :
  length (pending_at (example_run refuse_final SLOT_FINALIZED) 77) = 2%nat ∧
  ∃ done_, provisional_swaps 77 (@log _ _ (TestPublisher_SwapPublisher refuse_final)
     (example_run refuse_final SLOT_FINALIZED))
  = done_ ++ pending_at (example_run refuse_final SLOT_FINALIZED) 77.
Proof.
  split; [vm_compute; reflexivity|].
  destruct (@provisional_settled_or_pending id initial_registry initial_programKinds _ _
    (TestPublisher_SwapPublisher refuse_final) _ _ _ _ [] NewMemorySlotTimeCache
    (example_updates SLOT_FINALIZED) 77 eq_refl) as (d & Hd & _).
  exists d. exact Hd.
Defined.

(** C2. Exactly once: as long as the publisher refuses no call, every accepted
    provisional swap of a slot has been published again exactly once, in order,
    or is pending; the final and undo messages, with their flags reset, are the
    settled provisional events themselves. *)
Theorem settled_exactly_once low r kinds {P C} `{SwapPublisher P, SlotTimeCache C,
    Base58, !RangeOrder string string, !RangeOrder Z tokenBalance}
    (pub : P) (cache : C) updates slot :
  calls pub = [] →
  let p := run low r kinds (NewProcessor pub cache) updates in
  Forall (λ c, c.2 = true) (log p) →
  provisional_swaps slot (log p) = settled_swaps slot (log p) ++ pending_at p slot.
Proof.
  intros Hc p Hall. destruct (Inv_run low r kinds _ updates (Inv_NewProcessor pub cache Hc))
    as (_ & (_ & _ & Hexact) & _). by apply Hexact.
Qed.

Lemma settled_exactly_once_witness :
  length (settled_swaps 77 (@log _ _ (TestPublisher_SwapPublisher (λ _, true))
    (example_run (λ _, true) SLOT_DEAD))) = 2%nat.
Proof.
  pose proof (@settled_exactly_once id initial_registry initial_programKinds _ _
    (TestPublisher_SwapPublisher (λ _, true)) _ _ _ _ [] NewMemorySlotTimeCache
    (example_updates SLOT_DEAD) 77 eq_refl) as Heq.
  cbv zeta in Heq. fold (example_run (λ _, true) SLOT_DEAD) in Heq.
  assert (Forall (λ c, c.2 = true) (@log _ _ (TestPublisher_SwapPublisher (λ _, true))
    (example_run (λ _, true) SLOT_DEAD))) as Hall.
  { apply (bool_decide_unpack _). vm_compute. exact I. }
  apply (f_equal length) in Heq; [|exact Hall]. rewrite length_app in Heq.
  assert (length (pending_at (example_run (λ _, true) SLOT_DEAD) 77) = 0%nat) as E0
    by (vm_compute; reflexivity).
  rewrite E0, Nat.add_0_r in Heq. rewrite <- Heq. vm_compute. reflexivity.
Defined.

(** Nothing is invented: a message that is not provisional is a copy of an
    accepted provisional event of the same slot, equal in every field but the two
    flags; and every pending event is a provisional event of its slot. *)
Theorem settled_was_provisional low r kinds {P C} `{SwapPublisher P, SlotTimeCache C,
    Base58, !RangeOrder string string, !RangeOrder Z tokenBalance}
    (pub : P) (cache : C) updates :
  calls pub = [] →
  let p := run low r kinds (NewProcessor pub cache) updates in
  pending_ok p ∧
  ∀ f, PM_Swap f ∈ accepted (log p) → sw_Provisional f = false →
  ∃ e, e ∈ provisional_swaps (sw_Slot f) (log p) ∧ f = sw_set_flags e false (sw_IsUndo f).
Proof.
  intros Hc p. destruct (Inv_run low r kinds _ updates (Inv_NewProcessor pub cache Hc))
    as (Hok & (_ & Hcopy & _) & _). by split.
Qed.

Lemma settled_was_provisional_witness :
  pending_ok (example_run (λ _, true) SLOT_FINALIZED).
Proof.
  apply (@settled_was_provisional id initial_registry initial_programKinds _ _
    (TestPublisher_SwapPublisher (λ _, true)) _ _ _ _ [] NewMemorySlotTimeCache
    (example_updates SLOT_FINALIZED)). reflexivity.
Defined.

(** Settling a slot: [finalizeSlot] and [undoSlot] publish the pending events
    of the slot in order with [Provisional] cleared and [IsUndo] cleared or set;
    when all are accepted the slot has nothing pending any more, and when one is
    refused they stop there, return the error and keep all pending events for the
    next attempt. Other slots, the decoder and the heads are untouched. *)
Theorem settle_slot kinds {P C} `{SwapPublisher P, SlotTimeCache C, Base58,
    !RangeOrder string string, !RangeOrder Z tokenBalance} ctx slot (p : Processor P C)
    (undo : bool) :
  let '(p', r) := (if undo then undoSlot kinds ctx slot p else finalizeSlot kinds ctx slot p) in
  decoder p' = decoder p ∧ blockHeads p' = blockHeads p ∧
  match r with
  | Ok _ => log p' = log p ++ copies undo (pending_at p slot) ∧
            pending p' = delete slot (pending p)
  | Err _ => pending p' = pending p ∧ ∃ pre e post, pending_at p slot = pre ++ e :: post ∧
      log p' = log p ++ copies undo pre ++ [(PM_Swap (sw_set_flags e false undo), false)]
  end.
Proof.
  destruct undo.
  - apply (settleSlot_spec kinds ctx true "publish undo swap: %w" slot p).
  - apply (settleSlot_spec kinds ctx false "publish finalized swap: %w" slot p).
Qed.

(** C20. A transaction: when [handleTransaction] succeeds the transaction's meta and
    then every decoded swap, in order, have been accepted, and each swap is
    appended to the pending events of the transaction's slot; when decoding
    fails nothing is published and only the metrics change. *)
Theorem handleTransaction_effect low r kinds {P C} `{SwapPublisher P, SlotTimeCache C, Base58,
    !RangeOrder string string, !RangeOrder Z tokenBalance} ctx tx (p : Processor P C) :
  let '(p', res) := handleTransaction low r kinds ctx (Some tx) p in
  match DecodeTransaction low r kinds (decoder p) (Some tx) with
  | Ok events =>
    res = Ok tt →
    log p' = log p ++ (match ConvertTxMeta (Some tx) with
                       | Some meta => [(PM_TxMeta meta, true)] | None => [] end)
                   ++ ((λ e, (PM_Swap e, true)) <$> events) ∧
    pending_at p' (ut_Slot tx) = pending_at p (ut_Slot tx) ++ events
  | Err err =>
    res = Err (Wrapf "decode transaction: %w" [] err) ∧
    publisher p' = publisher p ∧ pending p' = pending p ∧ blockHeads p' = blockHeads p ∧
    decoder p' = decoder p ∧
    ∃ program, errors_As_DecodeError err = Some program ∧
    metrics p' = recordError kinds (metrics p) program
  end.
Proof.
  unfold handleTransaction. rewrite M_bind_run. cbn [M_get].
  pose proof (DecodeTransaction_spec low r kinds (decoder p) tx) as Hd.
  destruct (DecodeTransaction low r kinds (decoder p) (Some tx)) as [events|err].
  2:{ destruct Hd as (program & err' & -> & _). simpl. split_and!; try done. by exists program. }
  destruct Hd as [_ Hd].
  assert (filter (λ e : SwapEvent, sw_Slot e = ut_Slot tx) events = events) as Hfilter.
  { clear -Hd. induction Hd as [|e es He _ IH]; [done|]. rewrite filter_cons_True, IH; [done|].
    by destruct He as ((_ & He & _) & _). }
  rewrite M_bind_run. destruct (ConvertTxMeta (Some tx)) as [meta|].
  - unfold call. pose proof (calls_PublishTxMeta ctx meta (publisher p)) as Hc.
    destruct (PublishTxMeta_ ctx (Some meta) (publisher p)) as [pub [[]|err]]; simpl in Hc; [|done].
    simpl. destruct (M_for events (publishEvent kinds ctx) _) as [p' res] eqn:Hl. intros ->.
    apply publish_loop_ok in Hl as [Hlog Hpend]. rewrite Hlog, Hpend, Hfilter. unfold log at 1.
    simpl. rewrite Hc. by rewrite <- app_assoc.
  - simpl. destruct (M_for events (publishEvent kinds ctx) p) as [p' res] eqn:Hl. intros ->.
    apply publish_loop_ok in Hl as [Hlog Hpend]. by rewrite Hlog, Hpend, Hfilter.
Qed.

Definition example_events : result (list SwapEvent) :=
  DecodeTransaction id initial_registry initial_programKinds (decoder example_processor)
    (Some (example_tx [example_instr example_swap_data])).
Definition example_handled : Processor TestPublisher MemorySlotTimeCache * result () :=
  @handleTransaction id initial_registry initial_programKinds _ _
    (TestPublisher_SwapPublisher (λ _, true)) _ _ _ Background
    (Some (example_tx [example_instr example_swap_data])) example_processor.

Lemma handleTransaction_effect_witness :
  length (pending_at example_handled.1 77) = 1%nat ∧
  match example_events with Ok events => pending_at example_handled.1 77 = events | Err _ => False end.
Proof.
  split; [vm_compute; reflexivity|].
  pose proof (@handleTransaction_effect id initial_registry initial_programKinds _ _
    (TestPublisher_SwapPublisher (λ _, true)) _ _ _ _ Background
    (example_tx [example_instr example_swap_data]) example_processor) as Heff.
  fold example_handled in Heff. fold example_events in Heff.
  assert (is_ok example_events = true) as Hok by (vm_compute; reflexivity).
  assert (is_ok example_handled.2 = true) as Hok' by (vm_compute; reflexivity).
  destruct example_handled as [p' res]. destruct example_events as [events|]; [|discriminate].
  destruct res as [[]|]; [|discriminate]. destruct (Heff eq_refl) as [_ Hpend]. exact Hpend.
Defined.
