(* ===== verification/Backfill.v ===== *)
(** * Backfill orchestrator

    [backfill/orchestrator/config.go] and [backfill/orchestrator/orchestrator.go].
    [Run] starts one producer, which cuts the slot span into ranges and sends
    them on an unbuffered channel, and [Concurrency] workers, in an errgroup: the
    first error cancels the context the others watch. It is a step relation: a
    step is one synchronisation (a range handed to a worker, a worker done, an
    exit, the cancellation of the context). The range processor is the caller's:
    any relation between a range and what it may return. *)

From S2P Require Import Prelude GoStrings.
Local Open Scope list_scope.

(** ** config.go *)

Record Config := mkConfig {
  StartSlot : Z;
  EndSlot : Z;
  BatchSize : Z;
  Concurrency : Z;
}.

Definition DefaultConfig : Config := mkConfig 0 0 10000 4.

Definition Validate (c : Config) : result () :=
  if negb (EndSlot c =? 0) && (StartSlot c >=? EndSlot c) then
    Err (Errorf "start slot must be less than end slot" [])
  else if BatchSize c =? 0 then Err (Errorf "batch size must be positive" [])
  else if Concurrency c <=? 0 then Err (Errorf "concurrency must be positive" [])
  else Ok tt.

(** One variable of [FromEnv]: kept when empty, parsed otherwise. *)
Definition env_field (env : string → string) (parse : string → result Z) (name : string)
    (dflt : Z) : result Z :=
  let v := env name in
  if bool_decide (v = "") then Ok dflt
  else wrap_err "invalid %s: %w" [FStr name] (parse v).

Definition FromEnv (env : string → string) : result Config :=
  let cfg := DefaultConfig in
  start ← env_field env ParseUint "BACKFILL_START_SLOT" (StartSlot cfg);
  end_ ← env_field env ParseUint "BACKFILL_END_SLOT" (EndSlot cfg);
  batch ← env_field env ParseUint "BACKFILL_BATCH_SIZE" (BatchSize cfg);
  conc ← env_field env Atoi "BACKFILL_CONCURRENCY" (Concurrency cfg);
  let cfg := mkConfig start end_ batch conc in
  _ ← Validate cfg;
  Ok cfg.

(** ** orchestrator.go *)

Record Range := mkRange { rg_StartSlot : Z; rg_EndSlot : Z }.

#[global] Instance Range_eq_dec : EqDecision Range.
Proof. solve_decision. Defined.

Definition valid (r : Range) : bool := rg_EndSlot r >? rg_StartSlot r.

Definition addWithOverflow (start delta : Z) : Z * bool :=
  if delta =? 0 then (start, false)
  else if MaxUint64 - start <? delta then (MaxUint64, true)
  else (u64 (start + delta), false).

(** [New], the processor being non-nil or not. *)
Definition New (cfg : Config) (has_processor : bool) : result Config :=
  _ ← Validate cfg;
  if has_processor then Ok cfg else Err (Errorf "range processor must not be nil" []).

(** One turn of the producer's loop, from the test of the limit to the send: it
    returns, fails, or sends a range and goes on from its end ([last] when it
    returns right after the send). *)
Inductive turn :=
  | T_Return
  | T_Fail (e : error)
  | T_Send (rng : Range) (last : bool).

Definition producer_turn (cfg : Config) (start : Z) : turn :=
  let limit := EndSlot cfg in
  let hasLimit := negb (limit =? 0) in
  if hasLimit && (start >=? limit) then T_Return
  else
    let '(batchEnd, overflow) := addWithOverflow start (BatchSize cfg) in
    let batchEnd := if hasLimit && (batchEnd >? limit) then limit else batchEnd in
    let rng := mkRange start batchEnd in
    if negb (valid rng) then
      if overflow then T_Return
      else T_Fail (Errorf "invalid range produced: start=%d end=%d" [FInt start; FInt batchEnd])
    else T_Send rng (negb hasLimit && overflow).

(** The ranges an undisturbed producer sends from [start]; [None] when the fuel
    does not suffice. *)
Fixpoint schedule (fuel : nat) (cfg : Config) (start : Z) : option (result (list Range)) :=
  match fuel with
  | O => None
  | S fuel' =>
    match producer_turn cfg start with
    | T_Return => Some (Ok [])
    | T_Fail e => Some (Err e)
    | T_Send rng true => Some (Ok [rng])
    | T_Send rng false =>
      match schedule fuel' cfg (rg_EndSlot rng) with
      | None => None
      | Some rest => Some (cons rng <$> rest)
      end
    end
  end.

(** *** The goroutines *)

Inductive producer := P_Loop (start : Z) | P_Sending (rng : Range) (last : bool) | P_Done.
Inductive worker := W_Idle | W_Working (rng : Range) | W_Done.

Record state := mkState {
  prod_ : producer;
  workers : list worker;
  ctxErr : option error;   (** [ctx.Err()] *)
  groupErr : option error; (** the first error of the errgroup *)
  handed : list Range;     (** received by a worker, in order *)
  processed : list Range;  (** processed without error, in order of completion *)
}.

Definition Canceled : error := Sentinel "context.Canceled".

(** A goroutine returns [err]: the errgroup keeps the first one and cancels. *)
Definition group_error (err : error) (s : state) : state :=
  match groupErr s with
  | Some _ => s
  | None =>
    mkState (prod_ s) (workers s)
      (match ctxErr s with Some e => Some e | None => Some Canceled end)
      (Some err) (handed s) (processed s)
  end.
Definition set_prod (p : producer) (s : state) : state :=
  mkState p (workers s) (ctxErr s) (groupErr s) (handed s) (processed s).
Definition set_worker (i : nat) (w : worker) (s : state) : state :=
  mkState (prod_ s) (<[i := w]> (workers s)) (ctxErr s) (groupErr s) (handed s) (processed s).

Definition initial (cfg : Config) : state :=
  mkState (P_Loop (StartSlot cfg)) (replicate (Z.to_nat (Concurrency cfg)) W_Idle) None None [] [].

Section run.
Context (cfg : Config) (processor : Range → result () → Prop).

Inductive step : state → state → Prop :=
  (* the producer sees the context before a turn, or while it waits to send *)
  | S_ProducerCancelled s start e : prod_ s = P_Loop start → ctxErr s = Some e →
      step s (group_error e (set_prod P_Done s))
  | S_SendCancelled s rng last e : prod_ s = P_Sending rng last → ctxErr s = Some e →
      step s (group_error e (set_prod P_Done s))
  (* a turn of the producer's loop *)
  | S_ProducerReturn s start : prod_ s = P_Loop start → ctxErr s = None →
      producer_turn cfg start = T_Return → step s (set_prod P_Done s)
  | S_ProducerFail s start e : prod_ s = P_Loop start → ctxErr s = None →
      producer_turn cfg start = T_Fail e → step s (group_error e (set_prod P_Done s))
  | S_ProducerSend s start rng last : prod_ s = P_Loop start → ctxErr s = None →
      producer_turn cfg start = T_Send rng last → step s (set_prod (P_Sending rng last) s)
  (* the range is handed to an idle worker *)
  | S_Handoff s i rng last : prod_ s = P_Sending rng last → workers s !! i = Some W_Idle →
      step s (mkState (if last : bool then P_Done else P_Loop (rg_EndSlot rng))
                (<[i := W_Working rng]> (workers s)) (ctxErr s) (groupErr s)
                (handed s ++ [rng]) (processed s))
  (* the processor returns *)
  | S_WorkerOk s i rng : workers s !! i = Some (W_Working rng) → processor rng (Ok tt) →
      step s (mkState (prod_ s) (<[i := W_Idle]> (workers s)) (ctxErr s) (groupErr s)
                (handed s) (processed s ++ [rng]))
  | S_WorkerErr s i rng err : workers s !! i = Some (W_Working rng) → processor rng (Err err) →
      step s (group_error (Wrapf "range %d-%d: %w" [FInt (rg_StartSlot rng); FInt (rg_EndSlot rng)] err)
                (set_worker i W_Done s))
  (* the channel is closed when the producer has returned *)
  | S_WorkerExit s i : workers s !! i = Some W_Idle → prod_ s = P_Done →
      step s (set_worker i W_Done s).

(** The parent context is cancelled or its deadline passes. *)
Inductive cancel : state → state → Prop :=
  | S_Cancel s e : ctxErr s = None →
      cancel s (mkState (prod_ s) (workers s) (Some e) (groupErr s) (handed s) (processed s)).

Definition any_step (s s' : state) : Prop := step s s' ∨ cancel s s'.

(** All goroutines have returned: [g.Wait] returns. *)
Definition finished (s : state) : Prop := prod_ s = P_Done ∧ Forall (λ w, w = W_Done) (workers s).

Definition run_result (s : state) : result () :=
  match groupErr s with
  | Some err => Err (if errors_Is err "context.Canceled" then Canceled else err)
  | None => Ok tt
  end.

Definition reachable (s : state) : Prop := rtc any_step (initial cfg) s.

End run.

(** ** Partitions of a span *)

(** [rs] are consecutive non-empty ranges from [a] to [b], of at most [n] slots. *)
Fixpoint covers (n a b : Z) (rs : list Range) : Prop :=
  match rs with
  | [] => a = b
  | r :: rs' =>
    rg_StartSlot r = a ∧ a < rg_EndSlot r <= a + n ∧ covers n (rg_EndSlot r) b rs'
  end.

Definition in_range (slot : Z) (r : Range) : Prop := rg_StartSlot r <= slot < rg_EndSlot r.
#[global] Instance in_range_dec slot r : Decision (in_range slot r).
Proof. unfold in_range. apply _. Defined.

(** How many of the ranges hold the slot. *)
Definition hits (slot : Z) (rs : list Range) : nat := length (filter (in_range slot) rs).

Lemma hits_cons slot r rs :
  hits slot (r :: rs) = ((if bool_decide (in_range slot r) then 1 else 0) + hits slot rs)%nat.
Proof.
  unfold hits. destruct (decide (in_range slot r)).
  - by rewrite filter_cons_True, bool_decide_eq_true_2.
  - by rewrite filter_cons_False, bool_decide_eq_false_2.
Qed.
Lemma hits_app slot l1 l2 : hits slot (l1 ++ l2) = (hits slot l1 + hits slot l2)%nat.
Proof. unfold hits. by rewrite filter_app, length_app. Qed.
#[global] Instance hits_proper slot : Proper ((≡ₚ) ==> (=)) (hits slot).
Proof. intros l1 l2 Hp. unfold hits. by rewrite Hp. Qed.

Lemma covers_le n a b rs : covers n a b rs → a <= b.
Proof.
  revert a. induction rs as [|r rs IH]; intros a; [simpl; lia|].
  intros (_ & Hr & Hc). apply IH in Hc. lia.
Qed.

Lemma covers_snoc n a b rs r :
  covers n a b rs → rg_StartSlot r = b → b < rg_EndSlot r <= b + n →
  covers n a (rg_EndSlot r) (rs ++ [r]).
Proof.
  revert a. induction rs as [|r' rs IH]; intros a; simpl.
  - intros <- ? ?. auto.
  - intros (? & ? & ?) ? ?. split_and!; try done; try lia. by apply IH.
Qed.

(** Every slot of the span is in exactly one range, every other slot in none. *)
Lemma covers_hits n a b rs slot :
  covers n a b rs → hits slot rs = if bool_decide (a <= slot < b) then 1%nat else 0%nat.
Proof.
  revert a. induction rs as [|r rs IH]; intros a; simpl.
  - intros <-. rewrite bool_decide_eq_false_2; [done|lia].
  - intros (Hs & Hr & Hc). pose proof (covers_le _ _ _ _ Hc) as Hle. specialize (IH _ Hc).
    rewrite hits_cons, IH. unfold in_range. repeat case_bool_decide; lia.
Qed.

(** ** The producer *)

Section valid_config.
Context (cfg : Config).
Context (Hstart : is_u64 (StartSlot cfg)) (Hend : is_u64 (EndSlot cfg))
  (Hbatch : is_u64 (BatchSize cfg)) (Hvalid : Validate cfg = Ok tt).

(** The end of the span: the configured one, or the top of [uint64]. *)
Definition span_end : Z := if EndSlot cfg =? 0 then MaxUint64 else EndSlot cfg.

Lemma valid_facts : 0 < BatchSize cfg ∧ 0 < Concurrency cfg ∧ StartSlot cfg <= span_end.
Proof.
  unfold Validate in Hvalid. unfold span_end, is_u64, MaxUint64 in *. rewrite Z.geb_leb in Hvalid.
  destruct (Z.eqb_spec (EndSlot cfg) 0), (Z.leb_spec (EndSlot cfg) (StartSlot cfg)),
    (Z.eqb_spec (BatchSize cfg) 0), (Z.leb_spec (Concurrency cfg) 0); simpl in Hvalid; try done; lia.
Qed.

Lemma producer_turn_spec start :
  0 <= start <= span_end →
  producer_turn cfg start
  = if start =? span_end then T_Return
    else T_Send (mkRange start (Z.min (start + BatchSize cfg) span_end))
           ((EndSlot cfg =? 0) && (MaxUint64 <? start + BatchSize cfg)).
Proof.
  destruct valid_facts as (Hb & _ & _). unfold producer_turn, addWithOverflow, span_end, valid.
  unfold is_u64, MaxUint64 in *. simpl. intros Hs. rewrite Z.geb_leb, ?Z.gtb_ltb.
  destruct (Z.eqb_spec (BatchSize cfg) 0); [lia|].
  assert (∀ z, 0 <= z <= 2 ^ 64 - 1 → u64 z = z) as Hu by (intros; apply u64_small; unfold is_u64; lia).
  destruct (Z.eqb_spec (EndSlot cfg) 0) as [E|E]; cbn [negb andb].
  - destruct (Z.ltb_spec (2 ^ 64 - 1 - start) (BatchSize cfg)).
    + rewrite ?Z.gtb_ltb; simpl. destruct (Z.eqb_spec start (2 ^ 64 - 1)), (Z.ltb_spec start (2 ^ 64 - 1));
        try lia; cbn [negb andb]; [done|].
      destruct (Z.ltb_spec (2 ^ 64 - 1) (start + BatchSize cfg)); [|lia].
      by rewrite Z.min_r by lia.
    + rewrite Hu, ?Z.gtb_ltb by lia; simpl. destruct (Z.eqb_spec start (2 ^ 64 - 1)); [lia|].
      destruct (Z.ltb_spec start (start + BatchSize cfg)); [|lia]. cbn [negb andb].
      destruct (Z.ltb_spec (2 ^ 64 - 1) (start + BatchSize cfg)); [lia|].
      by rewrite Z.min_l by lia.
  - destruct (Z.leb_spec (EndSlot cfg) start), (Z.eqb_spec start (EndSlot cfg)); try lia; [done|].
    destruct (Z.ltb_spec (2 ^ 64 - 1 - start) (BatchSize cfg)).
    + rewrite ?Z.gtb_ltb; simpl. destruct (Z.ltb_spec (EndSlot cfg) (2 ^ 64 - 1)).
      * destruct (Z.ltb_spec start (EndSlot cfg)); [|lia]. cbn [negb]. by rewrite Z.min_r by lia.
      * destruct (Z.ltb_spec start (2 ^ 64 - 1)); [|lia]. cbn [negb]. rewrite Z.min_r by lia.
        do 2 f_equal. lia.
    + rewrite Hu, ?Z.gtb_ltb by lia; simpl. destruct (Z.ltb_spec (EndSlot cfg) (start + BatchSize cfg)).
      * destruct (Z.ltb_spec start (EndSlot cfg)); [|lia]. cbn [negb]. by rewrite Z.min_r by lia.
      * destruct (Z.ltb_spec start (start + BatchSize cfg)); [|lia]. cbn [negb].
        by rewrite Z.min_l by lia.
Qed.

(** What a turn of the loop may be, from a point of the span. *)
Lemma producer_turn_cases start :
  0 <= start <= span_end →
  (producer_turn cfg start = T_Return ∧ start = span_end) ∨
  ∃ rng last, producer_turn cfg start = T_Send rng last ∧ rg_StartSlot rng = start ∧
    start < rg_EndSlot rng <= start + BatchSize cfg ∧ rg_EndSlot rng <= span_end ∧
    (rg_EndSlot rng = start + BatchSize cfg ∨ rg_EndSlot rng = span_end) ∧
    (last = true → rg_EndSlot rng = span_end).
Proof.
  intros Hs. destruct valid_facts as (Hb & _ & _). rewrite producer_turn_spec by done.
  destruct (Z.eqb_spec start span_end); [by left|right].
  do 2 eexists. split; [done|]. simpl. split_and!; try done; try lia.
  unfold span_end in *. destruct (Z.eqb_spec (EndSlot cfg) 0); simpl; [|done].
  intros ?%Z.ltb_lt. lia.
Qed.

Lemma schedule_covers fuel start :
  0 <= start <= span_end →
  (span_end - start + BatchSize cfg - 1) / BatchSize cfg < Z.of_nat fuel →
  ∃ rs, schedule fuel cfg start = Some (Ok rs) ∧ covers (BatchSize cfg) start span_end rs.
Proof.
  destruct valid_facts as (Hb & _ & _). revert start.
  induction fuel as [|fuel IH]; intros start Hs Hf.
  { pose proof (Z.div_pos (span_end - start + BatchSize cfg - 1) (BatchSize cfg)). lia. }
  cbn [schedule].
  destruct (producer_turn_cases start Hs) as [[-> ->]|(rng & last & -> & H1 & H2 & H3 & H4 & H5)].
  { by exists []. }
  destruct last.
  { exists [rng]. specialize (H5 eq_refl). simpl. split_and!; done || lia. }
  destruct H4 as [H4|H4].
  - destruct (IH (rg_EndSlot rng)) as (rs & -> & Hc); [lia| |].
    + replace (span_end - start + BatchSize cfg - 1)
        with (span_end - rg_EndSlot rng + BatchSize cfg - 1 + 1 * BatchSize cfg) in Hf by lia.
      rewrite Z.div_add in Hf by lia. lia.
    + exists (rng :: rs). by simpl.
  - destruct (IH (rg_EndSlot rng)) as (rs & -> & Hc); [lia| |].
    + pose proof (Z.div_str_pos (span_end - start + BatchSize cfg - 1) (BatchSize cfg)).
      rewrite H4, Z.sub_diag, Z.add_0_l, Z.div_small by lia. lia.
    + exists (rng :: rs). by simpl.
Qed.

(** ** The invariant of a run *)

Definition worker_range (w : worker) : option Range :=
  match w with W_Working r => Some r | _ => None end.
Definition working (s : state) : list Range := omap worker_range (workers s).

(** Where the producer is: the end of the last handed range. *)
Definition position_ok (s : state) (pos : Z) : Prop :=
  match prod_ s with
  | P_Loop start => start = pos
  | P_Sending rng last => rg_StartSlot rng = pos ∧ pos < rg_EndSlot rng <= pos + BatchSize cfg ∧
      rg_EndSlot rng <= span_end ∧ (last = true → rg_EndSlot rng = span_end)
  | P_Done => groupErr s = None → pos = span_end
  end.

Record Inv (s : state) : Prop := {
  inv_handed : ∃ pos, covers (BatchSize cfg) (StartSlot cfg) pos (handed s) ∧ pos <= span_end ∧
    position_ok s pos;
  inv_accounted : ∃ failed, handed s ≡ₚ processed s ++ working s ++ failed ∧
    (groupErr s = None → failed = []);
  inv_ctx : groupErr s ≠ None → ctxErr s ≠ None;
  inv_workers : length (workers s) = Z.to_nat (Concurrency cfg);
  inv_done : groupErr s = None → prod_ s ≠ P_Done → W_Done ∉ workers s;
}.

Lemma working_update s i w w' :
  workers s !! i = Some w →
  omap worker_range (<[i := w']> (workers s)) ++ option_list (worker_range w)
  ≡ₚ working s ++ option_list (worker_range w').
Proof.
  unfold working. generalize (workers s) as ws. intros ws. revert i.
  induction ws as [|x ws IH]; intros [|i] Hi; simplify_eq/=.
  - destruct (worker_range w), (worker_range w'); simpl; rewrite ?app_nil_r; try done.
    + rewrite <- !Permutation_cons_append. constructor.
    + by rewrite <- Permutation_cons_append.
    + by rewrite <- Permutation_cons_append.
  - destruct (worker_range x); simpl; [constructor|]; by apply IH.
Qed.

Lemma group_error_prod e s : prod_ (group_error e s) = prod_ s.
Proof. unfold group_error. by destruct (groupErr s). Qed.
Lemma group_error_workers e s : workers (group_error e s) = workers s.
Proof. unfold group_error. by destruct (groupErr s). Qed.
Lemma group_error_lists e s :
  handed (group_error e s) = handed s ∧ processed (group_error e s) = processed s.
Proof. unfold group_error. by destruct (groupErr s). Qed.
Lemma group_error_Some e s : groupErr (group_error e s) ≠ None.
Proof. unfold group_error. by destruct (groupErr s) eqn:E; simpl; rewrite ?E. Qed.
Lemma group_error_ctx e s :
  (groupErr s ≠ None → ctxErr s ≠ None) → ctxErr (group_error e s) ≠ None.
Proof.
  unfold group_error. destruct (groupErr s) eqn:E; [intros H; by apply H|].
  intros _. simpl. by destruct (ctxErr s).
Qed.

(** A goroutine that fails: the group has an error, and the range it was working
    on, if any, is neither processed nor in work. *)
Lemma Inv_group_error e s s' lost :
  Inv s → length (workers s') = length (workers s) →
  handed s' = handed s → processed s' = processed s → ctxErr s' = ctxErr s → groupErr s' = groupErr s → working s ≡ₚ working s' ++ lost →
  prod_ s' = P_Done ∨ prod_ s' = prod_ s → Inv (group_error e s').
Proof.
  intros [(pos & Hc & Hle & Hpos) (failed & Hacc & _) Hctx Hlen _] Hl Hh Hp Hce Hge Hw Hprod.
  destruct (group_error_lists e s') as [Eh Ep].
  pose proof (group_error_Some e s') as HSome. split.
  - exists pos. rewrite Eh, Hh. split; [done|]. split; [done|].
    unfold position_ok in *. rewrite group_error_prod.
    destruct Hprod as [-> | ->]; [by intros ?%HSome|].
    destruct (prod_ s); [done|done|by intros ?%HSome].
  - exists (lost ++ failed). rewrite Eh, Ep, Hh, Hp. unfold working at 1.
    rewrite group_error_workers. fold (working s'). split; [|by intros ?%HSome].
    rewrite Hacc, Hw. by rewrite !app_assoc.
  - intros _. apply group_error_ctx. by rewrite Hge, Hce.
  - by rewrite group_error_workers, Hl.
  - by intros ?%HSome.
Qed.

Context (processor : Range → result () → Prop).

Lemma Inv_initial : Inv (initial cfg).
Proof.
  destruct valid_facts as (_ & _ & Hle). split; simpl.
  - exists (StartSlot cfg). split_and!; done.
  - exists []. unfold working. simpl. rewrite app_nil_r. split; [|done].
    assert (∀ n, omap worker_range (replicate n W_Idle) = []) as -> by (by induction n).
    done.
  - done.
  - apply length_replicate.
  - by intros _ _ [? _]%elem_of_replicate.
Qed.

(** A producer that goes on keeps the workers as they are. *)
Lemma Inv_set_prod p s :
  Inv s → (∀ pos, covers (BatchSize cfg) (StartSlot cfg) pos (handed s) → pos <= span_end →
    position_ok s pos → position_ok (set_prod p s) pos) →
  prod_ s ≠ P_Done → Inv (set_prod p s).
Proof.
  intros [(pos & Hc & Hle & Hpos) H2 H3 H4 H5] Hp Hn. split; try done.
  - exists pos. split_and!; try done. by apply Hp.
  - intros Hg _. by apply H5.
Qed.

(** A worker that changes state without an error. *)
Lemma not_done_update (ws : list worker) i w :
  W_Done ∉ ws → w ≠ W_Done → W_Done ∉ <[i := w]> ws.
Proof.
  intros Hws Hw Hin. apply list_elem_of_lookup in Hin as [j Hj].
  apply list_lookup_insert_Some in Hj as [(_ & Heq & _)|[_ Hj]]; [done|].
  apply Hws. by eapply list_elem_of_lookup_2.
Qed.

Lemma turn_at pos start s :
  covers (BatchSize cfg) (StartSlot cfg) pos (handed s) → pos <= span_end →
  prod_ s = P_Loop start → position_ok s pos → start = pos ∧ 0 <= pos <= span_end.
Proof.
  unfold position_ok, is_u64 in *. intros Hc Hle -> ->. apply covers_le in Hc. lia.
Qed.

Lemma Inv_step s s' : Inv s → step cfg processor s s' → Inv s'.
Proof.
  intros HI Hstep.
  destruct Hstep as [s start e Hp Hctx|s rng last e Hp Hctx|s start Hp Hctx Ht
    |s start e Hp Hctx Ht|s start rng last Hp Hctx Ht|s i rng last Hp Hw|s i rng Hw Hproc
    |s i rng err Hw Hproc|s i Hw Hp].
  - eapply (Inv_group_error _ s _ []); try done; [by rewrite app_nil_r|by left].
  - eapply (Inv_group_error _ s _ []); try done; [by rewrite app_nil_r|by left].
  - apply Inv_set_prod; [done| |congruence]. intros pos Hc Hle Hpos.
    destruct (turn_at pos start s) as [-> Hr]; [done..|]. intros _.
    by destruct (producer_turn_cases pos Hr) as [[_ ?]|(? & ? & ? & _)]; [|congruence].
  - exfalso. destruct HI as [(pos & Hc & Hle & Hpos) _ _ _ _].
    destruct (turn_at pos start s) as [-> Hr]; [done..|].
    destruct (producer_turn_cases pos Hr) as [[? _]|(? & ? & ? & _)]; congruence.
  - apply Inv_set_prod; [done| |congruence]. intros pos Hc Hle Hpos.
    destruct (turn_at pos start s) as [-> Hr]; [done..|].
    destruct (producer_turn_cases pos Hr) as [[? _]|(r & l & Hrl & H1' & H2' & H3' & _ & H5')];
      [congruence|]. rewrite Ht in Hrl. by injection Hrl as <- <-.
  - destruct HI as [(pos & Hc & Hle & Hpos) (failed & Hacc & Hf) H3 H4 H5].
    unfold position_ok in Hpos. rewrite Hp in Hpos. destruct Hpos as (Hs & Hr & Hre & Hl).
    split; [| |done|by simpl; rewrite length_insert|].
    + exists (rg_EndSlot rng). simpl. split; [by apply (covers_snoc _ _ pos)|]. split; [done|].
      unfold position_ok. simpl. destruct last; [|done]. auto.
    + exists failed. simpl. split; [|done].
      pose proof (working_update s i W_Idle (W_Working rng) Hw) as Hu. simpl in Hu.
      rewrite app_nil_r in Hu. unfold working at 1. simpl. rewrite Hacc, Hu. solve_Permutation.
    + simpl. intros Hg _. apply not_done_update; [|done]. apply H5; [done|congruence].
  - destruct HI as [H1 (failed & Hacc & Hf) H3 H4 H5].
    split; [done| |done|by simpl; rewrite length_insert|].
    + exists failed. simpl. split; [|done].
      pose proof (working_update s i (W_Working rng) W_Idle Hw) as Hu. simpl in Hu.
      rewrite app_nil_r in Hu. unfold working at 1. simpl. rewrite Hacc, <- Hu. solve_Permutation.
    + simpl. intros Hg Hn. apply not_done_update; [|done]. by apply H5.
  - eapply (Inv_group_error _ s _ [rng]); try done; [by simpl; rewrite length_insert| |by right].
    pose proof (working_update s i (W_Working rng) W_Done Hw) as Hu. simpl in Hu.
    rewrite app_nil_r in Hu. by rewrite <- Hu.
  - destruct HI as [H1 (failed & Hacc & Hf) H3 H4 H5].
    split; [done| |done|by simpl; rewrite length_insert|by simpl].
    exists failed. simpl. split; [|done].
    pose proof (working_update s i W_Idle W_Done Hw) as Hu. simpl in Hu.
    rewrite !app_nil_r in Hu. unfold working at 1. simpl. by rewrite Hu.
Qed.

Lemma Inv_any_step s s' : Inv s → any_step cfg processor s s' → Inv s'.
Proof.
  intros HI [Hs|Hc]; [by eapply Inv_step|].
  destruct Hc as [s e _], HI as [H1 H2 H3 H4 H5]. by split.
Qed.

Lemma Inv_reachable s : reachable cfg processor s → Inv s.
Proof.
  unfold reachable. pose proof Inv_initial as HI. revert HI. generalize (initial cfg) as s0.
  intros s0 HI Hr. induction Hr; eauto using Inv_any_step.
Qed.

(** ** Termination and progress *)

Definition producer_weight (p : producer) : Z :=
  match p with
  | P_Loop start => 4 * (span_end - start) + 2
  | P_Sending rng _ => 4 * (span_end - rg_StartSlot rng) + 1
  | P_Done => 0
  end.
Definition worker_weight (w : worker) : Z :=
  match w with W_Idle => 1 | W_Working _ => 2 | W_Done => 0 end.
Definition workers_weight (ws : list worker) : Z := foldr (λ w n, worker_weight w + n) 0 ws.
(** No execution from [s] has more steps than this. *)
Definition measure (s : state) : Z :=
  producer_weight (prod_ s) + workers_weight (workers s)
  + (if ctxErr s then 0 else 1).

Lemma workers_weight_update ws i w w' :
  ws !! i = Some w →
  workers_weight (<[i := w']> ws) + worker_weight w = workers_weight ws + worker_weight w'.
Proof.
  unfold workers_weight. revert i. induction ws as [|x ws IH]; intros [|i] Hi; simplify_eq/=; [lia|].
  specialize (IH i Hi). lia.
Qed.
Lemma workers_weight_nonneg ws : 0 <= workers_weight ws.
Proof. induction ws as [|[] ws IH]; simpl; lia. Qed.

Lemma measure_nonneg s : Inv s → 0 <= measure s.
Proof.
  intros [(pos & Hc & Hle & Hpos) _ _ _ _]. unfold measure. pose proof (workers_weight_nonneg (workers s)).
  unfold position_ok in Hpos. destruct (prod_ s), (ctxErr s); simpl in *; lia.
Qed.

Lemma measure_group_error e s : measure (group_error e s) <= measure s.
Proof. unfold measure, group_error. by destruct (groupErr s), (ctxErr s); simpl; lia. Qed.

Lemma measure_step s s' : Inv s → any_step cfg processor s s' → measure s' < measure s.
Proof.
  intros HI [Hstep|[s0 e Hctx]].
  2:{ unfold measure. simpl. rewrite Hctx. lia. }
  destruct HI as [(pos & Hc & Hle & Hpos) _ _ _ _]. unfold position_ok in Hpos.
  destruct Hstep as [s start e Hp Hctx|s rng last e Hp Hctx|s start Hp Hctx Ht
    |s start e Hp Hctx Ht|s start rng last Hp Hctx Ht|s i rng last Hp Hw|s i rng Hw Hproc
    |s i rng err Hw Hproc|s i Hw Hp]; try rewrite Hp in Hpos; simpl in Hpos.
  - eapply Z.le_lt_trans; [apply measure_group_error|]. unfold measure. simpl. rewrite Hp. simpl. lia.
  - eapply Z.le_lt_trans; [apply measure_group_error|]. unfold measure. simpl. rewrite Hp. simpl. lia.
  - unfold measure. simpl. rewrite Hp. simpl. lia.
  - eapply Z.le_lt_trans; [apply measure_group_error|]. unfold measure. simpl. rewrite Hp. simpl. lia.
  - subst pos. pose proof (covers_le _ _ _ _ Hc). unfold is_u64 in *.
    destruct (producer_turn_cases start) as [[? _]|(r & l & Hrl & H1' & _)]; [lia|congruence|].
    rewrite Ht in Hrl. injection Hrl as <- <-. unfold measure. simpl. rewrite Hp. simpl. lia.
  - pose proof (workers_weight_update (workers s) i W_Idle (W_Working rng) Hw) as Hu. simpl in Hu.
    unfold measure. simpl. rewrite Hp. destruct last; simpl; lia.
  - pose proof (workers_weight_update (workers s) i (W_Working rng) W_Idle Hw) as Hu. simpl in Hu.
    unfold measure. simpl. lia.
  - eapply Z.le_lt_trans; [apply measure_group_error|].
    pose proof (workers_weight_update (workers s) i (W_Working rng) W_Done Hw) as Hu. simpl in Hu.
    unfold measure. simpl. lia.
  - pose proof (workers_weight_update (workers s) i W_Idle W_Done Hw) as Hu. simpl in Hu.
    unfold measure. simpl. lia.
Qed.

Lemma nsteps_measure n s s' :
  Inv s → nsteps (any_step cfg processor) n s s' → Z.of_nat n + measure s' <= measure s ∧ Inv s'.
Proof.
  intros HI Hn. induction Hn as [|n s1 s2 s3 Hs Hn IH]; [split; [lia|done]|].
  pose proof (measure_step _ _ HI Hs). apply Inv_any_step in Hs; [|done].
  destruct (IH Hs). split; [lia|done].
Qed.

(** Among workers that are not all done, one is idle or working. *)
Lemma active_worker (ws : list worker) :
  Forall (λ w, w = W_Done) ws ∨ (∃ i, ws !! i = Some W_Idle) ∨ ∃ i r, ws !! i = Some (W_Working r).
Proof.
  induction ws as [|[|r|] ws IH]; [by left| | |].
  - right. left. by exists 0%nat.
  - right. right. by exists 0%nat, r.
  - destruct IH as [IH|[[i Hi]|(i & r & Hi)]]; [left; by constructor| |].
    + right. left. by exists (S i).
    + right. right. by exists (S i), r.
Qed.

Lemma progress s :
  (∀ r, ∃ res, processor r res) → Inv s → finished s ∨ ∃ s', step cfg processor s s'.
Proof.
  intros Htotal HI. destruct valid_facts as (_ & Hconc & _).
  pose proof HI as [(pos & Hc & Hle & Hpos) _ Hctx Hlen Hdone].
  assert ((∃ i r, workers s !! i = Some (W_Working r)) → ∃ s', step cfg processor s s') as Hwork.
  { intros (i & r & Hi). destruct (Htotal r) as [[[]|e] Hr]; eexists; [by eapply S_WorkerOk|].
    by eapply S_WorkerErr. }
  destruct (prod_ s) as [start|rng last|] eqn:Hp.
  - right. destruct (ctxErr s) as [e|] eqn:He; [eexists; by eapply S_ProducerCancelled|].
    destruct (turn_at pos start s) as [-> Hr]; [done..|].
    destruct (producer_turn_cases pos Hr) as [[Ht _]|(r & l & Ht & _)]; eexists.
    + by eapply S_ProducerReturn.
    + by eapply S_ProducerSend.
  - right. destruct (ctxErr s) as [e|] eqn:He; [eexists; by eapply S_SendCancelled|].
    destruct (active_worker (workers s)) as [Hall|[[i Hi]|Hw]]; [|eexists; by eapply S_Handoff|by apply Hwork].
    exfalso. assert (groupErr s = None) as Hg.
    { destruct (groupErr s) eqn:Hg; [|done]. by destruct (Hctx ltac:(done)). }
    destruct (workers s) as [|w ws] eqn:Hws; [simpl in Hlen; lia|].
    apply Forall_cons in Hall as [-> _]. apply (Hdone Hg); [done|left].
  - destruct (active_worker (workers s)) as [Hall|[[i Hi]|Hw]].
    + left. by split.
    + right. eexists. by eapply S_WorkerExit.
    + right. by apply Hwork.
Qed.

Lemma workers_weight_initial n : workers_weight (replicate n W_Idle) = Z.of_nat n.
Proof. induction n as [|n IH]; [done|]. cbn [replicate workers_weight foldr]. fold (workers_weight (replicate n W_Idle)). rewrite IH. simpl. lia. Qed.

Lemma finished_working s : finished s → working s = [].
Proof.
  intros [_ Hall]. unfold working. induction Hall as [|w ws -> _ IH]; [done|]. done.
Qed.

End valid_config.

(** ** Properties *)

(** C22. The producer cuts the span into consecutive batches: with a validated
    configuration it never reports an invalid range, it ends within one turn per
    batch and a last one, and every slot from the start to the end (the top of
    [uint64] when no end is configured) lies in exactly one range, every other
    slot in none. *)
Theorem schedule_partition cfg fuel :
  is_u64 (StartSlot cfg) → is_u64 (EndSlot cfg) → is_u64 (BatchSize cfg) →
  Validate cfg = Ok tt →
  (span_end cfg - StartSlot cfg + BatchSize cfg - 1) / BatchSize cfg < Z.of_nat fuel →
  ∃ rs, schedule fuel cfg (StartSlot cfg) = Some (Ok rs) ∧
  covers (BatchSize cfg) (StartSlot cfg) (span_end cfg) rs ∧
  ∀ slot, hits slot rs
    = if bool_decide (StartSlot cfg <= slot < span_end cfg) then 1%nat else 0%nat.
Proof.
  intros Hs He Hb Hv Hf. destruct (valid_facts cfg Hs He Hb Hv) as (_ & _ & Hle).
  destruct (schedule_covers cfg Hs He Hb Hv fuel (StartSlot cfg)) as (rs & Hrs & Hc);
    [unfold is_u64 in *; lia|done|].
  exists rs. split_and!; try done. intros slot. by apply (covers_hits (BatchSize cfg)).
Qed.

Definition example_config : Config := mkConfig 5 12 3 1.

Lemma schedule_partition_witness :
  schedule 4 example_config 5 = Some (Ok [mkRange 5 8; mkRange 8 11; mkRange 11 12]) ∧
  ∃ rs, schedule 4 example_config 5 = Some (Ok rs) ∧ hits 10 rs = 1%nat.
Proof.
  split; [vm_compute; reflexivity|].
  destruct (schedule_partition example_config 4) as (rs & Hrs & _ & Hhits);
    [unfold is_u64; simpl; lia..|reflexivity|vm_compute; reflexivity|].
  exists rs. split; [exact Hrs|]. rewrite Hhits. reflexivity.
Defined.

(** C4. When [Run] returns without an error, every range of the partition was
    handed out and processed successfully: the processed ranges are a reordering
    of consecutive batches that cover the whole span. *)
Theorem run_complete cfg processor s :
  is_u64 (StartSlot cfg) → is_u64 (EndSlot cfg) → is_u64 (BatchSize cfg) →
  Validate cfg = Ok tt →
  reachable cfg processor s → finished s → run_result s = Ok tt →
  covers (BatchSize cfg) (StartSlot cfg) (span_end cfg) (handed s) ∧ processed s ≡ₚ handed s ∧
  ∀ slot, StartSlot cfg <= slot < span_end cfg → hits slot (processed s) = 1%nat.
Proof.
  intros Hs He Hb Hv Hr Hfin Hres.
  destruct (Inv_reachable cfg Hs He Hb Hv processor s Hr)
    as [(pos & Hc & Hle & Hpos) (failed & Hacc & Hfl) _ _ _].
  unfold run_result in Hres. destruct (groupErr s) eqn:Hg; [done|].
  rewrite (finished_working s Hfin), Hfl, !app_nil_r in Hacc by done.
  unfold position_ok in Hpos. rewrite (proj1 Hfin) in Hpos. rewrite (Hpos Hg) in Hc.
  split_and!; [done|by symmetry|]. intros slot Hslot. rewrite <- Hacc.
  rewrite (covers_hits _ _ _ _ slot Hc). by rewrite (bool_decide_eq_true_2 _ Hslot).
Qed.

(** A run with one worker. *)
Definition example_span : Config := mkConfig 5 7 2 1.
Definition example_final : state :=
  mkState P_Done [W_Done] None None [mkRange 5 7] [mkRange 5 7].
Lemma example_reachable : reachable example_span (λ _ res, res = Ok tt) example_final.
Proof.
  unfold reachable.
  eapply rtc_l; [left; eapply S_ProducerSend; reflexivity|].
  eapply rtc_l; [left; eapply (S_Handoff _ _ _ 0); reflexivity|].
  eapply rtc_l; [left; eapply (S_WorkerOk _ _ _ 0); reflexivity|].
  eapply rtc_l; [left; eapply S_ProducerReturn; reflexivity|].
  eapply rtc_l; [left; eapply (S_WorkerExit _ _ _ 0); reflexivity|].
  apply rtc_refl.
Qed.

Lemma run_complete_witness : processed example_final ≡ₚ handed example_final.
Proof.
  apply (run_complete example_span (λ _ res, res = Ok tt) example_final).
  1-3: unfold is_u64; simpl; lia.
  - reflexivity.
  - exact example_reachable.
  - split; [reflexivity|]. by repeat constructor.
  - reflexivity.
Defined.

(** C23. At any point of any run, errors and cancellation included: the ranges
    handed to workers are consecutive from the start slot, so no slot is handed
    out or processed twice, and while no goroutine has failed every handed range
    is processed or in work. *)
Theorem run_no_overlap cfg processor s :
  is_u64 (StartSlot cfg) → is_u64 (EndSlot cfg) → is_u64 (BatchSize cfg) →
  Validate cfg = Ok tt → reachable cfg processor s →
  (∃ pos, covers (BatchSize cfg) (StartSlot cfg) pos (handed s) ∧ pos <= span_end cfg) ∧
  (∀ slot, (hits slot (processed s) <= hits slot (handed s) <= 1)%nat) ∧
  (groupErr s = None → handed s ≡ₚ processed s ++ working s).
Proof.
  intros Hs He Hb Hv Hr.
  destruct (Inv_reachable cfg Hs He Hb Hv processor s Hr)
    as [(pos & Hc & Hle & _) (failed & Hacc & Hfl) _ _ _].
  split; [by exists pos|]. split.
  - intros slot. rewrite (covers_hits _ _ _ _ slot Hc) at 2. split.
    + rewrite Hacc, hits_app. lia.
    + case_bool_decide; lia.
  - intros Hg. rewrite (Hfl Hg), app_nil_r in Hacc. done.
Qed.

Lemma run_no_overlap_witness : (hits 6 (processed example_final) <= 1)%nat.
Proof.
  destruct (run_no_overlap example_span (λ _ res, res = Ok tt) example_final) as (_ & H1 & _).
  1-3: unfold is_u64; simpl; lia.
  - reflexivity.
  - exact example_reachable.
  - etrans; apply (H1 6).
Defined.

(** C21. [Run] returns: no execution has more steps than four per slot of the span
    and a few per goroutine, and as long as the processor returns on every range,
    a state where some goroutine is still running always has a next step other
    than an outside cancellation: there is no deadlock on the channel. *)
Theorem run_terminates cfg (processor : Range → result () → Prop) n s :
  is_u64 (StartSlot cfg) → is_u64 (EndSlot cfg) → is_u64 (BatchSize cfg) →
  Validate cfg = Ok tt → (∀ r, ∃ res, processor r res) →
  nsteps (any_step cfg processor) n (initial cfg) s →
  Z.of_nat n <= 4 * (span_end cfg - StartSlot cfg) + Concurrency cfg + 3 ∧
  (finished s ∨ ∃ s', step cfg processor s s').
Proof.
  intros Hs He Hb Hv Htotal Hn. destruct (valid_facts cfg Hs He Hb Hv) as (_ & Hc & Hle).
  pose proof (Inv_initial cfg Hs He Hb Hv) as HI.
  destruct (nsteps_measure cfg Hs He Hb Hv processor n _ s HI Hn) as [Hm HI'].
  pose proof (measure_nonneg cfg s HI') as Hnn. split; [|by apply progress].
  unfold measure in Hm at 2. simpl in Hm. rewrite workers_weight_initial in Hm. lia.
Qed.

Lemma run_terminates_witness :
  finished (initial example_span) ∨
  ∃ s', step example_span (λ _ res, res = Ok tt) (initial example_span) s'.
Proof.
  apply (run_terminates example_span (λ _ res, res = Ok tt) 0).
  1-3: unfold is_u64; simpl; lia.
  - reflexivity.
  - intros r. exists (Ok tt). reflexivity.
  - constructor.
Defined.
