(* ===== verification/Bridge.v ===== *)
(** * Legacy bridge

    [bridge/config.go], [bridge/mapping.go] and [bridge/service.go]: subject
    translation by prefix rules, durable names, and the loop that copies messages
    from the source stream to the target stream and acknowledges them.
    [sort.Slice] is not stable: it is any function that returns a sorted
    permutation (the class [SortSlice] of [GoSort.v]). YAML parsing and file access are
    arguments. The loop is driven by the outcomes of its fetches; the trace of
    publishes and acknowledgements is a record of the calls, not a Go field.
    [Run] is in [BridgeRun.v]. *)

From S2P Require Import Prelude GoStrings GoSort Bytes Publisher.
From Stdlib Require Import Ascii.
Local Open Scope list_scope.

(** ** mapping.go *)

Record SubjectMapping := mkMapping { Source : string; Target : string; Drop : bool }.

#[global] Instance SubjectMapping_eq_dec : EqDecision SubjectMapping.
Proof. solve_decision. Defined.

(** The loop of [LoadSubjectMappings] that cleans the rules. *)
Fixpoint cleanMappings (i : Z) (mappings : list SubjectMapping) : result (list SubjectMapping) :=
  match mappings with
  | [] => Ok []
  | m :: rest =>
    let src := TrimSpace (Source m) in
    let tgt := TrimSpace (Target m) in
    if bool_decide (src = "") then Err (Errorf "mapping %d: source is required" [FInt i])
    else if negb (Drop m) && bool_decide (tgt = "") then
      Err (Errorf "mapping %d: target is required when drop=false" [FInt i])
    else
      rest ← cleanMappings (i + 1) rest;
      Ok (mkMapping src tgt (Drop m) :: rest)
  end.

Section load.
Context (ReadFile : string → result (list byte))
  (Unmarshal : list byte → result (list SubjectMapping)).

Definition LoadSubjectMappings (path : string) : result (list SubjectMapping) :=
  data ← wrap_err "read subject map: %w" [] (ReadFile path);
  if decide (slen (TrimSpace (of_bytes data)) = 0)%nat then
    Err (Errorf "subject map %q is empty" [FStr path])
  else
    payload ← wrap_err "parse subject map: %w" [] (Unmarshal data);
    if decide (length payload = 0)%nat then Err (Errorf "subject map contains no mappings" [])
    else cleanMappings 0 payload.

(** The helper of the tests: the rules as they are in the file. *)
Definition loadSubjectMappingsFS (path : string) : result (list SubjectMapping) :=
  data ← ReadFile path;
  Unmarshal data.
End load.

(** A [SubjectMapper]: [None] drops the message. *)
Definition SubjectMapper : Type := string → option string.

Definition defaultSubjectMapper : SubjectMapper := Some.

(** The comparison given to [sort.Slice]: longer sources first. *)
Definition mapping_less (a b : SubjectMapping) : bool :=
  if decide (slen (Source a) = slen (Source b)) then bool_decide (strict String.le (Source a) (Source b))
  else bool_decide (slen (Source b) < slen (Source a))%nat.

Fixpoint applyRules (compiled : list SubjectMapping) (subject : string) : option string :=
  match compiled with
  | [] => Some subject
  | rule :: rest =>
    if HasPrefix subject (Source rule) then
      if Drop rule then None else Some (Target rule +:+ str_drop (slen (Source rule)) subject)
    else applyRules rest subject
  end.

Definition mapperFromMappings `{SortSlice} (mappings : list SubjectMapping) : SubjectMapper :=
  if decide (length mappings = 0)%nat then defaultSubjectMapper
  else applyRules (sort_Slice mapping_less mappings).

(** ** config.go *)

Record Config := mkConfig {
  SourceURL : string;
  TargetURL : string;
  SourceStream : string;
  TargetStream : string;
  SubjectMappings : list SubjectMapping;
  MetricsAddr : string;
}.

Definition Validate (c : Config) : result () :=
  if bool_decide (SourceURL c = "") then Err (Errorf "source NATS URL is required" [])
  else if bool_decide (TargetURL c = "") then Err (Errorf "target NATS URL is required" [])
  else if bool_decide (SourceStream c = "") then Err (Errorf "source stream is required" [])
  else if bool_decide (TargetStream c = "") then Err (Errorf "target stream is required" [])
  else Ok tt.

Definition FromEnv (env : string → string) ReadFile Unmarshal : result Config :=
  let path := env "BRIDGE_SUBJECT_MAP_PATH" in
  mappings ← (if bool_decide (path ≠ "") then
                wrap_err "load subject mappings: %w" []
                  (LoadSubjectMappings ReadFile Unmarshal path)
              else Ok []);
  let cfg := mkConfig (env "BRIDGE_SOURCE_NATS_URL") (env "BRIDGE_TARGET_NATS_URL")
    (env "BRIDGE_SOURCE_STREAM") (env "BRIDGE_TARGET_STREAM") mappings
    (env "BRIDGE_METRICS_ADDR") in
  _ ← Validate cfg;
  Ok cfg.

(** ** service.go *)

Definition durable_rune (r : Z) : Z := if bool_decide (r ∈ [46; 42; 62; 32; 58]) then 95 else r.

Definition durableName (subject : string) : string :=
  let cleaned := strings_Map durable_rune subject in
  let cleaned := Trim "_" cleaned in
  let cleaned := if bool_decide (cleaned = "") then "all" else cleaned in
  let cleaned := if decide (64 < slen cleaned)%nat then str_take 64 cleaned else cleaned in
  "bridge_" +:+ cleaned.

(** The subjects of a stream configuration; [None] is a nil configuration. *)
Definition collectSubjects (cfg : option (list string)) : list string := default [] cfg.

(** The copy of each list of values, inserted in the order the map is visited. *)
Definition cloneHeader `{!RangeOrder string (list string)} (h : gmap string (list string)) :
    gmap string (list string) :=
  foldl (λ dup '(k, values), <[k := values]> dup) ∅ (range_entries h).

Record serviceMetrics := mkServiceMetrics {
  forwarded : gmap string Z;
  dropped : gmap string Z;
  publishErr : gmap string Z;
  sourceLag : gmap string Z; (** in nanoseconds *)
}.
Definition inc (m : gmap string Z) (subject : string) : gmap string Z :=
  <[subject := default 0 (m !! subject) + 1]> m.
Definition incForwarded (m : serviceMetrics) (s : string) : serviceMetrics :=
  mkServiceMetrics (inc (forwarded m) s) (dropped m) (publishErr m) (sourceLag m).
Definition incDropped (m : serviceMetrics) (s : string) : serviceMetrics :=
  mkServiceMetrics (forwarded m) (inc (dropped m) s) (publishErr m) (sourceLag m).
Definition incPublishError (m : serviceMetrics) (s : string) : serviceMetrics :=
  mkServiceMetrics (forwarded m) (dropped m) (inc (publishErr m) s) (sourceLag m).
Definition observeLag (m : serviceMetrics) (s : string) (lag : Z) : serviceMetrics :=
  mkServiceMetrics (forwarded m) (dropped m) (publishErr m) (<[s := lag]> (sourceLag m)).

(** *** Options *)

(** [prometheus]: the interfaces [Registerer] and [Gatherer], the type assertions
    between them, and [*Registry], which implements both. *)
Class Prometheus := {
  Registerer : Type;
  Gatherer : Type;
  as_Gatherer : Registerer → option Gatherer;
  as_Registerer : Gatherer → option Registerer;
  Registry : Type;
  NewRegistry : Registry;
  registry_Registerer : Registry → Registerer;
  registry_Gatherer : Registry → Gatherer;
  DefaultGatherer : Gatherer;
  as_Gatherer_registry r : as_Gatherer (registry_Registerer r) = Some (registry_Gatherer r);
  as_Registerer_registry r : as_Registerer (registry_Gatherer r) = Some (registry_Registerer r);
}.

Section options.
Context `{Prometheus}.

(** Where [newServiceMetrics] registers its four vectors, if not at a nil
    [Registerer], and the gatherer it keeps. *)
Definition newServiceMetrics (reg : option Registerer) (gatherer : option Gatherer) :
    option Registerer * option Gatherer :=
  match reg, gatherer with
  | None, None => (Some (registry_Registerer NewRegistry), Some (registry_Gatherer NewRegistry))
  | Some r, None =>
    match as_Gatherer r with
    | Some g => (reg, Some g)
    | None => (reg, Some DefaultGatherer)
    end
  | None, Some g =>
    match as_Registerer g with
    | Some r => (Some r, gatherer)
    | None => (Some (registry_Registerer NewRegistry), Some (registry_Gatherer NewRegistry))
    end
  | Some _, Some _ => (reg, gatherer)
  end.

(** [svc_metrics] tells where the metrics are registered and gathered; their
    values are in the [state] of the loop. *)
Record Service := mkService {
  svc_cfg : Config;
  svc_mapper : option SubjectMapper;
  svc_fetchBatch : Z;
  svc_fetchWait : Z;
  svc_publishTimeout : Z;
  svc_customMapper : bool;
  svc_metrics : option (option Registerer * option Gatherer);
  svc_metricsServer : string;
}.

Definition defaultFetchBatch : Z := 64.
Definition defaultFetchWait : Z := 100 * Millisecond.
Definition defaultPublishTimeout : Z := 2000 * Millisecond.

Definition WithSubjectMapper (mapper : option SubjectMapper) (s : Service) : Service :=
  match mapper with
  | Some _ => mkService (svc_cfg s) mapper (svc_fetchBatch s) (svc_fetchWait s)
                (svc_publishTimeout s) true (svc_metrics s) (svc_metricsServer s)
  | None => s
  end.
Definition WithMetricsRegisterer (reg : option Registerer) (gatherer : option Gatherer)
    (s : Service) : Service :=
  mkService (svc_cfg s) (svc_mapper s) (svc_fetchBatch s) (svc_fetchWait s)
    (svc_publishTimeout s) (svc_customMapper s) (Some (newServiceMetrics reg gatherer))
    (svc_metricsServer s).
Definition WithMetricsServer (addr : string) (s : Service) : Service :=
  mkService (svc_cfg s) (svc_mapper s) (svc_fetchBatch s) (svc_fetchWait s)
    (svc_publishTimeout s) (svc_customMapper s) (svc_metrics s) addr.

(** A nil option is [None]. *)
Definition New `{SortSlice} (cfg : Config) (opts : list (option (Service → Service))) :
    result Service :=
  _ ← Validate cfg;
  let svc := mkService cfg (Some defaultSubjectMapper) defaultFetchBatch defaultFetchWait
    defaultPublishTimeout false None (MetricsAddr cfg) in
  let svc := foldl (λ s opt, match opt with Some f => f s | None => s end) svc opts in
  let mapper :=
    if negb (svc_customMapper svc) && bool_decide (0 < length (SubjectMappings cfg))%nat
    then Some (mapperFromMappings (SubjectMappings cfg)) else svc_mapper svc in
  let mapper := match mapper with Some m => m | None => defaultSubjectMapper end in
  let metrics := match svc_metrics svc with Some m => m | None => newServiceMetrics None None end in
  if svc_fetchBatch svc <=? 0 then Err (Errorf "fetch batch must be positive" [])
  else
    let fetchWait := if svc_fetchWait svc <=? 0 then defaultFetchWait else svc_fetchWait svc in
    Ok (mkService (svc_cfg svc) (Some mapper) (svc_fetchBatch svc) fetchWait
          (svc_publishTimeout svc) (svc_customMapper svc) (Some metrics) (svc_metricsServer svc)).
End options.
#[global] Arguments Service {_}.

(** *** The forwarding loop *)

(** A message of the source stream; [sm_Timestamp] is its metadata, if any. *)
Record SourceMsg := mkSourceMsg {
  sm_Subject : string;
  sm_Data : list byte;
  sm_Header : gmap string (list string);
  sm_Timestamp : option Z;
}.

(** The subscription the messages are acknowledged to. *)
Class AckSource (S : Type) := { src_Ack : SourceMsg → M S () }.

Inductive bridge_event :=
  | E_Publish (source : SourceMsg) (msg : NatsMsg) (ok : bool)
  | E_Ack (source : SourceMsg) (ok : bool).

Record state (J S : Type) := mkState {
  st_target : J;
  st_source : S;
  st_metrics : serviceMetrics;
  st_trace : list bridge_event;
}.
Arguments mkState {J S} _ _ _ _.
Arguments st_target {J S} _.
Arguments st_source {J S} _.
Arguments st_metrics {J S} _.
Arguments st_trace {J S} _.

(** One turn of [consumeLoop] as the outside decides it: the context before the
    fetch, the outcome of the fetch, its messages with the time when the loop comes
    to them, the context after a failed fetch. *)
Record round := mkRound {
  rd_ctxErr : option error;
  rd_fetch : result (list (Z * SourceMsg));
  rd_ctxErrAfter : option error;
}.

Section forward.
Context {J S : Type} `{JetStream J, AckSource S, !RangeOrder string (list string)}.
Context (now : Z) (parent : context) (targetStream : string) (publishTimeout : Z)
  (mapper : SubjectMapper).
Notation st := (state J S).

Definition publishContext : context :=
  if publishTimeout <=? 0 then parent
  else mkContext (Some (match Deadline parent with
                        | Some d => Z.min d (now + publishTimeout)
                        | None => now + publishTimeout
                        end)).

Definition set_metrics (f : serviceMetrics → serviceMetrics) : M st () :=
  M_modify (λ s, mkState (st_target s) (st_source s) (f (st_metrics s)) (st_trace s)).

Definition ack (msg : SourceMsg) : M st () := λ s,
  let '(src, r) := src_Ack msg (st_source s) in
  (mkState (st_target s) src (st_metrics s) (st_trace s ++ [E_Ack msg (is_ok r)]), r).

(** The message published for a source message. *)
Definition translated (mapped : string) (msg : SourceMsg) : NatsMsg :=
  mkNatsMsg mapped (sm_Data msg)
    (if decide (0 < size (sm_Header msg))%nat then cloneHeader (sm_Header msg) else ∅).

Definition publish_target (mapped : string) (msg : SourceMsg) : M st (option PubAck) := λ s,
  let '(js', r) := js_PublishMsg (translated mapped msg)
    (mkPubOpts publishContext targetStream) (st_target s) in
  (mkState js' (st_source s) (st_metrics s)
     (st_trace s ++ [E_Publish msg (translated mapped msg) (is_ok r)]), r).

(** [v, err := m; k]: both outcomes go on. *)
Definition try {A B} (m : M st A) (k : result A → M st B) : M st B := λ s,
  let '(s, r) := m s in k r s.

Definition wrongStream (a : option PubAck) : bool :=
  match a with
  | Some a => bool_decide (ack_Stream a ≠ "") && bool_decide (ack_Stream a ≠ targetStream)
  | None => false
  end.

(** [forward] after the mapper kept the message. *)
Definition forwardMapped (mapped : string) (msg : SourceMsg) : M st () :=
  try (publish_target mapped msg) (λ r,
    match r with
    | Err err =>
      _ ← set_metrics (λ m, incPublishError m mapped);
      M_throw (if errors_Is err "context.Canceled" then Sentinel "context.Canceled"
               else Wrapf "publish to %s: %w" [FStr mapped] err)
    | Ok a =>
      if wrongStream a then
        M_throw (Errorf "publish to %s: unexpected ack stream %q"
          [FStr mapped; FStr (match a with Some a => ack_Stream a | None => "" end)])
      else
        try (ack msg) (λ r,
          match r with
          | Err err => M_throw (Wrapf "ack source message: %w" [] err)
          | Ok _ => set_metrics (λ m, incForwarded m mapped)
          end)
    end).

Definition forward (msg : SourceMsg) : M st () :=
  let observe : M st () := match sm_Timestamp msg with
    | Some ts => set_metrics (λ m, observeLag m (sm_Subject msg) (Z.max 0 (now - ts)))
    | None => mret tt
    end in
  _ ← observe;
  match mapper (sm_Subject msg) with
  | None => _ ← set_metrics (λ m, incDropped m (sm_Subject msg)); ack msg
  | Some mapped => forwardMapped mapped msg
  end.

End forward.

Section loop.
Context {J S : Type} `{JetStream J, AckSource S, !RangeOrder string (list string)}.
Context (parent : context) (targetStream : string) (publishTimeout : Z) (mapper : SubjectMapper).
Notation st := (state J S).

Definition forwardAt (p : Z * SourceMsg) : M st () :=
  forward p.1 parent targetStream publishTimeout mapper p.2.

(** The loop over the given rounds: the inner [option] is [None] while it would
    still be running. *)
Fixpoint consumeLoop (rounds : list round) (s : st) : st * option error :=
  match rounds with
  | [] => (s, None)
  | rd :: rest =>
    match rd_ctxErr rd with
    | Some err => (s, Some err)
    | None =>
      match rd_fetch rd with
      | Err err =>
        if errors_Is err "nats.ErrTimeout" then consumeLoop rest s
        else match rd_ctxErrAfter rd with
             | Some ctxErr => (s, Some ctxErr)
             | None => (s, Some err)
             end
      | Ok msgs =>
        match M_for msgs forwardAt s with
        | (s, Err err) => (s, Some err)
        | (s, Ok _) => consumeLoop rest s
        end
      end
    end
  end.

End loop.

(** ** Lemmas on the mapper *)

Lemma mapping_less_spec a b :
  mapping_less a b = true ↔
  (slen (Source b) < slen (Source a))%nat ∨
  slen (Source a) = slen (Source b) ∧ strict String.le (Source a) (Source b).
Proof.
  unfold mapping_less. case_decide as Hl; rewrite bool_decide_eq_true; [|naive_solver lia].
  split; [auto|]. intros [?|[_ ?]]; [lia|done].
Qed.

Lemma mapping_less_trans a b c :
  mapping_less a b = true → mapping_less b c = true → mapping_less a c = true.
Proof.
  rewrite !mapping_less_spec. intros [H1|[H1 H1']] [H2|[H2 H2']]; try (left; lia).
  right. split; [lia|]. by etrans.
Qed.
Lemma mapping_less_irrefl a : mapping_less a a = false.
Proof.
  destruct (mapping_less a a) eqn:E; [|done]. apply mapping_less_spec in E as [?|[_ [_ E]]]; [lia|].
  by destruct E.
Qed.
Lemma mapping_less_weak a b c :
  mapping_less a b = true → mapping_less a c = true ∨ mapping_less c b = true.
Proof.
  rewrite !mapping_less_spec. intros Hab.
  destruct (Nat.lt_trichotomy (slen (Source a)) (slen (Source c))) as [Hlt|[Heq|Hgt]].
  - right. left. destruct Hab as [?|[? _]]; lia.
  - destruct Hab as [?|[Hl Hs]]; [right; left; lia|].
    destruct (decide (String.le (Source c) (Source a))) as [Hca|Hca].
    + right. right. split; [lia|]. split; [etrans; [done|apply Hs]|].
      intros Hbc. apply Hs. by etrans.
    + left. right. split; [done|]. split; [|done].
      by destruct (total String.le (Source a) (Source c)).
  - left. by left.
Qed.

Lemma applyRules_first l subject :
  (∃ i r, l !! i = Some r ∧ HasPrefix subject (Source r) = true ∧
    (∀ j r', (j < i)%nat → l !! j = Some r' → HasPrefix subject (Source r') = false) ∧
    applyRules l subject
    = if Drop r then None else Some (Target r +:+ str_drop (slen (Source r)) subject)) ∨
  (∀ r, r ∈ l → HasPrefix subject (Source r) = false) ∧ applyRules l subject = Some subject.
Proof.
  induction l as [|r l IH]; simpl; [right; split; [|done]; by intros r ?%elem_of_nil|].
  destruct (HasPrefix subject (Source r)) eqn:Hp.
  { left. exists 0%nat, r. split_and!; try done. intros; lia. }
  destruct IH as [(i & r0 & Hi & Hp0 & Hfirst & Heq)|[Hno Heq]].
  - left. exists (S i), r0. split_and!; try done. intros [|j] r' Hj Hr'; [by simplify_eq/=|].
    apply (Hfirst j); [lia|done].
  - right. split; [|done]. intros r' [->|Hr']%elem_of_cons; auto.
Qed.

Lemma HasPrefix_same_length s p q :
  HasPrefix s p = true → HasPrefix s q = true → slen p = slen q → p = q.
Proof.
  unfold HasPrefix. rewrite !bool_decide_eq_true. intros Hp Hq Hl. apply bytes_inj. congruence.
Qed.
Lemma HasPrefix_slen s p : HasPrefix s p = true → (slen p <= slen s)%nat.
Proof. intros [t ->]%HasPrefix_spec. rewrite slen_app. lia. Qed.

(** ** Lemmas on forwarding *)

Lemma cloneHeader_foldl (l : list (string * list string)) m :
  NoDup l.*1 →
  foldl (λ dup '(k, values), <[k := values]> dup) m l
  = list_to_map l ∪ (m : gmap string (list string)).
Proof.
  revert m. induction l as [|[k v] l IH]; intros m Hnd; simpl; [by rewrite (left_id_L ∅ (∪))|].
  apply NoDup_cons in Hnd as [Hk Hnd]. simpl in Hk. rewrite IH by done.
  rewrite <- insert_union_r by (by apply not_elem_of_list_to_map_1).
  by rewrite insert_union_l.
Qed.

Lemma cloneHeader_id `{!RangeOrder string (list string)} h : cloneHeader h = h.
Proof.
  unfold cloneHeader. rewrite cloneHeader_foldl by apply NoDup_range_entries.
  rewrite (right_id_L ∅ (∪)). symmetry. apply list_to_map_flip. by rewrite range_entries_perm.
Qed.

(** What forwarding a message that meets no failure does. *)
Definition expected (mapper : SubjectMapper) (msg : SourceMsg) : list bridge_event :=
  match mapper (sm_Subject msg) with
  | None => [E_Ack msg true]
  | Some mapped =>
    [E_Publish msg (mkNatsMsg mapped (sm_Data msg) (sm_Header msg)) true; E_Ack msg true]
  end.

(** What is left of it when a call fails. *)
Definition failed_trace (mapper : SubjectMapper) (msg : SourceMsg) (t : list bridge_event) : Prop :=
  match mapper (sm_Subject msg) with
  | None => t = [E_Ack msg false]
  | Some mapped =>
    let pub := mkNatsMsg mapped (sm_Data msg) (sm_Header msg) in
    t = [E_Publish msg pub false] ∨ t = [E_Publish msg pub true] ∨
    t = [E_Publish msg pub true; E_Ack msg false]
  end.

Section forward_lemmas.
Context {J S : Type} `{JetStream J, AckSource S, !RangeOrder string (list string)}.
Context (now : Z) (parent : context) (targetStream : string) (publishTimeout : Z)
  (mapper : SubjectMapper).
Notation st := (state J S).
Notation fwd := (forward (J := J) (S := S) now parent targetStream publishTimeout mapper).

Lemma translated_eq mapped msg :
  translated mapped msg = mkNatsMsg mapped (sm_Data msg) (sm_Header msg).
Proof.
  unfold translated. rewrite cloneHeader_id. f_equal. case_decide as Hs; [done|].
  symmetry. apply map_size_empty_inv. lia.
Qed.

Lemma forwardMapped_trace mapped msg (s : st) :
  mapper (sm_Subject msg) = Some mapped →
  let '(s', r) := forwardMapped now parent targetStream publishTimeout mapped msg s in
  ∃ t, st_trace s' = st_trace s ++ t ∧
  match r with Ok _ => t = expected mapper msg | Err _ => failed_trace mapper msg t end.
Proof.
  intros Hm. unfold forwardMapped, try, publish_target, ack, expected, failed_trace. rewrite Hm.
  rewrite translated_eq. set (pub := mkNatsMsg _ _ _).
  destruct (js_PublishMsg _ _ _) as [js' [a|err]].
  - destruct (wrongStream targetStream a); [simpl; eauto|].
    destruct (src_Ack _ _) as [src [u|err]]; simpl; eexists; (split; [by rewrite <- app_assoc|]); auto.
  - rewrite M_bind_run. simpl. eauto.
Qed.

Lemma forward_trace msg (s : st) :
  let '(s', r) := fwd msg s in
  ∃ t, st_trace s' = st_trace s ++ t ∧
  match r with Ok _ => t = expected mapper msg | Err _ => failed_trace mapper msg t end.
Proof.
  unfold forward. rewrite M_bind_run.
  assert (∃ s1 u, (match sm_Timestamp msg with
     | Some ts => set_metrics (λ m, observeLag m (sm_Subject msg) (Z.max 0 (now - ts)))
     | None => mret tt end : M st ()) s = (s1, Ok u) ∧ st_trace s1 = st_trace s)
    as (s1 & u & -> & Ht) by (destruct (sm_Timestamp msg); do 2 eexists; split; done).
  destruct (mapper (sm_Subject msg)) as [mapped|] eqn:Hm.
  - rewrite <- Ht. by apply forwardMapped_trace.
  - rewrite M_bind_run. unfold ack, expected, failed_trace. simpl. rewrite Hm, Ht.
    destruct (src_Ack _ _) as [src [[]|err]]; simpl; eauto.
Qed.

End forward_lemmas.

Section loop_lemmas.
Context {J S : Type} `{JetStream J, AckSource S, !RangeOrder string (list string)}.
Context (parent : context) (targetStream : string) (publishTimeout : Z) (mapper : SubjectMapper).
Notation st := (state J S).
Notation fwd := (forwardAt (J := J) (S := S) parent targetStream publishTimeout mapper).

Lemma forward_loop msgs (s : st) :
  let '(s', r) := M_for msgs fwd s in
  ∃ pre t, st_trace s' = st_trace s ++ concat (expected mapper <$> pre) ++ t ∧
  match r with
  | Ok _ => pre = msgs.*2 ∧ t = []
  | Err _ => ∃ m post, msgs.*2 = pre ++ m :: post ∧ failed_trace mapper m t
  end.
Proof.
  revert s. induction msgs as [|m msgs IH]; intros s.
  { exists [], []. simpl. by rewrite app_nil_r. }
  rewrite M_for_cons. destruct m as [now m]. unfold forwardAt at 1. simpl.
  pose proof (forward_trace now parent targetStream publishTimeout mapper m s) as Hm.
  destruct (forward _ _ _ _ _ m s) as [s1 [[]|err]]; destruct Hm as (t & Ht & Hr).
  - specialize (IH s1). destruct (M_for msgs fwd s1) as [s' r].
    destruct IH as (pre & t' & Ht' & Hr'). exists (m :: pre), t'. split.
    + rewrite Ht', Ht, Hr. simpl. by rewrite <- !app_assoc.
    + destruct r; [destruct Hr' as [-> ->]; done|]. destruct Hr' as (m' & post & Hp & Hf).
      exists m', post. split; [|done]. exact (f_equal (cons m) Hp).
  - exists [], t. simpl. split; [done|]. eauto.
Qed.

(** The messages of the rounds whose fetch succeeded. *)
Definition fetched (rounds : list round) : list SourceMsg :=
  concat ((λ rd, match rd_fetch rd with Ok msgs => msgs.*2 | Err _ => [] end) <$> rounds).

Lemma consumeLoop_spec rounds (s : st) :
  let '(s', r) := consumeLoop parent targetStream publishTimeout mapper rounds s in
  ∃ pre t, st_trace s' = st_trace s ++ concat (expected mapper <$> pre) ++ t ∧
  (∃ post, fetched rounds = pre ++ post) ∧
  match r with
  | None => pre = fetched rounds ∧ t = []
  | Some _ => t = [] ∨ ∃ m, failed_trace mapper m t ∧ ∃ post, fetched rounds = pre ++ m :: post
  end.
Proof.
  revert s. induction rounds as [|rd rounds IH]; intros s.
  { exists [], []. simpl. rewrite app_nil_r. split_and!; eauto. }
  cbn [consumeLoop]. unfold fetched. cbn [fmap list_fmap concat]. fold (fetched rounds).
  destruct (rd_ctxErr rd) as [e|].
  { exists [], []. simpl. rewrite app_nil_r. split_and!; eauto. }
  destruct (rd_fetch rd) as [msgs|err].
  - pose proof (forward_loop msgs s) as Hl. destruct (M_for msgs fwd s) as [s1 [[]|err]];
      destruct Hl as (pre & t & Ht & Hr).
    + destruct Hr as [-> ->]. specialize (IH s1).
      destruct (consumeLoop _ _ _ _ rounds s1) as [s' r].
      destruct IH as (pre' & t' & Ht' & (post & Hpost) & Hr'). exists (msgs.*2 ++ pre'), t'. split_and!.
      * rewrite Ht', Ht, app_nil_r, fmap_app, concat_app. by rewrite <- !app_assoc.
      * exists post. by rewrite Hpost, app_assoc.
      * destruct r; [|by destruct Hr' as [-> ->]]. destruct Hr' as [?|(m & Hf & post' & Hp)]; [by left|].
        right. exists m. split; [done|]. exists post'. by rewrite Hp, app_assoc.
    + destruct Hr as (m & post & -> & Hf). exists pre, t. split_and!; [done| |].
      * eexists. by rewrite <- app_assoc.
      * right. exists m. split; [done|]. eexists. rewrite <- app_assoc. done.
  - simpl. destruct (errors_Is err "nats.ErrTimeout"); [apply IH|].
    destruct (rd_ctxErrAfter rd); exists [], []; simpl; rewrite app_nil_r; split_and!; eauto.
Qed.

End loop_lemmas.

(** An acknowledged message in the trace of forwarded messages. *)
Lemma expected_ack mapper msgs m :
  E_Ack m true ∈ concat (expected mapper <$> msgs) → m ∈ msgs.
Proof.
  induction msgs as [|m' msgs IH]; [by intros ?%elem_of_nil|].
  cbn [fmap list_fmap concat]. intros [Hin|Hin]%elem_of_app; [|right; by apply IH].
  unfold expected in Hin.
  destruct (mapper (sm_Subject m')); rewrite !elem_of_cons, elem_of_nil in Hin;
    rewrite elem_of_cons; naive_solver.
Qed.

(** ** Lemmas on durable names *)

(** The bytes a durable name may not hold. *)
Definition durable_byte (c : ascii) : Prop := bval c < 128 ∧ bval c ∉ [46; 42; 62; 32; 58].
#[global] Instance durable_byte_dec c : Decision (durable_byte c).
Proof. unfold durable_byte. apply _. Defined.

Lemma drop_while_Forall {A} (P : A → Prop) p (l : list A) : Forall P l → Forall P (drop_while p l).
Proof. induction 1; simpl; [constructor|]. destruct (p x); [done|by constructor]. Qed.

Lemma Trim_Forall P cutset s : Forall P (bytes s) → Forall P (bytes (Trim cutset s)).
Proof.
  intros Hs. unfold Trim. rewrite bytes_of_bytes. apply Forall_reverse, drop_while_Forall.
  by apply Forall_reverse, drop_while_Forall.
Qed.

Lemma durable_mapped subject :
  is_ascii subject → Forall durable_byte (bytes (strings_Map durable_rune subject)).
Proof.
  intros Hs. rewrite strings_Map_ascii; [|done|].
  2:{ intros r Hr. unfold durable_rune. case_bool_decide; lia. }
  unfold is_ascii in Hs. induction Hs as [|c l Hc _ IH]; [constructor|].
  cbn [omap list_omap]. pose proof (bval_range c). unfold durable_rune at 1 2.
  case_bool_decide as Hin.
  - simpl. constructor; [by apply (bool_decide_unpack _)|done].
  - destruct (Z.ltb_spec (bval c) 0); [lia|]. rewrite bchr_bval. by constructor.
Qed.

(** ** Properties *)

(** C24. The mapper applies the most specific rule, whatever the order of the rules
    and however [sort.Slice] breaks ties: for rules with distinct sources, the
    rule with the longest source that is a prefix of the subject drops the
    message or replaces that prefix by its target; when no source is a prefix the
    subject is unchanged. *)
Theorem mapper_longest_prefix `{SortSlice} mappings subject :
  NoDup (Source <$> mappings) →
  (∀ r, r ∈ mappings → HasPrefix subject (Source r) = true →
    (∀ r', r' ∈ mappings → HasPrefix subject (Source r') = true →
      (slen (Source r') <= slen (Source r))%nat) →
    mapperFromMappings mappings subject
    = if Drop r then None else Some (Target r +:+ str_drop (slen (Source r)) subject)) ∧
  ((∀ r, r ∈ mappings → HasPrefix subject (Source r) = false) →
    mapperFromMappings mappings subject = Some subject).
Proof.
  intros Hnd. unfold mapperFromMappings. case_decide as Hl.
  { apply nil_length_inv in Hl as ->. split; [by intros r ?%elem_of_nil|done]. }
  set (l := sort_Slice mapping_less mappings).
  assert (l ≡ₚ mappings) as Hperm by apply sort_Slice_perm.
  assert (∀ r, r ∈ l ↔ r ∈ mappings) as Hin by (intros; by rewrite Hperm).
  destruct (applyRules_first l subject) as [(i & r0 & Hi & Hp0 & Hfirst & ->)|[Hno ->]].
  - assert (r0 ∈ mappings) as H0 by (apply Hin; by eapply list_elem_of_lookup_2). split.
    + intros r Hr Hp Hmax. assert (r0 = r) as ->; [|done].
      assert (slen (Source r0) = slen (Source r)) as Hlen.
      { pose proof (Hmax r0 H0 Hp0). destruct (decide (slen (Source r0) < slen (Source r))%nat); [|lia].
        exfalso. pose proof (proj2 (Hin r) Hr) as [j Hj]%list_elem_of_lookup.
        assert (mapping_less r r0 = true) as Hless by (apply mapping_less_spec; by left).
        destruct (Nat.lt_trichotomy j i) as [Hji|[->|Hij]].
        - by rewrite (Hfirst j r Hji Hj) in Hp.
        - rewrite Hi in Hj. injection Hj as ->. lia.
        - rewrite (sort_Slice_sorted mapping_less mappings mapping_less_trans mapping_less_irrefl
            mapping_less_weak i j r0 r) in Hless by done. done. }
      pose proof (HasPrefix_same_length _ _ _ Hp0 Hp Hlen) as Hs.
      apply list_elem_of_lookup in H0 as [a Ha], Hr as [b Hb].
      assert (a = b) as <-; [|congruence].
      eapply NoDup_lookup; [exact Hnd|by rewrite list_lookup_fmap, Ha|].
      by rewrite list_lookup_fmap, Hb, Hs.
    + intros Hno. by rewrite Hno in Hp0.
  - split; [|done]. intros r Hr Hp. apply Hin, Hno in Hr. congruence.
Qed.

Definition example_mappings : list SubjectMapping :=
  [mkMapping "dex." "legacy." false; mkMapping "dex.sol.tx" "" true;
   mkMapping "dex.sol." "sol." false].

Lemma mapper_longest_prefix_witness :
  @mapperFromMappings insertion_SortSlice example_mappings "dex.sol.blocks" = Some "sol.blocks" ∧
  @mapperFromMappings insertion_SortSlice example_mappings "other" = Some "other".
Proof.
  destruct (@mapper_longest_prefix insertion_SortSlice example_mappings "dex.sol.blocks")
    as [H1 _]; [apply (bool_decide_unpack _); vm_compute; exact I|].
  destruct (@mapper_longest_prefix insertion_SortSlice example_mappings "other")
    as [_ H2]; [apply (bool_decide_unpack _); vm_compute; exact I|]. split.
  - apply (H1 (mkMapping "dex.sol." "sol." false)).
    + apply (bool_decide_unpack _). vm_compute. exact I.
    + vm_compute. reflexivity.
    + intros r' Hr'. unfold example_mappings in Hr'. rewrite !elem_of_cons, elem_of_nil in Hr'.
      destruct Hr' as [-> |[-> |[-> |[]]]]; vm_compute; intros; lia || discriminate.
  - apply H2. intros r Hr. unfold example_mappings in Hr. rewrite !elem_of_cons, elem_of_nil in Hr.
    destruct Hr as [-> |[-> |[-> |[]]]]; vm_compute; reflexivity.
Defined.

(** At-least-once forwarding, for any sequence of fetches and failures: the
    messages are handled in the order they were fetched; a message is
    acknowledged only if the mapper drops it or after the target accepted its
    translation, which has the mapped subject and the same data and header; and a
    loop that has not stopped has done exactly that for every fetched message,
    once. *)
Theorem consumeLoop_at_least_once {J S} `{JetStream J, AckSource S,
    !RangeOrder string (list string)} parent stream timeout mapper rounds (s : state J S) :
  let '(s', r) := consumeLoop parent stream timeout mapper rounds s in
  ∃ pre t, st_trace s' = st_trace s ++ concat (expected mapper <$> pre) ++ t ∧
  (∃ post, fetched rounds = pre ++ post) ∧
  (r = None → pre = fetched rounds ∧ t = []) ∧
  (∀ m, E_Ack m true ∈ concat (expected mapper <$> pre) ++ t →
   match mapper (sm_Subject m) with
   | None => True
   | Some mapped => E_Publish m (mkNatsMsg mapped (sm_Data m) (sm_Header m)) true
                    ∈ concat (expected mapper <$> pre)
   end).
Proof.
  pose proof (consumeLoop_spec parent stream timeout mapper rounds s) as Hs.
  destruct (consumeLoop _ _ _ _ rounds s) as [s' r].
  destruct Hs as (pre & t & Ht & Hpre & Hr). exists pre, t. split_and!; try done.
  { by intros ->. }
  assert (∀ m, E_Ack m true ∉ t) as Hno.
  { intros m Hm. assert (t = [] ∨ ∃ m', failed_trace mapper m' t) as [->|(m' & Hf)].
    { destruct r; [naive_solver|]. left. apply Hr. }
    - by apply elem_of_nil in Hm.
    - unfold failed_trace in Hf. destruct (mapper (sm_Subject m')).
      + destruct Hf as [-> |[-> | ->]]; rewrite !elem_of_cons, elem_of_nil in Hm; naive_solver.
      + subst t. rewrite elem_of_cons, elem_of_nil in Hm. naive_solver. }
  intros m [Hm|Hm]%elem_of_app; [|by apply Hno in Hm].
  apply expected_ack in Hm. destruct (mapper (sm_Subject m)) as [mapped|] eqn:Hmap; [|done].
  clear -Hm Hmap. induction Hm as [m pre|m m' pre _ IH]; cbn [fmap list_fmap concat].
  - apply elem_of_app. left. unfold expected. rewrite Hmap. left.
  - apply elem_of_app. right. by apply IH.
Qed.

(** Endpoints for a concrete run: the target accepts all but one subject. *)
#[local] Instance example_target : JetStream () := {|
  js_PublishMsg msg _ s :=
    (s, if bool_decide (nm_Subject msg = "bad") then Err (Errorf "nats: timeout" [])
        else Ok (Some (mkPubAck "LEGACY"))) |}.
#[local] Instance example_source : AckSource () := {| src_Ack _ s := (s, Ok tt) |}.
#[local] Instance example_header_order : RangeOrder string (list string) := map_to_list_order.

Definition example_msg (subject : string) : SourceMsg :=
  mkSourceMsg subject [bchr 1] {["k" := ["v"]]} (Some 5).
Definition example_loop : state () () * option error :=
  consumeLoop Background "LEGACY" 1000
    (@mapperFromMappings insertion_SortSlice example_mappings)
    [mkRound None (Ok [(10, example_msg "dex.sol.x"); (11, example_msg "dex.sol.tx")]) None;
     mkRound None (Err (Sentinel "nats.ErrTimeout")) None;
     mkRound None (Ok [(12, example_msg "bad"); (13, example_msg "dex.sol.y")]) None]
    (mkState tt tt (mkServiceMetrics ∅ ∅ ∅ ∅) []).

Lemma consumeLoop_at_least_once_witness :
  length (st_trace example_loop.1) = 4%nat ∧
  ∃ pre t, st_trace example_loop.1 = [] ++ concat (expected
    (@mapperFromMappings insertion_SortSlice example_mappings) <$> pre) ++ t.
Proof.
  split; [vm_compute; reflexivity|]. unfold example_loop.
  pose proof (consumeLoop_at_least_once Background "LEGACY" 1000
    (@mapperFromMappings insertion_SortSlice example_mappings)
    [mkRound None (Ok [(10, example_msg "dex.sol.x"); (11, example_msg "dex.sol.tx")]) None;
     mkRound None (Err (Sentinel "nats.ErrTimeout")) None;
     mkRound None (Ok [(12, example_msg "bad"); (13, example_msg "dex.sol.y")]) None]
    (mkState tt tt (mkServiceMetrics ∅ ∅ ∅ ∅) [])) as Hloop.
  destruct (consumeLoop _ _ _ _ _ _) as [s' r].
  destruct Hloop as (pre & t & Ht & _). exists pre, t. exact Ht.
Defined.

(** The durable name of an ASCII subject is a valid consumer name: it starts
    with ["bridge_"], holds none of ['.', '*', '>', ' ', ':'], and has 8 to 71
    bytes. *)
Theorem durableName_valid subject :
  is_ascii subject →
  Forall durable_byte (bytes (durableName subject)) ∧
  HasPrefix (durableName subject) "bridge_" = true ∧
  (8 <= slen (durableName subject) <= 71)%nat.
Proof.
  intros Hs. unfold durableName.
  pose proof (Trim_Forall durable_byte "_" _ (durable_mapped subject Hs)) as Hc.
  set (cleaned := Trim "_" (strings_Map durable_rune subject)) in *. clearbody cleaned.
  assert (Forall durable_byte (bytes (if bool_decide (cleaned = "") then "all" else cleaned)) ∧
    (0 < slen (if bool_decide (cleaned = "") then "all" else cleaned))%nat) as [Hc' Hl].
  { case_bool_decide as He; [split; [by apply (bool_decide_unpack _)|vm_compute; lia]|].
    split; [done|]. pose proof (slen_0 cleaned). destruct (slen cleaned); [naive_solver|lia]. }
  set (name := if bool_decide (cleaned = "") then "all" else cleaned) in *. clearbody name.
  assert (Forall durable_byte (bytes (if decide (64 < slen name)%nat then str_take 64 name else name))
    ∧ (0 < slen (if decide (64 < slen name)%nat then str_take 64 name else name) <= 64)%nat)
    as [Hb Hlen].
  { case_decide.
    - rewrite slen_str_take. unfold str_take. rewrite bytes_of_bytes.
      split; [by apply Forall_take|lia].
    - split; [done|lia]. }
  split_and!.
  - rewrite bytes_app. apply Forall_app. split; [by apply (bool_decide_unpack _)|done].
  - apply HasPrefix_app.
  - rewrite slen_app. change (slen "bridge_") with 7%nat. lia.
  - rewrite slen_app. change (slen "bridge_") with 7%nat. lia.
Qed.

Lemma durableName_valid_witness :
  durableName "dex.sol.*.swap" = "bridge_dex_sol___swap" ∧
  (8 <= slen (durableName "dex.sol.*.swap") <= 71)%nat.
Proof.
  split; [vm_compute; reflexivity|]. apply durableName_valid. by apply (bool_decide_unpack _).
Defined.

(** Different subjects may get the same durable name. *)
Lemma durableName_collision : durableName "dex.sol.tx" = durableName "dex.sol_tx".
Proof. vm_compute. reflexivity. Qed.
