(* ===== verification/BridgeRun.v ===== *)
(** * Legacy bridge: the run

    [Service.Run] of [bridge/service.go] and its goroutines. [Setup] is the
    sequence of calls up to the subjects of the source stream. Then an
    [errgroup] holds one goroutine per subject, which is [consumeLoop], and two for
    the metrics server: a [run_state] is the state of all of them, and [step] the
    action of one, or an event of the outside, chosen by a [label]. A consumer acts
    at each point where it reads the context, fetches, or forwards one message, so
    the consumers interleave between any two messages; they share the target, the
    metrics and the trace of [Bridge.state].

    [r_ctx] is [runCtx.Err()]: set when the context given to [Run] ends, or by the
    first goroutine that returns an error. *)

From S2P Require Import Prelude GoStrings GoSort Bytes Publisher Bridge.
From Stdlib Require Import Ascii.
Local Open Scope list_scope.

(** ** State *)

(** The program point of a goroutine in [consumeLoop]: before [ctx.Err()], before
    [sub.Fetch], after a fetch that failed, in the loop over the messages,
    returned. *)
Inductive consumer :=
  | C_Top
  | C_Fetch
  | C_Failed (err : error)
  | C_Forward (msgs : list SourceMsg)
  | C_Done (err : error).

(** [ListenAndServe]: running, with or without a call of [Shutdown], or returned. *)
Inductive server := V_Serving (shutdown : bool) | V_Stopped (err : option error).
(** The goroutine that waits for [runCtx] and calls [Shutdown]. *)
Inductive watcher := W_Waiting | W_Shutdown | W_Done.

(** [Run] itself: the subjects left to subscribe ([M_Subscribe []] is in
    [g.Wait]), or its result. *)
Inductive main_state := M_Subscribe (subjects : list string) | M_Return (err : option error).

Record run_state (J S : Type) := mkRunState {
  r_shared : state J S;
  r_consumers : list consumer;
  r_metrics : option (server * watcher);
  r_parent : option error;
  r_ctx : option error;
  r_first : option error; (** the error the group keeps *)
  r_main : main_state;
}.
Arguments mkRunState {J S} _ _ _ _ _ _ _.
Arguments r_shared {J S} _.
Arguments r_consumers {J S} _.
Arguments r_metrics {J S} _.
Arguments r_parent {J S} _.
Arguments r_ctx {J S} _.
Arguments r_first {J S} _.
Arguments r_main {J S} _.

Inductive label :=
  | L_Parent (err : error)                           (** the given context ends *)
  | L_Subscribe (r : result ())                      (** [PullSubscribe] *)
  | L_Fetch (i : nat) (r : result (list SourceMsg))  (** [sub.Fetch] *)
  | L_Consumer (i : nat) (now : Z)                   (** any other action of a consumer *)
  | L_Serve (err : option error)                     (** [ListenAndServe] returns *)
  | L_Watch                                          (** the next action of the watcher *)
  | L_Return.                                        (** [g.Wait] returns *)

Definition Canceled : error := Sentinel "context.Canceled".
Definition ErrServerClosed : error := Sentinel "http.ErrServerClosed".

(** ** Run *)

Section run.
Context (connect : string → result ()) (sourceJS targetJS : result ())
  (StreamInfo : string → result (option (list string))).

(** The subjects, or the error that [Run] returns. *)
Definition Setup (cfg : Config) : result (list string) :=
  _ ← wrap_err "connect source nats: %w" [] (connect (SourceURL cfg));
  _ ← wrap_err "connect target nats: %w" [] (connect (TargetURL cfg));
  _ ← wrap_err "source jetstream context: %w" [] sourceJS;
  _ ← wrap_err "target jetstream context: %w" [] targetJS;
  info ← wrap_err "describe source stream %q: %w" [FStr (SourceStream cfg)]
           (StreamInfo (SourceStream cfg));
  let subjects := collectSubjects info in
  if decide (length subjects = 0)%nat then
    Err (Errorf "source stream %q exposes no subjects" [FStr (SourceStream cfg)])
  else Ok subjects.
End run.

Section step.
Context `{Prometheus} {J S : Type} `{JetStream J, AckSource S, !RangeOrder string (list string)}.
Context (svc : Service) (parent : context).
Notation run_st := (run_state J S).

(** Whether the metrics server is started. *)
Definition serves : bool :=
  bool_decide (svc_metricsServer svc ≠ "") &&
  match svc_metrics svc with Some (_, Some _) => true | _ => false end.

(** After [Setup]. *)
Definition start (subjects : list string) (s : state J S) : run_st :=
  mkRunState s [] (if serves then Some (V_Serving false, W_Waiting) else None) None None None
    (M_Subscribe subjects).

Definition set_ctx (err : error) (st : run_st) : run_st :=
  mkRunState (r_shared st) (r_consumers st) (r_metrics st) (r_parent st)
    (Some (default err (r_ctx st))) (r_first st) (r_main st).
Definition set_main (m : main_state) (st : run_st) : run_st :=
  mkRunState (r_shared st) (r_consumers st) (r_metrics st) (r_parent st) (r_ctx st) (r_first st) m.
Definition set_consumer (i : nat) (c : consumer) (st : run_st) : run_st :=
  mkRunState (r_shared st) (<[i := c]> (r_consumers st)) (r_metrics st) (r_parent st) (r_ctx st)
    (r_first st) (r_main st).
Definition set_shared (s : state J S) (st : run_st) : run_st :=
  mkRunState s (r_consumers st) (r_metrics st) (r_parent st) (r_ctx st) (r_first st) (r_main st).
Definition set_server (v : server) (w : watcher) (st : run_st) : run_st :=
  mkRunState (r_shared st) (r_consumers st) (Some (v, w)) (r_parent st) (r_ctx st) (r_first st)
    (r_main st).

(** A goroutine of the group returns an error: the first one is kept and cancels
    [runCtx]. *)
Definition group_error (err : error) (st : run_st) : run_st :=
  set_ctx Canceled
    (mkRunState (r_shared st) (r_consumers st) (r_metrics st) (r_parent st) (r_ctx st)
       (Some (default err (r_first st))) (r_main st)).
Definition consumer_returns (i : nat) (err : error) (st : run_st) : run_st :=
  group_error err (set_consumer i (C_Done err) st).

(** The mapper of a service made by [New] is not nil. *)
Definition mapper : SubjectMapper := default defaultSubjectMapper (svc_mapper svc).

Definition consumerStep (i : nat) (now : Z) (c : consumer) (st : run_st) : option run_st :=
  match c with
  | C_Top =>
    match r_ctx st with
    | Some err => Some (consumer_returns i err st)
    | None => Some (set_consumer i C_Fetch st)
    end
  | C_Failed err =>
    match r_ctx st with
    | Some ctxErr => Some (consumer_returns i ctxErr st)
    | None => Some (consumer_returns i err st)
    end
  | C_Forward [] => Some (set_consumer i C_Top st)
  | C_Forward (msg :: msgs) =>
    let '(s, r) := forward now parent (TargetStream (svc_cfg svc)) (svc_publishTimeout svc) mapper
                     msg (r_shared st) in
    match r with
    | Err err => Some (consumer_returns i err (set_shared s st))
    | Ok _ => Some (set_consumer i (C_Forward msgs) (set_shared s st))
    end
  | C_Fetch | C_Done _ => None
  end.

(** [Fetch] returns at most the messages it was asked for. *)
Definition fetchStep (i : nat) (r : result (list SourceMsg)) (st : run_st) : option run_st :=
  match r with
  | Ok msgs =>
    if zlen msgs <=? svc_fetchBatch svc then Some (set_consumer i (C_Forward msgs) st) else None
  | Err err =>
    if errors_Is err "nats.ErrTimeout" then Some (set_consumer i C_Top st)
    else Some (set_consumer i (C_Failed err) st)
  end.

(** The goroutine of [ListenAndServe], which returns nil or [ErrServerClosed] only
    after [Shutdown]. *)
Definition serveStep (err : option error) (w : watcher) (shutdown : bool) (st : run_st) :
    option run_st :=
  match err with
  | Some err =>
    if errors_Is err "http.ErrServerClosed" then
      if shutdown then Some (set_server (V_Stopped None) w st) else None
    else
      let err := Wrapf "metrics server: %w" [] err in
      Some (group_error err (set_server (V_Stopped (Some err)) w st))
  | None => if shutdown then Some (set_server (V_Stopped None) w st) else None
  end.

Definition shutting_down (v : server) : server :=
  match v with V_Serving _ => V_Serving true | V_Stopped err => V_Stopped err end.
Definition watchStep (v : server) (w : watcher) (st : run_st) : option run_st :=
  match w with
  | W_Waiting =>
    if decide (is_Some (r_ctx st)) then
      Some (set_server (shutting_down v) W_Shutdown st)
    else None
  | W_Shutdown => Some (set_server v W_Done st)
  | W_Done => None
  end.

Definition consumer_finished (c : consumer) : bool :=
  match c with C_Done _ => true | _ => false end.
Definition metrics_finished (m : option (server * watcher)) : bool :=
  match m with None | Some (V_Stopped _, W_Done) => true | _ => false end.

(** The result after [g.Wait]. *)
Definition waitResult (first : option error) : option error :=
  match first with
  | Some err => Some (if errors_Is err "context.Canceled" then Canceled else err)
  | None => None
  end.

Definition step (l : label) (st : run_st) : option run_st :=
  match l with
  | L_Parent err =>
    match r_parent st with
    | Some _ => None
    | None =>
      Some (set_ctx err (mkRunState (r_shared st) (r_consumers st) (r_metrics st) (Some err)
                           (r_ctx st) (r_first st) (r_main st)))
    end
  | L_Subscribe r =>
    match r_main st with
    | M_Subscribe (subject :: rest) =>
      match r with
      | Err err => Some (set_main (M_Return (Some (Wrapf "pull subscribe %q: %w" [FStr subject] err))) st)
      | Ok _ =>
        Some (mkRunState (r_shared st) (r_consumers st ++ [C_Top]) (r_metrics st) (r_parent st)
                (r_ctx st) (r_first st) (M_Subscribe rest))
      end
    | _ => None
    end
  | L_Fetch i r =>
    match r_consumers st !! i with Some C_Fetch => fetchStep i r st | _ => None end
  | L_Consumer i now => c ← r_consumers st !! i; consumerStep i now c st
  | L_Serve err =>
    match r_metrics st with Some (V_Serving shutdown, w) => serveStep err w shutdown st | _ => None end
  | L_Watch => '(v, w) ← r_metrics st; watchStep v w st
  | L_Return =>
    match r_main st with
    | M_Subscribe [] =>
      if forallb consumer_finished (r_consumers st) && metrics_finished (r_metrics st)
      then Some (set_ctx Canceled (set_main (M_Return (waitResult (r_first st))) st)) else None
    | _ => None
    end
  end.

Fixpoint steps (ls : list label) (st : run_st) : option run_st :=
  match ls with
  | [] => Some st
  | l :: ls => st' ← step l st; steps ls st'
  end.
End step.

(** ** Lemmas *)

Section run_lemmas.
Context `{Prometheus} {J S : Type} `{JetStream J, AckSource S, !RangeOrder string (list string)}.
Context (svc : Service) (parent : context).
Notation run_st := (run_state J S).
Implicit Types st : run_st.

Lemma steps_app ls1 ls2 st :
  steps svc parent (ls1 ++ ls2) st = st' ← steps svc parent ls1 st; steps svc parent ls2 st'.
Proof.
  revert st. induction ls1 as [|l ls1 IH]; intros st; [done|]. simpl.
  destruct (step svc parent l st); simpl; [apply IH|done].
Qed.

(** Induction along an execution. *)
Lemma steps_ind (P : list label → run_st → Prop) st0 :
  P [] st0 →
  (∀ ls l st st', steps svc parent ls st0 = Some st → P ls st → step svc parent l st = Some st' →
    P (ls ++ [l]) st') →
  ∀ ls st, steps svc parent ls st0 = Some st → P ls st.
Proof.
  intros Hinit Hs ls. induction ls as [|l ls IH] using rev_ind; intros st.
  - by intros [= <-].
  - rewrite steps_app. intros (st1 & Hst1 & Hst2)%bind_Some. simpl in Hst2.
    apply bind_Some in Hst2 as (st2 & Hst2 & [= <-]). eauto.
Qed.

(** The ways a step changes the state, by the goroutine that acts. *)
Inductive effect st : run_st → Prop :=
  | Eff_parent err : r_parent st = None →
      effect st (set_ctx err (mkRunState (r_shared st) (r_consumers st) (r_metrics st) (Some err)
                   (r_ctx st) (r_first st) (r_main st)))
  | Eff_subscribe subject rest : r_main st = M_Subscribe (subject :: rest) →
      effect st (mkRunState (r_shared st) (r_consumers st ++ [C_Top]) (r_metrics st) (r_parent st)
                   (r_ctx st) (r_first st) (M_Subscribe rest))
  | Eff_unsubscribed subject rest err : r_main st = M_Subscribe (subject :: rest) →
      effect st (set_main (M_Return (Some (Wrapf "pull subscribe %q: %w" [FStr subject] err))) st)
  | Eff_consumer i c c' s : r_consumers st !! i = Some c → consumer_finished c = false →
      consumer_finished c' = false → effect st (set_consumer i c' (set_shared s st))
  | Eff_returns i c s err : r_consumers st !! i = Some c → consumer_finished c = false →
      effect st (consumer_returns i err (set_shared s st))
  | Eff_server v w : r_metrics st = Some (V_Serving v, w) →
      effect st (set_server (V_Stopped None) w st)
  | Eff_server_err v w err : r_metrics st = Some (V_Serving v, w) →
      effect st (group_error err (set_server (V_Stopped (Some err)) w st))
  | Eff_shutdown v : r_metrics st = Some (v, W_Waiting) → is_Some (r_ctx st) →
      effect st (set_server (shutting_down v) W_Shutdown st)
  | Eff_shut_down v : r_metrics st = Some (v, W_Shutdown) → effect st (set_server v W_Done st)
  | Eff_return : r_main st = M_Subscribe [] → Forall (λ c, consumer_finished c = true) (r_consumers st) →
      metrics_finished (r_metrics st) = true →
      effect st (set_ctx Canceled (set_main (M_Return (waitResult (r_first st))) st)).

Lemma set_shared_id st : set_shared (r_shared st) st = st.
Proof. by destruct st. Qed.

Lemma effect_consumer i c c' st :
  r_consumers st !! i = Some c → consumer_finished c = false → consumer_finished c' = false →
  effect st (set_consumer i c' st).
Proof.
  intros. pose proof (Eff_consumer st i c c' (r_shared st)) as E. rewrite set_shared_id in E. auto.
Qed.
Lemma effect_returns i c err st :
  r_consumers st !! i = Some c → consumer_finished c = false → effect st (consumer_returns i err st).
Proof.
  intros. pose proof (Eff_returns st i c (r_shared st) err) as E. rewrite set_shared_id in E. auto.
Qed.

Lemma consumerStep_effect i now c st st' :
  r_consumers st !! i = Some c → consumerStep svc parent i now c st = Some st' → effect st st'.
Proof.
  intros Hi Hs. destruct c as [| |err|[|msg msgs]|err]; simpl in Hs; try discriminate Hs.
  - destruct (r_ctx st) as [e|]; injection Hs as <-; [by eapply effect_returns|by eapply effect_consumer].
  - destruct (r_ctx st) as [e|]; injection Hs as <-; by eapply effect_returns.
  - injection Hs as <-. by eapply effect_consumer.
  - destruct (forward _ _ _ _ _ _ _) as [s [[]|e]]; injection Hs as <-.
    + by eapply Eff_consumer.
    + by eapply Eff_returns.
Qed.

Lemma step_effect l st st' : step svc parent l st = Some st' → effect st st'.
Proof.
  intros Hs. destruct l as [err|r|i r|i now|err| |]; simpl in Hs.
  - destruct (r_parent st) eqn:Hp; [discriminate Hs|]. injection Hs as <-. by constructor.
  - destruct (r_main st) as [[|subject rest]|] eqn:Hm; [done| |done].
    destruct r; injection Hs as <-; by econstructor.
  - destruct (r_consumers st !! i) as [[]|] eqn:Hi; try discriminate Hs.
    unfold fetchStep in Hs. destruct r as [msgs|err].
    + destruct (_ <=? _); [|done]. injection Hs as <-. by eapply effect_consumer.
    + destruct (errors_Is _ _); injection Hs as <-; by eapply effect_consumer.
  - apply bind_Some in Hs as (c & Hc & Hs). by eapply consumerStep_effect.
  - destruct (r_metrics st) as [[[b|] w]|] eqn:Hm; try discriminate Hs.
    destruct err as [err|]; simpl in Hs.
    + destruct (errors_Is _ _); [destruct b; [|done]|]; injection Hs as <-.
      * by eapply Eff_server.
      * by eapply Eff_server_err.
    + destruct b; [|done]. injection Hs as <-. by eapply Eff_server.
  - apply bind_Some in Hs as ([v w] & Hm & Hs). destruct w; simpl in Hs; [| |done].
    + case_decide; [|done]. injection Hs as <-. by apply Eff_shutdown.
    + injection Hs as <-. by apply Eff_shut_down.
  - destruct (r_main st) as [[|]|] eqn:Hm; [|done..].
    destruct (forallb _ _) eqn:Hf; [|done]. destruct (metrics_finished _) eqn:Hv; [|done].
    injection Hs as <-. constructor; [done| |done]. apply Forall_forall. intros c Hin.
    rewrite forallb_forall in Hf. by apply Hf, list_elem_of_In.
Qed.

(** *** How a run ends *)

Definition main_ok (subjects : list string) st : Prop :=
  match r_main st with
  | M_Subscribe rest => ∃ pre, subjects = pre ++ rest ∧ length pre = length (r_consumers st)
  | M_Return r =>
    (∃ subject err, r = Some (Wrapf "pull subscribe %q: %w" [FStr subject] err) ∧ subject ∈ subjects)
    ∨ r = waitResult (r_first st) ∧ Forall (λ c, consumer_finished c = true) (r_consumers st)
      ∧ metrics_finished (r_metrics st) = true ∧ length (r_consumers st) = length subjects
  end.

(** The error [e] was returned by a goroutine of the group. *)
Definition returned st (e : error) : Prop :=
  (∃ i, r_consumers st !! i = Some (C_Done e)) ∨ ∃ w, r_metrics st = Some (V_Stopped (Some e), w).

Record run_inv (subjects : list string) st : Prop := {
  inv_main : main_ok subjects st;
  inv_first e : r_first st = Some e → is_Some (r_ctx st) ∧ returned st e;
  inv_done i e : r_consumers st !! i = Some (C_Done e) → is_Some (r_first st);
}.

Lemma returned_consumer i c c' s st e :
  r_consumers st !! i = Some c → consumer_finished c = false → returned st e →
  returned (set_consumer i c' (set_shared s st)) e.
Proof.
  intros Hi Hc [[j Hj]|Hw]; [left|by right]. exists j. simpl. rewrite list_lookup_insert_ne; [done|].
  intros ->. rewrite Hi in Hj. injection Hj as ->. done.
Qed.

Lemma set_consumer_done i c' s st j e :
  consumer_finished c' = false →
  r_consumers (set_consumer i c' (set_shared s st)) !! j = Some (C_Done e) →
  r_consumers st !! j = Some (C_Done e).
Proof.
  simpl. intros Hc [[_ [-> _]]|[_ ?]]%list_lookup_insert_Some; [discriminate Hc|done].
Qed.

Lemma unfinished_consumer i c st :
  r_consumers st !! i = Some c → consumer_finished c = false →
  ¬ Forall (λ c, consumer_finished c = true) (r_consumers st).
Proof. intros Hi Hc Hf. rewrite (Forall_lookup_1 _ _ _ _ Hf Hi) in Hc. done. Qed.

Lemma main_ok_step subjects st st' : main_ok subjects st → effect st st' → main_ok subjects st'.
Proof.
  unfold main_ok. intros Hm He.
  destruct He as [err Hp|subject rest Hr|subject rest err Hr|i c c' s Hi Hc Hc'|i c s err Hi Hc
    |v w Hv|v w err Hv|v Hv _|v Hv|Hr Hf Hv]; simpl in *; rewrite ?length_insert.
  - exact Hm.
  - rewrite Hr in Hm. destruct Hm as (pre & -> & Hl). exists (pre ++ [subject]).
    rewrite <- app_assoc, !length_app. simpl. by rewrite Hl.
  - rewrite Hr in Hm. destruct Hm as (pre & -> & Hl). left. exists subject, err. split; [done|].
    apply elem_of_app. right. left.
  - destruct (r_main st); [exact Hm|]. destruct Hm as [Hm|(_ & Hf & _)]; [by left|].
    by destruct (unfinished_consumer i c st Hi Hc).
  - destruct (r_main st); [exact Hm|]. destruct Hm as [Hm|(_ & Hf & _)]; [by left|].
    by destruct (unfinished_consumer i c st Hi Hc).
  - destruct (r_main st); [exact Hm|]. destruct Hm as [Hm|(_ & _ & Hf & _)]; [by left|].
    by rewrite Hv in Hf.
  - destruct (r_main st); [exact Hm|]. destruct Hm as [Hm|(_ & _ & Hf & _)]; [by left|].
    by rewrite Hv in Hf.
  - destruct (r_main st); [exact Hm|]. destruct Hm as [Hm|(_ & _ & Hf & _)]; [by left|].
    rewrite Hv in Hf. by destruct v.
  - destruct (r_main st); [exact Hm|]. destruct Hm as [Hm|(_ & _ & Hf & _)]; [by left|].
    rewrite Hv in Hf. by destruct v.
  - rewrite Hr in Hm. destruct Hm as (pre & -> & Hl). right. by rewrite app_nil_r.
Qed.

Lemma run_inv_step subjects st st' : run_inv subjects st → effect st st' → run_inv subjects st'.
Proof.
  intros [Hm Hfirst Hdone] He. split; [by eapply main_ok_step|..];
  destruct He as [err Hp|subject rest Hr|subject rest err Hr|i c c' s Hi Hc Hc'|i c s err Hi Hc
    |v w Hv|v w err Hv|v Hv _|v Hv|Hr Hf Hv].
  - intros e Hx. simpl. split; [eauto|]. by destruct (Hfirst e Hx).
  - intros e Hx. destruct (Hfirst e Hx) as [Hctx Hret]. split; [done|].
    destruct Hret as [[i Hi]|?]; [left|by right]. exists i. simpl. by apply lookup_app_l_Some.
  - apply Hfirst.
  - intros e Hx. destruct (Hfirst e Hx) as [Hctx Hret]. split; [done|]. by eapply returned_consumer.
  - intros e. simpl. intros [= <-]. split; [eauto|]. destruct (r_first st) as [e'|] eqn:Hx; simpl.
    + destruct (Hfirst e' eq_refl) as [_ Hret].
      exact (returned_consumer i c (C_Done err) s st e' Hi Hc Hret).
    + left. exists i. simpl. rewrite list_lookup_insert_eq; [done|by eapply lookup_lt_Some].
  - intros e Hx. destruct (Hfirst e Hx) as [Hctx Hret]. split; [done|].
    destruct Hret as [?|[w' Hw]]; [by left|]. by rewrite Hv in Hw.
  - intros e. simpl. intros [= <-]. split; [eauto|]. destruct (r_first st) as [e'|] eqn:Hx; simpl.
    + destruct (Hfirst e' eq_refl) as [_ [?|[w' Hw]]]; [by left|]. by rewrite Hv in Hw.
    + right. by exists w.
  - intros e Hx. destruct (Hfirst e Hx) as [Hctx Hret]. split; [done|].
    destruct Hret as [?|[w0 Hw0]]; [by left|]. right. exists W_Shutdown. simpl. rewrite Hv in Hw0.
    by injection Hw0 as -> _.
  - intros e Hx. destruct (Hfirst e Hx) as [Hctx Hret]. split; [done|].
    destruct Hret as [?|[w0 Hw0]]; [by left|]. right. exists W_Done. simpl. rewrite Hv in Hw0.
    by injection Hw0 as -> _.
  - intros e Hx. destruct (Hfirst e Hx) as [_ Hret]. split; [simpl; eauto|done].
  - apply Hdone.
  - intros j e [Hj|[_ Hj]]%lookup_app_Some; [by apply (Hdone j e)|]. by apply list_lookup_singleton_Some in Hj as [_ ?].
  - apply Hdone.
  - intros j e Hj%set_consumer_done; [|done]. by apply (Hdone j e).
  - intros j e _. simpl. eauto.
  - apply Hdone.
  - intros j e _. simpl. eauto.
  - apply Hdone.
  - apply Hdone.
  - apply Hdone.
Qed.

Lemma run_inv_start subjects s : run_inv subjects (start svc subjects s).
Proof. split; [by exists []|done|done]. Qed.

Lemma run_inv_steps subjects s ls st :
  steps svc parent ls (start svc subjects s) = Some st → run_inv subjects st.
Proof.
  apply (steps_ind (λ _ st, run_inv subjects st)); [apply run_inv_start|].
  intros ? l st1 st2 _ Hi Hs. by eapply run_inv_step, step_effect.
Qed.

(** *** After the cancellation *)

Definition cost (c : consumer) : nat :=
  match c with
  | C_Top | C_Failed _ => 1
  | C_Fetch => Z.to_nat (svc_fetchBatch svc) + 3
  | C_Forward msgs => length msgs + 2
  | C_Done _ => 0
  end.
Definition cost_metrics (m : option (server * watcher)) : nat :=
  match m with
  | None => 0
  | Some (v, w) =>
    match v with V_Serving _ => 1 | V_Stopped _ => 0 end
    + match w with W_Waiting => 2 | W_Shutdown => 1 | W_Done => 0 end
  end.
(** The steps left once [runCtx] is cancelled. *)
Definition potential st : nat :=
  sum_list_with cost (r_consumers st) + cost_metrics (r_metrics st)
  + match r_main st with M_Subscribe rest => 2 * length rest + 1 | M_Return _ => 0 end
  + match r_parent st with None => 1 | Some _ => 0 end.

Lemma sum_list_insert i c c' (l : list consumer) :
  l !! i = Some c → (sum_list_with cost (<[i := c']> l) + cost c = sum_list_with cost l + cost c')%nat.
Proof.
  revert i. induction l as [|x l IH]; intros [|i] Hi; [done..| |]; simpl in *.
  - injection Hi as ->. lia.
  - specialize (IH i Hi). lia.
Qed.

Lemma set_consumer_potential i c c' s st :
  r_consumers st !! i = Some c →
  (potential (set_consumer i c' (set_shared s st)) + cost c = potential st + cost c')%nat.
Proof.
  intros Hi. unfold potential. simpl. pose proof (sum_list_insert i c c' _ Hi). lia.
Qed.

Lemma fetchStep_potential i r st st' :
  r_consumers st !! i = Some C_Fetch → fetchStep svc i r st = Some st' →
  (potential st' < potential st)%nat.
Proof.
  intros Hi Hs. assert (∀ c, potential (set_consumer i c st) + cost C_Fetch = potential st + cost c)%nat as Hp.
  { intros c. pose proof (set_consumer_potential i C_Fetch c (r_shared st) st Hi) as Hc.
    by rewrite set_shared_id in Hc. }
  unfold fetchStep in Hs. destruct r as [msgs|err].
  - destruct (Z.leb_spec (zlen msgs) (svc_fetchBatch svc)); [|done]. injection Hs as <-.
    specialize (Hp (C_Forward msgs)). unfold zlen in *. simpl in Hp. lia.
  - destruct (errors_Is _ _); injection Hs as <-;
      [specialize (Hp C_Top)|specialize (Hp (C_Failed err))]; simpl in Hp; lia.
Qed.

Lemma consumerStep_potential i now c st st' :
  r_consumers st !! i = Some c → is_Some (r_ctx st) → consumerStep svc parent i now c st = Some st' →
  (potential st' < potential st)%nat.
Proof.
  intros Hi [e He] Hs. assert (∀ s c', potential (set_consumer i c' (set_shared s st)) + cost c
    = potential st + cost c')%nat as Hp by (intros; by apply set_consumer_potential).
  assert (∀ s err, potential (consumer_returns i err (set_shared s st)) + cost c = potential st)%nat as Hr.
  { intros s err. specialize (Hp s (C_Done err)). simpl in Hp.
    change (potential (consumer_returns i err (set_shared s st)))
      with (potential (set_consumer i (C_Done err) (set_shared s st))). lia. }
  pose proof (Hp (r_shared st)) as Hp0. pose proof (Hr (r_shared st)) as Hr0. rewrite set_shared_id in Hp0, Hr0.
  destruct c as [| |err|[|msg msgs]|err]; simpl in Hs, Hp, Hr, Hp0, Hr0; try discriminate Hs.
  - rewrite He in Hs. injection Hs as <-. specialize (Hr0 e). lia.
  - rewrite He in Hs. injection Hs as <-. specialize (Hr0 e). lia.
  - injection Hs as <-. specialize (Hp0 C_Top). simpl in Hp0. lia.
  - destruct (forward _ _ _ _ _ _ _) as [s [[]|err]]; injection Hs as <-.
    + specialize (Hp s (C_Forward msgs)). simpl in Hp. lia.
    + specialize (Hr s err). lia.
Qed.

Lemma step_ctx st st' : effect st st' → is_Some (r_ctx st) → is_Some (r_ctx st').
Proof. intros []; simpl; eauto. Qed.

Lemma step_potential l st st' :
  is_Some (r_ctx st) → step svc parent l st = Some st' → (potential st' < potential st)%nat.
Proof.
  intros Hctx Hs. destruct l as [err|r|i r|i now|err| |]; simpl in Hs.
  - destruct (r_parent st) eqn:Hp; [discriminate Hs|]. injection Hs as <-. unfold potential. simpl.
    rewrite Hp. lia.
  - unfold potential. destruct (r_main st) as [[|subject rest]|] eqn:Hm; [done| |done].
    destruct r; injection Hs as <-; simpl; rewrite ?sum_list_with_app; simpl; lia.
  - destruct (r_consumers st !! i) as [[]|] eqn:Hi; try discriminate Hs. by eapply fetchStep_potential.
  - apply bind_Some in Hs as (c & Hc & Hs). by eapply consumerStep_potential.
  - unfold potential. destruct (r_metrics st) as [[[b|] w]|] eqn:Hm; try discriminate Hs.
    destruct err as [err|]; simpl in Hs.
    + destruct (errors_Is _ _); [destruct b; [|done]|]; injection Hs as <-; simpl; lia.
    + destruct b; [|done]. injection Hs as <-. simpl. lia.
  - unfold potential. apply bind_Some in Hs as ([v w] & Hm & Hs). rewrite Hm.
    destruct w; simpl in Hs; [| |done].
    + case_decide; [|done]. injection Hs as <-. simpl. destruct v; simpl; lia.
    + injection Hs as <-. simpl. lia.
  - unfold potential. destruct (r_main st) as [[|]|] eqn:Hm; [|done..]. destruct (_ && _); [|done].
    injection Hs as <-. simpl. lia.
Qed.

Lemma steps_potential ls st st' :
  is_Some (r_ctx st) → steps svc parent ls st = Some st' →
  (length ls + potential st' <= potential st)%nat ∧ is_Some (r_ctx st').
Proof.
  revert st. induction ls as [|l ls IH]; intros st Hctx.
  - intros [= <-]. split; [simpl; lia|done].
  - intros (st1 & Hs & Hls)%bind_Some. pose proof (step_potential _ _ _ Hctx Hs).
    destruct (IH st1) as [Hl Hctx']; [by eapply step_ctx; [eapply step_effect|]|done|].
    split; [simpl; lia|done].
Qed.

(** [Shutdown] was called on the server exactly when the watcher is past its wait. *)
Definition metrics_ok st : Prop :=
  match r_metrics st with
  | Some (V_Serving b, w) => b = match w with W_Waiting => false | _ => true end
  | _ => True
  end.

Lemma metrics_ok_step st st' : metrics_ok st → effect st st' → metrics_ok st'.
Proof.
  unfold metrics_ok. intros Hm []; simpl in *; try done.
  - by destruct v.
  - match goal with E : r_metrics st = _ |- _ => rewrite E in Hm end. by destruct v.
Qed.

(** The actions that do not wait for the outside to end the context or for the
    listener to fail: those of the goroutines, the returns of the calls of NATS, and
    the return of [ListenAndServe] that [Shutdown] causes. *)
Definition own (l : label) : bool :=
  match l with
  | L_Parent _ => false
  | L_Serve (Some err) => errors_Is err "http.ErrServerClosed"
  | _ => true
  end.

(** A goroutine that has not finished can act once [runCtx] is cancelled. *)
Lemma consumer_enabled i c st :
  r_consumers st !! i = Some c → consumer_finished c = false →
  ∃ l, own l = true ∧ step svc parent l st ≠ None.
Proof.
  intros Hi Hc. destruct c as [| |err|msgs|err]; [| | | |discriminate Hc];
    [exists (L_Consumer i 0)|exists (L_Fetch i (Err (Sentinel "nats.ErrTimeout")))|
     exists (L_Consumer i 0)|exists (L_Consumer i 0)]; (split; [done|]); simpl; rewrite Hi; simpl.
  - by destruct (r_ctx st).
  - done.
  - by destruct (r_ctx st).
  - destruct msgs as [|msg msgs]; [done|]. by destruct (forward _ _ _ _ _ _ _) as [s [[]|e]].
Qed.

Lemma metrics_enabled st :
  is_Some (r_ctx st) → metrics_ok st → metrics_finished (r_metrics st) = false →
  ∃ l, own l = true ∧ step svc parent l st ≠ None.
Proof.
  unfold metrics_ok. intros Hctx Hm Hf. destruct (r_metrics st) as [[v w]|] eqn:E; [|discriminate Hf].
  destruct w.
  - exists L_Watch. split; [done|]. simpl. rewrite E. simpl. by rewrite decide_True.
  - exists L_Watch. split; [done|]. simpl. by rewrite E.
  - destruct v as [b|err]; [|discriminate Hf]. subst b.
    exists (L_Serve (Some ErrServerClosed)). split; [done|]. simpl. by rewrite E.
Qed.

Lemma not_Forall_lookup (l : list consumer) :
  Forall (λ c, consumer_finished c = true) l ∨ ∃ i c, l !! i = Some c ∧ consumer_finished c = false.
Proof.
  induction l as [|c l [IH|(i & c' & Hi & Hc)]]; [by left; constructor| |].
  - destruct (consumer_finished c) eqn:Hc; [left; by constructor|right; by exists 0%nat, c].
  - right. by exists (Datatypes.S i), c'.
Qed.

Lemma stuck_returned st :
  is_Some (r_ctx st) → metrics_ok st → (∀ l, own l = true → step svc parent l st = None) →
  (∃ r, r_main st = M_Return r) ∧ Forall (λ c, consumer_finished c = true) (r_consumers st)
  ∧ metrics_finished (r_metrics st) = true.
Proof.
  intros Hctx Hm Hstuck.
  assert (Forall (λ c, consumer_finished c = true) (r_consumers st)) as Hf.
  { destruct (not_Forall_lookup (r_consumers st)) as [?|(i & c & Hi & Hc)]; [done|].
    destruct (consumer_enabled i c st Hi Hc) as (l & Ho & Hl). by destruct (Hl (Hstuck l Ho)). }
  assert (metrics_finished (r_metrics st) = true) as Hv.
  { destruct (metrics_finished _) eqn:E; [done|].
    destruct (metrics_enabled st Hctx Hm E) as (l & Ho & Hl). by destruct (Hl (Hstuck l Ho)). }
  split; [|done]. destruct (r_main st) as [[|subject rest]|r] eqn:Hr; [| |by exists r].
  - specialize (Hstuck L_Return eq_refl). simpl in Hstuck. rewrite Hr, Hv, andb_true_r in Hstuck.
    assert (forallb consumer_finished (r_consumers st) = true) as Hall; [|by rewrite Hall in Hstuck].
    apply forallb_forall. intros c Hc%list_elem_of_In. rewrite Forall_forall in Hf. by apply Hf.
  - specialize (Hstuck (L_Subscribe (Ok tt)) eq_refl). simpl in Hstuck. by rewrite Hr in Hstuck.
Qed.

Lemma metrics_ok_steps subjects s ls st :
  steps svc parent ls (start svc subjects s) = Some st → metrics_ok st.
Proof.
  apply (steps_ind (λ _ st, metrics_ok st)).
  - unfold metrics_ok, start. simpl. by destruct (serves svc).
  - intros ? l st1 st2 _ Hi Hs. by eapply metrics_ok_step, step_effect.
Qed.

(** *** What the consumers do together *)

(** The messages fetched by one consumer. *)
Definition fetched_by (i : nat) (ls : list label) : list SourceMsg :=
  concat ((λ l, match l with
                | L_Fetch j (Ok msgs) => if decide (j = i) then msgs else []
                | _ => []
                end) <$> ls).

(** What one call of [forward] added to the trace: its consumer, its message. *)
Definition block : Type := nat * SourceMsg * list bridge_event.
Definition handled_by (i : nat) (blocks : list block) : list SourceMsg :=
  (λ b : block, b.1.2) <$> filter (λ b : block, b.1.1 = i) blocks.

Definition block_ok st (b : block) : Prop :=
  b.2 = expected (mapper svc) b.1.2
  ∨ failed_trace (mapper svc) b.1.2 b.2 ∧ ∃ e, r_consumers st !! b.1.1 = Some (C_Done e).

Definition pending (c : consumer) : list SourceMsg :=
  match c with C_Forward msgs => msgs | _ => [] end.

Record run_trace (t0 : list bridge_event) (ls : list label) st (blocks : list block) : Prop := {
  rt_trace : st_trace (r_shared st) = t0 ++ concat ((λ b : block, b.2) <$> blocks);
  rt_blocks : Forall (block_ok st) blocks;
  rt_order i :
    match r_consumers st !! i with
    | Some (C_Done _) => handled_by i blocks `prefix_of` fetched_by i ls
    | Some c => fetched_by i ls = handled_by i blocks ++ pending c
    | None => fetched_by i ls = [] ∧ handled_by i blocks = []
    end;
}.

Lemma fetched_by_app i ls l :
  fetched_by i (ls ++ [l])
  = fetched_by i ls ++ match l with
                       | L_Fetch j (Ok msgs) => if decide (j = i) then msgs else []
                       | _ => []
                       end.
Proof. unfold fetched_by. rewrite fmap_app, concat_app. simpl. by rewrite app_nil_r. Qed.

Lemma handled_by_app i blocks b :
  handled_by i (blocks ++ [b]) = handled_by i blocks ++ (if decide (b.1.1 = i) then [b.1.2] else []).
Proof.
  unfold handled_by. rewrite filter_app, fmap_app, filter_cons, filter_nil. by case_decide.
Qed.

(** Only the shared state and the consumers matter. *)
Lemma run_trace_ext t0 ls l st st' blocks :
  r_shared st' = r_shared st → r_consumers st' = r_consumers st →
  match l with L_Fetch _ (Ok _) => False | _ => True end →
  run_trace t0 ls st blocks → run_trace t0 (ls ++ [l]) st' blocks.
Proof.
  intros Hs Hc Hl [Ht Hb Ho]. split.
  - by rewrite Hs.
  - unfold block_ok in *. by rewrite Hc.
  - intros i. rewrite Hc, fetched_by_app.
    assert (match l with L_Fetch j (Ok msgs) => if decide (j = i) then msgs else [] | _ => [] end = [])
      as -> by (by destruct l as [| |j []| | | |]).
    rewrite app_nil_r. apply Ho.
Qed.

Lemma block_ok_set i c c' s st b :
  r_consumers st !! i = Some c → consumer_finished c = false →
  block_ok st b → block_ok (set_consumer i c' (set_shared s st)) b.
Proof.
  intros Hi Hc [?|[Hf [e He]]]; [by left|right]. split; [done|]. exists e. simpl.
  rewrite list_lookup_insert_ne; [done|]. intros ->. rewrite Hi in He. injection He as ->. done.
Qed.

(** An action of consumer [i] that adds [new] to the fetched messages and the
    blocks [bs] to the trace. *)
Lemma run_trace_consumer t0 ls l i c c' s st blocks bs new :
  run_trace t0 ls st blocks → r_consumers st !! i = Some c → consumer_finished c = false →
  st_trace s = st_trace (r_shared st) ++ concat ((λ b : block, b.2) <$> bs) →
  Forall (λ b, b.1.1 = i ∧ block_ok (set_consumer i c' (set_shared s st)) b) bs →
  (∀ j, match l with L_Fetch k (Ok msgs) => if decide (k = j) then msgs else [] | _ => [] end
        = if decide (i = j) then new else []) →
  (if consumer_finished c' then ((λ b : block, b.1.2) <$> bs) `prefix_of` pending c ++ new
   else pending c ++ new = ((λ b : block, b.1.2) <$> bs) ++ pending c') →
  run_trace t0 (ls ++ [l]) (set_consumer i c' (set_shared s st)) (blocks ++ bs).
Proof.
  intros [Ht Hb Ho] Hi Hc Hs Hbs Hl Hp. split.
  - simpl. by rewrite Hs, Ht, fmap_app, concat_app, app_assoc.
  - apply Forall_app. split.
    + eapply Forall_impl; [exact Hb|]. intros b. by apply (block_ok_set i c).
    + eapply Forall_impl; [exact Hbs|]. by intros b [_ ?].
  - intros j. specialize (Ho j). rewrite fetched_by_app, Hl. unfold handled_by in *.
    rewrite filter_app, fmap_app. simpl. destruct (decide (i = j)) as [<-|Hne].
    + rewrite list_lookup_insert_eq by (by eapply lookup_lt_Some). rewrite Hi in Ho.
      assert (filter (λ b : block, b.1.1 = i) bs = bs) as ->.
      { apply list_filter_all. eapply Forall_impl; [exact Hbs|]. by intros b [? _]. }
      assert (fetched_by i ls = ((λ b : block, b.1.2) <$> filter (λ b : block, b.1.1 = i) blocks) ++ pending c)
        as Hf by (by destruct c).
      rewrite Hf, <- app_assoc. destruct c'; simpl in Hp; try (rewrite Hp; by rewrite <- ?app_assoc).
      by apply prefix_app.
    + rewrite list_lookup_insert_ne by done.
      assert (filter (λ b : block, b.1.1 = j) bs = []) as ->.
      { apply list_filter_none. eapply Forall_impl; [exact Hbs|]. intros b [? _]. congruence. }
      simpl. by rewrite !app_nil_r.
Qed.

(** The case of an action that adds nothing to the trace. *)
Lemma run_trace_quiet t0 ls l i c c' st blocks new :
  run_trace t0 ls st blocks → r_consumers st !! i = Some c → consumer_finished c = false →
  (∀ j, match l with L_Fetch k (Ok msgs) => if decide (k = j) then msgs else [] | _ => [] end
        = if decide (i = j) then new else []) →
  (consumer_finished c' = true ∨ pending c ++ new = pending c') →
  run_trace t0 (ls ++ [l]) (set_consumer i c' st) blocks.
Proof.
  intros Hr Hi Hc Hl Hp. rewrite <- (app_nil_r blocks). rewrite <- (set_shared_id st) at 1.
  apply (run_trace_consumer t0 ls l i c c' (r_shared st) st blocks [] new); try done.
  - by rewrite app_nil_r.
  - destruct Hp as [-> | ->]; [apply prefix_nil|]. destruct c'; [done..|apply prefix_nil].
Qed.

Lemma run_trace_forward t0 ls i now c st st' blocks :
  run_trace t0 ls st blocks → r_consumers st !! i = Some c →
  consumerStep svc parent i now c st = Some st' →
  ∃ blocks', run_trace t0 (ls ++ [L_Consumer i now]) st' blocks'.
Proof.
  intros Hr Hi Hs. assert (∀ j, [] = if decide (i = j) then [] else [] :> list SourceMsg) as Hnil
    by (intros; by case_decide).
  assert (∀ err st1, r_shared (group_error err st1) = r_shared st1
    ∧ r_consumers (group_error err st1) = r_consumers st1) as Hg by done.
  assert (∀ err, consumer_finished c = false → ∃ blocks',
    run_trace t0 (ls ++ [L_Consumer i now]) (consumer_returns i err st) blocks') as Hret.
  { intros err Hc. exists blocks.
    destruct (run_trace_quiet t0 ls (L_Consumer i now) i c (C_Done err) st blocks [] Hr Hi Hc Hnil
      (or_introl eq_refl)) as [Ht Hb Ho]. by split. }
  destruct c as [| |err|[|msg msgs]|err]; simpl in Hs; try discriminate Hs.
  - destruct (r_ctx st); injection Hs as <-; [by apply Hret|]. exists blocks.
    by apply (run_trace_quiet t0 ls _ i C_Top C_Fetch st blocks []); auto.
  - destruct (r_ctx st); injection Hs as <-; by apply Hret.
  - injection Hs as <-. exists blocks.
    by apply (run_trace_quiet t0 ls _ i (C_Forward []) C_Top st blocks []); auto.
  - pose proof (forward_trace now parent (TargetStream (svc_cfg svc)) (svc_publishTimeout svc)
      (mapper svc) msg (r_shared st)) as Hf.
    destruct (forward _ _ _ _ _ _ _) as [s r]. destruct Hf as (t & Ht & Hres).
    exists (blocks ++ [(i, msg, t)]). destruct r as [u|err]; injection Hs as <-.
    + apply (run_trace_consumer t0 ls _ i (C_Forward (msg :: msgs)) (C_Forward msgs) s st blocks _ []);
        try done; simpl; rewrite ?app_nil_r; [done| |done].
      apply Forall_singleton. split; [done|by left].
    + destruct (run_trace_consumer t0 ls (L_Consumer i now) i (C_Forward (msg :: msgs)) (C_Done err) s st
        blocks [(i, msg, t)] []) as [Ht' Hb Ho]; try done; simpl; rewrite ?app_nil_r.
      * done.
      * apply Forall_singleton. split; [done|]. right. split; [done|]. exists err. simpl.
        rewrite list_lookup_insert_eq; [done|by eapply lookup_lt_Some].
      * by exists msgs.
Qed.

Lemma run_trace_step t0 ls l st st' blocks :
  run_trace t0 ls st blocks → step svc parent l st = Some st' →
  ∃ blocks', run_trace t0 (ls ++ [l]) st' blocks'.
Proof.
  intros Hr Hs. destruct l as [err|r|i r|i now|err| |]; simpl in Hs.
  - destruct (r_parent st); [done|]. injection Hs as <-. exists blocks.
    by apply (run_trace_ext t0 ls _ st).
  - destruct (r_main st) as [[|subject rest]|] eqn:Hm; [done| |done]. exists blocks.
    destruct r; injection Hs as <-; [|by apply (run_trace_ext t0 ls _ st)].
    destruct Hr as [Ht Hb Ho]. split; [done| |].
    + eapply Forall_impl; [exact Hb|]. intros b [?|[Hf [e He]]]; [by left|right]. split; [done|].
      exists e. simpl. by apply lookup_app_l_Some.
    + intros i. specialize (Ho i). rewrite fetched_by_app, app_nil_r. simpl.
      destruct (decide (i < length (r_consumers st))%nat) as [Hlt|Hge].
      * by rewrite lookup_app_l.
      * rewrite (lookup_ge_None_2 (r_consumers st)) in Ho by lia. destruct Ho as [Hf Hh].
        destruct ((r_consumers st ++ [C_Top]) !! i) as [c|] eqn:E; [|done].
        rewrite lookup_app_r in E by lia. apply list_lookup_singleton_Some in E as [_ <-].
        simpl. by rewrite Hf, Hh.
  - destruct (r_consumers st !! i) as [[]|] eqn:Hi; try discriminate Hs. exists blocks.
    unfold fetchStep in Hs. destruct r as [msgs|err].
    + destruct (_ <=? _); [|done]. injection Hs as <-.
      by apply (run_trace_quiet t0 ls _ i C_Fetch (C_Forward msgs) st blocks msgs); auto.
    + destruct (errors_Is _ _); injection Hs as <-; (eapply (run_trace_quiet t0 ls _ i C_Fetch _ st blocks []);
        [done..|intros; by case_decide|by right]).
  - apply bind_Some in Hs as (c & Hc & Hs). by apply (run_trace_forward t0 ls i now c st st' blocks).
  - exists blocks. destruct (r_metrics st) as [[[b|] w]|]; try discriminate Hs.
    destruct err as [err|]; simpl in Hs.
    + destruct (errors_Is _ _); [destruct b; [|done]|]; injection Hs as <-; by apply (run_trace_ext t0 ls _ st).
    + destruct b; [|done]. injection Hs as <-. by apply (run_trace_ext t0 ls _ st).
  - exists blocks. apply bind_Some in Hs as ([v w] & Hm & Hs). destruct w; simpl in Hs; [| |done].
    + case_decide; [|done]. injection Hs as <-. by apply (run_trace_ext t0 ls _ st).
    + injection Hs as <-. by apply (run_trace_ext t0 ls _ st).
  - exists blocks. destruct (r_main st) as [[|]|]; [|done..]. destruct (_ && _); [|done].
    injection Hs as <-. by apply (run_trace_ext t0 ls _ st).
Qed.

Lemma run_trace_steps subjects s ls st :
  steps svc parent ls (start svc subjects s) = Some st →
  ∃ blocks, run_trace (st_trace s) ls st blocks.
Proof.
  apply (steps_ind (λ ls st, ∃ blocks, run_trace (st_trace s) ls st blocks)).
  - exists []. split; [by rewrite app_nil_r|constructor|done].
  - intros ls' l st1 st2 _ [blocks Hr] Hs. by eapply run_trace_step.
Qed.

Lemma block_acked m msg t msg' mapped :
  t = expected m msg ∨ failed_trace m msg t → E_Ack msg' true ∈ t → m (sm_Subject msg') = Some mapped →
  E_Publish msg' (mkNatsMsg mapped (sm_Data msg') (sm_Header msg')) true ∈ t.
Proof.
  unfold expected, failed_trace. intros Ht Hin Hm.
  destruct (m (sm_Subject msg)) as [mapped0|] eqn:Hm0.
  - assert (msg' = msg) as ->.
    { destruct Ht as [-> |[-> |[-> | ->]]]; rewrite !elem_of_cons, elem_of_nil in Hin; naive_solver. }
    rewrite Hm in Hm0. injection Hm0 as ->.
    destruct Ht as [-> |[-> |[-> | ->]]]; rewrite !elem_of_cons, elem_of_nil in Hin |- *; naive_solver.
  - destruct Ht as [-> | ->]; rewrite !elem_of_cons, elem_of_nil in Hin; naive_solver congruence.
Qed.

(** After a return of [Run] without consumers only the server and the given
    context change. *)
Lemma returned_stays ls st st' :
  r_consumers st = [] → (∃ r, r_main st = M_Return r) → steps svc parent ls st = Some st' →
  r_main st' = r_main st.
Proof.
  revert st. induction ls as [|l ls IH]; intros st Hc [r Hr]; simpl.
  { by intros [= <-]. }
  intros (st1 & Hs & Hls)%bind_Some.
  assert (r_main st1 = r_main st ∧ r_consumers st1 = []) as [Hm1 Hc1].
  { apply step_effect in Hs. destruct Hs; simpl in *; rewrite ?Hc; try done; congruence. }
  rewrite <- Hm1. apply IH; [done| |done]. exists r. congruence.
Qed.

(** ** Properties *)

(** C5. Forwarding under concurrency. For any interleaving of the consumers, the
    subscriptions, the metrics server and the outside: the trace is made of the
    calls of [forward], each of one consumer and one message; each consumer
    handles the messages it fetched in their order; a call either did all that
    forwarding means or is the last of its consumer. So a message is
    acknowledged only when the mapper drops it or after the target accepted its
    translation, and a consumer that has not returned has handled every message it
    fetched but those it still holds. *)
Theorem Run_forwards subjects s ls st :
  steps svc parent ls (start svc subjects s) = Some st →
  ∃ blocks, st_trace (r_shared st) = st_trace s ++ concat ((λ b : block, b.2) <$> blocks)
  ∧ Forall (block_ok st) blocks
  ∧ (∀ i c, r_consumers st !! i = Some c →
      handled_by i blocks `prefix_of` fetched_by i ls
      ∧ (consumer_finished c = false → fetched_by i ls = handled_by i blocks ++ pending c))
  ∧ ∀ msg mapped, E_Ack msg true ∈ concat ((λ b : block, b.2) <$> blocks) →
      mapper svc (sm_Subject msg) = Some mapped →
      E_Publish msg (mkNatsMsg mapped (sm_Data msg) (sm_Header msg)) true
        ∈ concat ((λ b : block, b.2) <$> blocks).
Proof.
  intros Hs. destruct (run_trace_steps subjects s ls st Hs) as [blocks [Ht Hb Ho]].
  exists blocks. split; [exact Ht|]. split; [exact Hb|]. split.
  - intros i c Hi. specialize (Ho i). rewrite Hi in Ho.
    destruct c; split; try done; rewrite Ho; by apply prefix_app_r.
  - intros msg mapped Hin Hm. apply elem_of_concat in Hin as (t & Hin & Ht').
    apply list_elem_of_fmap in Ht' as (b & -> & Hb'). apply elem_of_concat. exists b.2.
    split; [|apply list_elem_of_fmap; by exists b]. rewrite Forall_forall in Hb.
    apply (block_acked (mapper svc) b.1.2); [|done|done]. destruct (Hb b Hb') as [?|[? _]]; auto.
Qed.

(** What [Run] returns once it has subjects: the error of a failed subscription,
    or, when every goroutine of the group has returned, an error that one of them
    returned, as [context.Canceled] itself when it wraps it. It never returns nil:
    there is one consumer per subject, and a consumer only stops with an
    error. *)
Theorem Run_result subjects s ls st r :
  subjects ≠ [] → steps svc parent ls (start svc subjects s) = Some st → r_main st = M_Return r →
  (∃ subject err, subject ∈ subjects ∧ r = Some (Wrapf "pull subscribe %q: %w" [FStr subject] err))
  ∨ ∃ err, returned st err ∧ r = Some (if errors_Is err "context.Canceled" then Canceled else err)
    ∧ Forall (λ c, consumer_finished c = true) (r_consumers st)
    ∧ length (r_consumers st) = length subjects ∧ metrics_finished (r_metrics st) = true.
Proof.
  intros Hne Hs Hr. destruct (run_inv_steps subjects s ls st Hs) as [Hm Hfirst Hdone].
  unfold main_ok in Hm. rewrite Hr in Hm.
  destruct Hm as [(subject & err & -> & Hin)|(-> & Hf & Hv & Hl)]; [left; eauto|right].
  destruct (r_consumers st) as [|c cs] eqn:Hc; [by destruct subjects|].
  assert (is_Some (r_first st)) as [e He].
  { pose proof (Forall_inv Hf). destruct c as [| | | |err]; try done. by apply (Hdone 0%nat err). }
  exists e. rewrite He. destruct (Hfirst e He) as [_ Hret]. auto.
Qed.

(** C18. Cancellation. Once [runCtx] is cancelled, by the end of the given context or
    by the first error of a goroutine, at most [potential] steps are left,
    whatever is chosen for them. And as long as [Run] has not returned or a
    goroutine has not, the program itself can go on: one of its goroutines can act,
    a call of NATS can return, or [ListenAndServe] returns because [Shutdown] was
    called; the run never waits for the given context to end or for the listener to
    fail. So every run then ends, with the server shut down and no goroutine
    left. *)
Theorem Run_stops subjects s ls0 st :
  steps svc parent ls0 (start svc subjects s) = Some st → is_Some (r_ctx st) →
  ∀ ls st', steps svc parent ls st = Some st' →
  (length ls <= potential st)%nat
  ∧ ((∀ l, own l = true → step svc parent l st' = None) →
     (∃ r, r_main st' = M_Return r) ∧ Forall (λ c, consumer_finished c = true) (r_consumers st')
     ∧ metrics_finished (r_metrics st') = true).
Proof.
  intros Hls0 Hctx ls st' Hls. destruct (steps_potential ls st st' Hctx Hls) as [Hl Hctx'].
  split; [lia|]. intros Hstuck. apply stuck_returned; [done| |done].
  apply (metrics_ok_steps subjects s (ls0 ++ ls)). by rewrite steps_app, Hls0.
Qed.

(** A failed first subscription. With the metrics server on, [Run] returns the
    error while both goroutines of the server are left running, with a context
    that nothing in the program cancels any more: the next action, if any, is the
    end of the given context or the failure of the listener itself. *)
Theorem Run_leaks_server subject rest s err ls st :
  serves svc = true →
  steps svc parent (L_Subscribe (Err err) :: ls) (start svc (subject :: rest) s) = Some st →
  r_main st = M_Return (Some (Wrapf "pull subscribe %q: %w" [FStr subject] err))
  ∧ match ls with
    | [] => r_metrics st = Some (V_Serving false, W_Waiting)
    | L_Parent _ :: _ => True
    | L_Serve (Some e) :: _ => errors_Is e "http.ErrServerClosed" = false
    | _ => False
    end.
Proof.
  intros Hserve Hs. unfold start in Hs. rewrite Hserve in Hs. simpl in Hs. split.
  - apply returned_stays in Hs as ->; [done|done|by eexists].
  - destruct ls as [|l ls]; [by injection Hs as <-|].
    apply bind_Some in Hs as (st1 & Hs & _). destruct l as [|r|i r|i now|[e|]| |]; simpl in Hs; try done.
    by destruct (errors_Is e _).
Qed.

End run_lemmas.

(** ** Witnesses *)

(** A registry and nothing else. *)
#[local] Program Instance test_prometheus : Prometheus := {|
  Registerer := (); Gatherer := (); Registry := (); NewRegistry := tt; DefaultGatherer := tt;
  as_Gatherer := Some; as_Registerer := Some; registry_Registerer := id; registry_Gatherer := id;
|}.
Next Obligation. done. Qed.
Next Obligation. done. Qed.

#[local] Existing Instance example_target.
#[local] Existing Instance example_source.
#[local] Existing Instance example_header_order.

Definition run_config : Config := mkConfig "nats://s" "nats://t" "DEX" "LEGACY" [] "".
Definition run_service : Service :=
  match @New _ insertion_SortSlice run_config [Some (WithMetricsServer ":9090")] with
  | Ok svc => svc
  | Err _ => mkService run_config None 0 0 0 false None ""
  end.
Definition run_shared : state () () := mkState tt tt (mkServiceMetrics ∅ ∅ ∅ ∅) [].

(** Two consumers, whose messages interleave, until the context is cancelled. *)
Definition run_labels : list label :=
  [L_Subscribe (Ok tt); L_Consumer 0 10; L_Subscribe (Ok tt);
   L_Fetch 0 (Ok [example_msg "dex.sol.x"; example_msg "dex.sol.y"]); L_Consumer 1 10;
   L_Consumer 0 11; L_Fetch 1 (Ok [example_msg "dex.sol.tx"]); L_Consumer 1 12].
Definition run_closing : list label :=
  [L_Parent Canceled; L_Consumer 0 13; L_Watch; L_Consumer 1 13; L_Consumer 0 13; L_Consumer 1 13;
   L_Serve (Some ErrServerClosed); L_Consumer 0 13; L_Watch; L_Return].
Definition run_at (ls : list label) : run_state () () :=
  default (start run_service [] run_shared)
    (steps run_service Background ls (start run_service ["a"; "b"] run_shared)).

Lemma Run_forwards_witness :
  length (st_trace (r_shared (run_at run_labels))) = 4%nat
  ∧ ∃ blocks, st_trace (r_shared (run_at run_labels)) = [] ++ concat ((λ b : block, b.2) <$> blocks)
    ∧ Forall (block_ok run_service (run_at run_labels)) blocks.
Proof.
  split; [vm_compute; reflexivity|].
  destruct (Run_forwards run_service Background ["a"; "b"] run_shared run_labels (run_at run_labels))
    as (blocks & Ht & Hb & _).
  - vm_compute. reflexivity.
  - exists blocks. split; [exact Ht|exact Hb].
Defined.

Lemma Run_result_witness :
  r_main (run_at (run_labels ++ run_closing)) = M_Return (Some Canceled)
  ∧ Forall (λ c, consumer_finished c = true) (r_consumers (run_at (run_labels ++ run_closing))).
Proof.
  split; [vm_compute; reflexivity|].
  destruct (Run_result run_service Background ["a"; "b"] run_shared (run_labels ++ run_closing)
    (run_at (run_labels ++ run_closing)) (Some Canceled)) as [(subject & err & _ & E)|(err & _ & _ & Hf & _)].
  - discriminate.
  - vm_compute. reflexivity.
  - vm_compute. reflexivity.
  - discriminate E.
  - exact Hf.
Defined.

Lemma run_closed_stuck l :
  own l = true → step run_service Background l (run_at (run_labels ++ run_closing)) = None.
Proof.
  assert (r_consumers (run_at (run_labels ++ run_closing)) = replicate 2 (C_Done Canceled)) as Hc
    by (vm_compute; reflexivity).
  destruct l as [err|r|i r|i now|err| |]; intros Ho; [discriminate Ho| | | | |vm_compute; reflexivity..].
  - vm_compute. reflexivity.
  - unfold step. rewrite Hc. by destruct i as [|[|i]].
  - unfold step. rewrite Hc. by destruct i as [|[|i]].
  - assert (r_metrics (run_at (run_labels ++ run_closing)) = Some (V_Stopped None, W_Done)) as Hm
      by (vm_compute; reflexivity).
    unfold step. by rewrite Hm.
Qed.

Lemma Run_stops_witness :
  (9 <= potential run_service (run_at (run_labels ++ take 1 run_closing)))%nat
  ∧ ∃ r, r_main (run_at (run_labels ++ run_closing)) = M_Return r.
Proof.
  destruct (Run_stops run_service Background ["a"; "b"] run_shared (run_labels ++ take 1 run_closing)
    (run_at (run_labels ++ take 1 run_closing))) with (ls := drop 1 run_closing)
    (st' := run_at (run_labels ++ run_closing)) as [Hl Hstuck].
  - vm_compute. reflexivity.
  - vm_compute. eexists. reflexivity.
  - vm_compute. reflexivity.
  - split; [exact Hl|]. exact (proj1 (Hstuck run_closed_stuck)).
Defined.

Lemma Run_leaks_server_witness :
  r_metrics (run_at [L_Subscribe (Err (Sentinel "nats.ErrTimeout"))]) = Some (V_Serving false, W_Waiting).
Proof.
  destruct (Run_leaks_server run_service Background "a" ["b"] run_shared (Sentinel "nats.ErrTimeout") []
    (run_at [L_Subscribe (Err (Sentinel "nats.ErrTimeout"))])) as [_ Hm].
  - vm_compute. reflexivity.
  - vm_compute. reflexivity.
  - exact Hm.
Defined.
