(* ===== verification/BridgeRefine.v ===== *)
(** * Legacy bridge: the run of one subject is its loop

    [Bridge.consumeLoop] reads as the source does: one function from what the
    outside answers to the state and the result. In [BridgeRun.v] the same goroutine
    is a program counter that one label at a time moves, among the other goroutines.
    Here the two are the same for a stream of one subject: what one can reach the
    other computes. *)

From S2P Require Import Prelude GoStrings Bytes Publisher Bridge BridgeRun.
From Stdlib Require Import Ascii.
Local Open Scope list_scope.

Section refine.
Context `{Prometheus} {J S : Type} `{JetStream J, AckSource S, !RangeOrder string (list string)}.
Context (svc : Service) (parent : context) (subject : string).
Notation run_st := (run_state J S).
Implicit Types st : run_st.
Implicit Types s : state J S.

Notation loop := (consumeLoop (J := J) (S := S) parent (TargetStream (svc_cfg svc))
  (svc_publishTimeout svc) (mapper svc)).
Notation fwd := (forwardAt (J := J) (S := S) parent (TargetStream (svc_cfg svc))
  (svc_publishTimeout svc) (mapper svc)).

(** What the outside may do: [Fetch] returns at most the messages it was asked
    for. *)
Definition batch_ok (rd : round) : Prop :=
  match rd_fetch rd with Ok msgs => zlen msgs <= svc_fetchBatch svc | Err _ => True end.
(** The loop with this state and result for some answers of the outside. *)
Definition loops s s' (r : option error) : Prop :=
  ∃ rounds, Forall batch_ok rounds ∧ loop rounds s = (s', r).

Definition loop_state (r : option error) : consumer :=
  match r with None => C_Top | Some err => C_Done err end.

(** ** From the run to the loop *)

Lemma consumeLoop_app rounds1 rounds2 s :
  loop (rounds1 ++ rounds2) s
  = match loop rounds1 s with (s', None) => loop rounds2 s' | (s', Some err) => (s', Some err) end.
Proof.
  revert s. induction rounds1 as [|rd rounds1 IH]; intros s; [done|]. simpl.
  destruct (rd_ctxErr rd); [done|]. destruct (rd_fetch rd) as [msgs|err].
  - destruct (M_for msgs fwd s) as [s' [[]|e]]; [apply IH|done].
  - destruct (errors_Is err _); [apply IH|]. by destruct (rd_ctxErrAfter rd).
Qed.

Lemma loops_start s : loops s s None.
Proof. exists []. split; [constructor|done]. Qed.

(** One more turn. *)
Lemma loops_turn s s1 s' rd r :
  loops s s1 None → batch_ok rd → loop [rd] s1 = (s', r) → loops s s' r.
Proof.
  intros (rounds & Hb & Hl) Hrd Ht. exists (rounds ++ [rd]). split.
  - apply Forall_app. split; [done|by constructor].
  - by rewrite consumeLoop_app, Hl.
Qed.

(** What the loop has done at a program point. *)
Definition at_point s (c : consumer) s' : Prop :=
  match c with
  | C_Top | C_Fetch => loops s s' None
  | C_Failed err => loops s s' None ∧ errors_Is err "nats.ErrTimeout" = false
  | C_Forward rest => ∃ pre s1, loops s s1 None ∧ M_for pre fwd s1 = (s', Ok tt)
      ∧ zlen pre + zlen rest <= svc_fetchBatch svc
  | C_Done err => loops s s' (Some err)
  end.

Definition subjects_left st : nat :=
  match r_main st with M_Subscribe rest => length rest | M_Return _ => 0 end.

Record simulates s st : Prop := {
  sim_one : (length (r_consumers st) + subjects_left st <= 1)%nat;
  sim_point : match r_consumers st with c :: _ => at_point s c (r_shared st) | [] => r_shared st = s end;
}.

Lemma simulates_consumer s st i c :
  simulates s st → r_consumers st !! i = Some c → i = 0%nat ∧ r_consumers st = [c] ∧ at_point s c (r_shared st).
Proof.
  intros [Hone Hp] Hi. destruct (r_consumers st) as [|c' [|c'' cs]]; [done| |simpl in Hone; lia].
  apply list_lookup_singleton_Some in Hi as [-> <-]. done.
Qed.

(** The consumer moves. *)
Lemma simulates_move s st c c' s' st' :
  simulates s st → r_consumers st = [c] → at_point s c' s' →
  r_shared st' = s' → r_consumers st' = [c'] → r_main st' = r_main st → simulates s st'.
Proof.
  intros [Hone _] Hc Hp Hs Hc' Hm. split.
  - unfold subjects_left. rewrite Hc', Hm. rewrite Hc in Hone. exact Hone.
  - rewrite Hc', Hs. exact Hp.
Qed.

(** Another goroutine, or the outside, moves. *)
Lemma simulates_other s st st' :
  simulates s st → r_shared st' = r_shared st → r_consumers st' = r_consumers st →
  (subjects_left st' <= subjects_left st)%nat → simulates s st'.
Proof. intros [Hone Hp] Hs Hc Hm. split; [rewrite Hc; lia|]. by rewrite Hc, Hs. Qed.

Lemma batch_length (pre : list (Z * SourceMsg)) (now : Z) msg (rest : list SourceMsg) :
  zlen (pre ++ (now, msg) :: (pair now <$> rest)) = zlen pre + zlen (msg :: rest).
Proof. unfold zlen. rewrite length_app. simpl. rewrite length_fmap. lia. Qed.

(** One message at the time [now]; what is left of its batch is met at any time. *)
Lemma forward_point s s1 s' pre rest now msg :
  loops s s1 None → zlen pre + zlen (msg :: rest) <= svc_fetchBatch svc → M_for pre fwd s1 = (s', Ok tt) →
  let '(s2, r) := fwd (now, msg) s' in
  at_point s (match r with Ok _ => C_Forward rest | Err err => C_Done err end) s2.
Proof.
  intros Hl Hb Hpre. destruct (fwd (now, msg) s') as [s2 [[]|err]] eqn:Hf.
  - exists (pre ++ [(now, msg)]), s1. split; [done|]. rewrite M_for_app, M_bind_run, Hpre, M_for_cons, Hf.
    split; [done|]. unfold zlen in *. rewrite length_app. simpl in *. lia.
  - apply (loops_turn s s1 _ (mkRound None (Ok (pre ++ (now, msg) :: (pair now <$> rest))) None)); [done| |].
    + unfold batch_ok. simpl. by rewrite batch_length.
    + simpl. by rewrite M_for_app, M_bind_run, Hpre, M_for_cons, Hf.
Qed.

Lemma consumerStep_simulates s st i now c st' :
  simulates s st → r_consumers st !! i = Some c → consumerStep svc parent i now c st = Some st' →
  simulates s st'.
Proof.
  intros Hsim Hi Hs. destruct (simulates_consumer s st i c Hsim Hi) as (-> & Hc & Hp).
  assert (∀ c' s', at_point s c' s' → simulates s (set_consumer 0 c' (set_shared s' st))) as Hmove.
  { intros c' s' Hp'. apply (simulates_move s st c c' s'); try done. simpl. by rewrite Hc. }
  pose proof (λ c', Hmove c' (r_shared st)) as Hstay. rewrite set_shared_id in Hstay.
  assert (∀ err s', at_point s (C_Done err) s' →
    simulates s (consumer_returns 0 err (set_shared s' st))) as Hret.
  { intros err s' Hp'. by apply (simulates_other s _ _ (Hmove (C_Done err) s' Hp')). }
  pose proof (λ err, Hret err (r_shared st)) as Hret0. rewrite set_shared_id in Hret0.
  destruct c as [| |err|[|msg msgs]|err]; simpl in Hs; try discriminate Hs.
  - destruct (r_ctx st) as [e|]; injection Hs as <-; [|by apply Hstay].
    apply Hret0. apply (loops_turn s (r_shared st) _ (mkRound (Some e) (Err e) None)); [exact Hp|exact I|reflexivity].
  - destruct Hp as [Hl He]. destruct (r_ctx st) as [e|] eqn:Hx; injection Hs as <-; apply Hret0;
      (eapply (loops_turn s (r_shared st) _ (mkRound None (Err err) (r_ctx st))); [exact Hl|exact I|]; simpl;
       by rewrite He, Hx).
  - injection Hs as <-. apply Hstay. destruct Hp as (pre & s1 & Hl & Hpre & Hb). rewrite Z.add_0_r in Hb.
    apply (loops_turn s s1 _ (mkRound None (Ok pre) None)); [done|exact Hb|]. simpl. by rewrite Hpre.
  - destruct Hp as (pre & s1 & Hl & Hpre & Hb).
    pose proof (forward_point s s1 (r_shared st) pre msgs now msg Hl Hb Hpre) as Hp.
    unfold forwardAt in Hp. simpl in Hp. destruct (forward _ _ _ _ _ msg (r_shared st)) as [s2 [u|e]];
      injection Hs as <-; [by apply Hmove|by apply Hret].
Qed.

Lemma fetchStep_simulates s st i r st' :
  simulates s st → r_consumers st !! i = Some C_Fetch → fetchStep svc i r st = Some st' → simulates s st'.
Proof.
  intros Hsim Hi Hs. destruct (simulates_consumer s st i _ Hsim Hi) as (-> & Hc & Hp).
  assert (∀ c', at_point s c' (r_shared st) → simulates s (set_consumer 0 c' st)) as Hmove.
  { intros c' Hp'. apply (simulates_move s st C_Fetch c' (r_shared st)); try done. simpl. by rewrite Hc. }
  unfold fetchStep in Hs. destruct r as [msgs|err].
  - destruct (Z.leb_spec (zlen msgs) (svc_fetchBatch svc)); [|done]. injection Hs as <-. apply Hmove.
    by exists [], (r_shared st).
  - destruct (errors_Is err _) eqn:He; injection Hs as <-; apply Hmove; [|by split].
    apply (loops_turn s (r_shared st) _ (mkRound None (Err err) None)); [exact Hp|exact I|]. simpl. by rewrite He.
Qed.

Lemma step_simulates s l st st' :
  simulates s st → step svc parent l st = Some st' → simulates s st'.
Proof.
  intros Hsim Hs. destruct l as [err|r|i r|i t|err| |]; simpl in Hs.
  - destruct (r_parent st); [done|]. injection Hs as <-. by apply (simulates_other s st).
  - destruct (r_main st) as [[|subj rest]|] eqn:Hm; [done| |done].
    destruct Hsim as [Hone Hp]. unfold subjects_left in Hone. rewrite Hm in Hone. simpl in Hone.
    destruct (r_consumers st) as [|c cs] eqn:Hc; [|simpl in Hone; lia].
    destruct rest; [|simpl in Hone; lia].
    destruct r; injection Hs as <-; (split; unfold subjects_left; simpl; rewrite ?Hc; simpl; [lia|]).
    + rewrite Hp. apply loops_start.
    + exact Hp.
  - destruct (r_consumers st !! i) as [[]|] eqn:Hi; try discriminate Hs. by eapply fetchStep_simulates.
  - apply bind_Some in Hs as (c & Hc & Hs). by eapply consumerStep_simulates.
  - destruct (r_metrics st) as [[[b|] w]|]; try discriminate Hs.
    destruct err as [err|]; simpl in Hs.
    + destruct (errors_Is _ _); [destruct b; [|done]|]; injection Hs as <-; by apply (simulates_other s st).
    + destruct b; [|done]. injection Hs as <-. by apply (simulates_other s st).
  - apply bind_Some in Hs as ([v w] & Hm & Hs). destruct w; simpl in Hs; [| |done].
    + case_decide; [|done]. injection Hs as <-. by apply (simulates_other s st).
    + injection Hs as <-. by apply (simulates_other s st).
  - destruct (r_main st) as [[|]|] eqn:Hm; [|done..]. destruct (_ && _); [|done].
    injection Hs as <-. apply (simulates_other s st); [done..|]. unfold subjects_left. simpl. lia.
Qed.

Lemma steps_simulates s ls st : steps svc parent ls (start svc [subject] s) = Some st → simulates s st.
Proof.
  apply (steps_ind svc parent (λ _ st, simulates s st)).
  - split; [unfold subjects_left; simpl; lia|done].
  - intros ls' l st1 st2 _ Hsim Hstep. by eapply step_simulates.
Qed.

(** ** From the loop to the run *)

(** The run with its one consumer at a program point and no context ended. *)
Definition quiet s (c : consumer) st : Prop :=
  r_shared st = s ∧ r_consumers st = [c] ∧ r_parent st = None ∧ r_ctx st = None.

(** Some labels lead from a state to another. *)
Definition leads st (s : state J S) (c : consumer) : Prop :=
  ∃ ls st', steps svc parent ls st = Some st' ∧ r_shared st' = s ∧ r_consumers st' = [c].

Lemma leads_step l st st1 s c :
  step svc parent l st = Some st1 → leads st1 s c → leads st s c.
Proof.
  intros Hs (ls & st' & Hst & Hr). exists (l :: ls), st'. split; [|done]. simpl. by rewrite Hs.
Qed.

Lemma leads_refl st s c : quiet s c st → leads st s c.
Proof. intros (Hs & Hc & _). by exists [], st. Qed.

(** A loop that has not returned goes on from a quiet state. *)
Lemma forward_leads msgs s s' r s2 c2 st :
  quiet s (C_Forward msgs.*2) st → M_for msgs fwd s = (s', r) →
  match r with
  | Ok _ => ∀ st', quiet s' C_Top st' → leads st' s2 c2
  | Err err => s2 = s' ∧ c2 = C_Done err
  end → leads st s2 c2.
Proof.
  revert s st. induction msgs as [|[now msg] msgs IH]; intros s st (Hs & Hc & Hp & Hx) Hf Hk.
  - injection Hf as <- <-. eapply (leads_step (L_Consumer 0 0)); [simpl; by rewrite Hc|].
    apply Hk. split_and!; [done|simpl; by rewrite Hc|done|done].
  - rewrite M_for_cons in Hf. destruct (fwd (now, msg) s) as [s1 r1] eqn:Hm. unfold forwardAt in Hm. simpl in Hm.
    destruct r1 as [[]|e];
      (eapply (leads_step (L_Consumer 0 now)); [simpl; rewrite Hc; simpl; rewrite Hs, Hm; reflexivity|]).
    + eapply IH; [|exact Hf|exact Hk]. split_and!; [done|simpl; by rewrite Hc|done|done].
    + injection Hf as <- <-. destruct Hk as [-> ->]. eexists [], _. split; [reflexivity|]. split; [done|]. simpl. by rewrite ?Hc.
Qed.

Lemma loop_leads rounds s s' r st :
  Forall batch_ok rounds → quiet s C_Top st → loop rounds s = (s', r) → leads st s' (loop_state r).
Proof.
  revert s st. induction rounds as [|rd rounds IH]; intros s st Hb Hq Hl.
  { injection Hl as <- <-. by apply leads_refl. }
  apply Forall_cons in Hb as [Hrd Hb]. simpl in Hl. destruct Hq as (Hs & Hc & Hp & Hx).
  destruct (rd_ctxErr rd) as [e|].
  { injection Hl as <- <-. eapply (leads_step (L_Parent e)); [simpl; by rewrite Hp|].
    eapply (leads_step (L_Consumer 0 0)); [simpl; rewrite Hc; reflexivity|].
    eexists [], _. split; [reflexivity|]. simpl. by rewrite ?Hc, ?Hx. }
  eapply (leads_step (L_Consumer 0 0)); [simpl; rewrite Hc; simpl; rewrite Hx; reflexivity|].
  unfold batch_ok in Hrd. destruct (rd_fetch rd) as [msgs|err] eqn:Hfetch.
  - eapply (leads_step (L_Fetch 0 (Ok msgs.*2))).
    { simpl. rewrite Hc. simpl. unfold zlen in *. rewrite length_fmap.
      destruct (Z.leb_spec (Z.of_nat (length msgs)) (svc_fetchBatch svc)); [reflexivity|lia]. }
    destruct (M_for msgs fwd s) as [s1 r1] eqn:Hm. eapply forward_leads; [|exact Hm|].
    + split_and!; [done|simpl; by rewrite Hc|done|done].
    + destruct r1 as [[]|e]; [intros st'; eauto|]. by injection Hl as <- <-.
  - destruct (errors_Is err _) eqn:He;
      (eapply (leads_step (L_Fetch 0 (Err err))); [simpl; rewrite Hc; simpl; rewrite He; reflexivity|]).
    + eapply IH; [done| |exact Hl]. split_and!; [done|simpl; by rewrite Hc|done|done].
    + destruct (rd_ctxErrAfter rd) as [e|]; injection Hl as <- <-.
      * eapply (leads_step (L_Parent e)); [simpl; by rewrite Hp|].
        eapply (leads_step (L_Consumer 0 0)); [simpl; rewrite Hc; reflexivity|].
        eexists [], _. split; [reflexivity|]. simpl. by rewrite ?Hc, ?Hx.
      * eapply (leads_step (L_Consumer 0 0)); [simpl; rewrite Hc; simpl; rewrite Hx; reflexivity|].
        eexists [], _. split; [reflexivity|]. simpl. by rewrite ?Hc.
Qed.

(** ** Properties *)

(** C6. One subject. The goroutine of [Run] as [BridgeRun.step] has it, one read of
    the context, fetch or message at a time and any other goroutine in between, and
    the loop of the source as a function of the answers it gets are the same: a
    state and a result, or none yet, is what the loop computes for some answers and
    some clock, with batches of at most the size asked for, exactly when some
    execution of [Run] for that subject reaches it with the consumer there. *)
Theorem Run_is_consumeLoop s s' r :
  loops s s' r ↔
  ∃ ls st, steps svc parent ls (start svc [subject] s) = Some st
    ∧ r_shared st = s' ∧ r_consumers st = [loop_state r].
Proof.
  split.
  - intros (rounds & Hb & Hl).
    apply (leads_step (L_Subscribe (Ok tt)) _ (mkRunState s [C_Top]
      (r_metrics (start svc [subject] s)) None None None (M_Subscribe []))); [done|].
    by eapply loop_leads.
  - intros (ls & st & Hs & <- & Hc). destruct (steps_simulates s ls st Hs) as [_ Hp].
    rewrite Hc in Hp. by destruct r.
Qed.

End refine.

(** ** Witness *)

#[local] Existing Instance test_prometheus.
#[local] Existing Instance example_target.
#[local] Existing Instance example_source.
#[local] Existing Instance example_header_order.

(** A batch, a timeout, and the end of the context. *)
Definition refine_rounds : list round :=
  [mkRound None (Ok [(10, example_msg "dex.sol.x"); (11, example_msg "dex.sol.y")]) None;
   mkRound None (Err (Sentinel "nats.ErrTimeout")) None;
   mkRound (Some Canceled) (Ok []) None].

Lemma Run_is_consumeLoop_witness :
  let '(s, r) := consumeLoop Background (TargetStream (svc_cfg run_service)) (svc_publishTimeout run_service)
    (mapper run_service) refine_rounds run_shared in
  length (st_trace s) = 4%nat ∧ r = Some Canceled
  ∧ ∃ ls st, steps run_service Background ls (start run_service ["a"] run_shared) = Some st
    ∧ r_shared st = s ∧ r_consumers st = [C_Done Canceled].
Proof.
  destruct (consumeLoop _ _ _ _ _ _) as [s r] eqn:E.
  assert (length (st_trace s) = 4%nat ∧ r = Some Canceled) as [Hl ->].
  { vm_compute in E. injection E as <- <-. by split. }
  split; [exact Hl|]. split; [reflexivity|].
  destruct (proj1 (Run_is_consumeLoop run_service Background "a" run_shared s (Some Canceled)))
    as (ls & st & Hs & Hst & Hc).
  - exists refine_rounds. split; [|exact E]. repeat constructor; vm_compute; discriminate.
  - exists ls, st. split; [exact Hs|]. split; [exact Hst|exact Hc].
Defined.
