(* ===== verification/Sink.v ===== *)
(** * Sink services

    What [sinks/clickhouse/service.go] and [sinks/parquet/service.go] share: the
    unmarshalling of the messages (third-party, the class [ProtoUnmarshal]) and
    the body of their [Run], a pull loop with a flush ticker that acknowledges
    each message once its handler returned nil, and flushes when it ends.

    The loop is driven by its rounds, what the outside decides in each turn: the
    case taken by [select] and the outcome of [Fetch]. The errors of [Ack] and
    [Nak] are ignored by the code, so the calls are only recorded. *)

From S2P Require Import Prelude GoStrings Bytes Proto Publisher.
Local Open Scope list_scope.

(** ** [proto.Unmarshal] *)

(** A message is unmarshalled from what it was marshalled to. *)
Class ProtoUnmarshal `{ProtoMarshal} := {
  Unmarshal_Swap : list byte → result SwapEvent;
  Unmarshal_BlockHead : list byte → result BlockHead;
  Unmarshal_Candle : list byte → result Candle;
  Unmarshal_Marshal_Swap e data :
    proto_Marshal (PM_Swap e) = Ok data → Unmarshal_Swap data = Ok e;
  Unmarshal_Marshal_BlockHead h data :
    proto_Marshal (PM_BlockHead h) = Ok data → Unmarshal_BlockHead data = Ok h;
  Unmarshal_Marshal_Candle k data :
    proto_Marshal (PM_Candle k) = Ok data → Unmarshal_Candle data = Ok k;
}.

(** ** The loop *)

(** The case taken by the [select] of a turn: [<-ctx.Done()] with [ctx.Err()], the
    ticker, or [default]. *)
Inductive poll := Poll_Done (err : error) | Poll_Tick | Poll_Default.

Record round := mkRound { rd_poll : poll; rd_fetch : result (list NatsMsg) }.

Inductive sink_event := E_Ack (msg : NatsMsg) | E_Nak (msg : NatsMsg).

Definition event_msg (e : sink_event) : NatsMsg :=
  match e with E_Ack msg | E_Nak msg => msg end.
Definition acked (e : sink_event) : option NatsMsg :=
  match e with E_Ack msg => Some msg | E_Nak _ => None end.

Record loop_state (W : Type) := mkLoop { ls_sink : W; ls_trace : list sink_event }.
Arguments mkLoop {W} _ _.
Arguments ls_sink {W} _.
Arguments ls_trace {W} _.

Section loop.
Context {W : Type} (flush : context → M W ()) (handleMessage : context → NatsMsg → M W ())
  (ctx : context).

(** The body of the loop over the fetched messages. *)
Definition deliver (msg : NatsMsg) : M (loop_state W) () := λ s,
  match handleMessage ctx msg (ls_sink s) with
  | (w, Err err) => (mkLoop w (ls_trace s ++ [E_Nak msg]), Err err)
  | (w, Ok _) => (mkLoop w (ls_trace s ++ [E_Ack msg]), Ok tt)
  end.

Definition tick (p : poll) : M (loop_state W) () := λ s,
  match p with
  | Poll_Done err => (s, Err err)
  | Poll_Tick =>
    let '(w, r) := flush ctx (ls_sink s) in (mkLoop w (ls_trace s), r)
  | Poll_Default => (s, Ok tt)
  end.

(** [None] while the loop would still be running. *)
Fixpoint pull_loop (rounds : list round) (s : loop_state W) : loop_state W * option error :=
  match rounds with
  | [] => (s, None)
  | rd :: rest =>
    match tick (rd_poll rd) s with
    | (s, Err err) => (s, Some err)
    | (s, Ok _) =>
      match rd_fetch rd with
      | Err err =>
        if errors_Is err "nats.ErrTimeout" then pull_loop rest s
        else (s, Some (Wrapf "fetch messages: %w" [] err))
      | Ok msgs =>
        match M_for msgs deliver s with
        | (s, Err err) => (s, Some err)
        | (s, Ok _) => pull_loop rest s
        end
      end
    end
  end.

(** [Run]: the loop, then the deferred flush, whose error is ignored. *)
Definition run_loop (rounds : list round) (s : loop_state W) : loop_state W * option error :=
  match pull_loop rounds s with
  | (s, None) => (s, None)
  | (s, Some err) => (mkLoop (flush Background (ls_sink s)).1 (ls_trace s), Some err)
  end.

(** ** Lemmas *)

(** A relation between the sink and the messages handed to it that the handler
    and the flush keep, whatever they return, holds at the end. *)
Section invariant.
Context (I : W → list sink_event → Prop).
Context (Hflush : ∀ c w tr, I w tr → I (flush c w).1 tr).
Context (Hok : ∀ msg w w' tr,
  I w tr → handleMessage ctx msg w = (w', Ok tt) → I w' (tr ++ [E_Ack msg])).
Context (Herr : ∀ msg w w' tr e,
  I w tr → handleMessage ctx msg w = (w', Err e) → I w' (tr ++ [E_Nak msg])).

Lemma deliver_inv msg s :
  I (ls_sink s) (ls_trace s) →
  I (ls_sink (deliver msg s).1) (ls_trace (deliver msg s).1).
Proof.
  intros HI. unfold deliver. destruct (handleMessage ctx msg (ls_sink s)) as [w [[]|e]] eqn:E; simpl.
  - by eapply Hok.
  - by eapply Herr.
Qed.

Lemma pull_loop_inv rounds s :
  I (ls_sink s) (ls_trace s) →
  I (ls_sink (pull_loop rounds s).1) (ls_trace (pull_loop rounds s).1).
Proof.
  revert s. induction rounds as [|rd rest IH]; intros s HI; [done|]. cbn [pull_loop].
  assert (I (ls_sink (tick (rd_poll rd) s).1) (ls_trace (tick (rd_poll rd) s).1)) as HI1.
  { unfold tick. destruct (rd_poll rd); simpl; [done| |done].
    pose proof (Hflush ctx _ _ HI) as Hf. by destruct (flush ctx (ls_sink s)). }
  destruct (tick (rd_poll rd) s) as [s1 [[]|e]]; simpl in HI1; [|done].
  destruct (rd_fetch rd) as [msgs|e]; [|destruct (errors_Is _ _); [by apply IH|done]].
  pose proof (M_for_inv (λ s, I (ls_sink s) (ls_trace s)) msgs deliver s1) as Hm.
  specialize (Hm (λ msg s _ H, deliver_inv msg s H) HI1). simpl in Hm.
  destruct (M_for msgs deliver s1) as [s2 [[]|e]]; simpl in *; [by apply IH|done].
Qed.

Lemma run_loop_inv rounds s :
  I (ls_sink s) (ls_trace s) →
  I (ls_sink (run_loop rounds s).1) (ls_trace (run_loop rounds s).1).
Proof.
  intros HI. unfold run_loop. pose proof (pull_loop_inv rounds s HI) as Hp.
  destruct (pull_loop rounds s) as [s' [e|]]; simpl in *; [by apply Hflush|done].
Qed.
End invariant.

Lemma deliver_run msg s :
  deliver msg s = match handleMessage ctx msg (ls_sink s) with
                  | (w, Err err) => (mkLoop w (ls_trace s ++ [E_Nak msg]), Err err)
                  | (w, Ok _) => (mkLoop w (ls_trace s ++ [E_Ack msg]), Ok tt)
                  end.
Proof. reflexivity. Qed.

(** The messages of the rounds, those of the failed fetches left out. *)
Definition fetched (rounds : list round) : list NatsMsg :=
  concat ((λ rd, match rd_fetch rd with Ok msgs => msgs | Err _ => [] end) <$> rounds).

Lemma M_for_deliver_trace msgs s :
  ∃ k, ls_trace (M_for msgs deliver s).1 = ls_trace s ++ k
  ∧ match (M_for msgs deliver s).2 with
    | Ok _ => k = E_Ack <$> msgs
    | Err _ => ∃ pre msg post, msgs = pre ++ msg :: post ∧ k = (E_Ack <$> pre) ++ [E_Nak msg]
    end.
Proof.
  revert s. induction msgs as [|msg msgs IH]; intros s.
  { exists []. simpl. by rewrite app_nil_r. }
  rewrite M_for_cons. pose proof (deliver_run msg s) as Hd.
  destruct (handleMessage ctx msg (ls_sink s)) as [w [[]|e]]; rewrite Hd; simpl.
  - destruct (IH (mkLoop w (ls_trace s ++ [E_Ack msg]))) as (k & Hk & Hr). simpl in Hk.
    exists (E_Ack msg :: k). rewrite Hk, <- app_assoc. split; [done|].
    destruct (M_for msgs deliver _) as [s' [[]|e]]; simpl in *; [by rewrite Hr|].
    destruct Hr as (pre & m & post & -> & ->). by exists (msg :: pre), m, post.
  - exists [E_Nak msg]. split; [done|]. by exists [], msg, msgs.
Qed.

(** Messages are handled in fetch order, each once; all are acknowledged, except
    one whose handler failed, after which the loop has ended. *)
Lemma pull_loop_trace rounds s :
  ∃ k, ls_trace (pull_loop rounds s).1 = ls_trace s ++ k
  ∧ (event_msg <$> k) `prefix_of` fetched rounds
  ∧ ((∃ msgs, k = E_Ack <$> msgs)
     ∨ ∃ msgs msg, k = (E_Ack <$> msgs) ++ [E_Nak msg] ∧ is_Some (pull_loop rounds s).2)
  ∧ ((pull_loop rounds s).2 = None → event_msg <$> k = fetched rounds).
Proof.
  revert s. induction rounds as [|rd rest IH]; intros s.
  { exists []. simpl. rewrite app_nil_r. split_and!; [done|apply prefix_nil|left; by exists []|done]. }
  assert (ls_trace (tick (rd_poll rd) s).1 = ls_trace s) as Ht.
  { unfold tick. destruct (rd_poll rd); [done| |done]. by destruct (flush _ _). }
  cbn [pull_loop]. destruct (tick (rd_poll rd) s) as [s1 [[]|e]]; simpl in Ht; cycle 1.
  { exists []. simpl. rewrite app_nil_r.
    split_and!; [done|apply prefix_nil|left; by exists []|done]. }
  unfold fetched. cbn [fmap list_fmap concat]. fold (fetched rest).
  destruct (rd_fetch rd) as [msgs|e]; cycle 1.
  { destruct (errors_Is e _).
    - destruct (IH s1) as (k & Hk & H). exists k. by rewrite Hk, Ht.
    - exists []. simpl. rewrite app_nil_r, Ht.
      split_and!; [done|apply prefix_nil|left; by exists []|done]. }
  destruct (M_for_deliver_trace msgs s1) as (k1 & Hk1 & H1).
  destruct (M_for msgs deliver s1) as [s2 [[]|e]]; simpl in *.
  - subst k1. destruct (IH s2) as (k & Hk & Hpre & Hform & Hall).
    exists ((E_Ack <$> msgs) ++ k). rewrite Hk, Hk1, Ht, app_assoc. split; [done|].
    rewrite fmap_app, <- list_fmap_compose.
    assert (event_msg ∘ E_Ack <$> msgs = msgs) as -> by (by rewrite list_fmap_id).
    split; [by apply prefix_app|]. split.
    + destruct Hform as [[ms ->]|(ms & m & -> & Hs)].
      * left. exists (msgs ++ ms). by rewrite fmap_app.
      * right. exists (msgs ++ ms), m. rewrite fmap_app, app_assoc. done.
    + intros Hn. by rewrite Hall.
  - destruct H1 as (pre & m & post & -> & ->). exists ((E_Ack <$> pre) ++ [E_Nak m]).
    rewrite Hk1, Ht. split; [done|]. rewrite fmap_app, <- list_fmap_compose.
    assert (event_msg ∘ E_Ack <$> pre = pre) as -> by (by rewrite list_fmap_id).
    split_and!; [|right; eauto|done].
    exists (post ++ fetched rest). simpl. by rewrite <- !app_assoc.
Qed.

Lemma run_loop_trace rounds s :
  ls_trace (run_loop rounds s).1 = ls_trace (pull_loop rounds s).1
  ∧ (run_loop rounds s).2 = (pull_loop rounds s).2.
Proof. unfold run_loop. by destruct (pull_loop rounds s) as [s' [e|]]. Qed.
End loop.

(** ** A concrete marshaller

    For concrete runs: a message is the kind and the place of the message in a
    table, one byte each; messages outside the tables are refused. *)

Section sample.
Context (swaps : list SwapEvent) (heads : list BlockHead) (candles : list Candle).

Definition sample_encode {A} `{EqDecision A} (kind : Z) (x : A) (l : list A) :
    result (list byte) :=
  match list_find (x =.) l with
  | Some (i, _) =>
    if decide (i < 256)%nat then Ok [bchr kind; bchr (Z.of_nat i)] else Err (Sentinel "table")
  | None => Err (Sentinel "table")
  end.

Definition sample_decode {A} (kind : Z) (l : list A) (data : list byte) : result A :=
  match data with
  | [k; i] =>
    if bval k =? kind then
      match l !! Z.to_nat (bval i) with Some x => Ok x | None => Err (Sentinel "table") end
    else Err (Sentinel "kind")
  | _ => Err (Sentinel "length")
  end.

Lemma sample_decode_encode {A} `{EqDecision A} kind (x : A) l data :
  is_u8 kind → sample_encode kind x l = Ok data → sample_decode kind l data = Ok x.
Proof.
  unfold sample_encode. intros Hk. destruct (list_find _ l) as [[i y]|] eqn:Hf; [|done].
  apply list_find_Some in Hf as (Hi & -> & _).
  case_decide; [|done]. intros [= <-]. unfold sample_decode, is_u8 in *.
  rewrite !bval_bchr, !Z.mod_small, Z.eqb_refl, Nat2Z.id, Hi by lia. done.
Qed.

#[local] Instance Sample_ProtoMarshal : ProtoMarshal := {|
  proto_Marshal m :=
    match m with
    | PM_Swap e => sample_encode 1 e swaps
    | PM_BlockHead h => sample_encode 2 h heads
    | PM_Candle k => sample_encode 3 k candles
    | PM_TxMeta _ => Ok [bchr 4]
    | PM_PoolSnapshot _ => Err (Sentinel "table")
    end;
|}.

#[local] Program Instance Sample_ProtoUnmarshal_ : ProtoUnmarshal := {|
  Unmarshal_Swap := sample_decode 1 swaps;
  Unmarshal_BlockHead := sample_decode 2 heads;
  Unmarshal_Candle := sample_decode 3 candles;
|}.
Next Obligation. intros. by apply sample_decode_encode. Qed.
Next Obligation. intros. by apply sample_decode_encode. Qed.
Next Obligation. intros. by apply sample_decode_encode. Qed.
End sample.

Definition Sample_ProtoUnmarshal := Sample_ProtoUnmarshal_.
