(* ===== verification/HttpCache.v ===== *)
(** * HTTP types and cache

    [api/http/types/types.go] (which [api/http/types.go] aliases) and
    [api/http/cache/cache.go]: the JSON shapes, the accepted timeframes, the
    configuration of the cache and its two calls. Redis is the class [Redis];
    [encoding/json] on a slice of candles is the class [JsonCandles], whose law is
    that what was marshalled reads back. A nil slice is [None]; an instant is in
    nanoseconds since the Unix epoch. *)

From S2P Require Import Prelude GoStrings Bytes Floats GoTime Publisher.
From Stdlib Require Import Ascii.
Local Open Scope list_scope.

(** ** types.go *)

Record HealthResponse := mkHealthResponse { hr_Status : string; hr_Uptime : string }.
Record PoolResponse := mkPoolResponse {
  pr_ID : string;
  pr_Name : string;
  pr_BaseAsset : string;
  pr_QuoteAsset : string;
}.
Record Candle := mkCandle {
  Timestamp : Z;
  Open : float64;
  High : float64;
  Low : float64;
  Close : float64;
  Volume : float64;
}.
Record CandlesResponse := mkCandlesResponse {
  cr_PoolID : string;
  cr_Timeframe : string;
  cr_Candles : list Candle;
}.
Record ErrorResponse := mkErrorResponse { er_Error : string }.

Definition ErrNotFound : error := Sentinel "types.ErrNotFound".

Definition supportedTimeframes : gmap string () :=
  list_to_map [("1m", tt); ("5m", tt); ("1h", tt); ("1d", tt)].

Definition ValidateTimeframe (tf : string) : result () :=
  if bool_decide (tf = "") then Err (Errorf "missing timeframe" [])
  else match supportedTimeframes !! tf with
  | None => Err (Errorf "invalid timeframe" [])
  | Some _ => Ok tt
  end.

Definition SupportedTimeframes `{!RangeOrder string ()} : list string :=
  sort_Strings (range_entries supportedTimeframes).*1.

(** ** cache.go *)

Definition ErrDisabled : error := Sentinel "cache.ErrDisabled".

Record Config := mkConfig {
  Enabled : bool;
  Addr : string;
  Password : string;
  DB : Z;
  TTL : Z;
}.

(** [os.Getenv] is the function [env]. *)
Definition LoadConfigFromEnv (env : string → string) : result Config :=
  let addr := env "API_REDIS_ADDR" in
  if bool_decide (addr = "") then Ok (mkConfig false "" "" 0 (5 * Minute))
  else
    let password := env "API_REDIS_PASSWORD" in
    db ← (if bool_decide (env "API_REDIS_DB" ≠ "")
          then wrap_err "invalid API_REDIS_DB: %w" [] (Atoi (env "API_REDIS_DB"))
          else Ok 0);
    ttl ← (if bool_decide (env "API_REDIS_TTL" ≠ "")
           then wrap_err "invalid API_REDIS_TTL: %w" [] (ParseDuration (env "API_REDIS_TTL"))
           else Ok (5 * Minute));
    Ok (mkConfig true addr password db ttl).

(** The client of go-redis. [redis_sets] is a history: every key and value written
    to the server, by anyone; [Get] gives values of it, or none. *)
Class Redis (R : Type) := {
  redis_NewClient : string → string → Z → R;
  redis_Get : context → string → M R string;
  redis_Set : context → string → string → Z → M R ();
  redis_sets : R → list (string * string * Z);
  redis_Get_sets ctx k r : redis_sets (redis_Get ctx k r).1 = redis_sets r;
  redis_Get_value ctx k r p :
    (redis_Get ctx k r).2 = Ok p → ∃ ttl, (k, p, ttl) ∈ redis_sets r;
  redis_Set_sets ctx k p ttl r :
    redis_sets (redis_Set ctx k p ttl r).1 = redis_sets r ++ [(k, p, ttl)];
}.

Class JsonCandles := {
  json_Marshal : option (list Candle) → result string;
  json_Unmarshal : string → result (option (list Candle));
  json_roundtrip v p : json_Marshal v = Ok p → json_Unmarshal p = Ok v;
}.

(** A disabled cache has no client. *)
Record Cache (R : Type) := mkCache { client : option R; cfg : Config }.
Arguments mkCache {R} _ _.
Arguments client {R} _.
Arguments cfg {R} _.

Section cache.
Context {R : Type} `{Redis R, JsonCandles}.

Definition New (cfg : Config) : result (Cache R) :=
  if negb (Enabled cfg) then Ok (mkCache None cfg)
  else Ok (mkCache (Some (redis_NewClient (Addr cfg) (Password cfg) (DB cfg))) cfg).

Definition key (poolID timeframe : string) : string :=
  "pool:" +:+ poolID +:+ ":candles:" +:+ timeframe.

(** A nil cache is [None]. *)
Definition GetCandles (ctx : context) (poolID timeframe : string) :
    M (option (Cache R)) (option (list Candle)) := λ c,
  match c with
  | Some (mkCache (Some r) cfg) =>
    let '(r, res) := redis_Get ctx (key poolID timeframe) r in
    (Some (mkCache (Some r) cfg),
     match res with
     | Err err => Err (if errors_Is err "redis.Nil" then ErrNotFound else err)
     | Ok payload => json_Unmarshal payload
     end)
  | _ => (c, Err ErrDisabled)
  end.

Definition SetCandles (ctx : context) (poolID timeframe : string) (candles : option (list Candle)) :
    M (option (Cache R)) () := λ c,
  match c with
  | Some (mkCache (Some r) cfg) =>
    match json_Marshal candles with
    | Err err => (c, Err err)
    | Ok payload =>
      let '(r, res) := redis_Set ctx (key poolID timeframe) payload (TTL cfg) r in
      (Some (mkCache (Some r) cfg), res)
    end
  | _ => (c, Err ErrDisabled)
  end.

End cache.

(** ** Lemmas *)

Lemma ValidateTimeframe_Ok tf :
  ValidateTimeframe tf = Ok tt ↔ tf ∈ ["1m"; "5m"; "1h"; "1d"].
Proof.
  unfold ValidateTimeframe. split.
  - case_bool_decide; [done|]. destruct (supportedTimeframes !! tf) as [[]|] eqn:E; [|done].
    intros _. unfold supportedTimeframes in E. apply elem_of_list_to_map_2 in E.
    rewrite !elem_of_cons, elem_of_nil in E. rewrite !elem_of_cons. naive_solver.
  - rewrite !elem_of_cons, elem_of_nil. intros [->|[->|[->|[->|[]]]]]; vm_compute; reflexivity.
Qed.

Lemma SupportedTimeframes_eq `{!RangeOrder string ()} : SupportedTimeframes = ["1d"; "1h"; "1m"; "5m"].
Proof.
  apply sort_Strings_unique.
  - repeat constructor; apply (bool_decide_unpack _); vm_compute; exact I.
  - rewrite range_entries_perm.
    apply (bool_decide_unpack _). vm_compute. exact I.
Qed.

(** All timeframes have two bytes, so a key determines its pool and timeframe. *)
Lemma key_inj pool pool' tf tf' :
  ValidateTimeframe tf = Ok tt → ValidateTimeframe tf' = Ok tt →
  key pool tf = key pool' tf' → pool = pool' ∧ tf = tf'.
Proof.
  rewrite !ValidateTimeframe_Ok. intros Htf Htf' E.
  assert (∀ t, t ∈ ["1m"; "5m"; "1h"; "1d"] → length (bytes t) = 2%nat) as Hlen.
  { intros t. rewrite !elem_of_cons, elem_of_nil. by intros [->|[->|[->|[->|[]]]]]. }
  unfold key in E. apply (f_equal bytes) in E. rewrite !bytes_app in E.
  apply app_inv_head in E. rewrite !(app_assoc (bytes pool)), !(app_assoc (bytes pool')) in E.
  apply app_inj_2 in E as [E1 E2]; [|by rewrite !Hlen].
  apply app_inv_tail in E1. split; by apply bytes_inj.
Qed.
