(* ===== verification/HttpApi.v ===== *)
(** * HTTP API

    [api/http/main.go]: the handlers of the three routes, and the server as a
    transition system. A request to the candle endpoint reads the cache, answers,
    and leaves a goroutine that writes the answer to the cache; the goroutine is a
    pending write, which runs at any later step, between or after other requests.
    The router (chi) hands a handler the path parameter and the first [tf] of the
    query; the errors of writing the response are only logged. *)

From S2P Require Import Prelude GoStrings Bytes Proto Floats GoTime Publisher Sink HttpCache.
From Stdlib Require Import Ascii SpecFloat.
Local Open Scope list_scope.

Record Server (R : Type) := mkServer { sv_cache : option (Cache R); sv_started : Z }.
Arguments mkServer {R} _ _.
Arguments sv_cache {R} _.
Arguments sv_started {R} _.

Inductive Body :=
  | B_Health (r : HealthResponse)
  | B_Pool (r : PoolResponse)
  | B_Candles (r : CandlesResponse)
  | B_Error (r : ErrorResponse).

(** What [writeJSON] sends. *)
Record Response := mkResponse { rs_Status : Z; rs_Body : Body }.

Definition StatusOK : Z := 200.
Definition StatusBadRequest : Z := 400.
Definition StatusInternalServerError : Z := 500.

(** [time.Since]: the difference, saturated. *)
Definition Since (started now : Z) : Z := Z.max (- 2 ^ 63) (Z.min (2 ^ 63 - 1) (now - started)).

Definition durationForTimeframe (tf : string) : Z :=
  if bool_decide (tf = "1m") then Minute
  else if bool_decide (tf = "5m") then 5 * Minute
  else if bool_decide (tf = "1h") then Hour
  else if bool_decide (tf = "1d") then 24 * Hour
  else Minute.

(** A decimal constant with two digits after the point, as a float64. *)
Definition cents (n : Z) : float64 := f64_div (f64_of_Z n) (f64_of_Z 100).

Definition stubCandles (tf : string) : list Candle :=
  let base := 0 in
  let step := durationForTimeframe tf in
  [mkCandle base (cents 2510) (cents 2542) (cents 2498) (cents 2530) (f64_of_Z 1250);
   mkCandle (base + step) (cents 2530) (cents 2560) (cents 2512) (cents 2550) (f64_of_Z 1480)].

(** The requests the router has a handler for. *)
Inductive Request :=
  | R_Healthz
  | R_Pool (id : string)
  | R_Candles (id tf : string).

(** The goroutine that the candle handler starts. *)
Record cache_write := mkWrite { cw_PoolID : string; cw_Timeframe : string; cw_Candles : list Candle }.

(** The error strings of [ValidateTimeframe]. *)
Definition error_string (e : error) : string :=
  match e with Errorf s _ => s | Sentinel s => s | Wrapf s _ _ => s | DecodeError s _ => s end.

Section server.
Context {R : Type} `{Redis R, JsonCandles}.

Definition NewServer (cacheClient : option (Cache R)) (now : Z) : Server R := mkServer cacheClient now.

Definition healthzHandler (now : Z) (s : Server R) : Response :=
  mkResponse StatusOK (B_Health (mkHealthResponse "ok"
    (Duration_String (Round (Since (sv_started s) now) Millisecond)))).

Definition poolHandler (poolID : string) : Response :=
  mkResponse StatusOK (B_Pool (mkPoolResponse poolID "stub-pool" "SOL" "USDC")).

Definition badRequest (err : error) : Response :=
  mkResponse StatusBadRequest (B_Error (mkErrorResponse (error_string err))).
Definition internalError : Response :=
  mkResponse StatusInternalServerError (B_Error (mkErrorResponse "internal error")).

(** The candles found, or the error that ends the request. *)
Definition chooseCandles (timeframe : string) (r : result (option (list Candle))) :
    result (list Candle) :=
  match r with
  | Err err =>
    if errors_Is err "cache.ErrDisabled" || errors_Is err "types.ErrNotFound"
    then Ok (stubCandles timeframe) else Err err
  | Ok None => Ok (stubCandles timeframe)
  | Ok (Some candles) => Ok candles
  end.

Definition candlesHandler (ctx : context) (poolID timeframe : string) (s : Server R) :
    Server R * Response * option cache_write :=
  match ValidateTimeframe timeframe with
  | Err err => (s, badRequest err, None)
  | Ok _ =>
    let '(cache, r) := match sv_cache s with
      | Some _ => GetCandles ctx poolID timeframe (sv_cache s)
      | None => (None, Ok None)
      end in
    let s := mkServer cache (sv_started s) in
    match chooseCandles timeframe r with
    | Err _ => (s, internalError, None)
    | Ok candles =>
      (s, mkResponse StatusOK (B_Candles (mkCandlesResponse poolID timeframe candles)),
       match sv_cache s with Some _ => Some (mkWrite poolID timeframe candles) | None => None end)
    end
  end.

Definition runWrite (w : cache_write) (s : Server R) : Server R :=
  mkServer (SetCandles Background (cw_PoolID w) (cw_Timeframe w) (Some (cw_Candles w)) (sv_cache s)).1
    (sv_started s).

Definition Handler (ctx : context) (now : Z) (req : Request) (s : Server R) :
    Server R * Response * option cache_write :=
  match req with
  | R_Healthz => (s, healthzHandler now s, None)
  | R_Pool id => (s, poolHandler id, None)
  | R_Candles id tf => candlesHandler ctx id tf s
  end.

Definition listenAddr (env : string → string) : string :=
  if bool_decide (env "API_HTTP_ADDR" = "") then ":8080" else env "API_HTTP_ADDR".

(** The end of [main]: [logger.Fatalf], or after the signal and [Shutdown], whose
    error is only logged. The goroutine of [ListenAndServe] may return before. *)
Inductive http_event := Ev_Served (err : option error) | Ev_Signal.
Inductive http_end := HE_Fatal (fmt : string) (err : error) | HE_Running | HE_Stopped.

Fixpoint serveUntil (evs : list http_event) : http_end :=
  match evs with
  | [] => HE_Running
  | Ev_Signal :: _ => HE_Stopped
  | Ev_Served (Some err) :: evs =>
    if errors_Is err "http.ErrServerClosed" then serveUntil evs else HE_Fatal "listen: %v" err
  | Ev_Served None :: evs => serveUntil evs
  end.

(** The server with its address, and how the process ends. *)
Definition http_main (env : string → string) (now : Z) (evs : list http_event) :
    option (Server R * string) * http_end :=
  match LoadConfigFromEnv env with
  | Err err => (None, HE_Fatal "load redis config: %v" err)
  | Ok cfg =>
    match New cfg with
    | Err err => (None, HE_Fatal "init redis cache: %v" err)
    | Ok cacheClient => (Some (NewServer (Some cacheClient) now, listenAddr env), serveUntil evs)
    end
  end.

(** ** The server in time *)

Record state := mkState { st_server : Server R; st_pending : list cache_write }.

(** A step handles a request or runs one pending write, in any order. *)
Inductive step : state → option (Request * Response) → state → Prop :=
  | step_request ctx now req s pending s' resp w :
    Handler ctx now req s = (s', resp, w) →
    step (mkState s pending) (Some (req, resp))
         (mkState s' (pending ++ match w with Some w => [w] | None => [] end))
  | step_write s before w after :
    step (mkState s (before ++ w :: after)) None (mkState (runWrite w s) (before ++ after)).

(** The requests with their responses, oldest first. *)
Inductive steps : state → list (Request * Response) → state → Prop :=
  | steps_refl s : steps s [] s
  | steps_snoc s1 l s2 e s3 :
    steps s1 l s2 → step s2 e s3 → steps s1 (l ++ match e with Some x => [x] | None => [] end) s3.

(** Everything ever written to the server of the cache. *)
Definition cache_sets (s : Server R) : list (string * string * Z) :=
  match sv_cache s with Some (mkCache (Some r) _) => redis_sets r | _ => [] end.

(** ** The cache is transparent *)

Definition stub_payload (k p : string) : Prop :=
  ∀ pool tf, ValidateTimeframe tf = Ok tt → k = key pool tf →
    json_Unmarshal p = Ok (Some (stubCandles tf)).
Definition stub_cache (s : Server R) : Prop :=
  ∀ k p ttl, (k, p, ttl) ∈ cache_sets s → stub_payload k p.
Definition stub_write (w : cache_write) : Prop :=
  ValidateTimeframe (cw_Timeframe w) = Ok tt ∧ cw_Candles w = stubCandles (cw_Timeframe w).
Definition stub_state (s : state) : Prop :=
  stub_cache (st_server s) ∧ Forall stub_write (st_pending s).

(** The response of a server with no cache, or an internal error. *)
Definition transparent (e : Request * Response) : Prop :=
  match e.1 with
  | R_Candles id tf =>
    e.2 = (candlesHandler Background id tf (mkServer None 0)).1.2
    ∨ (ValidateTimeframe tf = Ok tt ∧ e.2 = internalError)
  | R_Pool id => e.2 = poolHandler id
  | R_Healthz => rs_Status e.2 = StatusOK
  end.

Lemma candlesHandler_cases ctx pool tf (s s' : Server R) resp w :
  candlesHandler ctx pool tf s = (s', resp, w) →
  (∃ err, ValidateTimeframe tf = Err err ∧ s' = s ∧ resp = badRequest err ∧ w = None)
  ∨ ValidateTimeframe tf = Ok tt
    ∧ ((resp = internalError ∧ w = None)
       ∨ ∃ candles, resp = mkResponse StatusOK (B_Candles (mkCandlesResponse pool tf candles))
         ∧ w = match sv_cache s with Some _ => Some (mkWrite pool tf candles) | None => None end).
Proof.
  unfold candlesHandler. destruct (ValidateTimeframe tf) as [[]|err]; [|naive_solver].
  intros Hc. right. split; [done|]. revert Hc.
  assert (∀ c : option (Cache R), is_Some (GetCandles ctx pool tf c).1 ↔ is_Some c) as Hs.
  { intros [[[r|] cfg]|]; simpl; [|done..]. destruct (redis_Get _ _ _). simpl. by split. }
  destruct (sv_cache s) as [c|] eqn:Ec.
  - specialize (Hs (Some c)). destruct (GetCandles ctx pool tf (Some c)) as [c' r]. simpl in Hs.
    destruct c' as [c'|]; [|by destruct (proj2 Hs)].
    destruct (chooseCandles tf r) as [candles|]; intros [= <- <- <-]; eauto.
  - simpl. intros [= <- <- <-]. eauto.
Qed.

Lemma cache_sets_candlesHandler ctx pool tf (s : Server R) :
  cache_sets (candlesHandler ctx pool tf s).1.1 = cache_sets s.
Proof.
  unfold candlesHandler. destruct (ValidateTimeframe tf); [|done]. unfold cache_sets.
  destruct s as [[[[r|] cfg]|] now]; simpl; [|done..].
  pose proof (redis_Get_sets ctx (key pool tf) r) as Hg.
  destruct (redis_Get ctx (key pool tf) r) as [r' res]. simpl in *.
  by destruct (chooseCandles tf _).
Qed.

Lemma candlesHandler_stub ctx pool tf (s s' : Server R) resp w :
  stub_cache s → candlesHandler ctx pool tf s = (s', resp, w) →
  stub_cache s' ∧ transparent (R_Candles pool tf, resp) ∧ ∀ w', w = Some w' → stub_write w'.
Proof.
  intros Hs Hc. pose proof (cache_sets_candlesHandler ctx pool tf s) as Hsets.
  rewrite Hc in Hsets. split; [by intros k p ttl; simpl in Hsets; rewrite Hsets; apply Hs|].
  unfold transparent, candlesHandler in *. simpl.
  destruct (ValidateTimeframe tf) as [[]|err] eqn:Hv; [|naive_solver].
  destruct s as [[[[r|] cfg]|] now]; simpl in *;
    try (injection Hc as <- <- <-; split; [by left|]; intros w' [= <-]; done).
  pose proof (redis_Get_value ctx (key pool tf) r) as Hval.
  destruct (redis_Get ctx (key pool tf) r) as [r' [p|err]]; simpl in *.
  - destruct (Hval p eq_refl) as [ttl Hin].
    rewrite (Hs _ _ _ Hin pool tf Hv eq_refl) in Hc. simpl in Hc.
    injection Hc as <- <- <-. split; [by left|]. intros w' [= <-]. done.
  - unfold chooseCandles in Hc.
    destruct (errors_Is _ _ || errors_Is _ _); injection Hc as <- <- <-; [|by split; [right|]].
    split; [by left|]. intros w' [= <-]. done.
Qed.

Lemma runWrite_stub w (s : Server R) : stub_write w → stub_cache s → stub_cache (runWrite w s).
Proof.
  intros [Hv Hw] Hs. unfold runWrite, stub_cache, cache_sets, SetCandles in *. simpl.
  destruct (sv_cache s) as [[[r|] cfg]|]; simpl; [|done..].
  destruct (json_Marshal _) as [p|] eqn:Hp; simpl; [|done].
  pose proof (redis_Set_sets Background (key (cw_PoolID w) (cw_Timeframe w)) p (TTL cfg) r) as Hset.
  destruct (redis_Set _ _ _ _ _) as [r' res]. simpl in *. intros k p' ttl. rewrite Hset.
  rewrite elem_of_app, list_elem_of_singleton. intros [Hin|[= -> -> ->]]; [by eapply Hs|].
  intros pool tf Hv' E. apply key_inj in E as [_ <-]; [|done..].
  rewrite <- Hw. by apply json_roundtrip.
Qed.

Lemma step_stub s e s' :
  stub_state s → step s e s' → stub_state s' ∧ ∀ x, e = Some x → transparent x.
Proof.
  intros [Hc Hp] Hst. destruct Hst as [ctx now req s pending s' resp w Hh|s before w after].
  - destruct req as [|id|id tf]; simpl in *; [injection Hh as <- <- <-..|];
      try (split; [split; [done|by rewrite app_nil_r]|by intros x [= <-]]).
    destruct (candlesHandler_stub ctx id tf s s' resp w Hc Hh) as (Hc' & Ht & Hw).
    split; [split; [done|]|by intros x [= <-]].
    apply Forall_app. split; [done|]. destruct w as [w|]; [|done]. constructor; [by apply Hw|done].
  - apply Forall_app in Hp as [Hb [Hw Ha]%Forall_cons]. split; [|done]. split.
    + by apply runWrite_stub.
    + by apply Forall_app.
Qed.

Lemma steps_request ctx now req s0 l s pending s' resp w :
  steps s0 l (mkState s pending) → Handler ctx now req s = (s', resp, w) →
  steps s0 (l ++ [(req, resp)])
    (mkState s' (pending ++ match w with Some w => [w] | None => [] end)).
Proof. intros Hs Hh. exact (steps_snoc _ _ _ _ _ Hs (step_request ctx now req s pending s' resp w Hh)). Qed.
Lemma steps_write s0 l s before w after :
  steps s0 l (mkState s (before ++ w :: after)) → steps s0 l (mkState (runWrite w s) (before ++ after)).
Proof.
  intros Hs. rewrite <- (app_nil_r l). exact (steps_snoc _ _ _ _ _ Hs (step_write s before w after)).
Qed.

Lemma steps_stub s l s' : stub_state s → steps s l s' → stub_state s' ∧ Forall transparent l.
Proof.
  intros Hs. induction 1 as [s|s1 l s2 e s3 _ IH Hst]; [done|].
  destruct (IH Hs) as [Hs2 Hl]. destruct (step_stub _ _ _ Hs2 Hst) as [Hs3 He]. split; [done|].
  apply Forall_app. split; [done|]. destruct e as [x|]; [|done]. constructor; [by apply He|done].
Qed.
End server.

(** ** A cache for concrete runs *)

(** The store keeps every write; [Get] gives the last value of the key. *)
Definition TestRedis : Type := list (string * string * Z).
Definition last_value (k : string) (r : TestRedis) : option string :=
  last (omap (λ '(k', p, _), if decide (k' = k) then Some p else None) r).

#[local] Program Instance TestRedis_Redis_ : Redis TestRedis := {|
  redis_NewClient _ _ _ := [];
  redis_Get _ k r := (r, match last_value k r with Some p => Ok p | None => Err (Sentinel "redis.Nil") end);
  redis_Set _ k p ttl r := (r ++ [(k, p, ttl)], Ok tt);
  redis_sets := id;
|}.
Next Obligation. done. Qed.
Next Obligation.
  intros ctx k r p. simpl. destruct (last_value k r) as [q|] eqn:E; [|done]. intros [= ->].
  apply last_Some_elem_of, list_elem_of_omap in E as ([[k' q] ttl] & Hin & Hq).
  simpl in Hq. case_decide; simplify_eq. by exists ttl.
Qed.
Next Obligation. done. Qed.
Definition TestRedis_Redis := TestRedis_Redis_.

#[global] Instance HttpCandle_eq_dec : EqDecision Candle.
Proof. assert (EqDecision spec_float) by solve_decision. solve_decision. Defined.

Section sample_json.
Context (samples : list (option (list Candle))).
#[local] Program Instance Sample_JsonCandles_ : JsonCandles := {|
  json_Marshal v := of_bytes <$> sample_encode 1 v samples;
  json_Unmarshal p := sample_decode 1 samples (bytes p);
|}.
Next Obligation.
  intros v p. simpl. destruct (sample_encode 1 v samples) as [data|] eqn:E; [|done].
  intros [= <-]. rewrite bytes_of_bytes. by apply sample_decode_encode.
Qed.
Definition Sample_JsonCandles := Sample_JsonCandles_.
End sample_json.

(** ** Properties *)

(** C29. The cache never changes what the API says. Start from a server whose
    cache holds, under the keys of the candle endpoint, only stub candles (an
    empty cache, or none): then for any interleaving of requests with the
    goroutines that write the cache, and whatever the cache forgets or fails,
    every request of the candle endpoint is answered as by a server with no cache,
    or by an internal error. *)
Theorem cache_transparent {R} `{Redis R, JsonCandles} (s : Server R) l s' :
  stub_cache s → steps (mkState s []) l s' → Forall transparent l ∧ stub_state s'.
Proof.
  intros Hs Hst. assert (stub_state (mkState s [])) as H0s by (split; [done|constructor]).
  by destruct (steps_stub _ _ _ H0s Hst) as [Hs' Hl].
Qed.

(** Every answer is written back. A successful request leaves the cache as it
    found it and, if there is a cache, one pending write of the candles answered,
    those of a cache hit included. Whenever that write runs, it adds to the writes
    of the cache the key of the request with these candles and the whole
    configured time to live, whatever was written since the answer was read. *)
Theorem answer_written_back {R} `{Redis R, JsonCandles} ctx pool tf (s s' : Server R) resp w r cfg :
  candlesHandler ctx pool tf s = (s', resp, w) → rs_Status resp = StatusOK →
  sv_cache s = Some (mkCache (Some r) cfg) →
  ∃ candles, resp = mkResponse StatusOK (B_Candles (mkCandlesResponse pool tf candles))
  ∧ w = Some (mkWrite pool tf candles) ∧ cache_sets s' = cache_sets s
  ∧ (∀ p, (redis_Get ctx (key pool tf) r).2 = Ok p → json_Unmarshal p = Ok (Some candles)
          ∨ json_Unmarshal p = Ok None ∧ candles = stubCandles tf
          ∨ ∃ err, json_Unmarshal p = Err err ∧ candles = stubCandles tf)
  ∧ ∀ r2 cfg2 now p, json_Marshal (Some candles) = Ok p →
      cache_sets (runWrite (mkWrite pool tf candles) (mkServer (Some (mkCache (Some r2) cfg2)) now))
      = redis_sets r2 ++ [(key pool tf, p, TTL cfg2)].
Proof.
  intros Hc Hok Hcache. pose proof (cache_sets_candlesHandler ctx pool tf s) as Hsets.
  rewrite Hc in Hsets. simpl in Hsets. pose proof Hc as Hcases.
  apply candlesHandler_cases in Hcases as [(err & _ & _ & -> & _)|(Hv & [[-> _]|(candles & -> & ->)])];
    [done..|].
  rewrite Hcache in Hc |- *. exists candles. split_and!; try done.
  - intros p Hp. unfold candlesHandler in Hc. rewrite Hv, Hcache in Hc. simpl in Hc.
    destruct (redis_Get ctx (key pool tf) r) as [r' res]. simpl in *. subst res.
    destruct (json_Unmarshal p) as [[cs|]|err]; simpl in Hc.
    + left. by injection Hc as _ ->.
    + right. left. by injection Hc as _ ->.
    + right. right. exists err. split; [done|].
      destruct (errors_Is _ _ || errors_Is _ _); [by injection Hc as _ ->|discriminate].
  - intros r2 cfg2 now p Hp. unfold runWrite, cache_sets, SetCandles. simpl. rewrite Hp.
    pose proof (redis_Set_sets Background (key pool tf) p (TTL cfg2) r2) as Hset.
    by destruct (redis_Set _ _ _ _ _).
Qed.

(** ** Witnesses *)

Section witnesses.
#[local] Existing Instance TestRedis_Redis.
#[local] Instance stub_json : JsonCandles :=
  Sample_JsonCandles ((λ tf, Some (stubCandles tf)) <$> ["1m"; "5m"; "1h"; "1d"]).

Definition example_cfg : Config := mkConfig true "redis:6379" "" 0 (5 * Minute).
Definition example_server (r : TestRedis) : Server TestRedis := mkServer (Some (mkCache (Some r) example_cfg)) 0.

(** Two requests for the same candles; both are answered before the goroutine of
    the first one runs. *)
Lemma cache_transparent_witness :
  ∃ resp s', steps (mkState (example_server []) [])
    [(R_Candles "p" "1h", resp); (R_Candles "p" "1h", resp)] s'
  ∧ Forall transparent [(R_Candles "p" "1h", resp); (R_Candles "p" "1h", resp)] ∧ stub_state s'.
Proof.
  exists (mkResponse StatusOK (B_Candles (mkCandlesResponse "p" "1h" (stubCandles "1h")))).
  set (w := mkWrite "p" "1h" (stubCandles "1h")).
  exists (mkState (runWrite w (example_server [])) [w]).
  assert (steps (mkState (example_server []) [])
    [(R_Candles "p" "1h", mkResponse StatusOK (B_Candles (mkCandlesResponse "p" "1h" (stubCandles "1h"))));
     (R_Candles "p" "1h", mkResponse StatusOK (B_Candles (mkCandlesResponse "p" "1h" (stubCandles "1h"))))]
    (mkState (runWrite w (example_server [])) [w])) as Hst.
  { apply (steps_write _ _ (example_server []) [] w [w]).
    apply (steps_request Background 0 (R_Candles "p" "1h") _ [_] (example_server []) [w] _ _ (Some w));
      [|vm_compute; reflexivity].
    apply (steps_request Background 0 (R_Candles "p" "1h") _ [] (example_server []) [] _ _ (Some w));
      [apply steps_refl|vm_compute; reflexivity]. }
  split; [exact Hst|].
  apply (cache_transparent (example_server []) _ _); [|exact Hst].
  intros k p ttl Hin. apply elem_of_nil in Hin. destruct Hin.
Defined.

(** A write of candles of the last minutes between the answer and its write is
    overwritten: the value that the key ends with is the older one. *)
Definition newer : string := "newer".
Lemma answer_written_back_witness :
  ∃ w, last_value (key "p" "1m")
         (cache_sets (runWrite w (example_server [(key "p" "1m", newer, 0)]))) ≠ Some newer.
Proof.
  assert (candlesHandler Background "p" "1m" (example_server [])
    = (example_server [], mkResponse StatusOK (B_Candles (mkCandlesResponse "p" "1m" (stubCandles "1m"))),
       Some (mkWrite "p" "1m" (stubCandles "1m")))) as Hc by (vm_compute; reflexivity).
  destruct (answer_written_back _ _ _ _ _ _ _ [] example_cfg Hc eq_refl eq_refl)
    as (candles & Hr & _ & _ & _ & Hw).
  injection Hr as <-. exists (mkWrite "p" "1m" (stubCandles "1m")).
  unfold example_server. rewrite (Hw _ _ _ (of_bytes [bchr 1; bchr 0])) by (vm_compute; reflexivity).
  vm_compute. discriminate.
Defined.
End witnesses.
