(* ===== verification/ClickHouse.v ===== *)
(** * ClickHouse sink

    [sinks/clickhouse/config.go], [writer.go] and [service.go]: configuration, the
    connection with backoff, the column batches of the writer and their flush, the
    processor that turns canonical messages into rows, and the service loop (the
    shared [Sink.run_loop]). The client is third-party: the class [ChClient] is its
    [Do] and [Close], with [queries], the record of the calls of [Do] and whether
    each returned nil. A column of [ch-go] is the list of the values appended, and
    [Int128FromUInt64] of that package is an injective function ([ChProto]).
    [url.Parse] is an argument. *)

From S2P Require Import Prelude GoStrings Bytes Proto Floats Publisher Sink.
Local Open Scope list_scope.

(** ** config.go *)

Record Config := mkConfig {
  DSN : string;
  Database : string;
  TradesTable : string;
  CandlesTable : string;
  BatchSize : Z;
  FlushInterval : Z;
  MaxRetries : Z;
  RetryBackoffBase : Z;
  RetryBackoffMax : Z;
}.

Definition validateConfig (cfg : Config) : result () :=
  if bool_decide (DSN cfg = "") then Err (Errorf "dsn is required" [])
  else if bool_decide (Database cfg = "") then Err (Errorf "database is required" [])
  else if bool_decide (TradesTable cfg = "") then Err (Errorf "trades table is required" [])
  else if bool_decide (CandlesTable cfg = "") then Err (Errorf "candles table is required" [])
  else if BatchSize cfg <=? 0 then Err (Errorf "batch size must be positive" [])
  else if MaxRetries cfg <? 0 then Err (Errorf "max retries must be non-negative" [])
  else Ok tt.

Record ServiceConfig := mkServiceConfig {
  sc_NATSURL : string;
  sc_Stream : string;
  sc_SubjectRoot : string;
  sc_Consumer : string;
  sc_PullBatch : Z;
  sc_PullTimeout : Z;
  sc_Writer : Config;
}.

Definition Validate (c : ServiceConfig) : result () :=
  if bool_decide (sc_NATSURL c = "") then Err (Errorf "nats url is required" [])
  else if bool_decide (sc_Stream c = "") then Err (Errorf "nats stream is required" [])
  else if bool_decide (sc_SubjectRoot c = "") then Err (Errorf "subject root is required" [])
  else if bool_decide (sc_Consumer c = "") then Err (Errorf "consumer name is required" [])
  else if sc_PullBatch c <=? 0 then Err (Errorf "pull batch must be positive" [])
  else if sc_PullTimeout c <=? 0 then Err (Errorf "pull timeout must be positive" [])
  else validateConfig (sc_Writer c).

Definition valueOrDefault (value fallback : string) : string :=
  if bool_decide (value = "") then fallback else value.

(** [if v := os.Getenv(name); v != ""]: an integer setting that [ok] accepts. *)
Definition envInt (env : string → string) (name : string) (ok : Z → bool) (def : Z) : result Z :=
  let v := env name in
  if bool_decide (v = "") then Ok def
  else match Atoi v with
       | Ok n => if ok n then Ok n else Err (Errorf "invalid %s: %q" [FStr name; FStr v])
       | Err _ => Err (Errorf "invalid %s: %q" [FStr name; FStr v])
       end.
Definition envMillis (env : string → string) (name : string) (ok : Z → bool) (def : Z) : result Z :=
  let v := env name in
  if bool_decide (v = "") then Ok def
  else ms ← envInt env name ok 0; Ok (i64 (ms * Millisecond)).

Definition positive (z : Z) : bool := 0 <? z.
Definition nonnegative (z : Z) : bool := 0 <=? z.

Definition emptyServiceConfig : ServiceConfig :=
  mkServiceConfig "" "" "" "" 0 0 (mkConfig "" "" "" "" 0 0 0 0 0).

(** The settings before the final validation. *)
Definition loadServiceConfig (env : string → string) : result ServiceConfig :=
  pullBatch ← envInt env "CH_SINK_PULL_BATCH" positive 256;
  pullTimeout ← envMillis env "CH_SINK_PULL_TIMEOUT_MS" positive (500 * Millisecond);
  flushInterval ← envMillis env "CH_SINK_FLUSH_INTERVAL_MS" positive (1000 * Millisecond);
  batchSize ← envInt env "CH_SINK_BATCH_SIZE" positive 512;
  maxRetries ← envInt env "CH_SINK_MAX_RETRIES" nonnegative 3;
  backoffBase ← envMillis env "CH_SINK_RETRY_BACKOFF_MS" nonnegative (200 * Millisecond);
  backoffMax ← envMillis env "CH_SINK_RETRY_BACKOFF_MAX_MS" nonnegative (5000 * Millisecond);
  Ok (mkServiceConfig (env "CH_SINK_NATS_URL") (env "CH_SINK_NATS_STREAM")
        (valueOrDefault (env "CH_SINK_SUBJECT_ROOT") "dex.sol")
        (valueOrDefault (env "CH_SINK_CONSUMER") "clickhouse-sink")
        pullBatch pullTimeout
        (mkConfig (env "CH_SINK_DSN") (env "CH_SINK_DATABASE") (env "CH_SINK_TRADES_TABLE")
           (env "CH_SINK_CANDLES_TABLE") batchSize flushInterval maxRetries backoffBase backoffMax)).

Definition ServiceConfigFromEnv (env : string → string) : ServiceConfig * result () :=
  match loadServiceConfig env with
  | Err e => (emptyServiceConfig, Err e)
  | Ok cfg => (cfg, Validate cfg)
  end.

(** ** Connection *)

(** What [parseDSN] reads of a [url.URL]: [url_User] is the user name with the
    password if one is set, [url_Query] is [u.Query().Get]. *)
Record URL := mkURL {
  url_Scheme : string;
  url_Host : string;
  url_User : option (string * option string);
  url_Path : string;
  url_Query : string → string;
}.

Inductive Compression := CompressionDefault | CompressionLZ4 | CompressionNone.

(** [ch.Options] *)
Record Options := mkOptions {
  op_Address : string;
  op_User : string;
  op_Password : string;
  op_Database : string;
  op_Compression : Compression;
}.

Section connect.
Context (unicode_lower : Z → Z) (url_Parse : string → result URL).

Definition parseDSN (dsn : string) : result Options :=
  u ← wrap_err "invalid DSN format: %w" [] (url_Parse dsn);
  let scheme := ToLower unicode_lower (url_Scheme u) in
  if bool_decide (scheme = "clickhouse") || bool_decide (scheme = "tcp") then
    let user := match url_User u with Some (name, _) => name | None => "" end in
    let password := match url_User u with Some (_, Some p) => p | _ => "" end in
    let database := if decide (1 < slen (url_Path u))%nat then str_drop 1 (url_Path u) else "" in
    let compression := url_Query u "compression" in
    Ok (mkOptions (url_Host u) user password database
          (if bool_decide (compression = "lz4") then CompressionLZ4
           else if bool_decide (compression = "none") then CompressionNone
           else CompressionDefault))
  else if bool_decide (scheme = "") then
    Err (Errorf "invalid scheme: expected 'clickhouse' or 'tcp'" [])
  else Err (Errorf "invalid scheme: expected 'clickhouse' or 'tcp', got '%s'" [FStr (url_Scheme u)]).

(** The network: [ch.Dial], and the [select] between [ctx.Done()], which gives
    [ctx.Err()], and [time.After(backoff)]. [dials] and [waits] record the calls. *)
Class ChDial (D C : Type) := {
  ch_Dial : Options → M D C;
  select_After : Z → D → D * option error;
  dials : D → list (Options * bool);
  waits : D → list Z;
  dials_Dial opts d : dials (ch_Dial opts d).1 = dials d ++ [(opts, is_ok (ch_Dial opts d).2)];
  waits_Dial opts d : waits (ch_Dial opts d).1 = waits d;
  dials_After t d : dials (select_After t d).1 = dials d;
  waits_After t d : waits (select_After t d).1 = waits d ++ [t];
}.

Context {D C : Type} `{ChDial D C}.

(** [for attempt := 0; attempt <= MaxRetries; attempt++]; [more] counts the
    attempts after this one, so [more = 0] is the last. *)
Fixpoint dialLoop (opts : Options) (retries maxBackoff : Z) (more : nat) (backoff : Z) : M D C := λ d,
  match ch_Dial opts d with
  | (d, Ok client) => (d, Ok client)
  | (d, Err err) =>
    match more with
    | O => (d, Err (Wrapf "failed after %d retries: %w" [FInt retries] err))
    | S more =>
      match select_After backoff d with
      | (d, Some ctxErr) => (d, Err (Wrapf "context cancelled during retry: %w" [] ctxErr))
      | (d, None) =>
        let backoff := i64 (backoff * 2) in
        let backoff := if maxBackoff <? backoff then maxBackoff else backoff in
        dialLoop opts retries maxBackoff more backoff d
      end
    end
  end.

Definition connectWithRetry (cfg : Config) : M D C := λ d,
  match wrap_err "failed to parse DSN: %w" [] (parseDSN (DSN cfg)) with
  | Err e => (d, Err e)
  | Ok opts =>
    let opts := mkOptions (op_Address opts) (op_User opts) (op_Password opts) (Database cfg)
                  (op_Compression opts) in
    let backoff := if RetryBackoffBase cfg =? 0 then 100 * Millisecond else RetryBackoffBase cfg in
    let maxBackoff := if RetryBackoffMax cfg =? 0 then 10000 * Millisecond
                      else RetryBackoffMax cfg in
    if MaxRetries cfg <? 0 then
      (d, Err (Errorf "failed after %d retries: %w" [FInt (MaxRetries cfg)]))
    else dialLoop opts (MaxRetries cfg) maxBackoff (Z.to_nat (MaxRetries cfg)) backoff d
  end.

End connect.

(** ** Column batches *)

(** [ch-go]'s [Int128FromUInt64]. *)
Class ChProto := {
  Int128 : Type;
  Int128FromUInt64 : Z → Int128;
  Int128FromUInt64_inj z1 z2 :
    is_u64 z1 → is_u64 z2 → Int128FromUInt64 z1 = Int128FromUInt64 z2 → z1 = z2;
}.

(** A [proto.ColDateTime64]: its precision, [None] when not set, and its values. *)
Record ColDateTime64 := mkColDateTime64 { dt_Precision : option Z; dt_values : list Z }.
Definition PrecisionMilli : Z := 3.
Definition WithPrecision (p : Z) (c : ColDateTime64) : ColDateTime64 :=
  mkColDateTime64 (Some p) (dt_values c).
Definition dt_Append (c : ColDateTime64) (v : Z) : ColDateTime64 :=
  mkColDateTime64 (dt_Precision c) (dt_values c ++ [v]).
Definition newTimestamps : ColDateTime64 := WithPrecision PrecisionMilli (mkColDateTime64 None []).

Record Trade := mkTrade {
  tr_ChainID : Z;
  tr_Slot : Z;
  tr_Timestamp : Z;
  tr_Signature : string;
  tr_Index : Z;
  tr_ProgramID : string;
  tr_PoolID : string;
  tr_MintBase : string;
  tr_MintQuote : string;
  tr_DecBase : Z;
  tr_DecQuote : Z;
  tr_BaseIn : Z;
  tr_BaseOut : Z;
  tr_QuoteIn : Z;
  tr_QuoteOut : Z;
  tr_PriceQ32 : Z;
  tr_ReservesBase : Z;
  tr_ReservesQuote : Z;
  tr_FeeBps : Z;
  tr_Provisional : bool;
  tr_IsUndo : bool;
}.

Record Candle := mkCandle {
  cn_Timestamp : Z;
  cn_PoolID : string;
  cn_Open : float64;
  cn_High : float64;
  cn_Low : float64;
  cn_Close : float64;
  cn_Volume : float64;
}.

(** The data of an input column; [ColDecimal128] is behind a [proto.Alias] whose
    type is [ColumnTypeDecimal.With(precision, scale)]. *)
Inductive ColInput `{ChProto} :=
  | ColUInt8 (vs : list Z)
  | ColUInt16 (vs : list Z)
  | ColUInt32 (vs : list Z)
  | ColUInt64 (vs : list Z)
  | ColInt64 (vs : list Z)
  | ColFloat64 (vs : list float64)
  | ColStr (vs : list string)
  | ColTime (c : ColDateTime64)
  | AliasDecimal (vs : list Int128) (precision scale : string).

(** [ch.Query] *)
Record Query `{ChProto} := mkQuery { q_Body : string; q_Input : list (string * ColInput) }.

Arguments mkQuery {_} _ _.
Arguments q_Body {_} _.
Arguments q_Input {_} _.

Class ChClient `{ChProto} (C : Type) := {
  ch_Do : context → Query → M C ();
  ch_Close : M C ();
  queries : C → list (Query * bool);
  queries_Do ctx q c : queries (ch_Do ctx q c).1 = queries c ++ [(q, is_ok (ch_Do ctx q c).2)];
  queries_Close c : queries (ch_Close c).1 = queries c;
}.

Record candleBatch := mkCandleBatch {
  cb_timestamps : ColDateTime64;
  cb_poolIDs : list string;
  cb_opens : list float64;
  cb_highs : list float64;
  cb_lows : list float64;
  cb_closes : list float64;
  cb_volumes : list float64;
  cb_count : Z;
}.

Section writer.
Context `{ChProto}.

Record tradeBatch := mkTradeBatch {
  tb_chainIDs : list Z;
  tb_slots : list Z;
  tb_timestamps : ColDateTime64;
  tb_signatures : list string;
  tb_indices : list Z;
  tb_programIDs : list string;
  tb_pools : list string;
  tb_mintBase : list string;
  tb_mintQuote : list string;
  tb_decBase : list Z;
  tb_decQuote : list Z;
  tb_baseIn : list Int128;
  tb_baseOut : list Int128;
  tb_quoteIn : list Int128;
  tb_quoteOut : list Int128;
  tb_priceQ32 : list Z;
  tb_reservesBase : list Int128;
  tb_reservesQuote : list Int128;
  tb_feeBps : list Z;
  tb_provisional : list Z;
  tb_isUndo : list Z;
  tb_count : Z;
}.

Definition emptyTradeBatch : tradeBatch :=
  mkTradeBatch [] [] newTimestamps [] [] [] [] [] [] [] [] [] [] [] [] [] [] [] [] [] [] 0.
Definition emptyCandleBatch : candleBatch := mkCandleBatch newTimestamps [] [] [] [] [] [] 0.

Definition decimal128FromUint64 (v : Z) : Int128 := Int128FromUInt64 v.

(** The appends of the loop of [WriteTrades]. *)
Definition appendTrade (b : tradeBatch) (t : Trade) : tradeBatch :=
  mkTradeBatch
    (tb_chainIDs b ++ [tr_ChainID t])
    (tb_slots b ++ [tr_Slot t])
    (dt_Append (tb_timestamps b) (tr_Timestamp t))
    (tb_signatures b ++ [tr_Signature t])
    (tb_indices b ++ [tr_Index t])
    (tb_programIDs b ++ [tr_ProgramID t])
    (tb_pools b ++ [tr_PoolID t])
    (tb_mintBase b ++ [tr_MintBase t])
    (tb_mintQuote b ++ [tr_MintQuote t])
    (tb_decBase b ++ [tr_DecBase t])
    (tb_decQuote b ++ [tr_DecQuote t])
    (tb_baseIn b ++ [decimal128FromUint64 (tr_BaseIn t)])
    (tb_baseOut b ++ [decimal128FromUint64 (tr_BaseOut t)])
    (tb_quoteIn b ++ [decimal128FromUint64 (tr_QuoteIn t)])
    (tb_quoteOut b ++ [decimal128FromUint64 (tr_QuoteOut t)])
    (tb_priceQ32 b ++ [tr_PriceQ32 t])
    (tb_reservesBase b ++ [decimal128FromUint64 (tr_ReservesBase t)])
    (tb_reservesQuote b ++ [decimal128FromUint64 (tr_ReservesQuote t)])
    (tb_feeBps b ++ [tr_FeeBps t])
    (tb_provisional b ++ [if tr_Provisional t then 1 else 0])
    (tb_isUndo b ++ [if tr_IsUndo t then 1 else 0])
    (tb_count b + 1).

(** The appends of the loop of [WriteCandles]. *)
Definition appendCandle (b : candleBatch) (c : Candle) : candleBatch :=
  mkCandleBatch
    (dt_Append (cb_timestamps b) (cn_Timestamp c))
    (cb_poolIDs b ++ [cn_PoolID c])
    (cb_opens b ++ [cn_Open c])
    (cb_highs b ++ [cn_High c])
    (cb_lows b ++ [cn_Low c])
    (cb_closes b ++ [cn_Close c])
    (cb_volumes b ++ [cn_Volume c])
    (cb_count b + 1).

Definition insertBody (table : string) : string := "INSERT INTO " +:+ table +:+ " VALUES".

Definition decimal38 (vs : list Int128) : ColInput := AliasDecimal vs "38" "0".

Definition tradesInput (b : tradeBatch) : list (string * ColInput) :=
  [("chain_id", ColUInt16 (tb_chainIDs b));
   ("slot", ColUInt64 (tb_slots b));
   ("ts", ColTime (tb_timestamps b));
   ("sig", ColStr (tb_signatures b));
   ("idx", ColUInt32 (tb_indices b));
   ("program_id", ColStr (tb_programIDs b));
   ("pool_id", ColStr (tb_pools b));
   ("mint_base", ColStr (tb_mintBase b));
   ("mint_quote", ColStr (tb_mintQuote b));
   ("dec_base", ColUInt8 (tb_decBase b));
   ("dec_quote", ColUInt8 (tb_decQuote b));
   ("base_in", decimal38 (tb_baseIn b));
   ("base_out", decimal38 (tb_baseOut b));
   ("quote_in", decimal38 (tb_quoteIn b));
   ("quote_out", decimal38 (tb_quoteOut b));
   ("price_q32", ColInt64 (tb_priceQ32 b));
   ("reserves_base", decimal38 (tb_reservesBase b));
   ("reserves_quote", decimal38 (tb_reservesQuote b));
   ("fee_bps", ColUInt16 (tb_feeBps b));
   ("provisional", ColUInt8 (tb_provisional b));
   ("is_undo", ColUInt8 (tb_isUndo b))].

Definition candlesInput (b : candleBatch) : list (string * ColInput) :=
  [("timestamp", ColTime (cb_timestamps b));
   ("pool_id", ColStr (cb_poolIDs b));
   ("open", ColFloat64 (cb_opens b));
   ("high", ColFloat64 (cb_highs b));
   ("low", ColFloat64 (cb_lows b));
   ("close", ColFloat64 (cb_closes b));
   ("volume", ColFloat64 (cb_volumes b))].

(** ** writer.go *)

Context {C : Type} `{!ChClient C}.

Record Writer := mkWriter {
  w_config : Config;
  w_client : C;
  tradesBatch : tradeBatch;
  candlesBatch : candleBatch;
}.

Definition setTrades (w : Writer) (b : tradeBatch) : Writer :=
  mkWriter (w_config w) (w_client w) b (candlesBatch w).
Definition setCandles (w : Writer) (b : candleBatch) : Writer :=
  mkWriter (w_config w) (w_client w) (tradesBatch w) b.

Definition client_Do (ctx : context) (q : Query) : M Writer () := λ w,
  let '(c, r) := ch_Do ctx q (w_client w) in
  (mkWriter (w_config w) c (tradesBatch w) (candlesBatch w), r).

Definition client_Close : M Writer () := λ w,
  let '(c, r) := ch_Close (w_client w) in
  (mkWriter (w_config w) c (tradesBatch w) (candlesBatch w), r).

Definition tradesQuery (cfg : Config) (b : tradeBatch) : Query :=
  mkQuery (insertBody (TradesTable cfg)) (tradesInput b).
Definition candlesQuery (cfg : Config) (b : candleBatch) : Query :=
  mkQuery (insertBody (CandlesTable cfg)) (candlesInput b).

Definition flushTrades (ctx : context) : M Writer () := λ w,
  if tb_count (tradesBatch w) =? 0 then (w, Ok tt)
  else match client_Do ctx (tradesQuery (w_config w) (tradesBatch w)) w with
       | (w, Err err) => (w, Err (Wrapf "failed to flush trades: %w" [] err))
       | (w, Ok _) => (setTrades w emptyTradeBatch, Ok tt)
       end.

Definition flushCandles (ctx : context) : M Writer () := λ w,
  if cb_count (candlesBatch w) =? 0 then (w, Ok tt)
  else match client_Do ctx (candlesQuery (w_config w) (candlesBatch w)) w with
       | (w, Err err) => (w, Err (Wrapf "failed to flush candles: %w" [] err))
       | (w, Ok _) => (setCandles w emptyCandleBatch, Ok tt)
       end.

Definition writeTrade (ctx : context) (trade : Trade) : M Writer () :=
  _ ← M_modify (λ w, setTrades w (appendTrade (tradesBatch w) trade));
  w ← M_get;
  if BatchSize (w_config w) <=? tb_count (tradesBatch w) then flushTrades ctx else mret tt.

Definition WriteTrades (ctx : context) (trades : list Trade) : M Writer () :=
  M_for trades (writeTrade ctx).

Definition writeCandle (ctx : context) (candle : Candle) : M Writer () :=
  _ ← M_modify (λ w, setCandles w (appendCandle (candlesBatch w) candle));
  w ← M_get;
  if BatchSize (w_config w) <=? cb_count (candlesBatch w) then flushCandles ctx else mret tt.

Definition WriteCandles (ctx : context) (candles : list Candle) : M Writer () :=
  M_for candles (writeCandle ctx).

Definition Flush (ctx : context) : M Writer () :=
  _ ← flushTrades ctx; flushCandles ctx.

Definition Close (ctx : context) : M Writer () :=
  _ ← Flush ctx; client_Close.

Definition newWriter (cfg : Config) (client : C) : Writer :=
  mkWriter cfg client emptyTradeBatch emptyCandleBatch.

Definition NewWithConfig {D} `{!ChDial D C} unicode_lower url_Parse (cfg : Config) : M D Writer := λ d,
  match wrap_err "invalid config: %w" [] (validateConfig cfg) with
  | Err e => (d, Err e)
  | Ok _ =>
    let '(d, r) := connectWithRetry unicode_lower url_Parse cfg d in
    (d, client ← wrap_err "failed to connect to ClickHouse: %w" [] r; Ok (newWriter cfg client))
  end.

End writer.
Arguments Writer {_} C.
Arguments mkWriter {_ _} _ _ _ _.
Arguments w_config {_ _} _.
Arguments w_client {_ _} _.
Arguments tradesBatch {_ _} _.
Arguments candlesBatch {_ _} _.

(** ** service.go: the processor *)

(** The interface [tradeWriter]. [holds w ts]: the rows given to [w] so far,
    inserted or buffered, are [ts], in order. Rows are kept when a call fails,
    which is what the processor may rely on. *)
Class TradeWriter (T : Type) := {
  WriteTrades_ : context → list Trade → M T ();
  Flush_ : context → M T ();
  holds : T → list Trade → Prop;
  holds_WriteTrades ctx t w ts :
    holds w ts → holds (WriteTrades_ ctx [t] w).1 (ts ++ [t]);
  holds_Flush ctx w ts : holds w ts → holds (Flush_ ctx w).1 ts;
}.

Record processor (T : Type) := mkProcessor { p_writer : T; slotTimes : gmap Z Z }.
Arguments mkProcessor {T} _ _.
Arguments p_writer {T} _.
Arguments slotTimes {T} _.

Section processor.
Context (unicode_lower : Z → Z) {T : Type} `{TradeWriter T}.

Definition newProcessor (writer : T) : processor T := mkProcessor writer ∅.

(** [time.Unix(ts, 0).UTC()] is the zero time for one value of [ts]. *)
Definition handleBlockHead (head : option BlockHead) (p : processor T) : processor T :=
  match head with
  | None => p
  | Some head =>
    let ts := i64 (bh_TsSec head) in
    if ts =? zero_time then p
    else
      let p := mkProcessor (p_writer p) (<[bh_Slot head := ts]> (slotTimes p)) in
      let status := ToLower unicode_lower (bh_Status head) in
      if bool_decide (status = "dead") then
        mkProcessor (p_writer p) (delete (bh_Slot head) (slotTimes p))
      else p
  end.

(** The row of an event and its time. *)
Definition swapTrade (ts : Z) (event : SwapEvent) : Trade := {|
  tr_ChainID := u16 (sw_ChainId event);
  tr_Slot := sw_Slot event;
  tr_Timestamp := ts;
  tr_Signature := sw_Sig event;
  tr_Index := sw_Index event;
  tr_ProgramID := sw_ProgramId event;
  tr_PoolID := sw_PoolId event;
  tr_MintBase := sw_MintBase event;
  tr_MintQuote := sw_MintQuote event;
  tr_DecBase := u8 (sw_DecBase event);
  tr_DecQuote := u8 (sw_DecQuote event);
  tr_BaseIn := sw_BaseIn event;
  tr_BaseOut := sw_BaseOut event;
  tr_QuoteIn := sw_QuoteIn event;
  tr_QuoteOut := sw_QuoteOut event;
  tr_PriceQ32 := 0;
  tr_ReservesBase := sw_ReservesBase event;
  tr_ReservesQuote := sw_ReservesQuote event;
  tr_FeeBps := u16 (sw_FeeBps event);
  tr_Provisional := sw_Provisional event;
  tr_IsUndo := sw_IsUndo event;
|}.

Definition on_writer (m : M T ()) : M (processor T) () := λ p,
  let '(w, r) := m (p_writer p) in (mkProcessor w (slotTimes p), r).

(** A missing slot reads as the zero time. *)
Definition handleSwap (ctx : context) (event : option SwapEvent) : M (processor T) () := λ p,
  match event with
  | None => (p, Ok tt)
  | Some event =>
    let ts := default zero_time (slotTimes p !! sw_Slot event) in
    on_writer (WriteTrades_ ctx [swapTrade ts event]) p
  end.

Context `{ProtoUnmarshal}.

Definition handleMessage (ctx : context) (msg : NatsMsg) : M (processor T) () := λ p,
  let subject := nm_Subject msg in
  if HasSuffix subject ".swap" then
    match wrap_err "unmarshal swap: %w" [] (Unmarshal_Swap (nm_Data msg)) with
    | Err e => (p, Err e)
    | Ok event => handleSwap ctx (Some event) p
    end
  else if HasSuffix subject ".blocks.head" then
    match wrap_err "unmarshal block head: %w" [] (Unmarshal_BlockHead (nm_Data msg)) with
    | Err e => (p, Err e)
    | Ok head => (handleBlockHead (Some head) p, Ok tt)
    end
  else (p, Ok tt).

(** [Service.Run]: the ticker and the deferred call flush the writer. *)
Definition Run (ctx : context) (rounds : list round) (writer : T) :
    loop_state (processor T) * option error :=
  run_loop (λ ctx, on_writer (Flush_ ctx)) handleMessage ctx rounds
    (mkLoop (newProcessor writer) []).

End processor.

(** ** The writer keeps its columns aligned *)

Section writer_lemmas.
Context `{ChProto} {C : Type} `{!ChClient C}.

(** The batch that holds the rows [ts]. *)
Definition trade_cols (ts : list Trade) : tradeBatch :=
  mkTradeBatch (tr_ChainID <$> ts) (tr_Slot <$> ts)
    (mkColDateTime64 (Some PrecisionMilli) (tr_Timestamp <$> ts))
    (tr_Signature <$> ts) (tr_Index <$> ts) (tr_ProgramID <$> ts) (tr_PoolID <$> ts)
    (tr_MintBase <$> ts) (tr_MintQuote <$> ts) (tr_DecBase <$> ts) (tr_DecQuote <$> ts)
    (Int128FromUInt64 ∘ tr_BaseIn <$> ts) (Int128FromUInt64 ∘ tr_BaseOut <$> ts)
    (Int128FromUInt64 ∘ tr_QuoteIn <$> ts) (Int128FromUInt64 ∘ tr_QuoteOut <$> ts)
    (tr_PriceQ32 <$> ts)
    (Int128FromUInt64 ∘ tr_ReservesBase <$> ts) (Int128FromUInt64 ∘ tr_ReservesQuote <$> ts)
    (tr_FeeBps <$> ts) ((λ t, if tr_Provisional t then 1 else 0) <$> ts)
    ((λ t, if tr_IsUndo t then 1 else 0) <$> ts) (zlen ts).
Definition candle_cols (cs : list Candle) : candleBatch :=
  mkCandleBatch (mkColDateTime64 (Some PrecisionMilli) (cn_Timestamp <$> cs))
    (cn_PoolID <$> cs) (cn_Open <$> cs) (cn_High <$> cs) (cn_Low <$> cs) (cn_Close <$> cs)
    (cn_Volume <$> cs) (zlen cs).

Lemma appendTrade_cols ts t : appendTrade (trade_cols ts) t = trade_cols (ts ++ [t]).
Proof.
  unfold appendTrade, trade_cols, dt_Append, decimal128FromUint64. simpl. rewrite !fmap_app.
  f_equal. unfold zlen. rewrite length_app. simpl. lia.
Qed.
Lemma appendCandle_cols cs c : appendCandle (candle_cols cs) c = candle_cols (cs ++ [c]).
Proof.
  unfold appendCandle, candle_cols, dt_Append. simpl. rewrite !fmap_app.
  f_equal. unfold zlen. rewrite length_app. simpl. lia.
Qed.

(** Batches of different rows are different, for rows of 64-bit amounts. *)
Definition trade_ok (t : Trade) : Prop :=
  is_u64 (tr_BaseIn t) ∧ is_u64 (tr_BaseOut t) ∧ is_u64 (tr_QuoteIn t) ∧ is_u64 (tr_QuoteOut t)
  ∧ is_u64 (tr_ReservesBase t) ∧ is_u64 (tr_ReservesQuote t).

Lemma trade_cols_inj ts1 ts2 :
  Forall trade_ok ts1 → Forall trade_ok ts2 → trade_cols ts1 = trade_cols ts2 → ts1 = ts2.
Proof.
  intros Hok1. revert ts2. induction Hok1 as [|t1 ts1 Ht1 Hok1 IH]; intros [|t2 ts2] Hok2 E;
    [done|discriminate E|discriminate E|].
  apply Forall_cons in Hok2 as [Ht2 Hok2].
  unfold trade_cols in E. injection E; clear E; intros.
  assert (trade_cols ts1 = trade_cols ts2) as E.
  { unfold trade_cols. f_equal; try assumption; [by f_equal|unfold zlen in *; simpl in *; lia]. }
  apply IH in E as ->; [|done]. f_equal. unfold trade_ok in *. destruct_and!.
  destruct t1, t2; simpl in *. f_equal; try assumption;
    try (apply Int128FromUInt64_inj; assumption);
    match goal with |- ?a = ?b => destruct a, b; first [reflexivity|discriminate] end.
Qed.

(** ** What has been inserted *)

Inductive insert := InsTrades (ts : list Trade) | InsCandles (cs : list Candle).

Definition insert_query (cfg : Config) (i : insert) : Query :=
  match i with
  | InsTrades ts => tradesQuery cfg (trade_cols ts)
  | InsCandles cs => candlesQuery cfg (candle_cols cs)
  end.

Definition accepted_trades (log : list (insert * bool)) : list Trade :=
  concat ((λ e, match e with (InsTrades ts, true) => ts | _ => [] end) <$> log).
Definition accepted_candles (log : list (insert * bool)) : list Candle :=
  concat ((λ e, match e with (InsCandles cs, true) => cs | _ => [] end) <$> log).

(** The calls of the client are the inserts [log], and the batches hold the rows
    [ts] and [cs]. *)
Record represents (w : Writer C) (log : list (insert * bool)) (ts : list Trade)
    (cs : list Candle) : Prop := {
  rep_queries : queries (w_client w) = prod_map (insert_query (w_config w)) id <$> log;
  rep_trades : tradesBatch w = trade_cols ts;
  rep_candles : candlesBatch w = candle_cols cs;
}.

Lemma represents_new cfg client :
  queries client = [] → represents (newWriter cfg client) [] [] [].
Proof. intros Hq. split; simpl; [by rewrite Hq|done..]. Qed.

Lemma represents_append_trade w log ts cs t :
  represents w log ts cs →
  represents (setTrades w (appendTrade (tradesBatch w) t)) log (ts ++ [t]) cs.
Proof. intros [Hq Ht Hc]. split; simpl; [done| |done]. by rewrite Ht, appendTrade_cols. Qed.
Lemma represents_append_candle w log ts cs c :
  represents w log ts cs →
  represents (setCandles w (appendCandle (candlesBatch w) c)) log ts (cs ++ [c]).
Proof. intros [Hq Ht Hc]. split; simpl; [done..|]. by rewrite Hc, appendCandle_cols. Qed.

(** [flushTrades] on a writer that holds [ts]: nothing to do, or one insert. *)
Lemma flushTrades_run ctx w log ts cs :
  represents w log ts cs →
  (ts = [] ∧ flushTrades ctx w = (w, Ok tt))
  ∨ (ts ≠ [] ∧ ∃ w', flushTrades ctx w = (w', Ok tt) ∧ w_config w' = w_config w
     ∧ represents w' (log ++ [(InsTrades ts, true)]) [] cs)
  ∨ (ts ≠ [] ∧ ∃ w' e, flushTrades ctx w = (w', Err e) ∧ w_config w' = w_config w
     ∧ represents w' (log ++ [(InsTrades ts, false)]) ts cs).
Proof.
  intros [Hq Ht Hc]. unfold flushTrades. rewrite Ht. unfold trade_cols at 1. simpl.
  destruct ts as [|t ts]; [by left|right].
  destruct (Z.eqb_spec (zlen (t :: ts)) 0) as [Hz|_]; [unfold zlen in Hz; simpl in Hz; lia|].
  unfold client_Do. pose proof (queries_Do ctx (tradesQuery (w_config w) (trade_cols (t :: ts)))
    (w_client w)) as Hd.
  destruct (ch_Do ctx _ _) as [c [[]|e]]; simpl in Hd; [left|right].
  - split; [done|]. eexists. split_and!; [done|done|]. split; simpl; [|done|done].
    by rewrite Hd, Hq, fmap_app.
  - split; [done|]. eexists _, _. split_and!; [done|done|]. split; simpl; [|done|done].
    by rewrite Hd, Hq, fmap_app.
Qed.

Lemma flushCandles_run ctx w log ts cs :
  represents w log ts cs →
  (cs = [] ∧ flushCandles ctx w = (w, Ok tt))
  ∨ (cs ≠ [] ∧ ∃ w', flushCandles ctx w = (w', Ok tt) ∧ w_config w' = w_config w
     ∧ represents w' (log ++ [(InsCandles cs, true)]) ts [])
  ∨ (cs ≠ [] ∧ ∃ w' e, flushCandles ctx w = (w', Err e) ∧ w_config w' = w_config w
     ∧ represents w' (log ++ [(InsCandles cs, false)]) ts cs).
Proof.
  intros [Hq Ht Hc]. unfold flushCandles. rewrite Hc. unfold candle_cols at 1. simpl.
  destruct cs as [|c0 cs]; [by left|right].
  destruct (Z.eqb_spec (zlen (c0 :: cs)) 0) as [Hz|_]; [unfold zlen in Hz; simpl in Hz; lia|].
  unfold client_Do. pose proof (queries_Do ctx (candlesQuery (w_config w) (candle_cols (c0 :: cs)))
    (w_client w)) as Hd.
  destruct (ch_Do ctx _ _) as [c [[]|e]]; simpl in Hd; [left|right].
  - split; [done|]. eexists. split_and!; [done|done|]. split; simpl; [|done|done].
    by rewrite Hd, Hq, fmap_app.
  - split; [done|]. eexists _, _. split_and!; [done|done|]. split; simpl; [|done|done].
    by rewrite Hd, Hq, fmap_app.
Qed.

Lemma accepted_trades_app l1 l2 :
  accepted_trades (l1 ++ l2) = accepted_trades l1 ++ accepted_trades l2.
Proof. unfold accepted_trades. by rewrite fmap_app, concat_app. Qed.
Lemma accepted_candles_app l1 l2 :
  accepted_candles (l1 ++ l2) = accepted_candles l1 ++ accepted_candles l2.
Proof. unfold accepted_candles. by rewrite fmap_app, concat_app. Qed.

(** One trade: buffered, or inserted with the batch it fills, or left in a batch
    that was refused. *)
Lemma writeTrade_run ctx t w log ts cs :
  represents w log ts cs →
  ∃ w' r, writeTrade ctx t w = (w', r) ∧ w_config w' = w_config w
  ∧ ((zlen (ts ++ [t]) < BatchSize (w_config w) ∧ r = Ok tt ∧ represents w' log (ts ++ [t]) cs)
    ∨ (BatchSize (w_config w) <= zlen (ts ++ [t]) ∧ r = Ok tt
       ∧ represents w' (log ++ [(InsTrades (ts ++ [t]), true)]) [] cs)
    ∨ (BatchSize (w_config w) <= zlen (ts ++ [t]) ∧ is_ok r = false
       ∧ represents w' (log ++ [(InsTrades (ts ++ [t]), false)]) (ts ++ [t]) cs)).
Proof.
  intros Hr%(represents_append_trade _ _ _ _ t). unfold writeTrade.
  rewrite !M_bind_run. cbn [M_modify]. rewrite M_bind_run. cbn [M_get].
  set (w1 := setTrades w _) in *. change (w_config w) with (w_config w1).
  assert (tb_count (tradesBatch w1) = zlen (ts ++ [t])) as -> by (by rewrite (rep_trades _ _ _ _ Hr)).
  destruct (Z.leb_spec (BatchSize (w_config w1)) (zlen (ts ++ [t]))) as [Hle|Hlt].
  - destruct (flushTrades_run ctx _ _ _ _ Hr) as [[Hn _]|[(_ & w' & E & Hc & Hr')|
      (_ & w' & e & E & Hc & Hr')]]; [by destruct ts|..]; rewrite E; eauto 10.
  - eexists _, _. split; [reflexivity|]. split; [done|]. by left.
Qed.

Lemma writeCandle_run ctx c w log ts cs :
  represents w log ts cs →
  ∃ w' r, writeCandle ctx c w = (w', r) ∧ w_config w' = w_config w
  ∧ ((zlen (cs ++ [c]) < BatchSize (w_config w) ∧ r = Ok tt ∧ represents w' log ts (cs ++ [c]))
    ∨ (BatchSize (w_config w) <= zlen (cs ++ [c]) ∧ r = Ok tt
       ∧ represents w' (log ++ [(InsCandles (cs ++ [c]), true)]) ts [])
    ∨ (BatchSize (w_config w) <= zlen (cs ++ [c]) ∧ is_ok r = false
       ∧ represents w' (log ++ [(InsCandles (cs ++ [c]), false)]) ts (cs ++ [c]))).
Proof.
  intros Hr%(represents_append_candle _ _ _ _ c). unfold writeCandle.
  rewrite !M_bind_run. cbn [M_modify]. rewrite M_bind_run. cbn [M_get].
  set (w1 := setCandles w _) in *. change (w_config w) with (w_config w1).
  assert (cb_count (candlesBatch w1) = zlen (cs ++ [c])) as -> by (by rewrite (rep_candles _ _ _ _ Hr)).
  destruct (Z.leb_spec (BatchSize (w_config w1)) (zlen (cs ++ [c]))) as [Hle|Hlt].
  - destruct (flushCandles_run ctx _ _ _ _ Hr) as [[Hn _]|[(_ & w' & E & Hc & Hr')|
      (_ & w' & e & E & Hc & Hr')]]; [by destruct cs|..]; rewrite E; eauto 10.
  - eexists _, _. split; [reflexivity|]. split; [done|]. by left.
Qed.

(** The rows given so far: those of the accepted inserts, then the buffered ones. *)
Definition kept (w : Writer C) (ts : list Trade) (cs : list Candle) : Prop :=
  ∃ log bts bcs, represents w log bts bcs
  ∧ accepted_trades log ++ bts = ts ∧ accepted_candles log ++ bcs = cs.

Ltac kept_solve := rewrite ?accepted_trades_app, ?accepted_candles_app; cbn;
  rewrite ?app_nil_r; rewrite ?app_assoc; done.

Lemma kept_flushTrades ctx w ts cs : kept w ts cs → kept (flushTrades ctx w).1 ts cs.
Proof.
  intros (log & bts & bcs & Hr & <- & <-).
  destruct (flushTrades_run ctx _ _ _ _ Hr) as [[Hn E]|[(_ & w' & E & _ & Hr')|
    (_ & w' & e & E & _ & Hr')]]; rewrite E; simpl; eexists _, _, _; (split; [done|]);
    (split; kept_solve).
Qed.
Lemma kept_flushCandles ctx w ts cs : kept w ts cs → kept (flushCandles ctx w).1 ts cs.
Proof.
  intros (log & bts & bcs & Hr & <- & <-).
  destruct (flushCandles_run ctx _ _ _ _ Hr) as [[Hn E]|[(_ & w' & E & _ & Hr')|
    (_ & w' & e & E & _ & Hr')]]; rewrite E; simpl; eexists _, _, _; (split; [done|]);
    (split; kept_solve).
Qed.
Lemma kept_Flush ctx w ts cs : kept w ts cs → kept (Flush ctx w).1 ts cs.
Proof.
  intros Hk%(kept_flushTrades ctx). unfold Flush. rewrite M_bind_run.
  destruct (flushTrades ctx w) as [w' [[]|e]]; [|done]. by apply kept_flushCandles.
Qed.
Lemma kept_writeTrade ctx t w ts cs : kept w ts cs → kept (writeTrade ctx t w).1 (ts ++ [t]) cs.
Proof.
  intros (log & bts & bcs & Hr & <- & <-).
  destruct (writeTrade_run ctx t _ _ _ _ Hr) as (w' & r & -> & _ & [(_ & _ & Hr')|
    [(_ & _ & Hr')|(_ & _ & Hr')]]); eexists _, _, _; (split; [done|]); (split; kept_solve).
Qed.
Lemma kept_writeCandle ctx c w ts cs : kept w ts cs → kept (writeCandle ctx c w).1 ts (cs ++ [c]).
Proof.
  intros (log & bts & bcs & Hr & <- & <-).
  destruct (writeCandle_run ctx c _ _ _ _ Hr) as (w' & r & -> & _ & [(_ & _ & Hr')|
    [(_ & _ & Hr')|(_ & _ & Hr')]]); eexists _, _, _; (split; [done|]); (split; kept_solve).
Qed.

(** A refused insert ends the loop. The rows given up to then are taken: the last of
    them is the last row of the refused batch, which is still held; the rows after it
    are not. *)
Definition refused_trades (w : Writer C) (l given : list Trade) : Prop :=
  ∃ pre t rest held log cs, l = pre ++ t :: rest ∧ given = pre ++ [t]
  ∧ represents w (log ++ [(InsTrades (held ++ [t]), false)]) (held ++ [t]) cs.
Lemma refused_trades_cons w x l given :
  refused_trades w l given → refused_trades w (x :: l) (x :: given).
Proof. intros (pre & t & rest & held & log & o & -> & -> & Hr). by exists (x :: pre), t, rest, held, log, o. Qed.

Lemma kept_WriteTrades ctx l w ts cs :
  kept w ts cs → ∃ given, kept (WriteTrades ctx l w).1 (ts ++ given) cs
  ∧ (if is_ok (WriteTrades ctx l w).2 then given = l
     else refused_trades (WriteTrades ctx l w).1 l given).
Proof.
  revert w ts. induction l as [|t l IH]; intros w ts Hk.
  { exists []. by rewrite app_nil_r. }
  pose proof Hk as (log & bts & bcs & Hr & _ & _). apply (kept_writeTrade ctx t) in Hk.
  destruct (writeTrade_run ctx t _ _ _ _ Hr) as (w' & r & E & _ & Hcase).
  unfold WriteTrades. rewrite M_for_cons. rewrite E in Hk |- *. destruct r as [[]|e]; simpl in *.
  - destruct (IH _ _ Hk) as (given & Hk' & Hres). exists (t :: given).
    rewrite <- app_assoc in Hk'. split; [done|]. unfold WriteTrades in Hres.
    destruct (is_ok _); [by f_equal|by apply refused_trades_cons].
  - exists [t]. split; [done|]. destruct Hcase as [(_ & ? & _)|[(_ & ? & _)|(_ & _ & Hr')]]; [done..|].
    by eexists [], t, l, _, _, _.
Qed.
Definition refused_candles (w : Writer C) (l given : list Candle) : Prop :=
  ∃ pre t rest held log ts, l = pre ++ t :: rest ∧ given = pre ++ [t]
  ∧ represents w (log ++ [(InsCandles (held ++ [t]), false)]) ts (held ++ [t]).
Lemma refused_candles_cons w x l given :
  refused_candles w l given → refused_candles w (x :: l) (x :: given).
Proof. intros (pre & t & rest & held & log & o & -> & -> & Hr). by exists (x :: pre), t, rest, held, log, o. Qed.

Lemma kept_WriteCandles ctx l w ts cs :
  kept w ts cs → ∃ given, kept (WriteCandles ctx l w).1 ts (cs ++ given)
  ∧ (if is_ok (WriteCandles ctx l w).2 then given = l
     else refused_candles (WriteCandles ctx l w).1 l given).
Proof.
  revert w cs. induction l as [|t l IH]; intros w cs Hk.
  { exists []. by rewrite app_nil_r. }
  pose proof Hk as (log & bts & bcs & Hr & _ & _). apply (kept_writeCandle ctx t) in Hk.
  destruct (writeCandle_run ctx t _ _ _ _ Hr) as (w' & r & E & _ & Hcase).
  unfold WriteCandles. rewrite M_for_cons. rewrite E in Hk |- *. destruct r as [[]|e]; simpl in *.
  - destruct (IH _ _ Hk) as (given & Hk' & Hres). exists (t :: given).
    rewrite <- app_assoc in Hk'. split; [done|]. unfold WriteCandles in Hres.
    destruct (is_ok _); [by f_equal|by apply refused_candles_cons].
  - exists [t]. split; [done|]. destruct Hcase as [(_ & ? & _)|[(_ & ? & _)|(_ & _ & Hr')]]; [done..|].
    by eexists [], t, l, _, _, _.
Qed.

(** After [Flush]: nothing is buffered, or the client refused its last call. *)
Lemma Flush_drains ctx w log ts cs :
  represents w log ts cs →
  ∃ log' ts' cs', represents (Flush ctx w).1 log' ts' cs'
  ∧ accepted_trades log' ++ ts' = accepted_trades log ++ ts
  ∧ accepted_candles log' ++ cs' = accepted_candles log ++ cs
  ∧ if is_ok (Flush ctx w).2 then ts' = [] ∧ cs' = []
    else ∃ i, last log' = Some (i, false).
Proof.
  intros Hr. unfold Flush. rewrite M_bind_run.
  assert (∃ w1 r log1 ts1, flushTrades ctx w = (w1, r) ∧ represents w1 log1 ts1 cs
    ∧ accepted_trades log1 ++ ts1 = accepted_trades log ++ ts
    ∧ accepted_candles log1 = accepted_candles log
    ∧ if is_ok r then ts1 = [] else ∃ i, last log1 = Some (i, false)) as
    (w1 & r & log1 & ts1 & -> & Hr1 & <- & <- & H1).
  { destruct (flushTrades_run ctx _ _ _ _ Hr) as [[Hn E]|[(_ & w' & E & _ & Hr')|
      (_ & w' & e & E & _ & Hr')]]; rewrite E; eexists _, _, _, _; split_and!; try done;
      try kept_solve. simpl. rewrite last_snoc. eauto. }
  destruct r as [[]|e]; simpl in H1; [subst ts1|by eexists _, _, _].
  destruct (flushCandles_run ctx _ _ _ _ Hr1) as [[Hn E]|[(_ & w' & E & _ & Hr')|
    (_ & w' & e & E & _ & Hr')]]; rewrite E; simpl; eexists _, _, _; split_and!; try done;
    try kept_solve. rewrite last_snoc. eauto.
Qed.
End writer_lemmas.

(** The writer implements the interface of the processor. *)
#[local] Program Instance Writer_TradeWriter_ `{ChProto} {C} `{!ChClient C} :
    TradeWriter (Writer C) := {|
  WriteTrades_ := WriteTrades;
  Flush_ := Flush;
  holds w ts := ∃ cs, kept w ts cs;
|}.
Next Obligation.
  intros ? C ? ctx t w ts (cs & Hk). exists cs. unfold WriteTrades. rewrite M_for_cons.
  apply (kept_writeTrade ctx t) in Hk. by destruct (writeTrade ctx t w) as [w' [[]|e]].
Qed.
Next Obligation. intros ? C ? ctx w ts (cs & Hk). exists cs. by apply kept_Flush. Qed.
Definition Writer_TradeWriter := @Writer_TradeWriter_.

(** ** Rows of a stream of messages *)

Section rows.
Context (unicode_lower : Z → Z) `{ProtoUnmarshal}.

(** The time of a slot after some block heads: that of the last head of the slot
    that has one, unless it is dead. *)
Definition head_time (heads : list BlockHead) (slot : Z) : option Z :=
  match last (filter (λ h, bh_Slot h = slot ∧ i64 (bh_TsSec h) ≠ zero_time) heads) with
  | Some h =>
    if bool_decide (ToLower unicode_lower (bh_Status h) = "dead") then None
    else Some (i64 (bh_TsSec h))
  | None => None
  end.

Definition msg_head (msg : NatsMsg) : option BlockHead :=
  if HasSuffix (nm_Subject msg) ".swap" then None
  else if HasSuffix (nm_Subject msg) ".blocks.head" then
    match Unmarshal_BlockHead (nm_Data msg) with Ok h => Some h | Err _ => None end
  else None.
Definition msg_swap (msg : NatsMsg) : option SwapEvent :=
  if HasSuffix (nm_Subject msg) ".swap" then
    match Unmarshal_Swap (nm_Data msg) with Ok e => Some e | Err _ => None end
  else None.

(** The rows of the swaps among [msgs], each at the time its slot has from the
    heads before it. *)
Fixpoint rows_of (heads : list BlockHead) (msgs : list NatsMsg) : list Trade :=
  match msgs with
  | [] => []
  | msg :: rest =>
    (match msg_swap msg with
     | Some e => [swapTrade (default zero_time (head_time heads (sw_Slot e))) e]
     | None => []
     end)
    ++ rows_of (heads ++ match msg_head msg with Some h => [h] | None => [] end) rest
  end.

Lemma rows_of_app heads m1 m2 :
  rows_of heads (m1 ++ m2) = rows_of heads m1 ++ rows_of (heads ++ omap msg_head m1) m2.
Proof.
  revert heads. induction m1 as [|m m1 IH]; intros heads; simpl.
  { by rewrite app_nil_r. }
  rewrite IH, app_assoc. f_equal. rewrite <- app_assoc. do 2 f_equal. by destruct (msg_head m).
Qed.

Context {T : Type} `{!TradeWriter T}.

Lemma head_time_snoc (p : processor T) heads h :
  (∀ slot, slotTimes p !! slot = head_time heads slot) →
  ∀ slot, slotTimes (handleBlockHead unicode_lower (Some h) p) !! slot
          = head_time (heads ++ [h]) slot.
Proof.
  intros Hp slot. unfold handleBlockHead, head_time. rewrite filter_app.
  destruct (Z.eqb_spec (i64 (bh_TsSec h)) zero_time) as [Hz|Hz].
  { rewrite (filter_cons_False _ h) by naive_solver. rewrite filter_nil, app_nil_r. apply Hp. }
  destruct (decide (bh_Slot h = slot)) as [<-|Hne].
  - rewrite (filter_cons_True _ h) by done. rewrite filter_nil, last_snoc.
    destruct (bool_decide (ToLower unicode_lower (bh_Status h) = "dead")); simpl.
    + by rewrite lookup_delete_eq.
    + by rewrite lookup_insert_eq.
  - rewrite (filter_cons_False _ h) by naive_solver. rewrite filter_nil, app_nil_r.
    destruct (bool_decide _); simpl;
      rewrite ?lookup_delete_ne, ?lookup_insert_ne by done; apply Hp.
Qed.

(** The invariant of the service: the writer has the rows of the messages
    handled, the processor the times of the block heads. *)
Definition sink_inv (p : processor T) (tr : list sink_event) : Prop :=
  holds (p_writer p) (rows_of [] (event_msg <$> tr))
  ∧ ∀ slot, slotTimes p !! slot = head_time (omap msg_head (event_msg <$> tr)) slot.

(** What the handler does to it, whatever it returns. *)
Lemma handleMessage_inv ctx msg p tr ev :
  event_msg ev = msg → sink_inv p tr → sink_inv (handleMessage unicode_lower ctx msg p).1 (tr ++ [ev]).
Proof.
  intros Hev [Hh Ht]. unfold sink_inv. rewrite fmap_app, rows_of_app, omap_app. simpl.
  rewrite Hev, app_nil_r. unfold handleMessage, msg_swap, msg_head.
  destruct (HasSuffix (nm_Subject msg) ".swap").
  - destruct (Unmarshal_Swap (nm_Data msg)) as [e|e]; simpl; rewrite ?app_nil_r; [|done].
    unfold on_writer. rewrite <- Ht.
    pose proof (holds_WriteTrades ctx
      (swapTrade (default zero_time (slotTimes p !! sw_Slot e)) e) _ _ Hh) as Hw.
    by destruct (WriteTrades_ ctx _ _).
  - destruct (HasSuffix (nm_Subject msg) ".blocks.head"); simpl; rewrite ?app_nil_r; [|done].
    destruct (Unmarshal_BlockHead (nm_Data msg)) as [h|e]; simpl; rewrite ?app_nil_r; [|done].
    split; [|by apply head_time_snoc].
    change (holds (p_writer (handleBlockHead unicode_lower (Some h) p)) (rows_of [] (event_msg <$> tr))).
    unfold handleBlockHead. by repeat case_match.
Qed.

Lemma sink_inv_new writer : holds writer [] → sink_inv (newProcessor writer) [].
Proof. intros Hw. split; [done|]. intros slot. simpl. by rewrite lookup_empty. Qed.

Lemma Run_pull_inv ctx rounds (s : loop_state (processor T)) :
  sink_inv (ls_sink s) (ls_trace s) →
  let r := pull_loop (λ ctx, on_writer (Flush_ ctx)) (handleMessage unicode_lower) ctx rounds s in
  sink_inv (ls_sink r.1) (ls_trace r.1).
Proof.
  apply (pull_loop_inv _ _ ctx sink_inv).
  - intros c p tr [Hh Ht]. unfold on_writer, sink_inv.
    pose proof (holds_Flush c _ _ Hh) as Hf. by destruct (Flush_ c (p_writer p)).
  - intros msg p p' tr Hi E. pose proof (handleMessage_inv ctx msg p tr (E_Ack msg) eq_refl Hi) as H'.
    by rewrite E in H'.
  - intros msg p p' tr e Hi E.
    pose proof (handleMessage_inv ctx msg p tr (E_Nak msg) eq_refl Hi) as H'. by rewrite E in H'.
Qed.
End rows.

(** ** Lemmas on the connection *)

Section connect_lemmas.
Context {D C : Type} `{ChDial D C}.

(** The wait after attempt [i]. *)
Definition backoff_at (base maxBackoff : Z) (i : nat) : Z :=
  match i with O => base | S _ => Z.min (base * 2 ^ Z.of_nat i) maxBackoff end.

Lemma backoff_next base maxBackoff i :
  0 < base <= 2 ^ 61 → 0 < maxBackoff <= 2 ^ 61 →
  let b := i64 (backoff_at base maxBackoff i * 2) in
  (if maxBackoff <? b then maxBackoff else b) = backoff_at base maxBackoff (S i).
Proof.
  intros Hb Hm. cbn zeta.
  assert (0 < base * 2 ^ Z.of_nat i) by (apply Z.mul_pos_pos; [lia|by apply Z.pow_pos_nonneg; lia]).
  rewrite i64_small by (unfold is_i64; destruct i; simpl; lia).
  unfold backoff_at at 3. rewrite Nat2Z.inj_succ, Z.pow_succ_r by lia.
  destruct i as [|i]; [simpl; destruct (Z.ltb_spec maxBackoff (base * 2)); lia|].
  unfold backoff_at. destruct (Z.ltb_spec maxBackoff (Z.min (base * 2 ^ Z.of_nat (S i)) maxBackoff * 2)); lia.
Qed.

Lemma dialLoop_run opts retries base maxBackoff more i d :
  0 < base <= 2 ^ 61 → 0 < maxBackoff <= 2 ^ 61 →
  ∃ d' r n j, dialLoop opts retries maxBackoff more (backoff_at base maxBackoff i) d = (d', r)
  ∧ dials d' = dials d ++ replicate n (opts, false) ++ (if is_ok r then [(opts, true)] else [])
  ∧ waits d' = waits d ++ (backoff_at base maxBackoff <$> seq i j)
  ∧ (if is_ok r then n = j else n = S j ∧ j = more ∨ n = j ∧ (0 < j)%nat)
  ∧ (j ≤ more)%nat.
Proof.
  intros Hb Hm. revert i d. induction more as [|more IH]; intros i d; cbn [dialLoop];
    pose proof (dials_Dial opts d) as Hd; pose proof (waits_Dial opts d) as Hw;
    destruct (ch_Dial opts d) as [d1 [c|e]]; simpl in Hd, Hw.
  - exists d1, (Ok c), 0%nat, 0%nat. simpl. rewrite app_nil_r. done.
  - eexists d1, (Err _), 1%nat, 0%nat. simpl. rewrite app_nil_r. split_and!; auto.
  - exists d1, (Ok c), 0%nat, 0%nat. simpl. rewrite app_nil_r. split_and!; auto with lia.
  - set (b := backoff_at base maxBackoff i).
    pose proof (dials_After b d1) as Hd2. pose proof (waits_After b d1) as Hw2.
    destruct (select_After b d1) as [d2 [ctxErr|]]; simpl in Hd2, Hw2.
    + eexists d2, (Err _), 1%nat, 1%nat. simpl. split_and!; [done|by rewrite Hd2, Hd|by rewrite Hw2, Hw|auto|lia].
    + unfold b at 1 2. rewrite (backoff_next base maxBackoff i) by done.
      destruct (IH (S i) d2) as (d' & r & n & j & E & Hdj & Hwj & Hr & Hj).
      exists d', r, (S n), (S j). split; [done|]. simpl. split_and!; [..|lia].
      * rewrite Hdj, Hd2, Hd, <- app_assoc. done.
      * rewrite Hwj, Hw2, Hw, <- app_assoc. done.
      * destruct (is_ok r); [lia|]. destruct Hr as [[-> ->]|[-> ?]]; [by left|right; lia].
Qed.
End connect_lemmas.

(** ** Concrete instances *)

#[local] Program Instance Z_ChProto_ : ChProto := {| Int128 := Z; Int128FromUInt64 z := z |}.
Next Obligation. done. Qed.
Definition Z_ChProto := Z_ChProto_.

(** A client that accepts the calls whose number [accept] accepts. *)
Section test_client.
Context `{ChProto} (accept : nat → bool).
Definition TestClient : Type := list (Query * bool).
#[local] Program Instance TestClient_ChClient_ : ChClient TestClient := {|
  ch_Do _ q c := (c ++ [(q, accept (length c))],
                  if accept (length c) then Ok tt else Err (Sentinel "ch.Exception"));
  ch_Close c := (c, Ok tt);
  queries := id;
|}.
Next Obligation. intros. simpl. by destruct (accept _). Qed.
Next Obligation. done. Qed.
End test_client.
Definition TestClient_ChClient `{ChProto} := TestClient_ChClient_.

(** A network on which the dials whose number [up] accepts succeed. *)
Definition TestNet : Type := list (Options * bool) * list Z.
#[local] Program Instance TestNet_ChDial_ (up : nat → bool) : ChDial TestNet () := {|
  ch_Dial opts d := ((d.1 ++ [(opts, up (length d.1))], d.2),
                     if up (length d.1) then Ok tt else Err (Sentinel "dial"));
  select_After t d := ((d.1, d.2 ++ [t]), None);
  dials := fst;
  waits := snd;
|}.
Next Obligation. intros. simpl. by destruct (up _). Qed.
Next Obligation. done. Qed.
Next Obligation. done. Qed.
Next Obligation. done. Qed.
Definition TestNet_ChDial := TestNet_ChDial_.

(** ** Properties *)

(** A call of the writer's methods. *)
Inductive writer_op :=
  | Op_WriteTrades (ctx : context) (trades : list Trade)
  | Op_WriteCandles (ctx : context) (candles : list Candle)
  | Op_Flush (ctx : context).

Section properties.
Context `{ChProto} {C : Type} `{!ChClient C}.

Definition exec_op (o : writer_op) : M (Writer C) () :=
  match o with
  | Op_WriteTrades ctx trades => WriteTrades ctx trades
  | Op_WriteCandles ctx candles => WriteCandles ctx candles
  | Op_Flush ctx => Flush ctx
  end.

(** The calls one after the other, errors ignored, with the outcome of each and the
    writer after it. *)
Fixpoint run_ops (ops : list writer_op) (w : Writer C) : Writer C * list (writer_op * bool * Writer C) :=
  match ops with
  | [] => (w, [])
  | o :: ops =>
    let '(w, r) := exec_op o w in
    let '(w', rs) := run_ops ops w in (w', (o, is_ok r, w) :: rs)
  end.

(** The rows that a call with that outcome takes: all its rows when it returns nil,
    and otherwise those up to the last row of the refused batch. *)
Definition adds (call : writer_op * bool * Writer C) (rows : list Trade * list Candle) : Prop :=
  match call with
  | (Op_WriteTrades _ l, ok, w) =>
    rows.2 = [] ∧ if (ok : bool) then rows.1 = l else refused_trades w l rows.1
  | (Op_WriteCandles _ l, ok, w) =>
    rows.1 = [] ∧ if (ok : bool) then rows.2 = l else refused_candles w l rows.2
  | (Op_Flush _, _, _) => rows = ([], [])
  end.

Lemma exec_op_kept o w ts cs :
  kept w ts cs → ∃ rows, adds (o, is_ok (exec_op o w).2, (exec_op o w).1) rows
  ∧ kept (exec_op o w).1 (ts ++ rows.1) (cs ++ rows.2).
Proof.
  intros Hk. destruct o as [ctx l|ctx l|ctx]; simpl.
  - destruct (kept_WriteTrades ctx l w ts cs Hk) as (g & Hg & Hres).
    exists (g, []). simpl. by rewrite app_nil_r.
  - destruct (kept_WriteCandles ctx l w ts cs Hk) as (g & Hg & Hres).
    exists ([], g). simpl. by rewrite app_nil_r.
  - exists ([], []). simpl. rewrite !app_nil_r. split; [done|]. by apply kept_Flush.
Qed.

Lemma run_ops_kept ops w ts cs :
  kept w ts cs → ∃ rows, Forall2 adds (run_ops ops w).2 rows
  ∧ kept (run_ops ops w).1 (ts ++ concat rows.*1) (cs ++ concat rows.*2).
Proof.
  revert w ts cs. induction ops as [|o ops IH]; intros w ts cs Hk.
  { exists []. simpl. by rewrite !app_nil_r. }
  destruct (exec_op_kept o w ts cs Hk) as ([t c] & Ha & Hk1). cbn [run_ops].
  destruct (exec_op o w) as [w1 r]. simpl in *.
  destruct (IH w1 _ _ Hk1) as (rows & Hf & Hk2). destruct (run_ops ops w1) as [w2 rs]. simpl in *.
  exists ((t, c) :: rows). split; [by constructor|]. simpl. by rewrite !app_assoc.
Qed.

(** C33. For any sequence of calls of the methods of a new writer, whatever the
    client refuses, the rows of the accepted inserts followed by the rows still in
    the batch are the rows that the calls took, each once and in order. A call that
    returned nil took all its rows. A call that did not took those up to the last row
    of the refused batch, which the writer still holds; the rows after that one are
    not kept anywhere. Trades and candles never mix, and every insert carries as
    many values in each column. *)
Theorem trades_conserved cfg client ops :
  queries client = [] →
  ∃ log bts bcs rows,
    represents (run_ops ops (newWriter cfg client)).1 log bts bcs
    ∧ Forall2 adds (run_ops ops (newWriter cfg client)).2 rows
    ∧ accepted_trades log ++ bts = concat rows.*1
    ∧ accepted_candles log ++ bcs = concat rows.*2.
Proof.
  intros Hq. destruct (run_ops_kept ops (newWriter cfg client) [] []) as
    (rows & Hf & log & bts & bcs & Hr & Ht & Hc).
  { exists [], [], []. split; [by apply represents_new|done]. }
  by exists log, bts, bcs, rows.
Qed.

(** [WriteTrades] on a writer that holds the rows [ts]: it inserts whole
    batches of exactly [BatchSize] rows, in order, and keeps the rest. It returns nil when all the
    inserts were accepted, with every trade taken and fewer than [BatchSize] rows
    held; otherwise it stops at the refused batch, which stays in memory. Candles
    are not touched. *)
Theorem WriteTrades_batches ctx trades w log ts cs :
  represents w log ts cs → zlen ts < BatchSize (w_config w) →
  ∃ w' r batches rest k,
    WriteTrades ctx trades w = (w', r)
    ∧ w_config w' = w_config w
    ∧ (k ≤ length trades)%nat ∧ concat batches ++ rest = ts ++ take k trades
    ∧ Forall (λ b, zlen b = BatchSize (w_config w)) batches
    ∧ represents w' (log ++ ((λ b, (InsTrades b, true)) <$> batches)
                     ++ (if is_ok r then [] else [(InsTrades rest, false)])) rest cs
    ∧ (if is_ok r then k = length trades ∧ zlen rest < BatchSize (w_config w)
       else zlen rest = BatchSize (w_config w)).
Proof.
  revert w log ts. induction trades as [|t trades IH]; intros w log ts Hr Hlen.
  { exists w, (Ok tt), [], ts, 0%nat. simpl. rewrite !app_nil_r. done. }
  unfold WriteTrades. rewrite M_for_cons. fold (WriteTrades (C:=C) ctx trades).
  destruct (writeTrade_run ctx t w log ts cs Hr) as (w1 & r1 & E & Hcfg & Hcase). rewrite E.
  assert (zlen (ts ++ [t]) = zlen ts + 1) as Hsucc by (unfold zlen; rewrite length_app; simpl; lia).
  pose proof (zlen_nonneg ts).
  destruct Hcase as [(Hlt & -> & Hr1)|[(Hge & -> & Hr1)|(Hge & Hok & Hr1)]].
  - change (M_for trades (writeTrade ctx) w1) with (WriteTrades ctx trades w1).
    destruct (IH w1 log (ts ++ [t]) Hr1) as (w' & r & bs & rest & k & -> & Hc & Hk & Hcat & Hb & Hrep & Hres);
      [by rewrite Hcfg|]. rewrite Hcfg in *.
    exists w', r, bs, rest, (S k). simpl. rewrite <- app_assoc in Hcat.
    split_and!; [done|done|lia|done|done|done|]. destruct (is_ok r); [|done]. destruct Hres. split; [lia|done].
  - change (M_for trades (writeTrade ctx) w1) with (WriteTrades ctx trades w1).
    destruct (IH w1 _ [] Hr1) as (w' & r & bs & rest & k & -> & Hc & Hk & Hcat & Hb & Hrep & Hres);
      [rewrite Hcfg; unfold zlen; simpl; lia|]. rewrite Hcfg in *.
    exists w', r, ((ts ++ [t]) :: bs), rest, (S k). simpl in *.
    split_and!; [done|done|lia|..].
    + rewrite <- !app_assoc. simpl. by rewrite Hcat.
    + constructor; [lia|done].
    + rewrite <- app_assoc in Hrep. done.
    + destruct (is_ok r); [|done]. destruct Hres. split; [lia|done].
  - destruct r1 as [|e]; [done|].
    exists w1, (Err e), [], (ts ++ [t]), 1%nat. simpl.
    split_and!; [done|done|lia|by rewrite take_0|constructor|done|lia].
Qed.

End properties.

(** *** The service *)

Section service.
Context (unicode_lower : Z → Z) `{ProtoUnmarshal} `{ChProto} {C : Type} `{!ChClient C}.
#[local] Existing Instance Writer_TradeWriter_.

Lemma Run_rows ctx cfg client rounds :
  queries client = [] →
  let s := (Run unicode_lower ctx rounds (newWriter cfg client)).1 in
  ∃ log ts cs, represents (p_writer (ls_sink s)) log ts cs
  ∧ accepted_trades log ++ ts = rows_of unicode_lower [] (event_msg <$> ls_trace s).
Proof.
  intros Hq. unfold Run, run_loop.
  set (fl := λ ctx : context, on_writer (Flush_ ctx)). set (s0 := mkLoop _ _).
  assert (sink_inv unicode_lower (ls_sink s0) (ls_trace s0)) as HI0.
  { apply sink_inv_new. exists [], [], [], []. split; [by apply represents_new|done]. }
  pose proof (Run_pull_inv unicode_lower ctx rounds s0 HI0) as [(cs0 & log & ts & cs & Hr & Ht & _) _].
  fold fl in Hr, Ht. destruct (pull_loop fl _ ctx rounds s0) as [s [e|]]; simpl in *.
  - destruct (Flush_drains Background _ _ _ _ Hr) as (log' & ts' & cs' & Hr' & Ht' & _).
    unfold on_writer in *. destruct (Flush Background (p_writer (ls_sink s))) as [w r]. simpl in *.
    exists log', ts', cs'. by rewrite Ht'.
  - by exists log, ts, cs.
Qed.

(** [Run] on a new writer, for any rounds and any refusals of the client: the
    messages are handled in fetch order and acknowledged, except one whose
    handler failed, after which [Run] has ended; a running loop has handled every
    fetched message. The rows of the accepted inserts followed by the rows in
    memory are the rows of the swaps among the handled messages, each once, at the
    time the block heads before it give its slot. When [Run] has ended, no row is
    left in memory unless the client refused the last call made. *)
Theorem Run_inserts_handled ctx cfg client rounds :
  queries client = [] →
  let '(s, ended) := Run unicode_lower ctx rounds (newWriter cfg client) in
  let msgs := event_msg <$> ls_trace s in
  ∃ log ts cs,
    represents (p_writer (ls_sink s)) log ts cs
    ∧ accepted_trades log ++ ts = rows_of unicode_lower [] msgs
    ∧ msgs `prefix_of` fetched rounds
    ∧ ((∃ ms, ls_trace s = E_Ack <$> ms)
       ∨ ∃ ms m, ls_trace s = (E_Ack <$> ms) ++ [E_Nak m] ∧ is_Some ended)
    ∧ (ended = None → msgs = fetched rounds)
    ∧ (is_Some ended → ts = [] ∨ ∃ i, last log = Some (i, false)).
Proof.
  intros Hq. unfold Run, run_loop.
  set (fl := λ ctx : context, on_writer (Flush_ ctx)). set (s0 := mkLoop _ _).
  assert (sink_inv unicode_lower (ls_sink s0) (ls_trace s0)) as HI0.
  { apply sink_inv_new. exists [], [], [], []. split; [by apply represents_new|done]. }
  destruct (pull_loop_trace fl (handleMessage unicode_lower) ctx rounds s0) as
    (k & Hk & Hpre & Hform & Hall).
  pose proof (Run_pull_inv unicode_lower ctx rounds s0 HI0) as [(cs0 & log & ts & cs & Hr & Ht & _) _].
  fold fl in Hr, Ht. destruct (pull_loop fl _ ctx rounds s0) as [s [e|]]; simpl in *; subst k.
  - destruct (Flush_drains Background _ _ _ _ Hr) as (log' & ts' & cs' & Hr' & Ht' & _ & Hd).
    unfold on_writer in *. destruct (Flush Background (p_writer (ls_sink s))) as [w r]. simpl in *.
    exists log', ts', cs'. split_and!; [done|by rewrite Ht'|done|done|done|].
    intros _. destruct (is_ok r); [left; apply Hd|by right].
  - exists log, ts, cs. split_and!; [done|done|done|done|done|intros []%is_Some_None].
Qed.

(** The subjects the publisher uses are told apart by their suffix. *)
Lemma HasSuffix_swap s : HasSuffix (s +:+ ".swap") ".swap" = true.
Proof. apply HasSuffix_spec. eauto. Qed.
Lemma HasSuffix_head_swap s : HasSuffix (s +:+ ".blocks.head") ".swap" = false.
Proof.
  destruct (HasSuffix _ _) eqn:E; [|done]. apply HasSuffix_spec in E as [t E].
  apply (f_equal (λ x, last (bytes x))) in E. rewrite !bytes_app in E.
  change (bytes ".blocks.head") with (bytes ".blocks.hea" ++ bytes "d") in E.
  change (bytes ".swap") with (bytes ".swa" ++ bytes "p") in E.
  simpl in E. change (?a ++ ?x :: ?y) with (a ++ [x] ++ y) in E.
  by rewrite !last_app in E.
Qed.
Lemma HasSuffix_head s : HasSuffix (s +:+ ".blocks.head") ".blocks.head" = true.
Proof. apply HasSuffix_spec. eauto. Qed.

Lemma msg_swap_published pub e data msgID :
  proto_Marshal (PM_Swap e) = Ok data →
  msg_swap (natsMsg (swapSubject unicode_lower pub e) data msgID) = Some e.
Proof.
  intros He. unfold msg_swap, swapSubject. simpl.
  by rewrite <- !app_str_assoc, HasSuffix_swap, (Unmarshal_Marshal_Swap _ _ He).
Qed.
Lemma msg_swap_head pub data msgID :
  msg_swap (natsMsg (SubjectRoot pub +:+ ".blocks.head") data msgID) = None.
Proof. unfold msg_swap. simpl. by rewrite HasSuffix_head_swap. Qed.
Lemma msg_head_published pub h data msgID :
  proto_Marshal (PM_BlockHead h) = Ok data →
  msg_head (natsMsg (SubjectRoot pub +:+ ".blocks.head") data msgID) = Some h.
Proof.
  intros Hh. unfold msg_head. simpl.
  by rewrite HasSuffix_head_swap, HasSuffix_head, (Unmarshal_Marshal_BlockHead _ _ Hh).
Qed.

(** C32. Publisher to sink. The message that [PublishSwap] hands to JetStream adds
    exactly one row to the sink, whether or not its insert is accepted: the fields of
    the event, with the chain and the fee cut to 16 bits and the decimals to 8, a price
    of zero, at the time of the last live block head published for its slot; the two
    square-root prices of the event have no column. The message that
    [PublishBlockHead] hands over adds no row and sets the time of its slot, or drops
    it when the slot is dead. *)
Theorem published_stored ctx (p : processor (Writer C)) tr now pctx pub e h data data' :
  sink_inv unicode_lower p tr → proto_Marshal (PM_Swap e) = Ok data →
  proto_Marshal (PM_BlockHead h) = Ok data' →
  let times := omap msg_head (event_msg <$> tr) in
  ∃ swap head, sent unicode_lower now pctx pub (PM_Swap e) = [swap]
  ∧ sent unicode_lower now pctx pub (PM_BlockHead h) = [head]
  ∧ holds (p_writer (handleMessage unicode_lower ctx swap p).1)
      (rows_of unicode_lower [] (event_msg <$> tr) ++ [{|
         tr_ChainID := sw_ChainId e mod 65536; tr_Slot := sw_Slot e;
         tr_Timestamp := default zero_time (head_time unicode_lower times (sw_Slot e));
         tr_Signature := sw_Sig e; tr_Index := sw_Index e; tr_ProgramID := sw_ProgramId e;
         tr_PoolID := sw_PoolId e; tr_MintBase := sw_MintBase e; tr_MintQuote := sw_MintQuote e;
         tr_DecBase := sw_DecBase e mod 256; tr_DecQuote := sw_DecQuote e mod 256;
         tr_BaseIn := sw_BaseIn e; tr_BaseOut := sw_BaseOut e;
         tr_QuoteIn := sw_QuoteIn e; tr_QuoteOut := sw_QuoteOut e; tr_PriceQ32 := 0;
         tr_ReservesBase := sw_ReservesBase e; tr_ReservesQuote := sw_ReservesQuote e;
         tr_FeeBps := sw_FeeBps e mod 65536;
         tr_Provisional := sw_Provisional e; tr_IsUndo := sw_IsUndo e |}])
  ∧ holds (p_writer (handleMessage unicode_lower ctx head p).1)
      (rows_of unicode_lower [] (event_msg <$> tr))
  ∧ (handleMessage unicode_lower ctx head p).2 = Ok tt
  ∧ ∀ slot, slotTimes (handleMessage unicode_lower ctx head p).1 !! slot
            = head_time unicode_lower (times ++ [h]) slot.
Proof.
  intros Hi He Hh times. eexists _, _.
  split; [by apply sent_message|]. split; [by apply sent_message|]. cbn [message_subject message_id].
  set (swap := natsMsg _ data _). set (head := natsMsg _ data' _).
  pose proof (handleMessage_inv unicode_lower ctx swap p tr (E_Ack swap) eq_refl Hi) as [Hs _].
  pose proof (handleMessage_inv unicode_lower ctx head p tr (E_Ack head) eq_refl Hi) as [Hd Ht].
  rewrite fmap_app, rows_of_app in Hs, Hd. rewrite fmap_app, omap_app in Ht. simpl in Hs, Hd, Ht.
  unfold swap in Hs at 2. unfold head in Hd at 2, Ht at 2.
  rewrite (msg_swap_published pub _ _ _ He) in Hs.
  rewrite (msg_swap_head pub data' _), !app_nil_r in Hd.
  rewrite (msg_head_published pub _ _ _ Hh) in Ht.
  split_and!; [exact Hs|exact Hd| |exact Ht].
  unfold handleMessage, head. simpl.
  by rewrite HasSuffix_head_swap, HasSuffix_head, (Unmarshal_Marshal_BlockHead _ _ Hh).
Qed.
End service.

(** *** The connection *)

Section connection.
Context {D C : Type} `{ChDial D C}.

(** [connectWithRetry] dials at most [MaxRetries + 1] times, with the address
    of the DSN and the configured database, and stops at the first success, whose
    client it returns. Between two dials it waits, first the base, then twice as
    long each time, never more than the maximum; it fails only once every attempt
    failed or the context ended during a wait, and never waits after the last. *)
Theorem connectWithRetry_bounded unicode_lower url_Parse cfg opts d :
  parseDSN unicode_lower url_Parse (DSN cfg) = Ok opts → 0 <= MaxRetries cfg →
  0 <= RetryBackoffBase cfg <= 2 ^ 61 → 0 <= RetryBackoffMax cfg <= 2 ^ 61 →
  let base := if RetryBackoffBase cfg =? 0 then 100 * Millisecond else RetryBackoffBase cfg in
  let maxBackoff := if RetryBackoffMax cfg =? 0 then 10000 * Millisecond else RetryBackoffMax cfg in
  let opts' := mkOptions (op_Address opts) (op_User opts) (op_Password opts) (Database cfg)
                 (op_Compression opts) in
  ∃ d' r n j, connectWithRetry unicode_lower url_Parse cfg d = (d', r)
  ∧ dials d' = dials d ++ replicate n (opts', false) ++ (if is_ok r then [(opts', true)] else [])
  ∧ waits d' = waits d ++ (backoff_at base maxBackoff <$> seq 0 j)
  ∧ Z.of_nat j <= MaxRetries cfg
  ∧ (if is_ok r then n = j
     else Z.of_nat n = MaxRetries cfg + 1 ∧ n = S j ∨ n = j ∧ (0 < j)%nat).
Proof.
  intros Ho Hr Hb Hm base maxBackoff opts'. unfold connectWithRetry. rewrite Ho. cbn [wrap_err].
  destruct (Z.ltb_spec (MaxRetries cfg) 0) as [|_]; [lia|].
  assert (0 < base <= 2 ^ 61) as Hb'.
  { unfold base, Millisecond. destruct (Z.eqb_spec (RetryBackoffBase cfg) 0); lia. }
  assert (0 < maxBackoff <= 2 ^ 61) as Hm'.
  { unfold maxBackoff, Millisecond. destruct (Z.eqb_spec (RetryBackoffMax cfg) 0); lia. }
  destruct (dialLoop_run opts' (MaxRetries cfg) base maxBackoff (Z.to_nat (MaxRetries cfg)) 0 d Hb' Hm')
    as (d' & r & n & j & E & Hd & Hw & Hn & Hj).
  exists d', r, n, j. split; [exact E|]. split_and!; [done|done|lia|].
  destruct (is_ok r); [done|]. destruct Hn as [[-> ->]|Hn]; [left; lia|by right].
Qed.
End connection.

(** ** Witnesses *)

Definition example_config : Config :=
  mkConfig "clickhouse://ch:9000" "dex" "trades" "candles" 2 1000000000 2 100 300.

Definition example_swap (sig : string) : SwapEvent :=
  mkSwapEvent 501 7 sig 3 "prog" "pool" "A" "B" 9 6 10 0 0 25 0 0 100 200 30 true false.
Definition example_head (status : string) : BlockHead := mkBlockHead 501 7 1700000000 status.
Definition example_trade (sig : string) : Trade := swapTrade 1700000000 (example_swap sig).

Section witnesses.
#[local] Existing Instance Z_ChProto_.
Definition example_ops : list writer_op :=
  [Op_WriteTrades Background [example_trade "s1"; example_trade "s2"; example_trade "s3"];
   Op_Flush Background; Op_Flush Background].

(** The first insert is refused in the first call, which loses its third row. The next
    call inserts the two rows that were held. *)
Lemma trades_conserved_witness :
  let run := @run_ops Z_ChProto TestClient (TestClient_ChClient (λ n, negb (Nat.eqb n 0))) example_ops
     (newWriter example_config []) in
  (λ c, c.1.2) <$> run.2 = [false; true; true]
  ∧ tradesBatch run.1 = emptyTradeBatch
  ∧ ∃ log bts bcs rows,
    @represents Z_ChProto TestClient (TestClient_ChClient (λ n, negb (Nat.eqb n 0))) run.1 log bts bcs
    ∧ accepted_trades log ++ bts = concat rows.*1
    ∧ Forall2 (@adds Z_ChProto TestClient (TestClient_ChClient (λ n, negb (Nat.eqb n 0)))) run.2 rows.
Proof.
  intros run. split; [vm_compute; reflexivity|]. split; [vm_compute; reflexivity|].
  destruct (@trades_conserved Z_ChProto TestClient (TestClient_ChClient (λ n, negb (Nat.eqb n 0)))
    example_config [] example_ops eq_refl) as (log & bts & bcs & rows & Hr & Ha & Ht & _).
  exists log, bts, bcs, rows. split; [exact Hr|]. split; [exact Ht|exact Ha].
Defined.

Lemma WriteTrades_batches_witness :
  ∃ w' batches rest k,
    @WriteTrades Z_ChProto TestClient (TestClient_ChClient (λ _, true)) Background
      [example_trade "s1"; example_trade "s2"; example_trade "s3"] (newWriter example_config [])
    = (w', Ok tt)
    ∧ (k = 3%nat ∧ zlen rest < 2)
    ∧ concat batches ++ rest = take k [example_trade "s1"; example_trade "s2"; example_trade "s3"].
Proof.
  destruct (@WriteTrades_batches Z_ChProto TestClient (TestClient_ChClient (λ _, true)) Background
    [example_trade "s1"; example_trade "s2"; example_trade "s3"] (newWriter example_config []) [] [] [])
    as (w' & r & bs & rest & k & E & _ & _ & Hcat & _ & _ & Hres).
  - by apply represents_new.
  - vm_compute. reflexivity.
  - assert (r = Ok tt) as -> by (apply (f_equal snd) in E; symmetry; exact E).
    exists w', bs, rest, k. split; [exact E|]. split; [exact Hres|exact Hcat].
Defined.

Definition example_marshal : ProtoMarshal :=
  Sample_ProtoMarshal [example_swap "s1"; example_swap "s2"] [example_head "confirmed"] [].
Definition example_unmarshal : @ProtoUnmarshal example_marshal :=
  Sample_ProtoUnmarshal [example_swap "s1"; example_swap "s2"] [example_head "confirmed"] [].

Definition example_msg (subject : string) (kind i : Z) : NatsMsg :=
  mkNatsMsg subject [bchr kind; bchr i] ∅.
Definition example_msgs : list NatsMsg :=
  [example_msg "dex.sol.blocks.head" 2 0; example_msg "dex.sol.raydium.swap" 1 0;
   example_msg "dex.sol.orca.swap" 1 1].
Definition example_rounds : list round :=
  [mkRound Poll_Default (Ok example_msgs); mkRound Poll_Tick (Err (Sentinel "nats.ErrTimeout"));
   mkRound (Poll_Done (Sentinel "context.Canceled")) (Ok [])].

Lemma Run_inserts_handled_witness :
  ∃ log ts cs s,
    @Run (λ r, r) (Writer TestClient)
      (@Writer_TradeWriter Z_ChProto TestClient (TestClient_ChClient (λ _, true)))
      example_marshal example_unmarshal Background example_rounds (newWriter example_config [])
    = (s, Some (Sentinel "context.Canceled"))
    ∧ @represents Z_ChProto TestClient (TestClient_ChClient (λ _, true)) (p_writer (ls_sink s)) log ts cs
    ∧ accepted_trades log ++ ts = [example_trade "s1"; example_trade "s2"].
Proof.
  pose proof (@Run_inserts_handled (λ r, r) example_marshal example_unmarshal Z_ChProto TestClient
    (TestClient_ChClient (λ _, true)) Background example_config [] example_rounds eq_refl) as HR.
  destruct (Run _ _ _ _) as [s ended] eqn:E.
  assert (ended = Some (Sentinel "context.Canceled") ∧ event_msg <$> ls_trace s = example_msgs) as [-> Hm].
  { split; [apply (f_equal snd) in E|apply (f_equal (λ x, event_msg <$> ls_trace x.1)) in E];
      simpl in E; rewrite <- E; vm_compute; reflexivity. }
  destruct HR as (log & ts & cs & Hr & Ht & _). rewrite Hm in Ht.
  exists log, ts, cs, s. split; [reflexivity|]. split; [exact Hr|]. rewrite Ht. vm_compute. reflexivity.
Defined.

Lemma published_stored_witness :
  sink_inv (λ r, r) (H0:=example_unmarshal)
    (TradeWriter0:=@Writer_TradeWriter Z_ChProto TestClient (TestClient_ChClient (λ _, true)))
    (newProcessor (newWriter example_config [])) []
  ∧ ∃ swap, sent (λ r, r) (H:=example_marshal) 0 Background Publisher.DefaultConfig (PM_Swap (example_swap "s1")) = [swap]
  ∧ holds (TradeWriter:=@Writer_TradeWriter Z_ChProto TestClient (TestClient_ChClient (λ _, true)))
    (p_writer (@handleMessage (λ r, r) (Writer TestClient)
      (@Writer_TradeWriter Z_ChProto TestClient (TestClient_ChClient (λ _, true)))
      example_marshal example_unmarshal Background swap
      (newProcessor (newWriter example_config []))).1) [swapTrade zero_time (example_swap "s1")].
Proof.
  match goal with |- ?I ∧ _ => assert I as Hinv end.
  { apply sink_inv_new. exists [], [], [], []. split; [by apply represents_new|done]. }
  split; [exact Hinv|].
  destruct (@published_stored (λ r, r) example_marshal example_unmarshal Z_ChProto TestClient
    (TestClient_ChClient (λ _, true)) Background (newProcessor (newWriter example_config [])) [] 0 Background
    Publisher.DefaultConfig (example_swap "s1") (example_head "confirmed") [bchr 1; bchr 0]
    [bchr 2; bchr 0]) as (swap & head & Es & _ & Hh & _);
    [exact Hinv|vm_compute; reflexivity|vm_compute; reflexivity|].
  exists swap. split; [exact Es|exact Hh].
Defined.

(** An acknowledged swap may never be inserted: the message is acknowledged once
    its row is in memory, and the error of the last flush is dropped. *)
Lemma Run_loses_acked :
  let r := @Run (λ r, r) (Writer TestClient)
    (@Writer_TradeWriter Z_ChProto TestClient (TestClient_ChClient (λ _, false)))
    example_marshal example_unmarshal Background
    [mkRound Poll_Default (Ok [example_msg "dex.sol.raydium.swap" 1 0]);
     mkRound (Poll_Done (Sentinel "context.Canceled")) (Ok [])] (newWriter example_config []) in
  omap acked (ls_trace r.1) = [example_msg "dex.sol.raydium.swap" 1 0]
  ∧ (w_client (p_writer (ls_sink r.1))).*2 = [false].
Proof. split; vm_compute; reflexivity. Qed.

(** A swap whose block head has not arrived yet is stored at the zero time. *)
Lemma swap_before_head :
  tr_Timestamp <$> @rows_of (λ r, r) example_marshal example_unmarshal []
    [example_msg "dex.sol.raydium.swap" 1 0; example_msg "dex.sol.blocks.head" 2 0] = [zero_time].
Proof. vm_compute. reflexivity. Qed.

Definition example_url (dsn : string) : result URL :=
  Ok (mkURL "clickhouse" "ch:9000" None "" (λ _, "")).

Lemma connectWithRetry_bounded_witness :
  ∃ d n j, @connectWithRetry (λ r, r) example_url TestNet () (TestNet_ChDial (λ n, Nat.eqb n 2))
    example_config ([], []) = (d, Ok tt)
  ∧ @waits TestNet () (TestNet_ChDial (λ n, Nat.eqb n 2)) d = [] ++ (backoff_at 100 300 <$> seq 0 j)
  ∧ n = j ∧ [100; 200] = d.2.
Proof.
  destruct (@connectWithRetry_bounded TestNet () (TestNet_ChDial (λ n, Nat.eqb n 2)) (λ r, r)
    example_url example_config (mkOptions "ch:9000" "" "" "" CompressionDefault) ([], []))
    as (d & r & n & j & E & _ & Hw & _ & Hr); [reflexivity|vm_compute; intuition congruence..|].
  assert (r = Ok tt) as -> by (apply (f_equal snd) in E; symmetry; exact E).
  assert (d.2 = [100; 200]) as Hd by (apply (f_equal (λ x, x.1.2)) in E; symmetry; exact E).
  exists d, n, j. split; [exact E|]. split; [exact Hw|]. split; [exact Hr|by rewrite Hd].
Defined.
End witnesses.
