(* ===== verification/Parquet.v ===== *)
(** * Parquet sink

    [sinks/parquet/config.go], [writer.go] and [service.go]: configuration, the
    writer that keeps candle rows in one bucket per timeframe and scope and
    uploads each bucket as one object, and the service loop ([Sink.run_loop]).
    The Parquet encoder is the class [ParquetCodec]; the S3 uploader and the clock
    are the class [S3World], with [uploads], the record of its calls and whether
    each returned nil. The mutex makes each method one transition. The buckets are
    a Go map, so a flush visits them in any order ([RangeOrder]). *)

From S2P Require Import Prelude GoStrings GoPath Bytes Proto Publisher Sink.
From Stdlib Require Import Ascii.
Local Open Scope list_scope.

(** ** config.go *)

Record Config := mkConfig {
  Endpoint : string;
  Bucket : string;
  AccessKey : string;
  SecretKey : string;
  Prefix : string;
  FlushInterval : Z;
  BatchRows : Z;
  Region : string;
}.

Definition Second : Z := 1000 * Millisecond.
Definition defaultFlushInterval : Z := 15 * 60 * Second.
Definition defaultPrefix : string := "dex/".

Definition DefaultConfig : Config :=
  mkConfig "" "" "" "" defaultPrefix defaultFlushInterval 5000 "us-east-1".

Definition Validate (c : Config) : result () :=
  if bool_decide (Endpoint c = "") then Err (Errorf "S3 endpoint is required" [])
  else if bool_decide (Bucket c = "") then Err (Errorf "S3 bucket is required" [])
  else if bool_decide (AccessKey c = "") then Err (Errorf "S3 access key is required" [])
  else if bool_decide (SecretKey c = "") then Err (Errorf "S3 secret key is required" [])
  else if FlushInterval c <=? 0 then Err (Errorf "flush interval must be positive" [])
  else if bool_decide (Prefix c = "") then Err (Errorf "object prefix cannot be empty" [])
  else if BatchRows c <=? 0 then Err (Errorf "batch rows must be positive" [])
  else if bool_decide (Region c = "") then Err (Errorf "region must be set" [])
  else Ok tt.

(** [if v := os.Getenv(name); v != ""] around an assignment. *)
Definition envOr (env : string → string) (name fallback : string) : string :=
  if bool_decide (env name ≠ "") then env name else fallback.
Definition envInt (env : string → string) (name fmt : string) (args : list fmtarg)
    (conv : Z → Z) (fallback : Z) : result Z :=
  if bool_decide (env name ≠ "") then n ← wrap_err fmt args (Atoi (env name)); Ok (conv n)
  else Ok fallback.

Definition emptyConfig : Config := mkConfig "" "" "" "" "" 0 0 "".

Definition FromEnv (env : string → string) : Config * result () :=
  let d := DefaultConfig in
  match
    interval ← envInt env "PARQUET_FLUSH_INTERVAL_S" "invalid %s: %w"
                 [FStr "PARQUET_FLUSH_INTERVAL_S"] (λ s, i64 (s * Second)) (FlushInterval d);
    rows ← envInt env "PARQUET_BATCH_ROWS" "invalid PARQUET_BATCH_ROWS: %w" [] id (BatchRows d);
    Ok (mkConfig (envOr env "S3_ENDPOINT" (Endpoint d)) (envOr env "S3_BUCKET" (Bucket d))
          (envOr env "S3_ACCESS_KEY" (AccessKey d)) (envOr env "S3_SECRET_KEY" (SecretKey d))
          (envOr env "PARQUET_PREFIX" (Prefix d)) interval rows
          (envOr env "PARQUET_REGION" (Region d)))
  with
  | Err e => (emptyConfig, Err e)
  | Ok cfg => (cfg, Validate cfg)
  end.

Record ServiceConfig := mkServiceConfig {
  sc_NATSURL : string;
  sc_Stream : string;
  sc_SubjectRoot : string;
  sc_Consumer : string;
  sc_PullBatch : Z;
  sc_PullTimeout : Z;
  sc_Writer : Config;
}.

Definition ValidateService (c : ServiceConfig) : result () :=
  if bool_decide (sc_NATSURL c = "") then Err (Errorf "nats url is required" [])
  else if bool_decide (sc_Stream c = "") then Err (Errorf "nats stream is required" [])
  else if bool_decide (sc_SubjectRoot c = "") then Err (Errorf "subject root is required" [])
  else if bool_decide (sc_Consumer c = "") then Err (Errorf "consumer name is required" [])
  else if sc_PullBatch c <=? 0 then Err (Errorf "pull batch must be positive" [])
  else if sc_PullTimeout c <=? 0 then Err (Errorf "pull timeout must be positive" [])
  else Validate (sc_Writer c).

Definition valueOrDefault (value fallback : string) : string :=
  if bool_decide (value = "") then fallback else value.

(** An integer setting that must be positive. *)
Definition envPositive (env : string → string) (name fmt : string) (fallback : Z) : result Z :=
  let v := env name in
  if bool_decide (v = "") then Ok fallback
  else match Atoi v with
       | Ok n => if 0 <? n then Ok n else Err (Errorf fmt [FStr v])
       | Err _ => Err (Errorf fmt [FStr v])
       end.

Definition emptyServiceConfig : ServiceConfig := mkServiceConfig "" "" "" "" 0 0 emptyConfig.

Definition ServiceConfigFromEnv (env : string → string) : ServiceConfig * result () :=
  match
    batch ← envPositive env "PARQUET_PULL_BATCH" "invalid PARQUET_PULL_BATCH: %q" 256;
    ms ← envPositive env "PARQUET_PULL_TIMEOUT_MS" "invalid PARQUET_PULL_TIMEOUT_MS: %q" 500;
    let '(w, r) := FromEnv env in
    _ ← r;
    Ok (mkServiceConfig (env "PARQUET_NATS_URL") (env "PARQUET_NATS_STREAM")
          (valueOrDefault (env "PARQUET_SUBJECT_ROOT") "dex.sol")
          (valueOrDefault (env "PARQUET_CONSUMER") "parquet-sink")
          batch (i64 (ms * Millisecond)) w)
  with
  | Err e => (emptyServiceConfig, Err e)
  | Ok cfg => (cfg, ValidateService cfg)
  end.

(** ** Standard library: dates *)

(** [t.UTC().Format("2006-01-02")] of a time given in nanoseconds: the date of
    the proleptic Gregorian calendar, by eras of 400 years starting in March. *)
Definition civil_from_days (days : Z) : Z * Z * Z :=
  let z := days + 719468 in
  let era := z / 146097 in
  let doe := z mod 146097 in
  let yoe := (doe - doe / 1460 + doe / 36524 - doe / 146096) / 365 in
  let doy := doe - (365 * yoe + yoe / 4 - yoe / 100) in
  let mp := (5 * doy + 2) / 153 in
  let d := doy - (153 * mp + 2) / 5 + 1 in
  let m := if mp <? 10 then mp + 3 else mp - 9 in
  (yoe + era * 400 + (if m <=? 2 then 1 else 0), m, d).

Definition pad (n : nat) (z : Z) : string :=
  let s := pretty z in of_bytes (replicate (n - slen s) (bchr 48)) +:+ s.

Definition format_date (t : Z) : string :=
  let '(y, m, d) := civil_from_days (t / (86400 * Second)) in
  pad 4 y +:+ "-" +:+ pad 2 m +:+ "-" +:+ pad 2 d.

Example format_date_epoch : format_date 0 = "1970-01-01".
Proof. vm_compute. reflexivity. Qed.
Example format_date_leap : format_date (1709164800 * Second) = "2024-02-29".
Proof. vm_compute. reflexivity. Qed.

(** ** writer.go *)

Record candleRow := mkCandleRow {
  cr_ChainID : Z;
  cr_PairID : string;
  cr_PoolID : string;
  cr_Scope : string;
  cr_Timeframe : string;
  cr_WindowStart : Z;
  cr_Provisional : bool;
  cr_IsCorrection : bool;
  cr_OpenPxQ32 : Z;
  cr_HighPxQ32 : Z;
  cr_LowPxQ32 : Z;
  cr_ClosePxQ32 : Z;
  cr_VolBaseHi : Z;
  cr_VolBaseLo : Z;
  cr_VolQuoteHi : Z;
  cr_VolQuoteLo : Z;
  cr_Trades : Z;
}.

#[global] Instance candleRow_eq_dec : EqDecision candleRow.
Proof. solve_decision. Defined.

(** [parquet.NewGenericWriter] with [Write] and [Close] on a fresh buffer; what
    was written and closed reads back. *)
Class ParquetCodec := {
  pq_writer : Type;
  pq_Write : list candleRow → result pq_writer;
  pq_Close : pq_writer → result (list byte);
  pq_read : list byte → option (list candleRow);
  pq_read_Close rows w data :
    pq_Write rows = Ok w → pq_Close w = Ok data → pq_read data = Some rows;
}.

Record UploadInput := mkUploadInput {
  up_Bucket : string;
  up_Key : string;
  up_Body : list byte;
  up_ContentType : string;
}.

(** The uploader and [time.Now], in nanoseconds. *)
Class S3World (U : Type) := {
  Now : U → U * Z;
  Upload : context → UploadInput → M U ();
  uploads : U → list (UploadInput * bool);
  uploads_Now u : uploads (Now u).1 = uploads u;
  uploads_Upload ctx i u : uploads (Upload ctx i u).1 = uploads u ++ [(i, is_ok (Upload ctx i u).2)];
}.

Definition bar : ascii := bchr 124.

Definition bucketKey (timeframe scope : string) : string := timeframe +:+ "|" +:+ scope.

(** [strings.SplitN(key, "|", 2)] has two parts when the separator occurs. *)
Fixpoint cut (c : ascii) (l : list ascii) : option (list ascii * list ascii) :=
  match l with
  | [] => None
  | x :: l' => if decide (x = c) then Some ([], l')
               else match cut c l' with Some (a, b) => Some (x :: a, b) | None => None end
  end.
Definition splitBucketKey (key : string) : string * string :=
  match cut bar (bytes key) with
  | None => (key, "unknown")
  | Some (a, b) => (of_bytes a, of_bytes b)
  end.

Record Writer (U : Type) := mkWriter {
  w_cfg : Config;
  buckets : gmap string (list candleRow);
  uploader : U;
  lastFlush : Z;
}.
Arguments mkWriter {U} _ _ _ _.
Arguments w_cfg {U} _.
Arguments buckets {U} _.
Arguments uploader {U} _.
Arguments lastFlush {U} _.

Definition ErrWriterDisabled : error :=
  Sentinel "parquet writer disabled: missing configuration".

(** The timeframe, scope and row of a candle. *)
Definition candleTimeframe (candle : Candle) : string :=
  if bool_decide (cd_Timeframe candle = "") then "unknown" else cd_Timeframe candle.
Definition candleScope (candle : Candle) : string :=
  if bool_decide (cd_PoolId candle ≠ "") then "pool" else "pair".
Definition candle_row (candle : Candle) : candleRow := {|
  cr_ChainID := i32 (cd_ChainId candle);
  cr_PairID := cd_PairId candle;
  cr_PoolID := cd_PoolId candle;
  cr_Scope := candleScope candle;
  cr_Timeframe := candleTimeframe candle;
  cr_WindowStart := i64 (cd_WindowStart candle);
  cr_Provisional := cd_Provisional candle;
  cr_IsCorrection := cd_IsCorrection candle;
  cr_OpenPxQ32 := cd_OpenPxQ32 candle;
  cr_HighPxQ32 := cd_HighPxQ32 candle;
  cr_LowPxQ32 := cd_LowPxQ32 candle;
  cr_ClosePxQ32 := cd_ClosePxQ32 candle;
  cr_VolBaseHi := match cd_VolBase candle with Some vb => u128_Hi vb | None => 0 end;
  cr_VolBaseLo := match cd_VolBase candle with Some vb => u128_Lo vb | None => 0 end;
  cr_VolQuoteHi := match cd_VolQuote candle with Some vq => u128_Hi vq | None => 0 end;
  cr_VolQuoteLo := match cd_VolQuote candle with Some vq => u128_Lo vq | None => 0 end;
  cr_Trades := i32 (cd_Trades candle);
|}.

Section writer.
Context `{ParquetCodec} {U : Type} `{S3World U} `{!RangeOrder string (list candleRow)}.
Notation W := (Writer U).

Definition setBucket (key : string) (rows : list candleRow) : M W () :=
  M_modify (λ w, mkWriter (w_cfg w) (<[key := rows]> (buckets w)) (uploader w) (lastFlush w)).
Definition setLastFlush (t : Z) : M W () :=
  M_modify (λ w, mkWriter (w_cfg w) (buckets w) (uploader w) t).

Definition time_Now : M W Z := λ w,
  let '(u, t) := Now (uploader w) in (mkWriter (w_cfg w) (buckets w) u (lastFlush w), Ok t).
Definition upload (ctx : context) (i : UploadInput) : M W () := λ w,
  let '(u, r) := Upload ctx i (uploader w) in
  (mkWriter (w_cfg w) (buckets w) u (lastFlush w), wrap_err "upload parquet to s3: %w" [] r).
Definition lift {A} (r : result A) : M W A := λ w, (w, r).

(** The name of an object, given the two readings of the clock. *)
Definition objectName (cfg : Config) (timeframe scope : string) (t1 t2 : Z) : string :=
  filepath_Join [TrimSuffix (Prefix cfg) "/"; "timeframe=" +:+ timeframe; "scope=" +:+ scope;
    "date=" +:+ format_date t1; "candles-" +:+ pretty t2 +:+ ".parquet"].

Definition objectKey (timeframe scope : string) : M W string :=
  w ← M_get;
  t1 ← time_Now;
  t2 ← time_Now;
  mret (objectName (w_cfg w) timeframe scope t1 t2).

Definition writeBucket (ctx : context) (timeframe scope : string) (rows : list candleRow) : M W () :=
  pw ← lift (wrap_err "write parquet rows: %w" [] (pq_Write rows));
  data ← lift (wrap_err "close parquet writer: %w" [] (pq_Close pw));
  key ← objectKey timeframe scope;
  w ← M_get;
  upload ctx (mkUploadInput (Bucket (w_cfg w)) key data "application/octet-stream").

(** The body of the loop over the buckets. *)
Definition flushBucket (ctx : context) (entry : string * list candleRow) : M W () :=
  let '(key, rows) := entry in
  if decide (length rows = 0)%nat then mret tt
  else
    let '(timeframe, scope) := splitBucketKey key in
    _ ← writeBucket ctx timeframe scope rows;
    setBucket key [].

Definition flushLocked (ctx : context) : M W () :=
  w ← M_get;
  if decide (size (buckets w) = 0)%nat then mret tt
  else
    _ ← M_for (range_entries (buckets w)) (flushBucket ctx);
    t ← time_Now;
    setLastFlush t.

(** [time.Since] is read only when the bucket is not full. *)
Definition flushDue (n : Z) : M W bool :=
  w ← M_get;
  if BatchRows (w_cfg w) <=? n then mret true
  else t ← time_Now; mret (FlushInterval (w_cfg w) <=? t - lastFlush w).

Definition AppendCandle (ctx : context) (candle : option Candle) : M W () :=
  match candle with
  | None => M_throw (Errorf "nil candle" [])
  | Some candle =>
    let key := bucketKey (candleTimeframe candle) (candleScope candle) in
    w ← M_get;
    let bucket := default [] (buckets w !! key) ++ [candle_row candle] in
    _ ← setBucket key bucket;
    due ← flushDue (zlen bucket);
    if (due : bool) then flushLocked ctx else mret tt
  end.

Definition AppendSwap (ctx : context) (event : option SwapEvent) : M W () := mret tt.

Definition Flush (ctx : context) : M W () := flushLocked ctx.
Definition Close : M W () := Flush Background.

(** The session of the uploader is [newSession]. *)
Definition NewWriter (newSession : Config → result U) (cfg : Config) : result W :=
  if bool_decide (Endpoint cfg = "") || bool_decide (Bucket cfg = "")
     || bool_decide (AccessKey cfg = "") || bool_decide (SecretKey cfg = "") then
    Err ErrWriterDisabled
  else
    _ ← Validate cfg;
    u ← wrap_err "create aws session: %w" [] (newSession cfg);
    let '(u, t) := Now u in
    Ok (mkWriter cfg ∅ u t).

(** ** service.go *)

Context `{ProtoUnmarshal}.

Definition handleMessage (ctx : context) (msg : NatsMsg) : M W () :=
  if negb (Contains (nm_Subject msg) ".candle.") then mret tt
  else
    candle ← lift (wrap_err "unmarshal candle: %w" [] (Unmarshal_Candle (nm_Data msg)));
    AppendCandle ctx (Some candle).

Definition Run (ctx : context) (rounds : list round) (w : W) : loop_state W * option error :=
  run_loop Flush handleMessage ctx rounds (mkLoop w []).

End writer.
#[global] Arguments AppendCandle : simpl never.
#[global] Arguments flushLocked : simpl never.

(** ** Lemmas on bucket keys *)

Lemma cut_app c l k : c ∉ l → cut c (l ++ c :: k) = Some (l, k).
Proof.
  induction l as [|x l IH]; rewrite ?not_elem_of_cons; simpl.
  - by rewrite decide_True.
  - intros [Hne Hl]. rewrite decide_False by congruence. by rewrite IH.
Qed.
Lemma cut_free c l a b : cut c l = Some (a, b) → c ∉ a ∧ l = a ++ c :: b.
Proof.
  revert a b. induction l as [|x l IH]; intros a b; [done|]. simpl. case_decide as Hx.
  - intros [= <- <-]. subst. split; [set_solver|done].
  - destruct (cut c l) as [[a' b']|]; [|done]. intros [= <- <-].
    destruct (IH a' b' eq_refl) as [Hf ->]. split; [set_solver|done].
Qed.

Lemma bytes_bucketKey tf scope : bytes (bucketKey tf scope) = bytes tf ++ bar :: bytes scope.
Proof. unfold bucketKey. by rewrite !bytes_app. Qed.

Lemma bucketKey_split tf scope :
  splitBucketKey (bucketKey tf scope) = (tf, scope) ↔ bar ∉ bytes tf.
Proof.
  unfold splitBucketKey. rewrite bytes_bucketKey. split.
  - destruct (cut bar _) as [[a b]|] eqn:E.
    + intros [= <- <-]. apply cut_free in E as [Hf _]. by rewrite bytes_of_bytes.
    + intros [= H _]. apply (f_equal slen) in H. unfold bucketKey in H. rewrite !slen_app in H.
      change (slen "|") with 1%nat in H. lia.
  - intros Hf. rewrite cut_app by done. by rewrite !of_bytes_bytes.
Qed.

(** The two scopes have the same length, so a key determines both parts. *)
Definition is_scope (scope : string) : Prop := scope = "pair" ∨ scope = "pool".

Lemma candleScope_is c : is_scope (candleScope c).
Proof. unfold candleScope, is_scope. case_bool_decide; auto. Qed.

Lemma bucketKey_inj tf1 tf2 s1 s2 :
  is_scope s1 → is_scope s2 → bucketKey tf1 s1 = bucketKey tf2 s2 → tf1 = tf2 ∧ s1 = s2.
Proof.
  intros H1 H2 E. apply (f_equal bytes) in E. rewrite !bytes_bucketKey in E.
  assert (length (bar :: bytes s1) = length (bar :: bytes s2)) as Hl.
  { destruct H1 as [-> | ->], H2 as [-> | ->]; reflexivity. }
  apply app_inj_2 in E as [E1 E2]; [|done]. injection E2 as E2. split; by apply bytes_inj.
Qed.

(** *** Object names *)

Lemma pretty_no_slash (z : Z) : slash ∉ bytes (pretty z).
Proof.
  destruct (Z.le_gt_cases 0 z) as [Hz|Hz]; [by apply (free_of_pretty slash)|].
  assert (pretty z = "-" +:+ pretty (- z)) as -> by by destruct z.
  rewrite bytes_app, not_elem_of_app. split; [by apply (bool_decide_unpack _)|].
  apply (free_of_pretty slash); [lia|done].
Qed.
Lemma format_date_no_slash t : slash ∉ bytes (format_date t).
Proof.
  assert (∀ n z, slash ∉ bytes (pad n z)) as Hpad.
  { intros n z. unfold pad. rewrite bytes_app, bytes_of_bytes, not_elem_of_app.
    split; [|apply pretty_no_slash]. intros [Hs _]%elem_of_replicate. by vm_compute in Hs. }
  assert (slash ∉ bytes "-") as Hdash by by apply (bool_decide_unpack _).
  unfold format_date. destruct (civil_from_days _) as [[y m] d].
  rewrite !bytes_app, !not_elem_of_app. auto.
Qed.

(** A text after a label that ends in an equals sign. *)
Lemma plain_labelled label e :
  (2 < slen label)%nat → free_of slash label → slash ∉ bytes e → plain (bytes (label +:+ e)).
Proof.
  unfold free_of, slen. intros Hl Hf He. rewrite bytes_app. repeat split.
  - intros E%(f_equal length). rewrite length_app in E. simpl in E. lia.
  - intros E%(f_equal length). rewrite length_app in E. simpl in E. lia.
  - intros E%(f_equal length). rewrite length_app in E. simpl in E. lia.
  - by rewrite not_elem_of_app.
Qed.

(** The name of an object whose timeframe and scope have no slash. *)
Lemma objectName_plain cfg timeframe scope t1 t2 :
  free_of slash timeframe → free_of slash scope →
  objectName cfg timeframe scope t1 t2
  = clean_dir (TrimSuffix (Prefix cfg) "/") +:+ "timeframe=" +:+ timeframe +:+ "/scope=" +:+ scope
    +:+ "/date=" +:+ format_date t1 +:+ "/candles-" +:+ pretty t2 +:+ ".parquet".
Proof.
  intros Ht Hs. unfold objectName. rewrite filepath_Join_plain; [|done|].
  - f_equal. apply bytes_inj. rewrite bytes_of_bytes. cbn [fmap list_fmap join_with].
    rewrite !bytes_app, <- !app_assoc. reflexivity.
  - assert (∀ label e, bool_decide (slash ∉ bytes label ∧ (2 < slen label)%nat) = true →
      slash ∉ bytes e → plain (bytes (label +:+ e))) as Hlabel.
    { intros label e [Hf Hlen]%bool_decide_eq_true He. by apply plain_labelled. }
    repeat (apply Forall_cons; split; [apply Hlabel; [vm_compute; reflexivity|]|]); [done..| | |constructor].
    + apply format_date_no_slash.
    + rewrite bytes_app, not_elem_of_app. split; [apply pretty_no_slash|]. by apply (bool_decide_unpack _).
Qed.

(** ** What a flush does *)

(** One upload: the bucket, the rows, whether it was accepted. *)
Definition upload_log : Type := list (string * list candleRow * bool).

Definition accepted (key : string) (log : upload_log) : list candleRow :=
  concat ((λ '(k, rows, ok), if (ok : bool) then if decide (k = key) then rows else [] else [])
          <$> log).

Lemma accepted_log_app key l1 l2 : accepted key (l1 ++ l2) = accepted key l1 ++ accepted key l2.
Proof. unfold accepted. by rewrite fmap_app, concat_app. Qed.

Lemma accepted_cons key k rows ok log :
  accepted key ((k, rows, ok) :: log)
  = (if (ok : bool) then if decide (k = key) then rows else [] else []) ++ accepted key log.
Proof. reflexivity. Qed.

Definition nonempty (entry : string * list candleRow) : Prop := entry.2 ≠ [].
#[global] Instance nonempty_dec entry : Decision (nonempty entry).
Proof. unfold nonempty. apply _. Defined.

Lemma accepted_pre_out key pre :
  key ∉ pre.*1 → accepted key ((., true) <$> filter nonempty pre) = [].
Proof.
  induction pre as [|[k rows] pre IH]; [done|]. rewrite fmap_cons, not_elem_of_cons. simpl.
  intros [Hne Hn]. rewrite filter_cons. case_decide; [|by apply IH].
  rewrite fmap_cons, accepted_cons, decide_False by done. by apply IH.
Qed.
Lemma accepted_pre_in key rows pre :
  NoDup pre.*1 → (key, rows) ∈ pre → accepted key ((., true) <$> filter nonempty pre) = rows.
Proof.
  induction pre as [|[k r] pre IH]; [by intros _ ?%elem_of_nil|].
  rewrite fmap_cons, NoDup_cons, elem_of_cons. simpl. intros [Hn Hd] [[= <- <-]|Hin].
  - rewrite filter_cons. case_decide as He.
    + rewrite fmap_cons, accepted_cons, decide_True by done.
      by rewrite accepted_pre_out, app_nil_r.
    + rewrite accepted_pre_out by done. unfold nonempty in He. simpl in He. destruct rows; [done|by destruct He].
  - assert (k ≠ key) as Hne.
    { intros ->. apply Hn. apply list_elem_of_fmap. by exists (key, rows). }
    rewrite filter_cons. case_decide; [|by apply IH].
    rewrite fmap_cons, accepted_cons, decide_False by done. by apply IH.
Qed.

Section writer_lemmas.
Context `{ParquetCodec} {U : Type} `{S3World U} `{!RangeOrder string (list candleRow)}.
Notation W := (Writer U).

(** A call of the uploader made for a log entry: an object of the configured
    bucket whose body reads back as the rows. *)
Definition uploaded (cfg : Config) (e : string * list candleRow * bool)
    (call : UploadInput * bool) : Prop :=
  let '(key, rows, ok) := e in
  call.2 = ok ∧ pq_read (up_Body call.1) = Some rows ∧ up_Bucket call.1 = Bucket cfg
  ∧ ∃ t1 t2, up_Key call.1
             = objectName cfg (splitBucketKey key).1 (splitBucketKey key).2 t1 t2.

Definition represents (w : W) (log : upload_log) : Prop :=
  Forall2 (uploaded (w_cfg w)) log (uploads (uploader w)).

Lemma time_Now_run (w : W) :
  ∃ t u, time_Now w = (mkWriter (w_cfg w) (buckets w) u (lastFlush w), Ok t)
  ∧ uploads u = uploads (uploader w).
Proof.
  unfold time_Now. pose proof (uploads_Now (uploader w)) as Hu.
  destruct (Now (uploader w)) as [u t]. eauto.
Qed.

Lemma writeBucket_run ctx key rows (w : W) log :
  represents w log →
  let '(w', r) := writeBucket ctx (splitBucketKey key).1 (splitBucketKey key).2 rows w in
  w_cfg w' = w_cfg w ∧ buckets w' = buckets w ∧ lastFlush w' = lastFlush w
  ∧ if is_ok r then represents w' (log ++ [(key, rows, true)])
    else represents w' log ∨ represents w' (log ++ [(key, rows, false)]).
Proof.
  intros Hr. unfold writeBucket. rewrite M_bind_run. unfold lift at 1.
  destruct (pq_Write rows) as [pw|e] eqn:Hw; simpl; [|auto].
  rewrite M_bind_run. unfold lift. destruct (pq_Close pw) as [data|e] eqn:Hc; simpl; [|auto].
  unfold objectKey. rewrite !M_bind_run. cbn [M_get]. rewrite M_bind_run.
  destruct (time_Now_run w) as (t1 & u1 & -> & Hu1). cbn [mret M_ret]. rewrite M_bind_run.
  destruct (time_Now_run (mkWriter (w_cfg w) (buckets w) u1 (lastFlush w))) as (t2 & u2 & -> & Hu2).
  simpl in *. unfold mret, M_ret. rewrite M_bind_run. cbn [M_get]. unfold upload. simpl.
  set (inp := mkUploadInput _ _ _ _).
  pose proof (uploads_Upload ctx inp u2) as Hu.
  destruct (Upload ctx inp u2) as [u3 r]. simpl in *.
  assert (represents (mkWriter (w_cfg w) (buckets w) u3 (lastFlush w)) (log ++ [(key, rows, is_ok r)]))
    as Hrep.
  { unfold represents in *. simpl. rewrite Hu, Hu2, Hu1. apply Forall2_app; [done|].
    repeat constructor; simpl; [by eapply pq_read_Close|]. eauto. }
  destruct r as [[]|e]; simpl in *; auto.
Qed.

(** One bucket of the loop. *)
Lemma flushBucket_run ctx key rows (w : W) log :
  represents w log →
  let '(w', r) := flushBucket ctx (key, rows) w in
  w_cfg w' = w_cfg w ∧ lastFlush w' = lastFlush w
  ∧ (rows = [] ∧ w' = w ∧ r = Ok tt
     ∨ rows ≠ [] ∧ r = Ok tt ∧ buckets w' = <[key := []]> (buckets w)
       ∧ represents w' (log ++ [(key, rows, true)])
     ∨ rows ≠ [] ∧ is_ok r = false ∧ buckets w' = buckets w
       ∧ (represents w' log ∨ represents w' (log ++ [(key, rows, false)]))).
Proof.
  intros Hr. unfold flushBucket. case_decide as Hl.
  { destruct rows; [|done]. unfold mret, M_ret. naive_solver. }
  assert (rows ≠ []) as Hne by (by destruct rows).
  pose proof (writeBucket_run ctx key rows w log Hr) as Hw.
  destruct (splitBucketKey key) as [tf sc]. simpl in Hw. rewrite M_bind_run.
  destruct (writeBucket ctx tf sc rows w) as [w' [[]|e]]; simpl in *.
  - destruct Hw as (Hc & Hb & Hl' & Hrep). unfold represents in *. simpl. rewrite Hc, Hb in *.
    split_and!; [done|done|]. right. left. done.
  - destruct Hw as (Hc & Hb & Hl' & Hrep). split_and!; [done|done|]. right. right. done.
Qed.

(** The loop over the buckets: it empties those before the first failure. *)
Lemma flush_loop_run ctx entries (w : W) log :
  represents w log → NoDup entries.*1 →
  (∀ key rows, (key, rows) ∈ entries → buckets w !! key = Some rows) →
  ∃ w' r pre post log', M_for entries (flushBucket ctx) w = (w', r)
  ∧ entries = pre ++ post ∧ w_cfg w' = w_cfg w ∧ lastFlush w' = lastFlush w
  ∧ (∀ key, buckets w' !! key = if decide (key ∈ pre.*1) then Some [] else buckets w !! key)
  ∧ represents w' log'
  ∧ if is_ok r then post = [] ∧ log' = log ++ ((., true) <$> filter nonempty pre)
    else ∃ key rows post', post = (key, rows) :: post' ∧ rows ≠ []
         ∧ (log' = log ++ ((., true) <$> filter nonempty pre)
            ∨ log' = log ++ ((., true) <$> filter nonempty pre) ++ [(key, rows, false)]).
Proof.
  intros Hr. revert w log Hr. induction entries as [|[key rows] entries IH]; intros w log Hr Hd Hin.
  { exists w, (Ok tt), [], [], log. simpl. rewrite app_nil_r. split_and!; try done. }
  rewrite fmap_cons in Hd. apply NoDup_cons in Hd as [Hn Hd]. simpl in Hn. rewrite M_for_cons.
  pose proof (flushBucket_run ctx key rows w log Hr) as Hf.
  destruct (flushBucket ctx (key, rows) w) as [w1 r].
  destruct Hf as (Hcfg & Hlf & [(-> & -> & ->)|[(Hne & -> & Hb & Hrep)|(Hne & Hok & Hb & Hrep)]]).
  - destruct (IH w log Hr Hd) as (w' & r & pre & post & log' & -> & -> & Hc & Hl & Hbk & Hrep & Hres).
    { intros k rs Hk. apply Hin. by right. }
    exists w', r, ((key, []) :: pre), post, log'. split_and!; try done. intros k.
    rewrite Hbk, fmap_cons. simpl. case_decide; case_decide; set_solver.
  - assert (∀ k rs, (k, rs) ∈ entries → buckets w1 !! k = Some rs) as Hin1.
    { intros k rs Hk. rewrite Hb, lookup_insert_ne; [apply Hin; by right|].
      intros ->. apply Hn. apply list_elem_of_fmap. by exists (k, rs). }
    destruct (IH w1 _ Hrep Hd Hin1) as (w' & r & pre & post & log' & -> & -> & Hc & Hl & Hbk & Hrep' & Hres).
    exists w', r, ((key, rows) :: pre), post, log'. rewrite <- Hcfg, <- Hlf.
    rewrite filter_cons_True by done. split_and!; try done.
    + intros k. rewrite Hbk, Hb, fmap_cons. simpl.
      destruct (decide (k = key)) as [->|Hk].
      * rewrite lookup_insert_eq. case_decide; case_decide; set_solver.
      * rewrite lookup_insert_ne by done. case_decide; case_decide; set_solver.
    + rewrite fmap_cons. destruct (is_ok r); [by rewrite <- app_assoc in Hres|].
      destruct Hres as (k0 & r0 & p0 & -> & Hne0 & [-> | ->]); exists k0, r0, p0;
        rewrite <- !app_assoc; auto.
  - exists w1, r. destruct r as [|e]; [done|].
    destruct Hrep as [Hrep|Hrep]; eexists [], ((key, rows) :: entries), _; simpl;
      rewrite ?app_nil_r; split_and!; try done; try (intros; by rewrite Hb);
      exists key, rows, entries; naive_solver.
Qed.

(** [flushLocked]: every bucket visited before the first failure is uploaded, if
    it has rows, and emptied; the others are as they were. *)
Lemma flushLocked_run ctx (w : W) log :
  represents w log →
  ∃ w' r pre post log', flushLocked ctx w = (w', r)
  ∧ range_entries (buckets w) = pre ++ post ∧ w_cfg w' = w_cfg w
  ∧ (∀ key, buckets w' !! key = if decide (key ∈ pre.*1) then Some [] else buckets w !! key)
  ∧ represents w' log'
  ∧ if is_ok r then post = [] ∧ log' = log ++ ((., true) <$> filter nonempty pre)
      ∧ (buckets w = ∅ ∧ w' = w ∨ ∃ u, Now u = (uploader w', lastFlush w'))
    else lastFlush w' = lastFlush w ∧ ∃ key rows post', post = (key, rows) :: post' ∧ rows ≠ []
         ∧ (log' = log ++ ((., true) <$> filter nonempty pre)
            ∨ log' = log ++ ((., true) <$> filter nonempty pre) ++ [(key, rows, false)]).
Proof.
  intros Hr. unfold flushLocked. rewrite M_bind_run. cbn [M_get]. case_decide as Hs.
  { apply map_size_empty_inv in Hs. exists w, (Ok tt), [], [], log. simpl.
    rewrite app_nil_r. split_and!; try done; [|by left].
    assert (range_entries (buckets w) ≡ₚ []) as Hp.
    { rewrite range_entries_perm, Hs. by rewrite map_to_list_empty. }
    by apply Permutation_nil_r in Hp. }
  destruct (flush_loop_run ctx (range_entries (buckets w)) w log Hr (NoDup_range_entries _))
    as (w1 & r & pre & post & log' & E & Hpre & Hc & Hl & Hb & Hrep & Hres).
  { intros key rows Hin. by apply elem_of_range_entries. }
  rewrite M_bind_run, E. destruct r as [[]|e]; simpl in Hres; cycle 1.
  { exists w1, (Err e), pre, post, log'. simpl. done. }
  rewrite M_bind_run. unfold time_Now, setLastFlush, M_modify.
  pose proof (uploads_Now (uploader w1)) as Hu. destruct (Now (uploader w1)) as [u t] eqn:En.
  eexists _, (Ok tt), pre, post, log'. split; [reflexivity|]. simpl in *. destruct Hres as [-> ->].
  split_and!; try done; [|by right; exists (uploader w1)].
  unfold represents in *. simpl. by rewrite Hu.
Qed.

(** ** Rows given, uploaded and buffered *)

Definition candle_key (c : Candle) : string := bucketKey (candleTimeframe c) (candleScope c).
Definition keyed (key : string) (r : candleRow) : Prop :=
  ∃ c, r = candle_row c ∧ candle_key c = key.

(** The rows of one bucket among those of [candles]. *)
Definition rows_for (key : string) (candles : list Candle) : list candleRow :=
  candle_row <$> filter (λ c, candle_key c = key) candles.

Definition buffered (w : W) (key : string) : list candleRow := default [] (buckets w !! key).

Lemma rows_for_app key l1 l2 : rows_for key (l1 ++ l2) = rows_for key l1 ++ rows_for key l2.
Proof. unfold rows_for. by rewrite filter_app, fmap_app. Qed.
Lemma rows_for_keyed key l : Forall (keyed key) (rows_for key l).
Proof.
  apply Forall_fmap, Forall_forall. intros c [Hc _]%list_elem_of_filter. by exists c.
Qed.

(** In each bucket, the accepted uploads followed by the buffered rows are the
    rows of the candles given. *)
Definition kept (w : W) (log : upload_log) (candles : list Candle) : Prop :=
  represents w log
  ∧ (∀ key, accepted key log ++ buffered w key = rows_for key candles)
  ∧ Forall (λ e, e.1.2 ≠ [] ∧ Forall (keyed e.1.1) e.1.2) log.

Lemma kept_buffered w log candles key :
  kept w log candles → Forall (keyed key) (buffered w key).
Proof.
  intros (_ & Hk & _). pose proof (rows_for_keyed key candles) as Hf. rewrite <- Hk in Hf.
  by apply Forall_app in Hf as [_ Hf].
Qed.

Lemma kept_flushLocked ctx (w : W) log candles :
  kept w log candles →
  ∃ log', kept (flushLocked ctx w).1 log' candles
  ∧ w_cfg (flushLocked ctx w).1 = w_cfg w
  ∧ (is_ok (flushLocked ctx w).2 = true → ∀ key, buffered (flushLocked ctx w).1 key = []).
Proof.
  intros Hkept. pose proof Hkept as (Hr & Hk & Hf).
  destruct (flushLocked_run ctx w log Hr) as (w' & r & pre & post & log' & -> & Hpre & Hc & Hb & Hrep & Hres).
  assert (∃ tl, log' = log ++ ((., true) <$> filter nonempty pre) ++ tl
    ∧ (tl = [] ∨ ∃ key rows, tl = [(key, rows, false)] ∧ rows ≠ [] ∧ (key, rows) ∈ post)) as (tl & -> & Htl).
  { destruct (is_ok r).
    - destruct Hres as (_ & -> & _). exists []. rewrite app_nil_r. auto.
    - destruct Hres as (_ & key & rows & p & -> & Hne & [-> | ->]).
      + exists []. rewrite app_nil_r. auto.
      + eexists. split; [done|]. right. exists key, rows. split_and!; [done|done|by left]. }
  pose proof (NoDup_range_entries (buckets w)) as Hd.
  assert (∀ key rows, (key, rows) ∈ pre ++ post → buffered w key = rows) as Hin.
  { intros key rows. rewrite <- Hpre. intros E%elem_of_range_entries. unfold buffered. by rewrite E. }
  exists (log ++ ((., true) <$> filter nonempty pre) ++ tl). simpl. split_and!; [split_and!|done|].
  - done.
  - intros key. rewrite <- Hk, !accepted_log_app, <- app_assoc. f_equal.
    assert (accepted key tl = []) as ->.
    { destruct Htl as [->|(k & rs & -> & _)]; [done|]. by rewrite accepted_cons. }
    unfold buffered. rewrite Hb, app_nil_r. case_decide as Hp.
    + apply list_elem_of_fmap in Hp as ([k rows] & -> & Hp). simpl. rewrite app_nil_r.
      rewrite Hpre, fmap_app in Hd. apply NoDup_app in Hd as (Hd & _ & _).
      rewrite (accepted_pre_in k rows pre Hd Hp).
      pose proof (Hin k rows ltac:(apply elem_of_app; by left)) as E. unfold buffered in E. done.
    + by rewrite accepted_pre_out.
  - apply Forall_app; split; [done|]. apply Forall_app; split.
    + apply Forall_fmap, Forall_forall. intros [k rows] [Hne Hp]%list_elem_of_filter.
      split; [exact Hne|]. simpl.
      rewrite <- (Hin k rows) by (apply elem_of_app; by left). by eapply kept_buffered.
    + destruct Htl as [->|(k & rs & -> & Hne & Hp)]; [done|]. constructor; [|done].
      split; [exact Hne|]. simpl.
      rewrite <- (Hin k rs) by (apply elem_of_app; by right). by eapply kept_buffered.
  - intros Hok key. rewrite Hok in Hres. destruct Hres as (-> & _ & _).
    rewrite app_nil_r in Hpre. unfold buffered. rewrite Hb. case_decide as Hp; [done|].
    destruct (buckets w !! key) as [rows|] eqn:E; [|done].
    apply elem_of_range_entries in E. rewrite Hpre in E. destruct Hp.
    apply list_elem_of_fmap. by exists (key, rows).
Qed.

(** Appending the row of a candle to its bucket. *)
Lemma kept_append (w : W) log candles c :
  kept w log candles →
  kept (mkWriter (w_cfg w) (<[candle_key c := buffered w (candle_key c) ++ [candle_row c]]> (buckets w))
          (uploader w) (lastFlush w)) log (candles ++ [c]).
Proof.
  intros (Hr & Hk & Hf). split_and!; [done| |done]. intros key. rewrite rows_for_app, <- Hk, <- app_assoc.
  f_equal. unfold buffered, rows_for. simpl. rewrite filter_cons, filter_nil.
  destruct (decide (candle_key c = key)) as [<-|Hne].
  - by rewrite lookup_insert_eq.
  - by rewrite lookup_insert_ne, app_nil_r by done.
Qed.

Lemma flushDue_run (w : W) n :
  ∃ u b, flushDue n w = (mkWriter (w_cfg w) (buckets w) u (lastFlush w), Ok b)
  ∧ uploads u = uploads (uploader w) ∧ (BatchRows (w_cfg w) <= n → b = true).
Proof.
  unfold flushDue. rewrite M_bind_run. cbn [M_get].
  destruct (Z.leb_spec (BatchRows (w_cfg w)) n).
  - exists (uploader w), true. by destruct w.
  - destruct (time_Now_run w) as (t & u & E & Hu). rewrite M_bind_run, E.
    eexists u, _. split; [reflexivity|]. split; [done|lia].
Qed.

(** The row is kept whether or not the call returns nil; a bucket that is full
    and whose flush succeeded is empty. *)
Lemma kept_AppendCandle ctx c (w : W) log candles :
  kept w log candles →
  ∃ log', kept (AppendCandle ctx (Some c) w).1 log' (candles ++ [c])
  ∧ w_cfg (AppendCandle ctx (Some c) w).1 = w_cfg w
  ∧ (is_ok (AppendCandle ctx (Some c) w).2 = true →
     buffered (AppendCandle ctx (Some c) w).1 (candle_key c) = []
     ∨ zlen (buffered (AppendCandle ctx (Some c) w).1 (candle_key c)) < BatchRows (w_cfg w)).
Proof.
  intros Hk%(kept_append _ _ _ c). unfold AppendCandle. rewrite M_bind_run. cbn [M_get].
  fold (candle_key c). fold (buffered w (candle_key c)). rewrite M_bind_run. unfold setBucket, M_modify.
  set (bucket := buffered w (candle_key c) ++ [candle_row c]) in *.
  set (w1 := mkWriter _ _ _ _) in *. rewrite M_bind_run.
  destruct (flushDue_run w1 (zlen bucket)) as (u & b & -> & Hu & Hb).
  set (w2 := mkWriter (w_cfg w1) _ _ _).
  assert (kept w2 log (candles ++ [c])) as Hk2.
  { destruct Hk as (Hr & Hk). split; [|exact Hk]. unfold represents in *. simpl. by rewrite Hu. }
  destruct b.
  - destruct (kept_flushLocked ctx w2 log _ Hk2) as (log' & Hk' & Hc & He).
    exists log'. split_and!; [done|done|]. intros Hok. left. by apply He.
  - exists log. split_and!; [done|done|]. intros _. right. unfold mret, M_ret, buffered. simpl.
    rewrite lookup_insert_eq. simpl. change (w_cfg w1) with (w_cfg w) in Hb.
    destruct (Z.le_gt_cases (BatchRows (w_cfg w)) (zlen bucket)) as [Hle|]; [|lia].
    by apply Hb in Hle.
Qed.

Lemma kept_new cfg (u : U) t : uploads u = [] → kept (mkWriter cfg ∅ u t) [] [].
Proof.
  intros Hu. split_and!; [|done|done]. unfold represents. simpl. rewrite Hu. constructor.
Qed.
End writer_lemmas.

(** ** Properties *)

(** A call of the writer's methods. *)
Inductive writer_op :=
  | Op_AppendCandle (ctx : context) (candle : option Candle)
  | Op_AppendSwap (ctx : context) (event : option SwapEvent)
  | Op_Flush (ctx : context).

(** The candles given to the writer. *)
Definition op_candle (o : writer_op) : option Candle :=
  match o with Op_AppendCandle _ c => c | _ => None end.

Section properties.
Context `{ParquetCodec} {U : Type} `{S3World U} `{!RangeOrder string (list candleRow)}.
Notation W := (Writer U).

Definition exec_op (o : writer_op) : M W () :=
  match o with
  | Op_AppendCandle ctx c => AppendCandle ctx c
  | Op_AppendSwap ctx e => AppendSwap ctx e
  | Op_Flush ctx => Flush ctx
  end.

(** The calls one after the other, whatever they return. *)
Definition run_ops (ops : list writer_op) (w : W) : W := foldl (λ w o, (exec_op o w).1) w ops.

Lemma exec_op_candles o (w : W) log candles :
  kept w log candles →
  ∃ log', kept (exec_op o w).1 log' (candles ++ option_list (op_candle o))
  ∧ w_cfg (exec_op o w).1 = w_cfg w.
Proof.
  intros Hk. destruct o as [ctx [c|]|ctx e|ctx]; simpl; rewrite ?app_nil_r.
  - destruct (kept_AppendCandle ctx c w log candles Hk) as (log' & ? & ? & _). eauto.
  - eauto.
  - eauto.
  - destruct (kept_flushLocked ctx w log candles Hk) as (log' & ? & ? & _). eauto.
Qed.

Lemma run_ops_candles ops (w : W) log candles :
  kept w log candles →
  ∃ log', kept (run_ops ops w) log' (candles ++ omap op_candle ops) ∧ w_cfg (run_ops ops w) = w_cfg w.
Proof.
  revert w log candles. induction ops as [|o ops IH]; intros w log candles Hk.
  { exists log. simpl. by rewrite app_nil_r. }
  destruct (exec_op_candles o w log candles Hk) as (log1 & Hk1 & Hc1).
  destruct (IH _ _ _ Hk1) as (log2 & Hk2 & Hc2). exists log2. rewrite <- Hc1. split; [|exact Hc2].
  rewrite <- app_assoc in Hk2. simpl. by destruct (op_candle o).
Qed.

(** For any sequence of calls of the methods of a new writer, any order in
    which the buckets are visited and any failures of the encoder and of the
    uploads: in every bucket, the rows of its accepted uploads followed by those
    still in memory are the rows of the candles given with its timeframe and scope,
    each once and in order. A [Flush] that then returns nil leaves no row in
    memory, and one that fails keeps the property. *)
Theorem candles_conserved cfg (u : U) t ops ctx :
  uploads u = [] →
  let w := run_ops ops (mkWriter cfg ∅ u t) in
  let given := omap op_candle ops in
  (∃ log, Forall2 (uploaded cfg) log (uploads (uploader w))
   ∧ ∀ key, accepted key log ++ buffered w key = rows_for key given)
  ∧ ∃ log, Forall2 (uploaded cfg) log (uploads (uploader (Flush ctx w).1))
    ∧ ∀ key, accepted key log ++ buffered (Flush ctx w).1 key = rows_for key given
    ∧ (is_ok (Flush ctx w).2 = true → accepted key log = rows_for key given).
Proof.
  intros Hu w given.
  destruct (run_ops_candles ops (mkWriter cfg ∅ u t) [] [] (kept_new cfg u t Hu)) as (log & Hk & Hc).
  fold w in Hk, Hc. simpl in Hc.
  split; [exists log; destruct Hk as (Hr & Hk & _); unfold represents in Hr; by rewrite Hc in Hr|].
  destruct (kept_flushLocked ctx w log _ Hk) as (log' & (Hr' & Hk' & _) & Hc' & He).
  unfold Flush. exists log'. split; [unfold represents in Hr'; by rewrite Hc', Hc in Hr'|].
  intros key. split; [apply Hk'|]. intros Hok. by rewrite <- Hk', (He Hok key), app_nil_r.
Qed.

(** C35. Every object the writer ever sends holds the rows of one timeframe and one
    scope, in the configured bucket. When the timeframe has neither a bar nor a slash,
    the object is named by the configured prefix, cleaned, and then the timeframe, the
    scope, a date and a number, each an element of its own. A bar cuts the timeframe
    in two at its place, and [filepath.Join] resolves the slashes and dots of one that
    has slashes. *)
Theorem uploads_partitioned cfg (u : U) t ops call :
  uploads u = [] → call ∈ uploads (uploader (run_ops ops (mkWriter cfg ∅ u t))) →
  ∃ timeframe scope rows (t1 t2 : Z),
    pq_read (up_Body call.1) = Some rows ∧ up_Bucket call.1 = Bucket cfg
    ∧ Forall (λ r, cr_Timeframe r = timeframe ∧ cr_Scope r = scope) rows
    ∧ (scope = "pair" ∨ scope = "pool")
    ∧ (free_of bar timeframe → free_of slash timeframe →
       up_Key call.1
       = clean_dir (TrimSuffix (Prefix cfg) "/") +:+ "timeframe=" +:+ timeframe +:+ "/scope=" +:+ scope
         +:+ "/date=" +:+ format_date t1 +:+ "/candles-" +:+ pretty t2 +:+ ".parquet").
Proof.
  intros Hu Hin.
  destruct (run_ops_candles ops (mkWriter cfg ∅ u t) [] [] (kept_new cfg u t Hu)) as
    (log & (Hr & _ & Hf) & Hc).
  unfold represents in Hr. rewrite Hc in Hr. simpl in Hr. clear Hc.
  apply list_elem_of_lookup in Hin as [i Hi].
  destruct (Forall2_lookup_r _ _ _ _ _ Hr Hi) as ([[key rows] ok] & Hl & _ & Hread & Hbk & Hname).
  assert (rows ≠ [] ∧ Forall (keyed key) rows) as [Hne Hkeyed].
  { rewrite Forall_forall in Hf. apply (Hf (key, rows, ok)). by eapply list_elem_of_lookup_2. }
  destruct rows as [|r rows]; [done|]. pose proof Hkeyed as Hall.
  apply Forall_cons in Hkeyed as [(c & -> & <-) _].
  destruct Hname as (t1 & t2 & Hname).
  exists (candleTimeframe c), (candleScope c), (candle_row c :: rows), t1, t2.
  split_and!; [done|done| |apply candleScope_is|].
  - eapply Forall_impl; [exact Hall|]. intros r' (c' & -> & E). simpl.
    apply bucketKey_inj in E as [-> ->]; [done|apply candleScope_is..].
  - intros Hbar Hslash. rewrite Hname. unfold candle_key. rewrite (proj2 (bucketKey_split _ _) Hbar).
    apply objectName_plain; [done|]. destruct (candleScope_is c) as [-> | ->]; by apply (bool_decide_unpack _).
Qed.

(** *** The service *)

Context `{ProtoUnmarshal}.

Definition msg_candle (msg : NatsMsg) : option Candle :=
  if Contains (nm_Subject msg) ".candle." then
    match Unmarshal_Candle (nm_Data msg) with Ok c => Some c | Err _ => None end
  else None.

Definition sink_inv (cfg : Config) (w : W) (tr : list sink_event) : Prop :=
  w_cfg w = cfg ∧ ∃ log, kept w log (omap msg_candle (event_msg <$> tr)).

Lemma handleMessage_kept cfg ctx msg (w : W) tr ev :
  event_msg ev = msg → sink_inv cfg w tr → sink_inv cfg (handleMessage ctx msg w).1 (tr ++ [ev]).
Proof.
  intros Hev [Hc [log Hk]]. unfold sink_inv. rewrite fmap_app, omap_app. simpl. rewrite Hev.
  unfold handleMessage, msg_candle at 2. destruct (Contains _ _); simpl; rewrite ?app_nil_r; [|eauto].
  rewrite M_bind_run. unfold lift.
  destruct (Unmarshal_Candle (nm_Data msg)) as [c|e]; simpl; rewrite ?app_nil_r; [|eauto].
  destruct (kept_AppendCandle ctx c w log _ Hk) as (log' & Hk' & Hc' & _). rewrite Hc'. eauto.
Qed.

Lemma Run_pull_kept cfg ctx rounds (s : loop_state W) :
  sink_inv cfg (ls_sink s) (ls_trace s) →
  let r := pull_loop Flush handleMessage ctx rounds s in
  sink_inv cfg (ls_sink r.1) (ls_trace r.1).
Proof.
  apply (pull_loop_inv _ _ ctx (sink_inv cfg)).
  - intros c w tr [Hc [log Hk]]. unfold sink_inv.
    destruct (kept_flushLocked c w log _ Hk) as (log' & Hk' & Hc' & _). unfold Flush. rewrite Hc'. eauto.
  - intros msg w w' tr Hi E. pose proof (handleMessage_kept cfg ctx msg w tr (E_Ack msg) eq_refl Hi) as H'.
    by rewrite E in H'.
  - intros msg w w' tr e Hi E.
    pose proof (handleMessage_kept cfg ctx msg w tr (E_Nak msg) eq_refl Hi) as H'. by rewrite E in H'.
Qed.

(** [Run] on a new writer, for any rounds and failures: the messages are
    handled in fetch order and acknowledged, except one whose handler failed,
    after which [Run] has ended; a running loop has handled every fetched message.
    In every bucket the rows of the accepted uploads followed by those in memory
    are the rows of the candles among the handled messages, each once and in
    order. [Run] ends with a flush, and when that returns nil no row is left. *)
Theorem Run_uploads_handled ctx cfg (u : U) t rounds :
  uploads u = [] →
  let '(s, ended) := Run ctx rounds (mkWriter cfg ∅ u t) in
  let msgs := event_msg <$> ls_trace s in
  ∃ log, Forall2 (uploaded cfg) log (uploads (uploader (ls_sink s)))
  ∧ (∀ key, accepted key log ++ buffered (ls_sink s) key = rows_for key (omap msg_candle msgs))
  ∧ msgs `prefix_of` fetched rounds
  ∧ ((∃ ms, ls_trace s = E_Ack <$> ms)
     ∨ ∃ ms m, ls_trace s = (E_Ack <$> ms) ++ [E_Nak m] ∧ is_Some ended)
  ∧ (ended = None → msgs = fetched rounds)
  ∧ (is_Some ended → ∃ w r, Flush Background w = (ls_sink s, r)
     ∧ (is_ok r = true → ∀ key, buffered (ls_sink s) key = [])).
Proof.
  intros Hu. unfold Run, run_loop. set (s0 := mkLoop _ _).
  assert (sink_inv cfg (ls_sink s0) (ls_trace s0)) as Hi0.
  { split; [done|]. exists []. by apply kept_new. }
  destruct (pull_loop_trace Flush handleMessage ctx rounds s0) as (k & Hk & Hpre & Hform & Hall).
  pose proof (Run_pull_kept cfg ctx rounds s0 Hi0) as [Hc [log Hkept]].
  destruct (pull_loop _ _ ctx rounds s0) as [s [e|]]; simpl in *; subst k.
  - destruct (kept_flushLocked Background _ _ _ Hkept) as (log' & (Hr & Hrows & _) & Hc' & He).
    unfold Flush in *. destruct (flushLocked Background (ls_sink s)) as [w r] eqn:E. simpl in *.
    exists log'. split_and!; try done.
    + unfold represents in Hr. by rewrite Hc', Hc in Hr.
    + intros _. by exists (ls_sink s), r.
  - destruct Hkept as (Hr & Hrows & _). exists log. split_and!; try done.
    unfold represents in Hr. by rewrite Hc in Hr.
Qed.

(** The sink reads back the candle the publisher sent. *)
Lemma Contains_app s sub t : Contains (s +:+ sub +:+ t) sub = true.
Proof.
  induction s as [|c s IH].
  - rewrite app_str_nil_l. destruct (sub +:+ t) eqn:E; simpl; rewrite <- E, HasPrefix_app; done.
  - rewrite app_str_cons. cbn [Contains]. rewrite IH. apply orb_true_r.
Qed.
Lemma msg_candle_published pub k data msgID :
  proto_Marshal (PM_Candle k) = Ok data →
  msg_candle (natsMsg (candleSubject pub k) data msgID) = Some k.
Proof.
  intros Hk. unfold msg_candle, candleSubject. simpl.
  by rewrite Contains_app, (Unmarshal_Marshal_Candle _ _ Hk).
Qed.

End properties.

(** ** Concrete instances *)

(** An encoder for the rows of a table: one byte per row. *)
Section table_codec.
Context (table : list candleRow).

Definition row_code (r : candleRow) : result byte :=
  match sample_encode 0 r table with
  | Ok [_; b] => Ok b
  | _ => Err (Sentinel "table")
  end.
Fixpoint encode_rows (rows : list candleRow) : result (list byte) :=
  match rows with
  | [] => Ok []
  | r :: rows => b ← row_code r; bs ← encode_rows rows; Ok (b :: bs)
  end.
Definition decode_rows (data : list byte) : option (list candleRow) :=
  mapM (λ b, table !! Z.to_nat (bval b)) data.

Lemma row_code_decode r b : row_code r = Ok b → table !! Z.to_nat (bval b) = Some r.
Proof.
  unfold row_code. destruct (sample_encode 0 r table) as [data|] eqn:E; [|done].
  apply (sample_decode_encode 0) in E; [|by unfold is_u8].
  destruct data as [|k [|i [|]]]; try done. intros [= ->]. unfold sample_decode in E.
  destruct (bval k =? 0); [|done]. destruct (table !! _); [|done]. by injection E as ->.
Qed.
Lemma encode_rows_decode rows data : encode_rows rows = Ok data → decode_rows data = Some rows.
Proof.
  revert data. induction rows as [|r rows IH]; intros data; simpl.
  { intros [= <-]. done. }
  rewrite bind_Ok. intros (b & Hb & H). apply bind_Ok in H as (bs & Hbs & [= <-]).
  unfold decode_rows. cbn [mapM]. rewrite (row_code_decode r b Hb). simpl.
  specialize (IH _ Hbs). unfold decode_rows in IH. by rewrite IH.
Qed.

#[local] Program Instance Table_ParquetCodec_ : ParquetCodec := {|
  pq_writer := list candleRow;
  pq_Write rows := Ok rows;
  pq_Close := encode_rows;
  pq_read := decode_rows;
|}.
Next Obligation. intros rows w data [= <-]. apply encode_rows_decode. Qed.
End table_codec.
Definition Table_ParquetCodec := Table_ParquetCodec_.

(** A store that accepts the uploads whose number [accept] accepts, and a clock
    that counts its readings. *)
Definition TestWorld : Type := list (UploadInput * bool) * Z.
#[local] Program Instance TestWorld_S3World_ (accept : nat → bool) : S3World TestWorld := {|
  Now u := ((u.1, u.2 + 1), u.2);
  Upload _ i u := ((u.1 ++ [(i, accept (length u.1))], u.2),
                   if accept (length u.1) then Ok tt else Err (Sentinel "s3"));
  uploads := fst;
|}.
Next Obligation. done. Qed.
Next Obligation. intros. simpl. by destruct (accept _). Qed.
Definition TestWorld_S3World := TestWorld_S3World_.

Definition example_config : Config :=
  mkConfig "http://minio" "lake" "key" "secret" "dex/" (900 * Second) 2 "us-east-1".
Definition example_candle (pool timeframe : string) (start : Z) : Candle :=
  mkCandle 501 "A/B" pool timeframe start true false 1 2 1 2 None None None (Some (mkU128 0 7)) 3.
Definition example_candles : list Candle :=
  [example_candle "p" "1m" 60; example_candle "" "1m" 60; example_candle "p" "1m" 120].

Section witnesses.
#[local] Instance example_codec : ParquetCodec := Table_ParquetCodec (candle_row <$> example_candles).
#[local] Instance example_range : RangeOrder string (list candleRow) := map_to_list_order.

Definition example_ops : list writer_op :=
  (λ c, Op_AppendCandle Background (Some c)) <$> example_candles.

(** The third candle fills a bucket; its flush is refused at the second upload,
    and what was refused is sent again by the next flush. *)
Lemma candles_conserved_witness :
  uploads (S3World:=TestWorld_S3World (λ n, negb (Nat.eqb n 1))) ([], 0) = [] ∧
  ∃ log, (∀ key, accepted key log
      ++ @buffered TestWorld (@Flush _ TestWorld (TestWorld_S3World (λ n, negb (Nat.eqb n 1))) _
            Background (@run_ops _ TestWorld (TestWorld_S3World (λ n, negb (Nat.eqb n 1))) _
              example_ops (mkWriter example_config ∅ ([], 0) 0))).1 key
    = rows_for key (omap op_candle example_ops)).
Proof.
  split; [reflexivity|].
  destruct (@candles_conserved _ TestWorld (TestWorld_S3World (λ n, negb (Nat.eqb n 1))) _
    example_config ([], 0) 0 example_ops Background eq_refl) as (_ & log & _ & Hk).
  exists log. intros key. destruct (Hk key) as [E _]. exact E.
Defined.

Definition example_final : Writer TestWorld :=
  @run_ops _ TestWorld (TestWorld_S3World (λ n, negb (Nat.eqb n 1))) _ example_ops
    (mkWriter example_config ∅ ([], 0) 0).

Lemma uploads_partitioned_witness :
  clean_dir (TrimSuffix (Prefix example_config) "/") = "dex/"
  ∧ ∃ call, call ∈ @uploads TestWorld (TestWorld_S3World (λ n, negb (Nat.eqb n 1))) (uploader example_final)
  ∧ ∃ timeframe scope rows, @pq_read example_codec (up_Body call.1) = Some rows
    ∧ Forall (λ r, cr_Timeframe r = timeframe ∧ cr_Scope r = scope) rows.
Proof.
  split; [vm_compute; reflexivity|].
  assert (∃ call, call ∈ @uploads TestWorld (TestWorld_S3World (λ n, negb (Nat.eqb n 1)))
    (uploader example_final)) as [call Hin].
  { destruct (@uploads TestWorld (TestWorld_S3World (λ n, negb (Nat.eqb n 1))) (uploader example_final))
      as [|call l] eqn:E; [vm_compute in E; discriminate E|exists call; left]. }
  exists call. split; [exact Hin|].
  destruct (@uploads_partitioned _ TestWorld (TestWorld_S3World (λ n, negb (Nat.eqb n 1))) _
    example_config ([], 0) 0 example_ops call eq_refl Hin) as (tf & sc & rows & t1 & t2 & Hr & _ & Hf & _).
  exists tf, sc, rows. split; [exact Hr|exact Hf].
Defined.

Definition example_marshal : ProtoMarshal := Sample_ProtoMarshal [] [] example_candles.
Definition example_unmarshal : @ProtoUnmarshal example_marshal :=
  Sample_ProtoUnmarshal [] [] example_candles.
Definition example_msg (i : Z) : NatsMsg :=
  mkNatsMsg "dex.sol.candle.pool.1m" [bchr 3; bchr i] ∅.
Definition example_run (accept : nat → bool) : loop_state (Writer TestWorld) * option error :=
  @Run _ TestWorld (TestWorld_S3World accept) _ example_marshal example_unmarshal Background
    [mkRound Poll_Default (Ok [example_msg 0; example_msg 1]);
     mkRound (Poll_Done (Sentinel "context.Canceled")) (Ok [])] (mkWriter example_config ∅ ([], 0) 0).

Lemma Run_uploads_handled_witness :
  ∃ s log, example_run (λ _, true) = (s, Some (Sentinel "context.Canceled"))
  ∧ (∀ key, accepted key log ++ buffered (ls_sink s) key
            = rows_for key (omap (@msg_candle example_marshal example_unmarshal)
                              [example_msg 0; example_msg 1])).
Proof.
  pose proof (@Run_uploads_handled _ TestWorld (TestWorld_S3World (λ _, true)) _ example_marshal
    example_unmarshal Background example_config ([], 0) 0
    [mkRound Poll_Default (Ok [example_msg 0; example_msg 1]);
     mkRound (Poll_Done (Sentinel "context.Canceled")) (Ok [])] eq_refl) as HR.
  unfold example_run. destruct (Run _ _ _) as [s ended] eqn:E.
  assert (ended = Some (Sentinel "context.Canceled")
    ∧ event_msg <$> ls_trace s = [example_msg 0; example_msg 1]) as [-> Hm].
  { split; [apply (f_equal snd) in E|apply (f_equal (λ x, event_msg <$> ls_trace x.1)) in E];
      simpl in E; rewrite <- E; vm_compute; reflexivity. }
  destruct HR as (log & _ & Hk & _). rewrite Hm in Hk. exists s, log. split; [reflexivity|exact Hk].
Defined.

(** A row is lost when the message was acknowledged and the last flush fails. *)
Lemma Run_loses_acked_candles :
  omap acked (ls_trace (example_run (λ _, false)).1) = [example_msg 0; example_msg 1]
  ∧ (@uploads TestWorld (TestWorld_S3World (λ _, false))
       (uploader (ls_sink (example_run (λ _, false)).1))).*2 = [false].
Proof. split; vm_compute; reflexivity. Qed.

(** A timeframe with a ['|'] is cut in the object name. *)
Lemma objectName_cut :
  let '(tf, sc) := splitBucketKey (bucketKey "1|m" "pool") in
  objectName example_config tf sc 0 1 = "dex/timeframe=1/scope=m|pool/date=1970-01-01/candles-1.parquet".
Proof. vm_compute. reflexivity. Qed.
End witnesses.
