(* ===== verification/GeyserConfig.v ===== *)
(** * Geyser client configuration

    [ingestor/geyser/config.go]: loading, validation, and the form shown in logs.
    File access and YAML are arguments; the filters are a Go map. *)

From S2P Require Import Prelude GoStrings Bytes.
Local Open Scope list_scope.

Record Config := mkConfig {
  Endpoint : string;
  APIKey : string;
  ProgramFilters : gmap string string;
}.

Section config.
Context (ReadFile : string → result (list byte))
  (Unmarshal : list byte → result (gmap string string)).

Definition loadProgramFilters (path : string) : result (gmap string string) :=
  data ← wrap_err "failed to read programs file: %w" [] (ReadFile path);
  wrap_err "failed to parse programs YAML: %w" [] (Unmarshal data).

Definition LoadConfig (env : string → string) (programsYAMLPath : string) : result Config :=
  let cfg := mkConfig (env "GEYSER_ENDPOINT") (env "GEYSER_API_KEY") ∅ in
  if bool_decide (programsYAMLPath ≠ "") then
    filters ← wrap_err "failed to load program filters: %w" [] (loadProgramFilters programsYAMLPath);
    Ok (mkConfig (Endpoint cfg) (APIKey cfg) filters)
  else Ok cfg.
End config.

(** The messages of one program filter. *)
Definition filterErrors (entry : string * string) : list string :=
  let '(name, programID) := entry in
  (if bool_decide (programID = "")
   then ["program filter '" +:+ name +:+ "' has empty program ID"] else [])
  ++ (if decide (slen programID < 32 ∨ 44 < slen programID)%nat
      then ["program filter '" +:+ name +:+ "' has invalid program ID length: " +:+ programID]
      else []).

Definition Validate `{!RangeOrder string string} (c : Config) : result () :=
  let errors :=
    (if bool_decide (Endpoint c = "") then ["GEYSER_ENDPOINT is required"] else [])
    ++ (if bool_decide (APIKey c = "") then ["GEYSER_API_KEY is required"] else [])
    ++ (if decide (size (ProgramFilters c) = 0)%nat
        then ["at least one program filter is required"] else [])
    ++ concat (filterErrors <$> range_entries (ProgramFilters c)) in
  match errors with
  | [] => Ok tt
  | _ => Err (Errorf "configuration validation failed: %s" [FStrs errors])
  end.

(** The key shown by [String]. *)
Definition maskedKey (key : string) : string :=
  if decide (8 < slen key)%nat
  then str_take 4 key +:+ "****" +:+ str_drop (slen key - 4) key
  else if bool_decide (key ≠ "") then "****" else "".

Definition String_ `{!RangeOrder string string} (c : Config) : string :=
  let programs := (λ '(name, id), name +:+ "=" +:+ id) <$> range_entries (ProgramFilters c) in
  "Config{Endpoint=" +:+ Endpoint c +:+ ", APIKey=" +:+ maskedKey (APIKey c) +:+ ", Programs=["
  +:+ String.concat ", " programs +:+ "]}".

(** [Validate] accepts the same configurations in every map order. *)
Lemma Validate_ok `{!RangeOrder string string} (c : Config) :
  Validate c = Ok tt ↔
  Endpoint c ≠ "" ∧ APIKey c ≠ "" ∧ ProgramFilters c ≠ ∅
  ∧ ∀ name id, ProgramFilters c !! name = Some id → (32 <= slen id <= 44)%nat.
Proof.
  unfold Validate. set (errs := _ ++ _ ++ _ ++ _).
  transitivity (errs = []); [by destruct errs|]. unfold errs.
  rewrite !app_nil. repeat f_equiv.
  - case_bool_decide; naive_solver.
  - case_bool_decide; naive_solver.
  - pose proof (map_size_empty_iff (ProgramFilters c)). case_decide; naive_solver.
  - rewrite concat_nil_Forall, Forall_fmap, Forall_forall. split.
    + intros H name id Hid%elem_of_range_entries. apply H in Hid. simpl in Hid.
      apply app_nil in Hid as [_ Hid]. case_decide; [done|lia].
    + intros H [name id] Hin%elem_of_range_entries%H. simpl.
      rewrite decide_False, app_nil_r by lia. case_bool_decide; [|done].
      subst. unfold slen in Hin. simpl in Hin. lia.
Qed.
