(* ===== verification/HeliusConfig.v ===== *)
(** * Helius client configuration

    [ingestor/helius/config.go]: defaults, environment and validation. *)

From S2P Require Import Prelude GoStrings Bytes Publisher.
Local Open Scope list_scope.

Record Config := mkConfig {
  GRPCEndpoint : string;
  WSEndpoint : string;
  APIKey : string;
  RequestTimeout : Z;
  ReconnectBackoff : Z;
  ReplaySlots : Z;
  ProgramFilters : gmap string string;
}.

Definition DefaultConfig : Config :=
  mkConfig "" "" "" (10000 * Millisecond) (5000 * Millisecond) 64 ∅.

(** A nil configuration is [None]. *)
Definition Validate (c : option Config) : result () :=
  match c with
  | None => Err (Errorf "config is nil" [])
  | Some c =>
    let missing :=
      (if bool_decide (GRPCEndpoint c = "") then ["GRPCEndpoint"] else [])
      ++ (if bool_decide (WSEndpoint c = "") then ["WSEndpoint"] else [])
      ++ (if bool_decide (APIKey c = "") then ["APIKey"] else []) in
    match missing with
    | [] =>
      if RequestTimeout c <=? 0 then
        Err (Errorf "invalid RequestTimeout: %s" [FInt (RequestTimeout c)])
      else if ReconnectBackoff c <=? 0 then
        Err (Errorf "invalid ReconnectBackoff: %s" [FInt (ReconnectBackoff c)])
      else if ReplaySlots c =? 0 then Err (Errorf "ReplaySlots must be >= 1" [])
      else Ok tt
    | _ => Err (Errorf "missing required Helius config fields: %v" [FStrs missing])
    end
  end.

(** A setting that must parse and is used when positive. *)
Definition envPositive (env : string → string) (name : string) (conv : Z → Z) (fallback : Z) :
    result Z :=
  if bool_decide (env name ≠ "") then
    match Atoi (env name) with
    | Ok n => Ok (if 0 <? n then conv n else fallback)
    | Err err => Err (Wrapf "invalid %s: %w" [FStr name] err)
    end
  else Ok fallback.

(** The configuration is nil when a setting does not parse. *)
Definition FromEnv (env : string → string) : option Config * result () :=
  let d := DefaultConfig in
  match
    timeout ← envPositive env "HELIUS_TIMEOUT_MS" (λ ms, i64 (ms * Millisecond)) (RequestTimeout d);
    backoff ← envPositive env "HELIUS_BACKOFF_MS" (λ ms, i64 (ms * Millisecond)) (ReconnectBackoff d);
    slots ← envPositive env "HELIUS_REPLAY_SLOTS" u64 (ReplaySlots d);
    Ok (mkConfig (env "HELIUS_GRPC") (env "HELIUS_WS") (env "HELIUS_API_KEY") timeout backoff slots ∅)
  with
  | Err e => (None, Err e)
  | Ok cfg => (Some cfg, Validate (Some cfg))
  end.

