(* ===== verification/Streams.v ===== *)
(** * Stream clients

    [ingestor/geyser/client.go] and [ingestor/helius/stream_client.go]: the
    subscription requests and the
    goroutine that subscribes, forwards updates and reconnects with a replay
    window. The two clients share their code up to the window, the wait between
    attempts and the reading of slots, which are the arguments of [stream_loop].
    gRPC is third-party: a subscription is driven by what the streams deliver and
    by when the context is seen cancelled. The trace of the loop is a history. *)

From S2P Require Import Prelude GoStrings Bytes Proto.
From S2P Require Import GeyserConfig HeliusConfig.
Local Open Scope list_scope.

(** ** Subscription requests *)

Inductive CommitmentLevel := PROCESSED | CONFIRMED | FINALIZED.

Record FilterAccounts := mkFilterAccounts { fa_Account : list string; fa_Owner : list string }.
Record FilterTransactions := mkFilterTransactions { ft_AccountInclude : list string }.

(** [pb.SubscribeRequest]; the slot and block meta filters are empty messages, and
    the filters of statuses, entries, blocks and data slices are never set. *)
Record SubscribeRequest := mkRequest {
  rq_Slots : list string;
  rq_Accounts : gmap string FilterAccounts;
  rq_Transactions : gmap string FilterTransactions;
  rq_BlocksMeta : list string;
  rq_Commitment : CommitmentLevel;
  rq_FromSlot : Z;
}.

Section requests.
Context `{!RangeOrder string string}.

(** One account filter per program, its owner the program. *)
Definition accountFilters (filters : gmap string string) : gmap string FilterAccounts :=
  foldl (λ accounts '(name, programID), <[name := mkFilterAccounts [] [programID]]> accounts) ∅
    (range_entries filters).

Definition geyser_buildSubscribeRequest (c : GeyserConfig.Config) (startSlot : Z) : SubscribeRequest :=
  mkRequest ["client"] (accountFilters (GeyserConfig.ProgramFilters c)) ∅ ["client"] CONFIRMED startSlot.

Definition helius_buildSubscribeRequest (c : HeliusConfig.Config) (startSlot : Z) : SubscribeRequest :=
  mkRequest ["client"] (accountFilters (HeliusConfig.ProgramFilters c))
    {["programs" := mkFilterTransactions (range_entries (HeliusConfig.ProgramFilters c)).*2]}
    ["client"] CONFIRMED startSlot.
End requests.

(** ** Slots of updates *)

(** [None] is the panic of a nil message. *)
Definition extractSlotFromUpdate (update : SubscribeUpdate) : option Z :=
  match update with
  | U_Slot u => us_Slot <$> u
  | U_Account u => ua_Slot <$> u
  | U_Transaction u => ut_Slot <$> u
  | U_Block slot => Some slot
  | U_BlockMeta u => bm_Slot <$> u
  | U_Ping | U_Other => Some 0
  end.

(** With getters, which read a nil message as zero. *)
Definition extractSlot (update : SubscribeUpdate) : Z :=
  match update with
  | U_Slot u => default 0 (us_Slot <$> u)
  | U_Account u => default 0 (ua_Slot <$> u)
  | U_Transaction u => default 0 (ut_Slot <$> u)
  | U_Block slot => slot
  | U_BlockMeta u => default 0 (bm_Slot <$> u)
  | U_Ping | U_Other => 0
  end.

(** ** The subscription goroutine *)

Inductive recv := R_Update (u : SubscribeUpdate) | R_EOF | R_Err (err : error).

(** One turn of [processStream]: whether the context is seen cancelled before the
    receive, what is received, whether it is seen cancelled instead of forwarding. *)
Record stream_turn := mkTurn { tn_done : bool; tn_recv : recv; tn_doneSend : bool }.

(** One turn of [subscribeLoop]: whether the context is seen cancelled, the errors
    of [Subscribe] and [Send], the turns of the stream, and whether the context is
    seen cancelled during the wait. *)
Record attempt := mkAttempt {
  at_done : bool;
  at_subscribe : option error;
  at_send : option error;
  at_turns : list stream_turn;
  at_doneWait : bool;
}.

Inductive stream_event :=
  | T_Request (from : Z)
  | T_Recv (u : SubscribeUpdate)
  | T_Forward (u : SubscribeUpdate)
  | T_Error (err : error).

Inductive status := Running | Returned | Panicked.

(** The errors a client wraps its failures in. *)
Record client_errors := mkErrors { er_subscribe : string; er_send : string; er_recv : string }.

Section loop.
Context (window : Z) (waitCancellable : bool) (extract : SubscribeUpdate → option Z)
  (errors : client_errors).

(** The trace, the last slot and how it ended: [Running] when the turns are used
    up. [err == io.EOF] is [R_EOF]. *)
Fixpoint processStream (turns : list stream_turn) (lastSlot : Z) :
    list stream_event * Z * status :=
  match turns with
  | [] => ([], lastSlot, Running)
  | tn :: rest =>
    if tn_done tn then ([], lastSlot, Returned)
    else match tn_recv tn with
    | R_EOF => ([], lastSlot, Returned)
    | R_Err err => ([T_Error (Wrapf (er_recv errors) [] err)], lastSlot, Returned)
    | R_Update update =>
      match extract update with
      | None => ([T_Recv update], lastSlot, Panicked)
      | Some slot =>
        let lastSlot := if lastSlot <? slot then slot else lastSlot in
        if tn_doneSend tn then ([T_Recv update], lastSlot, Returned)
        else
          let '(tr, last, st) := processStream rest lastSlot in
          (T_Recv update :: T_Forward update :: tr, last, st)
      end
    end
  end.

Definition replaySlot (currentSlot : Z) : Z :=
  if window <? currentSlot then u64 (currentSlot - window) else currentSlot.

(** After a failed or finished stream: wait, then the next turn [k]. *)
Definition wait_then (done : bool) (k : list stream_event * Z * status) (current : Z) :
    list stream_event * Z * status :=
  if done && waitCancellable then ([], current, Returned) else k.

Definition prepend (tr : list stream_event) (r : list stream_event * Z * status) :
    list stream_event * Z * status :=
  let '(tr', slot, st) := r in (tr ++ tr', slot, st).

Fixpoint stream_loop (attempts : list attempt) (currentSlot : Z) :
    list stream_event * Z * status :=
  match attempts with
  | [] => ([], currentSlot, Running)
  | at_ :: rest =>
    if at_done at_ then ([], currentSlot, Returned)
    else
      let from := replaySlot currentSlot in
      match at_subscribe at_ with
      | Some err =>
        prepend [T_Error (Wrapf (er_subscribe errors) [] err)]
          (wait_then (at_doneWait at_) (stream_loop rest currentSlot) currentSlot)
      | None =>
        match at_send at_ with
        | Some err =>
          prepend [T_Error (Wrapf (er_send errors) [] err)]
            (wait_then (at_doneWait at_) (stream_loop rest currentSlot) currentSlot)
        | None =>
          let '(tr, lastSlot, st) := processStream (at_turns at_) 0 in
          let current := if currentSlot <? lastSlot then lastSlot else currentSlot in
          match st with
          | Returned =>
            prepend (T_Request from :: tr)
              (wait_then (at_doneWait at_) (stream_loop rest current) current)
          | _ => (T_Request from :: tr, current, st)
          end
        end
      end
  end.
End loop.

Definition ReplaySlotWindow : Z := 64.

Definition geyser_errors : client_errors :=
  mkErrors "subscribe failed: %w" "send request failed: %w" "stream recv failed: %w".
Definition helius_errors : client_errors :=
  mkErrors "helius subscribe failed: %w" "helius send subscribe request failed: %w"
    "helius stream recv failed: %w".

(** [processStream] of the second client. *)
Definition helius_processStream : list stream_turn → Z → list stream_event * Z * status :=
  processStream (λ u, Some (extractSlot u)) helius_errors.

Definition geyser_subscribeLoop : list attempt → Z → list stream_event * Z * status :=
  stream_loop ReplaySlotWindow true extractSlotFromUpdate geyser_errors.
Definition helius_subscribeLoop (c : HeliusConfig.Config) :
    list attempt → Z → list stream_event * Z * status :=
  stream_loop (HeliusConfig.ReplaySlots c) false (λ u, Some (extractSlot u)) helius_errors.

(** ** Lemmas on requests *)

Section request_lemmas.
Context `{!RangeOrder string string}.

Lemma accountFilters_lookup filters name :
  accountFilters filters !! name = (λ id, mkFilterAccounts [] [id]) <$> filters !! name.
Proof.
  unfold accountFilters.
  assert (∀ l (acc : gmap string FilterAccounts), NoDup l.*1 → ∀ x : string,
    foldl (λ accounts '(name, programID), <[name := mkFilterAccounts [] [programID]]> accounts) acc l !! x
    = match (list_to_map l : gmap string string) !! x with
      | Some id => Some (mkFilterAccounts [] [id])
      | None => acc !! x
      end) as Hl.
  { induction l as [|[k id] l IH]; intros acc Hd x; [done|].
    rewrite fmap_cons in Hd. apply NoDup_cons in Hd as [Hn Hd]. simpl. rewrite IH by done.
    destruct (decide (x = k)) as [->|Hne].
    - rewrite lookup_insert_eq, not_elem_of_list_to_map_1 by done. by rewrite lookup_insert_eq.
    - by rewrite !lookup_insert_ne by done. }
  rewrite Hl by apply NoDup_range_entries.
  rewrite (list_to_map_proper _ (map_to_list filters)), list_to_map_to_list;
    [|apply NoDup_range_entries|apply range_entries_perm].
  rewrite lookup_empty. by destruct (filters !! name).
Qed.
End request_lemmas.

(** ** Lemmas on the loop *)

Section loop_lemmas.
Context (window : Z) (waitCancellable : bool) (extract : SubscribeUpdate → option Z)
  (errors : client_errors).
Notation process := (processStream extract errors).
Notation loop := (stream_loop window waitCancellable extract errors).

Definition slot_of (u : SubscribeUpdate) : Z := default 0 (extract u).

(** The largest slot among [start] and the updates received. *)
Definition max_slot (start : Z) (tr : list stream_event) : Z :=
  foldl (λ m e, match e with T_Recv u => Z.max m (slot_of u) | _ => m end) start tr.

Lemma max_slot_app start t1 t2 : max_slot start (t1 ++ t2) = max_slot (max_slot start t1) t2.
Proof. apply foldl_app. Qed.
Lemma max_slot_max start m tr : max_slot (Z.max start m) tr = Z.max (max_slot start tr) m.
Proof.
  revert start m. induction tr as [|e tr IH]; intros start m; [done|]. simpl.
  destruct e; try apply IH. rewrite <- IH. f_equal. lia.
Qed.
Lemma max_slot_ge start tr : start <= max_slot start tr.
Proof.
  revert start. induction tr as [|e tr IH]; intros start; simpl; [done|].
  destruct e; try apply IH. etrans; [|apply IH]. lia.
Qed.

(** [Q] of every update received. *)
Definition recv_all (Q : SubscribeUpdate → Prop) (tr : list stream_event) : Prop :=
  Forall (λ e, match e with T_Recv u => Q u | _ => True end) tr.
(** [Q] of every update that the streams of an attempt deliver. *)
Definition delivers (Q : SubscribeUpdate → Prop) (a : attempt) : Prop :=
  Forall (λ tn, match tn_recv tn with R_Update u => Q u | _ => True end) (at_turns a).

Lemma max_slot_u64 start tr :
  is_u64 start → recv_all (λ u, is_u64 (slot_of u)) tr → is_u64 (max_slot start tr).
Proof.
  intros Hs Htr. revert start Hs. induction Htr as [|e tr He _ IH]; intros start Hs; [done|].
  simpl. apply IH. destruct e; try done. unfold is_u64 in *. lia.
Qed.

Lemma processStream_recv Q turns last :
  Forall (λ tn, match tn_recv tn with R_Update u => Q u | _ => True end) turns →
  recv_all Q (process turns last).1.1.
Proof.
  unfold recv_all. intros Ht. revert last.
  induction Ht as [|tn rest Hu _ IH]; intros last; cbn [processStream]; [constructor|].
  destruct (tn_done tn); [constructor|]. destruct (tn_recv tn) as [u| |err]; [|by repeat constructor..].
  destruct (extract u) as [slot|]; [|by repeat constructor].
  destruct (tn_doneSend tn); [by repeat constructor|].
  specialize (IH (if last <? slot then slot else last)).
  destruct (process rest _) as [[tr last'] st]. by repeat constructor.
Qed.

Lemma prepend_recv Q tr r : recv_all Q tr → recv_all Q r.1.1 → recv_all Q (prepend tr r).1.1.
Proof. destruct r as [[tr' slot] st]. intros. by apply Forall_app. Qed.
Lemma wait_then_recv Q done_ k current :
  recv_all Q k.1.1 → recv_all Q (wait_then waitCancellable done_ k current).1.1.
Proof. unfold wait_then. destruct (done_ && waitCancellable); [by constructor|done]. Qed.

(** What is received was delivered. *)
Lemma stream_loop_recv Q attempts current :
  Forall (delivers Q) attempts → recv_all Q (loop attempts current).1.1.
Proof.
  intros Ha. revert current. induction Ha as [|a rest Ht _ IH]; intros current; [constructor|].
  cbn [stream_loop]. destruct (at_done a); [constructor|].
  destruct (at_subscribe a) as [err|]; [apply prepend_recv; [by repeat constructor|by apply wait_then_recv]|].
  destruct (at_send a) as [err|]; [apply prepend_recv; [by repeat constructor|by apply wait_then_recv]|].
  pose proof (processStream_recv Q (at_turns a) 0 Ht) as Hp.
  destruct (process (at_turns a) 0) as [[tr last] st]. simpl in Hp. destruct st; simpl.
  - by constructor.
  - apply (prepend_recv Q (T_Request _ :: tr)); [by constructor|by apply wait_then_recv].
  - by constructor.
Qed.

(** Every request asks for the replay slot of the largest slot received before. *)
Fixpoint requests_ok (current : Z) (tr : list stream_event) : Prop :=
  match tr with
  | [] => True
  | T_Request from :: tr => from = replaySlot window current ∧ requests_ok current tr
  | T_Recv u :: tr => requests_ok (Z.max current (slot_of u)) tr
  | _ :: tr => requests_ok current tr
  end.

Lemma requests_ok_app current t1 t2 :
  requests_ok current (t1 ++ t2) ↔ requests_ok current t1 ∧ requests_ok (max_slot current t1) t2.
Proof.
  revert current. induction t1 as [|e t1 IH]; intros current; simpl; [tauto|].
  destruct e; rewrite ?IH; tauto.
Qed.

Definition received (tr : list stream_event) : list SubscribeUpdate :=
  omap (λ e, match e with T_Recv u => Some u | _ => None end) tr.
Definition forwarded (tr : list stream_event) : list SubscribeUpdate :=
  omap (λ e, match e with T_Forward u => Some u | _ => None end) tr.

(** No update was dropped because the context was cancelled. *)
Definition no_drop (turns : list stream_turn) : Prop := Forall (λ tn, tn_doneSend tn = false) turns.

(** One stream: its last slot is the largest received, it makes no request, and it
    forwards what it receives, in order. *)
Lemma processStream_run turns last :
  0 <= last →
  let '(tr, last', st) := process turns last in
  last' = max_slot last tr ∧ (∀ current, requests_ok current tr)
  ∧ (forwarded tr `sublist_of` received tr)
  ∧ (no_drop turns → st ≠ Panicked → forwarded tr = received tr).
Proof.
  revert last. induction turns as [|tn rest IH]; intros last Hl; [done|]. cbn [processStream].
  destruct (tn_done tn); [done|].
  destruct (tn_recv tn) as [u| |err]; [|done|done].
  destruct (extract u) as [slot|] eqn:Hs; cycle 1.
  { simpl. unfold slot_of. rewrite Hs. simpl. split_and!; [lia|done|by repeat constructor|done]. }
  assert ((if last <? slot then slot else last) = Z.max last (slot_of u)) as ->.
  { unfold slot_of. rewrite Hs. simpl. destruct (Z.ltb_spec last slot); lia. }
  destruct (tn_doneSend tn) eqn:Hd.
  { simpl. split_and!; [done|done|by repeat constructor|].
    intros Hn _. apply Forall_cons in Hn as [Hn _]. congruence. }
  specialize (IH (Z.max last (slot_of u)) ltac:(lia)).
  destruct (process rest (Z.max last (slot_of u))) as [[tr last'] st].
  destruct IH as (-> & Hr & Hsub & Hall). simpl. split_and!; [done|done|by constructor|].
  intros Hn Hp. apply Forall_cons in Hn as [_ Hn]. by rewrite Hall.
Qed.

Lemma forwarded_app t1 t2 : forwarded (t1 ++ t2) = forwarded t1 ++ forwarded t2.
Proof. apply omap_app. Qed.
Lemma received_app t1 t2 : received (t1 ++ t2) = received t1 ++ received t2.
Proof. apply omap_app. Qed.

(** What the whole loop keeps, for a current slot. *)
Definition loop_ok (attempts : list attempt) (current : Z) (r : list stream_event * Z * status) : Prop :=
  let '(tr, slot, st) := r in
  slot = max_slot current tr ∧ requests_ok current tr
  ∧ forwarded tr `sublist_of` received tr
  ∧ (Forall (λ a, no_drop (at_turns a)) attempts → st ≠ Panicked → forwarded tr = received tr).

Lemma loop_ok_wait a rest done_ current k :
  loop_ok rest current k →
  loop_ok (a :: rest) current (wait_then waitCancellable done_ k current).
Proof.
  intros Hk. unfold wait_then. destruct (done_ && waitCancellable); [by repeat split|].
  destruct k as [[tr slot] st]. destruct Hk as (Hs & Hr & Hf & Ha). split_and!; [done..|].
  intros Hn. apply Forall_cons in Hn as [_ Hn]. auto.
Qed.

Lemma loop_ok_prepend a rest current t1 k :
  requests_ok current t1 → forwarded t1 `sublist_of` received t1 →
  (no_drop (at_turns a) → forwarded t1 = received t1) →
  loop_ok (a :: rest) (max_slot current t1) k → loop_ok (a :: rest) current (prepend t1 k).
Proof.
  intros H1 Hf1 Ha1. destruct k as [[tr slot] st]. intros (Hs & Hr & Hf & Ha). simpl.
  rewrite max_slot_app, requests_ok_app, forwarded_app, received_app.
  split_and!; [done|done|done|by apply sublist_app|].
  intros Hn Hp. rewrite Ha by done. apply Forall_cons in Hn as [Hn _]. by rewrite Ha1.
Qed.

Lemma stream_loop_ok attempts current :
  0 <= current → loop_ok attempts current (loop attempts current).
Proof.
  revert current. induction attempts as [|a rest IH]; intros current Hc; [by repeat split|].
  cbn [stream_loop]. destruct (at_done a); [by repeat split|].
  destruct (at_subscribe a) as [err|].
  { by apply loop_ok_prepend; [done|done|done|apply loop_ok_wait, IH]. }
  destruct (at_send a) as [err|].
  { by apply loop_ok_prepend; [done|done|done|apply loop_ok_wait, IH]. }
  pose proof (processStream_run (at_turns a) 0 ltac:(lia)) as Hp.
  destruct (process (at_turns a) 0) as [[tr last] st]. destruct Hp as (-> & Hr & Hf & Ha).
  assert ((if current <? max_slot 0 tr then max_slot 0 tr else current) = max_slot current tr) as ->.
  { replace (max_slot current tr) with (max_slot (Z.max 0 current) tr) by (f_equal; lia).
    rewrite max_slot_max. destruct (Z.ltb_spec current (max_slot 0 tr)); lia. }
  pose proof (max_slot_ge current tr) as Hge.
  assert (∀ st', (st' = Running ∨ st' = Panicked) → st = st' →
    loop_ok (a :: rest) current (T_Request (replaySlot window current) :: tr, max_slot current tr, st)) as Hend.
  { intros st' Hst' ->. split_and!; [done|simpl; split; [done|apply Hr]|done|].
    intros Hn Hp. apply Forall_cons in Hn as [Hn _]. by apply Ha. }
  destruct st; [by apply (Hend Running); auto| |by apply (Hend Panicked); auto].
  change (T_Request ?f :: tr) with ([T_Request f] ++ tr).
  apply loop_ok_prepend.
  - simpl. split; [done|apply Hr].
  - done.
  - intros Hn. by apply Ha.
  - simpl. apply loop_ok_wait, IH. lia.
Qed.

Lemma requests_ok_at current pre from post :
  requests_ok current (pre ++ T_Request from :: post) → from = replaySlot window (max_slot current pre).
Proof. rewrite requests_ok_app. by intros [_ [-> _]]. Qed.
End loop_lemmas.

(** ** Properties *)

(** Both clients read the same slot of an update, as far as they read one. *)
Lemma slot_of_geyser u : slot_of extractSlotFromUpdate u = extractSlot u.
Proof. unfold slot_of. by destruct u as [[]|[]|[]|[]| | |]. Qed.

(** The largest of [start] and the slots of the updates received. *)
Definition latest (start : Z) (tr : list stream_event) : Z :=
  max_slot (λ u, Some (extractSlot u)) start tr.
Lemma latest_geyser start tr : max_slot extractSlotFromUpdate start tr = latest start tr.
Proof.
  unfold latest. revert start. induction tr as [|e tr IH]; intros start; [done|].
  cbn [max_slot foldl]. destruct e; try apply IH. rewrite slot_of_geyser. apply IH.
Qed.

(** What a run of a client with a replay window does. *)
Definition replays (window start : Z) (attempts : list attempt)
    (r : list stream_event * Z * status) : Prop :=
  let '(tr, slot, st) := r in
  slot = latest start tr
  ∧ (∀ pre from post, tr = pre ++ T_Request from :: post →
     let m := latest start pre in
     from <= m ∧ (window < m → from = m - window) ∧ (m <= window → from = m))
  ∧ forwarded tr `sublist_of` received tr
  ∧ (Forall (λ a, no_drop (at_turns a)) attempts → st ≠ Panicked → forwarded tr = received tr).

Lemma stream_loop_replays window cancellable extract errors attempts start :
  (∀ u, slot_of extract u = extractSlot u) → (∀ st tr, max_slot extract st tr = latest st tr) →
  0 <= window → is_u64 start → Forall (delivers (λ u, is_u64 (extractSlot u))) attempts →
  replays window start attempts (stream_loop window cancellable extract errors attempts start).
Proof.
  intros Hex Hmax Hw Hs Ha.
  pose proof (stream_loop_ok window cancellable extract errors attempts start (proj1 Hs)) as Hl.
  pose proof (stream_loop_recv window cancellable extract errors _ attempts start Ha) as Hu.
  destruct (stream_loop _ _ _ _ _ _) as [[tr slot] st]. destruct Hl as (-> & Hr & Hf & Hall).
  split_and!; [apply Hmax| |done|done].
  intros pre from post ->. apply requests_ok_at in Hr. rewrite Hmax in Hr. intros m. subst from.
  unfold replaySlot. fold m. assert (is_u64 m) as Hm.
  { unfold m. rewrite <- Hmax. apply max_slot_u64; [done|]. apply Forall_app in Hu as [Hu _].
    eapply Forall_impl; [exact Hu|]. intros []; try done. by rewrite Hex. }
  unfold is_u64 in Hm. destruct (Z.ltb_spec window m).
  - rewrite u64_small by (unfold is_u64; lia). split_and!; [lia|done|lia].
  - split_and!; lia.
Qed.

(** C28. A subscription of either client from [start], with any streams of updates
    whose slots are 64-bit, any errors and cancellations: every request it sends
    asks for the slot that lies the replay window of the client (64 slots, or
    [ReplaySlots]) below the largest slot received so far, [start] included, or for
    that largest slot itself when it is not above the window. So an update received
    within the window is asked for again. Updates are forwarded in the order
    received, each once, and all of them while the context is not cancelled and no
    nil message ends the process. *)
Theorem reconnect_replays attempts start :
  is_u64 start → Forall (delivers (λ u, is_u64 (extractSlot u))) attempts →
  replays ReplaySlotWindow start attempts (geyser_subscribeLoop attempts start)
  ∧ ∀ c, is_u64 (HeliusConfig.ReplaySlots c) →
    replays (HeliusConfig.ReplaySlots c) start attempts (helius_subscribeLoop c attempts start).
Proof.
  intros Hs Ha. split.
  - by apply stream_loop_replays; [apply slot_of_geyser|apply latest_geyser|..].
  - intros c [Hc _]. by apply stream_loop_replays.
Qed.

Definition example_turn (slot : Z) : stream_turn :=
  mkTurn false (R_Update (U_Slot (Some (mkUpdateSlot slot SLOT_FINALIZED)))) false.
Definition example_attempts : list attempt :=
  [mkAttempt false None None [example_turn 1000; example_turn 1003; mkTurn false R_EOF false] false;
   mkAttempt false (Some (Sentinel "unavailable")) None [] false;
   mkAttempt false None None [example_turn 950] false].

Lemma reconnect_replays_witness :
  geyser_subscribeLoop example_attempts 900
  = ((geyser_subscribeLoop example_attempts 900).1.1, 1003, Running)
  ∧ T_Request 939 ∈ (geyser_subscribeLoop example_attempts 900).1.1
  ∧ replays ReplaySlotWindow 900 example_attempts (geyser_subscribeLoop example_attempts 900)
  ∧ replays 150 900 example_attempts
      (helius_subscribeLoop (HeliusConfig.mkConfig "g" "w" "k" 1 1 150 ∅) example_attempts 900).
Proof.
  split; [vm_compute; reflexivity|]. split; [vm_compute; do 6 right; left|].
  destruct (reconnect_replays example_attempts 900) as [Hg Hh].
  - unfold is_u64. lia.
  - repeat constructor; vm_compute; congruence.
  - split; [exact Hg|]. apply (Hh (HeliusConfig.mkConfig "g" "w" "k" 1 1 150 ∅)).
    unfold is_u64. simpl. lia.
Defined.

(** The requests of both clients watch the accounts owned by every configured
    program, whatever the order of the map. That of the Helius client also asks for
    the transactions of exactly those programs; that of the Geyser client has no
    transaction filter, and so asks for no transaction. *)
Theorem request_filters `{!RangeOrder string string} (g : GeyserConfig.Config) (h : HeliusConfig.Config) slot :
  (∀ name, rq_Accounts (geyser_buildSubscribeRequest g slot) !! name
           = (λ id, mkFilterAccounts [] [id]) <$> GeyserConfig.ProgramFilters g !! name)
  ∧ (∀ name, rq_Accounts (helius_buildSubscribeRequest h slot) !! name
             = (λ id, mkFilterAccounts [] [id]) <$> HeliusConfig.ProgramFilters h !! name)
  ∧ rq_Transactions (geyser_buildSubscribeRequest g slot) = ∅
  ∧ (∃ f, rq_Transactions (helius_buildSubscribeRequest h slot) = {["programs" := f]}
     ∧ ∀ id, id ∈ ft_AccountInclude f ↔ ∃ name, HeliusConfig.ProgramFilters h !! name = Some id)
  ∧ rq_FromSlot (geyser_buildSubscribeRequest g slot) = slot
  ∧ rq_FromSlot (helius_buildSubscribeRequest h slot) = slot.
Proof.
  split_and!; [intros; apply accountFilters_lookup..|done| |done|done].
  eexists. split; [reflexivity|]. intros id. apply elem_of_range_values.
Qed.

