(* ===== verification/Failover.v ===== *)
(** * Geyser service and failover

    [ingestor/geyser/service.go] and [failover_service.go]: the loops that feed the
    updates of a client to the processor, and the loop that switches between the
    primary and the fallback client. [ClientInterface] is the Go interface; its
    instances are the clients of [Streams], over any gRPC transport ([Grpc]). What
    a [select] takes among its ready cases is decided by the environment (a list of
    [pick]s), so the theorems hold for every choice. The metrics server is here for
    [Service.Run] and in [Services.v] for [FailoverService.Run]; waits are left out. *)

From S2P Require Import Prelude GoStrings Bytes Publisher SlotCache IngestDecoder Proto.
From S2P Require Import Processor.
From S2P Require Import GeyserConfig HeliusConfig Streams.
Local Open Scope list_scope.

(** ** The interface *)

(** What the two channels of a subscription deliver until the goroutine behind
    them stops, and how it stops: whether it closes them, or panics. A panic ends the
    whole process, at a moment that the scheduler chooses once the goroutine has
    received what makes it panic; it leaves the channels open. *)
Record subscription := mkSubscription {
  sb_updates : list SubscribeUpdate;
  sb_errs : list error;
  sb_closed : bool;
  sb_panics : bool;
}.

Class ClientInterface (C : Type) := {
  Connect_ : M C ();
  Subscribe_ : Z → C → C * subscription;
  Close_ : C → C;
  Name_ : C → string;
}.

(** The case a [select] takes: [<-ctx.Done()], [<-errs], [<-updates]. One that is
    not ready is not taken: the pick is skipped. *)
Inductive pick := P_Done | P_Err | P_Update.

Section loops.
Context {P : Type} (HandleUpdate_ : context → option SubscribeUpdate → M P ()) (ctx : context).

(** The loop of [runClient]: the processor, the updates handed to it, and the
    error returned, [None] while it is running. *)
Fixpoint clientLoop (picks : list pick) (sb : subscription) (p : P) :
    P * list SubscribeUpdate * option error :=
  match picks with
  | [] => (p, [], None)
  | P_Done :: _ => (p, [], Some (Sentinel "context.Canceled"))
  | P_Err :: rest =>
    match sb_errs sb with
    | err :: _ => (p, [], Some err)
    | [] => clientLoop rest sb p (** a closed channel gives nil *)
    end
  | P_Update :: rest =>
    match sb_updates sb with
    | update :: updates =>
      match HandleUpdate_ ctx (Some update) p with
      | (p, Err err) => (p, [update], Some err)
      | (p, Ok _) =>
        let '(p, us, r) := clientLoop rest (mkSubscription updates (sb_errs sb) (sb_closed sb) (sb_panics sb)) p in
        (p, update :: us, r)
      end
    | [] =>
      if sb_closed sb then (p, [], Some (Errorf "update stream closed" []))
      else clientLoop rest sb p
    end
  end.

(** The metrics server and the goroutine that serves it. [Shutdown] makes
    [ListenAndServe] return, so the goroutine ends and closes the channel that
    [shutdownMetrics] waits for. *)
Inductive metrics_server := MS_Idle | MS_Serving | MS_Stopped.
Definition serveMetrics (m : option metrics_server) : option metrics_server := (λ _, MS_Serving) <$> m.
Definition shutdownMetrics (m : option metrics_server) : option metrics_server :=
  (λ _, MS_Stopped) <$> m.

(** The loop of [Service.Run], whose result may be nil: the error returned is
    [Some None] then, and [ctx.Err()] is [ctxErr]. It also gives the metrics server
    after the run. *)
Fixpoint serviceLoop (ctxErr : error) (picks : list pick) (sb : subscription)
    (m : option metrics_server) (p : P) :
    P * list SubscribeUpdate * option metrics_server * option (option error) :=
  match picks with
  | [] => (p, [], m, None)
  | P_Done :: _ => (p, [], shutdownMetrics m, Some (Some ctxErr))
  | P_Err :: rest =>
    match sb_errs sb with
    | err :: _ => (p, [], shutdownMetrics m, Some (Some err))
    | [] => serviceLoop ctxErr rest sb m p
    end
  | P_Update :: rest =>
    match sb_updates sb with
    | update :: updates =>
      match HandleUpdate_ ctx (Some update) p with
      | (p, Err err) => (p, [update], m, Some (Some err))
      | (p, Ok _) =>
        let '(p, us, m, r) :=
          serviceLoop ctxErr rest (mkSubscription updates (sb_errs sb) (sb_closed sb) (sb_panics sb)) m p in
        (p, update :: us, m, r)
      end
    | [] =>
      if sb_closed sb then (p, [], shutdownMetrics m, Some None)
      else serviceLoop ctxErr rest sb m p
    end
  end.

Context {C : Type} `{ClientInterface C}.

(** One run of a client: the client after the deferred [Close], what the processor
    was given and the error. *)
Definition runClient (client : C) (startSlot : Z) (picks : list pick) (p : P) :
    C * P * list SubscribeUpdate * option error :=
  match Connect_ client with
  | (client, Err err) => (client, p, [], Some (Wrapf "connect %s: %w" [FStr (Name_ client)] err))
  | (client, Ok _) =>
    let '(client, sb) := Subscribe_ startSlot client in
    let '(p, us, r) := clientLoop picks sb p in
    (match r with Some _ => Close_ client | None => client end, p, us, r)
  end.

(** Whether the goroutine that the run of a client starts panics. *)
Definition goroutine_panics (client : C) (startSlot : Z) : bool :=
  match Connect_ client with
  | (_, Err _) => false
  | (client, Ok _) => sb_panics (Subscribe_ startSlot client).2
  end.

Definition serviceRun (client : C) (startSlot : Z) (ctxErr : error) (picks : list pick)
    (m : option metrics_server) (p : P) :
    C * P * list SubscribeUpdate * option metrics_server * option (option error) :=
  match Connect_ client with
  | (client, Err err) => (client, p, [], m, Some (Some (Wrapf "connect geyser: %w" [] err)))
  | (client, Ok _) =>
    let '(client, sb) := Subscribe_ startSlot client in
    let '(p, us, m, r) := serviceLoop ctxErr picks sb (serveMetrics m) p in
    (match r with Some _ => Close_ client | None => client end, p, us, m, r)
  end.

(** ** FailoverService *)

Record failoverMetrics := mkFailoverMetrics { activeSource : Z; failures : gmap string Z }.

Definition newFailoverMetrics : failoverMetrics := mkFailoverMetrics 0 ∅.
Definition setActive (source : string) (m : failoverMetrics) : failoverMetrics :=
  mkFailoverMetrics
    (if bool_decide (source = "") then 0 else if bool_decide (source = "geyser") then 1 else 2)
    (failures m).
Definition recordFailure (source : string) (m : failoverMetrics) : failoverMetrics :=
  mkFailoverMetrics (activeSource m) (<[source := default 0 (failures m !! source) + 1]> (failures m)).

(** One turn of [Run], for the record: the client used and its name, what the processor was
    given, the error, and whether the goroutine of the subscription panics. *)
Record turn := mkRunTurn {
  rt_client : nat;
  rt_name : string;
  rt_updates : list SubscribeUpdate;
  rt_err : option error;
  rt_panics : bool;
}.

(** [clients] is the primary, followed by the fallback if there is one. *)
Record FailoverService := mkFailover {
  fo_clients : list C;
  fo_processor : P;
  fo_metrics : failoverMetrics;
  fo_turns : list turn;
}.

(** [Run] over the environment's choices for each turn. It returns [ctx.Err()],
    here [ctxErr], which is nil when the context is not done: the inner option. *)
Fixpoint Run (ctxErr : option error) (startSlot : Z) (turns : list (list pick)) (current : nat)
    (s : FailoverService) : FailoverService * option (option error) :=
  match turns with
  | [] => (s, None)
  | picks :: rest =>
    match fo_clients s !! current with
    | None => (s, None) (** not reached: [current < len(clients)] *)
    | Some client =>
      let metrics := setActive (Name_ client) (fo_metrics s) in
      let '(client', p, us, r) := runClient client startSlot picks (fo_processor s) in
      let turns' := fo_turns s ++ [mkRunTurn current (Name_ client) us r (goroutine_panics client startSlot)] in
      let clients := <[current := client']> (fo_clients s) in
      match r with
      | None => (mkFailover clients p metrics turns', None)
      | Some err =>
        if errors_Is err "context.Canceled" then
          (mkFailover clients p metrics turns', Some ctxErr)
        else
          let s := mkFailover clients p (recordFailure (Name_ client) metrics) turns' in
          let current :=
            if decide (length clients = 1)%nat then current
            else ((current + 1) mod length clients)%nat in
          Run ctxErr startSlot rest current s
      end
    end
  end.

Definition NewFailoverService (primary : C) (fallback : option C) (processor : P) : FailoverService :=
  mkFailover (primary :: option_list fallback) processor newFailoverMetrics [].

End loops.
Arguments FailoverService P C : clear implicits.
Arguments mkFailover {P C} _ _ _ _.
Arguments fo_clients {P C} _.
Arguments fo_processor {P C} _.
Arguments fo_metrics {P C} _.
Arguments fo_turns {P C} _.

(** ** The clients *)

(** What [grpc.DialContext] is told: keepalive, the size limit of messages, and the
    credentials that go with every call. Both clients use TLS. *)
Record dial_options := mkDialOptions {
  do_keepaliveTime : Z;
  do_keepaliveTimeout : Z;
  do_permitWithoutStream : bool;
  do_maxRecvMsgSize : Z;
  do_metadata : gmap string string;
  do_transportSecurity : bool;
}.

(** The [PerRPCCredentials] of the clients: their metadata, and whether they ask for
    transport security. *)
Record credentials := mkCredentials { GetRequestMetadata : gmap string string; RequireTransportSecurity : bool }.
Definition tokenAuth (token : string) : credentials := mkCredentials {["x-token" := token]} true.
Definition apiKeyAuth (key : string) : credentials := mkCredentials {["x-api-key" := key]} true.
Definition dialOptions (auth : credentials) : dial_options :=
  mkDialOptions (10000 * Millisecond) (1000 * Millisecond) true (1024 * 1024 * 1024)
    (GetRequestMetadata auth) (RequireTransportSecurity auth).

(** The transport: a dial, told whether the context of the client is cancelled,
    and what the streams of one subscription will do. *)
Class Grpc (N : Type) := {
  grpc_Dial : bool → string → dial_options → M N ();
  grpc_Streams : N → N * list attempt;
}.

(** A client and its context: [cl_cancelled] once [Close] cancelled it. *)
Record StreamClient (Cfg N : Type) := mkClient {
  cl_cfg : Cfg;
  cl_conn : bool;
  cl_cancelled : bool;
  cl_net : N;
}.
Arguments mkClient {Cfg N} _ _ _ _.
Arguments cl_cfg {Cfg N} _.
Arguments cl_conn {Cfg N} _.
Arguments cl_cancelled {Cfg N} _.
Arguments cl_net {Cfg N} _.

Section clients.
Context {N : Type} `{Grpc N}.

Definition dial {Cfg} (endpoint fmt : string) (options : dial_options) : M (StreamClient Cfg N) () := λ c,
  match grpc_Dial (cl_cancelled c) endpoint options (cl_net c) with
  | (net, Err err) => (mkClient (cl_cfg c) (cl_conn c) (cl_cancelled c) net, Err (Wrapf fmt [] err))
  | (net, Ok _) => (mkClient (cl_cfg c) true (cl_cancelled c) net, Ok tt)
  end.

(** What the channels deliver of a run of the goroutine of [Subscribe]. *)
Definition errors_of (tr : list stream_event) : list error :=
  omap (λ e, match e with T_Error e => Some e | _ => None end) tr.
Definition subscription_of (run : list stream_event * Z * status) : subscription :=
  let '(tr, _, st) := run in
  mkSubscription (forwarded tr) (errors_of tr)
    (match st with Returned => true | _ => false end) (match st with Panicked => true | _ => false end).

(** The goroutine started by [Subscribe]; with a cancelled context its first
    [select] takes [<-c.ctx.Done()] and it closes the channels. *)
Definition subscribe_with {Cfg} (loop : list attempt → Z → list stream_event * Z * status)
    (startSlot : Z) (c : StreamClient Cfg N) : StreamClient Cfg N * subscription :=
  let '(net, attempts) := grpc_Streams (cl_net c) in
  (mkClient (cl_cfg c) (cl_conn c) (cl_cancelled c) net,
   subscription_of (if cl_cancelled c then ([], startSlot, Returned) else loop attempts startSlot)).

Definition cancel_client {Cfg} (c : StreamClient Cfg N) : StreamClient Cfg N :=
  mkClient (cl_cfg c) (cl_conn c) true (cl_net c).

(** geyser/client.go: [Connect] dials each time. *)
Definition GeyserClient : Type := StreamClient GeyserConfig.Config N.
Definition geyser_NewClient `{!RangeOrder string string} (cfg : GeyserConfig.Config) (net : N) :
    result GeyserClient :=
  _ ← wrap_err "invalid config: %w" [] (GeyserConfig.Validate cfg);
  Ok (mkClient cfg false false net).
Definition geyser_Connect : M GeyserClient () := λ c,
  dial (GeyserConfig.Endpoint (cl_cfg c)) "failed to dial geyser: %w"
    (dialOptions (tokenAuth (GeyserConfig.APIKey (cl_cfg c)))) c.
Definition geyser_Name : string := "geyser".
#[local] Instance GeyserClient_ClientInterface_ : ClientInterface GeyserClient := {|
  Connect_ := geyser_Connect;
  Subscribe_ := subscribe_with geyser_subscribeLoop;
  Close_ := cancel_client;
  Name_ _ := geyser_Name;
|}.

(** helius/stream_client.go: [Connect] keeps an existing connection. *)
Definition HeliusClient : Type := StreamClient HeliusConfig.Config N.
Definition helius_NewStreamClient (cfg : option HeliusConfig.Config) (net : N) : result HeliusClient :=
  match cfg with
  | None => Err (Errorf "config is nil" [])
  | Some cfg =>
    _ ← wrap_err "invalid helius config: %w" [] (HeliusConfig.Validate (Some cfg));
    if decide (size (HeliusConfig.ProgramFilters cfg) = 0)%nat then
      Err (Errorf "ProgramFilters must contain at least one entry" [])
    else Ok (mkClient cfg false false net)
  end.
Definition helius_Connect : M HeliusClient () := λ c,
  if cl_conn c then (c, Ok tt)
  else dial (HeliusConfig.GRPCEndpoint (cl_cfg c)) "dial helius lasers tream: %w"
    (dialOptions (apiKeyAuth (HeliusConfig.APIKey (cl_cfg c)))) c.
(** Its context is never nil, so [Close] always cancels it. *)
Definition helius_Close : HeliusClient → HeliusClient := cancel_client.
Definition helius_Name : string := "helius".
#[local] Instance HeliusClient_ClientInterface_ : ClientInterface HeliusClient := {|
  Connect_ := helius_Connect;
  Subscribe_ startSlot c := subscribe_with (helius_subscribeLoop (cl_cfg c)) startSlot c;
  Close_ := helius_Close;
  Name_ _ := helius_Name;
|}.
End clients.
Definition GeyserClient_ClientInterface := @GeyserClient_ClientInterface_.
Definition HeliusClient_ClientInterface := @HeliusClient_ClientInterface_.

(** A value of the interface holds either client. *)
#[local] Instance sum_ClientInterface_ {A B} `{ClientInterface A, ClientInterface B} :
    ClientInterface (A + B) := {|
  Connect_ c := match c with
    | inl a => let '(a, r) := Connect_ a in (inl a, r)
    | inr b => let '(b, r) := Connect_ b in (inr b, r)
    end;
  Subscribe_ startSlot c := match c with
    | inl a => let '(a, sb) := Subscribe_ startSlot a in (inl a, sb)
    | inr b => let '(b, sb) := Subscribe_ startSlot b in (inr b, sb)
    end;
  Close_ c := match c with inl a => inl (Close_ a) | inr b => inr (Close_ b) end;
  Name_ c := match c with inl a => Name_ a | inr b => Name_ b end;
|}.
Definition sum_ClientInterface := @sum_ClientInterface_.

(** ** Lemmas *)

(** A client that, once closed, never delivers an update again. *)
Class ClosedForGood (C : Type) `{ClientInterface C} := {
  dead : C → Prop;
  dead_Close c : dead (Close_ c);
  dead_Connect c : dead c → dead (Connect_ c).1;
  dead_Subscribe startSlot c : dead c → dead (Subscribe_ startSlot c).1;
  dead_updates startSlot c : dead c → sb_updates (Subscribe_ startSlot c).2 = [];
}.

Section dead_clients.
Context {N : Type} `{Grpc N}.
#[local] Existing Instances GeyserClient_ClientInterface_ HeliusClient_ClientInterface_
  sum_ClientInterface_.

Lemma dial_cancelled {Cfg} endpoint fmt options (c : StreamClient Cfg N) :
  cl_cancelled (dial endpoint fmt options c).1 = cl_cancelled c.
Proof. unfold dial. by destruct (grpc_Dial _ _ _ _) as [net [[]|e]]. Qed.
Lemma subscribe_cancelled {Cfg} loop start (c : StreamClient Cfg N) :
  cl_cancelled c = true →
  cl_cancelled (subscribe_with loop start c).1 = true ∧ sb_updates (subscribe_with loop start c).2 = [].
Proof. intros Hc. unfold subscribe_with. rewrite Hc. by destruct (grpc_Streams (cl_net c)). Qed.

(** [Close] cancels the context of the client, and nothing renews it. *)
#[local] Program Instance GeyserClient_ClosedForGood : ClosedForGood GeyserClient :=
  {| dead c := cl_cancelled c = true |}.
Next Obligation. done. Qed.
Next Obligation. intros c Hc. etrans; [apply dial_cancelled|done]. Qed.
Next Obligation. intros start c Hc. by apply subscribe_cancelled. Qed.
Next Obligation. intros start c Hc. by apply subscribe_cancelled. Qed.

#[local] Program Instance HeliusClient_ClosedForGood : ClosedForGood HeliusClient :=
  {| dead c := cl_cancelled c = true |}.
Next Obligation. done. Qed.
Next Obligation.
  intros c Hc. simpl. unfold helius_Connect. destruct (cl_conn c); [done|].
  etrans; [apply dial_cancelled|done].
Qed.
Next Obligation. intros start c Hc. by apply subscribe_cancelled. Qed.
Next Obligation. intros start c Hc. by apply subscribe_cancelled. Qed.

#[local] Program Instance sum_ClosedForGood {A B} `{ClosedForGood A, ClosedForGood B} :
    ClosedForGood (A + B) := {| dead c := match c with inl a => dead a | inr b => dead b end |}.
Next Obligation. intros A B ? ? ? ? [a|b]; apply dead_Close. Qed.
Next Obligation.
  intros A B ? ? ? ? [a|b] Hd; simpl; apply dead_Connect in Hd; by destruct (Connect_ _).
Qed.
Next Obligation.
  intros A B ? ? ? ? start [a|b] Hd; simpl; apply (dead_Subscribe start) in Hd;
    by destruct (Subscribe_ _ _).
Qed.
Next Obligation.
  intros A B ? ? ? ? start [a|b] Hd; simpl; apply (dead_updates start) in Hd;
    by destruct (Subscribe_ _ _).
Qed.
End dead_clients.

Section loop_lemmas.
Context {P : Type} (HandleUpdate_ : context → option SubscribeUpdate → M P ()) (ctx : context).

(** The processor after some updates, their errors ignored. *)
Definition replay (p : P) (us : list SubscribeUpdate) : P :=
  foldl (λ p u, (HandleUpdate_ ctx (Some u) p).1) p us.

(** The processor gets a prefix of the updates, in order. *)
Lemma clientLoop_run picks sb p :
  let '(p', us, r) := clientLoop HandleUpdate_ ctx picks sb p in
  p' = replay p us ∧ us `prefix_of` sb_updates sb.
Proof.
  revert sb p. induction picks as [|pk rest IH]; intros sb p; simpl.
  { split; [done|apply prefix_nil]. }
  destruct pk.
  - split; [done|apply prefix_nil].
  - destruct (sb_errs sb); [apply IH|]. split; [done|apply prefix_nil].
  - destruct (sb_updates sb) as [|u us] eqn:E.
    { destruct (sb_closed sb); [split; [done|apply prefix_nil]|].
      specialize (IH sb p). by rewrite E in IH. }
    destruct (HandleUpdate_ ctx (Some u) p) as [p1 [[]|e]] eqn:Eh.
    + specialize (IH (mkSubscription us (sb_errs sb) (sb_closed sb) (sb_panics sb)) p1). simpl in IH.
      destruct (clientLoop _ _ _ _ _) as [[p' us'] r]. destruct IH as [-> Hp].
      simpl. rewrite Eh. split; [done|by apply prefix_cons].
    + simpl. rewrite Eh. split; [done|]. exists us. done.
Qed.

Context {C : Type} `{ClientInterface C}.

Lemma runClient_processor client start picks p :
  let '(_, p', us, _) := runClient HandleUpdate_ ctx client start picks p in p' = replay p us.
Proof.
  unfold runClient. destruct (Connect_ client) as [c1 [[]|e]]; [|done].
  destruct (Subscribe_ start c1) as [c2 sb]. pose proof (clientLoop_run picks sb p) as Hl.
  destruct (clientLoop _ _ _ _ _) as [[p' us] r]. by destruct Hl.
Qed.

Lemma runClient_dead `{!ClosedForGood C} client start picks p :
  let '(client', _, us, r) := runClient HandleUpdate_ ctx client start picks p in
  (dead client → dead client' ∧ us = []) ∧ (is_Some r → us ≠ [] → dead client').
Proof.
  unfold runClient. destruct (Connect_ client) as [c1 r1] eqn:Ec.
  assert (dead client → dead c1) as Hc1 by (intros Hd%dead_Connect; by rewrite Ec in Hd).
  destruct r1 as [[]|e]; [|split; [auto|done]].
  destruct (Subscribe_ start c1) as [c2 sb] eqn:Es.
  pose proof (clientLoop_run picks sb p) as Hl.
  destruct (clientLoop _ _ _ _ _) as [[p' us] r]. destruct Hl as [_ Hp].
  split.
  - intros Hd%Hc1. pose proof (dead_Subscribe start c1 Hd) as Hd2. pose proof (dead_updates start c1 Hd) as Hu.
    rewrite Es in Hd2, Hu. simpl in Hd2, Hu. rewrite Hu in Hp. split; [|by apply prefix_nil_inv in Hp].
    destruct r; [apply dead_Close|done].
  - intros [err ->] _. apply dead_Close.
Qed.

(** ** The failover loop *)

Definition cancelled (t : turn) : Prop :=
  match rt_err t with Some err => errors_Is err "context.Canceled" = true | None => False end.
#[global] Instance cancelled_dec t : Decision (cancelled t).
Proof. unfold cancelled. destruct (rt_err t); apply _. Defined.

(** A turn that ended with an error other than a cancellation. *)
Definition failed (t : turn) : Prop := is_Some (rt_err t) ∧ ¬ cancelled t.
#[global] Instance failed_dec t : Decision (failed t).
Proof. unfold failed. apply _. Defined.

(** What holds of the turns recorded at any time. *)
Record turns_ok (p0 : P) (n : nat) (s : FailoverService P C) : Prop := {
  ok_order i t : fo_turns s !! i = Some t → rt_client t = (i mod n)%nat;
  ok_failed i t : fo_turns s !! i = Some t → (S i < length (fo_turns s))%nat → failed t;
  ok_processor : fo_processor s = replay p0 (concat (rt_updates <$> fo_turns s));
  ok_failures name : default 0 (failures (fo_metrics s) !! name)
    = zlen (filter (λ t, failed t ∧ rt_name t = name) (fo_turns s));
}.

(** Before a turn of the client [current]. *)
Record run_inv (p0 : P) (n current : nat) (s : FailoverService P C) : Prop := {
  inv_ok : turns_ok p0 n s;
  inv_length : length (fo_clients s) = n;
  inv_current : current = (length (fo_turns s) mod n)%nat;
  inv_failed t : t ∈ fo_turns s → failed t;
}.

Lemma turns_ok_snoc p0 n s clients p metrics t :
  turns_ok p0 n s → (∀ t, t ∈ fo_turns s → failed t) →
  rt_client t = (length (fo_turns s) mod n)%nat →
  p = replay (fo_processor s) (rt_updates t) →
  (∀ name, default 0 (failures metrics !! name)
           = default 0 (failures (fo_metrics s) !! name)
             + (if decide (failed t ∧ rt_name t = name) then 1 else 0)) →
  turns_ok p0 n (mkFailover clients p metrics (fo_turns s ++ [t])).
Proof.
  intros [Ho Hf Hp Hm] Hfail Ht -> Hm'. split; simpl.
  - intros i t' [Hi|[Hi Hx]]%lookup_app_Some; [by apply Ho|].
    apply list_lookup_singleton_Some in Hx as [Hx <-]. rewrite Ht. f_equal. lia.
  - intros i t' Hi Hlt. rewrite length_app in Hlt. simpl in Hlt.
    rewrite lookup_app_l in Hi by lia. apply Hfail. by eapply list_elem_of_lookup_2.
  - rewrite fmap_app, concat_app, Hp. unfold replay. rewrite <- foldl_app. simpl.
    by rewrite app_nil_r.
  - intros name. rewrite Hm', Hm, filter_app. unfold zlen. rewrite length_app, filter_cons.
    case_decide; rewrite filter_nil; simpl; lia.
Qed.

Lemma failures_set name m : failures (setActive name m) = failures m.
Proof. reflexivity. Qed.
Lemma failures_record name m name' :
  default 0 (failures (recordFailure name m) !! name')
  = default 0 (failures m !! name') + (if decide (name = name') then 1 else 0).
Proof.
  simpl. case_decide as Hn; [subst; by rewrite lookup_insert_eq|]. rewrite lookup_insert_ne by done. lia.
Qed.

Lemma next_index (l n : nat) :
  (n = 1 ∨ n = 2)%nat →
  (if decide (n = 1)%nat then l mod n else (l mod n + 1) mod n)%nat = ((l + 1) mod n)%nat.
Proof.
  intros [-> | ->]; simpl decide.
  - case_decide; [|done]. by rewrite !Nat.mod_1_r.
  - case_decide; [done|]. by rewrite Nat.Div0.add_mod_idemp_l.
Qed.

Lemma Run_turns ctxErr start p0 n turns current s :
  (n = 1 ∨ n = 2)%nat → run_inv p0 n current s →
  let '(s', r) := Run HandleUpdate_ ctx ctxErr start turns current s in
  turns_ok p0 n s' ∧ (is_Some r ↔ ∃ t, last (fo_turns s') = Some t ∧ cancelled t)
  ∧ (r = None → (∀ t, t ∈ fo_turns s' → failed t) → length (fo_turns s') = (length (fo_turns s) + length turns)%nat).
Proof.
  intros Hn. revert current s. induction turns as [|picks rest IH]; intros current s [Hok Hlen Hcur Hfail].
  { simpl. split_and!; [done| |intros; lia]. split; [by intros []%is_Some_None|].
    intros (t & Ht & Hc). apply last_Some_elem_of, Hfail in Ht as [_ Ht]. done. }
  cbn [Run]. destruct (fo_clients s !! current) as [client|] eqn:Hcl; cycle 1.
  { apply lookup_ge_None in Hcl. rewrite Hlen, Hcur in Hcl.
    pose proof (Nat.mod_upper_bound (length (fo_turns s)) n). lia. }
  pose proof (runClient_processor client start picks (fo_processor s)) as Hp.
  destruct (runClient _ _ _ _ _ _) as [[[client' p] us] r].
  set (t := mkRunTurn current (Name_ client) us r (goroutine_panics client start)).
  assert (∀ clients metrics,
    (∀ name, default 0 (failures metrics !! name)
           = default 0 (failures (fo_metrics s) !! name)
             + (if decide (failed t ∧ rt_name t = name) then 1 else 0)) →
    turns_ok p0 n (mkFailover clients p metrics (fo_turns s ++ [t]))) as Hsnoc.
  { intros clients metrics Hm. by apply turns_ok_snoc. }
  destruct r as [err|]; [destruct (errors_Is err "context.Canceled") eqn:Hc|].
  - assert (cancelled t) as Ht by exact Hc. split_and!; [| |done].
    + apply Hsnoc. intros name. rewrite failures_set, decide_False; [lia|]. by intros [[_ ?] _].
    + simpl. rewrite last_snoc. naive_solver.
  - assert (failed t) as Ht by (split; [by eexists|unfold cancelled; simpl; by rewrite Hc]).
    set (clients := <[current := client']> (fo_clients s)).
    assert (length clients = n) as Hlen' by (unfold clients; by rewrite length_insert).
    set (s1 := mkFailover clients p _ _). set (cur1 := if decide _ then _ else _).
    assert (run_inv p0 n cur1 s1) as Hinv.
    { split.
      - apply Hsnoc. intros name. rewrite failures_record, failures_set. simpl.
        case_decide; case_decide; naive_solver lia.
      - done.
      - unfold cur1. rewrite Hlen', Hcur, next_index by done. simpl. by rewrite length_app.
      - simpl. intros t' [Ht'|Ht'%list_elem_of_singleton]%elem_of_app; [by apply Hfail|by subst]. }
    specialize (IH cur1 s1 Hinv). destruct (Run _ _ _ _ _ _ _) as [s' r].
    destruct IH as (Hok' & Hr & Hl). split_and!; [done|done|]. intros Hnone Hall.
    rewrite (Hl Hnone Hall). simpl. rewrite length_app. simpl. lia.
  - split_and!.
    + apply Hsnoc. intros name. rewrite failures_set, decide_False; [lia|]. by intros [[[? [=]] _] _].
    + split; [by intros []%is_Some_None|]. simpl. rewrite last_snoc. intros (t' & [= <-] & Hc). done.
    + intros _ Hall. exfalso. destruct (Hall t) as [[e He] _]; [|done].
      simpl. apply elem_of_app. right. by left.
Qed.

(** A client that gave updates in a turn that ended is dead, so it gives none in a
    later turn. *)
Definition one_turn (s : FailoverService P C) : Prop :=
  ∀ i j t u, (i < j)%nat → fo_turns s !! i = Some t → fo_turns s !! j = Some u →
  rt_client t = rt_client u → rt_updates t ≠ [] → rt_updates u = [].

Lemma Run_one_turn `{!ClosedForGood C} ctxErr start turns current s :
  one_turn s →
  (∀ t c, t ∈ fo_turns s → rt_updates t ≠ [] → fo_clients s !! rt_client t = Some c → dead c) →
  one_turn (Run HandleUpdate_ ctx ctxErr start turns current s).1.
Proof.
  revert current s. induction turns as [|picks rest IH]; intros current s Hone Hdead; [done|].
  cbn [Run]. destruct (fo_clients s !! current) as [client|] eqn:Hcl; [|done].
  pose proof (runClient_dead client start picks (fo_processor s)) as Hd.
  destruct (runClient _ _ _ _ _ _) as [[[client' p] us] r]. destruct Hd as [Hd Hclose].
  set (t := mkRunTurn current (Name_ client) us r (goroutine_panics client start)).
  assert (∀ clients metrics, one_turn (mkFailover clients p metrics (fo_turns s ++ [t]))) as Hsnoc.
  { intros clients metrics i j t1 t2 Hij Hi Hj Hcli Hne. simpl in *.
    apply lookup_app_Some in Hj as [Hj|[Hlen Hj]].
    - rewrite lookup_app_l in Hi by (apply lookup_lt_Some in Hj; lia). by eapply Hone.
    - apply list_lookup_singleton_Some in Hj as [Hj <-]. rewrite lookup_app_l in Hi by lia.
      apply Hd. eapply (Hdead t1); [by eapply list_elem_of_lookup_2|done|]. by rewrite Hcli. }
  destruct r as [err|]; [|apply Hsnoc].
  destruct (errors_Is err "context.Canceled"); [apply Hsnoc|].
  apply IH; [apply Hsnoc|]. simpl. intros t' c Ht' Hne Hc.
  apply elem_of_app in Ht' as [Ht'|Ht'%list_elem_of_singleton].
  - destruct (decide (rt_client t' = current)) as [E|E].
    + rewrite E, list_lookup_insert_eq in Hc by (by eapply lookup_lt_Some). injection Hc as <-.
      apply Hd. by eapply (Hdead t'); [done|done|rewrite E].
    + rewrite list_lookup_insert_ne in Hc by done. by eapply (Hdead t').
  - subst t'. simpl in *. rewrite list_lookup_insert_eq in Hc by (by eapply lookup_lt_Some).
    injection Hc as <-. apply Hclose; [by eexists|done].
Qed.
End loop_lemmas.

(** With the processor of [Processor.v], [replay] is its [run]. *)
Lemma replay_run low reg kinds {P C} `{SwapPublisher P, SlotTimeCache C, Base58,
  !RangeOrder string string, !RangeOrder Z tokenBalance} ctx (p : Processor P C) us :
  replay (HandleUpdate low reg kinds) ctx p us
  = run low reg kinds p ((λ u, (ctx, Some u)) <$> us).
Proof. revert p. induction us as [|u us IH]; intros p; [done|]. apply IH. Qed.

(** ** Properties *)

(** C27. The failover loop over a primary and at most one fallback, with any handler
    of updates, clients and choices: the clients take turns, the primary first; the
    processor gets exactly the updates the turns handed to it, in order; a turn
    that ends with an error other than a cancellation counts one failure of its
    client and is followed by the next turn; [Run] returns exactly when a turn was
    cancelled. *)
Theorem failover_alternates {P C} `{ClientInterface C} handle ctx ctxErr start
    (primary : C) fallback (p0 : P) turns :
  let n := length (primary :: option_list fallback) in
  let '(s, r) := Run handle ctx ctxErr start turns 0 (NewFailoverService primary fallback p0) in
  (∀ i t, fo_turns s !! i = Some t →
   rt_client t = (i mod n)%nat ∧ ((S i < length (fo_turns s))%nat → failed t))
  ∧ fo_processor s = replay handle ctx p0 (concat (rt_updates <$> fo_turns s))
  ∧ (∀ name, default 0 (failures (fo_metrics s) !! name)
             = zlen (filter (λ t, failed t ∧ rt_name t = name) (fo_turns s)))
  ∧ (is_Some r ↔ ∃ t, last (fo_turns s) = Some t ∧ cancelled t)
  ∧ (r = None → (∀ t, t ∈ fo_turns s → failed t) → length (fo_turns s) = length turns).
Proof.
  intros n. pose proof (Run_turns handle ctx ctxErr start p0 n turns 0
    (NewFailoverService primary fallback p0)) as Hr.
  destruct (Run _ _ _ _ _ _ _) as [s r]. destruct Hr as ([Ho Hf Hp Hm] & Hres & Hl).
  - unfold n. destruct fallback; simpl; auto.
  - split; [by split|done| |].
    + symmetry. apply Nat.Div0.mod_0_l.
    + intros t Ht. by apply elem_of_nil in Ht.
  - split_and!; [intros i t Hi; split; [by apply Ho|by apply Hf]|done|done|done|exact Hl].
Qed.

#[local] Existing Instances GeyserClient_ClosedForGood HeliusClient_ClosedForGood.

(** C25. [Close] ends a client for good: with the Geyser client as primary and the
    Helius client as fallback, over any transport, each of them hands updates to
    the processor in at most one turn of [Run]. A retried client never streams
    again, so from its third turn on the loop only alternates. *)
Theorem closed_never_streams {P N} `{Grpc N} handle ctx ctxErr start
    (primary : GeyserClient (N:=N)) (fallback : HeliusClient (N:=N)) (p0 : P) turns i j t u :
  let s := (Run (C:=GeyserClient (N:=N) + HeliusClient (N:=N))
    (H:=sum_ClientInterface _ _ (GeyserClient_ClientInterface N _) (HeliusClient_ClientInterface N _))
    handle ctx ctxErr start turns 0
    (NewFailoverService (inl primary) (Some (inr fallback)) p0)).1 in
  (i < j)%nat → fo_turns s !! i = Some t → fo_turns s !! j = Some u →
  rt_client t = rt_client u → rt_updates t ≠ [] → rt_updates u = [].
Proof.
  intros s Hij Hi Hj Hc Hne.
  refine (Run_one_turn (H:=sum_ClientInterface _ _ (GeyserClient_ClientInterface N _)
    (HeliusClient_ClientInterface N _)) (ClosedForGood0:=sum_ClosedForGood)
    handle ctx ctxErr start turns 0 _ _ _ i j t u Hij Hi Hj Hc Hne).
  - intros i' j' t' u' _ Hi'. done.
  - intros t' c Ht'. by apply elem_of_nil in Ht'.
Qed.

(** ** Witnesses *)

(** A transport whose dials succeed and whose subscriptions follow a script. *)
Definition TestNet : Type := list (list attempt).
#[local] Instance TestNet_Grpc : Grpc TestNet := {|
  grpc_Dial _ _ _ n := (n, Ok tt);
  grpc_Streams n := match n with [] => ([], []) | a :: n => (n, a) end;
|}.

Definition example_geyser : GeyserClient (N:=TestNet) :=
  mkClient (GeyserConfig.mkConfig "grpc:443" "key" ∅) false false
    [[mkAttempt false None None [example_turn 1000; mkTurn false (R_Err (Sentinel "reset")) false] false];
     [mkAttempt false None None [example_turn 2000] false]].
Definition example_helius : HeliusClient (N:=TestNet) :=
  mkClient HeliusConfig.DefaultConfig false false
    [[mkAttempt false None None [example_turn 1001; mkTurn false (R_Err (Sentinel "reset")) false] false]].
Definition example_handle (_ : context) (u : option SubscribeUpdate) : M (list SubscribeUpdate) () :=
  λ l, (l ++ option_list u, Ok tt).

Notation example_both := (GeyserClient (N:=TestNet) + HeliusClient (N:=TestNet))%type.
Definition example_interface : ClientInterface example_both :=
  sum_ClientInterface _ _ (GeyserClient_ClientInterface TestNet _)
    (HeliusClient_ClientInterface TestNet _).

(** Each client streams once; the retried primary ends with a closed stream. *)
Definition example_failover : FailoverService (list SubscribeUpdate) example_both
    * option (option error) :=
  Run (C:=example_both) (H:=example_interface) example_handle Background None 900
    [[P_Update; P_Err]; [P_Update; P_Err]; [P_Err; P_Update; P_Update]; [P_Done]] 0
    (NewFailoverService (inl example_geyser) (Some (inr example_helius)) []).

Lemma failover_alternates_witness :
  (rt_client <$> fo_turns example_failover.1) = [0; 1; 0; 1]%nat
  ∧ example_failover.2 = Some None
  ∧ ∃ t, last (fo_turns example_failover.1) = Some t ∧ cancelled t.
Proof.
  split; [vm_compute; reflexivity|]. split; [vm_compute; reflexivity|].
  pose proof (failover_alternates (H:=example_interface) example_handle Background None 900
    (inl example_geyser) (Some (inr example_helius)) []
    [[P_Update; P_Err]; [P_Update; P_Err]; [P_Err; P_Update; P_Update]; [P_Done]]) as HF.
  assert (is_Some example_failover.2) as Hs by (exists None; vm_compute; reflexivity).
  unfold example_failover in *. destruct (Run _ _ _ _ _ _ _) as [s r].
  destruct HF as (_ & _ & _ & Hr & _). apply Hr, Hs.
Defined.

Lemma closed_never_streams_witness :
  (length ∘ rt_updates <$> fo_turns example_failover.1) = [1; 1; 0; 0]%nat
  ∧ ∃ t u, fo_turns example_failover.1 !! 0%nat = Some t ∧ fo_turns example_failover.1 !! 2%nat = Some u
    ∧ rt_updates u = [].
Proof.
  split; [vm_compute; reflexivity|].
  assert (∃ t, fo_turns example_failover.1 !! 0%nat = Some t ∧ rt_client t = 0%nat
    ∧ rt_updates t ≠ []) as (t & Ht & Hct & Hne).
  { eexists. split; [vm_compute; reflexivity|]. split; [reflexivity|discriminate]. }
  assert (∃ u, fo_turns example_failover.1 !! 2%nat = Some u ∧ rt_client u = 0%nat) as (u & Hu & Hcu).
  { eexists. split; [vm_compute; reflexivity|reflexivity]. }
  exists t, u. split; [exact Ht|]. split; [exact Hu|].
  apply (closed_never_streams example_handle Background None 900 example_geyser example_helius []
    [[P_Update; P_Err]; [P_Update; P_Err]; [P_Err; P_Update; P_Update]; [P_Done]] 0 2 t u);
    [lia|exact Ht|exact Hu|by rewrite Hct, Hcu|exact Hne].
Defined.
