(* ===== verification/Channels.v ===== *)
(** * The goroutine and its consumer

    [Streams.v] runs the goroutine of [Subscribe] by itself and [Failover.v] reads the
    lists of what it sent. In the code both run at once, over a channel of 100 or 128
    updates and one of a single error: the goroutine waits while a channel is full,
    the consumer takes what is there, and its deferred [Close] cancels the context
    that the goroutine looks at. Here is that system, with any interleaving of its
    steps; it is shown that the lists describe it, and when the goroutine is left
    waiting for ever. *)

From S2P Require Import Prelude GoStrings Bytes Publisher SlotCache IngestDecoder Proto.
From S2P Require Import Processor GeyserConfig HeliusConfig Streams Failover.
From stdpp Require Import relations.
Local Open Scope list_scope.
Local Open Scope Z_scope.

(** ** The system *)

(** Where the goroutine is, with its [currentSlot]: at the head of the loop of
    [subscribeLoop]; past it, in the calls of [Subscribe] and [Send]; at
    [errCh <- err]; at the head of the loop of [processStream]; past it, in [Recv]; at
    the [select] that forwards; waiting to reconnect; and the two deferred calls of
    [close], in the order they run. *)
Inductive goroutine :=
  | G_Top (current : Z)
  | G_Subscribe (current : Z)
  | G_SendErr (err : error) (current : Z)
  | G_Turn (turns : list stream_turn) (lastSlot current : Z)
  | G_Recv (tn : stream_turn) (turns : list stream_turn) (lastSlot current : Z)
  | G_Forward (u : SubscribeUpdate) (done : bool) (turns : list stream_turn) (lastSlot current : Z)
  | G_Wait (current : Z)
  | G_CloseErrs (current : Z)
  | G_CloseUpdates (current : Z)
  | G_Exited (current : Z)
  | G_Panicked (current : Z).

(** [sy_trace], [sy_handled] and [sy_result] are histories: what the goroutine did,
    what the processor was given, the error [runClient] returned. [sy_attempts] is
    what the network and the clock still have in store: the head is the attempt the
    goroutine is in. *)
Record system (P : Type) := mkSystem {
  sy_pc : goroutine;
  sy_attempts : list attempt;
  sy_trace : list stream_event;
  sy_updates : list SubscribeUpdate;
  sy_errs : list error;
  sy_updatesClosed : bool;
  sy_errsClosed : bool;
  sy_cancelled : bool;
  sy_processor : P;
  sy_handled : list SubscribeUpdate;
  sy_result : option error;
}.
Arguments mkSystem {P} _ _ _ _ _ _ _ _ _ _ _.
Arguments sy_pc {P} _.
Arguments sy_attempts {P} _.
Arguments sy_trace {P} _.
Arguments sy_updates {P} _.
Arguments sy_errs {P} _.
Arguments sy_updatesClosed {P} _.
Arguments sy_errsClosed {P} _.
Arguments sy_cancelled {P} _.
Arguments sy_processor {P} _.
Arguments sy_handled {P} _.
Arguments sy_result {P} _.

Section system.
Context (window : Z) (waitCancellable : bool) (extract : SubscribeUpdate → option Z)
  (errors : client_errors) (capacity : nat).
Context {P : Type} (HandleUpdate_ : context → option SubscribeUpdate → M P ()) (ctx : context).
Notation sys := (system P).
Implicit Types s : sys.

(** The goroutine moves to [pc], after the events [tr]. *)
Definition goto (pc : goroutine) (tr : list stream_event) (s : sys) : sys :=
  mkSystem pc (sy_attempts s) (sy_trace s ++ tr) (sy_updates s) (sy_errs s) (sy_updatesClosed s)
    (sy_errsClosed s) (sy_cancelled s) (sy_processor s) (sy_handled s) (sy_result s).
Definition next_attempt (s : sys) : sys :=
  mkSystem (sy_pc s) (tail (sy_attempts s)) (sy_trace s) (sy_updates s) (sy_errs s) (sy_updatesClosed s)
    (sy_errsClosed s) (sy_cancelled s) (sy_processor s) (sy_handled s) (sy_result s).
Definition send_update (u : SubscribeUpdate) (s : sys) : sys :=
  mkSystem (sy_pc s) (sy_attempts s) (sy_trace s) (sy_updates s ++ [u]) (sy_errs s) (sy_updatesClosed s)
    (sy_errsClosed s) (sy_cancelled s) (sy_processor s) (sy_handled s) (sy_result s).
Definition send_err (err : error) (s : sys) : sys :=
  mkSystem (sy_pc s) (sy_attempts s) (sy_trace s) (sy_updates s) (sy_errs s ++ [err]) (sy_updatesClosed s)
    (sy_errsClosed s) (sy_cancelled s) (sy_processor s) (sy_handled s) (sy_result s).
Definition close_chans (updates errs : bool) (s : sys) : sys :=
  mkSystem (sy_pc s) (sy_attempts s) (sy_trace s) (sy_updates s) (sy_errs s)
    (sy_updatesClosed s || updates) (sy_errsClosed s || errs)
    (sy_cancelled s) (sy_processor s) (sy_handled s) (sy_result s).

Definition newer (current lastSlot : Z) : Z :=
  if current <? lastSlot then lastSlot else current.

(** One step of the goroutine; [None] when it cannot move. A [select] takes the case
    of the attempt, if that case is ready: [<-c.ctx.Done()] once the context is
    cancelled, [default] while it is not, a send while the channel has room. *)
Definition goroutine_step (s : sys) : option sys :=
  match sy_pc s with
  | G_Top current =>
    match sy_attempts s with
    | [] => None
    | a :: _ =>
      if bool_decide (at_done a ≠ sy_cancelled s) then None
      else Some (goto (if at_done a then G_CloseErrs current else G_Subscribe current) [] s)
    end
  | G_Subscribe current =>
    match sy_attempts s with
    | [] => None
    | a :: _ =>
      match at_subscribe a, at_send a with
      | Some err, _ => Some (goto (G_SendErr (Wrapf (er_subscribe errors) [] err) current) [] s)
      | None, Some err => Some (goto (G_SendErr (Wrapf (er_send errors) [] err) current) [] s)
      | None, None =>
        Some (goto (G_Turn (at_turns a) 0 current) [T_Request (replaySlot window current)] s)
      end
    end
  | G_SendErr err current =>
    if (length (sy_errs s) <? 1)%nat then Some (send_err err (goto (G_Wait current) [T_Error err] s)) else None
  | G_Turn turns lastSlot current =>
    match turns with
    | [] => None
    | tn :: rest =>
      if bool_decide (tn_done tn ≠ sy_cancelled s) then None
      else Some (goto (if tn_done tn then G_Wait (newer current lastSlot) else G_Recv tn rest lastSlot current) [] s)
    end
  | G_Recv tn rest lastSlot current =>
    match tn_recv tn with
    | R_EOF => Some (goto (G_Wait (newer current lastSlot)) [] s)
    | R_Err err => Some (goto (G_SendErr (Wrapf (er_recv errors) [] err) (newer current lastSlot)) [] s)
    | R_Update u =>
      match extract u with
      | None => Some (goto (G_Panicked (newer current lastSlot)) [T_Recv u] s)
      | Some slot =>
        Some (goto (G_Forward u (tn_doneSend tn) rest (newer lastSlot slot) current) [T_Recv u] s)
      end
    end
  | G_Forward u done turns lastSlot current =>
    if done then
      if sy_cancelled s then Some (goto (G_Wait (newer current lastSlot)) [] s) else None
    else if (length (sy_updates s) <? capacity)%nat then
      Some (send_update u (goto (G_Turn turns lastSlot current) [T_Forward u] s))
    else None
  | G_Wait current =>
    match sy_attempts s with
    | [] => None
    | a :: _ =>
      if at_doneWait a && waitCancellable then
        if sy_cancelled s then Some (goto (G_CloseErrs current) [] s) else None
      else Some (next_attempt (goto (G_Top current) [] s))
    end
  | G_CloseErrs current => Some (close_chans false true (goto (G_CloseUpdates current) [] s))
  | G_CloseUpdates current => Some (close_chans true false (goto (G_Exited current) [] s))
  | G_Exited _ | G_Panicked _ => None
  end.

(** The consumer: the channels after a receive, the processor, the result. *)
Definition consume (updates : list SubscribeUpdate) (errs : list error) (p : P)
    (us : list SubscribeUpdate) (r : option error) (s : sys) : sys :=
  mkSystem (sy_pc s) (sy_attempts s) (sy_trace s) updates errs (sy_updatesClosed s) (sy_errsClosed s)
    (sy_cancelled s) p (sy_handled s ++ us) r.

(** One turn of the loop of [runClient], for the case its [select] takes. A nil
    error, received from the closed channel, goes round the loop. *)
Definition consumer_step (k : pick) (s : sys) : option sys :=
  match sy_result s with
  | Some _ => None
  | None =>
    match k with
    | P_Done => Some (consume (sy_updates s) (sy_errs s) (sy_processor s) []
                        (Some (Sentinel "context.Canceled")) s)
    | P_Err =>
      match sy_errs s with
      | err :: errs => Some (consume (sy_updates s) errs (sy_processor s) [] (Some err) s)
      | [] => if sy_errsClosed s then Some s else None
      end
    | P_Update =>
      match sy_updates s with
      | u :: updates =>
        let '(p, r) := HandleUpdate_ ctx (Some u) (sy_processor s) in
        Some (consume updates (sy_errs s) p [u] (match r with Err err => Some err | Ok _ => None end) s)
      | [] =>
        if sy_updatesClosed s then
          Some (consume [] (sy_errs s) (sy_processor s) [] (Some (Errorf "update stream closed" [])) s)
        else None
      end
    end
  end.

(** The deferred [Close]: it cancels the context of the client. *)
Definition close_step (s : sys) : option sys :=
  match sy_result s, sy_cancelled s with
  | Some _, false =>
    Some (mkSystem (sy_pc s) (sy_attempts s) (sy_trace s) (sy_updates s) (sy_errs s) (sy_updatesClosed s)
            (sy_errsClosed s) true (sy_processor s) (sy_handled s) (sy_result s))
  | _, _ => None
  end.

Inductive step : sys → sys → Prop :=
  | step_goroutine s s' : goroutine_step s = Some s' → step s s'
  | step_consumer k s s' : consumer_step k s = Some s' → step s s'
  | step_close s s' : close_step s = Some s' → step s s'.

(** [Subscribe] of a client whose context is not cancelled, and a new [runClient]. *)
Definition subscribed (attempts : list attempt) (startSlot : Z) (p : P) : sys :=
  mkSystem (G_Top startSlot) attempts [] [] [] false false false p [] None.
Definition reachable (attempts : list attempt) (startSlot : Z) (p : P) (s : sys) : Prop :=
  rtc step (subscribed attempts startSlot p) s.

(** A schedule: who moves next. *)
Inductive mover := Goroutine | Consumer (k : pick) | Closer.
Definition move (m : mover) : sys → option sys :=
  match m with
  | Goroutine => goroutine_step
  | Consumer k => consumer_step k
  | Closer => close_step
  end.
Fixpoint scheduled (ms : list mover) (s : sys) : option sys :=
  match ms with
  | [] => Some s
  | m :: ms => match move m s with Some s => scheduled ms s | None => None end
  end.

(** The goroutine waits at a full error channel. *)
Definition blocked (s : sys) : Prop :=
  (∃ err current, sy_pc s = G_SendErr err current) ∧ (1 <= length (sy_errs s))%nat.
End system.

(** The channels of the two clients: [make(chan *pb.SubscribeUpdate, 100)] and 128. *)
Definition geyser_capacity : nat := 100.
Definition helius_capacity : nat := 128.

(** [subscribeLoop] and [processStream] of the two clients, step by step. *)
Definition geyser_step {P} : system P → option (system P) :=
  goroutine_step ReplaySlotWindow true extractSlotFromUpdate geyser_errors geyser_capacity.
Definition helius_step {P} (c : HeliusConfig.Config) : system P → option (system P) :=
  goroutine_step (HeliusConfig.ReplaySlots c) false (λ u, Some (extractSlot u)) helius_errors
    helius_capacity.

(** ** Lemmas *)

Section lemmas.
Context (window : Z) (waitCancellable : bool) (extract : SubscribeUpdate → option Z)
  (errors : client_errors) (capacity : nat).
Context {P : Type} (HandleUpdate_ : context → option SubscribeUpdate → M P ()) (ctx : context).
Notation sys := (system P).
Notation loop := (stream_loop window waitCancellable extract errors).
Notation process := (processStream extract errors).
Notation gstep := (goroutine_step window waitCancellable extract errors capacity).
Notation cstep := (consumer_step HandleUpdate_ ctx).
Notation step := (step window waitCancellable extract errors capacity HandleUpdate_ ctx).
Implicit Types s : sys.

Lemma scheduled_steps ms s s' :
  scheduled window waitCancellable extract errors capacity HandleUpdate_ ctx ms s = Some s' → rtc step s s'.
Proof.
  revert s. induction ms as [|m ms IH]; intros s; simpl; [by intros [= <-]|].
  destruct (move _ _ _ _ _ _ _ m s) as [s1|] eqn:Hm; [|done]. intros Hs. apply (rtc_l _ _ s1); [|by apply IH].
  destruct m; [by apply step_goroutine|by eapply step_consumer|by apply step_close].
Qed.

(** What is left of [stream_loop] at each point of the goroutine. *)
Definition after_wait (attempts : list attempt) (current : Z) : list stream_event * Z * status :=
  match attempts with
  | [] => ([], current, Streams.Running)
  | a :: rest => wait_then waitCancellable (at_doneWait a) (loop rest current) current
  end.
Definition after_stream (attempts : list attempt) (current : Z)
    (r : list stream_event * Z * status) : list stream_event * Z * status :=
  let '(tr, last, st) := r in
  match st with
  | Returned => prepend tr (after_wait attempts (newer current last))
  | _ => (tr, newer current last, st)
  end.
Definition subscribing (a : attempt) (rest : list attempt) (current : Z) :
    list stream_event * Z * status :=
  match at_subscribe a, at_send a with
  | Some err, _ => prepend [T_Error (Wrapf (er_subscribe errors) [] err)] (after_wait (a :: rest) current)
  | None, Some err => prepend [T_Error (Wrapf (er_send errors) [] err)] (after_wait (a :: rest) current)
  | None, None =>
    prepend [T_Request (replaySlot window current)]
      (after_stream (a :: rest) current (process (at_turns a) 0))
  end.
Definition receiving (tn : stream_turn) (rest : list stream_turn) (last : Z) :
    list stream_event * Z * status :=
  match tn_recv tn with
  | R_EOF => ([], last, Returned)
  | R_Err err => ([T_Error (Wrapf (er_recv errors) [] err)], last, Returned)
  | R_Update u =>
    match extract u with
    | None => ([T_Recv u], last, Panicked)
    | Some slot =>
      if tn_doneSend tn then ([T_Recv u], newer last slot, Returned)
      else prepend [T_Recv u; T_Forward u] (process rest (newer last slot))
    end
  end.
Definition residual (pc : goroutine) (attempts : list attempt) : list stream_event * Z * status :=
  match pc with
  | G_Top current => loop attempts current
  | G_Subscribe current =>
    match attempts with
    | [] => ([], current, Streams.Running)
    | a :: rest => subscribing a rest current
    end
  | G_SendErr err current => prepend [T_Error err] (after_wait attempts current)
  | G_Turn turns last current => after_stream attempts current (process turns last)
  | G_Recv tn turns last current => after_stream attempts current (receiving tn turns last)
  | G_Forward u done turns last current =>
    if done then after_stream attempts current ([], last, Returned)
    else prepend [T_Forward u] (after_stream attempts current (process turns last))
  | G_Wait current => after_wait attempts current
  | G_CloseErrs current | G_CloseUpdates current | G_Exited current => ([], current, Returned)
  | G_Panicked current => ([], current, Panicked)
  end.

Lemma prepend_app t1 t2 r : prepend (t1 ++ t2) r = prepend t1 (prepend t2 r).
Proof. destruct r as [[tr c] st]. simpl. by rewrite app_assoc. Qed.
Lemma prepend_nil r : prepend [] r = r.
Proof. by destruct r as [[tr c] st]. Qed.
Lemma after_stream_prepend attempts current tr r :
  after_stream attempts current (prepend tr r) = prepend tr (after_stream attempts current r).
Proof. destruct r as [[tr' last] st]. simpl. destruct st; try done. by rewrite prepend_app. Qed.

Lemma loop_subscribing a rest current :
  loop (a :: rest) current = if at_done a then ([], current, Returned) else subscribing a rest current.
Proof.
  cbn [stream_loop]. unfold subscribing. destruct (at_done a); [done|].
  destruct (at_subscribe a); [done|]. destruct (at_send a); [done|].
  destruct (process (at_turns a) 0) as [[tr last] []]; try done. simpl. unfold newer.
  by destruct (wait_then _ _ _ _) as [[? ?] ?].
Qed.
Lemma process_receiving tn rest last :
  process (tn :: rest) last = if tn_done tn then ([], last, Returned) else receiving tn rest last.
Proof.
  cbn [processStream]. unfold receiving. destruct (tn_done tn); [done|].
  destruct (tn_recv tn) as [u| |]; [|done|done]. destruct (extract u) as [slot|]; [|done].
  fold (newer last slot). destruct (tn_doneSend tn); [done|].
  by destruct (process rest (newer last slot)) as [[tr last'] st].
Qed.

(** What a step of the goroutine changes. *)
Record advance (s s' : sys) (tr : list stream_event) : Prop := {
  ad_trace : sy_trace s' = sy_trace s ++ tr;
  ad_residual : residual (sy_pc s) (sy_attempts s) = prepend tr (residual (sy_pc s') (sy_attempts s'));
  ad_updates : sy_updates s' = sy_updates s ++ forwarded tr;
  ad_errs : sy_errs s' = sy_errs s ++ errors_of tr;
  ad_room : (length (sy_updates s) <= capacity → length (sy_updates s') <= capacity)%nat;
  ad_room1 : (length (sy_errs s) <= 1 → length (sy_errs s') <= 1)%nat;
  ad_closed : sy_updatesClosed s' = sy_updatesClosed s ∨ ∃ current, sy_pc s' = G_Exited current;
  ad_open : ∀ current, sy_pc s ≠ G_Exited current;
  ad_rest : sy_cancelled s' = sy_cancelled s ∧ sy_processor s' = sy_processor s
    ∧ sy_handled s' = sy_handled s ∧ sy_result s' = sy_result s;
}.

Lemma advance_goto s pc tr :
  forwarded tr = [] → errors_of tr = [] → (∀ current, sy_pc s ≠ G_Exited current) →
  residual (sy_pc s) (sy_attempts s) = prepend tr (residual pc (sy_attempts s)) →
  advance s (goto pc tr s) tr.
Proof. intros Hf He Ho Hr. split; simpl; rewrite ?Hf, ?He, ?app_nil_r; auto. Qed.

(** The history of a goroutine and what is left of it are one run of [stream_loop]. *)
Lemma gstep_advance s s' : gstep s = Some s' → ∃ tr, advance s s' tr.
Proof.
  unfold goroutine_step. intros Hs.
  destruct (sy_pc s) as [cur|cur|err cur|turns last cur|tn turns last cur|u d turns last cur|cur|cur|cur|cur|cur]
    eqn:Hpc; [| | | | | | | | |done..].
  - destruct (sy_attempts s) as [|a rest] eqn:Ha; [done|]. case_bool_decide; [done|].
    injection Hs as <-. exists []. apply advance_goto; [done|done|by rewrite Hpc|].
    rewrite Hpc, Ha. unfold residual at 1. rewrite loop_subscribing, prepend_nil. by destruct (at_done a).
  - destruct (sy_attempts s) as [|a rest] eqn:Ha; [done|].
    assert (residual (sy_pc s) (sy_attempts s) = subscribing a rest cur) as Hr by (by rewrite Hpc, Ha).
    unfold subscribing in Hr. destruct (at_subscribe a); [|destruct (at_send a)];
      injection Hs as <-; eexists; (apply advance_goto; [done|done|by rewrite Hpc|]);
      rewrite Hr, Ha; simpl; by rewrite ?prepend_nil.
  - destruct (Nat.ltb_spec (length (sy_errs s)) 1); [|done]. injection Hs as <-. exists [T_Error err].
    split; simpl; rewrite ?Hpc, ?app_nil_r, ?length_app; simpl; auto; lia.
  - destruct turns as [|tn rest]; [done|]. case_bool_decide; [done|].
    injection Hs as <-. exists []. apply advance_goto; [done|done|by rewrite Hpc|].
    rewrite Hpc. unfold residual at 1. rewrite process_receiving, prepend_nil.
    destruct (tn_done tn); [|done]. cbn [after_stream residual]. by rewrite prepend_nil.
  - assert (residual (sy_pc s) (sy_attempts s) = after_stream (sy_attempts s) cur (receiving tn turns last))
      as Hr by (by rewrite Hpc).
    unfold receiving in Hr. destruct (tn_recv tn) as [u| |err]; [destruct (extract u) as [slot|]| |];
      injection Hs as <-; eexists; (apply advance_goto; [done|done|by rewrite Hpc|]); rewrite Hr;
      cbn [residual after_stream]; rewrite ?prepend_nil; try done.
    destruct (tn_doneSend tn); cbn [after_stream]; rewrite ?prepend_nil; [done|].
    by rewrite after_stream_prepend, <- prepend_app.
  - destruct d.
    + destruct (sy_cancelled s); [|done]. injection Hs as <-. exists [].
      apply advance_goto; [done|done|by rewrite Hpc|]. rewrite Hpc. simpl. by rewrite prepend_nil.
    + destruct (Nat.ltb_spec (length (sy_updates s)) capacity); [|done]. injection Hs as <-. exists [T_Forward u].
      split; simpl; rewrite ?Hpc, ?app_nil_r, ?length_app; simpl; auto; lia.
  - destruct (sy_attempts s) as [|a rest] eqn:Ha; [done|].
    assert (residual (sy_pc s) (sy_attempts s) = after_wait (a :: rest) cur) as Hr by (by rewrite Hpc, Ha).
    simpl in Hr. unfold wait_then in Hr. destruct (at_doneWait a && waitCancellable).
    + destruct (sy_cancelled s); [|done]. injection Hs as <-. exists [].
      by apply advance_goto; [done|done|by rewrite Hpc|].
    + injection Hs as <-. exists []. split; simpl; rewrite ?app_nil_r; auto; try by rewrite Hpc.
      by rewrite Hr, Ha, prepend_nil.
  - injection Hs as <-. exists []. split; simpl; rewrite ?Hpc, ?app_nil_r; auto. left. apply orb_false_r.
  - injection Hs as <-. exists []. split; simpl; rewrite ?Hpc, ?app_nil_r; auto. right. by eexists.
Qed.

(** More choices for a consumer that has not returned. *)
Lemma clientLoop_app picks more sb (p p' : P) us :
  clientLoop HandleUpdate_ ctx picks sb p = (p', us, None) →
  clientLoop HandleUpdate_ ctx (picks ++ more) sb p
  = let '(q, vs, r) := clientLoop HandleUpdate_ ctx more
      (mkSubscription (drop (length us) (sb_updates sb)) (sb_errs sb) (sb_closed sb) (sb_panics sb)) p' in
    (q, us ++ vs, r).
Proof.
  revert sb p us. induction picks as [|k picks IH]; intros sb p us Hc; simpl in *.
  - injection Hc as <- <-. simpl. destruct sb. by destruct (clientLoop _ _ more _ p) as [[q vs] r].
  - destruct k; [done| |].
    + destruct (sb_errs sb) eqn:He; [|done]. rewrite <- He. by apply IH.
    + destruct sb as [[|u updates] es cl]; simpl in *.
      * destruct cl; [done|]. rewrite (IH _ _ _ Hc). simpl. by rewrite drop_nil.
      * destruct (HandleUpdate_ ctx (Some u) p) as [p1 [[]|err]]; [|done].
        destruct (clientLoop _ _ picks _ p1) as [[p2 us2] r2] eqn:Hl. injection Hc as <- <- ->.
        rewrite (IH _ _ _ Hl). simpl. by destruct (clientLoop _ _ more _ p2) as [[q vs] r].
Qed.

(** ** The invariant *)

Section invariant.
Context (attempts : list attempt) (startSlot : Z) (p0 : P).
Notation run := (loop attempts startSlot).
Notation consumed s picks :=
  (clientLoop HandleUpdate_ ctx picks (subscription_of run) p0 = (sy_processor s, sy_handled s, sy_result s)).

Record sys_inv (s : sys) : Prop := {
  inv_trace : prepend (sy_trace s) (residual (sy_pc s) (sy_attempts s)) = run;
  inv_updates : forwarded (sy_trace s) = sy_handled s ++ sy_updates s;
  inv_errs : sy_result s = None → errors_of (sy_trace s) = sy_errs s;
  inv_room : (length (sy_updates s) <= capacity)%nat ∧ (length (sy_errs s) <= 1)%nat;
  inv_closed : sy_updatesClosed s = true → ∃ current, sy_pc s = G_Exited current;
  inv_consumed : ∃ picks, consumed s picks;
}.

Lemma errors_of_app t1 t2 : errors_of (t1 ++ t2) = errors_of t1 ++ errors_of t2.
Proof. apply omap_app. Qed.

Lemma sys_inv_subscribed : sys_inv (subscribed attempts startSlot p0).
Proof. split; simpl; rewrite ?prepend_nil; try done; [split; lia|by exists []]. Qed.

Lemma sys_inv_goroutine s s' : gstep s = Some s' → sys_inv s → sys_inv s'.
Proof.
  intros [tr [Ht Hr Hu He Hm Hm1 Hcl Ho (Hca & Hp & Hh & Hres)]]%gstep_advance [It Iu Ie [Ir Ir1] Ic [picks Ip]].
  split.
  - by rewrite <- It, Hr, Ht, prepend_app.
  - by rewrite Ht, forwarded_app, Iu, Hu, Hh, app_assoc.
  - rewrite Hres, Ht, errors_of_app, He. intros Hn. by rewrite Ie.
  - auto.
  - intros Hc. destruct Hcl as [Hcl|?]; [|done]. rewrite Hcl in Hc.
    destruct (Ic Hc) as [cur Hcur]. by destruct (Ho cur).
  - exists picks. by rewrite Hp, Hh, Hres.
Qed.

(** What the consumer finds is what the lists of the run have next. *)
Lemma run_split s :
  sys_inv s →
  ∃ us es, sb_updates (subscription_of run) = sy_handled s ++ sy_updates s ++ us
  ∧ sb_errs (subscription_of run) = errors_of (sy_trace s) ++ es
  ∧ (sy_updatesClosed s = true → sb_closed (subscription_of run) = true ∧ us = []).
Proof.
  intros [It Iu _ _ Ic _]. rewrite <- It.
  destruct (residual (sy_pc s) (sy_attempts s)) as [[tr cur] st] eqn:Hr. simpl.
  exists (forwarded tr), (errors_of tr). rewrite forwarded_app, errors_of_app, Iu, app_assoc.
  split_and!; [done|done|]. intros [c Hc]%Ic. rewrite Hc in Hr. simpl in Hr. by injection Hr as <- <- <-.
Qed.

Lemma sys_inv_consumer k s s' : cstep k s = Some s' → sys_inv s → sys_inv s'.
Proof.
  intros Hs Hinv. pose proof (run_split s Hinv) as (us & es & Hus & Hes & Hcl).
  destruct Hinv as [It Iu Ie [Ir Ir1] Ic [picks Ip]].
  unfold consumer_step in Hs. destruct (sy_result s) as [|] eqn:Hres; [done|].
  pose proof (λ k, clientLoop_app picks [k] _ _ _ _ Ip) as Happ.
  rewrite Hus, drop_app_length in Happ. rewrite Ie in Hes by done.
  destruct k; [specialize (Happ P_Done)|specialize (Happ P_Err)|specialize (Happ P_Update)]; simpl in Happ.
  - injection Hs as <-. split; simpl; rewrite ?app_nil_r; auto.
    eexists. rewrite Happ. by rewrite app_nil_r.
  - rewrite Hes in Happ. destruct (sy_errs s) as [|err errs] eqn:He; simpl in Happ.
    + destruct (sy_errsClosed s); [|done]. injection Hs as <-.
      split; rewrite ?Hres, ?He; auto. exists picks. by rewrite Ip.
    + injection Hs as <-. split; simpl in *; rewrite ?app_nil_r; auto; [done|split; [done|lia]|].
      eexists. rewrite Happ. by rewrite app_nil_r.
  - destruct (sy_updates s) as [|u updates] eqn:Hu; simpl in Happ.
    + destruct (sy_updatesClosed s) eqn:Hc; [|done]. injection Hs as <-.
      destruct (Hcl eq_refl) as [Hcl' ->]. rewrite Hcl' in Happ. simpl in Happ.
      rewrite app_nil_r in Iu. split; simpl; rewrite ?app_nil_r; auto.
      eexists. rewrite Happ. by rewrite app_nil_r.
    + destruct (HandleUpdate_ ctx (Some u) (sy_processor s)) as [p [[]|err]]; injection Hs as <-;
        (split; simpl in *; rewrite <- ?app_assoc; auto with lia; eexists; exact Happ).
Qed.

Lemma sys_inv_close s s' : close_step s = Some s' → sys_inv s → sys_inv s'.
Proof.
  unfold close_step. intros Hs [It Iu Ie Ir Ic Ip]. destruct (sy_result s) eqn:Hres; [|done].
  destruct (sy_cancelled s); [done|]. injection Hs as <-. split; simpl; rewrite ?Hres; done.
Qed.

Lemma sys_inv_reachable s :
  reachable window waitCancellable extract errors capacity HandleUpdate_ ctx attempts startSlot p0 s → sys_inv s.
Proof.
  intros Hs. unfold reachable in Hs.
  refine (rtc_ind_r sys_inv _ sys_inv_subscribed _ s Hs). intros s1 s2 _ Hstep.
  destruct Hstep; [by apply sys_inv_goroutine|by eapply sys_inv_consumer|by apply sys_inv_close].
Qed.
End invariant.

(** ** After [Close] *)

(** The steps that the goroutine can still make once its context is cancelled, and
    the errors it can still send. *)
Definition steps_left (pc : goroutine) : nat :=
  match pc with
  | G_Exited _ | G_Panicked _ => 0
  | G_CloseUpdates _ => 1
  | G_CloseErrs _ => 2
  | G_Top _ => 3
  | G_Wait _ => 4
  | G_SendErr _ _ | G_Turn _ _ _ => 5
  | G_Forward _ _ _ _ _ => 6
  | G_Recv _ _ _ _ => 7
  | G_Subscribe _ => 6
  end.
Definition may_send (pc : goroutine) : bool := (4 <? steps_left pc)%nat.

(** The client is closed and a send of an error finds room. *)
Definition winding_down (s : sys) : Prop :=
  sy_cancelled s = true ∧ is_Some (sy_result s) ∧ (may_send (sy_pc s) = true → sy_errs s = []).

Lemma winding_down_step s s' :
  step s s' → winding_down s → winding_down s' ∧ (S (steps_left (sy_pc s')) <= steps_left (sy_pc s))%nat.
Proof.
  intros [s1 s2 Hs|k s1 s2 Hs|s1 s2 Hs] (Hc & [e Hr] & He); [| |unfold close_step in Hs; by rewrite Hr, Hc in Hs].
  - unfold goroutine_step in Hs. unfold winding_down.
    destruct (sy_pc s1) as [cur|cur|err cur|turns last cur|tn turns last cur|u d turns last cur|cur|cur|cur|cur|cur];
      unfold may_send in He; simpl in He; try specialize (He eq_refl); try rewrite Hc in Hs; [| | | | | | | | |done..].
    + destruct (sy_attempts s1) as [|a rest]; [done|]. case_bool_decide as Hd; [done|].
      rewrite Hd in Hs. injection Hs as <-. simpl. eauto 7 with lia.
    + destruct (sy_attempts s1) as [|a rest]; [done|].
      destruct (at_subscribe a); [|destruct (at_send a)]; injection Hs as <-; simpl; eauto 7 with lia.
    + rewrite He in Hs. injection Hs as <-. simpl. split; [|lia]. split_and!; [done|by eexists|done].
    + destruct turns as [|tn rest]; [done|]. case_bool_decide as Hd; [done|].
      rewrite Hd in Hs. injection Hs as <-. simpl. eauto 7 with lia.
    + destruct (tn_recv tn) as [u| |err]; [destruct (extract u)| |]; injection Hs as <-; simpl; eauto 7 with lia.
    + destruct d; [|destruct (_ <? _)%nat; [|done]]; injection Hs as <-; simpl; eauto 7 with lia.
    + destruct (sy_attempts s1) as [|a rest]; [done|].
      destruct (_ && _); injection Hs as <-; simpl; (split; [|lia]); (split_and!; [done|by eexists|done]).
    + injection Hs as <-. simpl. (split; [|lia]). split_and!; [done|by eexists|done].
    + injection Hs as <-. simpl. (split; [|lia]). split_and!; [done|by eexists|done].
  - unfold consumer_step in Hs. by rewrite Hr in Hs.
Qed.

Lemma winding_down_nsteps n s s' :
  nsteps step n s s' → winding_down s →
  winding_down s' ∧ (n + steps_left (sy_pc s') <= steps_left (sy_pc s))%nat.
Proof.
  induction 1 as [s|n s1 s2 s3 Hs _ IH]; intros Hw; [split; [done|lia]|].
  destruct (winding_down_step _ _ Hs Hw) as [Hw2 Hle]. destruct (IH Hw2) as [Hw3 Hle3]. split; [done|lia].
Qed.
End lemmas.

(** ** Properties *)

Section properties.
Context (window : Z) (waitCancellable : bool) (extract : SubscribeUpdate → option Z)
  (errors : client_errors) (capacity : nat).
Context {P : Type} (HandleUpdate_ : context → option SubscribeUpdate → M P ()) (ctx : context).
Notation loop := (stream_loop window waitCancellable extract errors).
Notation step := (step window waitCancellable extract errors capacity HandleUpdate_ ctx).
Notation reachable := (reachable window waitCancellable extract errors capacity HandleUpdate_ ctx).

(** C16. However the steps of the goroutine of [Subscribe], of the consumer in
    [runClient] and of [Close] interleave, in every state they reach: the goroutine
    has done what [stream_loop] does, up to there; the processor was given the
    updates that were forwarded, in order, except those still in the channel, of
    which there are never more than its capacity; and the consumer has done what
    [clientLoop] does with the lists that [Subscribe] gives in [Failover.v], for
    some choice of its [select]. *)
Theorem concurrent_refines {N Cfg} `{Grpc N} (client : StreamClient Cfg N) net attempts startSlot p0 s :
  cl_cancelled client = false → grpc_Streams (cl_net client) = (net, attempts) →
  reachable attempts startSlot p0 s →
  (∃ later, prepend (sy_trace s) later = loop attempts startSlot)
  ∧ forwarded (sy_trace s) = sy_handled s ++ sy_updates s
  ∧ (length (sy_updates s) <= capacity)%nat
  ∧ ∃ picks, clientLoop HandleUpdate_ ctx picks (subscribe_with loop startSlot client).2 p0
             = (sy_processor s, sy_handled s, sy_result s).
Proof.
  intros Hc Hn Hs. apply sys_inv_reachable in Hs as [It Iu _ [Ir _] _ Ip].
  unfold subscribe_with. rewrite Hn, Hc. eauto.
Qed.

(** C17. The goroutine ends once its client is closed: when no error is waiting in
    its channel at that time, it makes at most 7 steps more, whatever they are, and
    never waits at the error channel. Otherwise it may: a goroutine that waits there
    after [Close], and with it the system, makes no step again. *)
Theorem goroutine_ends s s1 :
  close_step s = Some s1 →
  (sy_errs s = [] → ∀ n s2, nsteps step n s1 s2 → (n <= 7)%nat ∧ ¬ blocked s2)
  ∧ (∀ s2, rtc step s1 s2 → blocked s2 → ∀ s3, ¬ step s2 s3).
Proof.
  unfold close_step. intros Hs. destruct (sy_result s) as [e|] eqn:Hr; [|done].
  destruct (sy_cancelled s); [done|]. injection Hs as <-. split.
  - intros He n s2 Hn. edestruct (winding_down_nsteps window waitCancellable extract errors) as [Hw Hl];
      [exact Hn|split_and!; [done|by eexists|done]|].
    simpl in Hl. split.
    + assert (steps_left (sy_pc s) <= 7)%nat by (destruct (sy_pc s); simpl; lia). lia.
    + intros [(err & cur & Hpc) Hb]. destruct Hw as (_ & _ & Hw). rewrite Hpc in Hw.
      rewrite Hw in Hb by done. simpl in Hb. lia.
  - intros s2 Hs2 Hb s3 Hs3. assert (sy_cancelled s2 = true ∧ is_Some (sy_result s2)) as [Hc2 [e2 Hr2]].
    { refine (rtc_ind_r (λ s, sy_cancelled s = true ∧ is_Some (sy_result s)) _ _ _ _ Hs2).
      - split; [done|by eexists].
      - intros x y _ [x1 y1 Hg|k x1 y1 Hg|x1 y1 Hg] [Hc [e' Hr']].
        + apply gstep_advance in Hg as [tr [_ _ _ _ _ _ _ _ (-> & _ & _ & ->)]]. split; [done|by eexists].
        + unfold consumer_step in Hg. by rewrite Hr' in Hg.
        + unfold close_step in Hg. by rewrite Hr', Hc in Hg. }
    destruct Hb as [(err & cur & Hpc) Hb]. destruct Hs3 as [x y Hg|k x y Hg|x y Hg].
    + unfold goroutine_step in Hg. rewrite Hpc in Hg. destruct (Nat.ltb_spec (length (sy_errs x)) 1); [lia|done].
    + unfold consumer_step in Hg. by rewrite Hr2 in Hg.
    + unfold close_step in Hg. by rewrite Hr2, Hc2 in Hg.
Qed.
End properties.

(** ** Witnesses *)

Section witnesses.
#[local] Existing Instance TestNet_Grpc.

(** Two streams; the first gives two updates and fails, the second fails. *)
Definition broken_attempts : list attempt :=
  [mkAttempt false None None
     [example_turn 1000; example_turn 1001; mkTurn false (R_Err (Sentinel "reset")) false] false;
   mkAttempt false None None [mkTurn false (R_Err (Sentinel "refused")) false] false;
   mkAttempt true None None [] false].
Definition broken_client : GeyserClient (N:=TestNet) :=
  mkClient (GeyserConfig.mkConfig "grpc:443" "key" ∅) true false [broken_attempts].
(** The processor fails at its second update. *)
Definition failing_handle (_ : context) (u : option SubscribeUpdate) : M (list SubscribeUpdate) () :=
  λ l, (l ++ option_list u,
        if bool_decide (l = []) then Ok tt else Err (Sentinel "publish timeout")).
Notation broken_schedule ms :=
  (scheduled ReplaySlotWindow true extractSlotFromUpdate geyser_errors geyser_capacity failing_handle Background
     ms (subscribed broken_attempts 0 [])).
Notation broken_reachable := (reachable ReplaySlotWindow true extractSlotFromUpdate geyser_errors
  geyser_capacity failing_handle Background broken_attempts 0 []).
Notation broken_step := (step ReplaySlotWindow true extractSlotFromUpdate geyser_errors geyser_capacity
  failing_handle Background).

(** The goroutine forwards both updates and sends the error; the consumer has taken
    one update. *)
Definition midway : list mover := replicate 11 Goroutine ++ [Consumer P_Update].
Lemma concurrent_refines_witness :
  ∃ s, broken_schedule midway = Some s
  ∧ length (sy_updates s) = 1%nat ∧ length (sy_errs s) = 1%nat
  ∧ ∃ picks, clientLoop failing_handle Background picks
      (subscribe_with geyser_subscribeLoop 0 broken_client).2 []
    = (sy_processor s, sy_handled s, sy_result s).
Proof.
  destruct (broken_schedule midway) as [s|] eqn:Hs; [|vm_compute in Hs; discriminate Hs].
  exists s. split; [reflexivity|].
  assert (length (sy_updates s) = 1%nat ∧ length (sy_errs s) = 1%nat) as [Hu He].
  { vm_compute in Hs. injection Hs as <-. split; reflexivity. }
  split; [exact Hu|]. split; [exact He|].
  apply (concurrent_refines ReplaySlotWindow true extractSlotFromUpdate geyser_errors geyser_capacity
    failing_handle Background broken_client [] broken_attempts 0 [] s);
    [reflexivity|reflexivity|exact (scheduled_steps _ _ _ _ _ _ _ _ _ _ Hs)].
Defined.

(** The consumer takes the error, so the goroutine ends. *)
Definition orderly : list mover := midway ++ [Consumer P_Err].
Lemma goroutine_ends_witness :
  ∃ s s1, broken_schedule orderly = Some s ∧ close_step s = Some s1
  ∧ ∀ n s2, nsteps broken_step n s1 s2 → (n <= 7)%nat ∧ ¬ blocked s2.
Proof.
  destruct (broken_schedule orderly) as [s|] eqn:Hs; [|vm_compute in Hs; discriminate Hs].
  destruct (close_step s) as [s1|] eqn:Hc; cycle 1.
  { vm_compute in Hs. injection Hs as <-. vm_compute in Hc. discriminate Hc. }
  exists s, s1. split; [reflexivity|]. split; [exact Hc|].
  apply (goroutine_ends ReplaySlotWindow true extractSlotFromUpdate geyser_errors geyser_capacity
    failing_handle Background s s1 Hc).
  vm_compute in Hs. injection Hs as <-. reflexivity.
Defined.

(** The consumer returns because the processor failed, with the error of the first
    stream unread: the goroutine waits for ever to send the error of the second. *)
Lemma goroutine_leaks :
  ∃ s, broken_reachable s ∧ sy_cancelled s = true ∧ sy_result s = Some (Sentinel "publish timeout")
  ∧ blocked s ∧ ∀ s', ¬ broken_step s s'.
Proof.
  destruct (broken_schedule (replicate 16 Goroutine ++ [Consumer P_Update; Consumer P_Update; Closer]))
    as [s|] eqn:Hs; [|vm_compute in Hs; discriminate Hs].
  exists s. pose proof (scheduled_steps _ _ _ _ _ _ _ _ _ _ Hs) as Hr.
  vm_compute in Hs. injection Hs as <-. split; [exact Hr|]. split; [reflexivity|]. split; [reflexivity|].
  split; [split; [by do 2 eexists|simpl; lia]|].
  intros s' Hstep. inversion Hstep as [x y Hg|k x y Hg|x y Hg]; subst; discriminate Hg.
Qed.
End witnesses.
