(* ===== verification/Services.v ===== *)
(** * Construction of the services

    How the services are put together: [sinks/nats/publisher.go] ([NewPublisher],
    [Close]), [ingestor/geyser/service.go] and [failover_service.go]
    ([setupPipeline], [NewService], [NewFailoverService]), and [NewService] and
    [Run] of [sinks/clickhouse/service.go] and [sinks/parquet/service.go].

    The NATS client library is the class [Nats]: a connection is a number, and
    [open_conns] are the connections nobody closed. The registration of Prometheus
    metrics on a new registry does not fail and is left out. [None] is a panic. *)

From S2P Require Import Prelude GoStrings Bytes Proto Publisher SlotCache.
From S2P Require Import Processor Sink ClickHouse Parquet.
From S2P Require Import GeyserConfig HeliusConfig Streams Failover.
Local Open Scope list_scope.

(** ** The NATS client library *)

(** [nats.Connect], with the name option if there is one; [conn.JetStream];
    [js.PullSubscribe] with [BindStream] and [ManualAck]; [conn.Close];
    [conn.Drain], which closes the connection later. *)
Class Nats (N J : Type) := {
  nats_Connect : string → option string → M N nat;
  nats_JetStream : nat → M N J;
  nats_PullSubscribe : nat → string → string → string → M N ();
  nats_Close : nat → N → N;
  nats_Drain : nat → N → N;
  open_conns : N → gset nat;
  open_Connect url name n :
    match nats_Connect url name n with
    | (n', Ok c) => c ∉ open_conns n ∧ open_conns n' = {[c]} ∪ open_conns n
    | (n', Err _) => open_conns n' = open_conns n
    end;
  open_JetStream c n : open_conns (nats_JetStream c n).1 = open_conns n;
  open_PullSubscribe c subject durable stream n :
    open_conns (nats_PullSubscribe c subject durable stream n).1 = open_conns n;
  open_Close c n : open_conns (nats_Close c n) = open_conns n ∖ {[c]};
  open_Drain c n : open_conns n ∖ {[c]} ⊆ open_conns (nats_Drain c n) ⊆ open_conns n;
}.

Section services.
Context {N J : Type} `{Nats N J}.

(** ** sinks/nats/publisher.go *)

(** The connection of the publisher and the publisher. *)
Definition NewPublisher (cfg : Publisher.Config) : M N (nat * Publisher J) := λ n,
  match Publisher.Validate cfg with
  | Err err => (n, Err err)
  | Ok _ =>
    match nats_Connect (Publisher.URL cfg) (Some "solana-liquidity-indexer") n with
    | (n, Err err) => (n, Err (Wrapf "connect to nats: %w" [] err))
    | (n, Ok conn) =>
      match nats_JetStream conn n with
      | (n, Err err) => (nats_Close conn n, Err (Wrapf "jetstream context: %w" [] err))
      | (n, Ok js) => (n, Ok (conn, mkPublisher cfg js []))
      end
    end
  end.

(** A nil connection is [None]. *)
Definition Publisher_Close (conn : option nat) (n : N) : N :=
  match conn with None => n | Some c => nats_Close c (nats_Drain c n) end.

(** ** ingestor/geyser/service.go *)

Definition buildMetricsServer (addr : string) : option metrics_server :=
  if bool_decide (addr = "") then None else Some MS_Idle.

Notation processor_t := (Processor (Publisher J) MemorySlotTimeCache).

(** The connection of the publisher, the processor and the metrics server. *)
Definition setupPipeline (natsCfg : Publisher.Config) (metricsAddr : string) :
    M N (nat * processor_t * option metrics_server) := λ n,
  match NewPublisher natsCfg n with
  | (n, Err err) => (n, Err (Wrapf "init nats publisher: %w" [] err))
  | (n, Ok (conn, publisher)) =>
    (n, Ok (conn, NewProcessor publisher NewMemorySlotTimeCache, buildMetricsServer metricsAddr))
  end.

(** [gs_conn] is the field of the publisher. *)
Record Service (C : Type) := mkService {
  gs_client : C;
  gs_conn : nat;
  gs_processor : processor_t;
  gs_metricsAddr : string;
  gs_metricsServer : option metrics_server;
}.
Arguments mkService {C} _ _ _ _ _.
Arguments gs_client {C} _.
Arguments gs_conn {C} _.
Arguments gs_processor {C} _.
Arguments gs_metricsAddr {C} _.
Arguments gs_metricsServer {C} _.

Section geyser.
Context {G : Type} `{Grpc G, !RangeOrder string string}.

Definition geyser_NewService (geyserCfg : option GeyserConfig.Config) (net : G)
    (natsCfg : Publisher.Config) (metricsAddr : string) : M N (Service (GeyserClient (N:=G))) := λ n,
  match geyserCfg with
  | None => (n, Err (Errorf "geyser config is required" []))
  | Some geyserCfg =>
    match geyser_NewClient geyserCfg net with
    | Err err => (n, Err (Wrapf "init geyser client: %w" [] err))
    | Ok client =>
      match setupPipeline natsCfg metricsAddr n with
      | (n, Err err) => (n, Err err)
      | (n, Ok (conn, processor, server)) => (n, Ok (mkService client conn processor metricsAddr server))
      end
    end
  end.
End geyser.

(** ** ingestor/geyser/failover_service.go *)

Record failover_service (C : Type) := mkFailoverService {
  fs_service : FailoverService processor_t C;
  fs_conn : nat;
  fs_metricsServer : option metrics_server;
}.
Arguments mkFailoverService {C} _ _ _.
Arguments fs_service {C} _.
Arguments fs_conn {C} _.
Arguments fs_metricsServer {C} _.

Definition failover_NewService {C} (primary fallback : option C) (natsCfg : Publisher.Config)
    (metricsAddr : string) : M N (failover_service C) := λ n,
  match primary with
  | None => (n, Err (Errorf "primary client is required" []))
  | Some primary =>
    match setupPipeline natsCfg metricsAddr n with
    | (n, Err err) => (n, Err err)
    | (n, Ok (conn, processor, server)) =>
      (n, Ok (mkFailoverService (NewFailoverService primary fallback processor) conn server))
    end
  end.

(** The same as that of [Service]. *)
Definition failover_shutdownMetrics : option metrics_server → option metrics_server := shutdownMetrics.

(** [Run], with the metrics server: the only return of the loop shuts it down. *)
Definition failoverRun {C} `{ClientInterface C} handle ctx ctxErr startSlot turns
    (s : failover_service C) : failover_service C * option (option error) :=
  let '(fs, r) := Failover.Run handle ctx ctxErr startSlot turns 0 (fs_service s) in
  let server := serveMetrics (fs_metricsServer s) in
  (mkFailoverService fs (fs_conn s) (match r with Some _ => failover_shutdownMetrics server | None => server end), r).

(** ** The sink services *)

(** What both [NewService] do once the writer exists: connect, take JetStream and
    subscribe. *)
Definition subscribeSink (url subject durable stream : string) : M N (nat * J) := λ n,
  match nats_Connect url None n with
  | (n, Err err) => (n, Err (Wrapf "connect nats: %w" [] err))
  | (n, Ok conn) =>
    match nats_JetStream conn n with
    | (n, Err err) => (nats_Close conn n, Err (Wrapf "jetstream: %w" [] err))
    | (n, Ok js) =>
      match nats_PullSubscribe conn subject durable stream n with
      | (n, Err err) => (nats_Close conn n, Err (Wrapf "pull subscribe: %w" [] err))
      | (n, Ok _) => (n, Ok (conn, js))
      end
    end
  end.

(** [time.NewTicker] panics on an interval that is not positive. *)
Definition NewTicker (d : Z) : option () := if 0 <? d then Some tt else None.

(** What a sink service holds: its writer or processor, and its connection. *)
Record sink_service (Cfg W : Type) := mkSinkService {
  ss_cfg : Cfg;
  ss_conn : nat;
  ss_js : J;
  ss_sink : W;
}.
Arguments mkSinkService {Cfg W} _ _ _ _.
Arguments ss_cfg {Cfg W} _.
Arguments ss_conn {Cfg W} _.
Arguments ss_js {Cfg W} _.
Arguments ss_sink {Cfg W} _.

(** After the loop of [Run] has returned, the deferred [Drain] and the ticker's [Stop]. *)
Definition drained {Cfg W} (svc : sink_service Cfg W) (r : option error) (n : N) : N :=
  match r with Some _ => nats_Drain (ss_conn svc) n | None => n end.

Section clickhouse.
Context `{ChProto} {C D : Type} `{!ChDial D C, !TradeWriter (ClickHouse.Writer C)}.
Context `{ProtoUnmarshal} (unicode_lower : Z → Z) (url_Parse : string → result ClickHouse.URL).

(** The clients of ClickHouse are in [D], those of NATS in [N]. *)
Definition clickhouse_NewService (cfg : ClickHouse.ServiceConfig) :
    M (D * N) (sink_service ClickHouse.ServiceConfig (ClickHouse.Writer C)) := λ '(d, n),
  match NewWithConfig unicode_lower url_Parse (ClickHouse.sc_Writer cfg) d with
  | (d, Err err) => ((d, n), Err err)
  | (d, Ok writer) =>
    match subscribeSink (ClickHouse.sc_NATSURL cfg) (ClickHouse.sc_SubjectRoot cfg +:+ ".>")
            (ClickHouse.sc_Consumer cfg) (ClickHouse.sc_Stream cfg) n with
    | (n, Err err) => ((d, n), Err err)
    | (n, Ok (conn, js)) => ((d, n), Ok (mkSinkService cfg conn js writer))
    end
  end.

(** [Run], [None] when the ticker panics. *)
Definition clickhouse_Run (ctx : context) (rounds : list round)
    (svc : sink_service ClickHouse.ServiceConfig (ClickHouse.Writer C)) (n : N) :
    N * option (loop_state (processor (ClickHouse.Writer C)) * option error) :=
  match NewTicker (ClickHouse.FlushInterval (ClickHouse.sc_Writer (ss_cfg svc))) with
  | None => (n, None)
  | Some _ =>
    let '(s, r) := ClickHouse.Run unicode_lower ctx rounds (ss_sink svc) in
    (drained svc r n, Some (s, r))
  end.
End clickhouse.

Section parquet.
Context `{ParquetCodec} {U : Type} `{S3World U} `{!RangeOrder string (list candleRow)}.
Context `{ProtoUnmarshal} (newSession : Parquet.Config → result U).

(** [NewService]: the ticker is started last. *)
Definition parquet_NewService (cfg : Parquet.ServiceConfig) (n : N) :
    N * option (result (sink_service Parquet.ServiceConfig (Parquet.Writer U))) :=
  match NewWriter newSession (Parquet.sc_Writer cfg) with
  | Err err => (n, Some (Err err))
  | Ok writer =>
    match subscribeSink (Parquet.sc_NATSURL cfg) (Parquet.sc_SubjectRoot cfg +:+ ".candle.>")
            (Parquet.sc_Consumer cfg) (Parquet.sc_Stream cfg) n with
    | (n, Err err) => (n, Some (Err err))
    | (n, Ok (conn, js)) =>
      match NewTicker (Parquet.FlushInterval (Parquet.sc_Writer cfg)) with
      | None => (n, None)
      | Some _ => (n, Some (Ok (mkSinkService cfg conn js writer)))
      end
    end
  end.

Definition parquet_Run (ctx : context) (rounds : list round)
    (svc : sink_service Parquet.ServiceConfig (Parquet.Writer U)) (n : N) :
    N * (loop_state (Parquet.Writer U) * option error) :=
  let '(s, r) := Parquet.Run ctx rounds (ss_sink svc) in
  (drained svc r n, (s, r)).
End parquet.

End services.
Arguments Service J C : clear implicits.
Arguments failover_service J C : clear implicits.
Arguments sink_service J Cfg W : clear implicits.
Arguments mkService {J C} _ _ _ _ _.
Arguments gs_client {J C} _.
Arguments gs_conn {J C} _.
Arguments gs_processor {J C} _.
Arguments gs_metricsAddr {J C} _.
Arguments gs_metricsServer {J C} _.
Arguments mkFailoverService {J C} _ _ _.
Arguments fs_service {J C} _.
Arguments fs_conn {J C} _.
Arguments fs_metricsServer {J C} _.
Arguments mkSinkService {J Cfg W} _ _ _ _.
Arguments ss_cfg {J Cfg W} _.
Arguments ss_conn {J Cfg W} _.
Arguments ss_sink {J Cfg W} _.

(** ** Lemmas *)

Section connection_lemmas.
Context {N J : Type} `{Nats N J}.

(** A constructor that opened the connection [r], or none. *)
Definition conn_effect (r : option nat) (n n' : N) : Prop :=
  match r with
  | Some c => c ∉ open_conns n ∧ open_conns n' = {[c]} ∪ open_conns n
  | None => open_conns n' = open_conns n
  end.
Definition conn_of {A} (r : result A) (f : A → nat) : option nat :=
  match r with Ok a => Some (f a) | Err _ => None end.

Lemma closed_again (c : nat) (n n' : N) :
  conn_effect (Some c) n n' → open_conns n' ∖ {[c]} = open_conns n.
Proof. intros [Hc ->]. set_solver. Qed.

Lemma conn_effect_Connect url name n :
  conn_effect (conn_of (nats_Connect url name n).2 id) n (nats_Connect url name n).1.
Proof. pose proof (open_Connect url name n) as Ho. by destruct (nats_Connect url name n) as [n' [c|e]]. Qed.

Lemma NewPublisher_conns cfg n :
  conn_effect (conn_of (NewPublisher cfg n).2 fst) n (NewPublisher cfg n).1.
Proof.
  unfold NewPublisher. destruct (Publisher.Validate cfg); [|done].
  pose proof (conn_effect_Connect (Publisher.URL cfg) (Some "solana-liquidity-indexer") n) as Hc.
  destruct (nats_Connect _ _ n) as [n1 [c|e]]; [|done].
  pose proof (open_JetStream c n1) as Hj. destruct (nats_JetStream c n1) as [n2 [j|e]]; simpl in *.
  - by rewrite Hj.
  - rewrite open_Close, Hj. by apply closed_again.
Qed.

Lemma NewPublisher_Ok cfg n n' conn p :
  NewPublisher cfg n = (n', Ok (conn, p)) →
  Publisher.Validate cfg = Ok tt
  ∧ ∃ js n1, p = mkPublisher cfg js [] ∧ nats_JetStream conn n1 = (n', Ok js).
Proof.
  unfold NewPublisher. destruct (Publisher.Validate cfg) as [[]|]; [|done].
  destruct (nats_Connect _ _ n) as [n1 [c|e]]; [|done].
  destruct (nats_JetStream c n1) as [n2 [j|e]] eqn:Ej; [|done]. intros [= <- <- <-]. eauto.
Qed.

Lemma setupPipeline_conns cfg addr n :
  conn_effect (conn_of (setupPipeline cfg addr n).2 (fst ∘ fst)) n (setupPipeline cfg addr n).1.
Proof.
  unfold setupPipeline. pose proof (NewPublisher_conns cfg n) as Hp.
  by destruct (NewPublisher cfg n) as [n' [[c p]|e]].
Qed.

(** The pipeline starts empty, over a publisher of the given configuration. *)
Lemma setupPipeline_Ok cfg addr n n' conn p server :
  setupPipeline cfg addr n = (n', Ok (conn, p, server)) →
  Publisher.Validate cfg = Ok tt ∧ server = buildMetricsServer addr
  ∧ ∃ js n1, p = NewProcessor (mkPublisher cfg js []) NewMemorySlotTimeCache
    ∧ nats_JetStream conn n1 = (n', Ok js).
Proof.
  unfold setupPipeline. destruct (NewPublisher cfg n) as [n1 [[c pub]|e]] eqn:Ep; [|done].
  apply NewPublisher_Ok in Ep as (Hv & js & n0 & -> & Hj). intros [= <- <- <- <-].
  split_and!; [done|done|]. by exists js, n0.
Qed.

Lemma subscribeSink_conns url subject durable stream n :
  conn_effect (conn_of (subscribeSink url subject durable stream n).2 fst) n
    (subscribeSink url subject durable stream n).1.
Proof.
  unfold subscribeSink. pose proof (conn_effect_Connect url None n) as Hc.
  destruct (nats_Connect url None n) as [n1 [c|e]]; [|done].
  pose proof (open_JetStream c n1) as Hj. destruct (nats_JetStream c n1) as [n2 [j|e]]; simpl in *.
  - pose proof (open_PullSubscribe c subject durable stream n2) as Hs.
    destruct (nats_PullSubscribe _ _ _ _ n2) as [n3 [[]|e]]; simpl in *.
    + by rewrite Hs, Hj.
    + rewrite open_Close, Hs, Hj. by apply closed_again.
  - rewrite open_Close, Hj. by apply closed_again.
Qed.

Section sinks.
Context `{ChProto} {C D : Type} `{!ChDial D C}.
Context (unicode_lower : Z → Z) (url_Parse : string → result ClickHouse.URL).

Lemma clickhouse_NewService_conns cfg d n :
  let '((_, n'), r) := clickhouse_NewService unicode_lower url_Parse cfg (d, n) in
  conn_effect (conn_of r ss_conn) n n'.
Proof.
  unfold clickhouse_NewService. destruct (NewWithConfig _ _ _ d) as [d' [w|e]]; [|done].
  set (subject := _ +:+ _). pose proof (subscribeSink_conns (ClickHouse.sc_NATSURL cfg) subject
    (ClickHouse.sc_Consumer cfg) (ClickHouse.sc_Stream cfg) n) as Hs.
  by destruct (subscribeSink _ _ _ _ n) as [n' [[c j]|e]].
Qed.

Lemma clickhouse_NewService_Ok cfg d n w svc :
  clickhouse_NewService unicode_lower url_Parse cfg (d, n) = (w, Ok svc) → ss_cfg svc = cfg.
Proof.
  unfold clickhouse_NewService. destruct (NewWithConfig _ _ _ d) as [d' [wr|e]]; [|done].
  destruct (subscribeSink _ _ _ _ n) as [n' [[c j]|e]]; [|done]. by intros [= <- <-].
Qed.

(** The ClickHouse client is left open when the NATS side fails: the network is
    as the dial left it. *)
Lemma clickhouse_NewService_leaks cfg d n d' wr :
  NewWithConfig unicode_lower url_Parse (ClickHouse.sc_Writer cfg) d = (d', Ok wr) →
  (clickhouse_NewService unicode_lower url_Parse cfg (d, n)).1.1 = d'.
Proof.
  unfold clickhouse_NewService. intros ->.
  by destruct (subscribeSink _ _ _ _ n) as [n' [[c j]|e]].
Qed.
End sinks.

Section parquet_lemmas.
Context `{ParquetCodec} {U : Type} `{S3World U} `{!RangeOrder string (list candleRow)}.
Context (newSession : Parquet.Config → result U).

Lemma NewWriter_Validate cfg w : NewWriter newSession cfg = Ok w → 0 < Parquet.FlushInterval cfg.
Proof.
  unfold NewWriter. destruct (_ || _); [done|].
  intros (? & Hv & _)%bind_Ok. unfold Parquet.Validate in Hv.
  destruct (Parquet.FlushInterval cfg <=? 0) eqn:Ef; go_bool; [|lia].
  exfalso. revert Hv. repeat case_bool_decide; done.
Qed.

(** The writer validates the interval the ticker is made with. *)
Lemma parquet_NewService_total cfg n : is_Some (parquet_NewService newSession cfg n).2.
Proof.
  unfold parquet_NewService. destruct (NewWriter _ _) as [w|e] eqn:Ew; [|by eexists].
  destruct (subscribeSink _ _ _ _ n) as [n' [[c j]|e]]; [|by eexists].
  apply NewWriter_Validate in Ew. unfold NewTicker.
  destruct (0 <? _) eqn:Et; [by eexists|]. go_bool. lia.
Qed.

Lemma parquet_NewService_conns cfg n :
  let '(n', r) := parquet_NewService newSession cfg n in
  conn_effect (r ≫= λ r, conn_of r ss_conn) n n'.
Proof.
  pose proof (parquet_NewService_total cfg n) as [r Hr]. unfold parquet_NewService in *.
  destruct (NewWriter _ _) as [w|e]; [|done].
  set (subject := _ +:+ _) in *. pose proof (subscribeSink_conns (Parquet.sc_NATSURL cfg) subject
    (Parquet.sc_Consumer cfg) (Parquet.sc_Stream cfg) n) as Hs.
  destruct (subscribeSink _ _ _ _ n) as [n' [[c j]|e]]; [|done]. by destruct (NewTicker _).
Qed.
End parquet_lemmas.
End connection_lemmas.

(** *** The metrics server *)

Section metrics_lemmas.
Context {P : Type} (HandleUpdate_ : context → option SubscribeUpdate → M P ()) (ctx : context).

(** After [Service.Run] the metrics server is stopped, except when the processor
    refused the last update. *)
Lemma serviceLoop_metrics ctxErr picks sb m p :
  let '(p', us, m', r) := serviceLoop HandleUpdate_ ctx ctxErr picks sb m p in
  (r = None → m' = m)
  ∧ (∀ err, r = Some err → m' = shutdownMetrics m
     ∨ m' = m ∧ ∃ u us' e, us = us' ++ [u] ∧ err = Some e
        ∧ (HandleUpdate_ ctx (Some u) (replay HandleUpdate_ ctx p us')).2 = Err e).
Proof.
  revert sb p. induction picks as [|pk rest IH]; intros sb p; [done|]. cbn [serviceLoop].
  destruct pk; [split; [done|auto]| |].
  - destruct (sb_errs sb); [apply IH|]. split; [done|auto].
  - destruct (sb_updates sb) as [|u us].
    { destruct (sb_closed sb); [split; [done|auto]|apply IH]. }
    destruct (HandleUpdate_ ctx (Some u) p) as [p1 [[]|e]] eqn:Eh.
    + specialize (IH (mkSubscription us (sb_errs sb) (sb_closed sb) (sb_panics sb)) p1).
      destruct (serviceLoop _ _ _ _ _ _ _) as [[[p' us'] m'] r]. destruct IH as [Hn Hs].
      split; [done|]. intros err Hr. destruct (Hs err Hr) as [?|(-> & u1 & us1 & e & -> & -> & He)]; [auto|].
      right. split; [done|]. exists u1, (u :: us1), e. split_and!; [done|done|]. simpl. by rewrite Eh.
    + split; [done|]. intros err [= <-]. right. split; [done|]. exists u, [], e. simpl. by rewrite Eh.
Qed.
End metrics_lemmas.
