(* ===== verification/Candles.v ===== *)
(** * Candle publisher command

    [cmd/candles/main.go]: a batch of candle messages goes to the ClickHouse
    writer and, if there is one, to the Parquet writer, and each message is then
    acknowledged or refused. The writers are those of [ClickHouse.v] and
    [Parquet.v]. The results of [Ack] and [Nak] are only logged, so the calls are
    recorded ([br_trace]). [main] is in three parts: [parseOptions] (flags over the
    environment), [setup] (the connections, up to the first [log.Fatalf]) and
    [mainLoop], driven by what [ctx.Done] and [Fetch] give. *)

From S2P Require Import Prelude GoStrings Bytes Floats Publisher Sink.
From S2P Require Import ClickHouse Parquet Proto.
From Stdlib Require Import SpecFloat.
Local Open Scope list_scope.

(** ** Translation *)

Definition q32Factor : float64 := f64_of_Z (2 ^ 32).

Definition priceFromQ32 (val : Z) : float64 := f64_div (f64_of_Z val) q32Factor.

(** [math.Ldexp] *)
Definition Ldexp (x : float64) (e : Z) : float64 := SFldexp f64_prec f64_emax x e.

Definition volumeFromU128 (u : option U128) : float64 :=
  match u with
  | None => f64_zero
  | Some u => f64_add (Ldexp (f64_of_Z (u128_Hi u)) 64) (f64_of_Z (u128_Lo u))
  end.

Definition translateCandle (c : Candle) : ClickHouse.Candle :=
  ClickHouse.mkCandle (i64 (cd_WindowStart c)) (cd_PoolId c)
    (priceFromQ32 (cd_OpenPxQ32 c)) (priceFromQ32 (cd_HighPxQ32 c))
    (priceFromQ32 (cd_LowPxQ32 c)) (priceFromQ32 (cd_ClosePxQ32 c))
    (volumeFromU128 (cd_VolQuote c)).

Definition envOr (env : string → string) (key fallback : string) : string :=
  if bool_decide (env key ≠ "") then env key else fallback.
Definition envOrInt (env : string → string) (key : string) (fallback : Z) : Z :=
  if bool_decide (env key ≠ "") then
    match Atoi (env key) with Ok iv => iv | Err _ => fallback end
  else fallback.

(** ** Options *)

(** The variables of [main] that hold the flags. *)
Record Options := mkOptions {
  o_natsURL : string;
  o_stream : string;
  o_subject : string;
  o_durable : string;
  o_batchSize : Z;
  o_pullWaitMs : Z;
  o_clickhouseDSN : string;
  o_clickhouseDatabase : string;
  o_clickhouseCandles : string;
  o_parquetEndpoint : string;
  o_parquetBucket : string;
  o_parquetAccessKey : string;
  o_parquetSecretKey : string;
  o_parquetPrefix : string;
  o_parquetFlushSec : Z;
  o_parquetBatch : Z;
  o_parquetRegion : string;
}.

(** [flags] are the flags given on the command line, [ParseInt] is
    [strconv.ParseInt] in base 0: [flag.Parse] ends the program when a flag that
    must be an integer is not one ([None]). *)
Section flags.
Context (flags : string → option string) (ParseInt : string → option Z) (env : string → string).

Definition flag_String (name value : string) : string := default value (flags name).
Definition flag_Int (name : string) (value : Z) : option Z :=
  match flags name with Some s => ParseInt s | None => Some value end.

Definition parseOptions : option Options :=
  batchSize ← flag_Int "batch" (envOrInt env "BATCH" 64);
  pullWaitMs ← flag_Int "pull-wait" (envOrInt env "PULL_WAIT_MS" 500);
  parquetFlushSec ← flag_Int "parquet-flush-sec" (envOrInt env "PARQUET_FLUSH_INTERVAL_S" 900);
  parquetBatch ← flag_Int "parquet-batch-rows" (envOrInt env "PARQUET_BATCH_ROWS" 5000);
  Some {|
    o_natsURL := flag_String "nats" (envOr env "NATS_URL" "nats://127.0.0.1:4222");
    o_stream := flag_String "stream" (envOr env "NATS_STREAM" "DEX");
    o_subject := flag_String "subject" (envOr env "NATS_CANDLE_SUBJECT" "dex.sol.candle.>");
    o_durable := flag_String "durable" (envOr env "NATS_DURABLE" "candle_bridge");
    o_batchSize := batchSize;
    o_pullWaitMs := pullWaitMs;
    o_clickhouseDSN := flag_String "clickhouse-dsn" (envOr env "CLICKHOUSE_DSN" "tcp://127.0.0.1:9000");
    o_clickhouseDatabase := flag_String "clickhouse-db" (envOr env "CLICKHOUSE_DB" "default");
    o_clickhouseCandles := flag_String "clickhouse-candles" (envOr env "CLICKHOUSE_CANDLES_TABLE" "candles");
    o_parquetEndpoint := flag_String "parquet-endpoint" (envOr env "PARQUET_ENDPOINT" "");
    o_parquetBucket := flag_String "parquet-bucket" (envOr env "PARQUET_BUCKET" "");
    o_parquetAccessKey := flag_String "parquet-access-key" (envOr env "PARQUET_ACCESS_KEY" "");
    o_parquetSecretKey := flag_String "parquet-secret-key" (envOr env "PARQUET_SECRET_KEY" "");
    o_parquetPrefix := flag_String "parquet-prefix" (envOr env "PARQUET_PREFIX" "candles/");
    o_parquetFlushSec := parquetFlushSec;
    o_parquetBatch := parquetBatch;
    o_parquetRegion := flag_String "parquet-region" (envOr env "PARQUET_REGION" "us-east-1");
  |}.

(** The configurations of the writers: no retry and no interval for ClickHouse. *)
Definition writerCfg (o : Options) : ClickHouse.Config :=
  ClickHouse.mkConfig (o_clickhouseDSN o) (o_clickhouseDatabase o)
    (envOr env "CLICKHOUSE_TRADES_TABLE" "trades") (o_clickhouseCandles o)
    (envOrInt env "CLICKHOUSE_CANDLES_BATCH" 512) 0 0 0 0.
Definition pqCfg (o : Options) : Parquet.Config :=
  Parquet.mkConfig (o_parquetEndpoint o) (o_parquetBucket o) (o_parquetAccessKey o)
    (o_parquetSecretKey o) (o_parquetPrefix o) (i64 (o_parquetFlushSec o * Second))
    (o_parquetBatch o) (o_parquetRegion o).
End flags.

(** ** Bridge *)

Section bridge.
Context `{ChProto} {C : Type} `{!ChClient C}.
Context `{ParquetCodec} {U : Type} `{S3World U} `{!RangeOrder string (list candleRow)}.
Context `{ProtoUnmarshal}.

Record Bridge := mkBridge {
  br_writer : ClickHouse.Writer C;
  br_parquet : option (Parquet.Writer U);
  br_trace : list sink_event;
}.

Definition record_event (e : sink_event) (b : Bridge) : Bridge :=
  mkBridge (br_writer b) (br_parquet b) (br_trace b ++ [e]).

Definition nakAll (msgs : list NatsMsg) (b : Bridge) : Bridge :=
  mkBridge (br_writer b) (br_parquet b) (br_trace b ++ (E_Nak <$> msgs)).

(** The first loop: the candles with their messages, the others refused. *)
Fixpoint decodeAll (msgs : list NatsMsg) (b : Bridge) : list (Candle * NatsMsg) * Bridge :=
  match msgs with
  | [] => ([], b)
  | msg :: rest =>
    match Unmarshal_Candle (nm_Data msg) with
    | Err _ => decodeAll rest (record_event (E_Nak msg) b)
    | Ok candle => let '(l, b) := decodeAll rest b in ((candle, msg) :: l, b)
    end
  end.

Definition ackAll (msgs : list NatsMsg) (b : Bridge) : Bridge :=
  mkBridge (br_writer b) (br_parquet b) (br_trace b ++ (E_Ack <$> msgs)).

(** The candles given to the Parquet writer, if there is one. *)
Definition appendParquet (ctx : context) (rows : list Candle) (b : Bridge) : Bridge * result () :=
  match br_parquet b with
  | None => (b, Ok tt)
  | Some pq =>
    let '(pq, r) := M_for rows (λ c, Parquet.AppendCandle ctx (Some c)) pq in
    (mkBridge (br_writer b) (Some pq) (br_trace b), r)
  end.

Definition Process (ctx : context) (msgs : list NatsMsg) : M Bridge () := λ b,
  if decide (length msgs = 0)%nat then (b, Ok tt)
  else
    let '(decoded, b) := decodeAll msgs b in
    let ackMsgs := decoded.*2 in
    if decide (length decoded = 0)%nat then (b, Ok tt)
    else
      match WriteCandles ctx (translateCandle <$> decoded.*1) (br_writer b) with
      | (w, Err err) => (nakAll ackMsgs (mkBridge w (br_parquet b) (br_trace b)), Err err)
      | (w, Ok _) =>
        match appendParquet ctx decoded.*1 (mkBridge w (br_parquet b) (br_trace b)) with
        | (b, Err err) => (nakAll ackMsgs b, Err err)
        | (b, Ok _) => (ackAll ackMsgs b, Ok tt)
        end
      end.

(** *** main *)

(** Up to the loop: the bridge, or the message and error of the [log.Fatalf] that
    ended the program. *)
Definition setup {D} `{!ChDial D C} (connect : string → result ()) (jetstream : result ())
    (pullSubscribe : string → string → string → result ()) unicode_lower url_Parse
    (newSession : Parquet.Config → result U) (env : string → string) (o : Options) (d : D) :
    D * (Bridge + string * error) :=
  match connect (o_natsURL o) with
  | Err err => (d, inr ("connect NATS: %v", err))
  | Ok _ =>
  match jetstream with
  | Err err => (d, inr ("jetstream: %v", err))
  | Ok _ =>
  match pullSubscribe (o_subject o) (o_durable o) (o_stream o) with
  | Err err => (d, inr ("pull subscribe: %v", err))
  | Ok _ =>
  match NewWithConfig unicode_lower url_Parse (writerCfg env o) d with
  | (d, Err err) => (d, inr ("init ClickHouse writer: %v", err))
  | (d, Ok writer) =>
    if bool_decide (o_parquetEndpoint o ≠ "") && bool_decide (o_parquetBucket o ≠ "") then
      match NewWriter newSession (pqCfg o) with
      | Err err => (d, inr ("init parquet writer: %v", err))
      | Ok pq => (d, inl (mkBridge writer (Some pq) []))
      end
    else (d, inl (mkBridge writer None []))
  end end end end.

(** The deferred [parquetWriter.Close()], whose result is dropped. *)
Definition closeParquet (b : Bridge) : Bridge :=
  mkBridge (br_writer b) ((λ pq, (Parquet.Close pq).1) <$> br_parquet b) (br_trace b).

(** One turn: whether [ctx] is done, and otherwise what [Fetch] returns. A fetch
    that failed is tried again, at once or after a sleep, and the error of
    [Process] is only logged. *)
Record turn := mkTurn { tn_done : bool; tn_fetch : result (list NatsMsg) }.

(** The loop: whether it has returned. *)
Fixpoint mainLoop (ctx : context) (turns : list turn) (b : Bridge) : Bridge * bool :=
  match turns with
  | [] => (b, false)
  | tn :: rest =>
    if tn_done tn then (closeParquet b, true)
    else
      match tn_fetch tn with
      | Err _ => mainLoop ctx rest b
      | Ok msgs => mainLoop ctx rest (Process ctx msgs b).1
      end
  end.

(** ** Lemmas *)

Definition decode_msg (msg : NatsMsg) : option (Candle * NatsMsg) :=
  match Unmarshal_Candle (nm_Data msg) with Ok c => Some (c, msg) | Err _ => None end.
Definition undecodable (msg : NatsMsg) : Prop := is_ok (Unmarshal_Candle (nm_Data msg)) = false.
#[global] Instance undecodable_dec msg : Decision (undecodable msg).
Proof. unfold undecodable. apply _. Defined.

Lemma decodeAll_run msgs b :
  decodeAll msgs b
  = (omap decode_msg msgs,
     mkBridge (br_writer b) (br_parquet b) (br_trace b ++ (E_Nak <$> filter undecodable msgs))).
Proof.
  revert b. induction msgs as [|msg rest IH]; intros b.
  { simpl. rewrite app_nil_r. by destruct b. }
  cbn [decodeAll]. rewrite filter_cons. simpl.
  assert (decode_msg msg = None ↔ undecodable msg) as Hu.
  { unfold decode_msg, undecodable. by destruct (Unmarshal_Candle (nm_Data msg)). }
  assert (decode_msg msg = match Unmarshal_Candle (nm_Data msg) with
                           | Ok c => Some (c, msg) | Err _ => None end) as Hd by done.
  destruct (Unmarshal_Candle (nm_Data msg)) as [c|e]; rewrite Hd in *.
  - rewrite decide_False by naive_solver. by rewrite IH.
  - rewrite decide_True by naive_solver. rewrite IH. simpl. by rewrite <- app_assoc.
Qed.

(** The Parquet writer keeps every candle given up to the first failure. *)
Lemma append_loop ctx rows (pq : Parquet.Writer U) log candles :
  Parquet.kept pq log candles →
  ∃ log' given, Parquet.kept (M_for rows (λ c, Parquet.AppendCandle ctx (Some c)) pq).1 log'
                  (candles ++ given)
  ∧ given `prefix_of` rows
  ∧ (is_ok (M_for rows (λ c, Parquet.AppendCandle ctx (Some c)) pq).2 = true → given = rows).
Proof.
  revert pq log candles. induction rows as [|c rows IH]; intros pq log candles Hk.
  { exists log, []. by rewrite app_nil_r. }
  rewrite M_for_cons. destruct (Parquet.kept_AppendCandle ctx c pq log candles Hk) as (log1 & Hk1 & _).
  destruct (Parquet.AppendCandle ctx (Some c) pq) as [pq1 [[]|e]]; simpl in *.
  - destruct (IH pq1 log1 _ Hk1) as (log2 & given & Hk2 & Hp & Ha).
    exists log2, (c :: given). rewrite <- app_assoc in Hk2.
    split_and!; [done|by apply prefix_cons|]. intros Hok. f_equal. by apply Ha.
  - exists log1, [c]. split_and!; [done|by exists rows|done].
Qed.

(** [Process] settles every message of the batch exactly once. Those that do
    not decode are refused; the others are all acknowledged when it returns nil
    and all refused when it fails. The ClickHouse writer is given the translated
    candles of a prefix of them, all of them on success, and has them inserted or
    buffered; so is the Parquet writer, if there is one, which gets nothing when
    ClickHouse failed. *)
Lemma Process_settles ctx msgs b ts cs log candles :
  ClickHouse.kept (br_writer b) ts cs →
  (∀ pq, br_parquet b = Some pq → Parquet.kept pq log candles) →
  let '(b', r) := Process ctx msgs b in
  let decoded := omap decode_msg msgs in
  br_trace b' = br_trace b ++ (E_Nak <$> filter undecodable msgs)
                ++ ((if is_ok r then E_Ack else E_Nak) <$> decoded.*2)
  ∧ (∃ n, ClickHouse.kept (br_writer b') ts (cs ++ (translateCandle <$> take n decoded.*1))
     ∧ (is_ok r = true → take n decoded.*1 = decoded.*1))
  ∧ (is_Some (br_parquet b') ↔ is_Some (br_parquet b))
  ∧ (∀ pq, br_parquet b' = Some pq → ∃ log' m, Parquet.kept pq log' (candles ++ take m decoded.*1)
     ∧ (is_ok r = true → take m decoded.*1 = decoded.*1)).
Proof.
  intros Hw Hp. unfold Process. case_decide as Hm.
  { destruct msgs; [|done]. simpl. rewrite app_nil_r. split_and!; [done| |done|].
    - exists 0%nat. by rewrite app_nil_r.
    - intros pq Hpq. exists log, 0%nat. rewrite app_nil_r. auto. }
  rewrite decodeAll_run. simpl. set (decoded := omap decode_msg msgs). case_decide as Hd.
  { destruct decoded; [|done]. simpl. rewrite app_nil_r. split_and!; [done| |done|].
    - exists 0%nat. by rewrite app_nil_r.
    - intros pq Hpq. exists log, 0%nat. rewrite app_nil_r. auto. }
  destruct (kept_WriteCandles ctx (translateCandle <$> decoded.*1) (br_writer b) ts cs Hw) as
    (given & Hk & Hres).
  destruct (WriteCandles ctx (translateCandle <$> decoded.*1) (br_writer b)) as [w [[]|e]]; simpl in *.
  - rewrite Hres in Hk. unfold appendParquet. simpl.
    destruct (br_parquet b) as [pq|] eqn:Epq; cycle 1.
    { simpl. rewrite <- app_assoc. split_and!; [done| |done|done].
      exists (length decoded.*1). by rewrite take_ge by done. }
    destruct (append_loop ctx decoded.*1 pq log candles (Hp pq eq_refl)) as (log' & g & Hk' & Hpre' & Ha').
    destruct (M_for decoded.*1 _ pq) as [pq' r]. simpl in *.
    assert (g = take (length g) decoded.*1) as Hg.
    { destruct Hpre' as [l ->]. by rewrite take_app_length. }
    assert (∃ n, ClickHouse.kept w ts (cs ++ (translateCandle <$> take n decoded.*1))
      ∧ (is_ok r = true → take n decoded.*1 = decoded.*1)) as Hch.
    { exists (length decoded.*1). by rewrite take_ge by done. }
    destruct r as [[]|e]; simpl; rewrite <- app_assoc; (split_and!; [done|done|by split; eexists|]);
      intros pq0 [= <-]; exists log', (length g); rewrite <- Hg; auto.
  - rewrite <- app_assoc. split_and!; [done| |done|].
    + assert (given `prefix_of` (translateCandle <$> decoded.*1)) as [l E].
      { destruct Hres as (pre & t & rest & _ & _ & _ & E & -> & _). exists rest. by rewrite E, <- app_assoc. }
      exists (length given). rewrite fmap_take, E, take_app_length. done.
    + intros pq Hpq. exists log, 0%nat. simpl. rewrite app_nil_r. split; [by apply Hp|done].
Qed.

(** *** The loop *)

(** A batch with whether [Process] returned nil. *)
Definition batch : Type := list NatsMsg * bool.
Definition settled (bt : batch) : list sink_event :=
  (E_Nak <$> filter undecodable bt.1)
  ++ ((if bt.2 then E_Ack else E_Nak) <$> (omap decode_msg bt.1).*2).

(** What a writer got of a batch: all its candles when [Process] returned nil. *)
Definition piece (rows : list Candle) (bt : batch) : Prop :=
  let decoded := (omap decode_msg bt.1).*1 in
  rows `prefix_of` decoded ∧ (bt.2 = true → rows = decoded).

(** The batches fetched before the context was done. *)
Fixpoint fetched_batches (turns : list turn) : list (list NatsMsg) :=
  match turns with
  | [] => []
  | tn :: rest =>
    if tn_done tn then []
    else match tn_fetch tn with
         | Err _ => fetched_batches rest
         | Ok msgs => msgs :: fetched_batches rest
         end
  end.

Definition parquet_kept (b : Bridge) (candles : list Candle) : Prop :=
  ∀ pq, br_parquet b = Some pq → ∃ log, Parquet.kept pq log candles.

Lemma Process_pieces ctx msgs b ts cs candles :
  ClickHouse.kept (br_writer b) ts cs → parquet_kept b candles →
  ∃ ok ch rows, br_trace (Process ctx msgs b).1 = br_trace b ++ settled (msgs, ok)
  ∧ ClickHouse.kept (br_writer (Process ctx msgs b).1) ts (cs ++ (translateCandle <$> ch))
  ∧ piece ch (msgs, ok)
  ∧ parquet_kept (Process ctx msgs b).1 (candles ++ rows) ∧ piece rows (msgs, ok)
  ∧ (is_Some (br_parquet (Process ctx msgs b).1) ↔ is_Some (br_parquet b)).
Proof.
  intros Hw Hp. assert (∃ log, ∀ pq, br_parquet b = Some pq → Parquet.kept pq log candles) as [log Hlog].
  { destruct (br_parquet b) as [pq|] eqn:E; [|by exists []]. destruct (Hp pq E) as [log Hk].
    exists log. by intros pq' [= <-]. }
  pose proof (Process_settles ctx msgs b ts cs log candles Hw Hlog) as Hs.
  destruct (Process ctx msgs b) as [b' r]. destruct Hs as (Ht & (n & Hch & Hn) & Hsome & Hpq). simpl.
  exists (is_ok r), (take n (omap decode_msg msgs).*1).
  destruct (br_parquet b') as [pq|] eqn:E; cycle 1.
  { exists (omap decode_msg msgs).*1. split_and!; try done.
    - split; [apply prefix_take|done].
    - intros pq Hpq'. by rewrite E in Hpq'.
    }
  destruct (Hpq pq eq_refl) as (log' & m & Hk & Hm). exists (take m (omap decode_msg msgs).*1).
  split_and!; try done.
  - split; [apply prefix_take|done].
  - intros pq' E'. rewrite E in E'. injection E' as <-. by exists log'.
  - split; [apply prefix_take|done].
Qed.

Lemma parquet_kept_close b candles : parquet_kept b candles → parquet_kept (closeParquet b) candles.
Proof.
  intros Hp pq Hpq. unfold closeParquet in Hpq. simpl in Hpq.
  apply fmap_Some in Hpq as (pq0 & Hpq0 & ->). destruct (Hp pq0 Hpq0) as [log Hk].
  destruct (Parquet.kept_flushLocked Background pq0 log candles Hk) as (log' & Hk' & _).
  by exists log'.
Qed.

Lemma mainLoop_pieces ctx turns b ts cs candles :
  ClickHouse.kept (br_writer b) ts cs → parquet_kept b candles →
  ∃ batches chs pqs,
    batches.*1 = fetched_batches turns
  ∧ br_trace (mainLoop ctx turns b).1 = br_trace b ++ concat (settled <$> batches)
  ∧ ClickHouse.kept (br_writer (mainLoop ctx turns b).1) ts (cs ++ (translateCandle <$> concat chs))
  ∧ Forall2 piece chs batches
  ∧ parquet_kept (mainLoop ctx turns b).1 (candles ++ concat pqs) ∧ Forall2 piece pqs batches
  ∧ (is_Some (br_parquet (mainLoop ctx turns b).1) ↔ is_Some (br_parquet b)).
Proof.
  revert b cs candles. induction turns as [|tn rest IH]; intros b cs candles Hw Hp; simpl.
  { exists [], [], []. simpl. rewrite !app_nil_r. split_and!; auto. }
  destruct (tn_done tn).
  { exists [], [], []. simpl. rewrite !app_nil_r. split_and!; auto.
    - by apply parquet_kept_close.
    - by rewrite fmap_is_Some. }
  destruct (tn_fetch tn) as [msgs|err]; [|by apply IH].
  destruct (Process_pieces ctx msgs b ts cs candles Hw Hp) as (ok & ch & rows & Ht & Hk & Hch & Hpk & Hrows & Hs).
  destruct (IH _ _ _ Hk Hpk) as (batches & chs & pqs & Hb & Ht' & Hk' & Hchs & Hpk' & Hpqs & Hs').
  exists ((msgs, ok) :: batches), (ch :: chs), (rows :: pqs). simpl. split_and!.
  - f_equal. exact Hb.
  - by rewrite Ht', Ht, <- app_assoc.
  - rewrite fmap_app, app_assoc. exact Hk'.
  - by constructor.
  - rewrite app_assoc. exact Hpk'.
  - by constructor.
  - by rewrite Hs', Hs.
Qed.

(** The bridge of [setup] has new writers. *)
Lemma setup_new {D} `{!ChDial D C} connect jetstream pullSubscribe unicode_lower url_Parse newSession env o
    (d d' : D) b :
  setup connect jetstream pullSubscribe unicode_lower url_Parse newSession env o d = (d', inl b) →
  (∃ client, br_writer b = newWriter (writerCfg env o) client) ∧ br_trace b = []
  ∧ (is_Some (br_parquet b) ↔ o_parquetEndpoint o ≠ "" ∧ o_parquetBucket o ≠ "")
  ∧ ∀ pq, br_parquet b = Some pq → ∃ u t, pq = Parquet.mkWriter (pqCfg o) ∅ u t.
Proof.
  unfold setup. destruct (connect _); [|done]. destruct jetstream; [|done].
  destruct (pullSubscribe _ _ _); [|done]. unfold NewWithConfig.
  destruct (wrap_err _ _ (validateConfig _)); [|done].
  destruct (connectWithRetry _ _ _ d) as [d1 [client|]]; [|done]. simpl.
  rewrite <- !bool_decide_and. case_bool_decide as Hp; cycle 1.
  { intros [= <- <-]. simpl. split_and!; [by exists client|done|by split; [intros []|]|done]. }
  unfold NewWriter. destruct (_ || _); [done|]. destruct (Parquet.Validate _); [|done]. simpl.
  destruct (wrap_err _ _ (newSession _)) as [u|]; [|done]. simpl. destruct (Now u) as [u' t].
  intros [= <- <-]. simpl. split_and!; [by exists client|done|by split|].
  intros pq [= <-]. by exists u', t.
Qed.

(** C19. The candle bridge, from its start and for any turns of its loop, any
    refusals of ClickHouse and of the uploads: every fetched batch is settled once,
    in order. The messages that do not decode are refused; the others of a batch
    are all acknowledged or all refused, and they are acknowledged only when both
    writers, or the one there is, took every candle of the batch. A writer that
    took them has inserted or uploaded them or holds them, in order and with
    nothing else but candles of batches that were refused, which the server sends
    again. *)
Theorem mainLoop_settles {D} `{!ChDial D C} connect jetstream pullSubscribe unicode_lower url_Parse
    newSession env o (d d' : D) b ctx turns :
  setup connect jetstream pullSubscribe unicode_lower url_Parse newSession env o d = (d', inl b) →
  queries (w_client (br_writer b)) = [] →
  (∀ pq, br_parquet b = Some pq → uploads (uploader pq) = []) →
  let b' := (mainLoop ctx turns b).1 in
  ∃ batches chs pqs,
    batches.*1 = fetched_batches turns ∧ br_trace b' = concat (settled <$> batches)
  ∧ ClickHouse.kept (br_writer b') [] (translateCandle <$> concat chs) ∧ Forall2 piece chs batches
  ∧ (is_Some (br_parquet b') ↔ o_parquetEndpoint o ≠ "" ∧ o_parquetBucket o ≠ "")
  ∧ (∀ pq, br_parquet b' = Some pq → ∃ log, Parquet.kept pq log (concat pqs)) ∧ Forall2 piece pqs batches.
Proof.
  intros Hs Hq Hu b'. destruct (setup_new _ _ _ _ _ _ _ _ _ _ _ Hs) as ([client Hw] & Ht & Hsome & Hp).
  destruct (mainLoop_pieces ctx turns b [] [] []) as
    (batches & chs & pqs & Hb & Ht' & Hk & Hchs & Hpk & Hpqs & Hs').
  - rewrite Hw in Hq |- *. exists [], [], []. split; [by apply represents_new|done].
  - intros pq Hpq. exists []. destruct (Hp pq Hpq) as (u & t & ->). apply Parquet.kept_new.
    exact (Hu _ Hpq).
  - exists batches, chs, pqs. rewrite Ht in Ht'. split_and!; try done. subst b'. by rewrite Hs', Hsome.
Qed.

End bridge.

(** ** Examples and witness *)

(** A price is exact as long as its integer fits in 53 bits. *)
Example priceFromQ32_one : priceFromQ32 (3 * 2 ^ 31) = f64_div (f64_of_Z 3) (f64_of_Z 2).
Proof. vm_compute. reflexivity. Qed.
Example volumeFromU128_hi :
  volumeFromU128 (Some (mkU128 1 0)) = f64_mul (f64_of_Z (2 ^ 32)) (f64_of_Z (2 ^ 32)).
Proof. vm_compute. reflexivity. Qed.

Definition example_bridge : Bridge (H:=Z_ChProto) (C:=TestClient (H:=Z_ChProto)) (U:=TestWorld) :=
  mkBridge (newWriter (ClickHouse.mkConfig "tcp://127.0.0.1:9000" "default" "trades" "candles"
                         512 0 0 0 0) [])
    (Some (Parquet.mkWriter Parquet.example_config ∅ ([], 0) 0)) [].

Definition example_batch : list NatsMsg :=
  [Parquet.example_msg 0; mkNatsMsg "dex.sol.candle.pool.1m" [] ∅; Parquet.example_msg 1].

Definition example_process :
    Bridge (H:=Z_ChProto) (C:=TestClient (H:=Z_ChProto)) (U:=TestWorld) * result () :=
  @Process Z_ChProto (TestClient (H:=Z_ChProto)) (TestClient_ChClient (λ _, true))
    Parquet.example_codec TestWorld (TestWorld_S3World (λ _, true)) map_to_list_order
    Parquet.example_marshal Parquet.example_unmarshal Background example_batch example_bridge.

(** A whole run: the connections succeed, a batch is fetched, a fetch times out,
    and the context is done. *)
#[local] Program Instance candles_dial : ChDial TestNet (TestClient (H:=Z_ChProto)) := {|
  ch_Dial opts d := ((d.1 ++ [(opts, true)], d.2), Ok []);
  select_After t d := ((d.1, d.2 ++ [t]), None);
  dials := fst;
  waits := snd;
|}.
Next Obligation. done. Qed.
Next Obligation. done. Qed.
Next Obligation. done. Qed.
Next Obligation. done. Qed.

Section witnesses.
#[local] Existing Instance Z_ChProto.
#[local] Instance candles_client : ChClient (TestClient (H:=Z_ChProto)) := TestClient_ChClient (λ _, true).
#[local] Instance candles_world : S3World TestWorld := TestWorld_S3World (λ _, true).
#[local] Existing Instance Parquet.example_codec.
#[local] Instance candles_range : RangeOrder string (list candleRow) := map_to_list_order.
#[local] Existing Instance Parquet.example_marshal.
#[local] Existing Instance Parquet.example_unmarshal.

(** The command line and the environment of the run. *)
Definition candles_flags (name : string) : option string :=
  if bool_decide (name = "parquet-endpoint") then Some "http://minio" else None.
Definition candles_env (name : string) : string :=
  if bool_decide (name = "PARQUET_BUCKET") then "lake"
  else if bool_decide (name = "PARQUET_ACCESS_KEY") then "key"
  else if bool_decide (name = "PARQUET_SECRET_KEY") then "secret" else "".
Definition candles_options : Options :=
  default (mkOptions "" "" "" "" 0 0 "" "" "" "" "" "" "" "" 0 0 "")
    (parseOptions candles_flags (λ _, None) candles_env).
Definition candles_setup : TestNet * (Bridge + string * error) :=
  setup (λ _, Ok tt) (Ok tt) (λ _ _ _, Ok tt) id example_url (λ _, Ok ([], 0)) candles_env
    candles_options ([], []).
Definition candles_start : Bridge :=
  match candles_setup.2 with inl b => b | inr _ => example_bridge end.
Definition candles_turns : list turn :=
  [mkTurn false (Ok example_batch); mkTurn false (Err (Sentinel "nats.ErrTimeout"));
   mkTurn true (Ok [])].

Lemma mainLoop_settles_witness :
  br_trace (mainLoop Background candles_turns candles_start).1
  = [E_Nak (mkNatsMsg "dex.sol.candle.pool.1m" [] ∅); E_Ack (Parquet.example_msg 0);
     E_Ack (Parquet.example_msg 1)]
  ∧ ∃ batches chs, batches.*1 = [example_batch]
    ∧ ClickHouse.kept (br_writer (mainLoop Background candles_turns candles_start).1) []
        (translateCandle <$> concat chs)
    ∧ Forall2 piece chs batches.
Proof.
  split; [vm_compute; reflexivity|].
  destruct (mainLoop_settles (D:=TestNet) (λ _, Ok tt) (Ok tt) (λ _ _ _, Ok tt) id example_url
    (λ _, Ok ([], 0)) candles_env candles_options ([], []) candles_setup.1 candles_start Background
    candles_turns) as (batches & chs & pqs & Hb & _ & Hk & Hchs & _).
  - vm_compute. reflexivity.
  - reflexivity.
  - intros pq. unfold candles_start. vm_compute. intros [= <-]. reflexivity.
  - exists batches, chs. split; [exact Hb|]. split; [exact Hk|exact Hchs].
Defined.
End witnesses.

(** The acknowledged candles are only buffered: nothing was inserted or uploaded,
    and the command never flushes the ClickHouse writer. *)
Lemma Process_acks_buffered :
  w_client (br_writer example_process.1) = []
  ∧ cb_count (candlesBatch (br_writer example_process.1)) = 2.
Proof. split; vm_compute; reflexivity. Qed.
