(* ===== verification/Commands.v ===== *)
(** * The processes

    [cmd/ingestor/geyser/main.go], [cmd/sink/clickhouse/main.go],
    [cmd/sink/parquet/main.go] and [cmd/bridge/main.go]: from the environment to the
    end of the process, over the services of [Services.v] and [Bridge.v]. A signal
    is one of the choices that drive the run of a service: it makes [ctx] done. *)

From S2P Require Import Prelude GoStrings GoSort Bytes Proto Publisher SlotCache.
From S2P Require Import Processor Bridge BridgeRun Sink ClickHouse Parquet.
From S2P Require Import GeyserConfig HeliusConfig Streams Failover Services Candles.
Local Open Scope list_scope.

(** How a process ends: [log.Fatalf] with its format and error, a panic, or the end
    of [main]; [Running] while its service runs. *)
Inductive process := Fatal (msg : string) (err : error) | Panic | Stopped | Running.

(** [if err := svc.Run(ctx); err != nil && err != context.Canceled]. *)
Definition afterRun (msg : string) (r : option (option error)) : process :=
  match r with
  | None => Running
  | Some None => Stopped
  | Some (Some err) => if decide (err = Sentinel "context.Canceled") then Stopped else Fatal msg err
  end.

(** ** cmd/ingestor/geyser/main.go *)

Section ingestor.
Context {N J G : Type} `{Nats N J, Grpc G, !RangeOrder string string}.
Context (ReadFile : string → result (list byte)) (Unmarshal : list byte → result (gmap string string)).
Context (env : string → string).

#[local] Instance both_ClientInterface :
    ClientInterface (GeyserClient (N:=G) + HeliusClient (N:=G)) :=
  sum_ClientInterface _ _ (GeyserClient_ClientInterface G _) (HeliusClient_ClientInterface G _).

(** The service of [main]. *)
Inductive ingestor :=
  | I_Single (svc : Services.Service J (GeyserClient (N:=G)))
  | I_Failover (svc : failover_service J (GeyserClient (N:=G) + HeliusClient (N:=G))).

(** [heliusCfg.ProgramFilters = filters]. *)
Definition withProgramFilters (filters : gmap string string) (c : HeliusConfig.Config) :
    HeliusConfig.Config :=
  HeliusConfig.mkConfig (GRPCEndpoint c) (WSEndpoint c) (HeliusConfig.APIKey c) (RequestTimeout c)
    (ReconnectBackoff c) (ReplaySlots c) filters.

Definition ingestor_fallback (geyserCfg : GeyserConfig.Config) (natsCfg : Publisher.Config)
    (metricsAddr : string) (geyserNet heliusNet : G) (n : N) : N * (process + ingestor) :=
  match geyser_NewClient geyserCfg geyserNet with
  | Err err => (n, inl (Fatal "init geyser client: %v" err))
  | Ok primaryClient =>
    match HeliusConfig.FromEnv env with
    | (_, Err err) => (n, inl (Fatal "load helius config: %v" err))
    | (None, Ok _) => (n, inl Panic)
    | (Some heliusCfg, Ok _) =>
      let heliusCfg := withProgramFilters (GeyserConfig.ProgramFilters geyserCfg) heliusCfg in
      match helius_NewStreamClient (Some heliusCfg) heliusNet with
      | Err err => (n, inl (Fatal "init helius client: %v" err))
      | Ok fallbackClient =>
        match failover_NewService (Some (inl primaryClient)) (Some (inr fallbackClient)) natsCfg
                metricsAddr n with
        | (n, Err err) => (n, inl (Fatal "init failover service: %v" err))
        | (n, Ok svc) => (n, inr (I_Failover svc))
        end
      end
    end
  end.

Definition ingestor_setup (geyserNet heliusNet : G) (n : N) : N * (process + ingestor) :=
  match LoadConfig ReadFile Unmarshal env (env "PROGRAMS_YAML_PATH") with
  | Err err => (n, inl (Fatal "load geyser config: %v" err))
  | Ok geyserCfg =>
    match Publisher.FromEnv env with
    | (_, Err err) => (n, inl (Fatal "load nats config: %v" err))
    | (natsCfg, Ok _) =>
      let metricsAddr := env "INGESTOR_METRICS_ADDR" in
      if bool_decide (env "ENABLE_HELIUS_FALLBACK" = "1") then
        ingestor_fallback geyserCfg natsCfg metricsAddr geyserNet heliusNet n
      else
        match geyser_NewService (Some geyserCfg) geyserNet natsCfg metricsAddr n with
        | (n, Err err) => (n, inl (Fatal "init service: %v" err))
        | (n, Ok svc) => (n, inr (I_Single svc))
        end
    end
  end.

(** Whether the goroutine of a subscription that the run of the service makes panics. *)
Definition ingestor_panics handle (ctx : context) (ctxErr : error) (turns : list (list pick))
    (i : ingestor) : bool :=
  match i with
  | I_Single svc => goroutine_panics (H:=GeyserClient_ClientInterface G _) (gs_client svc) 0
  | I_Failover svc =>
    existsb rt_panics (fo_turns (fs_service (failoverRun handle ctx (Some ctxErr) 0 turns svc).1))
  end.

(** [service.Run(ctx, 0)] and what follows: the case of each [select] for the single
    client, those of each turn for the failover loop. [died] tells whether a panic of
    a goroutine, if there is one, has come: it ends the process at once, wherever the
    loop is. The picks are those taken until then. *)
Definition ingestor_run handle (ctx : context) (ctxErr : error) (picks : list pick)
    (turns : list (list pick)) (died : bool) (i : ingestor) : ingestor * process :=
  let ending r :=
    if died && ingestor_panics handle ctx ctxErr turns i then Panic
    else afterRun "service run failed: %v" r in
  match i with
  | I_Single svc =>
    let '(client, p, _, server, r) :=
      serviceRun handle ctx (H:=GeyserClient_ClientInterface G _) (gs_client svc) 0 ctxErr picks
        (gs_metricsServer svc) (gs_processor svc) in
    (I_Single (mkService client (gs_conn svc) p (gs_metricsAddr svc) server),
     ending r)
  | I_Failover svc =>
    let '(svc, r) := failoverRun handle ctx (Some ctxErr) 0 turns svc in
    (I_Failover svc, ending r)
  end.

(** [main]: the service, once there is one, and how the process ends. *)
Definition ingestor_main handle (ctx : context) (ctxErr : error) (picks : list pick)
    (turns : list (list pick)) (died : bool) (geyserNet heliusNet : G) (n : N) :
    N * option ingestor * process :=
  match ingestor_setup geyserNet heliusNet n with
  | (n, inl p) => (n, None, p)
  | (n, inr i) => let '(i, p) := ingestor_run handle ctx ctxErr picks turns died i in (n, Some i, p)
  end.

(** The processor of the service. *)
Definition ingestor_processor (i : ingestor) : Processor (Publisher J) MemorySlotTimeCache :=
  match i with
  | I_Single svc => gs_processor svc
  | I_Failover svc => fo_processor (fs_service svc)
  end.
End ingestor.
Arguments ingestor J G : clear implicits.

(** ** cmd/sink/clickhouse/main.go *)

Section clickhouse.
Context {N J : Type} `{Nats N J}.
Context `{ChProto} {C D : Type} `{!ChDial D C, !TradeWriter (ClickHouse.Writer C)}.
Context `{ProtoUnmarshal} (unicode_lower : Z → Z) (url_Parse : string → result ClickHouse.URL).

(** The networks, the loop if it ran, and the process. *)
Definition clickhouse_main (env : string → string) (ctx : context) (rounds : list round) (w : D * N) :
    (D * N) * option (loop_state (processor (ClickHouse.Writer C))) * process :=
  match ClickHouse.ServiceConfigFromEnv env with
  | (_, Err err) => (w, None, Fatal "load config: %v" err)
  | (cfg, Ok _) =>
    match clickhouse_NewService unicode_lower url_Parse cfg w with
    | (w, Err err) => (w, None, Fatal "init service: %v" err)
    | ((d, n), Ok svc) =>
      match clickhouse_Run unicode_lower ctx rounds svc n with
      | (n, None) => ((d, n), None, Panic)
      | (n, Some (s, r)) => ((d, n), Some s, afterRun "service run failed: %v" (Some <$> r))
      end
    end
  end.
End clickhouse.

(** ** cmd/sink/parquet/main.go *)

Section parquet.
Context {N J : Type} `{Nats N J}.
Context `{ParquetCodec} {U : Type} `{S3World U} `{!RangeOrder string (list candleRow)}.
Context `{ProtoUnmarshal} (newSession : Parquet.Config → result U).

Definition parquet_main (env : string → string) (ctx : context) (rounds : list round) (n : N) :
    N * option (loop_state (Parquet.Writer U)) * process :=
  match Parquet.ServiceConfigFromEnv env with
  | (_, Err err) => (n, None, Fatal "load config: %v" err)
  | (cfg, Ok _) =>
    match parquet_NewService newSession cfg n with
    | (n, None) => (n, None, Panic)
    | (n, Some (Err err)) => (n, None, Fatal "init service: %v" err)
    | (n, Some (Ok svc)) =>
      let '(n, (s, r)) := parquet_Run ctx rounds svc n in
      (n, Some s, afterRun "service run failed: %v" (Some <$> r))
    end
  end.
End parquet.

(** ** cmd/bridge/main.go *)

Section bridge.
Context `{Prometheus, SortSlice}.
Context (ReadFile : string → result (list byte))
  (Unmarshal : list byte → result (list SubjectMapping)).

(** Up to [svc.Run], the goroutines of which are the steps of [BridgeRun.v]. *)
Definition bridge_setup (env : string → string) : process + Bridge.Service :=
  match Bridge.FromEnv env ReadFile Unmarshal with
  | Err err => inl (Fatal "load config: %v" err)
  | Ok cfg =>
    let registry := NewRegistry in
    let opts := [Some (WithMetricsRegisterer (Some (registry_Registerer registry))
                         (Some (registry_Gatherer registry)))] in
    let opts :=
      if bool_decide (MetricsAddr cfg ≠ "") then opts ++ [Some (WithMetricsServer (MetricsAddr cfg))]
      else opts in
    match Bridge.New cfg opts with
    | Err err => inl (Fatal "init bridge: %v" err)
    | Ok svc => inr svc
    end
  end.
End bridge.

(** ** Lemmas *)

Section ingestor_lemmas.
Context {N J G : Type} `{Nats N J, Grpc G, !RangeOrder string string}.
Context (ReadFile : string → result (list byte)) (Unmarshal : list byte → result (gmap string string)).
Context (env : string → string).

(** The program filters of the configuration file. *)
Definition filters_loaded (filters : gmap string string) : Prop :=
  loadProgramFilters ReadFile Unmarshal (env "PROGRAMS_YAML_PATH") = Ok filters
  ∧ filters ≠ ∅ ∧ ∀ name id, filters !! name = Some id → (32 <= slen id <= 44)%nat.

(** A request with one account filter per program. *)
Definition subscribes_to (filters : gmap string string) (rq : SubscribeRequest) : Prop :=
  ∀ name, rq_Accounts rq !! name = (λ id, mkFilterAccounts [] [id]) <$> filters !! name.

(** A request for the transactions of the programs. *)
Definition asks_transactions (filters : gmap string string) (rq : SubscribeRequest) : Prop :=
  ∃ f, rq_Transactions rq = {["programs" := f]}
  ∧ ∀ id, id ∈ ft_AccountInclude f ↔ ∃ name, filters !! name = Some id.

(** What [setupPipeline] leaves for the settings of the environment: one more
    connection, and an empty processor over a publisher on its JetStream. *)
Definition pipeline_ok (n n' : N) (conn : nat) (p : Processor (Publisher J) MemorySlotTimeCache)
    (server : option metrics_server) : Prop :=
  conn_effect (Some conn) n n'
  ∧ server = buildMetricsServer (env "INGESTOR_METRICS_ADDR")
  ∧ ∃ natsCfg js n1, Publisher.FromEnv env = (natsCfg, Ok tt)
    ∧ p = NewProcessor (mkPublisher natsCfg js []) NewMemorySlotTimeCache
    ∧ nats_JetStream conn n1 = (n', Ok js).

Lemma LoadConfig_filters cfg :
  LoadConfig ReadFile Unmarshal env (env "PROGRAMS_YAML_PATH") = Ok cfg →
  GeyserConfig.Validate cfg = Ok tt → filters_loaded (GeyserConfig.ProgramFilters cfg).
Proof.
  unfold LoadConfig. intros Hl Hv. apply Validate_ok in Hv as (_ & _ & Hne & Hids).
  split; [|done]. case_bool_decide as Hp.
  - apply bind_Ok in Hl as (filters & Hf%wrap_err_Ok & [= <-]). done.
  - injection Hl as <-. done.
Qed.

Lemma geyser_NewClient_Ok cfg (net : G) client :
  geyser_NewClient cfg net = Ok client → GeyserConfig.Validate cfg = Ok tt ∧ cl_cfg client = cfg.
Proof. unfold geyser_NewClient. intros ([] & Hv%wrap_err_Ok & [= <-])%bind_Ok. done. Qed.

Lemma helius_NewStreamClient_Ok cfg (net : G) client :
  helius_NewStreamClient (Some cfg) net = Ok client → cl_cfg client = cfg.
Proof.
  unfold helius_NewStreamClient. intros (? & _ & Hc)%bind_Ok. case_decide; [done|]. by injection Hc as <-.
Qed.

Lemma helius_FromEnv_Ok cfg : HeliusConfig.FromEnv env = (cfg, Ok tt) → is_Some cfg.
Proof. unfold HeliusConfig.FromEnv. destruct (_ ≫= _); [|done]. intros [= <- _]. by eexists. Qed.

Lemma setupPipeline_pipeline_ok natsCfg n n' conn p server :
  Publisher.FromEnv env = (natsCfg, Ok tt) →
  setupPipeline natsCfg (env "INGESTOR_METRICS_ADDR") n = (n', Ok (conn, p, server)) →
  pipeline_ok n n' conn p server.
Proof.
  intros Hf Hs. pose proof (setupPipeline_conns natsCfg (env "INGESTOR_METRICS_ADDR") n) as Hc.
  rewrite Hs in Hc. apply setupPipeline_Ok in Hs as (_ & -> & js & n1 & -> & Hj).
  split_and!; [done|done|]. by exists natsCfg, js, n1.
Qed.
Lemma setupPipeline_failed natsCfg addr n n' (e : error) :
  setupPipeline (N:=N) (J:=J) natsCfg addr n = (n', Err e) → open_conns n' = open_conns n.
Proof. intros Hs. pose proof (setupPipeline_conns natsCfg addr n) as Hc. by rewrite Hs in Hc. Qed.

(** The requests of the two clients: accounts of the programs, and transactions only
    from the fallback. *)
Definition geyser_asks (filters : gmap string string) (rq : SubscribeRequest) : Prop :=
  subscribes_to filters rq ∧ rq_Transactions rq = ∅.
Definition helius_asks (filters : gmap string string) (rq : SubscribeRequest) : Prop :=
  subscribes_to filters rq ∧ asks_transactions filters rq.

Lemma geyser_asks_own (c : GeyserConfig.Config) slot :
  geyser_asks (GeyserConfig.ProgramFilters c) (geyser_buildSubscribeRequest c slot).
Proof. split; [intros name; apply accountFilters_lookup|done]. Qed.
Lemma helius_asks_own (c : HeliusConfig.Config) slot :
  helius_asks (HeliusConfig.ProgramFilters c) (helius_buildSubscribeRequest c slot).
Proof.
  split; [intros name; apply accountFilters_lookup|]. eexists. split; [reflexivity|].
  intros id. apply elem_of_range_values.
Qed.

(** What holds of the outcome of [ingestor_setup]. *)
Definition setup_ok (n n' : N) (r : process + ingestor J G) : Prop :=
  match r with
  | inl (Fatal _ _) => open_conns n' = open_conns n
  | inl _ => False
  | inr (I_Single svc) =>
    env "ENABLE_HELIUS_FALLBACK" ≠ "1"
    ∧ pipeline_ok n n' (gs_conn svc) (gs_processor svc) (gs_metricsServer svc)
    ∧ ∃ filters, filters_loaded filters
      ∧ ∀ slot, geyser_asks filters (geyser_buildSubscribeRequest (cl_cfg (gs_client svc)) slot)
  | inr (I_Failover svc) =>
    env "ENABLE_HELIUS_FALLBACK" = "1"
    ∧ pipeline_ok n n' (fs_conn svc) (fo_processor (fs_service svc)) (fs_metricsServer svc)
    ∧ ∃ filters g h, filters_loaded filters ∧ fo_clients (fs_service svc) = [inl g; inr h]
      ∧ fo_turns (fs_service svc) = []
      ∧ ∀ slot, geyser_asks filters (geyser_buildSubscribeRequest (cl_cfg g) slot)
        ∧ helius_asks filters (helius_buildSubscribeRequest (cl_cfg h) slot)
  end.

Lemma ingestor_fallback_ok geyserCfg natsCfg geyserNet heliusNet n :
  LoadConfig ReadFile Unmarshal env (env "PROGRAMS_YAML_PATH") = Ok geyserCfg →
  Publisher.FromEnv env = (natsCfg, Ok tt) → env "ENABLE_HELIUS_FALLBACK" = "1" →
  let '(n', r) := ingestor_fallback env geyserCfg natsCfg (env "INGESTOR_METRICS_ADDR")
                    geyserNet heliusNet n in
  setup_ok n n' r.
Proof.
  intros Hl Hp He. unfold ingestor_fallback.
  destruct (geyser_NewClient _ _) as [g|e] eqn:Eg; [|done].
  apply geyser_NewClient_Ok in Eg as [Hv Hg].
  destruct (HeliusConfig.FromEnv env) as [[c|] [[]|e]] eqn:Ef; [|done| |done].
  2: { by apply helius_FromEnv_Ok, is_Some_None in Ef. }
  destruct (helius_NewStreamClient _ _) as [h|e] eqn:Eh; [|done].
  apply helius_NewStreamClient_Ok in Eh. unfold failover_NewService.
  destruct (setupPipeline _ _ n) as [n' [[[conn p] server]|e]] eqn:Es; simpl.
  - split; [done|]. split; [by eapply setupPipeline_pipeline_ok|].
    exists (GeyserConfig.ProgramFilters geyserCfg), g, h. split; [by apply LoadConfig_filters|].
    split; [done|]. split; [done|]. intros slot. rewrite Hg, Eh.
    split; [apply geyser_asks_own|exact (helius_asks_own (withProgramFilters _ c) slot)].
  - by eapply setupPipeline_failed.
Qed.
End ingestor_lemmas.

(** The bridge serves its metrics exactly when an address is configured, and runs the
    configuration of the environment. *)
Lemma bridge_setup_serves `{Prometheus, SortSlice} ReadFile Unmarshal env svc :
  bridge_setup ReadFile Unmarshal env = inr svc →
  Bridge.FromEnv env ReadFile Unmarshal = Ok (svc_cfg svc)
  ∧ serves svc = bool_decide (env "BRIDGE_METRICS_ADDR" ≠ "").
Proof.
  unfold bridge_setup. destruct (Bridge.FromEnv _ _ _) as [cfg|e] eqn:Ef; [|done].
  assert (MetricsAddr cfg = env "BRIDGE_METRICS_ADDR") as Ha.
  { unfold Bridge.FromEnv in Ef. apply bind_Ok in Ef as (m & _ & ([] & _ & [= <-])%bind_Ok). done. }
  rewrite <- Ha. unfold Bridge.New. destruct (Bridge.Validate cfg); [|done].
  case_bool_decide as Hm; simpl; intros [= <-]; unfold serves; (split; [done|]); simpl.
  - by rewrite bool_decide_eq_true_2.
  - rewrite bool_decide_eq_false_2 by (intros Hn; exact (Hn Hm)). reflexivity.
Qed.

(** The setup of the ingestor, for every environment, files and networks. *)
Lemma ingestor_setup_ok {N J G} `{Nats N J, Grpc G, !RangeOrder string string}
    ReadFile Unmarshal env (geyserNet heliusNet : G) (n : N) :
  let '(n', r) := ingestor_setup (J:=J) ReadFile Unmarshal env geyserNet heliusNet n in
  setup_ok ReadFile Unmarshal env n n' r.
Proof.
  unfold ingestor_setup. destruct (LoadConfig _ _ _ _) as [cfg|e] eqn:El; [|done].
  destruct (Publisher.FromEnv env) as [natsCfg [[]|e]] eqn:Ep; [|done].
  case_bool_decide as He; [by apply ingestor_fallback_ok|].
  unfold geyser_NewService. destruct (geyser_NewClient _ _) as [g|e] eqn:Eg; [|done].
  apply geyser_NewClient_Ok in Eg as [Hv Hg].
  destruct (setupPipeline _ _ n) as [n' [[[conn p] server]|e]] eqn:Es; simpl.
  - split; [done|]. split; [by eapply setupPipeline_pipeline_ok|].
    exists (GeyserConfig.ProgramFilters cfg). split; [by apply LoadConfig_filters|].
    intros slot. rewrite Hg. apply geyser_asks_own.
  - by eapply setupPipeline_failed.
Qed.

(** ** The tickers of the sinks *)

(** The setting of the flush interval overflows: its product with a millisecond
    does not fit a [Duration]. *)
Definition interval_overflows (env : string → string) : Prop :=
  ∃ ms, env "CH_SINK_FLUSH_INTERVAL_MS" ≠ ""
    ∧ Atoi (env "CH_SINK_FLUSH_INTERVAL_MS") = Ok ms ∧ i64 (ms * Millisecond) <= 0.

Lemma envMillis_Ok env name def (d : Z) :
  ClickHouse.envMillis env name positive def = Ok d →
  (env name = "" ∧ d = def)
  ∨ (env name ≠ "" ∧ ∃ ms, Atoi (env name) = Ok ms ∧ 0 < ms ∧ d = i64 (ms * Millisecond)).
Proof.
  unfold ClickHouse.envMillis. case_bool_decide as Hv; [intros [= <-]; auto|].
  intros (ms & Hms & [= <-])%bind_Ok. right. split; [done|].
  unfold ClickHouse.envInt in Hms. rewrite bool_decide_eq_false_2 in Hms by done.
  destruct (Atoi (env name)) as [k|e]; [|done]. destruct (positive k) eqn:Hk; [|done].
  injection Hms as ->. exists ms. split_and!; [done| |done]. unfold positive in Hk. by apply Z.ltb_lt.
Qed.

Lemma flush_interval env cfg r :
  ClickHouse.ServiceConfigFromEnv env = (cfg, r) → is_ok r = true →
  ClickHouse.FlushInterval (ClickHouse.sc_Writer cfg) <= 0 ↔ interval_overflows env.
Proof.
  unfold ClickHouse.ServiceConfigFromEnv.
  destruct (loadServiceConfig env) as [c|e] eqn:El; intros [= <- <-]; [intros _|done].
  unfold loadServiceConfig in El.
  apply bind_Ok in El as (pb & _ & (pt & _ & (fi & Hfi & El)%bind_Ok)%bind_Ok).
  apply bind_Ok in El as (bs & _ & (mr & _ & (bb & _ & (bm & _ & [= <-])%bind_Ok)%bind_Ok)%bind_Ok).
  simpl. unfold interval_overflows. apply envMillis_Ok in Hfi as [[Hv ->]|(Hv & ms & Hms & _ & ->)].
  - split; [done|]. by intros (ms & ? & _).
  - rewrite Hms. naive_solver.
Qed.

Lemma interval_overflows_bound env ms :
  interval_overflows env → Atoi (env "CH_SINK_FLUSH_INTERVAL_MS") = Ok ms → 0 < ms →
  9223372036854 < ms.
Proof.
  intros (ms' & _ & Hms' & Hi) Hms Hpos. rewrite Hms in Hms'. injection Hms' as <-.
  destruct (Z.le_gt_cases ms 9223372036854) as [Hle|]; [|lia].
  unfold Millisecond in Hi. rewrite i64_small in Hi by (unfold is_i64; lia). lia.
Qed.

(** ** Properties *)

(** C26. The tickers of the two sink processes, for every environment, networks and
    rounds. [time.NewTicker] panics on an interval that is not positive. The Parquet
    sink never panics. The ClickHouse sink does, once its service exists, exactly
    when the product of [CH_SINK_FLUSH_INTERVAL_MS] with a millisecond overflows to
    a duration that is not positive, which the validation does not refuse. *)
Theorem sink_tickers {N J C D U} `{Nats N J, ChProto} `{!ChDial D C}
    `{!TradeWriter (ClickHouse.Writer C), ProtoUnmarshal}
    `{ParquetCodec, S3World U, !RangeOrder string (list candleRow)}
    low url_Parse newSession env ctx rounds (d : D) (n : N) :
  (parquet_main newSession env ctx rounds n).2 ≠ Panic
  ∧ ((clickhouse_main low url_Parse env ctx rounds (d, n)).2 = Panic ↔
     interval_overflows env
     ∧ ∃ cfg w svc, ClickHouse.ServiceConfigFromEnv env = (cfg, Ok tt)
       ∧ clickhouse_NewService low url_Parse cfg (d, n) = (w, Ok svc)).
Proof.
  split.
  - unfold parquet_main. destruct (Parquet.ServiceConfigFromEnv env) as [cfg [[]|e]]; [|done].
    destruct (parquet_NewService_total newSession cfg n) as [r Hr].
    destruct (parquet_NewService newSession cfg n) as [n' [[svc|e]|]]; simpl in *; [|done|done].
    destruct (parquet_Run _ _ _ _) as [n2 [s [e|]]]; simpl; [|done]. by case_decide.
  - unfold clickhouse_main.
    destruct (ClickHouse.ServiceConfigFromEnv env) as [cfg [[]|e]] eqn:Ec.
    2: { split; [done|]. by intros (_ & c & w & svc & ? & _). }
    destruct (clickhouse_NewService low url_Parse cfg (d, n)) as [[d' n'] [svc|e]] eqn:Es.
    2: { split; [discriminate|]. intros (_ & c & w & svc & Hc & Hs). injection Hc as <-. rewrite Es in Hs. discriminate Hs. }
    pose proof (clickhouse_NewService_Ok low url_Parse _ _ _ _ _ Es) as Hcfg.
    pose proof (flush_interval env cfg _ Ec eq_refl) as Hi.
    unfold clickhouse_Run, NewTicker. rewrite Hcfg.
    destruct (0 <? _) eqn:Et; go_bool; simpl.
    + split; [|intros [?%Hi _]; lia].
      destruct (ClickHouse.Run _ _ _ _) as [s [e|]]; simpl; [|done]. by case_decide.
    + split; [|done]. intros _. split; [by apply Hi|]. by exists cfg, (d', n'), svc.
Qed.

(** ** Concrete processes *)

(** A NATS client library whose calls succeed: the set of the open connections. *)
Definition TestNats : Type := gset nat.
#[local] Program Instance TestNats_Nats : Nats TestNats () := {|
  nats_Connect _ _ conns := ({[fresh conns]} ∪ conns, Ok (fresh conns));
  nats_JetStream _ conns := (conns, Ok tt);
  nats_PullSubscribe _ _ _ _ conns := (conns, Ok tt);
  nats_Close c conns := conns ∖ {[c]};
  nats_Drain c conns := conns ∖ {[c]};
  open_conns conns := conns;
|}.
Next Obligation. intros url name conns. simpl. split; [apply is_fresh|done]. Qed.
Next Obligation. done. Qed.
Next Obligation. done. Qed.
Next Obligation. done. Qed.
Next Obligation. set_solver. Qed.

Section examples.
#[local] Existing Instance Z_ChProto.
#[local] Instance process_client : ChClient (TestClient (H:=Z_ChProto)) := TestClient_ChClient (λ _, true).
#[local] Existing Instance candles_dial.
#[local] Existing Instances ClickHouse.example_marshal ClickHouse.example_unmarshal.

(** The environment of the ClickHouse sink, but for the flush interval. *)
Definition sink_env (interval : string) (name : string) : string :=
  if bool_decide (name = "CH_SINK_FLUSH_INTERVAL_MS") then interval
  else if bool_decide (name ∈ ["CH_SINK_NATS_URL"; "CH_SINK_NATS_STREAM"; "CH_SINK_DSN";
    "CH_SINK_DATABASE"; "CH_SINK_TRADES_TABLE"; "CH_SINK_CANDLES_TABLE"]) then "x" else "".
Definition sink_process (interval : string) : TestNats * process :=
  let '((_, n), _, r) :=
    clickhouse_main (TradeWriter0:=Writer_TradeWriter _ _ process_client)
      id example_url (sink_env interval) Background ClickHouse.example_rounds (([], []), ∅) in
  (n, r).

Lemma sink_process_runs : sink_process "9223372036854" = (∅, Stopped).
Proof. vm_compute. reflexivity. Qed.
(** One millisecond more and the process panics, its connection open. *)
Lemma sink_process_panics : sink_process "9223372036855" = ({[0%nat]}, Panic).
Proof. vm_compute. reflexivity. Qed.
End examples.
