(* ===== verification/Processes.v ===== *)
(** * The sink processes and what they store

    [Commands.v] says how the processes of [cmd/sink/] start and end, [ClickHouse.v]
    and [Parquet.v] what a running service stores. Here both are one statement about
    [main], from the environment to the end of the process. *)

From S2P Require Import Prelude GoStrings Bytes Proto Publisher Sink ClickHouse Parquet.
From S2P Require Import Services Candles Commands.
Local Open Scope list_scope.

#[local] Existing Instance Writer_TradeWriter.

(** A connected client is one that [dial] returned. *)
Lemma dialLoop_dialled {D C} `{ChDial D C} opts retries maxBackoff more backoff (d d' : D) c :
  dialLoop opts retries maxBackoff more backoff d = (d', Ok c) →
  ∃ opts' d1 d2, ch_Dial opts' d1 = (d2, Ok c).
Proof.
  revert backoff d. induction more as [|more IH]; intros backoff d; simpl;
    destruct (ch_Dial opts d) as [d1 [c1|err]] eqn:Ed.
  - intros [= <- <-]. eauto.
  - discriminate 1.
  - intros [= <- <-]. eauto.
  - destruct (select_After backoff d1) as [d2 [e|]]; [discriminate 1|]. apply IH.
Qed.

Lemma connect_dialled {D C} `{ChDial D C} low url_Parse cfg (d d' : D) c :
  connectWithRetry low url_Parse cfg d = (d', Ok c) → ∃ opts d1 d2, ch_Dial opts d1 = (d2, Ok c).
Proof.
  unfold connectWithRetry. destruct (wrap_err _ _ _) as [opts|e]; [|discriminate 1].
  destruct (MaxRetries cfg <? 0); [discriminate 1|]. apply dialLoop_dialled.
Qed.

(** The writer of a new service is new, on a client that [dial] returned. *)
Lemma clickhouse_NewService_new {N J} `{Nats N J, ChProto} {C D} `{!ChDial D C, !ChClient C, ProtoUnmarshal}
    low url_Parse cfg (w w' : D * N) svc :
  clickhouse_NewService low url_Parse cfg w = (w', Ok svc) →
  ∃ client opts d1 d2, ss_sink svc = newWriter (ClickHouse.sc_Writer cfg) client
    ∧ ch_Dial opts d1 = (d2, Ok client).
Proof.
  destruct w as [d n]. unfold clickhouse_NewService, NewWithConfig.
  destruct (wrap_err _ _ (validateConfig _)) as [u|e]; [|discriminate 1].
  destruct (connectWithRetry _ _ _ d) as [d' [c|e]] eqn:Ec; simpl; [|discriminate 1].
  destruct (subscribeSink _ _ _ _ n) as [n' [[conn js]|e]]; [|discriminate 1].
  intros [= <- <-]. destruct (connect_dialled _ _ _ _ _ _ Ec) as (opts & d1 & d2 & Hd). by exists c, opts, d1, d2.
Qed.

Lemma parquet_NewService_new {N J} `{Nats N J, ParquetCodec} {U} `{S3World U, !RangeOrder string (list candleRow),
    ProtoUnmarshal} newSession cfg (n n' : N) svc :
  parquet_NewService newSession cfg n = (n', Some (Ok svc)) →
  ∃ u0 u t, newSession (Parquet.sc_Writer cfg) = Ok u0 ∧ Now u0 = (u, t)
    ∧ ss_sink svc = mkWriter (Parquet.sc_Writer cfg) ∅ u t.
Proof.
  unfold parquet_NewService, NewWriter. destruct (_ || _); [discriminate 1|].
  destruct (Parquet.Validate _) as [[]|e]; [|discriminate 1]. simpl.
  destruct (newSession _) as [u0|e]; [|discriminate 1]. simpl. destruct (Now u0) as [u t] eqn:En.
  destruct (subscribeSink _ _ _ _ n) as [n1 [[conn js]|e]]; [|discriminate 1].
  destruct (NewTicker _); [|discriminate 1]. intros [= <- <-]. by exists u0, u, t.
Qed.

Lemma afterRun_Running msg (r : option error) : afterRun msg (Some <$> r) = Running ↔ r = None.
Proof. destruct r as [e|]; simpl; [|done]. split; [|discriminate 1]. by case_decide. Qed.

Lemma afterRun_ended msg (r : option error) : afterRun msg (Some <$> r) ≠ Running → is_Some r.
Proof. rewrite afterRun_Running. by destruct r. Qed.

(** ** Properties *)

(** C11. The ClickHouse sink process, for every environment, network, script of
    fetches and refusals of the client, given that a client that was just dialled
    has made no call. Either it ends before its loop, or the messages are handled in
    fetch order and acknowledged, except one whose handler failed, after which the
    process has ended; while it runs it has handled every fetched message. The rows
    of the accepted inserts followed by the rows in memory are the rows of the swaps
    among the handled messages, each once, at the time the block heads before it
    give its slot. Once the process has ended, no row is left in memory unless the
    client refused the last call made. *)
Theorem clickhouse_process {N J} `{Nats N J, ChProto} {C D} `{!ChDial D C, !ChClient C, ProtoUnmarshal}
    low url_Parse env ctx rounds (d : D) (n : N) :
  (∀ opts (d1 d2 : D) c, ch_Dial opts d1 = (d2, Ok c) → queries c = []) →
  let '(_, loop, p) := clickhouse_main (C:=C) low url_Parse env ctx rounds (d, n) in
  match loop with
  | None => p = Panic ∨ ∃ msg err, p = Fatal msg err
  | Some s =>
    let msgs := event_msg <$> ls_trace s in
    ∃ log ts cs,
      ClickHouse.represents (p_writer (ls_sink s)) log ts cs
      ∧ ClickHouse.accepted_trades log ++ ts = ClickHouse.rows_of low [] msgs
      ∧ msgs `prefix_of` fetched rounds
      ∧ ((∃ ms, ls_trace s = E_Ack <$> ms)
         ∨ ∃ ms m, ls_trace s = (E_Ack <$> ms) ++ [E_Nak m] ∧ p ≠ Running)
      ∧ (p = Running → msgs = fetched rounds)
      ∧ (p ≠ Running → ts = [] ∨ ∃ i, last log = Some (i, false))
  end.
Proof.
  intros Hfresh. unfold clickhouse_main.
  destruct (ClickHouse.ServiceConfigFromEnv env) as [cfg [[]|e]]; [|right; eauto].
  destruct (clickhouse_NewService low url_Parse cfg (d, n)) as [[d' n'] [svc|e]] eqn:Es; [|right; eauto].
  destruct (clickhouse_NewService_new _ _ _ _ _ _ Es) as (client & opts & d1 & d2 & Hw & Hd).
  unfold clickhouse_Run. destruct (NewTicker _); [|by left]. rewrite Hw.
  pose proof (ClickHouse.Run_inserts_handled low ctx (ClickHouse.sc_Writer cfg) client rounds (Hfresh _ _ _ _ Hd)) as HR.
  destruct (ClickHouse.Run low ctx rounds _) as [s r].
  destruct HR as (log & ts & cs & Hrep & Hrows & Hpre & Hform & Hall & Hend).
  pose proof (afterRun_Running "service run failed: %v" r) as Hp.
  exists log, ts, cs. do 3 (split; [done|]). split; [|split].
  - destruct Hform as [?|(ms & m & Ht & [e ->])]; [by left|right]. exists ms, m. split; [done|]. by rewrite Hp.
  - rewrite Hp. exact Hall.
  - intros Hr%afterRun_ended. exact (Hend Hr).
Qed.

(** C12. The Parquet sink process, likewise, given that a new session has uploaded
    nothing: in every bucket the rows of the accepted uploads followed by those in
    memory are the rows of the candles among the handled messages, each once and in
    order. The process ends with a flush, and when that succeeds no row is left. *)
Theorem parquet_process {N J} `{Nats N J, ParquetCodec} {U} `{S3World U, !RangeOrder string (list candleRow),
    ProtoUnmarshal} newSession env ctx rounds (n : N) :
  (∀ cfg u, newSession cfg = Ok u → uploads u = []) →
  let '(_, loop, p) := parquet_main newSession env ctx rounds n in
  match loop with
  | None => ∃ msg err, p = Fatal msg err
  | Some s =>
    let msgs := event_msg <$> ls_trace s in
    ∃ cfg log, Parquet.ServiceConfigFromEnv env = (cfg, Ok tt)
    ∧ Forall2 (uploaded (Parquet.sc_Writer cfg)) log (uploads (uploader (ls_sink s)))
    ∧ (∀ key, accepted key log ++ buffered (ls_sink s) key = rows_for key (omap msg_candle msgs))
    ∧ msgs `prefix_of` fetched rounds
    ∧ ((∃ ms, ls_trace s = E_Ack <$> ms)
       ∨ ∃ ms m, ls_trace s = (E_Ack <$> ms) ++ [E_Nak m] ∧ p ≠ Running)
    ∧ (p = Running → msgs = fetched rounds)
    ∧ (p ≠ Running → ∃ w r, Flush Background w = (ls_sink s, r)
       ∧ (is_ok r = true → ∀ key, buffered (ls_sink s) key = []))
  end.
Proof.
  intros Hfresh. unfold parquet_main.
  destruct (Parquet.ServiceConfigFromEnv env) as [cfg [[]|e]]; [|eauto].
  destruct (parquet_NewService_total newSession cfg n) as [r0 Hr0].
  destruct (parquet_NewService newSession cfg n) as [n' [[svc|e]|]] eqn:Es; simpl in Hr0; [|eauto|done].
  destruct (parquet_NewService_new _ _ _ _ _ Es) as (u0 & u & t & Hu & Hnow & Hw).
  unfold parquet_Run. rewrite Hw.
  assert (uploads u = []) as Hu0.
  { pose proof (uploads_Now u0) as Hn. rewrite Hnow in Hn. simpl in Hn. rewrite Hn. by apply (Hfresh _ _ Hu). }
  pose proof (Run_uploads_handled ctx (Parquet.sc_Writer cfg) u t rounds Hu0) as HR.
  destruct (Parquet.Run ctx rounds _) as [s r].
  destruct HR as (log & Hlog & Hrows & Hpre & Hform & Hall & Hend).
  pose proof (afterRun_Running "service run failed: %v" r) as Hp.
  exists cfg, log. do 4 (split; [done|]). split; [|split].
  - destruct Hform as [?|(ms & m & Ht & [e ->])]; [by left|right]. exists ms, m. split; [done|]. by rewrite Hp.
  - rewrite Hp. exact Hall.
  - intros Hr%afterRun_ended. exact (Hend Hr).
Qed.

(** ** Witnesses *)

Section witnesses.
#[local] Existing Instances Z_ChProto candles_dial TestNats_Nats.
#[local] Instance processes_client : ChClient (TestClient (H:=Z_ChProto)) := TestClient_ChClient (λ _, true).

Section clickhouse.
#[local] Existing Instances ClickHouse.example_marshal ClickHouse.example_unmarshal.
Definition clickhouse_example :=
  clickhouse_main (C:=TestClient) id example_url (sink_env "1000") Background ClickHouse.example_rounds
    (([], []), ∅).

Lemma clickhouse_process_witness :
  clickhouse_example.2 = Stopped
  ∧ ∃ s log ts cs, clickhouse_example.1.2 = Some s
    ∧ ClickHouse.represents (p_writer (ls_sink s)) log ts cs
    ∧ ClickHouse.accepted_trades log ++ ts = [ClickHouse.example_trade "s1"; ClickHouse.example_trade "s2"].
Proof.
  split; [vm_compute; reflexivity|].
  pose proof (clickhouse_process id example_url (sink_env "1000") Background ClickHouse.example_rounds
    ([], []) (∅ : TestNats)) as HP.
  assert (∃ s, clickhouse_example.1.2 = Some s ∧ event_msg <$> ls_trace s = ClickHouse.example_msgs) as (s & Es & Em).
  { assert ((λ s, event_msg <$> ls_trace s) <$> clickhouse_example.1.2 = Some ClickHouse.example_msgs) as E
      by (vm_compute; reflexivity).
    destruct clickhouse_example.1.2 as [s|]; [|discriminate E]. injection E as E.
    exists s. split; [reflexivity|exact E]. }
  exists s. unfold clickhouse_example in Es |- *.
  destruct (clickhouse_main (C:=TestClient) _ _ _ _ _ _) as [[w loop] p].
  simpl in Es. rewrite Es in HP.
  destruct HP as (log & ts & cs & Hr & Ht & _); [by intros opts d1 d2 c [= _ <-]|].
  exists log, ts, cs. split; [exact Es|]. split; [exact Hr|]. rewrite Ht, Em. vm_compute. reflexivity.
Defined.
End clickhouse.

Section parquet.
#[local] Existing Instances Parquet.example_codec Parquet.example_marshal Parquet.example_unmarshal.
#[local] Instance processes_world : S3World TestWorld := TestWorld_S3World (λ _, true).
#[local] Instance processes_order : RangeOrder string (list candleRow) := map_to_list_order.

Definition parquet_env (name : string) : string :=
  if bool_decide (name ∈ ["S3_ENDPOINT"; "S3_BUCKET"; "S3_ACCESS_KEY"; "S3_SECRET_KEY";
    "PARQUET_NATS_URL"; "PARQUET_NATS_STREAM"]) then "x" else "".
Definition parquet_rounds : list round :=
  [mkRound Poll_Default (Ok [Parquet.example_msg 0; Parquet.example_msg 1]);
   mkRound (Poll_Done (Sentinel "context.Canceled")) (Ok [])].
Definition parquet_example :=
  parquet_main (λ _, Ok (([], 0) : TestWorld)) parquet_env Background parquet_rounds (∅ : TestNats).

Lemma parquet_process_witness :
  parquet_example.2 = Stopped
  ∧ ∃ s log, parquet_example.1.2 = Some s
    ∧ ∀ key, accepted key log ++ buffered (ls_sink s) key
             = rows_for key (omap msg_candle [Parquet.example_msg 0; Parquet.example_msg 1]).
Proof.
  split; [vm_compute; reflexivity|].
  pose proof (parquet_process (λ _, Ok (([], 0) : TestWorld)) parquet_env Background parquet_rounds
    (∅ : TestNats)) as HP.
  assert (∃ s, parquet_example.1.2 = Some s
    ∧ event_msg <$> ls_trace s = [Parquet.example_msg 0; Parquet.example_msg 1]) as (s & Es & Em).
  { assert ((λ s, event_msg <$> ls_trace s) <$> parquet_example.1.2 = Some [Parquet.example_msg 0; Parquet.example_msg 1]) as E
      by (vm_compute; reflexivity).
    destruct parquet_example.1.2 as [s|]; [|discriminate E]. injection E as E.
    exists s. split; [reflexivity|exact E]. }
  exists s. unfold parquet_example in Es |- *. destruct (parquet_main _ _ _ _ _) as [[w loop] p].
  simpl in Es. rewrite Es in HP.
  destruct HP as (cfg & log & _ & _ & Hk & _); [by intros cfg u [= <-]|].
  exists log. split; [exact Es|]. intros key. rewrite (Hk key), Em. reflexivity.
Defined.
End parquet.
End witnesses.
