(* ===== verification/HeliusClient.v ===== *)
(** * Helius canonical client

    [ingestor/helius/client.go]: the fallback ingestor that turns the updates of a
    stream into canonical messages itself, with a health snapshot for a failover
    controller. It shares the decoder with the processor, and the theorem compares
    the two. The choices of the outside (which case a [select] takes, whether the
    error channel has room, whether a send is taken before the context ends, the
    clock) are the fields of a [turn]. *)

From S2P Require Import Prelude GoStrings Bytes Pair Meteora Publisher SlotCache IngestDecoder.
From S2P Require Import Processor HeliusConfig Streams Failover Proto.
Local Open Scope list_scope.

(** Exactly one field is set. *)
Record Update := mkUpdate {
  up_BlockHead : option BlockHead;
  up_TxMeta : option TxMeta;
  up_Swap : option SwapEvent;
}.

Record HealthSnapshot := mkHealth {
  LastHeartbeat : Z;
  LastSlot : Z;
  Healthy : bool;
  Source : string;
}.

Record Client (T : Type) := mkClient {
  hc_cfg : HeliusConfig.Config;
  hc_health : HealthSnapshot;
  hc_decoder : Decoder T;
  hc_cancel : bool; (** [cancel != nil] *)
}.
Arguments mkClient {T} _ _ _ _.
Arguments hc_cfg {T} _.
Arguments hc_health {T} _.
Arguments hc_decoder {T} _.
Arguments hc_cancel {T} _.

(** The messages received on the channel [updates] for some sends. *)
Fixpoint sendUpdates (taken : nat → bool) (i : nat) (us : list Update) : list Update :=
  match us with
  | [] => []
  | u :: us => (if taken i then [u] else []) ++ sendUpdates taken (S i) us
  end.

Record turn := mkTurn {
  hn_pick : pick;
  hn_now : Z;
  hn_room : bool;
  hn_taken : nat → bool;
}.

Section client.
Context (unicode_lower : Z → Z) (registry : PairRegistry) (programKinds : gmap string string).
Context {T : Type} `{SlotTimeCache T, Base58, !RangeOrder string string, !RangeOrder Z tokenBalance}.

Definition NewClient (cfg : HeliusConfig.Config) (cache : T) : result (Client T) :=
  _ ← HeliusConfig.Validate (Some cfg);
  Ok (mkClient cfg (mkHealth zero_time 0 false "") (New cache) false).

Definition setHealth (f : HealthSnapshot → HealthSnapshot) (c : Client T) : Client T :=
  mkClient (hc_cfg c) (f (hc_health c)) (hc_decoder c) (hc_cancel c).
Definition setCancel (b : bool) (c : Client T) : Client T :=
  mkClient (hc_cfg c) (hc_health c) (hc_decoder c) b.
Definition Close (c : Client T) : Client T := if hc_cancel c then setCancel false c else c.
Definition Health (c : Client T) : HealthSnapshot := hc_health c.

Definition slotFromUpdate : SubscribeUpdate → Z := extractSlot.

(** The sends of [handleSubscribeUpdate] for one update, its decoder and error. *)
Definition handleSubscribeUpdate (update : SubscribeUpdate) (d : Decoder T) :
    Decoder T * list Update * result () :=
  match update with
  | U_BlockMeta meta =>
    let d := HandleBlockMeta meta d in
    match meta with
    | None => (d, [], Ok tt)
    | Some meta =>
      let head := mkBlockHead 501 (bm_Slot meta)
        (match bm_BlockTime meta with Some ts => u64 ts | None => 0 end) "confirmed" in
      (d, [mkUpdate (Some head) None None], Ok tt)
    end
  | U_Account account => (HandleAccount account d, [], Ok tt)
  | U_Transaction tx =>
    let metas := match ConvertTxMeta tx with
                 | Some meta => [mkUpdate None (Some meta) None] | None => [] end in
    match DecodeTransaction unicode_lower registry programKinds d tx with
    | Err err => (d, metas, Err (Wrapf "decode transaction: %w" [] err))
    | Ok events => (d, metas ++ ((λ ev, mkUpdate None None (Some ev)) <$> events), Ok tt)
    end
  | U_Slot _ | U_Block _ | U_Ping | U_Other => (d, [], Ok tt)
  end.

Definition unhealthy (h : HealthSnapshot) : HealthSnapshot :=
  mkHealth (LastHeartbeat h) (LastSlot h) false (Source h).
Definition unhealthyGrpc (h : HealthSnapshot) : HealthSnapshot :=
  mkHealth (LastHeartbeat h) (LastSlot h) false "grpc".
Definition heartbeat (now slot : Z) (h : HealthSnapshot) : HealthSnapshot :=
  mkHealth now (if 0 <? slot then slot else LastSlot h) true "grpc".

(** The loop of [run]: the updates and errors sent, and whether it returned. *)
Fixpoint runLoop (turns : list turn) (sb : subscription) (c : Client T) :
    Client T * list Update * list error * bool :=
  match turns with
  | [] => (c, [], [], false)
  | t :: rest =>
    match hn_pick t with
    | P_Done => (setHealth unhealthy c, [], [], true)
    | P_Err =>
      match sb_errs sb with
      | [] => runLoop rest sb c
      | err :: errs =>
        let '(c, us, es, fin) := runLoop rest (mkSubscription (sb_updates sb) errs (sb_closed sb) (sb_panics sb))
          (setHealth unhealthyGrpc c) in
        (c, us, (if hn_room t then [err] else []) ++ es, fin)
      end
    | P_Update =>
      match sb_updates sb with
      | [] => if sb_closed sb then (setHealth unhealthy c, [], [], true) else runLoop rest sb c
      | update :: updates =>
        let c := setHealth (heartbeat (hn_now t) (slotFromUpdate update)) c in
        let '(d, us, r) := handleSubscribeUpdate update (hc_decoder c) in
        let c := mkClient (hc_cfg c) (hc_health c) d (hc_cancel c) in
        let es := match r with Err err => if hn_room t then [err] else [] | Ok _ => [] end in
        let '(c, us', es', fin) :=
          runLoop rest (mkSubscription updates (sb_errs sb) (sb_closed sb) (sb_panics sb)) c in
        (c, sendUpdates (hn_taken t) 0 us ++ us', es ++ es', fin)
      end
    end
  end.

(** [run]: [newStream] and the first turn of the outside decide the start; the
    stream is closed when it returns. [sent] tells whether an error of the start is
    taken before the context ends. *)
Definition run {S} `{ClientInterface S} (newStream : HeliusConfig.Config → result S) (sent : bool)
    (startSlot now : Z) (turns : list turn) (c : Client T) :
    Client T * option S * list Update * list error * bool :=
  match newStream (hc_cfg c) with
  | Err err =>
    (c, None, [], if sent then [Wrapf "init helius stream client: %w" [] err] else [], true)
  | Ok stream =>
    match Connect_ stream with
    | (stream, Err err) =>
      (c, Some (Close_ stream), [], if sent then [Wrapf "connect helius stream: %w" [] err] else [], true)
    | (stream, Ok _) =>
      let '(stream, sb) := Subscribe_ startSlot stream in
      let c := setHealth (λ h, mkHealth now (LastSlot h) true "grpc") c in
      let '(c, us, es, fin) := runLoop turns sb c in
      (c, Some (if fin then Close_ stream else stream), us, es, fin)
    end
  end.

(** [Start] keeps the cancel function of the context that it gives to [run];
    [Close] calls it, which is the [P_Done] of a later turn. *)
Definition Start {S} `{ClientInterface S} (newStream : HeliusConfig.Config → result S) (sent : bool)
    (startSlot now : Z) (turns : list turn) (c : Client T) :
    Client T * option S * list Update * list error * bool :=
  run newStream sent startSlot now turns (setCancel true c).

(** ** Lemmas *)

(** The canonical message of an update. *)
Definition update_message (u : Update) : option ProtoMessage :=
  match up_BlockHead u, up_TxMeta u, up_Swap u with
  | Some h, _, _ => Some (PM_BlockHead h)
  | _, Some m, _ => Some (PM_TxMeta m)
  | _, _, Some e => Some (PM_Swap e)
  | _, _, _ => None
  end.

Definition is_slot (u : SubscribeUpdate) : bool := match u with U_Slot _ => true | _ => false end.

(** Everything the client emits with all its sends taken. *)
Definition canonical (u : SubscribeUpdate) (d : Decoder T) : list ProtoMessage :=
  omap update_message (handleSubscribeUpdate u d).1.2.

Lemma sendUpdates_all us i : sendUpdates (λ _, true) i us = us.
Proof. revert i. induction us as [|u us IH]; intros i; [done|]. simpl. by rewrite IH. Qed.

Lemma omap_swaps (es : list SwapEvent) :
  omap update_message ((λ ev, mkUpdate None None (Some ev)) <$> es) = PM_Swap <$> es.
Proof. induction es as [|e es IH]; [done|]. simpl. by f_equal. Qed.

(** The health after a loop: when it has returned the client is not healthy, and
    its last slot is the last positive one among the updates handled. *)
Lemma runLoop_health turns sb c :
  let '(c', us, es, fin) := runLoop turns sb c in
  (fin = true → Healthy (hc_health c') = false)
  ∧ ∃ handled, handled `prefix_of` sb_updates sb
    ∧ LastSlot (hc_health c')
      = default (LastSlot (hc_health c)) (last (filter (λ s, 0 < s) (slotFromUpdate <$> handled))).
Proof.
  revert sb c. induction turns as [|t rest IH]; intros sb c; cbn [runLoop].
  { split; [done|]. exists []. split; [apply prefix_nil|done]. }
  destruct (hn_pick t).
  - split; [done|]. exists []. split; [apply prefix_nil|done].
  - destruct (sb_errs sb) as [|err errs]; [apply IH|].
    specialize (IH (mkSubscription (sb_updates sb) errs (sb_closed sb) (sb_panics sb)) (setHealth unhealthyGrpc c)).
    destruct (runLoop _ _ _) as [[[c' us] es] fin]. exact IH.
  - destruct (sb_updates sb) as [|u updates] eqn:Eu.
    { destruct (sb_closed sb); [|specialize (IH sb c); by rewrite Eu in IH].
      split; [done|]. exists []. split; [apply prefix_nil|done]. }
    set (c1 := setHealth _ c). destruct (handleSubscribeUpdate u (hc_decoder c1)) as [[d us] r].
    set (c2 := mkClient _ _ d _).
    specialize (IH (mkSubscription updates (sb_errs sb) (sb_closed sb) (sb_panics sb)) c2).
    destruct (runLoop _ _ c2) as [[[c' us'] es'] fin]. destruct IH as (Hf & handled & Hp & Hl).
    split; [done|]. exists (u :: handled). split; [by apply prefix_cons|].
    rewrite Hl. rewrite fmap_cons, filter_cons. simpl.
    case_decide as Hpos; [rewrite (proj2 (Z.ltb_lt _ _) Hpos)|rewrite (proj2 (Z.ltb_ge _ _)) by lia; done].
    rewrite last_cons. by destruct (last _).
Qed.

End client.

(** What a successful transaction does to the processor. *)
Section transactions.
Context (unicode_lower : Z → Z) (registry : PairRegistry) (programKinds : gmap string string).
Context {P T : Type} `{SwapPublisher P, SlotTimeCache T, Base58,
  !RangeOrder string string, !RangeOrder Z tokenBalance}.

Lemma publish_loop_decoder ctx es (p : Processor P T) :
  decoder (M_for es (publishEvent programKinds ctx) p).1 = decoder p.
Proof.
  apply (M_for_inv (λ q, decoder q = decoder p)); [|done].
  intros e q _ Hq. rewrite publishEvent_run.
  destruct (PublishSwap_ ctx (Some e) (publisher q)) as [pub []]; done.
Qed.

Lemma handleTransaction_ok ctx tx (p p' : Processor P T) :
  handleTransaction unicode_lower registry programKinds ctx (Some tx) p = (p', Ok tt) →
  ∃ events, DecodeTransaction unicode_lower registry programKinds (decoder p) (Some tx) = Ok events
  ∧ log p' = log p ++ (match ConvertTxMeta (Some tx) with
                       | Some meta => [(PM_TxMeta meta, true)] | None => [] end)
                   ++ ((λ e, (PM_Swap e, true)) <$> events)
  ∧ decoder p' = decoder p.
Proof.
  unfold handleTransaction. rewrite M_bind_run. cbn [M_get].
  destruct (DecodeTransaction _ _ _ (decoder p) (Some tx)) as [events|err]; [|done].
  intros Hok. exists events. split; [done|]. revert Hok. rewrite M_bind_run.
  destruct (ConvertTxMeta (Some tx)) as [meta|].
  - unfold call. pose proof (calls_PublishTxMeta ctx meta (publisher p)) as Hc.
    destruct (PublishTxMeta_ ctx (Some meta) (publisher p)) as [pub [[]|err]]; simpl in Hc; [|done].
    simpl. set (p1 := mkProcessor pub _ _ _ _). intros Hl.
    pose proof (publish_loop_decoder ctx events p1) as Hd. rewrite Hl in Hd.
    apply publish_loop_ok in Hl as [Hlog _]. split; [|exact Hd].
    rewrite Hlog. unfold log at 1. simpl. rewrite Hc. by rewrite <- app_assoc.
  - simpl. intros Hl. pose proof (publish_loop_decoder ctx events p) as Hd. rewrite Hl in Hd.
    apply publish_loop_ok in Hl as [Hlog _]. by rewrite Hlog.
Qed.
End transactions.

(** ** Properties *)

(** C34. The fallback and the processor agree: on any update but a slot status, with
    the same decoder, when the processor succeeds it has published exactly the
    canonical messages that the client emits, in the same order, and both decoders
    end in the same state. *)
Theorem canonical_matches_processor low r kinds {P T} `{SwapPublisher P, SlotTimeCache T, Base58,
    !RangeOrder string string, !RangeOrder Z tokenBalance} ctx (p p' : Processor P T) u :
  is_slot u = false → HandleUpdate low r kinds ctx (Some u) p = (p', Ok tt) →
  calls (publisher p') = calls (publisher p)
    ++ ((., true) <$> canonical low r kinds u (decoder p))
  ∧ decoder p' = (handleSubscribeUpdate low r kinds u (decoder p)).1.1
  ∧ (handleSubscribeUpdate low r kinds u (decoder p)).2 = Ok tt.
Proof.
  unfold canonical. destruct u as [[tx|]|[meta|]|account|slot|b| |]; intros Hns Hok; try done;
    simpl in Hok; try (injection Hok as <-; simpl; by rewrite app_nil_r).
  - apply handleTransaction_ok in Hok as (events & He & Hlog & Hd). cbn [handleSubscribeUpdate].
    rewrite He. cbn [fst snd]. unfold log in Hlog. rewrite Hlog, omap_app, omap_swaps, fmap_app.
    rewrite <- list_fmap_compose. split_and!; [|done|done]. by destruct (ConvertTxMeta (Some tx)).
  - revert Hok. unfold handleBlockMeta. rewrite M_bind_run. simpl. rewrite M_bind_run. simpl.
    unfold call. simpl. set (head := mkBlockHead chainIDSolana _ _ _).
    pose proof (calls_PublishBlockHead ctx head (publisher p)) as Hc.
    destruct (PublishBlockHead_ ctx (Some head) (publisher p)) as [pub res]. simpl in *.
    intros Hok. injection Hok as <- ->. simpl. by rewrite Hc.
Qed.

#[local] Existing Instance raw_base58.
#[local] Instance client_order_ZZ : RangeOrder Z Z := map_to_list_order.
#[local] Instance client_order_ss : RangeOrder string string := map_to_list_order.
#[local] Instance client_order_tb : RangeOrder Z tokenBalance := map_to_list_order.

Definition example_update : SubscribeUpdate :=
  U_Transaction (Some (example_tx [example_instr example_swap_data])).
Definition example_result : Processor TestPublisher MemorySlotTimeCache * result () :=
  @HandleUpdate id initial_registry initial_programKinds _ _
    (TestPublisher_SwapPublisher (λ _, true)) _ _ _ _ Background (Some example_update)
    example_processor.
Definition example_canonical : list ProtoMessage :=
  canonical id initial_registry initial_programKinds example_update (decoder example_processor).

Lemma canonical_matches_processor_witness :
  length example_canonical = 2%nat ∧ publisher example_result.1 = (., true) <$> example_canonical.
Proof.
  split; [vm_compute; reflexivity|].
  assert (is_ok example_result.2 = true) as Hok by (vm_compute; reflexivity).
  pose proof (@canonical_matches_processor id initial_registry initial_programKinds _ _
    (TestPublisher_SwapPublisher (λ _, true)) _ _ _ _ Background example_processor
    example_result.1 example_update eq_refl) as Hm.
  fold example_result in Hm. fold example_canonical in Hm.
  destruct example_result as [p' [[]|err]]; [|discriminate]. destruct (Hm eq_refl) as [Hc _]. exact Hc.
Defined.
