(* ===== verification/Pipeline.v ===== *)
(** * From the chain to the table

    The composition of [Processor.v], [Publisher.v] and [ClickHouse.v]: the
    processor publishes through the JetStream publisher, the stream stores
    messages, and the ClickHouse service handles messages of the stream. The
    stream is the class [StreamStore]: what a publish call may do to the stored
    messages, the suppression of duplicates by Msg-Id included. *)

From S2P Require Import Prelude GoStrings Bytes Pair Meteora SlotCache IngestDecoder Proto.
From S2P Require Import Publisher Sink ClickHouse Processor.
From Stdlib Require Import Ascii.
Local Open Scope list_scope.

(** ** Invariants of a processor over the calls of its publisher *)

(** The block head of a block meta. *)
Definition head_of_meta (meta : UpdateBlockMeta) : BlockHead :=
  mkBlockHead chainIDSolana (bm_Slot meta)
    (match bm_BlockTime meta with Some ts => u64 ts | None => 0 end) "confirmed".

(** [I] is about the publisher; a pending event satisfies [Q], which publishing
    never invalidates; [New] holds of the events decoded, [Hd] of the heads and
    [T] of the transaction metas. *)
Class CallInvariant {P : Type} `{SwapPublisher P} (I : P → Prop) (Q : P → SwapEvent → Prop)
    (New : SwapEvent → Prop) (Hd : BlockHead → Prop) (T : TxMeta → Prop) := {
  ci_swap ctx e p : New e → I p → I (PublishSwap_ ctx (Some e) p).1;
  ci_accepted ctx e p : New e → I p → is_ok (PublishSwap_ ctx (Some e) p).2 = true →
    Q (PublishSwap_ ctx (Some e) p).1 e;
  ci_copy ctx e undo p : Q p e → I p → I (PublishSwap_ ctx (Some (sw_set_flags e false undo)) p).1;
  ci_head ctx h p : Hd h → I p → I (PublishBlockHead_ ctx (Some h) p).1;
  ci_head_status h status : Hd h → Hd (bh_set_status h status);
  ci_meta ctx t p : T t → I p → I (PublishTxMeta_ ctx (Some t) p).1;
  ci_mono_swap ctx e p e' : Q p e' → Q (PublishSwap_ ctx (Some e) p).1 e';
  ci_mono_head ctx h p e' : Q p e' → Q (PublishBlockHead_ ctx (Some h) p).1 e';
  ci_mono_meta ctx t p e' : Q p e' → Q (PublishTxMeta_ ctx (Some t) p).1 e';
}.

Section call_invariant.
Context (unicode_lower : Z → Z) (registry : PairRegistry) (programKinds : gmap string string).
Context {P C : Type} `{SwapPublisher P, SlotTimeCache C, Base58,
  !RangeOrder string string, !RangeOrder Z tokenBalance}.
Context {I : P → Prop} {Q : P → SwapEvent → Prop} {New : SwapEvent → Prop} {Hd : BlockHead → Prop}
  {T : TxMeta → Prop} `{!CallInvariant I Q New Hd T}.
Notation proc := (Processor P C).

Definition proc_ok (p : proc) : Prop :=
  I (publisher p)
  ∧ (∀ slot, Forall (Q (publisher p)) (pending_at p slot))
  ∧ (∀ slot h, blockHeads p !! slot = Some h → Hd h).

(** What an update brings. *)
Definition update_ok (u : option SubscribeUpdate) (d : Decoder C) : Prop :=
  match u with
  | Some (U_Transaction (Some tx)) =>
    (∀ events, DecodeTransaction unicode_lower registry programKinds d (Some tx) = Ok events →
       Forall New events)
    ∧ (∀ t, ConvertTxMeta (Some tx) = Some t → T t)
  | Some (U_BlockMeta (Some meta)) => Hd (head_of_meta meta)
  | _ => True
  end.

Lemma proc_ok_publishEvent ctx e p :
  New e → proc_ok p → proc_ok (publishEvent programKinds ctx e p).1.
Proof.
  intros He (HI & HQ & HH). rewrite publishEvent_run.
  pose proof (ci_swap ctx e _ He HI) as HI'. pose proof (ci_accepted ctx e _ He HI) as Hacc.
  pose proof (ci_mono_swap ctx e (publisher p)) as Hm.
  destruct (PublishSwap_ ctx (Some e) (publisher p)) as [pub [[]|err]]; simpl in *; (split_and!; [done| |done]);
    intros slot; unfold pending_at; simpl.
  - destruct (decide (slot = sw_Slot e)) as [->|Hne].
    + rewrite lookup_insert_eq. apply Forall_app. split; [|by repeat constructor; apply Hacc].
      eapply Forall_impl; [apply HQ|]. apply Hm.
    + rewrite lookup_insert_ne by done. eapply Forall_impl; [apply HQ|]. apply Hm.
  - eapply Forall_impl; [apply HQ|]. apply Hm.
Qed.

Lemma proc_ok_settle ctx undo msg es p :
  Forall (Q (publisher p)) es → proc_ok p →
  proc_ok (M_for es (settleEvent programKinds ctx undo msg) p).1.
Proof.
  revert p. induction es as [|e es IH]; intros p Hes Hp; [done|].
  apply Forall_cons in Hes as [He Hes]. destruct Hp as (HI & HQ & HH).
  rewrite M_for_cons, settleEvent_run. set (copy := sw_set_flags e false undo).
  pose proof (ci_copy ctx e undo _ He HI) as HI'. fold copy in HI'.
  pose proof (ci_mono_swap ctx copy (publisher p)) as Hm.
  destruct (PublishSwap_ ctx (Some copy) (publisher p)) as [pub [[]|err]]; simpl in *.
  - apply IH; simpl.
    + eapply Forall_impl; [exact Hes|]. apply Hm.
    + split_and!; [done| |done]. intros slot. eapply Forall_impl; [apply HQ|]. apply Hm.
  - split_and!; [done| |done]. intros slot. eapply Forall_impl; [apply HQ|]. apply Hm.
Qed.

Lemma proc_ok_settleSlot ctx undo msg slot p :
  proc_ok p → proc_ok (settleSlot programKinds ctx undo msg slot p).1.
Proof.
  intros Hp. unfold settleSlot. rewrite M_bind_run. cbn [M_get]. fold (pending_at p slot).
  assert (∀ p, proc_ok p → proc_ok (set_pending (delete slot) p).1) as Hdel.
  { intros p0 (HI & HQ & HH). split_and!; [done| |done]. intros s. unfold pending_at. simpl.
    destruct (decide (s = slot)) as [->|Hne]; [by rewrite lookup_delete_eq|].
    rewrite lookup_delete_ne by done. apply HQ. }
  case_decide; [by apply Hdel|]. rewrite M_bind_run.
  pose proof (proc_ok_settle ctx undo msg (pending_at p slot) p) as Hs.
  specialize (Hs (proj1 (proj2 Hp) slot) Hp).
  destruct (M_for _ _ p) as [p' [[]|err]]; [by apply Hdel|done].
Qed.

Lemma proc_ok_heads p (f : gmap Z BlockHead → gmap Z BlockHead) :
  (∀ slot h, f (blockHeads p) !! slot = Some h → Hd h) → proc_ok p → proc_ok (set_blockHeads f p).1.
Proof. intros Hf (HI & HQ & _). by split_and!. Qed.

Lemma proc_ok_PublishBlockHead ctx h (p : proc) pub :
  pub = (PublishBlockHead_ ctx (Some h) (publisher p)).1 → Hd h → proc_ok p →
  proc_ok (mkProcessor pub (decoder p) (metrics p) (pending p) (blockHeads p)).
Proof.
  intros -> Hh (HI & HQ & HH). split_and!; [by apply ci_head| |done].
  intros slot. eapply Forall_impl; [apply HQ|]. intros e'. apply ci_mono_head.
Qed.

Lemma proc_ok_headStatus ctx slot status p :
  proc_ok p → proc_ok (publishBlockHeadStatus ctx slot status p).1.
Proof.
  intros Hp. unfold publishBlockHeadStatus. rewrite M_bind_run. cbn [M_get].
  destruct (blockHeads p !! slot) as [head|] eqn:Eh; [|done]. unfold call.
  assert (Hd (bh_set_status head status)) as Hh by (apply ci_head_status; by eapply Hp).
  pose proof (proc_ok_PublishBlockHead ctx _ p _ eq_refl Hh Hp) as Hp1.
  destruct (PublishBlockHead_ ctx (Some (bh_set_status head status)) (publisher p)) as [pub [[]|err]];
    simpl in Hp1; [|done].
  rewrite M_bind_run. cbn [set_blockHeads M_modify].
  assert (∀ f, (∀ s h, f (<[slot:=bh_set_status head status]> (blockHeads p)) !! s = Some h → Hd h) →
    proc_ok (mkProcessor pub (decoder p) (metrics p) (pending p)
               (f (<[slot:=bh_set_status head status]> (blockHeads p))))) as Hset.
  { intros f Hf. exact (proc_ok_heads (mkProcessor pub (decoder p) (metrics p) (pending p) (blockHeads p))
      (λ m, f (<[slot:=bh_set_status head status]> m)) Hf Hp1). }
  assert (∀ s h, <[slot:=bh_set_status head status]> (blockHeads p) !! s = Some h → Hd h) as Hins.
  { intros s h [[_ <-]|[_ Hs]]%lookup_insert_Some; [done|]. by eapply Hp. }
  destruct (_ || _); simpl; [|by apply (Hset id)].
  apply (Hset (delete slot)). intros s h [_ Hs]%lookup_delete_Some. by eapply Hins.
Qed.

Lemma proc_ok_bind (m : M proc ()) (k : () → M proc ()) p :
  proc_ok (m p).1 → (∀ u p', proc_ok p' → proc_ok (k u p').1) → proc_ok ((m ≫= k) p).1.
Proof. intros Hm Hk. rewrite M_bind_run. destruct (m p) as [p' [u|err]]; [by apply Hk|done]. Qed.

Lemma proc_ok_HandleUpdate ctx u p :
  update_ok u (decoder p) → proc_ok p →
  proc_ok (HandleUpdate unicode_lower registry programKinds ctx u p).1.
Proof.
  intros Hu Hp. destruct u as [[tx|meta|account|[[slot status]|]|slot| |]|];
    cbn [HandleUpdate update_ok handleSlot us_Slot us_Status] in *; try done.
  - destruct tx as [tx|]; [|done]. destruct Hu as [Hev Ht]. unfold handleTransaction.
    rewrite M_bind_run. cbn [M_get].
    destruct (DecodeTransaction _ _ _ _ _) as [events|err].
    2:{ rewrite M_bind_run. cbn [set_metrics M_modify]. by destruct Hp as (HI & HQ & HH). }
    specialize (Hev events eq_refl).
    assert (∀ p', proc_ok p' → proc_ok (M_for events (publishEvent programKinds ctx) p').1) as Hloop.
    { intros p' Hp'. apply M_for_inv; [|done]. intros e p1 He. apply proc_ok_publishEvent.
      rewrite Forall_forall in Hev. by apply Hev. }
    rewrite M_bind_run. destruct (ConvertTxMeta (Some tx)) as [meta|]; [|by apply Hloop].
    unfold call. pose proof (ci_meta (CallInvariant:=_) ctx meta (publisher p) (Ht _ eq_refl) (proj1 Hp)) as HI'.
    pose proof (ci_mono_meta ctx meta (publisher p)) as Hm. destruct Hp as (HI & HQ & HH).
    destruct (PublishTxMeta_ ctx (Some meta) (publisher p)) as [pub [[]|err]]; simpl in *; [apply Hloop|];
      (split_and!; [done| |done]); intros slot; (eapply Forall_impl; [apply HQ|]); apply Hm.
  - unfold handleBlockMeta. rewrite M_bind_run. cbn [set_decoder M_modify].
    set (p1 := mkProcessor _ _ _ _ _).
    assert (proc_ok p1) as Hp1 by (by destruct Hp as (HI & HQ & HH)).
    destruct meta as [meta|]; [|done]. rewrite M_bind_run. cbn [set_blockHeads M_modify].
    set (p2 := mkProcessor _ _ _ _ _).
    assert (proc_ok p2) as Hp2.
    { apply (proc_ok_heads p1 (base.insert (bm_Slot meta) (head_of_meta meta))); [|done].
      intros s h [[_ <-]|[_ Hs]]%lookup_insert_Some; [done|]. by eapply Hp. }
    unfold call. pose proof (proc_ok_PublishBlockHead ctx (head_of_meta meta) p2 _ eq_refl Hu Hp2) as Hp3.
    fold (head_of_meta meta). revert Hp3.
    destruct (PublishBlockHead_ ctx (Some (head_of_meta meta)) (publisher p2)). intros Hp3. exact Hp3.
  - destruct status; [| |done].
    + apply proc_ok_bind; [by apply (proc_ok_settleSlot ctx false _ slot)|].
      intros. by apply proc_ok_headStatus.
    + apply proc_ok_bind; [by apply (proc_ok_settleSlot ctx true _ slot)|].
      intros. by apply proc_ok_headStatus.
Qed.

(** Every update is fine at the decoder it meets. *)
Lemma proc_ok_run p updates :
  (∀ pre ctx u post, updates = pre ++ (ctx, u) :: post →
     update_ok u (decoder (run unicode_lower registry programKinds p pre))) →
  proc_ok p → proc_ok (run unicode_lower registry programKinds p updates).
Proof.
  revert p. induction updates as [|[ctx u] us IH]; intros p Hu Hp; [done|].
  apply IH.
  - intros pre ctx' u' post ->. exact (Hu ((ctx, u) :: pre) ctx' u' post eq_refl).
  - apply proc_ok_HandleUpdate; [|done]. exact (Hu [] ctx u us eq_refl).
Qed.
End call_invariant.

(** ** The stream *)

Definition nats_id (msg : NatsMsg) : option (list string) := nm_Header msg !! "Nats-Msg-Id".

(** A message whose Msg-Id is that of a stored message. *)
Definition duplicate (msg : NatsMsg) (ms : list NatsMsg) : Prop :=
  is_Some (nats_id msg) ∧ ∃ m, m ∈ ms ∧ nats_id m = nats_id msg.

(** A publish call stores its message or nothing, in both cases with or without an
    error; without an error and a stored message there was a duplicate. *)
Class StreamStore (J : Type) `{JetStream J} := {
  stored : J → list NatsMsg;
  stored_publish msg opts j :
    stored (js_PublishMsg msg opts j).1 = stored j ++ [msg]
    ∨ stored (js_PublishMsg msg opts j).1 = stored j
      ∧ (is_ok (js_PublishMsg msg opts j).2 = true → duplicate msg (stored j));
}.

(** Within the deduplication window a duplicate is never stored. *)
Class DedupWindow (J : Type) `{StreamStore J} := {
  duplicate_dropped msg opts j :
    duplicate msg (stored j) → stored (js_PublishMsg msg opts j).1 = stored j;
}.

Lemma nats_id_natsMsg subject data m :
  nats_id (natsMsg subject data (message_id m)) = Some [message_id m].
Proof. apply natsMsg_id. Qed.

(** The effect of a publish call on the stream. *)
Section publish.
Context (unicode_lower : Z → Z) (now : Z) {J : Type} `{JetStream J, !StreamStore J, ProtoMarshal}.

Lemma publish_stored ctx subject m msgID (p : Publisher J) :
  let '(p', r) := publish now ctx subject m msgID p in
  Publisher.cfg p' = Publisher.cfg p
  ∧ ((stored (js p') = stored (js p)
      ∧ (is_ok r = true → ∃ data, proto_Marshal m = Ok data
                          ∧ duplicate (natsMsg subject data msgID) (stored (js p))))
     ∨ ∃ data, proto_Marshal m = Ok data
       ∧ stored (js p') = stored (js p) ++ [natsMsg subject data msgID]).
Proof.
  unfold publish. destruct (proto_Marshal m) as [data|err]; simpl; [|split; [done|by left]].
  set (msg := natsMsg subject data msgID). set (opts := mkPubOpts _ _).
  pose proof (stored_publish msg opts (js p)) as Hs.
  destruct (js_PublishMsg msg opts (js p)) as [j' r]. simpl in *. split; [done|].
  destruct Hs as [Hs|[Hs Hd]]; [right; by exists data|left]. split; [done|]. intros Hok.
  exists data. split; [done|]. apply Hd. destruct r; [done|discriminate].
Qed.
End publish.

(** ** What the sink can see of a message *)

Section seen.
Context (unicode_lower : Z → Z) `{ProtoUnmarshal}.

Lemma msg_swap_message (c : Publisher.Config) m data :
  proto_Marshal m = Ok data →
  match m with PM_Swap _ | PM_BlockHead _ | PM_TxMeta _ => True | _ => False end →
  let msg := natsMsg (message_subject unicode_lower c m) data (message_id m) in
  msg_swap msg = match m with PM_Swap e => Some e | _ => None end
  ∧ msg_head msg = match m with PM_BlockHead h => Some h | _ => None end.
Proof.
  intros Hm Hk msg. destruct m as [e|h|t|s|k]; try done; unfold msg; cbn [message_subject message_id].
  - split; [by apply msg_swap_published|]. unfold msg_head, swapSubject. simpl.
    by rewrite <- !app_str_assoc, HasSuffix_swap.
  - split; [apply msg_swap_head|by apply msg_head_published].
  - unfold msg_swap, msg_head. cbn [nm_Subject natsMsg].
    rewrite !(HasSuffix_last _ ".tx.meta") by done. done.
Qed.

(** A row is the row of a swap among the messages, at the zero time or at the
    time of a block head of its slot among them. *)
Definition row_time (heads : list BlockHead) (slot ts : Z) : Prop :=
  ts = zero_time ∨ ∃ h, h ∈ heads ∧ bh_Slot h = slot ∧ ts = i64 (bh_TsSec h).

Lemma head_time_from heads slot :
  row_time heads slot (default zero_time (head_time unicode_lower heads slot)).
Proof.
  unfold head_time. destruct (last _) as [h|] eqn:E; [|by left].
  case_bool_decide; [by left|]. right. exists h.
  apply last_Some_elem_of, list_elem_of_filter in E as [[Hs _] Hin]. done.
Qed.

Lemma elem_of_rows_of heads msgs row :
  row ∈ rows_of unicode_lower heads msgs →
  ∃ msg e ts, msg ∈ msgs ∧ msg_swap msg = Some e ∧ row = swapTrade ts e
    ∧ row_time (heads ++ omap msg_head msgs) (sw_Slot e) ts.
Proof.
  revert heads. induction msgs as [|m ms IH]; intros heads; simpl; [by intros ?%elem_of_nil|].
  rewrite elem_of_app. intros [Hrow|Hrow].
  - destruct (msg_swap m) as [e|] eqn:E; [|by apply elem_of_nil in Hrow].
    apply list_elem_of_singleton in Hrow as ->. eexists m, e, _.
    split_and!; [by left|done|done|]. destruct (head_time_from heads (sw_Slot e)) as [Hz|(h & Hh & Hr)].
    + by left.
    + right. exists h. split; [|done]. apply elem_of_app. by left.
  - apply IH in Hrow as (msg & e & ts & Hin & He & -> & Ht). exists msg, e, ts.
    split_and!; [by right|done|done|]. destruct Ht as [Hz|(h & Hh & Hr)]; [by left|].
    right. exists h. split; [|done]. destruct (msg_head m); simpl in *; [|set_solver].
    rewrite <- app_assoc in Hh. done.
Qed.
End seen.

(** ** Nothing is invented *)

Section origin.
Context (unicode_lower : Z → Z) (registry : PairRegistry) (programKinds : gmap string string)
  (now : Z).
Context {J C : Type} `{JetStream J, !StreamStore J, ProtoUnmarshal, SlotTimeCache C, Base58,
  !RangeOrder string string, !RangeOrder Z tokenBalance}.
#[local] Instance pub_SwapPublisher : SwapPublisher (Publisher J) :=
  Publisher_SwapPublisher unicode_lower J _ _ now.
Notation proc := (Processor (Publisher J) C).
Context (pcfg : Publisher.Config).

Section stored_invariant.
Context (New : SwapEvent → Prop) (Hd : BlockHead → Prop).
Context (Hd_status : ∀ h status, Hd h → Hd (bh_set_status h status)).

(** A stored message is one the publisher made of a decoded event or of its copy,
    of a head, or of a transaction. *)
Definition made_of (m : ProtoMessage) : Prop :=
  match m with
  | PM_Swap e => ∃ e0, New e0 ∧ (e = e0 ∨ ∃ undo, e = sw_set_flags e0 false undo)
  | PM_BlockHead h => Hd h
  | PM_TxMeta _ => True
  | _ => False
  end.
Definition sent_message (msg : NatsMsg) : Prop :=
  ∃ m data, made_of m ∧ proto_Marshal m = Ok data
  ∧ msg = natsMsg (message_subject unicode_lower pcfg m) data (message_id m).
Definition stored_ok (p : Publisher J) : Prop :=
  Publisher.cfg p = pcfg ∧ Forall sent_message (stored (js p)).

Lemma stored_ok_publish ctx m (p : Publisher J) :
  made_of m → stored_ok p →
  stored_ok (publish now ctx (message_subject unicode_lower pcfg m) m (message_id m) p).1.
Proof.
  intros Hm [Hc Hs].
  pose proof (publish_stored now ctx (message_subject unicode_lower pcfg m) m (message_id m) p) as Hp.
  destruct (publish _ _ _ _ _ _) as [p' r]. destruct Hp as [Hc' Hp]. split; simpl; [by rewrite Hc'|].
  destruct Hp as [[-> _]|(data & Hd' & ->)]; [done|]. apply Forall_app. split; [done|].
  constructor; [|done]. by exists m, data.
Qed.

#[local] Instance origin_CallInvariant :
  CallInvariant stored_ok (λ _, New) New Hd (λ _, True).
Proof.
  assert (∀ ctx m (p : Publisher J), made_of m → stored_ok p →
    stored_ok (publish now ctx (message_subject unicode_lower (Publisher.cfg p) m) m (message_id m) p).1)
    as Hpub.
  { intros ctx m p Hm Hp. rewrite (proj1 Hp). by apply stored_ok_publish. }
  split; try done.
  - intros ctx e p He Hp. apply (Hpub ctx (PM_Swap e)); [|done]. exists e. auto.
  - intros ctx e undo p He Hp. apply (Hpub ctx (PM_Swap (sw_set_flags e false undo))); [|done].
    exists e. eauto.
  - intros ctx h p Hh Hp. by apply (Hpub ctx (PM_BlockHead h)).
  - intros ctx t p _ Hp. by apply (Hpub ctx (PM_TxMeta t)).
Qed.

Lemma sent_message_seen msg :
  sent_message msg →
  (∀ e, msg_swap msg = Some e → ∃ e0, New e0 ∧ (e = e0 ∨ ∃ undo, e = sw_set_flags e0 false undo))
  ∧ (∀ h, msg_head msg = Some h → Hd h).
Proof.
  intros (m & data & Hm & Hdata & ->).
  destruct m as [e1|h1|t1|s|k]; try done;
    destruct (msg_swap_message unicode_lower pcfg _ data Hdata I) as [-> ->]; naive_solver.
Qed.

Lemma stored_ok_run j0 cache updates :
  stored j0 = [] →
  (∀ pre ctx u post, updates = pre ++ (ctx, u) :: post →
     update_ok unicode_lower registry programKinds (New:=New) (Hd:=Hd) (T:=λ _, True) u
       (decoder (run unicode_lower registry programKinds
                   (NewProcessor (mkPublisher pcfg j0 []) cache : proc) pre))) →
  stored_ok (publisher (run unicode_lower registry programKinds
    (NewProcessor (mkPublisher pcfg j0 []) cache : proc) updates)).
Proof.
  intros Hj Hu. refine (proj1 (proc_ok_run _ _ _ _ _ Hu _)). split_and!.
  - split; [done|]. simpl. by rewrite Hj.
  - intros slot. constructor.
  - intros slot h Hh. done.
Qed.
End stored_invariant.
End origin.

(** ** Within the deduplication window *)

Section dedup.
Context (unicode_lower : Z → Z) (registry : PairRegistry) (programKinds : gmap string string)
  (now : Z).
Context {J C : Type} `{JetStream J, !StreamStore J, !DedupWindow J, ProtoUnmarshal, SlotTimeCache C,
  Base58, !RangeOrder string string, !RangeOrder Z tokenBalance}.
#[local] Instance dedup_SwapPublisher : SwapPublisher (Publisher J) :=
  Publisher_SwapPublisher unicode_lower J _ _ now.
Notation proc := (Processor (Publisher J) C).

(** All swaps of the stream are provisional; the Msg-Id of a pending event is
    taken. *)
Definition provisional_only (p : Publisher J) : Prop :=
  ∀ msg e, msg ∈ stored (js p) → msg_swap msg = Some e → sw_Provisional e = true.
Definition id_taken (p : Publisher J) (e : SwapEvent) : Prop :=
  ∃ m, m ∈ stored (js p) ∧ nats_id m = Some [swapMsgID e].

Definition published_kind (m : ProtoMessage) : Prop :=
  match m with PM_Swap _ | PM_BlockHead _ | PM_TxMeta _ => True | _ => False end.

Lemma id_taken_publish ctx subject m msgID (p : Publisher J) e :
  id_taken p e → id_taken (publish now ctx subject m msgID p).1 e.
Proof.
  intros (m0 & Hin & Hid). exists m0. split; [|done].
  pose proof (publish_stored now ctx subject m msgID p) as Hp.
  destruct (publish _ _ _ _ _ _) as [p' r]. simpl. destruct Hp as (_ & [[-> _]|(data & _ & ->)]); [done|].
  apply elem_of_app. by left.
Qed.

Lemma id_taken_accepted ctx e (p : Publisher J) :
  is_ok (publish now ctx (swapSubject unicode_lower (Publisher.cfg p) e) (PM_Swap e) (swapMsgID e) p).2 = true →
  id_taken (publish now ctx (swapSubject unicode_lower (Publisher.cfg p) e) (PM_Swap e) (swapMsgID e) p).1 e.
Proof.
  pose proof (publish_stored now ctx (swapSubject unicode_lower (Publisher.cfg p) e) (PM_Swap e)
    (swapMsgID e) p) as Hs.
  destruct (publish _ _ _ _ _ _) as [p' r]. simpl. intros Hok. unfold id_taken.
  destruct Hs as (_ & [[-> Hd]|(data & _ & ->)]).
  - destruct (Hd Hok) as (data & _ & _ & m & Hin & Hid). exists m. split; [done|].
    rewrite Hid. apply (nats_id_natsMsg _ data (PM_Swap e)).
  - eexists. split; [apply elem_of_app; right; left|]. apply (nats_id_natsMsg _ data (PM_Swap e)).
Qed.

(** A message whose Msg-Id is taken is not stored; another one keeps the
    invariant if it is not a final or undo event. *)
Lemma provisional_only_publish ctx m (p : Publisher J) :
  published_kind m →
  (∀ e, m = PM_Swap e → sw_Provisional e = true ∨ id_taken p e) →
  provisional_only p →
  provisional_only (publish now ctx (message_subject unicode_lower (Publisher.cfg p) m) m (message_id m) p).1.
Proof.
  intros Hk Hm Hp. unfold publish.
  destruct (proto_Marshal m) as [data|err] eqn:Hdata; simpl; [|exact Hp].
  set (msg := natsMsg _ data _). set (opts := mkPubOpts _ _).
  pose proof (stored_publish msg opts (js p)) as Hs.
  pose proof (duplicate_dropped msg opts (js p)) as Hdup.
  destruct (js_PublishMsg msg opts (js p)) as [j' r]. simpl in *.
  assert (∀ e, msg_swap msg = Some e → m = PM_Swap e) as Hseen.
  { intros e He. unfold msg in He.
    rewrite (proj1 (msg_swap_message unicode_lower (Publisher.cfg p) m data Hdata Hk)) in He.
    destruct m; naive_solver. }
  destruct Hs as [Hs|[Hs _]]; intros msg' e Hin He; simpl in Hin; [|rewrite Hs in Hin; by eapply Hp].
  rewrite Hs in Hin. apply elem_of_app in Hin as [Hin|Hin]; [by eapply Hp|].
  apply list_elem_of_singleton in Hin as ->. apply Hseen in He as ->.
  destruct (Hm e eq_refl) as [|(m0 & Hin & Hid)]; [done|]. exfalso.
  assert (duplicate msg (stored (js p))) as Hd.
  { unfold msg, duplicate. rewrite nats_id_natsMsg. split; [by eexists|]. by exists m0. }
  apply Hdup in Hd. rewrite Hs in Hd. apply (f_equal length) in Hd.
  rewrite length_app in Hd. simpl in Hd. lia.
Qed.

#[local] Instance dedup_CallInvariant :
  CallInvariant provisional_only id_taken (λ e, sw_Provisional e = true) (λ _, True) (λ _, True).
Proof.
  split; try done.
  - intros ctx e p He Hp. apply (provisional_only_publish ctx (PM_Swap e)); [done| |done].
    intros e' [= <-]. by left.
  - intros ctx e p _ _. exact (id_taken_accepted ctx e p).
  - intros ctx e undo p He Hp.
    apply (provisional_only_publish ctx (PM_Swap (sw_set_flags e false undo))); [done| |done].
    intros e' [= <-]. right. exact He.
  - intros ctx h p _ Hp. by apply (provisional_only_publish ctx (PM_BlockHead h)).
  - intros ctx t p _ Hp. by apply (provisional_only_publish ctx (PM_TxMeta t)).
  - intros ctx e p e'. apply id_taken_publish.
  - intros ctx h p e'. apply id_taken_publish.
  - intros ctx t p e'. apply id_taken_publish.
Qed.

Lemma provisional_only_run pcfg j0 (cache : C) updates :
  stored j0 = [] →
  provisional_only (publisher (run unicode_lower registry programKinds
    (NewProcessor (mkPublisher pcfg j0 []) cache : proc) updates)).
Proof.
  intros Hj. refine (proj1 (proc_ok_run (New:=λ e, sw_Provisional e = true) (Hd:=λ _, True)
    (T:=λ _, True) _ _ _ _ _ _ _)); [|split_and!].
  - intros pre c u post _. destruct u as [[[tx|]|[meta|]|a|sl|b| |]|]; cbn [update_ok]; try done.
    split; [|done]. intros events He.
    pose proof (DecodeTransaction_spec unicode_lower registry programKinds
      (decoder (run unicode_lower registry programKinds
         (NewProcessor (mkPublisher pcfg j0 []) cache : proc) pre)) tx) as Hd.
    rewrite He in Hd. destruct Hd as [_ Hd]. eapply Forall_impl; [exact Hd|].
    intros e [(_ & _ & _ & _ & Hp & _) _]. exact Hp.
  - intros msg e Hin. simpl in Hin. rewrite Hj in Hin. by apply elem_of_nil in Hin.
  - intros slot. constructor.
  - done.
Qed.
End dedup.

(** ** Properties *)

Section properties.
Context (unicode_lower : Z → Z) (registry : PairRegistry) (programKinds : gmap string string)
  (now : Z).
Context {J C D : Type} `{JetStream J, !StreamStore J, ProtoUnmarshal, SlotTimeCache C, Base58,
  !RangeOrder string string, !RangeOrder Z tokenBalance} `{ChProto} `{!ChClient D}.
#[local] Instance chain_SwapPublisher : SwapPublisher (Publisher J) :=
  Publisher_SwapPublisher unicode_lower J _ _ now.
#[local] Existing Instance Writer_TradeWriter.
Notation proc := (Processor (Publisher J) C).
Implicit Types updates : list (context * option SubscribeUpdate).

(** The processor after the updates. *)
Definition ingest (pcfg : Publisher.Config) (j0 : J) (cache : C) updates : proc :=
  run unicode_lower registry programKinds (NewProcessor (mkPublisher pcfg j0 []) cache) updates.

(** The service after the rounds, on a new writer. *)
Definition sink (ctx : context) (chcfg : ClickHouse.Config) (client : D) (rounds : list round) :
    loop_state (ClickHouse.processor (ClickHouse.Writer D)) :=
  (ClickHouse.Run unicode_lower ctx rounds (newWriter chcfg client)).1.

(** An event that the decoder made of a transaction of the stream, in the state
    it had then; a time the stream gave for a slot. *)
Definition decoded_from pcfg j0 cache updates (e : SwapEvent) : Prop :=
  ∃ pre ctx tx post events,
    updates = pre ++ (ctx, Some (U_Transaction (Some tx))) :: post
    ∧ DecodeTransaction unicode_lower registry programKinds (decoder (ingest pcfg j0 cache pre)) (Some tx)
      = Ok events
    ∧ e ∈ events.
Definition block_time_in updates (slot ts : Z) : Prop :=
  ∃ ctx meta, (ctx, Some (U_BlockMeta (Some meta))) ∈ updates ∧ bm_Slot meta = slot
  ∧ ts = i64 (match bm_BlockTime meta with Some t => u64 t | None => 0 end).

(** What the stream stores says what the decoder and the block metas gave. *)
Notation told updates := (λ h, block_time_in updates (bh_Slot h) (i64 (bh_TsSec h))).
Lemma stored_decoded pcfg j0 cache updates :
  stored j0 = [] →
  Forall (sent_message unicode_lower pcfg (decoded_from pcfg j0 cache updates) (told updates))
    (stored (js (publisher (ingest pcfg j0 cache updates)))).
Proof.
  intros Hj.
  refine (proj2 (stored_ok_run unicode_lower registry programKinds now pcfg
    (decoded_from pcfg j0 cache updates) (told updates) (λ h status Hh, Hh) j0 cache updates Hj _)).
  intros pre c u post E. destruct u as [[[tx|]|[meta|]|a|sl|b| |]|]; simpl; try done.
  - split; [|done]. intros events He. apply Forall_forall. intros e Hin.
    exists pre, c, tx, post, events. done.
  - exists c, meta. split_and!; [|done|done]. rewrite E. apply elem_of_app. right. left.
Qed.

(** C8. The table holds nothing that was not on the chain. Run the processor on any
    stream of updates and the sink on any rounds whose messages are all messages of
    the stream store, each any number of times and in any order, whatever the
    stream, the publisher and the client refuse or drop: every row that an accepted
    insert stored or that the sink holds is the row of a swap that the decoder made
    of a transaction among the updates, in the state it had then, or of its final
    or undo copy; and the time of the row is the zero time or a block time that the
    stream gave for the slot of the swap. *)
Theorem rows_come_from_updates pcfg j0 cache updates ctx chcfg client rounds :
  stored j0 = [] → queries client = [] →
  Forall (λ msg, msg ∈ stored (js (publisher (ingest pcfg j0 cache updates))))
    (event_msg <$> ls_trace (sink ctx chcfg client rounds)) →
  ∃ log ts cs, represents (p_writer (ls_sink (sink ctx chcfg client rounds))) log ts cs
  ∧ ∀ row, row ∈ accepted_trades log ++ ts →
    ∃ e0 e t, decoded_from pcfg j0 cache updates e0
    ∧ (e = e0 ∨ ∃ undo, e = sw_set_flags e0 false undo)
    ∧ row = swapTrade t e
    ∧ (t = zero_time ∨ block_time_in updates (sw_Slot e0) t).
Proof.
  intros Hj Hq Hmsgs. destruct (Run_rows unicode_lower ctx chcfg client rounds Hq) as
    (log & ts & cs & Hr & Hrows). exists log, ts, cs. split; [exact Hr|].
  fold (sink ctx chcfg client rounds) in Hrows. rewrite Hrows. intros row Hrow.
  pose proof (stored_decoded pcfg j0 cache updates Hj) as Hst.
  assert (∀ msg, msg ∈ event_msg <$> ls_trace (sink ctx chcfg client rounds) →
    sent_message unicode_lower pcfg (decoded_from pcfg j0 cache updates) (told updates) msg) as Hsent.
  { rewrite Forall_forall in Hst, Hmsgs. auto. }
  apply elem_of_rows_of in Hrow as (msg & e & t & Hin & He & -> & Ht).
  destruct (sent_message_seen unicode_lower now pcfg _ _ _ (Hsent msg Hin)) as [Hswap _].
  destruct (Hswap e He) as (e0 & Hnew & Hcopy). exists e0, e, t. split_and!; [done..|].
  assert (sw_Slot e = sw_Slot e0) as Hslot by (by destruct Hcopy as [->|[undo ->]]).
  rewrite Hslot in Ht. destruct Ht as [Ht|(h & Hh & <- & ->)]; [by left|right].
  apply list_elem_of_omap in Hh as (msg' & Hin' & Hh). destruct (sent_message_seen unicode_lower now pcfg _ _ _ (Hsent msg' Hin')) as [_ Hhd].
  exact (Hhd h Hh).
Qed.

(** C9. Within the deduplication window no swap is ever finalised. While the
    stream drops the messages whose Msg-Id it has, whatever is on the chain, the
    final and undo versions of a swap never reach the stream, because they have
    the Msg-Id of the provisional version: every swap of the stream is
    provisional, and so is every row that a sink of it stores or holds. *)
Theorem final_never_stored `{!DedupWindow J} pcfg j0 cache updates ctx chcfg client rounds :
  stored j0 = [] → queries client = [] →
  let p := ingest pcfg j0 cache updates in
  (∀ msg e, msg ∈ stored (js (publisher p)) → msg_swap msg = Some e → sw_Provisional e = true)
  ∧ (Forall (λ msg, msg ∈ stored (js (publisher p)))
       (event_msg <$> ls_trace (sink ctx chcfg client rounds)) →
     ∃ log ts cs, represents (p_writer (ls_sink (sink ctx chcfg client rounds))) log ts cs
     ∧ Forall (λ row, tr_Provisional row = true) (accepted_trades log ++ ts)).
Proof.
  intros Hj Hq p. pose proof (provisional_only_run unicode_lower registry programKinds now pcfg j0
    cache updates Hj) as Hprov. split; [exact Hprov|]. intros Hmsgs.
  destruct (Run_rows unicode_lower ctx chcfg client rounds Hq) as (log & ts & cs & Hr & Hrows).
  exists log, ts, cs. split; [exact Hr|]. fold (sink ctx chcfg client rounds) in Hrows.
  rewrite Hrows. apply Forall_forall. intros row Hrow.
  apply elem_of_rows_of in Hrow as (msg & e & t & Hin & He & -> & _).
  rewrite Forall_forall in Hmsgs. exact (Hprov msg e (Hmsgs msg Hin) He).
Qed.
End properties.

(** ** Witnesses *)

(** A stream that stores every message whose Msg-Id it does not have, and
    acknowledges all of them. *)
Definition TestStream : Type := list NatsMsg.
Definition duplicateb (msg : NatsMsg) (ms : list NatsMsg) : bool :=
  bool_decide (is_Some (nats_id msg)) && existsb (λ m, bool_decide (nats_id m = nats_id msg)) ms.
#[local] Instance TestStream_JetStream : JetStream TestStream := {|
  js_PublishMsg msg opts j :=
    (if duplicateb msg j then j else j ++ [msg], Ok (Some (mkPubAck (po_ExpectStream opts))));
|}.
Lemma duplicateb_spec msg ms : duplicateb msg ms = true ↔ duplicate msg ms.
Proof.
  unfold duplicateb, duplicate. rewrite andb_true_iff, bool_decide_eq_true, existsb_exists.
  setoid_rewrite bool_decide_eq_true. by setoid_rewrite list_elem_of_In.
Qed.
#[local] Program Instance TestStream_StreamStore : StreamStore TestStream := {| stored := id |}.
Next Obligation.
  intros msg opts j. simpl. destruct (duplicateb msg j) eqn:E; [right|by left].
  split; [done|]. intros _. by apply duplicateb_spec.
Qed.
#[local] Program Instance TestStream_DedupWindow : DedupWindow TestStream.
Next Obligation.
  intros msg opts j Hd. apply duplicateb_spec in Hd. simpl in *. unfold id in *. by rewrite Hd.
Qed.

Section witnesses.
#[local] Existing Instance raw_base58.
#[local] Existing Instance Z_ChProto.
#[local] Instance chain_order_ZZ : RangeOrder Z Z := map_to_list_order.
#[local] Instance chain_order_ss : RangeOrder string string := map_to_list_order.
#[local] Instance chain_order_tb : RangeOrder Z tokenBalance := map_to_list_order.
#[local] Instance chain_client : ChClient (TestClient (H:=Z_ChProto)) := TestClient_ChClient (λ _, true).

(** The event of the transactions, and its final copy. *)
Definition chain_swaps : list SwapEvent :=
  match example_events with
  | Ok (e :: _) => [sw_set_flags e true false; sw_set_flags e false false; e]
  | _ => []
  end.
Definition chain_heads : list BlockHead :=
  [mkBlockHead 501 77 1700000000 "confirmed"; mkBlockHead 501 77 1700000000 "finalized"].
#[local] Instance chain_marshal : ProtoMarshal := Sample_ProtoMarshal chain_swaps chain_heads [].
#[local] Instance chain_unmarshal : ProtoUnmarshal := Sample_ProtoUnmarshal chain_swaps chain_heads [].

(** Two accounts, the transaction, its block meta and its finalization. *)
Definition chain_updates : list (context * option SubscribeUpdate) :=
  ((λ a, (Background, Some (U_Account a))) <$> example_accounts) ++
  ((λ u, (Background, Some u)) <$>
    [U_Transaction (Some (example_tx [example_instr example_swap_data]));
     U_BlockMeta (Some (mkUpdateBlockMeta 77 (Some 1700000000)));
     U_Slot (Some (mkUpdateSlot 77 SLOT_FINALIZED))]).
Definition chain_config : Publisher.Config := Publisher.mkConfig "nats://n" "DEX" "dex.sol" 1000.
Definition chain_ingest : Processor (Publisher TestStream) MemorySlotTimeCache :=
  ingest (J:=TestStream) id initial_registry initial_programKinds 0 chain_config [] NewMemorySlotTimeCache chain_updates.
Definition chain_rounds : list round :=
  [mkRound Poll_Default (Ok (js (publisher chain_ingest)));
   mkRound (Poll_Done (Sentinel "context.Canceled")) (Ok [])].
Definition chain_sink :
    loop_state (ClickHouse.processor (ClickHouse.Writer (TestClient (H:=Z_ChProto)))) :=
  sink (D:=TestClient) id Background ClickHouse.example_config [] chain_rounds.

Lemma chain_handled :
  event_msg <$> ls_trace (sink (D:=TestClient) id Background ClickHouse.example_config [] chain_rounds)
  = stored (js (publisher (ingest (J:=TestStream) id initial_registry initial_programKinds 0 chain_config []
      NewMemorySlotTimeCache chain_updates))).
Proof. vm_compute. reflexivity. Qed.

Lemma rows_come_from_updates_witness :
  length (js (publisher chain_ingest)) = 3%nat
  ∧ ∃ log ts cs, represents (p_writer (ls_sink chain_sink)) log ts cs.
Proof.
  split; [vm_compute; reflexivity|].
  destruct (rows_come_from_updates (J:=TestStream) (D:=TestClient) id initial_registry initial_programKinds 0 chain_config
    [] NewMemorySlotTimeCache chain_updates Background ClickHouse.example_config [] chain_rounds)
    as (log & ts & cs & Hr & _).
  - reflexivity.
  - reflexivity.
  - apply Forall_forall. intros msg Hin. rewrite <- chain_handled. exact Hin.
  - exists log, ts, cs. exact Hr.
Defined.

(** The publisher was told that the final event was accepted. *)
Lemma final_never_stored_witness :
  existsb (λ m, match m with PM_Swap e => negb (sw_Provisional e) | _ => false end)
    (accepted (history (publisher chain_ingest))) = true
  ∧ ∀ msg e, msg ∈ stored (js (publisher chain_ingest)) → msg_swap msg = Some e → sw_Provisional e = true.
Proof.
  split; [vm_compute; reflexivity|].
  destruct (final_never_stored (J:=TestStream) (D:=TestClient) id initial_registry initial_programKinds 0 chain_config
    [] NewMemorySlotTimeCache chain_updates Background ClickHouse.example_config [] chain_rounds) as [Hs _].
  - reflexivity.
  - reflexivity.
  - exact Hs.
Defined.
End witnesses.
