(* ===== verification/WellTyped.v ===== *)
(** * Machine widths of the messages

    The messages of [Proto.v] keep their integers in [Z]. The lemmas of this file
    show that what the decoders put in a message is within the widths of its Go and
    protobuf types ([update_typed]: the condition of the invariants of [Pipeline.v]
    for one update), because every conversion of the decoders ([uint64(delta)],
    [uint32(dec)], ...) is written out. They carry the widths that the theorems of
    [Dedup.v] and [EndToEnd.v] need of the events. *)

From S2P Require Import Prelude GoStrings Bytes Proto Pair Raydium SlotCache Meteora IngestDecoder.
From S2P Require Import Publisher Processor Pipeline.
From Stdlib Require Import Ascii.
Local Open Scope list_scope.

(** ** The types *)

Definition wt_swap (e : Proto.SwapEvent) : Prop :=
  is_u64 (sw_ChainId e) ∧ is_u64 (sw_Slot e) ∧ is_u32 (sw_Index e)
  ∧ is_u32 (sw_DecBase e) ∧ is_u32 (sw_DecQuote e)
  ∧ is_u64 (sw_BaseIn e) ∧ is_u64 (sw_BaseOut e) ∧ is_u64 (sw_QuoteIn e) ∧ is_u64 (sw_QuoteOut e)
  ∧ is_u64 (sw_SqrtPriceQ64Pre e) ∧ is_u64 (sw_SqrtPriceQ64Post e)
  ∧ is_u64 (sw_ReservesBase e) ∧ is_u64 (sw_ReservesQuote e) ∧ is_u32 (sw_FeeBps e).
Definition wt_head (h : BlockHead) : Prop :=
  is_u64 (bh_ChainId h) ∧ is_u64 (bh_Slot h) ∧ is_u64 (bh_TsSec h).
Definition wt_meta (t : TxMeta) : Prop :=
  is_u64 (tm_ChainId t) ∧ is_u64 (tm_Slot t) ∧ is_u64 (tm_CuUsed t) ∧ is_u64 (tm_CuPrice t).
(** The fields of an update that go into a message as they are. *)
Definition wt_update (u : option SubscribeUpdate) : Prop :=
  match u with
  | Some (U_Transaction (Some tx)) =>
    is_u64 (ut_Slot tx)
    ∧ match ut_Transaction tx ≫= ti_Meta with
      | Some meta => is_u64 (meta_ComputeUnitsConsumed meta)
      | None => True
      end
  | Some (U_BlockMeta (Some meta)) => is_u64 (bm_Slot meta)
  | _ => True
  end.

(** ** The decoders *)

Lemma is_u64_0 : is_u64 0.
Proof. by unfold is_u64. Qed.
#[local] Hint Resolve is_u64_0 u64_range u32_range : core.

Lemma wt_event_base slot sig index program pool mb mq db dq fee :
  is_u64 slot → is_u32 db → is_u32 dq → is_u32 fee →
  wt_swap (event_base slot sig index program pool mb mq db dq fee).
Proof. intros. unfold wt_swap, event_base. simpl. split_and!; auto. by unfold is_u64, chainIDSolana. Qed.
Lemma wt_set_amounts e bi bo qi qo :
  wt_swap e → is_u64 bi → is_u64 bo → is_u64 qi → is_u64 qo → wt_swap (sw_set_amounts e bi bo qi qo).
Proof. unfold wt_swap. simpl. naive_solver. Qed.
Lemma wt_set_prices e pre post :
  wt_swap e → is_u64 pre → is_u64 post → wt_swap (sw_set_prices e pre post).
Proof. unfold wt_swap. simpl. naive_solver. Qed.
Lemma wt_set_reserves e b q : wt_swap e → is_u64 b → is_u64 q → wt_swap (sw_set_reserves e b q).
Proof. unfold wt_swap. simpl. naive_solver. Qed.
Lemma wt_set_flags e p u : wt_swap e → wt_swap (sw_set_flags e p u).
Proof. unfold wt_swap. simpl. naive_solver. Qed.
#[local] Hint Resolve wt_event_base wt_set_amounts wt_set_prices wt_set_reserves : core.

Lemma ParseSwapEvent_typed instr ctx ev :
  ParseSwapEvent (Some instr) (Some ctx) = Ok ev → is_u64 (ev_AmountIn ev) ∧ is_u64 (ev_AmountOut ev).
Proof.
  intros Hev%ParseSwapEvent_Ok. destruct Hev as (_ & _ & _ & _ & _ & _ & _ & Hdir).
  pose proof (i64_range (sc_PostTokenA ctx - sc_PreTokenA ctx)).
  pose proof (i64_range (sc_PostTokenB ctx - sc_PreTokenB ctx)).
  unfold deltaA, deltaB in Hdir. destruct (ev_IsBaseInput ev); destruct Hdir as (-> & -> & ? & ?);
    unfold is_u64, is_i64 in *; lia.
Qed.

Lemma buildRaydiumSwap_typed {C} (d : Decoder C) sig slot ts index instr accts vaults e :
  is_u64 slot → buildRaydiumSwap d sig slot ts index instr accts vaults = Ok (Some e) → wt_swap e.
Proof.
  intros Hslot. unfold buildRaydiumSwap. destruct (zlen (ci_Data instr) =? 0); [done|].
  destruct (resolvePool instr accts vaults) as [[pool va] vb].
  case_bool_decide; [by destruct va, vb|]. destruct va as [va|]; [|done]. destruct vb as [vb|]; [|done].
  rewrite bind_Ok. intros (si & Hsi%wrap_err_Ok & Hr). apply bind_Ok in Hr as (ev & Hev%wrap_err_Ok & Hr).
  pose proof (ParseSwapEvent_typed _ _ _ Hev) as [Hi Ho].
  apply ParseSwapEvent_Ok in Hev as (_ & _ & _ & _ & _ & Hlo & Hhi & _).
  apply ParseSwapInstruction_Ok in Hsi as (_ & _ & _ & _ & Hl & Hh).
  injection Hr as <-. unfold convertRaydiumSwap. rewrite Hlo, Hhi. destruct (ev_IsBaseInput ev); auto 10.
Qed.

Lemma buildOrcaSwap_typed {C} (d : Decoder C) sig slot ts index instr accts vaults e :
  is_u64 slot → buildOrcaSwap d sig slot ts index instr accts vaults = Ok (Some e) → wt_swap e.
Proof.
  intros Hslot. unfold buildOrcaSwap. destruct (ci_Accounts instr !! 2%nat); [|done].
  destruct (accts !! _); [|done]. destruct (d_orcaPools d !! _) as [info|]; [|done].
  case_decide; [done|]. destruct (orca_vaults _ _) as [[va|] [vb|]]; try done.
  destruct (_ && _); [done|]. destruct (_ && _); intros [= <-]; [auto 10|].
  apply wt_set_amounts; auto; by case_match.
Qed.

(** The reserves that the log lines set are values that parsed as [uint64]. *)
Definition wt_reserves (e : Meteora.SwapEvent) : Prop :=
  is_u64 (me_VirtualReservesBase e) ∧ is_u64 (me_VirtualReservesQuote e)
  ∧ is_u64 (me_RealReservesBase e) ∧ is_u64 (me_RealReservesQuote e).

Lemma extractReserves_typed low tokens marker b q :
  extractReserves low tokens marker = Some (b, q) → is_u64 b ∧ is_u64 q.
Proof.
  assert (∀ found b0 q0 r, is_u64 b0 → is_u64 q0 →
    extractReserves_loop low tokens marker found b0 q0 = Some r → is_u64 r.1.2 ∧ is_u64 r.2) as Hloop.
  { induction tokens as [|tok tokens IH]; intros found b0 q0 r Hb Hq; simpl; [by intros [= <-]|].
    destruct (_ || _); [by apply IH|].
    assert (∀ v0 p, is_u64 v0 → match (if HasPrefix tok p then
      match ParseUint (TrimPrefix tok p) with Ok v => Some v | Err _ => None end else Some v0) with
      | Some v => is_u64 v | None => True end) as Hv.
    { intros v0 p Hv0. destruct (HasPrefix tok p); [|done].
      destruct (ParseUint _) as [v|] eqn:E; [|done]. by apply ParseUint_range in E. }
    pose proof (Hv b0 "base=" Hb) as Hb'. pose proof (Hv q0 "quote=" Hq) as Hq'.
    destruct (if HasPrefix tok "base=" then _ else _) as [b1|]; [|done].
    destruct (if HasPrefix tok "quote=" then _ else _) as [q1|]; [|done]. by apply IH. }
  unfold extractReserves. destruct (extractReserves_loop _ _ _ _ _ _) as [[[f b1] q1]|] eqn:E; [|done].
  destruct (_ || _); [done|]. intros [= <- <-]. apply Hloop in E; auto.
Qed.

Lemma applyLogLine_typed low kind e line : wt_reserves e → wt_reserves (applyLogLine low kind e line).
Proof.
  intros He. unfold applyLogLine. destruct (tokenize line) as [|t ts]; [done|].
  set (e1 := match extractUint (t :: ts) "fee_bps" with Some _ => _ | None => _ end).
  assert (wt_reserves e1) as (H1 & H2 & H3 & H4) by (unfold e1; by destruct (extractUint _ _)).
  case_bool_decide; [|case_bool_decide]; try done;
    (destruct (extractReserves _ _ _) as [[b q]|] eqn:E; [|done]);
    apply extractReserves_typed in E as [? ?]; by unfold wt_reserves.
Qed.
Lemma applyLogMetadata_typed low e ctx : wt_reserves e → wt_reserves (applyLogMetadata low e ctx).
Proof.
  unfold applyLogMetadata. generalize (ic_Logs ctx) as logs. intros logs. revert e.
  induction logs as [|l logs IH]; intros e He; [done|]. by apply IH, applyLogLine_typed.
Qed.

Lemma DecodeSwapEvent_reserves low r data ctx e :
  DecodeSwapEvent low r data (Some ctx) = Ok e → wt_reserves e.
Proof.
  unfold DecodeSwapEvent. destruct (_ <? 8); [done|]. destruct (_ =? 0); [done|].
  rewrite bind_Ok. intros (pool & _ & He). apply bind_Ok in He as (bi & _ & He).
  apply bind_Ok in He as (bo & _ & He). destruct (_ && _); [done|].
  apply bind_Ok in He as (cp & _ & He). destruct (orient _ _ _ _ _ _) as [[ba qa] dec].
  destruct (_ || _); [done|]. injection He as <-. apply applyLogMetadata_typed. by split_and!.
Qed.

Lemma DecodeSwapEvent_amounts low r data ctx e :
  DecodeSwapEvent low r data (Some ctx) = Ok e →
  is_u32 (me_DecBase e) ∧ is_u32 (me_DecQuote e) ∧ is_u32 (me_FeeBps e)
  ∧ is_u64 (me_BaseAmount e) ∧ is_u64 (me_QuoteAmount e).
Proof.
  intros He. apply DecodeSwapEvent_Ok in He as (bi & bo & cp & Hbi & Hbo & _ & Hs & Hb & Hq).
  destruct (balanceForAccount_range _ _ _ Hbi) as (Hi1 & Hi2 & _).
  destruct (balanceForAccount_range _ _ _ Hbo) as (Ho1 & Ho2 & _).
  destruct Hs as (_&_&_&_&_&_&_&_&_&Hf&Hdb&Hdq&_&Hamt). unfold is_u64 in *.
  split_and!; try done; try lia; destruct (Inverted cp); injection Hamt as E1 E2; lia.
Qed.

Section typed.
Context (low : Z → Z) (r : PairRegistry) (kinds : gmap string string).

Lemma buildMeteoraSwap_typed sig slot ts index instr accts meta program kind e :
  is_u64 slot →
  buildMeteoraSwap low r sig slot ts index instr accts meta program kind = Ok (Some e) → wt_swap e.
Proof.
  intros Hslot. unfold buildMeteoraSwap. rewrite bind_Ok. intros (ev & Hev & Ho).
  destruct (DecodeSwapEvent_amounts _ _ _ _ _ Hev) as (Hdb & Hdq & Hf & Hb & Hq).
  destruct (DecodeSwapEvent_reserves _ _ _ _ _ Hev) as (Hvb & Hvq & Hrb & Hrq).
  set (res := if (me_VirtualReservesBase ev =? 0) && _ then _ else _) in Ho.
  assert (is_u64 res.1 ∧ is_u64 res.2) as [H1 H2] by (unfold res; by destruct (_ && _)).
  destruct res as [rb rq]. simpl in H1, H2.
  injection Ho as <-. destruct (me_BaseDecreased ev), (negb (rb =? 0) || negb (rq =? 0)); auto 10.
Qed.

Context {C : Type} `{SlotTimeCache C, Base58, !RangeOrder Z tokenBalance}.

Lemma decodeInstructions_typed (d : Decoder C) sig slot ts index meta accts vaults instrs events :
  is_u64 slot → Forall wt_swap events →
  ∀ out, decodeInstructions low r kinds d sig slot ts index meta accts vaults instrs events = Ok out →
  Forall wt_swap out.
Proof.
  intros Hslot. revert events. induction instrs as [|i instrs IH]; intros events Hev out; simpl.
  { by intros [= <-]. }
  rewrite bind_Ok. intros (new & Hnew & Hout). apply (IH new); [|done]. clear Hout IH.
  unfold decodeInstruction in Hnew. destruct (accts !! _) as [program|]; [|by injection Hnew as <-].
  assert (∀ p o, (∀ e, o = Ok (Some e) → wt_swap e) → append_event p o events = Ok new →
    Forall wt_swap new) as Happ.
  { intros p [[e|]|err] He; simpl; [|by intros [= <-]|done]. intros [= <-].
    apply Forall_app. split; [done|]. constructor; [by apply He|done]. }
  case_bool_decide; [|case_bool_decide; [|destruct (ProgramKindForID _ _) as [kind|];
    [|by injection Hnew as <-]]]; (eapply Happ; [|exact Hnew]); intros e He.
  - by apply buildRaydiumSwap_typed in He.
  - by apply buildOrcaSwap_typed in He.
  - by apply buildMeteoraSwap_typed in He.
Qed.

Lemma DecodeTransaction_typed (d : Decoder C) tx events :
  is_u64 (ut_Slot tx) → DecodeTransaction low r kinds d (Some tx) = Ok events → Forall wt_swap events.
Proof.
  intros Hslot. unfold DecodeTransaction.
  destruct (ut_Transaction tx) as [info|]; [|by intros [= <-]].
  destruct (ti_Meta info) as [meta|]; [|by intros [= <-]].
  destruct (ti_Transaction info) as [txMsg|]; [|by intros [= <-]].
  destruct (tx_Message txMsg) as [message|]; [|by intros [= <-]].
  intros He. eapply decodeInstructions_typed; [exact Hslot|constructor|exact He].
Qed.
End typed.

(** ** Updates *)

Section updates.
Context (low : Z → Z) (r : PairRegistry) (kinds : gmap string string).
Context {P C : Type} `{SwapPublisher P, SlotTimeCache C, Base58,
  !RangeOrder string string, !RangeOrder Z tokenBalance}.

Lemma update_typed u (d : Decoder C) :
  wt_update u → update_ok low r kinds (New:=wt_swap) (Hd:=wt_head) (T:=wt_meta) u d.
Proof.
  destruct u as [[[tx|]|[meta|]|a|s|b| |]|]; simpl; try done.
  - intros [Hslot Hcu]. split; [intros events; by apply DecodeTransaction_typed|].
    unfold ConvertTxMeta. intros t. destruct (ut_Transaction tx) as [info|]; [|done].
    simpl in Hcu. destruct (ti_Meta info) as [meta|]; [|done]. intros [= <-].
    unfold wt_meta. simpl. split_and!; try done; by unfold is_u64.
  - intros Hslot. unfold wt_head, head_of_meta. simpl. split_and!; [by unfold is_u64|done|].
    destruct (bm_BlockTime meta); auto.
Qed.
End updates.

(** The updates that [Pipeline.v] runs are of these widths. *)
Lemma chain_updates_typed :
  Forall (λ u : context * option SubscribeUpdate, wt_update u.2) chain_updates.
Proof.
  unfold chain_updates. apply Forall_app. split.
  - apply Forall_fmap, Forall_forall. intros a _. exact I.
  - repeat constructor; simpl; unfold is_u64; lia.
Qed.
