(* ===== verification/Dedup.v ===== *)
(** * One row per transaction

    The composition of [Pipeline.v] with the deduplication window of the stream and
    the widths of [WellTyped.v]. The streams replay slots when they reconnect, so
    the processor may meet a transaction any number of times; here it is shown what
    is left of that in the table. The index of an event is that of its transaction,
    and the Msg-Id is made of the slot, the signature and the index: what is kept is
    the first swap of a transaction that is published, in its first version. *)

From S2P Require Import Prelude GoStrings Bytes Pair Meteora SlotCache IngestDecoder Proto.
From S2P Require Import Publisher Sink ClickHouse Processor Pipeline WellTyped.
From Stdlib Require Import Ascii.
Local Open Scope list_scope.

(** What identifies a row and an event: the transaction, so the swaps of one
    transaction are not told apart. *)
Definition row_key (row : Trade) : Z * string * Z :=
  (tr_Slot row, tr_Signature row, tr_Index row).
Definition swap_key (e : SwapEvent) : Z * string * Z := (sw_Slot e, sw_Sig e, sw_Index e).

Lemma row_key_swapTrade ts e : row_key (swapTrade ts e) = swap_key e.
Proof. reflexivity. Qed.

(** A message of the processor, its signature without the separator of the ids. *)
Definition id_ok (e : SwapEvent) : Prop := wt_swap e ∧ free_of colon (sw_Sig e).
Definition identified (m : ProtoMessage) : Prop :=
  match m with
  | PM_Swap e => id_ok e
  | PM_BlockHead h => wt_head h
  | PM_TxMeta t => wt_meta t ∧ free_of colon (tm_Sig t)
  | _ => False
  end.

(** The Msg-Id tells the swaps apart, and from the other messages. *)
Lemma swapMsgID_key e m :
  identified (PM_Swap e) → identified m → message_id m = swapMsgID e →
  ∃ e', m = PM_Swap e' ∧ swap_key e' = swap_key e.
Proof.
  intros [(_ & Hs & Hi & _) Hf] Hm E. unfold is_u64, is_u32 in *.
  destruct m as [e'|h|t|s|k]; [| | |done..]; cbn [message_id identified] in *.
  - destruct Hm as [(_ & Hs' & Hi' & _) Hf']. unfold is_u64, is_u32 in *. exists e'. split; [done|].
    apply swapMsgID_inj in E as (E1 & E2 & E3); [|done..|lia|lia|lia|lia].
    unfold swap_key. by rewrite E1, E2, E3.
  - destruct Hm as (_ & Hh & _). unfold is_u64 in *. symmetry in E.
    apply swapMsgID_head in E; [done|lia|lia].
  - destruct Hm as [(_ & Ht & _) Hft]. unfold is_u64 in *. symmetry in E.
    apply swapMsgID_meta in E; [done|done|lia|lia].
Qed.

Lemma swapMsgID_of_key e e' : swap_key e = swap_key e' → swapMsgID e = swapMsgID e'.
Proof. intros [= E1 E2 E3]. unfold swapMsgID. by rewrite E1, E2, E3. Qed.

(** A call that was accepted, and is the first with its key. *)
Definition first_call (calls : list (ProtoMessage * bool)) (e : SwapEvent) : Prop :=
  ∃ pre post, calls = pre ++ (PM_Swap e, true) :: post
  ∧ ∀ e' ok, (PM_Swap e', ok) ∈ pre → swap_key e' ≠ swap_key e.

Lemma first_call_snoc calls m ok e :
  first_call (calls ++ [(m, ok)]) e →
  first_call calls e
  ∨ m = PM_Swap e ∧ ok = true ∧ ∀ e' ok', (PM_Swap e', ok') ∈ calls → swap_key e' ≠ swap_key e.
Proof.
  intros (pre & post & E & Hpre). destruct post as [|c post _] using rev_ind.
  - apply app_inj_tail in E as [-> [= -> ->]]. by right.
  - rewrite app_comm_cons, app_assoc in E. apply app_inj_tail in E as [-> _]. left. by exists pre, post.
Qed.

(** The first of all swap calls. *)
Fixpoint first_swap (calls : list (ProtoMessage * bool)) : option SwapEvent :=
  match calls with
  | [] => None
  | (PM_Swap e, ok) :: _ => if ok then Some e else None
  | _ :: calls => first_swap calls
  end.
Lemma first_swap_call calls e : first_swap calls = Some e → first_call calls e.
Proof.
  induction calls as [|[m ok] calls IH]; [done|].
  assert (first_swap calls = Some e → (∀ e', m ≠ PM_Swap e') → first_call ((m, ok) :: calls) e) as Hc.
  { intros (pre & post & -> & Hpre)%IH Hm. exists ((m, ok) :: pre), post. split; [done|].
    intros e' ok' [[= E _]|Hin]%elem_of_cons; [by destruct (Hm e')|by eapply Hpre]. }
  destruct m as [e0| | | |]; cbn [first_swap]; [|intros He; by apply Hc..].
  destruct ok; [|done]. intros [= ->]. exists [], calls. split; [done|]. by intros e' ok' ?%elem_of_nil.
Qed.

(** ** The invariant *)

Section one_each.
Context (unicode_lower : Z → Z) (registry : PairRegistry) (programKinds : gmap string string)
  (now : Z).
Context {J C : Type} `{JetStream J, !StreamStore J, !DedupWindow J, ProtoUnmarshal, SlotTimeCache C,
  Base58, !RangeOrder string string, !RangeOrder Z tokenBalance}.
#[local] Instance once_SwapPublisher : SwapPublisher (Publisher J) :=
  Publisher_SwapPublisher unicode_lower J _ _ now.
Notation proc := (Processor (Publisher J) C).
Context (pcfg : Publisher.Config).

(** A stored message is that of a call. *)
Definition of_call (p : Publisher J) (msg : NatsMsg) : Prop :=
  ∃ m data ok, (m, ok) ∈ history p ∧ identified m ∧ proto_Marshal m = Ok data
  ∧ msg = natsMsg (message_subject unicode_lower pcfg m) data (message_id m).

(** The message of a call is stored as it is. *)
Definition stored_call (p : Publisher J) (m : ProtoMessage) : Prop :=
  ∃ data, proto_Marshal m = Ok data
  ∧ natsMsg (message_subject unicode_lower pcfg m) data (message_id m) ∈ stored (js p).

Record one_each (p : Publisher J) : Prop := {
  one_cfg : Publisher.cfg p = pcfg;
  one_call : Forall (of_call p) (stored (js p));
  one_ids : NoDup (nats_id <$> stored (js p));
  one_accepted e : (PM_Swap e, true) ∈ history p → id_ok e ∧ id_taken p e;
  one_first e : first_call (history p) e → stored_call p (PM_Swap e);
}.

Lemma of_call_id p msg : of_call p msg → ∃ m, identified m ∧ nats_id msg = Some [message_id m].
Proof. intros (m & data & ok & _ & Hm & _ & ->). exists m. split; [done|]. apply nats_id_natsMsg. Qed.

(** No stored message has the Msg-Id of a swap whose key no call had. *)
Lemma id_free p e :
  Forall (of_call p) (stored (js p)) → identified (PM_Swap e) →
  (∀ e' ok, (PM_Swap e', ok) ∈ history p → swap_key e' ≠ swap_key e) →
  ∀ msg, msg ∈ stored (js p) → nats_id msg ≠ Some [message_id (PM_Swap e)].
Proof.
  intros Ho He Hnew msg Hin. rewrite Forall_forall in Ho.
  destruct (Ho msg Hin) as (m & data & ok & Hh & Hm & _ & ->). rewrite nats_id_natsMsg.
  intros [= E]. destruct (swapMsgID_key e m He Hm E) as (e' & -> & Hk). by apply (Hnew e' ok).
Qed.

(** What the stream stores had no duplicate in it. *)
Lemma publish_fresh ctx subject m msgID (p : Publisher J) msg :
  stored (js (publish now ctx subject m msgID p).1) = stored (js p) ++ [msg] →
  msg = natsMsg subject (nm_Data msg) msgID ∧ ¬ duplicate msg (stored (js p)).
Proof.
  assert (∀ l : list NatsMsg, l ≠ l ++ [msg]) as Hl.
  { intros l E%(f_equal length). rewrite length_app in E. simpl in E. lia. }
  unfold publish. destruct (proto_Marshal m) as [data|err]; simpl; [|by intros ?%Hl].
  pose proof (stored_publish (natsMsg subject data msgID)) as Hs.
  set (opts := mkPubOpts _ _) in *. specialize (Hs opts (js p)).
  pose proof (duplicate_dropped (natsMsg subject data msgID) opts (js p)) as Hd.
  destruct (js_PublishMsg _ opts (js p)) as [j' r]. simpl in *. intros E. rewrite E in Hs, Hd.
  destruct Hs as [Hs|[Hs _]]; [|by destruct (Hl _ (eq_sym Hs))].
  apply app_inj_tail in Hs as [_ ->]. split; [done|]. intros Hdup%Hd. by destruct (Hl _ (eq_sym Hdup)).
Qed.

Lemma one_each_publish ctx m (p : Publisher J) :
  identified m → one_each p →
  one_each (publish now ctx (message_subject unicode_lower (Publisher.cfg p) m) m (message_id m) p).1.
Proof.
  intros Hm [Hc Ho Hi Ha Hfirst]. rewrite Hc.
  pose proof (publish_stored now ctx (message_subject unicode_lower pcfg m) m (message_id m) p) as Hs.
  pose proof (history_publish now ctx (message_subject unicode_lower pcfg m) m (message_id m) p) as Hh.
  pose proof (λ e, id_taken_publish now ctx (message_subject unicode_lower pcfg m) m (message_id m) p e) as Ht.
  assert (∀ e, m = PM_Swap e →
    is_ok (publish now ctx (message_subject unicode_lower pcfg m) m (message_id m) p).2 = true →
    id_taken (publish now ctx (message_subject unicode_lower pcfg m) m (message_id m) p).1 e) as Hacc.
  { intros e ->. rewrite <- Hc. apply (id_taken_accepted unicode_lower). }
  pose proof (publish_fresh ctx (message_subject unicode_lower pcfg m) m (message_id m) p) as Hf.
  destruct (publish _ _ _ _ _ _) as [p' r]. simpl in *. destruct Hs as [Hc' Hs].
  assert (∀ msg, of_call p msg → of_call p' msg) as Hmono.
  { intros msg (m0 & data & ok & Hin & Hmsg). exists m0, data, ok. split; [|done].
    rewrite Hh. apply elem_of_app. by left. }
  split; [by rewrite Hc'| | | |].
  - destruct Hs as [[-> _]|(data & Hd & ->)]; [by eapply Forall_impl|].
    apply Forall_app. split; [by eapply Forall_impl|]. constructor; [|done].
    exists m, data, (is_ok r). split_and!; [|done..]. rewrite Hh. apply elem_of_app. right. left.
  - destruct Hs as [[-> _]|(data & Hd & E)]; [done|]. destruct (Hf _ E) as [_ Hdup].
    rewrite E, fmap_app. apply NoDup_app. split; [done|]. split; [|apply NoDup_singleton].
    intros x Hx ->%list_elem_of_singleton. apply Hdup. rewrite nats_id_natsMsg in Hx.
    apply list_elem_of_fmap in Hx as (msg & Hid & Hin). unfold duplicate. rewrite nats_id_natsMsg.
    split; [by eexists|]. exists msg. by rewrite <- Hid.
  - intros e. rewrite Hh. intros [Hin|Hin]%elem_of_app.
    + destruct (Ha e Hin). auto.
    + apply list_elem_of_singleton in Hin as [= <- Hok]. auto.
  - intros e. rewrite Hh. intros [Hin|(-> & Hok & Hnew)]%first_call_snoc.
    + destruct (Hfirst e Hin) as (data & Hd & Hst). exists data. split; [done|].
      destruct Hs as [[-> _]|(data' & _ & ->)]; [done|]. apply elem_of_app. by left.
    + destruct Hs as [[_ Hdup]|(data & Hd & E)].
      * destruct (Hdup Hok) as (data & _ & _ & msg & Hin & Hid). exfalso.
        by apply (id_free p e Ho Hm Hnew msg Hin); rewrite Hid, nats_id_natsMsg.
      * exists data. split; [done|]. rewrite E. apply elem_of_app. right. left.
Qed.

#[local] Instance one_each_CallInvariant :
  CallInvariant one_each (λ _, id_ok) id_ok wt_head (λ t, wt_meta t ∧ free_of colon (tm_Sig t)).
Proof.
  split; try done.
  - intros ctx e p He Hp. by apply (one_each_publish ctx (PM_Swap e)).
  - intros ctx e undo p [Hw Hf] Hp.
    apply (one_each_publish ctx (PM_Swap (sw_set_flags e false undo))); [|done].
    split; [by apply wt_set_flags|done].
  - intros ctx h p Hh Hp. by apply (one_each_publish ctx (PM_BlockHead h)).
  - intros ctx t p Ht Hp. by apply (one_each_publish ctx (PM_TxMeta t)).
Qed.

Lemma update_identified u (d : Decoder C) :
  (∀ bs, free_of colon (base58_Encode bs)) → wt_update u →
  update_ok unicode_lower registry programKinds (New:=id_ok) (Hd:=wt_head)
    (T:=λ t, wt_meta t ∧ free_of colon (tm_Sig t)) u d.
Proof.
  intros H58 Hu. pose proof (update_typed unicode_lower registry programKinds u d Hu) as Ht.
  destruct u as [[[tx|]|[meta|]|a|s|b| |]|]; try done. destruct Ht as [Hev Hm]. split.
  - intros events He. specialize (Hev events He).
    pose proof (DecodeTransaction_spec unicode_lower registry programKinds d tx) as Hd.
    rewrite He in Hd. destruct Hd as [_ Hd]. rewrite Forall_forall in Hev, Hd |- *.
    intros e Hin. split; [by apply Hev|]. destruct (Hd e Hin) as [(_ & _ & Hsig & _) _].
    rewrite Hsig. unfold tx_sig. destruct (ut_Transaction tx ≫= ti_Transaction) as [t|];
      [|unfold free_of; apply not_elem_of_nil].
    unfold encodeSignature. destruct (tx_Signatures t); [apply not_elem_of_nil|apply H58].
  - intros t Et. split; [by apply Hm|]. unfold ConvertTxMeta in Et.
    destruct (ut_Transaction tx) as [info|]; [|done]. destruct (ti_Meta info); [|done].
    injection Et as <-. apply H58.
Qed.

Lemma one_each_run j0 (cache : C) updates :
  (∀ bs, free_of colon (base58_Encode bs)) → stored j0 = [] →
  Forall (λ u : context * option SubscribeUpdate, wt_update u.2) updates →
  one_each (publisher (run unicode_lower registry programKinds
    (NewProcessor (mkPublisher pcfg j0 []) cache : proc) updates)).
Proof.
  intros H58 Hj Hu. refine (proj1 (proc_ok_run _ _ _ _ _ _ _)).
  - intros pre ctx u post ->. apply update_identified; [done|].
    apply Forall_app in Hu as [_ Hu]. by apply Forall_inv in Hu.
  - split_and!; [|intros slot; constructor|done]. split; simpl; rewrite ?Hj; [done|constructor..| |].
    + by intros e ?%elem_of_nil.
    + intros e (pre & post & E & _). by destruct pre.
Qed.
End one_each.

(** ** The keys of the rows *)

Section keys.
Context (unicode_lower : Z → Z) `{ProtoUnmarshal}.

Lemma rows_of_keys heads msgs :
  row_key <$> rows_of unicode_lower heads msgs = swap_key <$> omap msg_swap msgs.
Proof.
  revert heads. induction msgs as [|msg msgs IH]; intros heads; [done|]. simpl.
  rewrite fmap_app, IH. by destruct (msg_swap msg).
Qed.

(** Every swap of the messages has a row. *)
Lemma rows_of_swap heads msgs msg e :
  msg ∈ msgs → msg_swap msg = Some e → ∃ ts, swapTrade ts e ∈ rows_of unicode_lower heads msgs.
Proof.
  intros Hin He. revert heads. induction msgs as [|msg' msgs IH]; intros heads; [by apply elem_of_nil in Hin|].
  simpl. apply elem_of_cons in Hin as [<-|Hin].
  - rewrite He. eexists. apply elem_of_app. left. by left.
  - edestruct (IH Hin) as [ts Hts]. exists ts. apply elem_of_app. right. exact Hts.
Qed.

(** Two elements of a list whose keys are distinct are the same if their keys are. *)
Lemma NoDup_fmap_same {A B} (f : A → B) (l : list A) x y :
  NoDup (f <$> l) → x ∈ l → y ∈ l → f x = f y → x = y.
Proof.
  intros Hnd [i Hi]%list_elem_of_lookup_1 [j Hj]%list_elem_of_lookup_1 E.
  assert (i = j) as <-; [|congruence].
  eapply (NoDup_lookup (f <$> l)); [done|..]; rewrite list_lookup_fmap; [by rewrite Hi|by rewrite Hj, E].
Qed.

(** Messages with different ids are swaps with different keys. *)
Lemma keys_NoDup msgs :
  Forall (λ msg, ∀ e, msg_swap msg = Some e → nats_id msg = Some [swapMsgID e]) msgs →
  NoDup (nats_id <$> msgs) → NoDup (swap_key <$> omap msg_swap msgs).
Proof.
  induction 1 as [|msg msgs Hid Hids IH]; simpl; [by intros _; constructor|].
  intros [Hn Hnd]%NoDup_cons. specialize (IH Hnd). destruct (msg_swap msg) as [e|]; [|done].
  simpl. constructor; [|done]. intros (e' & Hk & Hin)%list_elem_of_fmap.
  apply list_elem_of_omap in Hin as (msg' & Hin & He'). apply Hn. rewrite (Hid e eq_refl).
  rewrite Forall_forall in Hids. apply list_elem_of_fmap. exists msg'. split; [|done].
  by rewrite (Hids msg' Hin e' He'), (swapMsgID_of_key e e' Hk).
Qed.
End keys.

(** ** Properties *)

Section properties.
Context (unicode_lower : Z → Z) (registry : PairRegistry) (programKinds : gmap string string)
  (now : Z).
Context {J C D : Type} `{JetStream J, !StreamStore J, !DedupWindow J, ProtoUnmarshal, SlotTimeCache C,
  Base58, !RangeOrder string string, !RangeOrder Z tokenBalance} `{ChProto} `{!ChClient D}.

(** However often the streams replay it, a transaction has one row: run the processor
    on any updates whose slots and units are what their types allow, repeated ones
    included, against a stream that drops messages whose Msg-Id it has, and hand
    every message of the stream once, in any order, to the ClickHouse sink. The row is
    that of the first call with its key, if that call was accepted. *)
Lemma one_row_each pcfg j0 (cache : C) updates ctx chcfg (client : D) rounds :
  (∀ bs, free_of colon (base58_Encode bs)) →
  Forall (λ u : context * option SubscribeUpdate, wt_update u.2) updates →
  stored j0 = [] → queries client = [] →
  let p := publisher (ingest unicode_lower registry programKinds now pcfg j0 cache updates) in
  let s := sink unicode_lower ctx chcfg client rounds in
  event_msg <$> ls_trace s ≡ₚ stored (js p) →
  let rows := rows_of unicode_lower [] (event_msg <$> ls_trace s) in
  (∃ log ts cs, represents (p_writer (ls_sink s)) log ts cs ∧ accepted_trades log ++ ts = rows)
  ∧ NoDup (row_key <$> rows)
  ∧ (∀ e, (PM_Swap e, true) ∈ history p → swap_key e ∈ row_key <$> rows)
  ∧ (∀ e, first_call (history p) e →
     ∃ ts, swapTrade ts e ∈ rows ∧ ∀ row, row ∈ rows → row_key row = swap_key e → row = swapTrade ts e).
Proof.
  intros H58 Hu Hj Hq p s Hs.
  destruct (one_each_run unicode_lower registry programKinds now pcfg j0 cache updates H58 Hj Hu)
    as [Hc Hcall Hids Hacc Hfirst]. fold (ingest unicode_lower registry programKinds now pcfg j0 cache updates) in *.
  fold p in Hc, Hcall, Hids, Hacc, Hfirst.
  assert (∀ msg, msg ∈ stored (js p) → ∃ m ok, (m, ok) ∈ history p ∧ identified m
    ∧ nats_id msg = Some [message_id m]
    ∧ msg_swap msg = match m with PM_Swap e => Some e | _ => None end) as Hmsg.
  { intros msg Hin. rewrite Forall_forall in Hcall. destruct (Hcall msg Hin) as (m & data & ok & Hh & Hm & Hd & ->).
    exists m, ok. split_and!; [done|done|apply nats_id_natsMsg|].
    by apply (msg_swap_message unicode_lower pcfg m data Hd); destruct m. }
  destruct (Run_rows unicode_lower ctx chcfg client rounds Hq) as (log & ts & cs & Hr & Hrows).
  fold (sink unicode_lower ctx chcfg client rounds) in Hrows. intros rows. fold rows in Hrows.
  assert (row_key <$> rows ≡ₚ swap_key <$> omap msg_swap (stored (js p))) as Hk.
  { unfold rows. rewrite rows_of_keys. by apply fmap_Permutation, omap_Permutation. }
  split; [by exists log, ts, cs|].
  assert (NoDup (row_key <$> rows)) as Hnd.
  { rewrite Hk. apply keys_NoDup; [|done]. apply Forall_forall. intros msg Hin e He.
    destruct (Hmsg msg Hin) as (m & ok & _ & _ & Hid & Hsw). rewrite He in Hsw.
    destruct m; try done. injection Hsw as <-. exact Hid. }
  split_and!; [done| |].
  - intros e He. rewrite Hk. destruct (Hacc e He) as [Hok (msg & Hin & Hid)].
    destruct (Hmsg msg Hin) as (m & ok & _ & Hm & Hid' & Hsw). rewrite Hid in Hid'.
    injection Hid' as Hid'. destruct (swapMsgID_key e m Hok Hm (eq_sym Hid')) as (e' & -> & Hke).
    rewrite <- Hke. apply list_elem_of_fmap. exists e'. split; [done|].
    apply list_elem_of_omap. by exists msg.
  - intros e He. destruct (Hfirst e He) as (data & Hd & Hin).
    destruct (rows_of_swap unicode_lower [] (event_msg <$> ls_trace s) _ e
      (proj2 (elem_of_Permutation_proper _ _ _ Hs) Hin)) as [t Ht].
    { by apply (msg_swap_message unicode_lower pcfg (PM_Swap e) data Hd). }
    exists t. split; [done|]. intros row Hrow Hkey.
    by apply (NoDup_fmap_same row_key rows).
Qed.
End properties.

(** ** A replayed run *)

(** An injective encoding without colons. *)
Definition escape (c : ascii) : list byte :=
  if bool_decide (c = bchr 33) then [bchr 33; bchr 97]
  else if bool_decide (c = colon) then [bchr 33; bchr 98] else [c].
Lemma escape_no_colon c : colon ∉ escape c.
Proof.
  unfold escape. repeat case_bool_decide; [apply (bool_decide_unpack _); vm_compute; exact I..|].
  rewrite list_elem_of_singleton. congruence.
Qed.
Lemma escape_inj l k : concat (escape <$> l) = concat (escape <$> k) → l = k.
Proof.
  revert k. induction l as [|c l IH]; intros [|d k]; unfold escape in *; cbn [fmap list_fmap concat] in *;
    repeat case_bool_decide; simpl; try done; intros E; injection E; intros; subst; try done;
    f_equal; auto.
Qed.
Program Definition escaped_base58 : Base58 := {|
  base58_Encode l := of_bytes (concat (escape <$> l));
|}.
Next Obligation. intros l k E%(f_equal bytes). rewrite !bytes_of_bytes in E. by apply escape_inj. Qed.

Lemma escaped_no_colon bs : free_of colon (@base58_Encode escaped_base58 bs).
Proof.
  unfold free_of. simpl. rewrite bytes_of_bytes. intros (l & Hc & Hl)%elem_of_concat.
  apply list_elem_of_fmap in Hl as (c & -> & _). by apply escape_no_colon in Hc.
Qed.

Section witness.
#[local] Existing Instances escaped_base58 Z_ChProto chain_order_ZZ chain_order_ss chain_order_tb
  chain_client chain_marshal chain_unmarshal.
#[local] Existing Instances TestStream_JetStream TestStream_StreamStore TestStream_DedupWindow.

(** The updates of [Pipeline.v], replayed. *)
Definition replayed_updates : list (context * option SubscribeUpdate) := chain_updates ++ chain_updates.
Definition replayed_ingest : Processor (Publisher TestStream) MemorySlotTimeCache :=
  ingest (J:=TestStream) id initial_registry initial_programKinds 0 chain_config [] NewMemorySlotTimeCache
    replayed_updates.
Definition replayed_rounds : list round :=
  [mkRound Poll_Default (Ok (js (publisher replayed_ingest)));
   mkRound (Poll_Done (Sentinel "context.Canceled")) (Ok [])].

Lemma replayed_handled :
  event_msg <$> ls_trace (sink (D:=TestClient) id Background ClickHouse.example_config [] replayed_rounds)
  = stored (js (publisher (ingest (J:=TestStream) id initial_registry initial_programKinds 0 chain_config []
      NewMemorySlotTimeCache replayed_updates))).
Proof. vm_compute. reflexivity. Qed.

(** Two provisional versions and two final ones were accepted; one row is left. *)
Lemma replayed_one_row :
  length (omap (λ c : ProtoMessage * bool, match c with (PM_Swap e, true) => Some e | _ => None end)
    (history (publisher replayed_ingest))) = 4%nat
  ∧ NoDup (row_key <$> rows_of id [] (event_msg <$> ls_trace (sink (D:=TestClient) id Background
      ClickHouse.example_config [] replayed_rounds))).
Proof.
  split; [vm_compute; reflexivity|].
  destruct (one_row_each (J:=TestStream) (D:=TestClient) id initial_registry initial_programKinds 0
    chain_config [] NewMemorySlotTimeCache replayed_updates Background ClickHouse.example_config []
    replayed_rounds) as (_ & Hnd & _).
  - exact escaped_no_colon.
  - unfold replayed_updates. apply Forall_app. split; apply chain_updates_typed.
  - reflexivity.
  - reflexivity.
  - exact (reflexive_eq _ _ replayed_handled).
  - exact Hnd.
Qed.
End witness.
