(* ===== verification/EndToEnd.v ===== *)
(** * From the network to the table

    The two processes of the pipeline put together: [main] of the ingestor, whose
    clients feed the processor from the network, and [main] of the ClickHouse sink,
    which stores what the stream has. [Dedup.v] and [Pipeline.v] speak of a processor
    and a list of updates; here the updates are those that the loops of [Failover.v]
    took from the subscriptions, over any transport, with any failures, any turns of
    the clients and any choices. *)

From S2P Require Import Prelude GoStrings Bytes Pair Meteora SlotCache IngestDecoder Proto.
From S2P Require Import Publisher Sink ClickHouse Processor.
From S2P Require Import Candles GeyserConfig HeliusConfig Streams Failover Services Commands Processes.
From S2P Require Import Pipeline WellTyped Dedup.
Local Open Scope list_scope.

#[local] Existing Instance Writer_TradeWriter.

(** ** What the clients deliver *)

(** An update that a stream of the transport gives in one of its turns. *)
Definition delivers {G} `{Grpc G} (g : G) (u : SubscribeUpdate) : Prop :=
  ∃ a tn, a ∈ (grpc_Streams g).2 ∧ tn ∈ at_turns a ∧ tn_recv tn = R_Update u.
Definition delivered {G} `{Grpc G} (u : SubscribeUpdate) : Prop := ∃ g : G, delivers g u.

Lemma forwarded_turns extract errors turns last u :
  u ∈ forwarded (processStream extract errors turns last).1.1 → ∃ tn, tn ∈ turns ∧ tn_recv tn = R_Update u.
Proof.
  revert last. induction turns as [|tn rest IH]; intros last; simpl; [by intros ?%elem_of_nil|].
  destruct (tn_done tn); [by intros ?%elem_of_nil|].
  destruct (tn_recv tn) as [u'| |e] eqn:Hr; [|by intros ?%elem_of_nil..].
  destruct (extract u') as [slot|]; [|by intros ?%elem_of_nil].
  destruct (tn_doneSend tn); [by intros ?%elem_of_nil|]. specialize (IH (if last <? slot then slot else last)).
  destruct (processStream _ _ _ _) as [[tr last'] st]. simpl in *.
  intros [->|Hin]%elem_of_cons; [by exists tn; split; [left|]|].
  destruct (IH Hin) as (tn' & ? & ?). exists tn'. split; [by right|done].
Qed.

Lemma forwarded_loop window cancellable extract errors attempts current u :
  u ∈ forwarded (stream_loop window cancellable extract errors attempts current).1.1 →
  ∃ a tn, a ∈ attempts ∧ tn ∈ at_turns a ∧ tn_recv tn = R_Update u.
Proof.
  revert current. induction attempts as [|a rest IH]; intros current; simpl; [by intros ?%elem_of_nil|].
  assert (∀ (done : bool) c, u ∈ forwarded (wait_then cancellable done
            (stream_loop window cancellable extract errors rest c) c).1.1 →
          ∃ a' tn, a' ∈ a :: rest ∧ tn ∈ at_turns a' ∧ tn_recv tn = R_Update u) as Hw.
  { intros done c. unfold wait_then. destruct (done && cancellable); [by intros ?%elem_of_nil|].
    intros (a' & tn & ? & ?)%IH. exists a', tn. split; [by right|done]. }
  assert (∀ tr r, forwarded (prepend tr r).1.1 = forwarded tr ++ forwarded r.1.1) as Hp.
  { intros tr [[tr' c] st]. apply forwarded_app. }
  destruct (at_done a); [by intros ?%elem_of_nil|].
  destruct (at_subscribe a); [rewrite Hp; intros [Hin|Hin]%elem_of_app; [by apply elem_of_nil in Hin|eauto]|].
  destruct (at_send a); [rewrite Hp; intros [Hin|Hin]%elem_of_app; [by apply elem_of_nil in Hin|eauto]|].
  pose proof (forwarded_turns extract errors (at_turns a) 0 u) as Ht.
  destruct (processStream _ _ _ _) as [[tr last] st]. simpl in Ht.
  assert (u ∈ forwarded tr → ∃ a' tn, a' ∈ a :: rest ∧ tn ∈ at_turns a' ∧ tn_recv tn = R_Update u) as Ha.
  { intros (tn & ? & ?)%Ht. exists a, tn. split; [by left|done]. }
  destruct st; [exact Ha| |exact Ha]. rewrite Hp. intros [Hin|Hin]%elem_of_app; [exact (Ha Hin)|eauto].
Qed.

(** A goroutine panics at an update that it received and whose slot it cannot read. *)
Lemma processStream_panics extract errors turns last :
  (processStream extract errors turns last).2 = Panicked →
  ∃ tn u, tn ∈ turns ∧ tn_recv tn = R_Update u ∧ extract u = None.
Proof.
  revert last. induction turns as [|tn rest IH]; intros last; simpl; [done|].
  destruct (tn_done tn); [done|]. destruct (tn_recv tn) as [u| |e] eqn:Hr; [|done..].
  destruct (extract u) as [slot|] eqn:Hu; [|intros _; exists tn, u; by split; [left|]].
  destruct (tn_doneSend tn); [done|]. specialize (IH (if last <? slot then slot else last)).
  destruct (processStream _ _ _ _) as [[tr last'] st]. simpl in *.
  intros (tn' & u' & ? & ?)%IH. exists tn', u'. split; [by right|done].
Qed.

Lemma stream_loop_panics window cancellable extract errors attempts current :
  (stream_loop window cancellable extract errors attempts current).2 = Panicked →
  ∃ a tn u, a ∈ attempts ∧ tn ∈ at_turns a ∧ tn_recv tn = R_Update u ∧ extract u = None.
Proof.
  revert current. induction attempts as [|a rest IH]; intros current; simpl; [done|].
  assert (∀ (done : bool) c tr, (prepend tr (wait_then cancellable done
            (stream_loop window cancellable extract errors rest c) c)).2 = Panicked →
          ∃ a' tn u, a' ∈ a :: rest ∧ tn ∈ at_turns a' ∧ tn_recv tn = R_Update u ∧ extract u = None) as Hw.
  { intros done c tr. unfold wait_then. destruct (done && cancellable); [done|].
    pose proof (IH c) as Hc. destruct (stream_loop _ _ _ _ rest c) as [[tr' c'] st].
    intros (a' & tn & u & ? & ?)%Hc. exists a', tn, u. split; [by right|done]. }
  destruct (at_done a); [done|]. destruct (at_subscribe a); [apply Hw|].
  destruct (at_send a); [apply Hw|].
  pose proof (processStream_panics extract errors (at_turns a) 0) as Ht.
  destruct (processStream _ _ _ _) as [[tr last] st]. simpl in Ht.
  destruct st; simpl; [done|apply Hw|]. intros _. destruct Ht as (tn & u & ? & ?); [done|].
  exists a, tn, u. split; [by left|done].
Qed.

(** A client whose subscriptions give only what the transport delivers, and panic only
    at such an update: one whose message is nil, read by the Geyser client. *)
Class DeliversOnly (D : SubscribeUpdate → Prop) (C : Type) `{ClientInterface C} := {
  delivers_only start (c : C) u : u ∈ sb_updates (Subscribe_ start c).2 → D u;
  panics_only start (c : C) :
    sb_panics (Subscribe_ start c).2 = true → ∃ u, D u ∧ extractSlotFromUpdate u = None;
}.

Section clients.
Context {G : Type} `{Grpc G}.
#[local] Existing Instances GeyserClient_ClientInterface_ HeliusClient_ClientInterface_
  sum_ClientInterface_.

Lemma subscribe_with_delivers {Cfg} window cancellable extract errors start (c : StreamClient Cfg G) u :
  u ∈ sb_updates (subscribe_with (stream_loop window cancellable extract errors) start c).2 →
  delivered (G:=G) u.
Proof.
  unfold subscribe_with. destruct (grpc_Streams (cl_net c)) as [net attempts] eqn:Hn. simpl.
  destruct (cl_cancelled c); [by intros ?%elem_of_nil|].
  pose proof (forwarded_loop window cancellable extract errors attempts start u) as Hf.
  destruct (stream_loop _ _ _ _ _ _) as [[tr slot] st]. simpl. intros (a & tn & Ha & Htn)%Hf.
  exists (cl_net c), a, tn. by rewrite Hn.
Qed.

Lemma subscribe_with_panics {Cfg} window cancellable extract errors start (c : StreamClient Cfg G) :
  sb_panics (subscribe_with (stream_loop window cancellable extract errors) start c).2 = true →
  ∃ u, delivered (G:=G) u ∧ extract u = None.
Proof.
  unfold subscribe_with. destruct (grpc_Streams (cl_net c)) as [net attempts] eqn:Hn. simpl.
  destruct (cl_cancelled c); [done|].
  pose proof (stream_loop_panics window cancellable extract errors attempts start) as Hp.
  destruct (stream_loop _ _ _ _ _ _) as [[tr slot] st]. simpl in *. destruct st; try done.
  intros _. destruct Hp as (a & tn & u & Ha & Htn & Hr & Hu); [done|].
  exists u. split; [|done]. exists (cl_net c), a, tn. by rewrite Hn.
Qed.

#[local] Instance geyser_DeliversOnly : DeliversOnly (delivered (G:=G)) (GeyserClient (N:=G)).
Proof. split; intros start c; [intros u; apply subscribe_with_delivers|apply subscribe_with_panics]. Qed.
#[local] Instance helius_DeliversOnly : DeliversOnly (delivered (G:=G)) (HeliusClient (N:=G)).
Proof.
  split; intros start c; [intros u; apply subscribe_with_delivers|].
  intros (u & _ & Hu)%subscribe_with_panics. discriminate Hu.
Qed.
#[local] Instance sum_DeliversOnly D {A B} `{DeliversOnly D A, DeliversOnly D B} : DeliversOnly D (A + B).
Proof.
  split; intros start [a|b]; simpl; [intros u Hu|intros u Hu|intros Hu..];
    [apply (delivers_only start a)|apply (delivers_only start b)
    |apply (panics_only start a)|apply (panics_only start b)]; by destruct (Subscribe_ start _).
Qed.
End clients.

(** ** What the loops hand to the processor *)

Section loops.
Context {P : Type} (handle : context → option SubscribeUpdate → M P ()) (ctx : context).

Lemma serviceLoop_run ctxErr picks sb m (p : P) :
  let '(p', us, _, _) := serviceLoop handle ctx ctxErr picks sb m p in
  p' = replay handle ctx p us ∧ us `prefix_of` sb_updates sb.
Proof.
  revert sb p. induction picks as [|pk rest IH]; intros sb p; simpl; [split; [done|apply prefix_nil]|].
  destruct pk; [split; [done|apply prefix_nil]| |].
  - destruct (sb_errs sb); [apply IH|split; [done|apply prefix_nil]].
  - destruct (sb_updates sb) as [|u us] eqn:E.
    { destruct (sb_closed sb); [split; [done|apply prefix_nil]|].
      specialize (IH sb p). by rewrite E in IH. }
    destruct (handle ctx (Some u) p) as [p1 [[]|e]] eqn:Eh; cycle 1.
    { simpl. rewrite Eh. split; [done|]. by exists us. }
    specialize (IH (mkSubscription us (sb_errs sb) (sb_closed sb) (sb_panics sb)) p1). simpl in IH.
    destruct (serviceLoop _ _ _ _ _ _ _) as [[[p' us'] m'] r]. destruct IH as [-> Hp].
    simpl. rewrite Eh. split; [done|by apply prefix_cons].
Qed.

Context {D : SubscribeUpdate → Prop} {C : Type} `{DeliversOnly D C}.

Lemma prefix_delivers start (c : C) us : us `prefix_of` sb_updates (Subscribe_ start c).2 → Forall D us.
Proof.
  intros [k Hk]. apply Forall_forall. intros u Hu. apply (delivers_only start c). rewrite Hk.
  apply elem_of_app. by left.
Qed.

Lemma serviceRun_delivers client start ctxErr picks m (p : P) :
  let '(_, p', us, _, _) := serviceRun handle ctx client start ctxErr picks m p in
  p' = replay handle ctx p us ∧ Forall D us.
Proof.
  unfold serviceRun. destruct (Connect_ client) as [c1 [[]|e]]; [|by split].
  pose proof (prefix_delivers start c1) as Hd. destruct (Subscribe_ start c1) as [c2 sb].
  pose proof (serviceLoop_run ctxErr picks sb (serveMetrics m) p) as Hl.
  destruct (serviceLoop _ _ _ _ _ _ _) as [[[p' us] m'] r]. destruct Hl as [-> Hp]. split; [done|by apply Hd].
Qed.

Lemma runClient_delivers client start picks (p : P) :
  let '(_, p', us, _) := runClient handle ctx client start picks p in
  p' = replay handle ctx p us ∧ Forall D us.
Proof.
  unfold runClient. destruct (Connect_ client) as [c1 [[]|e]]; [|by split].
  pose proof (prefix_delivers start c1) as Hd. destruct (Subscribe_ start c1) as [c2 sb].
  pose proof (clientLoop_run handle ctx picks sb p) as Hl.
  destruct (clientLoop _ _ _ _ _) as [[p' us] r]. destruct Hl as [-> Hp]. split; [done|by apply Hd].
Qed.

(** A goroutine that panics was given an update that the client delivers. *)
Definition nil_delivered : Prop := ∃ u, D u ∧ extractSlotFromUpdate u = None.
Lemma goroutine_panics_delivers (client : C) start : goroutine_panics client start = true → nil_delivered.
Proof.
  unfold goroutine_panics. destruct (Connect_ client) as [c1 [[]|e]]; [apply panics_only|done].
Qed.

Lemma Run_panics_delivers ctxErr start turns current (s : FailoverService P C) :
  (existsb rt_panics (fo_turns s) = true → nil_delivered) →
  existsb rt_panics (fo_turns (Failover.Run handle ctx ctxErr start turns current s).1) = true → nil_delivered.
Proof.
  revert current s. induction turns as [|picks rest IH]; intros current s Hs; [done|]. cbn [Failover.Run].
  destruct (fo_clients s !! current) as [client|]; [|done].
  destruct (runClient _ _ _ _ _ _) as [[[client' p] us] r].
  assert (∀ t, rt_panics t = goroutine_panics client start →
    existsb rt_panics (fo_turns s ++ [t]) = true → nil_delivered) as Ht.
  { intros t E. rewrite existsb_app. simpl. rewrite E, orb_false_r.
    intros [?|?%goroutine_panics_delivers]%orb_prop; [by apply Hs|done]. }
  destruct r as [err|]; [|by apply Ht]. destruct (errors_Is err _); [by apply Ht|].
  apply IH. by apply Ht.
Qed.

(** Every turn of the failover loop goes on from the processor of the turn before. *)
Lemma Run_delivers ctxErr start turns current (s : FailoverService P C) :
  ∃ us, fo_processor (Failover.Run handle ctx ctxErr start turns current s).1
        = replay handle ctx (fo_processor s) us ∧ Forall D us.
Proof.
  revert current s. induction turns as [|picks rest IH]; intros current s; simpl; [by exists []|].
  destruct (fo_clients s !! current) as [client|]; [|by exists []].
  pose proof (runClient_delivers client start picks (fo_processor s)) as Hr.
  destruct (runClient _ _ _ _ _ _) as [[[client' p] us] r]. destruct Hr as [Hp Hus].
  destruct r as [err|]; [|by exists us]. destruct (errors_Is err _); [by exists us|].
  destruct (IH (if decide (length (<[current:=client']> (fo_clients s)) = 1)%nat then current
                else ((current + 1) mod length (<[current:=client']> (fo_clients s)))%nat)
              (mkFailover (<[current:=client']> (fo_clients s)) p
                 (recordFailure (Name_ client) (setActive (Name_ client) (fo_metrics s)))
                 (fo_turns s ++ [mkRunTurn current (Name_ client) us (Some err) (goroutine_panics client start)]))) as (us' & E & Hus').
  exists (us ++ us'). split; [|by apply Forall_app]. rewrite E. simpl. rewrite Hp. unfold replay.
  by rewrite foldl_app.
Qed.
End loops.

(** ** The ingestor process *)

Section ingestor.
Context {N J G : Type} `{Nats N J, Grpc G, !RangeOrder string string}.
Context (handle : context → option SubscribeUpdate → M (Processor (Publisher J) MemorySlotTimeCache) ())
  (ctx : context).
#[local] Existing Instances both_ClientInterface geyser_DeliversOnly helius_DeliversOnly sum_DeliversOnly.

Lemma ingestor_run_delivers ctxErr picks turns died (i : ingestor J G) :
  let '(i', p) := ingestor_run handle ctx ctxErr picks turns died i in
  (p = Panic ↔ died = true ∧ ingestor_panics handle ctx ctxErr turns i = true)
  ∧ ∃ us, ingestor_processor i' = replay handle ctx (ingestor_processor i) us ∧ Forall (delivered (G:=G)) us.
Proof.
  assert (∀ r, (if died && ingestor_panics handle ctx ctxErr turns i then Panic
                else afterRun "service run failed: %v" r) = Panic
    ↔ died = true ∧ ingestor_panics handle ctx ctxErr turns i = true) as Hr.
  { intros r. rewrite <- andb_true_iff. destruct (died && _); [done|]. split; [|done].
    destruct r as [[e|]|]; simpl; [by case_decide|done..]. }
  destruct i as [svc|svc]; simpl in *.
  - pose proof (serviceRun_delivers (D:=delivered (G:=G)) (C:=GeyserClient (N:=G)) handle ctx
      (H:=GeyserClient_ClientInterface G _) (gs_client svc) 0 ctxErr picks
      (gs_metricsServer svc) (gs_processor svc)) as Hs.
    destruct (serviceRun _ _ _ _ _ _ _ _) as [[[[client p] us] server] r]. split; [apply Hr|]. by exists us.
  - unfold failoverRun in *.
    pose proof (Run_delivers (D:=delivered (G:=G)) handle ctx (Some ctxErr) 0 turns 0 (fs_service svc)) as Hs.
    destruct (Failover.Run _ _ _ _ _ _ _) as [fs r]. split; [apply Hr|]. exact Hs.
Qed.

(** The turns of a service that has just been set up are none. *)
Lemma ingestor_panics_delivers ctxErr turns (i : ingestor J G) :
  match i with I_Failover svc => fo_turns (fs_service svc) = [] | _ => True end →
  ingestor_panics handle ctx ctxErr turns i = true → nil_delivered (D:=delivered (G:=G)).
Proof.
  destruct i as [svc|svc]; simpl.
  - intros _. apply (goroutine_panics_delivers (C:=GeyserClient (N:=G))
      (H:=GeyserClient_ClientInterface G _)).
  - intros Hn. unfold failoverRun.
    pose proof (Run_panics_delivers (D:=delivered (G:=G)) handle ctx (Some ctxErr) 0 turns 0 (fs_service svc)) as Hs.
    destruct (Failover.Run _ _ _ _ _ _ _) as [fs r]. apply Hs. by rewrite Hn.
Qed.
End ingestor.

(** ** Properties *)

(** C15. The ingestor process, for every environment, files, networks, failures and
    choices of its loops. When its setup ends it, no NATS connection is left open.
    Otherwise the setup left one more connection, an empty processor that publishes
    over it with the configuration of the environment, and clients whose requests ask
    for the accounts of the programs of the YAML file, which are some and of the
    length of an address; the fallback is there exactly when it is enabled, and only
    it asks for transactions. From there the processor is the one that handles, in
    order, updates which the network delivered, and nothing else. The process panics
    exactly when the goroutine of one of its subscriptions panics and that moment has
    come ([died]), and then the network delivered an update whose message is nil. *)
Theorem ingestor_process {N J G} `{Nats N J, Grpc G, !RangeOrder string string}
    ReadFile Unmarshal env handle ctx ctxErr picks turns died (geyserNet heliusNet : G) (n : N) :
  let '(n', i, p) :=
    ingestor_main (J:=J) ReadFile Unmarshal env handle ctx ctxErr picks turns died geyserNet heliusNet n in
  match i with
  | None => (∃ msg err, p = Fatal msg err) ∧ open_conns n' = open_conns n
  | Some i =>
    ∃ (i0 : ingestor J G) us, setup_ok ReadFile Unmarshal env n n' (inr i0)
    ∧ ingestor_processor i = replay handle ctx (ingestor_processor i0) us
    ∧ Forall (delivered (G:=G)) us
    ∧ (p = Panic ↔ died = true ∧ ingestor_panics handle ctx ctxErr turns i0 = true)
    ∧ (p = Panic → ∃ u, delivered (G:=G) u ∧ extractSlotFromUpdate u = None)
  end.
Proof.
  unfold ingestor_main.
  pose proof (ingestor_setup_ok (J:=J) ReadFile Unmarshal env geyserNet heliusNet n) as Hs.
  destruct (ingestor_setup _ _ _ _ _ n) as [n' [p|i0]].
  - destruct p; [|done..]. split; [by do 2 eexists|exact Hs].
  - pose proof (ingestor_run_delivers handle ctx ctxErr picks turns died i0) as Hr.
    pose proof (ingestor_panics_delivers handle ctx ctxErr turns i0) as Hn.
    destruct (ingestor_run _ _ _ _ _ _ _) as [i p]. destruct Hr as [Hp (us & Hus & Hd)].
    exists i0, us. split_and!; [exact Hs|done|done|done|]. intros [_ Hi]%Hp. apply Hn; [|done].
    destruct i0; [done|]. by destruct Hs as (_ & _ & filters & g & h & _ & _ & Hturns & _).
Qed.

(** What the ClickHouse sink process runs, once it runs. *)
Lemma clickhouse_main_sink {N J} `{Nats N J, ChProto} {C D} `{!ChDial D C, !ChClient C, ProtoUnmarshal}
    low url_Parse env ctx rounds (d : D) (n : N) w s p :
  (∀ opts (d1 d2 : D) c, ch_Dial opts d1 = (d2, Ok c) → queries c = []) →
  clickhouse_main (C:=C) low url_Parse env ctx rounds (d, n)
    = (w, Some s, p) →
  ∃ cfg client r, queries client = [] ∧ ClickHouse.Run low ctx rounds (newWriter cfg client) = (s, r)
  ∧ p = afterRun "service run failed: %v" (Some <$> r).
Proof.
  intros Hfresh. unfold clickhouse_main.
  destruct (ClickHouse.ServiceConfigFromEnv env) as [cfg [[]|e]]; [|done].
  destruct (clickhouse_NewService low url_Parse cfg (d, n)) as [[d' n'] [svc|e]] eqn:Es; [|done].
  destruct (clickhouse_NewService_new _ _ _ _ _ _ Es) as (client & opts & d1 & d2 & Hw & Hd).
  unfold clickhouse_Run. destruct (NewTicker _); [|done]. rewrite Hw.
  destruct (ClickHouse.Run low ctx rounds _) as [s' r] eqn:Er. intros [= _ <- <-].
  exists (ClickHouse.sc_Writer cfg), client, r. split_and!; [by eapply Hfresh|done|done].
Qed.

Section end_to_end.
Context (unicode_lower : Z → Z) (registry : PairRegistry) (programKinds : gmap string string)
  (now : Z).
Context {N J G : Type} `{Nats N J, Grpc G, !RangeOrder string string, !RangeOrder Z tokenBalance,
  !RangeOrder Z Z}.
Context `{!JetStream J, ProtoUnmarshal, !StreamStore J, !DedupWindow J, Base58}.
Context `{ChProto} {C D : Type} `{!ChDial D C, !ChClient C}.
#[local] Instance end_SwapPublisher : SwapPublisher (Publisher J) :=
  Publisher_SwapPublisher unicode_lower J _ _ now.
Notation handle := (HandleUpdate unicode_lower registry programKinds (P:=Publisher J) (C:=MemorySlotTimeCache)).

(** An event that the decoder makes of a transaction which the network delivered, in
    some state. *)
Definition decoded_delivery (e : SwapEvent) : Prop :=
  ∃ (d : Decoder MemorySlotTimeCache) tx events,
    delivered (G:=G) (U_Transaction (Some tx))
    ∧ DecodeTransaction unicode_lower registry programKinds d (Some tx) = Ok events ∧ e ∈ events.

(** The updates with the context of the run. *)
Definition in_context (ctx : context) (us : list SubscribeUpdate) : list (context * option SubscribeUpdate) :=
  (λ u, (ctx, Some u)) <$> us.

Lemma decoded_from_delivery pcfg j0 ctx us e :
  Forall (delivered (G:=G)) us →
  decoded_from unicode_lower registry programKinds now pcfg j0 NewMemorySlotTimeCache (in_context ctx us) e →
  decoded_delivery e.
Proof.
  intros Hus (pre & c & tx & post & events & E & Hd & He).
  eexists _, tx, events. split; [|by split; [exact Hd|]].
  rewrite Forall_forall in Hus. apply Hus.
  assert ((c, Some (U_Transaction (Some tx))) ∈ in_context ctx us) as Hin
    by (rewrite E; apply elem_of_app; right; left).
  apply list_elem_of_fmap in Hin as (u & [= _ <-] & Hin). exact Hin.
Qed.

(** C10. From the network to the table, a transaction has one row. Take the ingestor
    process and the ClickHouse sink process, for every environment, transport,
    failures and choices, over a new stream that drops messages whose Msg-Id it has,
    with clients of ClickHouse that are new when dialled, and let the sink have
    handled every message of the stream once, in any order. However often the streams
    replayed it: no two of the rows that were stored or are held have the same slot,
    signature and index of the transaction in its slot; every accepted swap has a row
    of its transaction; a swap that was accepted at the first call for its transaction
    has the row of its transaction, with its own fields, so another swap of that
    transaction, and a later version of it, has none; every row is that of a swap
    which the decoder made of a transaction that the network delivered, or of its
    settled copy; and when the sink process has ended, no row is left in memory unless
    ClickHouse refused the last call. *)
Theorem one_row_per_transaction ReadFile Unmarshal ingestorEnv ctx ctxErr picks turns died
    (geyserNet heliusNet : G) (n0 : N) url_Parse sinkEnv sinkCtx rounds (d : D) (n1 : N) :
  (∀ bs, free_of colon (base58_Encode bs)) →
  (∀ u, delivered (G:=G) u → wt_update (Some u)) →
  (∀ conn (n n' : N) j, nats_JetStream conn n = (n', Ok j) → stored j = []) →
  (∀ opts (d1 d2 : D) c, ch_Dial opts d1 = (d2, Ok c) → queries c = []) →
  let '(_, service, _) :=
    ingestor_main (J:=J) ReadFile Unmarshal ingestorEnv handle ctx ctxErr picks turns died
      geyserNet heliusNet n0 in
  let '(_, loop, p) :=
    clickhouse_main (C:=C) unicode_lower url_Parse sinkEnv sinkCtx rounds (d, n1) in
  ∀ i s, service = Some i → loop = Some s →
  let pub := publisher (ingestor_processor i) in
  let msgs := event_msg <$> ls_trace s in
  msgs ≡ₚ stored (js pub) →
  let rows := rows_of unicode_lower [] msgs in
  (∃ log ts cs, represents (p_writer (ls_sink s)) log ts cs ∧ accepted_trades log ++ ts = rows
   ∧ (p ≠ Running → ts = [] ∨ ∃ i, last log = Some (i, false)))
  ∧ NoDup (row_key <$> rows)
  ∧ (∀ e, (PM_Swap e, true) ∈ history pub → swap_key e ∈ row_key <$> rows)
  ∧ (∀ e, first_call (history pub) e →
     ∃ ts, swapTrade ts e ∈ rows ∧ ∀ row, row ∈ rows → row_key row = swap_key e → row = swapTrade ts e)
  ∧ (∀ row, row ∈ rows → ∃ e ts, decoded_delivery e
     ∧ (row = swapTrade ts e ∨ ∃ undo, row = swapTrade ts (sw_set_flags e false undo))).
Proof.
  intros H58 Htyped Hnew Hfresh. unfold ingestor_main.
  pose proof (ingestor_setup_ok (J:=J) ReadFile Unmarshal ingestorEnv geyserNet heliusNet n0) as Hs.
  destruct (ingestor_setup _ _ _ _ _ n0) as [n' [p0|i0]]; [by destruct (clickhouse_main _ _ _ _ _ _) as [[w l] p]|].
  pose proof (ingestor_run_delivers handle ctx ctxErr picks turns died i0) as Hr.
  destruct (ingestor_run _ _ _ _ _ _ _) as [i1 p1]. destruct Hr as [_ (us & Hi & Hus)].
  pose proof (clickhouse_main_sink unicode_lower url_Parse sinkEnv sinkCtx rounds d n1) as Hm.
  destruct (clickhouse_main _ _ _ _ _ _) as [[w l] p].
  intros i s [= <-] ->. destruct (Hm _ _ _ Hfresh eq_refl) as (cfg & client & r & Hq & Hrun & ->). clear Hm.
  assert (∃ pcfg j0, stored j0 = [] ∧ ingestor_processor i1
    = ingest unicode_lower registry programKinds now pcfg j0 NewMemorySlotTimeCache (in_context ctx us))
    as (pcfg & j0 & Hj & Hp).
  { assert (∃ pcfg j0 conn (n1' : N), nats_JetStream conn n1' = (n', Ok j0)
      ∧ ingestor_processor i0 = NewProcessor (mkPublisher pcfg j0 []) NewMemorySlotTimeCache)
      as (pcfg & j0 & conn & n1' & Hj & Hp0).
    { destruct i0; destruct Hs as (_ & (_ & _ & pcfg & j0 & n1' & _ & Hp0 & Hj) & _);
        eexists pcfg, j0, _, n1'; (split; [exact Hj|exact Hp0]). }
    exists pcfg, j0. split; [by eapply Hnew|]. rewrite Hi, Hp0. apply replay_run. }
  rewrite Hp. intros Hperm. simpl in Hperm.
  pose proof (one_row_each unicode_lower registry programKinds now pcfg j0 NewMemorySlotTimeCache
    (in_context ctx us) sinkCtx cfg client rounds H58) as Hone.
  pose proof (Run_inserts_handled unicode_lower sinkCtx cfg client rounds Hq) as Hins.
  unfold sink in Hone. rewrite Hrun in Hone. unfold Writer_TradeWriter in Hrun. rewrite Hrun in Hins.
  simpl in Hone.
  destruct Hins as (log & ts & cs & Hrep & Hrows & _ & _ & _ & Hend).
  destruct Hone as (_ & Hnd & Hacc & Hfirst); [|done|done|done|].
  { apply Forall_fmap. eapply Forall_impl; [exact Hus|]. intros u. apply Htyped. }
  split; [|split; [exact Hnd|split; [exact Hacc|split; [exact Hfirst|]]]].
  - exists log, ts, cs. split; [done|]. split; [done|]. by intros Hended%afterRun_ended%Hend.
  - intros row Hrow. apply elem_of_rows_of in Hrow as (msg & e & t & Hin & He & -> & _).
    pose proof (stored_decoded unicode_lower registry programKinds now pcfg j0 NewMemorySlotTimeCache
      (in_context ctx us) Hj) as Hst.
    rewrite Forall_forall in Hst. rewrite Hperm in Hin.
    destruct (sent_message_seen unicode_lower now pcfg _ _ _ (Hst msg Hin)) as [Hswap _].
    destruct (Hswap e He) as (e0 & Hdec & Hcopy). exists e0, t. split; [by eapply decoded_from_delivery|].
    destruct Hcopy as [->|[undo ->]]; [by left|right; by exists undo].
Qed.
End end_to_end.

(** ** Witnesses *)

Section witnesses.
#[local] Existing Instances escaped_base58 Z_ChProto chain_order_ZZ chain_order_ss chain_order_tb
  chain_client chain_marshal chain_unmarshal candles_dial.
#[local] Existing Instances TestStream_JetStream TestStream_StreamStore TestStream_DedupWindow.

(** NATS with a new stream, and a transport all of whose streams give the updates of
    [Pipeline.v] and then fail. *)
#[local] Program Instance StreamNats : Nats TestNats TestStream := {|
  nats_Connect _ _ conns := ({[fresh conns]} ∪ conns, Ok (fresh conns));
  nats_JetStream _ conns := (conns, Ok []);
  nats_PullSubscribe _ _ _ _ conns := (conns, Ok tt);
  nats_Close c conns := conns ∖ {[c]};
  nats_Drain c conns := conns ∖ {[c]};
  open_conns conns := conns;
|}.
Next Obligation. intros url name conns. simpl. split; [apply is_fresh|done]. Qed.
Next Obligation. done. Qed.
Next Obligation. done. Qed.
Next Obligation. done. Qed.
Next Obligation. set_solver. Qed.

Definition chain_attempt : attempt :=
  mkAttempt false None None
    (((λ u, mkTurn false (R_Update u) false) <$> omap snd chain_updates)
     ++ [mkTurn false (R_Err (Sentinel "reset")) false]) false.
#[local] Instance ChainNet_Grpc : Grpc () := {|
  grpc_Dial _ _ _ n := (n, Ok tt);
  grpc_Streams n := (n, [chain_attempt]);
|}.

Definition both_env (name : string) : string :=
  if bool_decide (name = "ENABLE_HELIUS_FALLBACK") then "1"
  else if bool_decide (name ∈ ["PROGRAMS_YAML_PATH"; "GEYSER_ENDPOINT"; "GEYSER_API_KEY"; "NATS_URL";
    "NATS_STREAM"; "HELIUS_GRPC"; "HELIUS_WS"; "HELIUS_API_KEY"]) then "x" else "".
Definition chain_programs : gmap string string :=
  {["raydium" := "CAMMCzo5YL8w4VFF8KVHrK22GGUsp5VTaW7grrKgrWqK"]}.

(** Each client streams the updates once, so the processor meets them twice. *)
Definition chain_main :=
  ingestor_main (N:=TestNats) (J:=TestStream) (λ _, Ok []) (λ _, Ok chain_programs) both_env
    (HandleUpdate id initial_registry initial_programKinds
       (H:=end_SwapPublisher id 0 (J:=TestStream)))
    Background (Sentinel "context.Canceled") [] 
    [replicate (length chain_updates) P_Update ++ [P_Err];
     replicate (length chain_updates) P_Update ++ [P_Err]; [P_Done]] false () () ∅.

Lemma chain_main_stops : chain_main.2 = Stopped.
Proof. vm_compute. reflexivity. Qed.

Definition chain_publisher : option (Publisher TestStream) := publisher ∘ ingestor_processor <$> chain_main.1.2.
Definition chain_stored : list NatsMsg := default [] (js <$> chain_publisher).
Definition sink_rounds : list round :=
  [mkRound Poll_Default (Ok chain_stored); mkRound (Poll_Done (Sentinel "context.Canceled")) (Ok [])].
Definition sink_main :=
  clickhouse_main (N:=TestNats) (J:=TestStream) (C:=TestClient) id example_url (sink_env "1000") Background
    sink_rounds (([], []), ∅).

Lemma sink_main_handled : (λ s, event_msg <$> ls_trace s) <$> sink_main.1.2 = Some chain_stored.
Proof. vm_compute. reflexivity. Qed.
Lemma chain_delivered_typed u : delivered (G:=()) u → wt_update (Some u).
Proof.
  intros (g & a & tn & Ha%list_elem_of_singleton & Htn & Hr). subst a.
  apply elem_of_app in Htn as [Htn|Htn].
  - apply list_elem_of_fmap in Htn as (u' & -> & Hu'). injection Hr as <-.
    apply list_elem_of_omap in Hu' as ([c o] & Hin & Ho). simpl in Ho.
    pose proof chain_updates_typed as Ht. rewrite Forall_forall in Ht. rewrite <- Ho. exact (Ht _ Hin).
  - apply list_elem_of_singleton in Htn as ->. discriminate Hr.
Qed.

(** Two provisional versions and two final ones were accepted; one row is left, that
    of the first, and the sink process has stored it. *)
Lemma one_row_per_transaction_witness :
  (λ p, length (omap (λ c : ProtoMessage * bool, match c with (PM_Swap e, true) => Some e | _ => None end)
     (history p))) <$> chain_publisher = Some 4%nat
  ∧ length (rows_of id [] chain_stored) = 1%nat
  ∧ ∃ e ts, (chain_publisher ≫= λ p, first_swap (history p)) = Some e
    ∧ swapTrade ts e ∈ rows_of id [] chain_stored.
Proof.
  split; [vm_compute; reflexivity|]. split; [vm_compute; reflexivity|].
  pose proof (one_row_per_transaction id initial_registry initial_programKinds 0 (N:=TestNats) (J:=TestStream)
    (G:=()) (C:=TestClient) (λ _, Ok []) (λ _, Ok chain_programs) both_env Background
    (Sentinel "context.Canceled") []
    [replicate (length chain_updates) P_Update ++ [P_Err];
     replicate (length chain_updates) P_Update ++ [P_Err]; [P_Done]] false () () ∅
    example_url (sink_env "1000") Background sink_rounds ([], []) ∅) as HE.
  assert (is_Some (chain_publisher ≫= λ p, first_swap (history p))) as [e He]
    by (vm_compute; eexists; reflexivity).
  assert (∃ i, chain_main.1.2 = Some i ∧ js (publisher (ingestor_processor i)) = chain_stored
    ∧ first_swap (history (publisher (ingestor_processor i))) = Some e) as (i & Ei & Ej & Hf).
  { assert (is_Some chain_main.1.2) as [i Ei] by (vm_compute; eexists; reflexivity).
    exists i. split; [exact Ei|]. unfold chain_stored, chain_publisher in *. rewrite Ei in *.
    split; [reflexivity|exact He]. }
  destruct (fmap_Some_1 _ _ _ sink_main_handled) as (s & Es & Em).
  unfold chain_main in Ei. unfold sink_main in Es.
  destruct (ingestor_main _ _ _ _ _ _ _ _ _ _ _ _) as [[n' service] p1]. simpl in Ei.
  destruct (clickhouse_main _ _ _ _ _ _) as [[w loop] p]. simpl in Es.
  edestruct HE as (_ & _ & _ & Hfirst & _); [| | | |exact Ei|exact Es| |].
  - intros bs. apply escaped_no_colon.
  - exact chain_delivered_typed.
  - intros conn n1 n2 j Hj. injection Hj as _ <-. reflexivity.
  - intros opts d1 d2 c Hc. injection Hc as _ <-. reflexivity.
  - rewrite Ej, <- Em. reflexivity.
  - destruct (Hfirst e (first_swap_call _ _ Hf)) as (ts & Hts & _).
    exists e, ts. split; [exact He|]. rewrite Em. exact Hts.
Defined.
End witnesses.

(** ** A message that is nil

    A transport whose streams give a slot update with no message in it. *)

Section nil_message.
#[local] Existing Instances escaped_base58 chain_order_ss chain_order_tb chain_marshal
  TestStream_JetStream StreamNats.
#[local] Existing Instance chain_order_ZZ.
#[local] Instance NilNet_Grpc : Grpc () := {|
  grpc_Dial _ _ _ n := (n, Ok tt);
  grpc_Streams n := (n, [mkAttempt false None None [mkTurn false (R_Update (U_Slot None)) false] false]);
|}.

(** The loop waits for updates; the goroutine of the subscription reads the slot of
    nil, and the process dies as soon as that has come. *)
Lemma nil_message_panics died :
  (ingestor_main (N:=TestNats) (J:=TestStream) (λ _, Ok []) (λ _, Ok chain_programs) both_env
    (HandleUpdate id initial_registry initial_programKinds
       (H:=end_SwapPublisher id 0 (J:=TestStream)))
    Background (Sentinel "context.Canceled") [] [[P_Update]] died () () ∅).2
  = if died then Panic else Commands.Running.
Proof. destruct died; vm_compute; reflexivity. Qed.
End nil_message.
