(* ===== verification/Mirror.v ===== *)
(** * The mirrored stream

    What the legacy bridge of [BridgeRun.v] leaves in its target stream. The bridge
    acknowledges a message after the target accepted it, so a message is fetched
    again when it stops in between; it keeps the headers, so the copies have the
    Msg-Id of the message, and a stream that drops messages whose Msg-Id it has keeps
    one. *)

From S2P Require Import Prelude GoStrings GoSort Metrics Bytes Proto Publisher.
From S2P Require Import Pipeline Bridge BridgeRun.
Local Open Scope list_scope.

(** The copy that the bridge publishes for a message, if the mapper keeps it. *)
Definition mirrored (mapper : SubjectMapper) (msg : SourceMsg) : option NatsMsg :=
  (λ mapped, mkNatsMsg mapped (sm_Data msg) (sm_Header msg)) <$> mapper (sm_Subject msg).
Definition source_id (msg : SourceMsg) : option (list string) := sm_Header msg !! "Nats-Msg-Id".

Lemma mirrored_id mapper msg m : mirrored mapper msg = Some m → nats_id m = source_id msg.
Proof. unfold mirrored. by intros (mapped & _ & ->)%fmap_Some. Qed.

(** ** One message *)

Section forward.
Context {J S : Type} `{JetStream J, AckSource S, !RangeOrder string (list string)}.
Context (now : Z) (parent : context) (targetStream : string) (publishTimeout : Z)
  (mapper : SubjectMapper).

(** What one call of [forward] does to the target and to the trace. *)
Lemma forward_target msg (s : state J S) :
  let '(s', _) := forward now parent targetStream publishTimeout mapper msg s in
  (∃ ok, mirrored mapper msg = None ∧ st_target s' = st_target s
   ∧ st_trace s' = st_trace s ++ [E_Ack msg ok])
  ∨ ∃ m opts j r acks, mirrored mapper msg = Some m
    ∧ js_PublishMsg m opts (st_target s) = (j, r) ∧ st_target s' = j
    ∧ st_trace s' = st_trace s ++ E_Publish msg m (is_ok r) :: acks
    ∧ (∀ e, e ∈ acks → ∃ ok, e = E_Ack msg ok ∧ is_ok r = true).
Proof.
  unfold forward, mirrored. rewrite M_bind_run.
  assert (∃ s1 u, (match sm_Timestamp msg with
     | Some ts => set_metrics (λ m, observeLag m (sm_Subject msg) (Z.max 0 (now - ts)))
     | None => mret tt end : M (state J S) ()) s = (s1, Ok u)
     ∧ st_trace s1 = st_trace s ∧ st_target s1 = st_target s)
    as (s1 & u & -> & <- & <-) by (destruct (sm_Timestamp msg); do 2 eexists; split; done).
  destruct (mapper (sm_Subject msg)) as [mapped|].
  - unfold forwardMapped, try, publish_target, ack. rewrite translated_eq. set (m := mkNatsMsg _ _ _).
    destruct (js_PublishMsg _ _ _) as [j [a|err]] eqn:Hj; simpl.
    + destruct (wrongStream targetStream a).
      { right. eexists m, _, j, _, []. split_and!; [done|exact Hj|done|done|by intros e ?%elem_of_nil]. }
      destruct (src_Ack _ _) as [src [u'|err]]; right; eexists m, _, j, _, [_];
        (split_and!; [done|exact Hj|done|simpl; rewrite <- app_assoc; reflexivity|]);
        intros e ->%list_elem_of_singleton; eauto.
    + right. eexists m, _, j, _, []. split_and!; [done|exact Hj|done|done|by intros e ?%elem_of_nil].
  - rewrite M_bind_run. unfold ack. simpl.
    destruct (src_Ack _ _) as [src [[]|err]]; left; by eexists.
Qed.
End forward.

(** ** The run *)

Section run.
Context `{Prometheus} {J S : Type} `{JetStream J, AckSource S, !RangeOrder string (list string)}.
Context `{!StreamStore J, !DedupWindow J}.
Context (svc : Service) (parent : context).
Notation run_st := (run_state J S).
Notation copy := (mirrored (mapper svc)).
Implicit Types (st : run_st) (s : state J S).

(** The target holds the copies that were published, no Msg-Id twice, and a copy for
    each that was accepted. *)
Record target_inv s : Prop := {
  ti_copies : Forall (λ m, ∃ msg ok, E_Publish msg m ok ∈ st_trace s) (stored (st_target s));
  ti_published msg m ok : E_Publish msg m ok ∈ st_trace s → copy msg = Some m;
  ti_ids i j m m' : stored (st_target s) !! i = Some m → stored (st_target s) !! j = Some m' →
    is_Some (nats_id m) → nats_id m = nats_id m' → i = j;
  ti_accepted msg m : E_Publish msg m true ∈ st_trace s →
    m ∈ stored (st_target s) ∨ duplicate m (stored (st_target s));
  ti_acked msg m : E_Ack msg true ∈ st_trace s → copy msg = Some m → E_Publish msg m true ∈ st_trace s;
}.

Lemma target_inv_new s : stored (st_target s) = [] → st_trace s = [] → target_inv s.
Proof.
  intros Ht Htr. split; rewrite ?Ht, ?Htr; [constructor|by intros ? ? ? ?%elem_of_nil|done|..];
    by intros ? ? ?%elem_of_nil.
Qed.

Lemma duplicate_app m l k : duplicate m l → duplicate m (l ++ k).
Proof. intros [Hid (m' & Hin & E)]. split; [done|]. exists m'. split; [apply elem_of_app; auto|done]. Qed.

Lemma target_inv_forward now msg s :
  target_inv s →
  target_inv (forward now parent (TargetStream (svc_cfg svc)) (svc_publishTimeout svc) (mapper svc) msg s).1.
Proof.
  intros [Hc Hp Hi Ha Hk].
  pose proof (forward_target now parent (TargetStream (svc_cfg svc)) (svc_publishTimeout svc) (mapper svc)
    msg s) as Hf.
  destruct (forward _ _ _ _ _ _ _) as [s' r]. simpl.
  destruct Hf as [(ok & Hm & Ht & Htr)|(m & opts & j & rp & acks & Hm & Hj & Ht & Htr & Hacks)].
  - assert (∀ e, e ∈ st_trace s' → e ∈ st_trace s ∨ e = E_Ack msg ok) as Hin.
    { intros e. rewrite Htr, elem_of_app, list_elem_of_singleton. done. }
    split; rewrite ?Ht.
    + eapply Forall_impl; [exact Hc|]. intros m (msg' & ok' & ?). exists msg', ok'. rewrite Htr. set_solver.
    + intros msg' m ok' [?|?]%Hin; [by eapply Hp|done].
    + exact Hi.
    + intros msg' m [?|?]%Hin; [by eapply Ha|done].
    + intros msg' m [?|[= -> <-]]%Hin Hm'; [rewrite Htr; apply elem_of_app; left; by apply Hk|].
      by rewrite Hm in Hm'.
  - pose proof (stored_publish m opts (st_target s)) as Hs. pose proof (duplicate_dropped m opts (st_target s)) as Hd.
    rewrite Hj in Hs, Hd. simpl in Hs, Hd. rewrite <- Ht in Hs, Hd.
    assert (∀ e, e ∈ st_trace s' ↔ e ∈ st_trace s ∨ e = E_Publish msg m (is_ok rp) ∨ e ∈ acks) as Hin.
    { intros e. by rewrite Htr, elem_of_app, elem_of_cons. }
    assert (∀ msg' m' ok', E_Publish msg' m' ok' ∈ st_trace s' →
      E_Publish msg' m' ok' ∈ st_trace s ∨ msg' = msg ∧ m' = m ∧ ok' = is_ok rp) as Hpub.
    { intros msg' m' ok' [?|[E|(ok & E & _)%Hacks]]%Hin; [auto| |discriminate E].
      injection E as -> -> ->. auto. }
    assert (∃ k, stored (st_target s') = stored (st_target s) ++ k) as [k Hk'].
    { destruct Hs as [Hs|[Hs _]]; [by eexists|exists []; by rewrite app_nil_r]. }
    split.
    + apply Forall_forall. intros m0 Hm0. rewrite Forall_forall in Hc.
      assert (m0 ∈ stored (st_target s) ∨ m0 = m) as [Hold| ->].
      { destruct Hs as [Hs|[Hs _]]; rewrite Hs in Hm0; set_solver. }
      * destruct (Hc m0 Hold) as (msg' & ok' & ?). exists msg', ok'. apply Hin. auto.
      * exists msg, (is_ok rp). apply Hin. auto.
    + intros msg' m' ok' [?|(-> & -> & ->)]%Hpub; [by eapply Hp|done].
    + destruct Hs as [Hs|[Hs _]]; rewrite Hs; [|exact Hi].
      assert (¬ duplicate m (stored (st_target s))) as Hnd.
      { intros Hdup%Hd. rewrite Hs in Hdup. apply (f_equal length) in Hdup. rewrite length_app in Hdup. simpl in Hdup. lia. }
      assert (∀ i m', stored (st_target s) !! i = Some m' → is_Some (nats_id m) → nats_id m' ≠ nats_id m) as Hne.
      { intros i m' Hi' Hid E. apply Hnd. split; [done|]. exists m'. split; [by eapply list_elem_of_lookup_2|done]. }
      intros i j' m1 m2 [L1|[Hl1 L1]]%lookup_app_Some [L2|[Hl2 L2]]%lookup_app_Some Hid E.
      * by eapply Hi.
      * apply list_lookup_singleton_Some in L2 as [_ <-]. destruct (Hne i m1); [done|by rewrite <- E|done].
      * apply list_lookup_singleton_Some in L1 as [_ <-]. by destruct (Hne j' m2).
      * apply list_lookup_singleton_Some in L1 as [? _], L2 as [? _]. lia.
    + intros msg' m' [Hold|(-> & -> & Hok)]%Hpub.
      * rewrite Hk'. destruct (Ha msg' m' Hold); [left; apply elem_of_app; auto|right; by apply duplicate_app].
      * destruct Hs as [Hs|[Hs Hdup]]; rewrite Hs; [left; apply elem_of_app; right; left|right; auto].
    + intros msg' m' [Hold|[E|(ok & E & Hok)%Hacks]]%Hin Hm'; [|discriminate E|injection E as -> <-].
      * apply Hin. left. by apply Hk.
      * rewrite Hm in Hm'. injection Hm' as <-. apply Hin. right. left. by rewrite Hok.
Qed.

(** Only [forward] touches the target and the trace. *)
Lemma step_shared l st st' :
  step svc parent l st = Some st' →
  r_shared st' = r_shared st
  ∨ ∃ now msg, r_shared st' =
      (forward now parent (TargetStream (svc_cfg svc)) (svc_publishTimeout svc) (mapper svc) msg
         (r_shared st)).1.
Proof.
  intros Hs. destruct l as [err|r|i r|i now|err| |]; simpl in Hs.
  - destruct (r_parent st); [done|]. injection Hs as <-. by left.
  - destruct (r_main st) as [[|]|]; [done| |done]. destruct r; injection Hs as <-; by left.
  - destruct (r_consumers st !! i) as [[]|]; try discriminate Hs. unfold fetchStep in Hs.
    destruct r as [msgs|err]; [destruct (_ <=? _); [|done]|destruct (errors_Is _ _)];
      injection Hs as <-; by left.
  - apply bind_Some in Hs as ([| |e|[|msg msgs]|e] & _ & Hs); simpl in Hs; try discriminate Hs.
    + destruct (r_ctx st); injection Hs as <-; by left.
    + destruct (r_ctx st); injection Hs as <-; by left.
    + injection Hs as <-. by left.
    + right. exists now, msg. destruct (forward _ _ _ _ _ _ _) as [s [u|e]]; by injection Hs as <-.
  - destruct (r_metrics st) as [[[b|] w]|]; try discriminate Hs. unfold serveStep in Hs.
    repeat case_match; try discriminate Hs; injection Hs as <-; by left.
  - apply bind_Some in Hs as ([v w] & _ & Hs). unfold watchStep in Hs.
    repeat case_match; try discriminate Hs; injection Hs as <-; by left.
  - repeat case_match; try discriminate Hs; injection Hs as <-; by left.
Qed.

Lemma target_inv_steps subjects s ls st :
  target_inv s → steps svc parent ls (start svc subjects s) = Some st → target_inv (r_shared st).
Proof.
  intros Hs. apply (steps_ind svc parent (λ _ st, target_inv (r_shared st))); [exact Hs|].
  intros ls' l st1 st2 _ Hi [-> |(now & msg & ->)]%step_shared; [done|].
  by apply target_inv_forward.
Qed.

(** The messages that the consumers fetched, all together. *)
Definition all_fetched (ls : list label) : list SourceMsg :=
  concat ((λ l, match l with L_Fetch _ (Ok msgs) => msgs | _ => [] end) <$> ls).

Lemma fetched_by_all i ls msg : msg ∈ fetched_by i ls → msg ∈ all_fetched ls.
Proof.
  unfold fetched_by, all_fetched. intros (msgs & Hin & Hl)%elem_of_concat.
  apply list_elem_of_fmap in Hl as (l & -> & Hl). apply elem_of_concat.
  eexists. split; [|apply list_elem_of_fmap; by exists l].
  destruct l as [| |j []| | | |]; try exact Hin. destruct (decide (j = i)); [exact Hin|].
  by apply elem_of_nil in Hin.
Qed.

(** The events of a call of [forward] are of its message. *)
Lemma block_source f msg t msg' m ok :
  t = expected f msg ∨ failed_trace f msg t → E_Publish msg' m ok ∈ t → msg' = msg.
Proof.
  unfold expected, failed_trace. intros Ht Hin.
  destruct (f (sm_Subject msg)); repeat destruct Ht as [Ht|Ht]; rewrite Ht in Hin;
    rewrite ?elem_of_cons, elem_of_nil in Hin; naive_solver.
Qed.

(** What was published in a run was fetched in it. *)
Lemma published_fetched subjects s ls st msg m ok :
  steps svc parent ls (start svc subjects s) = Some st →
  E_Publish msg m ok ∈ st_trace (r_shared st) → E_Publish msg m ok ∈ st_trace s ∨ msg ∈ all_fetched ls.
Proof.
  intros Hs. destruct (run_trace_steps svc parent subjects s ls st Hs) as [blocks [Ht Hb Ho]].
  rewrite Ht. intros [?|Hin]%elem_of_app; [by left|right]. apply elem_of_concat in Hin as (t & Hin & Hb').
  apply list_elem_of_fmap in Hb' as (b & -> & Hb'). rewrite Forall_forall in Hb.
  assert (msg = b.1.2) as ->.
  { apply (block_source (mapper svc) _ b.2 msg m ok); [|done]. destruct (Hb b Hb') as [?|[? _]]; auto. }
  assert (b.1.2 ∈ handled_by b.1.1 blocks) as Hh.
  { unfold handled_by. apply list_elem_of_fmap. exists b. split; [done|]. by apply list_elem_of_filter. }
  apply (fetched_by_all b.1.1). specialize (Ho b.1.1).
  destruct (r_consumers st !! b.1.1) as [c|].
  - assert (handled_by b.1.1 blocks `prefix_of` fetched_by b.1.1 ls) as [k ->].
    { destruct c; try exact Ho; rewrite Ho; by apply prefix_app_r. }
    apply elem_of_app. by left.
  - destruct Ho as [_ Ho]. rewrite Ho in Hh. set_solver.
Qed.

(** ** Restarts *)

(** The process runs, stops after any step, and is started again on the same streams
    with the counters [m0] of a new process. *)
Definition restart (m0 : serviceMetrics) s : state J S :=
  mkState (st_target s) (st_source s) m0 (st_trace s).
Fixpoint restarted (m0 : serviceMetrics) (runs : list (list string * list label)) s : option (state J S) :=
  match runs with
  | [] => Some s
  | (subjects, ls) :: runs =>
    st ← steps svc parent ls (start svc subjects (restart m0 s)); restarted m0 runs (r_shared st)
  end.

Lemma restarted_inv m0 runs s s' :
  target_inv s → restarted m0 runs s = Some s' →
  target_inv s'
  ∧ ∀ msg m ok, E_Publish msg m ok ∈ st_trace s' →
      E_Publish msg m ok ∈ st_trace s ∨ msg ∈ all_fetched (concat runs.*2).
Proof.
  revert s. induction runs as [|[subjects ls] runs IH]; intros s Hi; csimpl.
  { intros [= <-]. auto. }
  intros (st & Hst & Hruns)%bind_Some.
  assert (target_inv (restart m0 s)) as Hi0 by (by destruct Hi; split).
  destruct (IH (r_shared st)) as [Hi' Hp]; [by eapply target_inv_steps|done|]. split; [done|].
  assert (∀ msg, msg ∈ all_fetched (ls ++ concat runs.*2)
    ↔ msg ∈ all_fetched ls ∨ msg ∈ all_fetched (concat runs.*2)) as Happ.
  { intros msg. unfold all_fetched. by rewrite fmap_app, concat_app, elem_of_app. }
  intros msg m ok [Hin|?]%Hp; [|right; apply Happ; by right].
  destruct (published_fetched _ _ _ _ msg m ok Hst Hin); [by left|right; apply Happ; by left].
Qed.

(** The ids of the copies are those of the messages. *)
Lemma copies_NoDup src : NoDup (source_id <$> src) → NoDup (omap copy src).
Proof.
  intros Hnd. apply (NoDup_fmap_1 nats_id), (sublist_NoDup _ _ Hnd). clear Hnd.
  induction src as [|msg src IH]; [done|]. csimpl. destruct (copy msg) as [m|] eqn:Hm; csimpl.
  - rewrite (mirrored_id _ _ _ Hm). by constructor.
  - by constructor.
Qed.

(** ** Property *)

(** C7. The mirror. Let the bridge run on a new target stream that drops messages
    whose Msg-Id it has, stop after any step, and start again, any number of times,
    with any interleaving of its consumers and any failures, and let what it fetches,
    repeated or not, be of the list [src] of messages with different Msg-Ids. Then
    the target never holds a message that is not the copy of one of [src], nor a
    copy twice; and once every message of [src] has been acknowledged it holds the
    copies of all those that the mapper keeps, each once. *)
Theorem mirror_exact m0 runs s s' src :
  Forall (λ msg, is_Some (source_id msg)) src → NoDup (source_id <$> src) →
  stored (st_target s) = [] → st_trace s = [] →
  restarted m0 runs s = Some s' →
  (∀ msg, msg ∈ all_fetched (concat runs.*2) → msg ∈ src) →
  stored (st_target s') ⊆+ omap copy src
  ∧ ((∀ msg, msg ∈ src → E_Ack msg true ∈ st_trace s') → stored (st_target s') ≡ₚ omap copy src).
Proof.
  intros Hid Hnd Ht Htr Hs Hsrc.
  destruct (restarted_inv m0 runs s s') as [[Hc Hp Hi Ha Hk] Hfetched]; [by apply target_inv_new|done|].
  assert (∀ m, m ∈ stored (st_target s') → is_Some (nats_id m) ∧ m ∈ omap copy src) as Hin.
  { rewrite Forall_forall in Hc. intros m (msg & ok & Hpub)%Hc.
    assert (msg ∈ src) as Hm.
    { destruct (Hfetched msg m ok Hpub) as [Hnil|?]; [|by apply Hsrc].
      rewrite Htr in Hnil. by apply elem_of_nil in Hnil. }
    pose proof (Hp msg m ok Hpub) as Hcopy. rewrite Forall_forall in Hid. split.
    - rewrite (mirrored_id _ _ _ Hcopy). by apply Hid.
    - apply list_elem_of_omap. by exists msg. }
  assert (NoDup (stored (st_target s'))) as Hst.
  { apply NoDup_alt. intros i j m Hmi Hmj. apply (Hi i j m m); try done.
    by apply Hin, list_elem_of_lookup_2 with i. }
  split; [apply NoDup_submseteq; [done|]; intros m Hm; by apply Hin|].
  intros Hack. apply NoDup_Permutation; [done|by apply copies_NoDup|]. intros m.
  split; [intros Hm; by apply Hin|]. intros (msg & Hm & Hcopy)%list_elem_of_omap.
  destruct (Ha msg m (Hk msg m (Hack msg Hm) Hcopy)) as [?|[_ (m' & Hm' & E)]]; [done|].
  destruct (Hin m' Hm') as [_ (msg' & Hsrc' & Hcopy')%list_elem_of_omap].
  assert (msg' = msg) as ->.
  { apply list_elem_of_lookup_1 in Hm as [i Hmi], Hsrc' as [j Hmj].
    assert (i = j) as ->; [|congruence]. apply (NoDup_lookup _ _ _ (source_id msg) Hnd).
    - by rewrite list_lookup_fmap, Hmi.
    - rewrite list_lookup_fmap, Hmj. simpl.
      by rewrite <- (mirrored_id _ _ _ Hcopy'), E, (mirrored_id _ _ _ Hcopy). }
  congruence.
Qed.
End run.

(** ** Witness *)

#[local] Existing Instances TestStream_JetStream TestStream_StreamStore TestStream_DedupWindow.
#[local] Existing Instance test_prometheus.
#[local] Existing Instance example_header_order.

(** A source that loses the first acknowledgement. *)
#[local] Instance losing_source : AckSource bool := {|
  src_Ack _ (lost : bool) := if lost then (true, Ok tt) else (true, Err (Sentinel "nats.ErrTimeout"))
|}.
Definition mirror_msg (subject id : string) : SourceMsg :=
  mkSourceMsg subject [bchr 1] {["Nats-Msg-Id" := [id]]} (Some 5).
Definition mirror_src : list SourceMsg :=
  [mirror_msg "dex.sol.x" "1"; mirror_msg "dex.sol.y" "2"; mirror_msg "dex.sol.z" "3"].
Definition mirror_shared : state TestStream bool := mkState [] false (mkServiceMetrics ∅ ∅ ∅ ∅) [].

(** The first run publishes the first message and stops when its acknowledgement is
    lost; the second is given it again, with the others. *)
Definition mirror_runs : list (list string * list label) :=
  [(["dex.sol.>"], [L_Subscribe (Ok tt); L_Consumer 0 10; L_Fetch 0 (Ok (take 1 mirror_src)); L_Consumer 0 11]);
   (["dex.sol.>"], [L_Subscribe (Ok tt); L_Consumer 0 20; L_Fetch 0 (Ok mirror_src); L_Consumer 0 21;
                    L_Consumer 0 22; L_Consumer 0 23])].
Definition mirror_end : state TestStream bool :=
  default mirror_shared (restarted run_service Background (st_metrics mirror_shared) mirror_runs mirror_shared).

Lemma mirror_exact_witness :
  length (st_trace mirror_end) = 8%nat
  ∧ stored (st_target mirror_end) ≡ₚ omap (mirrored (mapper run_service)) mirror_src.
Proof.
  split; [vm_compute; reflexivity|].
  refine (proj2 (mirror_exact run_service Background (st_metrics mirror_shared) mirror_runs mirror_shared
    mirror_end mirror_src _ _ _ _ _ _) _).
  - repeat constructor; eexists; vm_compute; reflexivity.
  - apply (bool_decide_unpack _). vm_compute. exact I.
  - reflexivity.
  - reflexivity.
  - vm_compute. reflexivity.
  - intros msg Hin. assert (msg ∈ take 1 mirror_src ++ mirror_src) as [?|?]%elem_of_app by exact Hin; [|done].
    by eapply subseteq_take.
  - intros msg Hin. unfold mirror_src in Hin. rewrite !elem_of_cons, elem_of_nil in Hin.
    destruct Hin as [-> |[-> |[-> |[]]]].
    + apply list_elem_of_lookup_2 with 3%nat. vm_compute. reflexivity.
    + apply list_elem_of_lookup_2 with 5%nat. vm_compute. reflexivity.
    + apply list_elem_of_lookup_2 with 7%nat. vm_compute. reflexivity.
Defined.
