(* ===== verification/SinkReplay.v ===== *)
(** * Sink replay tool

    [cmd/tools/sinkreplay/main.go]: publishes the events of a JSON fixture to
    JetStream, so that the sinks can be run without a chain. The file and the
    decoding of its JSON are arguments; the connection is the class [Nats] of
    [Services.v], the asynchronous publish of nats.go and the [select] that waits
    for it are the class [AsyncJetStream]. [log.Fatalf] ends the run. *)

From S2P Require Import Prelude GoStrings Bytes Proto Publisher Sink ClickHouse Services.
From Stdlib Require Import Ascii.
Local Open Scope list_scope.

(** Pointer fields are options. *)
Record event := mkEvent {
  ev_Type : string;
  ev_Slot : Z;
  ev_ChainID : Z;
  ev_Timestamp : Z;
  ev_Status : string;
  ev_Signature : string;
  ev_Index : Z;
  ev_ProgramID : string;
  ev_PoolID : string;
  ev_PairID : string;
  ev_MintBase : string;
  ev_MintQuote : string;
  ev_DecBase : Z;
  ev_DecQuote : Z;
  ev_BaseIn : Z;
  ev_BaseOut : Z;
  ev_QuoteIn : Z;
  ev_QuoteOut : Z;
  ev_ReservesBase : Z;
  ev_ReservesQuote : Z;
  ev_FeeBps : Z;
  ev_Provisional : option bool;
  ev_IsUndo : bool;
  ev_IsCorrection : option bool;
  ev_Success : option bool;
  ev_LogMsgs : list string;
  ev_Timeframe : string;
  ev_WindowStart : Z;
  ev_OpenPxQ32 : Z;
  ev_HighPxQ32 : Z;
  ev_LowPxQ32 : Z;
  ev_ClosePxQ32 : Z;
  ev_VolBase : Z;
  ev_VolQuote : Z;
  ev_Trades : Z;
  ev_SleepMillis : Z;
}.

(** The case taken by the [select] after an asynchronous publish. *)
Inductive wait := W_Complete | W_Done | W_Timeout.

(** [as_sent] is a history: the messages handed over by the calls that returned
    nil. [PublishAsyncComplete] tells that no acknowledgement is outstanding,
    whether they were positive or not. *)
Class AsyncJetStream (J : Type) := {
  js_PublishMsgAsync : NatsMsg → M J ();
  js_Wait : context → J → J * wait;
  as_sent : J → list NatsMsg;
  as_sent_publish msg j :
    as_sent (js_PublishMsgAsync msg j).1
    = as_sent j ++ (if is_ok (js_PublishMsgAsync msg j).2 then [msg] else []);
  as_sent_wait ctx j : as_sent (js_Wait ctx j).1 = as_sent j;
}.

Definition programSegment (programID : string) : string :=
  if bool_decide (programID = "") then "unknown"
  else if bool_decide (programID = "CAMMCzo5YL8w4VFF8KVHrK22GGUsp5VTaW7grrKgrWqK") then "raydium"
  else if bool_decide (programID = "whirLbMiicVdio4qvUfM5KAg6Ct8VwpYzGff3uctyCc") then "orca"
  else if bool_decide (programID = "cpamdpZCGKUy5JxQXB4dcpGPiikHawvSWAd6mEn1sGG") then "meteora"
  else if decide (12 < slen programID)%nat then str_take 12 programID else programID.

Definition eventChainID (ev : event) : Z := if ev_ChainID ev =? 0 then 501 else ev_ChainID ev.

Definition event_head (ev : event) : BlockHead :=
  mkBlockHead (eventChainID ev) (ev_Slot ev) (u64 (ev_Timestamp ev)) (ev_Status ev).

Definition event_meta (ev : event) : TxMeta :=
  mkTxMeta (eventChainID ev) (ev_Slot ev) (ev_Signature ev) (default true (ev_Success ev)) 0 0
    (ev_LogMsgs ev).

Definition event_swap (ev : event) : SwapEvent :=
  mkSwapEvent (eventChainID ev) (ev_Slot ev) (ev_Signature ev) (ev_Index ev) (ev_ProgramID ev)
    (ev_PoolID ev) (ev_MintBase ev) (ev_MintQuote ev) (ev_DecBase ev) (ev_DecQuote ev)
    (ev_BaseIn ev) (ev_BaseOut ev) (ev_QuoteIn ev) (ev_QuoteOut ev) 0 0
    (ev_ReservesBase ev) (ev_ReservesQuote ev) (ev_FeeBps ev)
    (default true (ev_Provisional ev)) (ev_IsUndo ev).

Definition eventTimeframe (ev : event) : string :=
  if bool_decide (ev_Timeframe ev = "") then "unknown" else ev_Timeframe ev.
Definition eventVolume (v : Z) : option U128 := if v =? 0 then None else Some (mkU128 0 v).
Definition event_candle (ev : event) : Proto.Candle :=
  Proto.mkCandle (eventChainID ev) (ev_PairID ev) (ev_PoolID ev) (eventTimeframe ev)
    (ev_WindowStart ev) (default false (ev_Provisional ev)) (default false (ev_IsCorrection ev))
    (ev_OpenPxQ32 ev) (ev_HighPxQ32 ev) (ev_LowPxQ32 ev) (ev_ClosePxQ32 ev) None None
    (eventVolume (ev_VolBase ev)) (eventVolume (ev_VolQuote ev)) (ev_Trades ev).
(** The scope of a candle and the id it is about. *)
Definition eventScope (ev : event) : string * string :=
  if bool_decide (ev_PoolID ev ≠ "") then ("pool", ev_PoolID ev) else ("pair", ev_PairID ev).

Section replay.
Context (unicode_lower : Z → Z).

Definition headMsgID (ev : event) : string :=
  pretty (eventChainID ev) +:+ ":" +:+ pretty (ev_Slot ev) +:+ ":head:" +:+ ev_Status ev.
Definition metaMsgID (ev : event) : string :=
  pretty (eventChainID ev) +:+ ":" +:+ pretty (ev_Slot ev) +:+ ":" +:+ ev_Signature ev +:+ ":meta".
Definition swapReplayID (ev : event) : string :=
  pretty (eventChainID ev) +:+ ":" +:+ pretty (ev_Slot ev) +:+ ":" +:+ ev_Signature ev +:+ ":"
  +:+ pretty (ev_Index ev) +:+ ":" +:+ format_bool (default true (ev_Provisional ev)) +:+ ":"
  +:+ format_bool (ev_IsUndo ev).
Definition candleReplayID (ev : event) : string :=
  pretty (eventChainID ev) +:+ ":" +:+ (eventScope ev).1 +:+ ":" +:+ (eventScope ev).2 +:+ ":"
  +:+ ToLower unicode_lower (eventTimeframe ev) +:+ ":" +:+ pretty (ev_WindowStart ev).
Definition candleReplaySubject (root : string) (ev : event) : string :=
  root +:+ ".candle." +:+ (eventScope ev).1 +:+ "." +:+ ToLower unicode_lower (eventTimeframe ev).

Context {J : Type} `{AsyncJetStream J, ProtoMarshal}.

Definition publishProto (ctx : context) (subject : string) (data : list byte) (msgID : string) :
    M J () := λ j,
  match js_PublishMsgAsync (natsMsg subject data msgID) j with
  | (j, Err err) => (j, Err err)
  | (j, Ok _) =>
    match js_Wait ctx j with
    | (j, W_Complete) => (j, Ok tt)
    | (j, W_Done) => (j, Err (Errorf "publish context cancelled for subject %s" [FStr subject]))
    | (j, W_Timeout) => (j, Err (Errorf "publish timeout for subject %s" [FStr subject]))
    end
  end.

(** [data, err := proto.Marshal(msg)], then the publish. *)
Definition marshalAndPublish (ctx : context) (subject : string) (m : ProtoMessage) (msgID : string) :
    M J () := λ j,
  match proto_Marshal m with
  | Err err => (j, Err err)
  | Ok data => publishProto ctx subject data msgID j
  end.

Definition publishEvent (ctx : context) (root : string) (ev : event) : M J () :=
  if bool_decide (ev_Type ev = "block_head") then
    marshalAndPublish ctx (root +:+ ".blocks.head") (PM_BlockHead (event_head ev)) (headMsgID ev)
  else if bool_decide (ev_Type ev = "tx_meta") then
    marshalAndPublish ctx (root +:+ ".tx.meta") (PM_TxMeta (event_meta ev)) (metaMsgID ev)
  else if bool_decide (ev_Type ev = "swap") then
    marshalAndPublish ctx (root +:+ "." +:+ programSegment (ev_ProgramID ev) +:+ ".swap")
      (PM_Swap (event_swap ev)) (swapReplayID ev)
  else if bool_decide (ev_Type ev = "candle") then
    marshalAndPublish ctx (candleReplaySubject root ev) (PM_Candle (event_candle ev))
      (candleReplayID ev)
  else M_throw (Errorf "unsupported event type %q" [FStr (ev_Type ev)]).

(** How the loop of [main] ends. *)
Inductive ending :=
  | Fatal_context (idx : nat)
  | Fatal_publish (idx : nat) (err : error)
  | Published (n : nat).

(** The sleep after an event, in nanoseconds, if any. *)
Definition eventDelay (publishDelay : Z) (ev : event) : list Z :=
  let delay := if ev_SleepMillis ev =? 0 then publishDelay else ev_SleepMillis ev in
  if 0 <? delay then [i64 (delay * Millisecond)] else [].

(** The loop of [main]: [expired idx] tells whether the context has ended before
    that event. The sleeps are returned. *)
Fixpoint replay (ctx : context) (root : string) (publishDelay : Z) (expired : nat → bool) (idx : nat)
    (events : list event) (j : J) : J * list Z * ending :=
  match events with
  | [] => (j, [], Published idx)
  | ev :: rest =>
    if expired idx then (j, [], Fatal_context idx)
    else
      match publishEvent ctx root ev j with
      | (j, Err err) => (j, [], Fatal_publish idx err)
      | (j, Ok _) =>
        let '(j, sleeps, e) := replay ctx root publishDelay expired (S idx) rest j in
        (j, eventDelay publishDelay ev ++ sleeps, e)
      end
  end.

(** ** Lemmas *)

(** The kind, subject and Msg-Id of an event. *)
Definition event_payload (root : string) (ev : event) : option (ProtoMessage * string * string) :=
  if bool_decide (ev_Type ev = "block_head") then
    Some (PM_BlockHead (event_head ev), root +:+ ".blocks.head", headMsgID ev)
  else if bool_decide (ev_Type ev = "tx_meta") then
    Some (PM_TxMeta (event_meta ev), root +:+ ".tx.meta", metaMsgID ev)
  else if bool_decide (ev_Type ev = "swap") then
    Some (PM_Swap (event_swap ev), root +:+ "." +:+ programSegment (ev_ProgramID ev) +:+ ".swap",
          swapReplayID ev)
  else if bool_decide (ev_Type ev = "candle") then
    Some (PM_Candle (event_candle ev), candleReplaySubject root ev, candleReplayID ev)
  else None.

Definition replayed (root : string) (ev : event) : option NatsMsg :=
  '(m, subject, msgID) ← event_payload root ev;
  match proto_Marshal m with Ok data => Some (natsMsg subject data msgID) | Err _ => None end.

Lemma publishEvent_sent ctx root ev j :
  match replayed root ev with
  | Some msg =>
    as_sent (publishEvent ctx root ev j).1 = as_sent j ++ [msg]
    ∨ as_sent (publishEvent ctx root ev j).1 = as_sent j ∧ is_ok (publishEvent ctx root ev j).2 = false
  | None => publishEvent ctx root ev j = (j, (publishEvent ctx root ev j).2)
            ∧ is_ok (publishEvent ctx root ev j).2 = false
  end.
Proof.
  assert (∀ subject m msgID,
    match proto_Marshal m with
    | Ok data => as_sent (marshalAndPublish ctx subject m msgID j).1
                 = as_sent j ++ [natsMsg subject data msgID]
        ∨ as_sent (marshalAndPublish ctx subject m msgID j).1 = as_sent j
          ∧ is_ok (marshalAndPublish ctx subject m msgID j).2 = false
    | Err err => marshalAndPublish ctx subject m msgID j = (j, Err err)
    end) as Hm.
  { intros subject m msgID. unfold marshalAndPublish, publishProto.
    destruct (proto_Marshal m) as [data|err]; [|done]. set (msg := natsMsg _ _ _).
    pose proof (as_sent_publish msg j) as Hs. destruct (js_PublishMsgAsync msg j) as [j1 [[]|err]];
      simpl in Hs; [|right; by rewrite app_nil_r in Hs].
    pose proof (as_sent_wait ctx j1) as Hw. left.
    by destruct (js_Wait ctx j1) as [j2 []]; simpl in *; rewrite Hw. }
  unfold replayed, event_payload, publishEvent.
  repeat case_bool_decide; cbn [mbind option_bind]; try done;
    match goal with |- context [marshalAndPublish ctx ?s ?m ?i j] => specialize (Hm s m i) end;
    destruct (proto_Marshal _); try done; by rewrite Hm.
Qed.
End replay.

(** ** [main] *)

(** [main]: the flags, the file, the connection and the loop. *)
Inductive replay_end := RE_Fatal (fmt : string) (err : error) | RE_Loop (e : ending).

Record replay_flags := mkReplayFlags {
  fl_input : string; fl_nats_url : string; fl_subject_root : string; fl_delay_ms : Z;
}.

Section replay_main.
Context (unicode_lower : Z → Z) {N J : Type} `{Nats N J, AsyncJetStream J, ProtoMarshal}.
Context (ReadFile : string → result (list byte)) (Unmarshal : list byte → result (list event)) (now : Z).

(** The JetStream context is given when there is one; [log.Fatalf] leaves the
    connection to the end of the process, the end of [main] drains it. *)
Definition replay_main (fl : replay_flags) (expired : nat → bool) (n : N) :
    N * option J * list Z * replay_end :=
  match ReadFile (fl_input fl) with
  | Err err => (n, None, [], RE_Fatal "failed to read input: %v" err)
  | Ok data =>
    match Unmarshal data with
    | Err err => (n, None, [], RE_Fatal "failed to decode fixture: %v" err)
    | Ok events =>
      match nats_Connect (fl_nats_url fl) None n with
      | (n, Err err) => (n, None, [], RE_Fatal "connect to nats: %v" err)
      | (n, Ok nc) =>
        match nats_JetStream nc n with
        | (n, Err err) => (n, None, [], RE_Fatal "jetstream context: %v" err)
        | (n, Ok js) =>
          let ctx := mkContext (Some (now + 30000 * Millisecond)) in
          let '(js, sleeps, e) :=
            replay unicode_lower ctx (fl_subject_root fl) (fl_delay_ms fl) expired 0 events js in
          (match e with Published _ => nats_Drain nc n | _ => n end, Some js, sleeps, RE_Loop e)
        end
      end
    end
  end.
End replay_main.

(** What was handed to JetStream: the messages of the events before the one that
    ended the run, and perhaps its own. *)
Section spec.
Context (unicode_lower : Z → Z) {J : Type} `{AsyncJetStream J, ProtoMarshal}.

Lemma replay_spec ctx root delay expired idx events j :
  let '(j', sleeps, e) := replay unicode_lower ctx root delay expired idx events j in
  match e with
  | Published n =>
    n = (idx + length events)%nat
    ∧ ∃ msgs, mapM (replayed unicode_lower root) events = Some msgs ∧ as_sent j' = as_sent j ++ msgs
  | Fatal_context i | Fatal_publish i _ =>
    (idx <= i < idx + length events)%nat
    ∧ ∃ msgs, mapM (replayed unicode_lower root) (take (i - idx) events) = Some msgs
      ∧ ∃ tail, as_sent j' = as_sent j ++ msgs ++ tail
        ∧ (tail = [] ∨ ∃ msg, (events !! (i - idx)%nat ≫= replayed unicode_lower root) = Some msg
                              ∧ tail = [msg])
  end.
Proof.
  revert idx j. induction events as [|ev rest IH]; intros idx j; cbn [replay].
  { simpl. split; [lia|]. exists []. by rewrite app_nil_r. }
  destruct (expired idx).
  { simpl. split; [lia|]. rewrite Nat.sub_diag. exists []. split; [done|]. exists [].
    rewrite !app_nil_r. auto. }
  pose proof (publishEvent_sent unicode_lower ctx root ev j) as Hs.
  destruct (publishEvent unicode_lower ctx root ev j) as [j1 [[]|err]]; simpl in Hs.
  - destruct (replayed unicode_lower root ev) as [msg|] eqn:Em; [|by destruct Hs].
    destruct Hs as [Hs|[_ ?]]; [|done]. specialize (IH (S idx) j1).
    assert (∀ i, (S idx <= i)%nat → (i - idx)%nat = S (i - S idx)) as Hi by lia.
    assert (∀ i t, (S idx <= i < S idx + length rest)%nat →
      (∃ msgs, mapM (replayed unicode_lower root) (take (i - S idx) rest) = Some msgs
       ∧ ∃ tail, as_sent t = as_sent j1 ++ msgs ++ tail
         ∧ (tail = [] ∨ ∃ msg, (rest !! (i - S idx)%nat ≫= replayed unicode_lower root) = Some msg
                               ∧ tail = [msg])) →
      (idx <= i < idx + length (ev :: rest))%nat
      ∧ ∃ msgs, mapM (replayed unicode_lower root) (take (i - idx) (ev :: rest)) = Some msgs
       ∧ ∃ tail, as_sent t = as_sent j ++ msgs ++ tail
         ∧ (tail = [] ∨ ∃ msg, ((ev :: rest) !! (i - idx)%nat ≫= replayed unicode_lower root) = Some msg
                               ∧ tail = [msg])) as Hstep.
    { intros i t Hr (msgs & Hm & tail & Ht & Hc). split; [simpl; lia|]. rewrite Hi by lia.
      exists (msg :: msgs). simpl. rewrite Em, Hm. split; [done|]. exists tail.
      split; [by rewrite Ht, Hs, <- app_assoc|done]. }
    destruct (replay _ _ _ _ _ _ rest j1) as [[j2 sleeps] [i|i err|n]].
    + destruct IH as [Hr Hm]. by apply Hstep.
    + destruct IH as [Hr Hm]. by apply Hstep.
    + destruct IH as (-> & msgs & Hm & Ht). split; [simpl; lia|]. exists (msg :: msgs). simpl.
      rewrite Em, Hm. split; [done|]. by rewrite Ht, Hs, <- app_assoc.
  - split; [simpl; lia|]. rewrite Nat.sub_diag. exists []. split; [done|]. simpl.
    destruct (replayed unicode_lower root ev) as [msg|]; cycle 1.
    { destruct Hs as [[= ->] _]. exists []. rewrite app_nil_r. auto. }
    destruct Hs as [Hs|[Hs _]]; [exists [msg]|exists []]; rewrite Hs, ?app_nil_r; eauto.
Qed.

(** What the table should hold of a fixture, from its fields alone. The time of a slot
    after some events: that of the last block head of the slot that has one, unless
    it is dead. *)
Definition fixture_time (before : list event) (slot : Z) : Z :=
  match last (filter (λ ev, ev_Type ev = "block_head" ∧ ev_Slot ev = slot ∧ ev_Timestamp ev ≠ zero_time) before) with
  | Some ev => if bool_decide (ToLower unicode_lower (ev_Status ev) = "dead") then zero_time else ev_Timestamp ev
  | None => zero_time
  end.

(** The row of a swap of the fixture; [0] stands for the chain of Solana and a missing
    flag for true; the columns of the chain, the decimals and the fee are narrower
    than the fields. *)
Definition fixture_row (time : Z) (ev : event) : Trade := {|
  tr_ChainID := if bool_decide (ev_ChainID ev = 0) then 501 else ev_ChainID ev mod 65536;
  tr_Slot := ev_Slot ev; tr_Timestamp := time;
  tr_Signature := ev_Signature ev; tr_Index := ev_Index ev; tr_ProgramID := ev_ProgramID ev;
  tr_PoolID := ev_PoolID ev; tr_MintBase := ev_MintBase ev; tr_MintQuote := ev_MintQuote ev;
  tr_DecBase := ev_DecBase ev mod 256; tr_DecQuote := ev_DecQuote ev mod 256;
  tr_BaseIn := ev_BaseIn ev; tr_BaseOut := ev_BaseOut ev;
  tr_QuoteIn := ev_QuoteIn ev; tr_QuoteOut := ev_QuoteOut ev; tr_PriceQ32 := 0;
  tr_ReservesBase := ev_ReservesBase ev; tr_ReservesQuote := ev_ReservesQuote ev;
  tr_FeeBps := ev_FeeBps ev mod 65536;
  tr_Provisional := match ev_Provisional ev with Some b => b | None => true end;
  tr_IsUndo := ev_IsUndo ev;
|}.

Fixpoint fixture_rows (before events : list event) : list Trade :=
  match events with
  | [] => []
  | ev :: rest =>
    (if bool_decide (ev_Type ev = "swap") then [fixture_row (fixture_time before (ev_Slot ev)) ev] else [])
    ++ fixture_rows (before ++ [ev]) rest
  end.

(** The sink makes these rows of the messages. *)
Lemma swapTrade_fixture time ev : swapTrade time (event_swap ev) = fixture_row time ev.
Proof.
  unfold swapTrade, fixture_row, event_swap, eventChainID. simpl. f_equal.
  destruct (Z.eqb_spec (ev_ChainID ev) 0) as [->|Hne].
  - by rewrite bool_decide_eq_true_2.
  - by rewrite bool_decide_eq_false_2.
Qed.

Lemma i64_u64 z : is_i64 z → i64 (u64 z) = z.
Proof.
  intros Hz. rewrite <- (i64_small z Hz) at 2. unfold i64, u64. f_equal.
  by rewrite Zplus_mod_idemp_l.
Qed.

Definition heads_of (events : list event) : list BlockHead :=
  event_head <$> filter (λ ev, ev_Type ev = "block_head") events.

Lemma head_time_fixture before slot :
  Forall (λ ev, is_i64 (ev_Timestamp ev)) before →
  default zero_time (head_time unicode_lower (heads_of before) slot) = fixture_time before slot.
Proof.
  intros Hb. unfold head_time, fixture_time, heads_of.
  assert (filter (λ h, bh_Slot h = slot ∧ i64 (bh_TsSec h) ≠ zero_time)
      (event_head <$> filter (λ ev, ev_Type ev = "block_head") before)
    = event_head <$> filter (λ ev, ev_Type ev = "block_head" ∧ ev_Slot ev = slot ∧ ev_Timestamp ev ≠ zero_time)
        before) as ->.
  { induction Hb as [|ev before Hev _ IH]; [done|]. rewrite !filter_cons.
    destruct (decide (ev_Type ev = "block_head")) as [Ht|Ht].
    - cbn [fmap list_fmap]. rewrite filter_cons, IH. cbn [event_head bh_Slot bh_TsSec].
      rewrite i64_u64 by done. repeat case_decide; naive_solver.
    - rewrite IH, decide_False by naive_solver. done. }
  rewrite fmap_last. pose proof (last_Some_elem_of (filter (λ ev, ev_Type ev = "block_head" ∧ ev_Slot ev = slot
    ∧ ev_Timestamp ev ≠ zero_time) before)) as Hin.
  destruct (last _) as [ev|]; [|done]. specialize (Hin ev eq_refl). apply list_elem_of_filter in Hin as [_ Hin].
  rewrite Forall_forall in Hb. cbn [event_head bh_Status bh_TsSec fmap option_fmap option_map].
  rewrite i64_u64 by by apply Hb. by case_bool_decide.
Qed.
End spec.

(** *** What the ClickHouse sink sees of a replayed event *)

Section seen.
Context (unicode_lower : Z → Z) `{ProtoUnmarshal}.

Lemma replayed_seen root ev msg :
  ev_Type ev ≠ "candle" → replayed unicode_lower root ev = Some msg →
  msg_swap msg = (if bool_decide (ev_Type ev = "swap") then Some (event_swap ev) else None)
  ∧ msg_head msg = (if bool_decide (ev_Type ev = "block_head") then Some (event_head ev) else None).
Proof.
  intros Hc. unfold replayed, event_payload.
  repeat case_bool_decide; try congruence; try done; cbn [mbind option_bind];
    destruct (proto_Marshal _) as [data|] eqn:Hd; try done; intros [= <-].
  - unfold msg_swap, msg_head. cbn [nm_Subject nm_Data natsMsg].
    by rewrite HasSuffix_head_swap, HasSuffix_head, (Unmarshal_Marshal_BlockHead _ _ Hd).
  - unfold msg_swap, msg_head. cbn [nm_Subject natsMsg].
    by rewrite !(HasSuffix_last _ ".tx.meta") by done.
  - unfold msg_swap, msg_head. cbn [nm_Subject nm_Data natsMsg].
    by rewrite <- !app_str_assoc, HasSuffix_swap, (Unmarshal_Marshal_Swap _ _ Hd).
Qed.

Lemma fixture_rows_of root before events msgs :
  Forall (λ ev, ev_Type ev ≠ "candle") events → Forall (λ ev, is_i64 (ev_Timestamp ev)) (before ++ events) →
  mapM (replayed unicode_lower root) events = Some msgs →
  rows_of unicode_lower (heads_of before) msgs = fixture_rows unicode_lower before events.
Proof.
  intros Hc. revert before msgs. induction Hc as [|ev events Hev _ IH]; intros before msgs Ht.
  { by intros [= <-]. }
  simpl. intros Hm. apply bind_Some in Hm as (msg & Hmsg & Hm).
  apply bind_Some in Hm as (ms & Hms & [= <-]). simpl.
  destruct (replayed_seen root ev msg Hev Hmsg) as [-> ->].
  pose proof Ht as [Hb _]%Forall_app. rewrite cons_middle, app_assoc in Ht. rewrite <- (IH _ _ Ht Hms).
  unfold heads_of. rewrite filter_app, fmap_app, filter_cons, filter_nil. fold (heads_of before).
  repeat case_bool_decide; repeat case_decide; try congruence; simpl; rewrite ?app_nil_r; try done.
  by rewrite swapTrade_fixture, (head_time_fixture unicode_lower before).
Qed.
End seen.

(** *** The Msg-Ids *)

Lemma swapReplayID_bytes ev :
  bytes (swapReplayID ev) = bytes (pretty (eventChainID ev)) ++ colon :: bytes (pretty (ev_Slot ev))
  ++ colon :: bytes (ev_Signature ev) ++ colon :: bytes (pretty (ev_Index ev))
  ++ colon :: bytes (format_bool (default true (ev_Provisional ev)))
  ++ colon :: bytes (format_bool (ev_IsUndo ev)).
Proof. unfold swapReplayID. by rewrite !bytes_app. Qed.

Lemma format_bool_colon b : colon ∉ bytes (format_bool b).
Proof. destruct b; apply (bool_decide_unpack _); vm_compute; exact I. Qed.

(** ** Properties *)

Section table.
Context (unicode_lower : Z → Z) {N J : Type} `{Nats N J, AsyncJetStream J, ProtoUnmarshal}.
Context `{ChProto} {D : Type} `{!ChClient D}.
Context (ReadFile : string → result (list byte)) (Unmarshal : list byte → result (list event)) (now : Z).
#[local] Existing Instance Writer_TradeWriter.

(** C30. Fixture to table. When the tool ends having published its file, which
    decodes to a fixture without candles, and a ClickHouse sink has handled exactly
    the messages it handed to JetStream, in order, the rows the sink stored or holds
    are the [fixture_row]s of the swaps of the fixture, each once and in order: every
    field that of the fixture, the chain and the fee cut to 16 bits and the decimals
    to 8, at the time of the last live block head of its slot before it in the
    fixture. *)
Theorem replay_rows fl expired (net net' : N) j' sleeps n events sctx cfg (client : D) rounds :
  (ReadFile (fl_input fl) ≫= Unmarshal) = Ok events → Forall (λ ev, ev_Type ev ≠ "candle") events →
  Forall (λ ev, is_i64 (ev_Timestamp ev)) events →
  (∀ nc net js, (nats_JetStream nc net).2 = Ok js → as_sent js = []) →
  replay_main unicode_lower ReadFile Unmarshal now fl expired net
  = (net', Some j', sleeps, RE_Loop (Published n)) →
  queries client = [] →
  let s := (ClickHouse.Run unicode_lower sctx rounds (newWriter cfg client)).1 in
  event_msg <$> ls_trace s = as_sent j' →
  n = length events
  ∧ ∃ log ts cs, represents (p_writer (ls_sink s)) log ts cs
    ∧ accepted_trades log ++ ts = fixture_rows unicode_lower [] events.
Proof.
  intros (data & Hread & Hdec)%bind_Ok Hc Htime Hnew Hr Hq s Hs. unfold replay_main in Hr. rewrite Hread, Hdec in Hr.
  destruct (nats_Connect _ _ net) as [net1 [nc|err]]; [|discriminate Hr].
  pose proof (Hnew nc net1) as Hj. destruct (nats_JetStream nc net1) as [net2 [js|err]]; [|discriminate Hr].
  specialize (Hj js eq_refl). set (ctx := mkContext _) in Hr.
  pose proof (replay_spec unicode_lower ctx (fl_subject_root fl) (fl_delay_ms fl) expired 0 events js) as Hspec.
  destruct (replay _ _ _ _ _ _ _ js) as [[j1 sl] e]. injection Hr as _ -> -> ->.
  destruct Hspec as (-> & msgs & Hm & Hsent). split; [done|].
  destruct (Run_rows unicode_lower sctx cfg client rounds Hq) as (log & ts & cs & Hrep & Hrows).
  exists log, ts, cs. split; [exact Hrep|].
  trans (rows_of unicode_lower [] (event_msg <$> ls_trace s)); [exact Hrows|].
  rewrite Hs, Hsent, Hj. by apply (fixture_rows_of unicode_lower (fl_subject_root fl) []).
Qed.
End table.

(** The Msg-Ids of replayed swaps hold the whole version: for signatures
    without a colon two of them agree exactly when the chain, the slot, the
    signature, the index and both flags do, so that the provisional, final and undo
    versions of a swap are different messages; and none is the Msg-Id that the
    publisher gives to a swap, so replaying what was ingested is not
    deduplicated. *)
Theorem replay_ids_versions ev1 ev2 e :
  free_of colon (ev_Signature ev1) → free_of colon (ev_Signature ev2) → free_of colon (sw_Sig e) →
  0 <= eventChainID ev1 → 0 <= eventChainID ev2 → 0 <= ev_Slot ev1 → 0 <= ev_Slot ev2 →
  0 <= ev_Index ev1 → 0 <= ev_Index ev2 → 0 <= sw_Slot e → 0 <= sw_Index e →
  (swapReplayID ev1 = swapReplayID ev2 ↔
   (eventChainID ev1, ev_Slot ev1, ev_Signature ev1, ev_Index ev1,
    sw_Provisional (event_swap ev1), ev_IsUndo ev1)
   = (eventChainID ev2, ev_Slot ev2, ev_Signature ev2, ev_Index ev2,
      sw_Provisional (event_swap ev2), ev_IsUndo ev2))
  ∧ swapReplayID ev1 ≠ swapMsgID e.
Proof.
  unfold free_of. intros Hf1 Hf2 Hfe Hc1 Hc2 Hs1 Hs2 Hi1 Hi2 Hse Hie.
  pose proof colon_not_501. pose proof free_colon_pretty. pose proof format_bool_colon.
  split; [split|].
  - intros E%(f_equal bytes). rewrite !swapReplayID_bytes in E.
    repeat (apply app_sep_inj in E as [? E]; [|auto..]).
    repeat match goal with Hb : bytes _ = bytes _ |- _ => apply bytes_inj in Hb end.
    apply format_bool_inj in E.
    repeat match goal with Hb : format_bool _ = format_bool _ |- _ => apply format_bool_inj in Hb end.
    repeat match goal with Hb : pretty _ = pretty _ |- _ => apply pretty_inj in Hb; [|done..] end.
    simpl. congruence.
  - intros [= E1 E2 E3 E4 E5 E6]. unfold swapReplayID. simpl in E5. by rewrite E1, E2, E3, E4, E5, E6.
  - intros E%(f_equal bytes). rewrite swapReplayID_bytes, swapMsgID_bytes in E.
    do 3 (apply app_sep_inj in E as [_ E]; [|auto..]). by apply app_sep_not_free in E; auto.
Qed.

(** ** Witnesses *)

(** A bus that takes everything. *)
Definition TestBus : Type := list NatsMsg.
#[local] Program Instance TestBus_JetStream : AsyncJetStream TestBus := {|
  js_PublishMsgAsync msg j := (j ++ [msg], Ok tt);
  js_Wait _ j := (j, W_Complete);
  as_sent := id;
|}.
Next Obligation. done. Qed.
Next Obligation. done. Qed.

(** An event of a fixture: the fields of the other kinds are left out. *)
Definition fixture_event (kind sig : string) (idx : Z) (provisional : option bool) : event :=
  mkEvent kind 7 0 1700000000 "confirmed" sig idx "prog" "pool" "" "A" "B" 9 6 10 0 0 25 100 200 30
    provisional false None None [] "" 0 0 0 0 0 0 0 0 0.
Definition fixture : list event :=
  [fixture_event "block_head" "" 0 None; fixture_event "tx_meta" "s1" 0 None;
   fixture_event "swap" "s1" 0 None; fixture_event "swap" "s1" 0 (Some false)].

Section witnesses.
#[local] Existing Instance Z_ChProto.
#[local] Existing Instance Writer_TradeWriter.
#[local] Instance fixture_client : ChClient (TestClient (H:=Z_ChProto)) := TestClient_ChClient (λ _, true).
Definition fixture_swaps : list SwapEvent :=
  event_swap <$> filter (λ ev, ev_Type ev = "swap") fixture.
Definition fixture_heads : list BlockHead := [mkBlockHead 501 7 1700000000 "confirmed"].
#[local] Instance fixture_marshal : ProtoMarshal := Sample_ProtoMarshal fixture_swaps fixture_heads [].
#[local] Instance fixture_unmarshal : ProtoUnmarshal := Sample_ProtoUnmarshal fixture_swaps fixture_heads [].

Definition replay_conns : Type := gset nat.
#[local] Program Instance replay_nats : Nats replay_conns TestBus := {|
  nats_Connect _ _ conns := ({[fresh conns]} ∪ conns, Ok (fresh conns));
  nats_JetStream _ conns := (conns, Ok []);
  nats_PullSubscribe _ _ _ _ conns := (conns, Ok tt);
  nats_Close c conns := conns ∖ {[c]};
  nats_Drain c conns := conns ∖ {[c]};
  open_conns conns := conns;
|}.
Next Obligation. intros url name conns. simpl. split; [apply is_fresh|done]. Qed.
Next Obligation. done. Qed.
Next Obligation. done. Qed.
Next Obligation. done. Qed.
Next Obligation. set_solver. Qed.

Definition fixture_flags : replay_flags := mkReplayFlags "fixture.json" "nats://t" "dex.sol" 1000.
Definition fixture_main : replay_conns * option TestBus * list Z * replay_end :=
  replay_main id (λ _, Ok []) (λ _, Ok fixture) 0 fixture_flags (λ _, false) ∅.
Definition fixture_sent : TestBus := default [] fixture_main.1.1.2.
Definition fixture_rounds : list round :=
  [mkRound Poll_Default (Ok fixture_sent); mkRound (Poll_Done (Sentinel "context.Canceled")) (Ok [])].

Lemma fixture_handled :
  event_msg <$> ls_trace (ClickHouse.Run id Background fixture_rounds
    (newWriter ClickHouse.example_config ([] : TestClient))).1
  = as_sent fixture_sent.
Proof. vm_compute. reflexivity. Qed.

Lemma replay_rows_witness :
  nm_Subject <$> fixture_sent =
    ["dex.sol.blocks.head"; "dex.sol.tx.meta"; "dex.sol.prog.swap"; "dex.sol.prog.swap"]
  ∧ (∃ log ts cs, represents (p_writer (ls_sink (ClickHouse.Run id Background fixture_rounds
      (newWriter ClickHouse.example_config ([] : TestClient))).1)) log ts cs
    ∧ accepted_trades log ++ ts = fixture_rows id [] fixture)
  ∧ (λ t, (tr_Timestamp t, tr_FeeBps t, tr_Provisional t)) <$> fixture_rows id [] fixture
    = [(1700000000, 30, true); (1700000000, 30, false)].
Proof.
  split; [vm_compute; reflexivity|]. split; [|vm_compute; reflexivity].
  destruct (replay_rows (N:=replay_conns) (J:=TestBus) (D:=TestClient) id (λ _, Ok []) (λ _, Ok fixture) 0
    fixture_flags (λ _, false) ∅ fixture_main.1.1.1 fixture_sent fixture_main.1.2 4 fixture Background
    ClickHouse.example_config [] fixture_rounds) as [_ Hrows].
  - reflexivity.
  - repeat constructor; discriminate.
  - repeat constructor; vm_compute; congruence.
  - intros nc net js [= <-]. reflexivity.
  - vm_compute. reflexivity.
  - reflexivity.
  - exact fixture_handled.
  - exact Hrows.
Defined.
End witnesses.

Lemma replay_ids_versions_witness :
  swapReplayID (fixture_event "swap" "s1" 0 None) ≠ swapReplayID (fixture_event "swap" "s1" 0 (Some false))
  ∧ swapReplayID (fixture_event "swap" "s1" 0 None) = "501:7:s1:0:true:false".
Proof.
  split; [|vm_compute; reflexivity]. intros E.
  destruct (replay_ids_versions (fixture_event "swap" "s1" 0 None)
    (fixture_event "swap" "s1" 0 (Some false)) (ClickHouse.example_swap "s1")) as [[Hv _] _];
    [first [apply (bool_decide_unpack _); vm_compute; exact I | vm_compute; discriminate] .. |].
  discriminate (Hv E).
Defined.
