(* ===== verification/ParquetInspect.v ===== *)
(** * Parquet inspector

    [cmd/tools/parquetinspect/main.go]: counts what is suspicious in the rows of
    Parquet files, such as those of the Parquet sink. Its [candleRow] is the
    struct of [sinks/parquet/writer.go], field by field, with the same tags. The
    pattern expansion, the files and their reader are arguments: a file is the
    error of opening it or what the calls of [reader.Read] return, one after the
    other. [log.Fatalf] ends the run with its message, and the printed JSON is the
    summary returned. *)

From S2P Require Import Prelude GoStrings Bytes Proto Publisher Sink Parquet.
From Stdlib Require Import Ascii.
Local Open Scope list_scope.

Record summary := mkSummary {
  TotalRows : Z;
  EmptyTimeframe : Z;
  EmptyScope : Z;
  InvalidScope : Z;
  MissingWindowStart : Z;
  NegativeTrades : Z;
  UniqueTimeframes : list string;
  UniqueScopes : list string;
}.
Definition zeroSummary : summary := mkSummary 0 0 0 0 0 0 [] [].

(** The summary and the two sets, which the calls share. *)
Record inspection := mkInspection {
  sum : summary;
  timeframeSet : gmap string ();
  scopeSet : gmap string ();
}.

(** [n++] under a condition. *)
Definition bump (b : bool) (n : Z) : Z := if b then i64 (n + 1) else n.

Definition processRow (row : candleRow) (st : inspection) : inspection :=
  let s := sum st in
  let noTimeframe := bool_decide (cr_Timeframe row = "") in
  let noScope := bool_decide (cr_Scope row = "") in
  let unknownScope := bool_decide (cr_Scope row ≠ "pair") && bool_decide (cr_Scope row ≠ "pool") in
  mkInspection
    (mkSummary (i64 (TotalRows s + 1))
       (bump noTimeframe (EmptyTimeframe s))
       (bump noScope (EmptyScope s))
       (bump (negb noScope && unknownScope) (InvalidScope s))
       (bump (cr_WindowStart row <=? 0) (MissingWindowStart s))
       (bump (cr_Trades row <? 0) (NegativeTrades s))
       (UniqueTimeframes s) (UniqueScopes s))
    (if noTimeframe then timeframeSet st else <[cr_Timeframe row := tt]> (timeframeSet st))
    (if noScope then scopeSet st else <[cr_Scope row := tt]> (scopeSet st)).

(** One [reader.Read]: the rows it stored and its error. *)
Inductive read_end := Read_more | Read_EOF | Read_fail (err : error).
Definition read : Type := list candleRow * read_end.
Definition file : Type := result (list read).

(** [None] while the loop would still be reading. *)
Fixpoint readLoop (reads : list read) (st : inspection) : option (inspection * result ()) :=
  match reads with
  | [] => None
  | (rows, e) :: reads =>
    let st := foldl (λ st row, processRow row st) st rows in
    match e with
    | Read_more => readLoop reads st
    | Read_EOF => Some (st, Ok tt)
    | Read_fail err => Some (st, Err (Wrapf "read parquet rows: %w" [] err))
    end
  end.

Definition inspectFile (f : file) (st : inspection) : option (inspection * result ()) :=
  match f with
  | Err err => Some (st, Err (Wrapf "open file: %w" [] err))
  | Ok reads => readLoop reads st
  end.

(** What the run prints, or the [log.Fatalf] that ends it with the error it shows. *)
Inductive outcome :=
  | Printed (s : summary)
  | Fatalf (fmt : string) (args : list fmtarg) (cause : option error).

Section main.
Context `{!RangeOrder string ()}.

(** A nil slice is the empty list. *)
Definition toSortedSlice (set : gmap string ()) : list string :=
  if decide (size set = 0)%nat then [] else sort_Strings (range_entries set).*1.

(** The loop over the files: the inspection, or the file that ended the run. *)
Fixpoint inspectFiles (open : string → file) (files : list string) (st : inspection) :
    option (inspection + string * error) :=
  match files with
  | [] => Some (inl st)
  | path :: files =>
    '(st, r) ← inspectFile (open path) st;
    match r with
    | Err err => Some (inr (path, err))
    | Ok _ => inspectFiles open files st
    end
  end.

(** [main] with the flag, [filepath.Glob] and the files. *)
Definition main (pattern : string) (glob : string → result (list string)) (open : string → file) :
    option outcome :=
  if bool_decide (pattern = "") then Some (Fatalf "pattern is required" [] None)
  else match glob pattern with
  | Err err => Some (Fatalf "glob parquet files: %v" [] (Some err))
  | Ok files =>
    if decide (length files = 0)%nat then
      Some (Fatalf "no parquet files match pattern %s" [FStr pattern] None)
    else
      r ← inspectFiles open files (mkInspection zeroSummary ∅ ∅);
      match r with
      | inr (path, err) => Some (Fatalf "inspect %s: %v" [FStr path] (Some err))
      | inl st =>
        let s := sum st in
        Some (Printed (mkSummary (TotalRows s) (EmptyTimeframe s) (EmptyScope s) (InvalidScope s)
          (MissingWindowStart s) (NegativeTrades s)
          (toSortedSlice (timeframeSet st)) (toSortedSlice (scopeSet st))))
      end
  end.
End main.

(** ** The summary of a list of rows *)

Definition counted (P : candleRow → bool) (rows : list candleRow) : Z :=
  i64 (zlen (filter (λ r, P r = true) rows)).
Definition no_timeframe (r : candleRow) : bool := bool_decide (cr_Timeframe r = "").
Definition no_scope (r : candleRow) : bool := bool_decide (cr_Scope r = "").
Definition bad_scope (r : candleRow) : bool :=
  negb (no_scope r) && (bool_decide (cr_Scope r ≠ "pair") && bool_decide (cr_Scope r ≠ "pool")).
Definition no_start (r : candleRow) : bool := cr_WindowStart r <=? 0.
Definition negative_trades (r : candleRow) : bool := cr_Trades r <? 0.

(** The distinct non-empty values, sorted. *)
Definition distinct (l : list string) : list string :=
  sort_Strings (remove_dups (filter (λ x, x ≠ "") l)).

Definition summary_of (rows : list candleRow) : summary :=
  mkSummary (i64 (zlen rows)) (counted no_timeframe rows) (counted no_scope rows)
    (counted bad_scope rows) (counted no_start rows) (counted negative_trades rows)
    (distinct (cr_Timeframe <$> rows)) (distinct (cr_Scope <$> rows)).

Lemma counted_app P r rows : counted P (rows ++ [r]) = bump (P r) (counted P rows).
Proof.
  unfold counted, bump, zlen. rewrite filter_app, filter_cons, filter_nil, length_app, Nat2Z.inj_add.
  destruct (P r) eqn:E.
  - rewrite decide_True by done. by rewrite i64_succ.
  - rewrite decide_False by congruence. by rewrite Z.add_0_r.
Qed.

(** The set that the loop builds holds the non-empty values. *)
Definition collects (m : gmap string ()) (l : list string) : Prop :=
  ∀ x, is_Some (m !! x) ↔ x ∈ l ∧ x ≠ "".

Lemma collects_app m l x :
  collects m l →
  collects (if bool_decide (x = "") then m else <[x := tt]> m) (l ++ [x]).
Proof.
  intros Hm y. rewrite elem_of_app, list_elem_of_singleton. case_bool_decide as Hx.
  - rewrite (Hm y). naive_solver.
  - destruct (decide (x = y)) as [->|Hne].
    + rewrite lookup_insert_eq. split; [|eauto]. intros _. split; [by right|done].
    + rewrite lookup_insert_ne, (Hm y) by done. naive_solver.
Qed.

Lemma toSortedSlice_distinct `{!RangeOrder string ()} m l :
  collects m l → toSortedSlice m = distinct l.
Proof.
  intros Hm. assert ((range_entries m).*1 ≡ₚ remove_dups (filter (λ x, x ≠ "") l)) as Hp.
  { apply NoDup_Permutation; [apply NoDup_range_entries|apply NoDup_remove_dups|].
    intros x. rewrite elem_of_remove_dups, list_elem_of_filter, list_elem_of_fmap. split.
    - intros ([k []] & -> & Hin%elem_of_range_entries). simpl.
      destruct (proj1 (Hm k)) as [? ?]; [by eexists|done].
    - intros [Hne Hin]. destruct (proj2 (Hm x) (conj Hin Hne)) as [[] Hx].
      exists (x, tt). split; [done|by apply elem_of_range_entries]. }
  unfold toSortedSlice, distinct. case_decide as Hs.
  - apply map_size_empty_iff in Hs as ->. rewrite range_entries_perm, map_to_list_empty in Hp. simpl in Hp.
    symmetry. apply sort_Strings_unique; [constructor|by rewrite <- Hp].
  - apply sort_Strings_unique; [apply sort_Strings_sorted|]. by rewrite sort_Strings_perm.
Qed.

(** The state after [rows]; the two lists are filled in by [main]. *)
Definition inspected (rows : list candleRow) (st : inspection) : Prop :=
  (let s := summary_of rows in
   sum st = mkSummary (TotalRows s) (EmptyTimeframe s) (EmptyScope s) (InvalidScope s)
              (MissingWindowStart s) (NegativeTrades s) [] [])
  ∧ collects (timeframeSet st) (cr_Timeframe <$> rows)
  ∧ collects (scopeSet st) (cr_Scope <$> rows).

Lemma inspected_row rows r st : inspected rows st → inspected (rows ++ [r]) (processRow r st).
Proof.
  intros (Hs & Ht & Hc). unfold inspected, processRow. rewrite !fmap_app. simpl.
  split; [|split; by apply collects_app]. rewrite Hs. simpl. rewrite !counted_app.
  f_equal. unfold zlen. by rewrite i64_succ, length_app, Nat2Z.inj_add.
Qed.

Lemma inspected_rows new rows st :
  inspected rows st → inspected (rows ++ new) (foldl (λ st row, processRow row st) st new).
Proof.
  revert rows st. induction new as [|r new IH]; intros rows st Hi; simpl.
  { by rewrite app_nil_r. }
  rewrite (cons_middle r rows new), app_assoc. by apply IH, inspected_row.
Qed.

(** The rows of a file that is read to its end. *)
Fixpoint complete (reads : list read) : option (list candleRow) :=
  match reads with
  | [] => None
  | (rows, Read_more) :: reads => rest ← complete reads; Some (rows ++ rest)
  | (rows, Read_EOF) :: _ => Some rows
  | (rows, Read_fail _) :: _ => None
  end.

Lemma readLoop_complete reads new rows st :
  complete reads = Some new → inspected rows st →
  ∃ st', readLoop reads st = Some (st', Ok tt) ∧ inspected (rows ++ new) st'.
Proof.
  revert new rows st. induction reads as [|[chunk e] reads IH]; intros new rows st; [done|].
  simpl. intros Hc Hi. apply (inspected_rows chunk) in Hi. destruct e as [| |err]; [| |done].
  - apply bind_Some in Hc as (rest & Hr & [= <-]). rewrite app_assoc. by apply IH.
  - injection Hc as <-. eauto.
Qed.

Section main_lemmas.
Context `{!RangeOrder string ()}.

(** The rows of a file that opens and is read to its end. *)
Definition contents (open : string → file) (path : string) : option (list candleRow) :=
  match open path with Ok reads => complete reads | Err _ => None end.
Definition readable (open : string → file) (path : string) (rows : list candleRow) : Prop :=
  contents open path = Some rows.

Lemma inspectFiles_complete open files chunks rows st :
  Forall2 (readable open) files chunks → inspected rows st →
  ∃ st', inspectFiles open files st = Some (inl st') ∧ inspected (rows ++ concat chunks) st'.
Proof.
  intros Hf. revert rows st. induction Hf as [|path chunk files chunks Hr _ IH]; intros rows st Hi; simpl.
  { rewrite app_nil_r. eauto. }
  unfold readable, contents in Hr. unfold inspectFile. destruct (open path) as [reads|] eqn:Ho; [|done].
  destruct (readLoop_complete _ _ _ _ Hr Hi) as (st1 & -> & Hi1). simpl. rewrite app_assoc. by apply IH.
Qed.

Lemma inspected_nil : inspected [] (mkInspection zeroSummary ∅ ∅).
Proof.
  split; [reflexivity|]. split; intros x; simpl; rewrite lookup_empty, elem_of_nil;
    (split; [by intros []|by intros [[] _]]).
Qed.

Lemma main_complete pattern glob open files chunks :
  pattern ≠ "" → glob pattern = Ok files → files ≠ [] → Forall2 (readable open) files chunks →
  main pattern glob open = Some (Printed (summary_of (concat chunks))).
Proof.
  intros Hp Hg Hne Hf. unfold main. rewrite bool_decide_eq_false_2, Hg by done.
  rewrite decide_False by (by destruct files).
  destruct (inspectFiles_complete open files chunks [] _ Hf inspected_nil) as (st & -> & Hs & Ht & Hc).
  simpl. rewrite Hs, (toSortedSlice_distinct _ _ Ht), (toSortedSlice_distinct _ _ Hc). done.
Qed.
End main_lemmas.

Lemma distinct_perm l l' : l ≡ₚ l' → distinct l = distinct l'.
Proof.
  intros Hp. unfold distinct. apply sort_Strings_unique; [apply sort_Strings_sorted|].
  rewrite sort_Strings_perm.
  apply NoDup_Permutation; [apply NoDup_remove_dups..|]. intros x.
  by rewrite !elem_of_remove_dups, !list_elem_of_filter, Hp.
Qed.
Lemma counted_perm P rows rows' : rows ≡ₚ rows' → counted P rows = counted P rows'.
Proof. intros Hp. unfold counted, zlen. by rewrite Hp. Qed.
Lemma summary_of_perm rows rows' : rows ≡ₚ rows' → summary_of rows = summary_of rows'.
Proof.
  intros Hp. unfold summary_of. f_equal; try (by apply counted_perm).
  - unfold zlen. by rewrite Hp.
  - apply distinct_perm. by rewrite Hp.
  - apply distinct_perm. by rewrite Hp.
Qed.

Lemma distinct_spec l :
  Sorted String.le (distinct l) ∧ NoDup (distinct l) ∧ ∀ x, x ∈ distinct l ↔ x ∈ l ∧ x ≠ "".
Proof.
  unfold distinct. split; [apply sort_Strings_sorted|]. rewrite sort_Strings_perm.
  split; [apply NoDup_remove_dups|]. intros x. rewrite sort_Strings_perm.
  rewrite elem_of_remove_dups, list_elem_of_filter. naive_solver.
Qed.

(** *** The objects of the Parquet sink *)

(** Lists agree up to order when they do on every value of [f]. *)
Lemma filters_perm {A K} `{EqDecision K} (f : A → K) (l l' : list A) :
  (∀ k, filter (λ x, f x = k) l ≡ₚ filter (λ x, f x = k) l') → l ≡ₚ l'.
Proof.
  revert l'. induction l as [|x l IH]; intros l' Hf.
  - destruct l' as [|y l']; [done|]. specialize (Hf (f y)).
    rewrite filter_cons_True in Hf by done. apply Permutation_nil_l in Hf. discriminate Hf.
  - assert (x ∈ l') as Hx.
    { pose proof (Hf (f x)) as Hx. rewrite filter_cons_True in Hx by done.
      assert (x ∈ filter (λ y, f y = f x) l') as Hin by (rewrite <- Hx; left).
      by apply list_elem_of_filter in Hin as [_ ?]. }
    apply elem_of_Permutation in Hx as [l1 Hl]. rewrite Hl. apply perm_skip, IH. intros k.
    specialize (Hf k). rewrite Hl, !filter_cons in Hf. destruct (decide (f x = k)); [|done].
    by apply Permutation_cons_inv in Hf.
Qed.

Definition row_key (r : candleRow) : string := bucketKey (cr_Timeframe r) (cr_Scope r).
Lemma keyed_row_key key r : keyed key r → row_key r = key.
Proof. by intros (c & -> & <-). Qed.

(** The rows of the accepted uploads. *)
Definition accepted_rows (log : list (string * list candleRow * bool)) : list candleRow :=
  concat ((λ e : string * list candleRow * bool, e.1.2) <$> filter (λ e, e.2 = true) log).

Lemma filter_keyed key l : Forall (keyed key) l → filter (λ r, row_key r = key) l = l.
Proof.
  intros Hl. apply list_filter_all. eapply Forall_impl; [exact Hl|]. apply keyed_row_key.
Qed.
Lemma filter_not_keyed k key l :
  k ≠ key → Forall (keyed k) l → filter (λ r, row_key r = key) l = [].
Proof.
  intros Hne Hl. apply list_filter_none. eapply Forall_impl; [exact Hl|].
  by intros r ->%keyed_row_key.
Qed.

Lemma accepted_filter log key :
  Forall (λ e, e.1.2 ≠ [] ∧ Forall (keyed e.1.1) e.1.2) log →
  accepted key log = filter (λ r, row_key r = key) (accepted_rows log).
Proof.
  induction 1 as [|[[k rows] ok] log [_ Hk] _ IH]; [done|]. rewrite accepted_cons, IH.
  unfold accepted_rows. rewrite filter_cons. simpl in *. destruct ok; simpl.
  - rewrite filter_app. f_equal. case_decide as Hd; subst.
    + by rewrite filter_keyed.
    + by rewrite (filter_not_keyed k key).
  - done.
Qed.

Lemma rows_for_filter key candles :
  rows_for key candles = filter (λ r, row_key r = key) (candle_row <$> candles).
Proof.
  unfold rows_for. induction candles as [|c candles IH]; [done|]. rewrite fmap_cons, !filter_cons.
  change (row_key (candle_row c)) with (candle_key c). case_decide; [|done]. by rewrite fmap_cons, IH.
Qed.

(** When no row is left in memory, the accepted rows are those of the candles. *)
Lemma accepted_rows_all log candles :
  Forall (λ e, e.1.2 ≠ [] ∧ Forall (keyed e.1.1) e.1.2) log →
  (∀ key, accepted key log = rows_for key candles) →
  accepted_rows log ≡ₚ candle_row <$> candles.
Proof.
  intros Hf Ha. apply (filters_perm row_key). intros key.
  by rewrite <- accepted_filter, Ha, rows_for_filter.
Qed.

Lemma counted_none P rows : Forall (λ r, P r = false) rows → counted P rows = 0.
Proof.
  unfold counted. induction 1 as [|r rows Hr _ IH]; [done|].
  rewrite filter_cons_False by congruence. exact IH.
Qed.

(** No row of the sink is without timeframe or scope, or of an unknown scope. *)
Lemma candle_row_sound c :
  no_timeframe (candle_row c) = false ∧ no_scope (candle_row c) = false
  ∧ bad_scope (candle_row c) = false.
Proof.
  unfold no_timeframe, bad_scope, no_scope. simpl.
  assert (candleTimeframe c ≠ "") as Ht.
  { unfold candleTimeframe. case_bool_decide; [discriminate|done]. }
  rewrite bool_decide_eq_false_2 by done. by destruct (candleScope_is c) as [-> | ->].
Qed.
Lemma counted_fmap (P : candleRow → bool) (Q : Candle → Prop) `{∀ c, Decision (Q c)} candles :
  (∀ c, P (candle_row c) = true ↔ Q c) →
  counted P (candle_row <$> candles) = i64 (zlen (filter Q candles)).
Proof.
  intros HPQ. unfold counted. do 2 f_equal.
  induction candles as [|c candles IH]; [done|]. rewrite fmap_cons, !filter_cons.
  destruct (decide (Q c)) as [HQ|HQ]; rewrite <- HPQ in HQ.
  - rewrite decide_True by done. unfold zlen in *. simpl length. lia.
  - by rewrite decide_False.
Qed.
Lemma counted_candles P candles :
  (∀ c, P (candle_row c) = false) → counted P (candle_row <$> candles) = 0.
Proof. intros HP. apply counted_none, Forall_fmap, Forall_forall. intros c _. apply HP. Qed.

Lemma summary_of_candles candles :
  let s := summary_of (candle_row <$> candles) in
  TotalRows s = i64 (zlen candles)
  ∧ EmptyTimeframe s = 0 ∧ EmptyScope s = 0 ∧ InvalidScope s = 0
  ∧ (∀ x, x ∈ UniqueScopes s → x = "pair" ∨ x = "pool").
Proof.
  simpl. split; [unfold zlen; by rewrite length_fmap|].
  split_and!; try (apply counted_candles; intros c; apply candle_row_sound).
  intros x [Hin _]%distinct_spec. rewrite <- list_fmap_compose in Hin.
  apply list_elem_of_fmap in Hin as (c & -> & _). apply candleScope_is.
Qed.

Lemma Forall2_filter_ok cfg `{ParquetCodec} log (calls : list (UploadInput * bool)) :
  Forall2 (uploaded cfg) log calls →
  Forall2 (uploaded cfg) (filter (λ e, e.2 = true) log) (filter (λ c, c.2 = true) calls).
Proof.
  induction 1 as [|[[key rows] ok] [input b] log calls Hu _ IH]; [constructor|].
  pose proof Hu as (Hb & _). simpl in Hb. subst ok. rewrite !filter_cons. simpl. by destruct b; [constructor|].
Qed.

Lemma objects_rows cfg `{ParquetCodec} open log (calls : list (UploadInput * bool)) :
  Forall2 (uploaded cfg) log calls →
  Forall (λ o, contents open (up_Key o) = pq_read (up_Body o)) (fst <$> filter (λ c, c.2 = true) calls) →
  Forall2 (readable open) (up_Key <$> (fst <$> filter (λ c, c.2 = true) calls))
    ((λ e : string * list candleRow * bool, e.1.2) <$> filter (λ e, e.2 = true) log).
Proof.
  intros Hu%Forall2_filter_ok. rewrite Forall_fmap. intros Ho.
  rewrite <- list_fmap_compose. apply Forall2_fmap, Forall2_flip.
  revert Ho. induction Hu as [|[[key rows] ok] [input b] log' calls' Hu _ IH]; [constructor|].
  rewrite Forall_cons. intros [Ho Hos]. constructor; [|by apply IH].
  destruct Hu as (_ & Hread & _). unfold readable. simpl in *. by rewrite Ho.
Qed.

(** Reading the files in another order gives the same rows. *)
#[local] Instance concat_Permutation {A} : Proper ((≡ₚ) ==> (≡ₚ)) (@concat A).
Proof.
  intros l l'. induction 1 as [|x l l' _ IH|x y l|l1 l2 l3 _ IH1 _ IH2]; simpl.
  - done.
  - by rewrite IH.
  - by rewrite !app_assoc, (Permutation_app_comm y x).
  - by rewrite IH1.
Qed.

Lemma main_any_order `{!RangeOrder string ()} pattern glob open paths files chunks :
  pattern ≠ "" → glob pattern = Ok paths → files ≠ [] → paths ≡ₚ files →
  Forall2 (readable open) files chunks →
  main pattern glob open = Some (Printed (summary_of (concat chunks))).
Proof.
  intros Hp Hg Hne Hperm Hf.
  destruct (Permutation_Forall2 (symmetry Hperm) Hf) as (chunks' & Hc & Hf').
  rewrite (main_complete pattern glob open paths chunks' Hp Hg); [|..|done].
  - by rewrite (summary_of_perm (concat chunks') (concat chunks)) by by rewrite Hc.
  - intros ->. by apply Permutation_nil_l in Hperm.
Qed.

(** ** Properties *)

(** The summary. Whatever the sizes of the reads and the order in which the
    pattern lists the files: when every file opens and is read to its end, the run
    prints one summary, which depends on the rows only up to their order. Its
    counters are the numbers of rows with each defect, as 64-bit integers, and its
    two lists hold the non-empty values, each once and sorted. *)
Theorem inspect_summary `{!RangeOrder string ()} pattern glob open paths files chunks :
  pattern ≠ "" → glob pattern = Ok paths → files ≠ [] → paths ≡ₚ files →
  Forall2 (readable open) files chunks →
  let rows := concat chunks in
  ∃ s, main pattern glob open = Some (Printed s)
  ∧ TotalRows s = i64 (zlen rows)
  ∧ EmptyTimeframe s = i64 (zlen (filter (λ r, cr_Timeframe r = "") rows))
  ∧ EmptyScope s = i64 (zlen (filter (λ r, cr_Scope r = "") rows))
  ∧ InvalidScope s = i64 (zlen (filter (λ r, cr_Scope r ∉ [""; "pair"; "pool"]) rows))
  ∧ MissingWindowStart s = i64 (zlen (filter (λ r, cr_WindowStart r <= 0) rows))
  ∧ NegativeTrades s = i64 (zlen (filter (λ r, cr_Trades r < 0) rows))
  ∧ (Sorted String.le (UniqueTimeframes s) ∧ NoDup (UniqueTimeframes s)
     ∧ ∀ x, x ∈ UniqueTimeframes s ↔ x ≠ "" ∧ ∃ r, r ∈ rows ∧ cr_Timeframe r = x)
  ∧ (Sorted String.le (UniqueScopes s) ∧ NoDup (UniqueScopes s)
     ∧ ∀ x, x ∈ UniqueScopes s ↔ x ≠ "" ∧ ∃ r, r ∈ rows ∧ cr_Scope r = x).
Proof.
  intros Hp Hg Hne Hperm Hf rows. exists (summary_of rows).
  split; [by apply (main_any_order _ _ _ paths files)|].
  assert (∀ (P : candleRow → bool) (Q : candleRow → Prop) `{∀ r, Decision (Q r)},
    (∀ r, P r = true ↔ Q r) → counted P rows = i64 (zlen (filter Q rows))) as Hc.
  { intros P Q ? HPQ. unfold counted. by rewrite (list_filter_iff _ Q) by exact HPQ. }
  assert (∀ f : candleRow → string, let l := distinct (f <$> rows) in
    Sorted String.le l ∧ NoDup l ∧ ∀ x, x ∈ l ↔ x ≠ "" ∧ ∃ r, r ∈ rows ∧ f r = x) as Hd.
  { intros f l. destruct (distinct_spec (f <$> rows)) as (? & ? & Hl). split_and!; [done..|].
    intros x. unfold l. rewrite Hl, list_elem_of_fmap. naive_solver. }
  split_and!; [done| | | | | |apply Hd..]; apply Hc; intros r.
  - apply bool_decide_eq_true.
  - apply bool_decide_eq_true.
  - unfold bad_scope, no_scope. rewrite !andb_true_iff, negb_true_iff, bool_decide_eq_false,
      !bool_decide_eq_true, !not_elem_of_cons. pose proof (not_elem_of_nil (cr_Scope r)). tauto.
  - apply Z.leb_le.
  - apply Z.ltb_lt.
Qed.

Section sink.
Context `{ParquetCodec} {U : Type} `{S3World U} `{!RangeOrder string (list candleRow)}.
Context `{!RangeOrder string ()}.

(** C14. Auditing the sink. After any calls of the methods of a new writer, any
    refusals of the uploads, and a [Flush] that returns nil, inspect the accepted
    objects, each as a file under its name, listed in any order and read in pieces
    of any size. The summary counts exactly the candles the writer was given; no
    timeframe or scope is empty and no scope is unknown; a missing window start is
    a window start of zero or one beyond [int64], and negative trades are a trade
    count beyond [int32]. *)
Theorem inspect_uploads cfg (u : U) t ops ctx pattern glob open paths :
  uploads u = [] → let w := (Flush ctx (run_ops ops (mkWriter cfg ∅ u t))).1 in
  is_ok (Flush ctx (run_ops ops (mkWriter cfg ∅ u t))).2 = true →
  let objects := fst <$> filter (λ c, c.2 = true) (uploads (uploader w)) in
  pattern ≠ "" → glob pattern = Ok paths → objects ≠ [] → paths ≡ₚ up_Key <$> objects →
  Forall (λ o, contents open (up_Key o) = pq_read (up_Body o)) objects →
  let given := omap op_candle ops in
  ∃ s, main pattern glob open = Some (Printed s)
  ∧ TotalRows s = i64 (zlen given)
  ∧ EmptyTimeframe s = 0 ∧ EmptyScope s = 0 ∧ InvalidScope s = 0
  ∧ (∀ x, x ∈ UniqueScopes s → x = "pair" ∨ x = "pool")
  ∧ MissingWindowStart s = i64 (zlen (filter (λ c, i64 (cd_WindowStart c) <= 0) given))
  ∧ NegativeTrades s = i64 (zlen (filter (λ c, i32 (cd_Trades c) < 0) given)).
Proof.
  intros Hu w Hok objects Hp Hg Hne Hperm Ho given.
  destruct (run_ops_candles ops (mkWriter cfg ∅ u t) [] [] (kept_new cfg u t Hu)) as (log0 & Hk0 & Hc0).
  destruct (kept_flushLocked ctx _ log0 _ Hk0) as (log & (Hr & Hk & Hf) & Hc & He).
  unfold represents in Hr. rewrite Hc, Hc0 in Hr. simpl in Hr.
  exists (summary_of (candle_row <$> given)).
  assert (accepted_rows log ≡ₚ candle_row <$> given) as Hrows.
  { apply accepted_rows_all; [done|]. intros key. rewrite <- (app_nil_r (accepted key log)).
    rewrite <- (He Hok key). apply Hk. }
  split; [|by destruct (summary_of_candles given) as (? & ? & ? & ? & ?); split_and!; try done;
    apply counted_fmap; intros c; [apply Z.leb_le|apply Z.ltb_lt]].
  rewrite <- (summary_of_perm _ _ Hrows).
  apply (main_any_order _ _ _ paths (up_Key <$> objects)); [done..| |done|].
  - by destruct objects.
  - by apply (objects_rows cfg).
Qed.
End sink.

(** ** Witnesses *)

Section witnesses.
#[local] Existing Instance example_codec.
#[local] Existing Instance example_range.
#[local] Instance inspect_range : RangeOrder string () := map_to_list_order.
#[local] Instance inspect_world : S3World TestWorld := TestWorld_S3World (λ _, true).

(** Two files with a sound row and two bad ones, read one row at a time. *)
Definition bad_row : candleRow := mkCandleRow 501 "" "" "both" "" 0 true false 0 0 0 0 0 0 0 0 (-1).
Definition good_row : candleRow := candle_row (example_candle "p" "1m" 60).
Definition test_open (path : string) : file :=
  if bool_decide (path = "a") then Ok [([good_row], Read_more); ([bad_row], Read_EOF)]
  else Ok [([bad_row], Read_EOF)].

Lemma inspect_summary_witness :
  ∃ s, main "*.parquet" (λ _, Ok ["b"; "a"]) test_open = Some (Printed s)
  ∧ s = mkSummary 3 2 0 2 2 2 ["1m"] ["both"; "pool"] ∧ TotalRows s = 3.
Proof.
  destruct (inspect_summary "*.parquet" (λ _, Ok ["b"; "a"]) test_open ["b"; "a"] ["a"; "b"]
    [[good_row; bad_row]; [bad_row]]) as (s & Hm & Ht & _).
  - discriminate.
  - reflexivity.
  - discriminate.
  - apply perm_swap.
  - repeat constructor.
  - exists s. split; [exact Hm|]. split; [|exact Ht].
    assert (main "*.parquet" (λ _, Ok ["b"; "a"]) test_open
      = Some (Printed (mkSummary 3 2 0 2 2 2 ["1m"] ["both"; "pool"]))) as E by (vm_compute; reflexivity).
    rewrite Hm in E. by injection E as ->.
Defined.

(** The objects of the example of the sink. *)
Definition audited : Parquet.Writer TestWorld :=
  (Flush Background (run_ops example_ops (mkWriter Parquet.example_config ∅ ([], 0) 0))).1.
Definition audited_objects : list UploadInput :=
  fst <$> filter (λ c, c.2 = true) (uploads (uploader audited)).
Definition audited_open (path : string) : file :=
  match list_find (λ o, up_Key o = path) audited_objects with
  | Some (_, o) =>
    match pq_read (up_Body o) with
    | Some rows => Ok [(take 1 rows, Read_more); (drop 1 rows, Read_EOF)]
    | None => Err (Sentinel "parquet")
    end
  | None => Err (Sentinel "fs.ErrNotExist")
  end.

Lemma inspect_uploads_witness :
  length audited_objects = 2%nat
  ∧ ∃ s, main "dex/*" (λ _, Ok (reverse (up_Key <$> audited_objects))) audited_open = Some (Printed s)
    ∧ TotalRows s = 3 ∧ MissingWindowStart s = 0.
Proof.
  split; [vm_compute; reflexivity|].
  destruct (inspect_uploads Parquet.example_config ([], 0) 0 example_ops Background "dex/*"
    (λ _, Ok (reverse (up_Key <$> audited_objects))) audited_open
    (reverse (up_Key <$> audited_objects))) as (s & Hm & Ht & _ & _ & _ & _ & Hw & _).
  - reflexivity.
  - vm_compute. reflexivity.
  - discriminate.
  - reflexivity.
  - change (audited_objects ≠ []). vm_compute. discriminate.
  - apply reverse_Permutation.
  - apply (bool_decide_unpack _). vm_compute. exact I.
  - exists s. split; [exact Hm|]. split; [exact Ht|exact Hw].
Defined.
End witnesses.
