(* ===== verification/Demo.v ===== *)
(** * Geyser demonstration

    [cmd/ingestor/geyser-demo/main.go]: a process that prints what a subscription of
    the Geyser client of [Failover.v] delivers. What it prints is a list of [line]s;
    the parent that a slot line also shows is left out. *)

From S2P Require Import Prelude GoStrings Bytes Proto.
From S2P Require Import GeyserConfig Streams Failover Commands.
From Stdlib Require Import Ascii.
Local Open Scope list_scope.

Inductive line :=
  | Line_Slot (slot total : Z)
  | Line_Account (slot : Z) (pubkey owner : string)
  | Line_BlockMeta (slot blockTime : Z)
  | Line_Ping
  | Line_StreamError (err : error)
  | Line_UpdatesClosed
  | Line_ErrorsClosed
  | Line_Signal.

Definition truncateBase58 (pubkey : list byte) : string :=
  if decide (length pubkey = 0)%nat then "<empty>"
  else
    let s := format_hex pubkey in
    if decide (16 < slen s)%nat then str_take 8 s +:+ "..." +:+ str_drop (slen s - 8) s else s.

(** The [switch] on an update with [slotCount]; [None] is the panic of a nil
    message, which the fields, read without getters, do not survive. *)
Definition showUpdate (u : SubscribeUpdate) (slotCount : Z) : option (list line * Z) :=
  match u with
  | U_Slot slot =>
    slot ← slot;
    let slotCount := i64 (slotCount + 1) in
    Some ([Line_Slot (us_Slot slot) slotCount], slotCount)
  | U_Account account =>
    a ← account;
    info ← ua_Account a;
    Some ([Line_Account (ua_Slot a) (truncateBase58 (ai_Pubkey info)) (truncateBase58 (ai_Owner info))],
          slotCount)
  | U_BlockMeta meta =>
    m ← meta;
    t ← bm_BlockTime m;
    Some ([Line_BlockMeta (bm_Slot m) t], slotCount)
  | U_Ping => Some ([Line_Ping], slotCount)
  | U_Transaction _ | U_Block _ | U_Other => Some ([], slotCount)
  end.

Definition print (ls : list line) (r : list line * process) : list line * process := (ls ++ r.1, r.2).

(** The loop; a closed channel gives nil, and [P_Done] is a signal. *)
Fixpoint demoLoop (picks : list pick) (sb : subscription) (slotCount : Z) : list line * process :=
  match picks with
  | [] => ([], Running)
  | P_Done :: _ => ([Line_Signal], Stopped)
  | P_Err :: picks =>
    match sb_errs sb with
    | err :: errs =>
      print [Line_StreamError err] (demoLoop picks (mkSubscription (sb_updates sb) errs (sb_closed sb) (sb_panics sb)) slotCount)
    | [] => if sb_closed sb then ([Line_ErrorsClosed], Stopped) else demoLoop picks sb slotCount
    end
  | P_Update :: picks =>
    match sb_updates sb with
    | update :: updates =>
      match showUpdate update slotCount with
      | None => ([], Panic)
      | Some (ls, slotCount) =>
        print ls (demoLoop picks (mkSubscription updates (sb_errs sb) (sb_closed sb) (sb_panics sb)) slotCount)
      end
    | [] => if sb_closed sb then ([Line_UpdatesClosed], Stopped) else demoLoop picks sb slotCount
    end
  end.

Section demo.
Context {N : Type} `{Grpc N, !RangeOrder string string}.

Definition demoConfig (env : string → string) : GeyserConfig.Config :=
  GeyserConfig.mkConfig (env "GEYSER_ENDPOINT") (env "GEYSER_API_KEY")
    {["raydium_amm" := "675kPX9MHTjS2zt1qfr1NYHuzeLXfQM9H24wFSUt1Mp8";
      "orca_whirlpool" := "whirLbMiicVdio4qvUfM5KAg6Ct8VwpYzGff3uctyCc";
      "meteora_pools" := "LBUZKhRxPF3XUpBCjp4YzTKgLccjZhTSDM9YuVaPwxo"]}.

(** [main]: the client it made, what its loop printed, and its end. [log.Fatalf]
    does not run the deferred [Close]; the end of [main] and a panic do, but for one of
    the goroutine of the subscription, which has come when [died]. *)
Definition demo_main (env : string → string) (net : N) (picks : list pick) (died : bool) :
    option (GeyserClient (N:=N)) * list line * process :=
  let cfg := demoConfig env in
  match GeyserConfig.Validate cfg with
  | Err err => (None, [], Fatal "Invalid configuration: %v" err)
  | Ok _ =>
    match geyser_NewClient cfg net with
    | Err err => (None, [], Fatal "Failed to create client: %v" err)
    | Ok client =>
      match geyser_Connect client with
      | (client, Err err) => (Some client, [], Fatal "Failed to connect: %v" err)
      | (client, Ok _) =>
        let '(client, sb) := subscribe_with geyser_subscribeLoop 0 client in
        let '(ls, r) := demoLoop picks sb 0 in
        if died && sb_panics sb then (Some client, ls, Panic)
        else (Some (match r with Stopped | Panic => cancel_client client | _ => client end), ls, r)
      end
    end
  end.
End demo.

(** ** Lemmas *)

(** An update that the loop shows, and one of a slot. *)
Definition complete (u : SubscribeUpdate) : bool :=
  match u with
  | U_Slot None | U_Account None | U_BlockMeta None => false
  | U_Account (Some a) => bool_decide (is_Some (ua_Account a))
  | U_BlockMeta (Some m) => bool_decide (is_Some (bm_BlockTime m))
  | _ => true
  end.
Definition is_slot (u : SubscribeUpdate) : bool := match u with U_Slot _ => true | _ => false end.
Definition totals (ls : list line) : list Z :=
  omap (λ l, match l with Line_Slot _ total => Some total | _ => None end) ls.

Lemma showUpdate_spec u n :
  match showUpdate u n with
  | None => complete u = false
  | Some (ls, n') => complete u = true ∧ n' = (if is_slot u then i64 (n + 1) else n)
      ∧ totals ls = if is_slot u then [n'] else []
  end.
Proof.
  destruct u as [tx|[[slot [t|]]|]|[[[info|] slot]|]|[slot|]|b| |]; simpl; try done.
Qed.

(** The slots seen from [n] on are counted one by one; the loop panics exactly at
    an update that lacks a part, and stops only for a signal or a closed
    channel. *)
Lemma demoLoop_spec picks sb n :
  let '(ls, r) := demoLoop picks sb (i64 n) in
  ∃ seen rest, sb_updates sb = seen ++ rest ∧ Forall (λ u, complete u = true) seen
  ∧ totals ls = (λ i, i64 (n + 1 + i)) <$> seqZ 0 (zlen (filter (λ u, is_slot u = true) seen))
  ∧ match r with
    | Panic => ∃ u rest', rest = u :: rest' ∧ complete u = false
    | Stopped => P_Done ∈ picks ∨ sb_closed sb = true
    | _ => r = Running
    end.
Proof.
  revert sb n. induction picks as [|[] picks IH]; intros sb n; cbn [demoLoop].
  - exists [], (sb_updates sb). done.
  - exists [], (sb_updates sb). split_and!; [done..|]. left. left.
  - destruct (sb_errs sb) as [|err errs].
    + destruct (sb_closed sb) eqn:Hc; [exists [], (sb_updates sb); by auto|].
      specialize (IH sb n). destruct (demoLoop picks sb _) as [ls r].
      destruct IH as (seen & rest & ? & ? & ? & Hr). exists seen, rest. split_and!; [done..|].
      destruct r; try done. destruct Hr; [left; by right|congruence].
    + specialize (IH (mkSubscription (sb_updates sb) errs (sb_closed sb) (sb_panics sb)) n).
      destruct (demoLoop picks _ _) as [ls r]. destruct IH as (seen & rest & ? & ? & ? & Hr).
      exists seen, rest. split_and!; [done..|]. destruct r; try done. destruct Hr; [left; by right|by right].
  - destruct (sb_updates sb) as [|u updates] eqn:Hu.
    + destruct (sb_closed sb) eqn:Hc; [exists [], []; by auto|].
      specialize (IH sb n). rewrite Hu in IH. destruct (demoLoop picks sb _) as [ls r].
      destruct IH as (seen & rest & ? & ? & ? & Hr). exists seen, rest. split_and!; [done..|].
      destruct r; try done. destruct Hr; [left; by right|congruence].
    + pose proof (showUpdate_spec u (i64 n)) as Hs.
      destruct (showUpdate u (i64 n)) as [[ls1 n1]|]; [|exists [], (u :: updates); by eauto 10].
      destruct Hs as (Hok & Hn & Ht). rewrite i64_succ in Hn.
      specialize (IH (mkSubscription updates (sb_errs sb) (sb_closed sb) (sb_panics sb)) (if is_slot u then n + 1 else n)).
      assert (n1 = i64 (if is_slot u then n + 1 else n)) as -> by by destruct (is_slot u).
      destruct (demoLoop picks _ _) as [ls r]. destruct IH as (seen & rest & Hup & Hseen & Hls & Hr).
      simpl in Hup. exists (u :: seen), rest. split_and!.
      * by rewrite Hup.
      * by constructor.
      * unfold print, totals in *. simpl. rewrite omap_app, Ht, Hls, filter_cons.
        destruct (is_slot u); simpl; [|done]. unfold zlen. simpl length. rewrite Nat2Z.inj_succ, (seqZ_cons 0 (Z.succ _)) by lia.
        simpl. rewrite Z.add_0_r, Z.pred_succ. f_equal.
        rewrite <- (fmap_add_seqZ 1 0), <- list_fmap_compose.
        apply list_fmap_ext. intros ? ? _. simpl. f_equal. lia.
      * simpl. destruct r; try done. destruct Hr; [left; by right|by right].
Qed.

(** A key is shown by at most nineteen bytes. *)
Lemma truncateBase58_short pubkey : (slen (truncateBase58 pubkey) <= 19)%nat.
Proof.
  unfold truncateBase58. case_decide; [vm_compute; lia|]. set (s := format_hex _).
  case_decide; [|lia]. rewrite !slen_app, slen_str_take. unfold str_drop, slen at 2 3.
  rewrite bytes_of_bytes, length_drop. fold (slen s). change (length (bytes "...")) with 3%nat. lia.
Qed.
