(* ===== verification/DocGen.v ===== *)
(** * Documentation generator

    [scripts/docs/generate_go_code_reference.go] writes one page per Go file: the
    title and the lines of each declaration. The Go parser and printer are arguments:
    [parser_ParseFile] gives the syntax tree of [go/ast], of which the program reads
    the fields of [File] and below, and the line of each position; [format_Node] is
    what [format.Node] writes. The operating system is the class [FileSystem]. *)

From S2P Require Import Prelude GoStrings GoSort GoPath.
From Stdlib Require Import Ascii.
Local Open Scope list_scope.

(** ** go/ast *)

Record Ident := mkIdent { NamePos : Z; Name : string }.
Definition Ident_End (i : Ident) : Z := NamePos i + Z.of_nat (slen (Name i)).

Inductive Tok := T_Import | T_Const | T_Type | T_Var.
Definition Tok_String (t : Tok) : string :=
  match t with T_Import => "import" | T_Const => "const" | T_Type => "type" | T_Var => "var" end.

Inductive Spec :=
  | ImportSpec
  | TypeSpec (name : option Ident)
  | ValueSpec (names : list Ident).

Section ast.
Context (Node : Type).

(** [Doc] is the position of the comment group, [Pos] and [End] what the methods
    return, [Recv] the types of the fields of a receiver. *)
Record FuncDecl := mkFuncDecl {
  fd_Doc : option Z; fd_Recv : option (list Node); fd_Name : Ident; fd_Pos : Z; fd_End : Z;
}.
Record GenDecl := mkGenDecl {
  gd_Doc : option Z; gd_Tok : Tok; gd_Specs : list Spec; gd_Pos : Z; gd_End : Z;
}.
Inductive Decl := D_Func (d : FuncDecl) | D_Gen (d : GenDecl) | D_Bad.
Record File := mkFile { f_Package : Z; f_Name : Ident; f_Decls : list Decl }.
End ast.
Arguments mkFuncDecl {Node} _ _ _ _ _.
Arguments fd_Doc {Node} _. Arguments fd_Recv {Node} _. Arguments fd_Name {Node} _.
Arguments fd_Pos {Node} _. Arguments fd_End {Node} _.
Arguments D_Func {Node} _. Arguments D_Gen {Node} _. Arguments D_Bad {Node}.
Arguments mkFile {Node} _ _ _.
Arguments f_Package {Node} _. Arguments f_Name {Node} _. Arguments f_Decls {Node} _.

(** [fset.Position(pos).Line] *)
Definition FileSet : Type := Z → Z.

(** ** Declarations *)

Record declBlock := mkDeclBlock { Title : string; Start : Z; End_ : Z; Names : list string }.

(** The names in order of appearance, each once, with the set of those seen. *)
Definition addName (st : gmap string () * list string) (i : Ident) : gmap string () * list string :=
  let '(unique, names) := st in
  match unique !! Name i with
  | Some _ => st
  | None => (<[Name i := tt]> unique, names ++ [Name i])
  end.
Definition addSpec (st : gmap string () * list string) (s : Spec) : gmap string () * list string :=
  match s with
  | ImportSpec => st
  | TypeSpec (Some i) => addName st i
  | TypeSpec None => st
  | ValueSpec names => foldl addName st names
  end.
Definition genDeclNames (d : GenDecl) : list string :=
  sort_Strings (foldl addSpec (∅, []) (gd_Specs d)).2.

Definition startLineWithDoc (fset : FileSet) (doc : option Z) (fallback : Z) : Z :=
  match doc with None => fset fallback | Some pos => fset pos end.

Definition strings_Join (sep : string) (ss : list string) : string :=
  match ss with [] => "" | s :: ss => foldl (λ acc t, acc +:+ sep +:+ t) s ss end.

Definition block_less (a b : declBlock) : bool :=
  if Start a =? Start b then End_ a <? End_ b else Start a <? Start b.

Section render.
Context (unicode_lower : Z → Z) (print_table : Z → bool).
Context {Node : Type} (format_Node : FileSet → Node → string)
  (parser_ParseFile : string → list ascii → result (FileSet * File Node)).

Definition formatNode : FileSet → Node → string := format_Node.

Definition formatFuncDeclTitle (fset : FileSet) (d : FuncDecl Node) : string :=
  let recv := match fd_Recv d with
              | Some (t :: _) => "(" +:+ formatNode fset t +:+ ") "
              | _ => ""
              end in
  "func " +:+ recv +:+ Name (fd_Name d).

Definition genDeclTitle (d : GenDecl) (names : list string) : string :=
  let title := ToLower unicode_lower (Tok_String (gd_Tok d)) in
  let title := if bool_decide (title = "import") then "imports" else title in
  let title := if decide (0 < length names)%nat
               then title +:+ " (" +:+ strings_Join ", " names +:+ ")" else title in
  TrimSpace title.

Definition declBlock_of (fset : FileSet) (d : Decl Node) : option declBlock :=
  match d with
  | D_Func d => Some (mkDeclBlock (formatFuncDeclTitle fset d)
      (startLineWithDoc fset (fd_Doc d) (fd_Pos d)) (fset (fd_End d)) [Name (fd_Name d)])
  | D_Gen d =>
    let names := genDeclNames d in
    Some (mkDeclBlock (genDeclTitle d names)
      (startLineWithDoc fset (gd_Doc d) (gd_Pos d)) (fset (gd_End d)) names)
  | D_Bad => None
  end.

Definition packageBlock (fset : FileSet) (file : File Node) : declBlock :=
  mkDeclBlock ("package " +:+ Name (f_Name file)) (fset (f_Package file))
    (fset (Ident_End (f_Name file))) [].

Definition buildDeclBlocks (fset : FileSet) (file : File Node) : list declBlock :=
  sort_SliceStable block_less
    (foldl (λ blocks d, match declBlock_of fset d with Some b => blocks ++ [b] | None => blocks end)
       [packageBlock fset file] (f_Decls file)).

(** ** The page *)

Definition nl : string := of_bytes [bchr 10].
Definition q (s : string) : string := strconv_Quote print_table s.

Definition renderBlock (rel : string) (b : declBlock) : string :=
  "### " +:+ Title b +:+ nl +:+ nl
  +:+ (if decide (0 < length (Names b))%nat
       then "**Symbols:** " +:+ strings_Join ", " (Names b) +:+ nl +:+ nl else "")
  +:+ "```go " +:+ "title=" +:+ q (Title b) +:+ " "
  +:+ "file=<rootDir>/" +:+ rel +:+ "#L" +:+ pretty (Start b) +:+ "-L" +:+ pretty (End_ b) +:+ " "
  +:+ "showLineNumbers" +:+ nl +:+ "```" +:+ nl +:+ nl
  +:+ "**What:** _TODO_" +:+ nl +:+ nl +:+ "**How:** _TODO_" +:+ nl +:+ nl
  +:+ "**Why:** _TODO_" +:+ nl +:+ nl.

Definition renderHead (rel : string) : string :=
  "---" +:+ nl +:+ "title: " +:+ q rel +:+ nl +:+ "---" +:+ nl +:+ nl
  +:+ "This page is an **annotated source reference**. Code blocks are imported from the repository at build time."
  +:+ nl +:+ nl +:+ "## What this file is" +:+ nl +:+ nl
  +:+ "_TODO: one-paragraph summary of responsibility and boundaries._" +:+ nl +:+ nl
  +:+ "## Why this file exists" +:+ nl +:+ nl
  +:+ "_TODO: architectural motivation and why this logic lives here (vs elsewhere)._ " +:+ nl +:+ nl
  +:+ "## Full source" +:+ nl +:+ nl
  +:+ "```go " +:+ "title=" +:+ q rel +:+ " " +:+ "file=<rootDir>/" +:+ rel +:+ " "
  +:+ "showLineNumbers" +:+ nl +:+ "```" +:+ nl +:+ nl
  +:+ "## Walkthrough (by declaration)" +:+ nl +:+ nl.

Definition renderDoc (rel : string) (blocks : list declBlock) : string :=
  foldl (λ b block, b +:+ renderBlock rel block) (renderHead rel) blocks.

End render.

(** ** The operating system *)

(** [Walk] is the list of the calls that [filepath.WalkDir] makes, as long as they
    return nil: the path with [IsDir] of its entry, or with an error. [Stat] fails
    for what does not exist. *)
Class FileSystem (F : Type) := {
  os_Getwd : F → result string;
  os_Stat : string → F → result ();
  os_ReadFile : string → F → result (list ascii);
  fs_Walk : string → F → list (string * result bool);
  os_MkdirAll : string → M F ();
  os_WriteFile : string → list ascii → M F ();
  read_exists p fs d : os_ReadFile p fs = Ok d → is_ok (os_Stat p fs) = true;
  (** Directories are added, those above the path and itself. *)
  mkdir_Getwd p fs : os_Getwd (os_MkdirAll p fs).1 = os_Getwd fs;
  mkdir_exists p p' fs : is_ok (os_Stat p' fs) = true → is_ok (os_Stat p' (os_MkdirAll p fs).1) = true;
  mkdir_reads p p' fs d : os_ReadFile p' fs = Ok d → os_ReadFile p' (os_MkdirAll p fs).1 = Ok d;
  mkdir_parent p fs : filepath_Clean p = p → is_ok (os_Stat p fs) = false →
    is_ok (os_Stat p (os_MkdirAll (filepath_Dir p) fs).1) = false;
  (** A file is written, or tried to; a new file is none of those that exist. *)
  write_Getwd p d fs : os_Getwd (os_WriteFile p d fs).1 = os_Getwd fs;
  write_exists p d p' fs :
    is_ok (os_Stat p' fs) = true → is_ok (os_Stat p' (os_WriteFile p d fs).1) = true;
  write_reads p d fs : is_ok (os_WriteFile p d fs).2 = true → os_ReadFile p (os_WriteFile p d fs).1 = Ok d;
  write_new p d p' d' fs : is_ok (os_Stat p fs) = false →
    os_ReadFile p' fs = Ok d' → os_ReadFile p' (os_WriteFile p d fs).1 = Ok d';
}.

Record flags := mkFlags {
  root : string; out : string; include_tests : bool; overwrite : bool; flag_Args : list string;
}.

Section collect.
Context {F : Type} `{FileSystem F} (fl : flags).

Definition filepath_Abs (path : string) (fs : F) : result string :=
  if filepath_IsAbs path then Ok (filepath_Clean path)
  else wd ← os_Getwd fs; Ok (filepath_Join [wd; path]).

Definition repoRoot (fs : F) : result string :=
  r ← (if bool_decide (root fl = "") then wrap_err "get cwd: %v" [] (os_Getwd fs) else Ok (root fl));
  wrap_err "abs root: %v" [] (filepath_Abs r fs).

Definition outDir (repo : string) : string :=
  if filepath_IsAbs (out fl) then out fl else filepath_Join [repo; out fl].

Definition dirs : list string :=
  if decide (length (flag_Args fl) = 0)%nat
  then ["cmd"; "ingestor"; "decoder"; "sinks"; "api"; "bridge"; "backfill"] else flag_Args fl.

(** The function given to [WalkDir], over its calls. *)
Fixpoint walkFiles (calls : list (string * result bool)) : result (list string) :=
  match calls with
  | [] => Ok []
  | (_, Err err) :: _ => Err err
  | (path, Ok isDir) :: calls =>
    rest ← walkFiles calls;
    if isDir || bool_decide (filepath_Ext path ≠ ".go") || (negb (include_tests fl) && HasSuffix path "_test.go")
    then Ok rest else Ok (path :: rest)
  end.

Fixpoint collectFiles (repo : string) (ds : list string) (fs : F) : result (list string) :=
  match ds with
  | [] => Ok []
  | dir :: ds =>
    let base := filepath_Join [repo; dir] in
    match os_Stat base fs with
    | Err err =>
      if errors_Is err "fs.ErrNotExist" then collectFiles repo ds fs
      else Err (Wrapf "stat %s: %v" [FStr base] err)
    | Ok _ =>
      files ← wrap_err "walk %s: %v" [FStr base] (walkFiles (fs_Walk base fs));
      rest ← collectFiles repo ds fs;
      Ok (files ++ rest)
    end
  end.
End collect.

Section main.
Context (unicode_lower : Z → Z) (print_table : Z → bool).
Context {Node : Type} (format_Node : FileSet → Node → string)
  (parser_ParseFile : string → list ascii → result (FileSet * File Node)).
Context {F : Type} `{FileSystem F}.

Definition renderGoFileDoc (absPath rel : string) (fs : F) : result string :=
  src ← os_ReadFile absPath fs;
  '(fset, file) ← parser_ParseFile absPath src;
  Ok (renderDoc print_table rel (buildDeclBlocks unicode_lower format_Node fset file)).

Definition docPath (outDir rel : string) : string :=
  filepath_Join [outDir; TrimSuffix rel ".go" +:+ ".mdx"].

(** One turn of the loop over the files, with [updated] and [skipped]. *)
Definition generateFile (overwrite : bool) (repo outDir srcPath : string) (counts : Z * Z) :
    M F (Z * Z) := λ fs,
  let '(updated, skipped) := counts in
  match filepath_Rel repo srcPath with
  | Err err => (fs, Err (Wrapf "rel path: %v" [] err))
  | Ok rel =>
    let outPath := docPath outDir rel in
    if negb overwrite && is_ok (os_Stat outPath fs) then (fs, Ok (updated, i64 (skipped + 1)))
    else
      match os_MkdirAll (filepath_Dir outPath) fs with
      | (fs, Err err) => (fs, Err (Wrapf "mkdir %s: %v" [FStr (filepath_Dir outPath)] err))
      | (fs, Ok _) =>
        match renderGoFileDoc srcPath rel fs with
        | Err err => (fs, Err (Wrapf "render %s: %v" [FStr rel] err))
        | Ok content =>
          match os_WriteFile outPath (bytes content) fs with
          | (fs, Err err) => (fs, Err (Wrapf "write %s: %v" [FStr outPath] err))
          | (fs, Ok _) => (fs, Ok (i64 (updated + 1), skipped))
          end
        end
      end
  end.

Fixpoint generate (overwrite : bool) (repo outDir : string) (files : list string) (counts : Z * Z) :
    M F (Z * Z) :=
  match files with
  | [] => mret counts
  | srcPath :: files =>
    counts ← generateFile overwrite repo outDir srcPath counts;
    generate overwrite repo outDir files counts
  end.

(** [main]: what it prints, or what [fatalf] prints. *)
Definition main (fl : flags) : M F (Z * Z * string) := λ fs,
  match repoRoot fl fs with
  | Err err => (fs, Err err)
  | Ok repo =>
    match collectFiles fl repo (dirs fl) fs with
    | Err err => (fs, Err err)
    | Ok goFiles =>
      match generate (overwrite fl) repo (outDir fl repo) (sort_Strings goFiles) (0, 0) fs with
      | (fs, Err err) => (fs, Err err)
      | (fs, Ok (updated, skipped)) => (fs, Ok (updated, skipped, outDir fl repo))
      end
    end
  end.
End main.

(** ** Lemmas *)

(** The names that the specs declare, with repetitions. *)
Definition spec_names (s : Spec) : list string :=
  match s with
  | ImportSpec | TypeSpec None => []
  | TypeSpec (Some i) => [Name i]
  | ValueSpec names => Name <$> names
  end.
Definition declared (d : GenDecl) : list string := concat (spec_names <$> gd_Specs d).

(** What the set and the list hold once the names [l] were added. *)
Record seen (l : list string) (st : gmap string () * list string) : Prop := {
  seen_set n : is_Some (st.1 !! n) ↔ n ∈ st.2;
  seen_once : NoDup st.2;
  seen_all n : n ∈ st.2 ↔ n ∈ l;
}.

Lemma seen_name l st i : seen l st → seen (l ++ [Name i]) (addName st i).
Proof.
  destruct st as [u names]. intros [Hs Ho Ha]. simpl in *. unfold addName.
  destruct (u !! Name i) as [[]|] eqn:Hi; split; simpl; try done.
  - intros n. rewrite elem_of_app, list_elem_of_singleton, Ha. split; [auto|]. intros [?| ->]; [done|].
    by apply Ha, Hs.
  - intros n. rewrite elem_of_app, list_elem_of_singleton, <- Hs, lookup_insert_is_Some'. naive_solver.
  - apply NoDup_app. split; [done|]. split; [|apply NoDup_singleton].
    intros n Hn. rewrite list_elem_of_singleton. intros ->. apply Hs in Hn. rewrite Hi in Hn. by destruct Hn.
  - intros n. rewrite !elem_of_app, Ha. done.
Qed.

Lemma seen_names l st ids : seen l st → seen (l ++ (Name <$> ids)) (foldl addName st ids).
Proof.
  revert l st. induction ids as [|i ids IH]; intros l st Hs; simpl; [by rewrite app_nil_r|].
  specialize (IH (l ++ [Name i]) _ (seen_name l st i Hs)). by rewrite <- app_assoc in IH.
Qed.

Lemma seen_spec l st s : seen l st → seen (l ++ spec_names s) (addSpec st s).
Proof.
  intros Hs. destruct s as [|[i|]|ids]; simpl; rewrite ?app_nil_r; try done.
  - by apply seen_name.
  - by apply seen_names.
Qed.

Lemma seen_specs l st specs : seen l st → seen (l ++ concat (spec_names <$> specs)) (foldl addSpec st specs).
Proof.
  revert l st. induction specs as [|s specs IH]; intros l st Hs; simpl; [by rewrite app_nil_r|].
  specialize (IH _ _ (seen_spec l st s Hs)). by rewrite <- app_assoc in IH.
Qed.

Lemma seen_decl d : seen (declared d) (foldl addSpec (∅, []) (gd_Specs d)).
Proof.
  apply (seen_specs []). split; simpl; [|constructor|done].
  intros n. rewrite lookup_empty, elem_of_nil. split; [by intros []|done].
Qed.

Lemma genDeclNames_elem d n : n ∈ genDeclNames d ↔ n ∈ declared d.
Proof.
  unfold genDeclNames. rewrite (sort_Strings_perm (foldl addSpec (∅, []) (gd_Specs d)).2).
  apply (seen_all _ _ (seen_decl d)).
Qed.
Lemma genDeclNames_NoDup d : NoDup (genDeclNames d).
Proof. unfold genDeclNames. rewrite sort_Strings_perm. apply (seen_once _ _ (seen_decl d)). Qed.

(** Blocks by their first line, then by their last. *)
Definition block_le (a b : declBlock) : Prop := Start a < Start b ∨ Start a = Start b ∧ End_ a <= End_ b.

Lemma block_less_spec a b :
  block_less a b = true ↔ Start a < Start b ∨ Start a = Start b ∧ End_ a < End_ b.
Proof.
  unfold block_less. destruct (Z.eqb_spec (Start a) (Start b)); [rewrite Z.ltb_lt; lia|].
  rewrite Z.ltb_lt. lia.
Qed.
Lemma block_less_false a b : block_less a b = false ↔ block_le b a.
Proof. unfold block_le. rewrite <- not_true_iff_false, block_less_spec. lia. Qed.

(** ** Properties of the blocks *)

(** The blocks of a page: one for the package clause and one for each function
    and each declaration group, in the order of their lines, those on the same
    lines in the order of the file; the symbols of a block are sorted, each once,
    and those of a declaration group are the names that its specs declare. *)
Theorem buildDeclBlocks_spec unicode_lower {Node} (format_Node : FileSet → Node → string) fset file :
  let blocks := buildDeclBlocks unicode_lower format_Node fset file in
  let unsorted := packageBlock fset file :: omap (declBlock_of unicode_lower format_Node fset) (f_Decls file) in
  blocks ≡ₚ unsorted
  ∧ StronglySorted block_le blocks
  ∧ (∀ s e, filter (λ b, Start b = s ∧ End_ b = e) blocks = filter (λ b, Start b = s ∧ End_ b = e) unsorted)
  ∧ Forall (λ b, Sorted String.le (Names b) ∧ NoDup (Names b)) blocks
  ∧ ∀ d n, n ∈ genDeclNames d ↔ n ∈ declared d.
Proof.
  intros blocks unsorted.
  assert (blocks = insertion_sort block_less unsorted) as Hb.
  { unfold blocks, buildDeclBlocks, unsorted. f_equal.
    change (packageBlock fset file :: omap ?f ?l) with ([packageBlock fset file] ++ omap f l).
    generalize [packageBlock fset file]. induction (f_Decls file) as [|d ds IH]; intros acc.
    - simpl. by rewrite app_nil_r.
    - cbn [foldl omap list_omap]. rewrite IH. destruct (declBlock_of _ _ _ d); [|done]. by rewrite <- app_assoc. }
  rewrite Hb. split_and!.
  - apply insertion_sort_perm.
  - eapply StronglySorted_impl; [|apply insertion_sort_sorted].
    + intros x y. apply block_less_false.
    + intros x y z. rewrite !block_less_spec. lia.
    + intros x. apply not_true_iff_false. rewrite block_less_spec. lia.
    + intros x y z. rewrite !block_less_spec. lia.
  - intros s e. apply insertion_sort_stable. intros x y [H1 H2] [H3 H4].
    apply block_less_false. unfold block_le. lia.
  - rewrite insertion_sort_perm. unfold unsorted. constructor; [split; constructor|].
    apply Forall_forall. intros b (d & _ & Hd)%list_elem_of_omap.
    destruct d as [d|d|]; [| |discriminate Hd]; injection Hd as <-; simpl.
    + split; [by repeat constructor|apply NoDup_singleton].
    + split; [apply sort_Strings_sorted|apply genDeclNames_NoDup].
  - apply genDeclNames_elem.
Qed.

(** ** Lemmas on the files *)

Section files_lemmas.
Context (unicode_lower : Z → Z) (print_table : Z → bool).
Context {Node : Type} (format_Node : FileSet → Node → string)
  (parser_ParseFile : string → list ascii → result (FileSet * File Node)).
Context {F : Type} `{FileSystem F}.
Implicit Types fs : F.

Notation render := (renderGoFileDoc unicode_lower print_table format_Node parser_ParseFile).
Notation genFile := (generateFile unicode_lower print_table format_Node parser_ParseFile false).
Notation gen := (generate unicode_lower print_table format_Node parser_ParseFile false).

Definition exists_at (p : string) fs : Prop := is_ok (os_Stat p fs) = true.

(** What was there is still there. *)
Record keeps fs fs' : Prop := {
  keeps_Getwd : os_Getwd fs' = os_Getwd fs;
  keeps_exists p : exists_at p fs → exists_at p fs';
  keeps_reads p d : os_ReadFile p fs = Ok d → os_ReadFile p fs' = Ok d;
}.

#[local] Instance keeps_PreOrder : PreOrder keeps.
Proof.
  split; [by intros fs; split|]. intros fs1 fs2 fs3 [Hw1 He1 Hr1] [Hw2 He2 Hr2].
  split; [congruence|eauto..].
Qed.

Lemma keeps_mkdir p fs : keeps fs (os_MkdirAll p fs).1.
Proof. split; [apply mkdir_Getwd|intros ?; apply mkdir_exists|intros ??; apply mkdir_reads]. Qed.

Lemma keeps_write p d fs : is_ok (os_Stat p fs) = false → keeps fs (os_WriteFile p d fs).1.
Proof.
  intros Hp. split; [apply write_Getwd|intros ?; apply write_exists|intros ??; by apply write_new].
Qed.

Lemma docPath_clean o rel : filepath_Clean (docPath o rel) = docPath o rel.
Proof.
  unfold docPath. set (e := _ +:+ _).
  assert (e ≠ "") as He by (intros E%slen_0; unfold e in E; rewrite slen_app in E; unfold slen in E; simpl in E; lia).
  cbn [filepath_Join]. rewrite (bool_decide_eq_false_2 _ He). case_bool_decide; apply filepath_Clean_idem.
Qed.

(** The page of a source is there, and is what the source gives. *)
Definition page_exists repo o fs src : Prop :=
  ∃ rel, filepath_Rel repo src = Ok rel ∧ exists_at (docPath o rel) fs.
Definition page_written repo o fs src : Prop :=
  ∃ rel doc, filepath_Rel repo src = Ok rel ∧ render src rel fs = Ok doc
    ∧ os_ReadFile (docPath o rel) fs = Ok (bytes doc).

Lemma render_keeps src rel fs fs' doc : keeps fs fs' → render src rel fs = Ok doc → render src rel fs' = Ok doc.
Proof.
  intros Hk Hr. unfold renderGoFileDoc in *. apply bind_Ok in Hr as (data & Hd & Hr).
  by rewrite (keeps_reads _ _ Hk _ _ Hd).
Qed.

Lemma page_exists_keeps repo o fs fs' src : keeps fs fs' → page_exists repo o fs src → page_exists repo o fs' src.
Proof. intros Hk (rel & Hr & He). exists rel. split; [done|]. by apply (keeps_exists _ _ Hk). Qed.
Lemma page_written_keeps repo o fs fs' src : keeps fs fs' → page_written repo o fs src → page_written repo o fs' src.
Proof.
  intros Hk (rel & doc & Hr & Hd & Hp). exists rel, doc. split_and!; [done|by eapply render_keeps|].
  by apply (keeps_reads _ _ Hk).
Qed.

Lemma generateFile_spec repo o src a b fs :
  let '(fs', r) := genFile repo o src (i64 a, i64 b) fs in
  keeps fs fs' ∧
  match r with
  | Ok counts => page_exists repo o fs' src
      ∧ (page_exists repo o fs src ∧ counts = (i64 a, i64 (b + 1)) ∧ fs' = fs
         ∨ page_written repo o fs' src ∧ counts = (i64 (a + 1), i64 b))
  | Err _ => True
  end.
Proof.
  unfold generateFile. destruct (filepath_Rel repo src) as [rel|err] eqn:Hrel; [|by split]. cbn [negb andb].
  destruct (is_ok (os_Stat (docPath o rel) fs)) eqn:Hs.
  { rewrite i64_succ. split; [done|]. assert (page_exists repo o fs src) by (exists rel; by split). auto. }
  pose proof (keeps_mkdir (filepath_Dir (docPath o rel)) fs) as Hk1.
  pose proof (mkdir_parent (docPath o rel) fs (docPath_clean o rel) Hs) as Hs1.
  destruct (os_MkdirAll _ fs) as [fs1 [u|err]]; [|by split]. simpl in Hk1, Hs1.
  destruct (render src rel fs1) as [doc|err] eqn:Hdoc; [|by split].
  pose proof (keeps_write (docPath o rel) (bytes doc) fs1 Hs1) as Hk2.
  pose proof (write_reads (docPath o rel) (bytes doc) fs1) as Hw.
  destruct (os_WriteFile _ _ fs1) as [fs2 [u'|err]]; simpl in Hk2, Hw; (split; [by etrans|]); [|done].
  specialize (Hw eq_refl). rewrite i64_succ. split.
  - exists rel. split; [done|]. by eapply read_exists.
  - right. split; [|done]. exists rel, doc. split_and!; [done|by eapply render_keeps|done].
Qed.

Lemma generate_spec repo o files a b fs :
  let '(fs', r) := gen repo o files (i64 a, i64 b) fs in
  keeps fs fs' ∧
  match r with
  | Ok counts => Forall (page_exists repo o fs') files
      ∧ ∃ generated skipped, files ≡ₚ generated ++ skipped
        ∧ counts = (i64 (a + zlen generated), i64 (b + zlen skipped))
        ∧ Forall (page_written repo o fs') generated
  | Err _ => True
  end.
Proof.
  revert a b fs. induction files as [|src files IH]; intros a b fs.
  { split; [done|]. split; [constructor|]. exists [], []. by rewrite !Z.add_0_r. }
  cbn [generate]. rewrite M_bind_run. pose proof (generateFile_spec repo o src a b fs) as Hf.
  destruct (genFile repo o src (i64 a, i64 b) fs) as [fs1 [counts|err]]; [|done].
  destruct Hf as (Hk1 & Hp & Hf).
  assert (∃ a' b' g s, counts = (i64 a', i64 b') ∧ src :: files ≡ₚ g ++ s ++ files
    ∧ a' = a + zlen g ∧ b' = b + zlen s ∧ Forall (page_written repo o fs1) g) as
    (a' & b' & g & s & -> & Hperm & -> & -> & Hg).
  { destruct Hf as [(_ & -> & _)|(Hw & ->)].
    - exists a, (b + 1), [], [src]. split_and!; [done|done|unfold zlen; simpl; lia|done|constructor].
    - exists (a + 1), b, [src], []. split_and!; [done|done|done|unfold zlen; simpl; lia|by constructor]. }
  specialize (IH (a + zlen g) (b + zlen s) fs1). destruct (gen repo o files _ fs1) as [fs2 [c|err]];
    destruct IH as (Hk2 & Hr); (split; [by etrans|]); [|done].
  destruct Hr as (Hex & gs & ss & Hperm' & -> & Hgs). split.
  - constructor; [by eapply page_exists_keeps|done].
  - exists (g ++ gs), (s ++ ss). split_and!.
    + rewrite Hperm, Hperm'. solve_Permutation.
    + unfold zlen. rewrite !length_app. f_equal; f_equal; lia.
    + apply Forall_app. split; [|done]. eapply Forall_impl; [exact Hg|]. intros x. by apply page_written_keeps.
Qed.

(** Every page is there already. *)
Lemma generate_skips repo o files a b fs :
  Forall (page_exists repo o fs) files →
  gen repo o files (i64 a, i64 b) fs = (fs, Ok (i64 a, i64 (b + zlen files))).
Proof.
  intros Hf. revert b. induction Hf as [|src files (rel & Hrel & He) Hf IH]; intros b.
  - by rewrite Z.add_0_r.
  - cbn [generate]. rewrite M_bind_run. unfold generateFile. rewrite Hrel. unfold exists_at in He. rewrite He. simpl.
    rewrite i64_succ. rewrite IH. unfold zlen. simpl. do 4 f_equal. lia.
Qed.

(** ** Properties of a run *)

Lemma repoRoot_keeps fl fs fs' : keeps fs fs' → repoRoot fl fs' = repoRoot fl fs.
Proof. intros [Hw _ _]. unfold repoRoot, filepath_Abs. by rewrite Hw. Qed.

(** C31. A run without [-overwrite]. Whatever happens, no file that was there is
    changed. When it ends well, every source found has its page; the pages counted
    as generated hold what their sources render to, read after the run; the other
    sources are counted as skipped. A second run over the same sources generates
    nothing, skips all of them and leaves the files as they are. *)
Theorem main_rerun fl fs fs' r :
  overwrite fl = false →
  main unicode_lower print_table format_Node parser_ParseFile fl fs = (fs', r) →
  (∀ p, exists_at p fs → exists_at p fs')
  ∧ (∀ p d, os_ReadFile p fs = Ok d → os_ReadFile p fs' = Ok d)
  ∧ match r with
    | Err _ => True
    | Ok (updated, skipped, o) =>
      ∃ repo files generated left,
        repoRoot fl fs = Ok repo ∧ collectFiles fl repo (dirs fl) fs = Ok files ∧ files ≡ₚ generated ++ left
        ∧ updated = i64 (zlen generated) ∧ skipped = i64 (zlen left)
        ∧ Forall (page_exists repo o fs') files ∧ Forall (page_written repo o fs') generated
        ∧ (collectFiles fl repo (dirs fl) fs' = Ok files →
           main unicode_lower print_table format_Node parser_ParseFile fl fs'
           = (fs', Ok (0, i64 (zlen files), o)))
    end.
Proof.
  intros Ho. unfold main. destruct (repoRoot fl fs) as [repo|err] eqn:Hrepo; [|by intros [= <- <-]].
  destruct (collectFiles fl repo (dirs fl) fs) as [files|err] eqn:Hfiles; [|by intros [= <- <-]].
  rewrite Ho. pose proof (generate_spec repo (outDir fl repo) (sort_Strings files) 0 0 fs) as Hg.
  change (i64 0) with 0 in Hg.
  destruct (gen repo (outDir fl repo) (sort_Strings files) (0, 0) fs) as [fs1 [[u k]|err]];
    intros [= <- <-]; destruct Hg as (Hk & Hr); (split; [apply Hk|]); (split; [apply Hk|done || idtac]).
  destruct Hr as (Hex & g & l & Hperm & [= -> ->] & Hw).
  exists repo, files, g, l. do 2 (split; [done|]). split; [by rewrite <- Hperm, sort_Strings_perm|].
  do 2 (split; [done|]). split; [by rewrite <- (sort_Strings_perm files)|]. split; [done|].
  intros Hsame. rewrite (repoRoot_keeps fl fs fs1 Hk), Hrepo, Hsame.
  pose proof (generate_skips repo (outDir fl repo) (sort_Strings files) 0 0 fs1 Hex) as Hskip.
  change (i64 0) with 0 in Hskip. rewrite Hskip, Z.add_0_l. unfold zlen. by rewrite sort_Strings_perm.
Qed.

End files_lemmas.

(** ** Witnesses *)

(** Files and directories by path; a path without a parent exists. *)
Notation TestFiles := (gmap string (option (list ascii))).
Definition test_Stat (p : string) (fs : TestFiles) : result () :=
  if bool_decide (filepath_Dir p = p) then Ok tt
  else match fs !! p with Some _ => Ok tt | None => Err (Sentinel "fs.ErrNotExist") end.
Definition test_ReadFile (p : string) (fs : TestFiles) : result (list ascii) :=
  if bool_decide (filepath_Dir p = p) then Err (Sentinel "EISDIR")
  else match fs !! p with
       | Some (Some d) => Ok d
       | Some None => Err (Sentinel "EISDIR")
       | None => Err (Sentinel "fs.ErrNotExist")
       end.
Definition test_MkdirAll (p : string) : M TestFiles () := λ fs,
  match fs !! p with
  | Some None => (fs, Ok tt)
  | Some (Some _) => (fs, Err (Sentinel "ENOTDIR"))
  | None => (<[p := None]> fs, Ok tt)
  end.
Definition test_WriteFile (p : string) (d : list ascii) : M TestFiles () := λ fs,
  if bool_decide (filepath_Dir p = p) then (fs, Err (Sentinel "EISDIR"))
  else match fs !! p with
       | Some None => (fs, Err (Sentinel "EISDIR"))
       | _ => (<[p := Some d]> fs, Ok tt)
       end.
Definition test_Walk (base : string) (fs : TestFiles) : list (string * result bool) :=
  (λ p, (p, Ok (bool_decide (fs !! p = Some None))))
    <$> sort_Strings (filter (λ p, HasPrefix p base = true) (map_to_list fs).*1).

#[local] Program Instance test_files : FileSystem TestFiles := {|
  os_Getwd _ := Ok "/r"; os_Stat := test_Stat; os_ReadFile := test_ReadFile; fs_Walk := test_Walk;
  os_MkdirAll := test_MkdirAll; os_WriteFile := test_WriteFile;
|}.
Next Obligation.
  intros p fs d. unfold test_ReadFile, test_Stat. case_bool_decide; [done|]. by destruct (fs !! p).
Qed.
Next Obligation. done. Qed.
Next Obligation.
  intros p p' fs. unfold test_MkdirAll, test_Stat. case_bool_decide; [done|].
  destruct (fs !! p) as [[d|]|]; cbn [fst snd]; [done..|].
  destruct (decide (p = p')) as [->|]; [by rewrite lookup_insert_eq|by rewrite lookup_insert_ne].
Qed.
Next Obligation.
  intros p p' fs d. unfold test_MkdirAll, test_ReadFile. case_bool_decide; [done|].
  destruct (fs !! p) as [[d'|]|] eqn:Hp; cbn [fst snd]; [done..|].
  destruct (decide (p = p')) as [->|]; [by rewrite Hp|by rewrite lookup_insert_ne].
Qed.
Next Obligation.
  intros p fs _. unfold test_MkdirAll, test_Stat. case_bool_decide; [done|].
  destruct (fs !! filepath_Dir p) as [[d'|]|] eqn:Hp; cbn [fst snd]; [done..|]. by rewrite lookup_insert_ne.
Qed.
Next Obligation. done. Qed.
Next Obligation.
  intros p d p' fs. unfold test_WriteFile, test_Stat. case_bool_decide; [done|].
  case_bool_decide; [done|]. destruct (fs !! p) as [[d'|]|] eqn:Hp; cbn [fst snd]; try done;
    (destruct (decide (p = p')) as [->|]; [by rewrite lookup_insert_eq|by rewrite lookup_insert_ne]).
Qed.
Next Obligation.
  intros p d fs. unfold test_WriteFile, test_ReadFile. case_bool_decide; [done|].
  destruct (fs !! p) as [[d'|]|]; cbn [fst snd is_ok]; rewrite ?lookup_insert_eq; done.
Qed.
Next Obligation.
  intros p d p' d' fs. unfold test_Stat, test_WriteFile, test_ReadFile.
  case_bool_decide as Hd; [done|]. destruct (fs !! p) eqn:Hp; [done|]. intros _. cbn [fst].
  case_bool_decide; [done|]. destruct (decide (p = p')) as [->|]; [by rewrite Hp|by rewrite lookup_insert_ne].
Qed.

(** A package clause, a group of variables and a method, whatever the bytes. *)
Definition test_file : File string :=
  mkFile 1 (mkIdent 9 "p")
    [D_Gen (mkGenDecl None T_Var [ValueSpec [mkIdent 16 "b"; mkIdent 19 "a"]; ValueSpec [mkIdent 22 "b"]] 12 30);
     D_Func (mkFuncDecl (Some 31) (Some ["*T"]) (mkIdent 60 "M") 40 80); D_Bad].
Definition test_ParseFile (path : string) (src : list ascii) : result (FileSet * File string) :=
  Ok (λ pos, pos / 10 + 1, test_file).

Example blocks_1 :
  (λ b, (Title b, Start b, End_ b, Names b))
    <$> buildDeclBlocks id (λ _ n, n) (λ pos, pos / 10 + 1) test_file
  = [("package p", 1, 2, []); ("var (a, b)", 2, 4, ["a"; "b"]); ("func (*T) M", 4, 9, ["M"])].
Proof. vm_compute. reflexivity. Qed.

Definition test_tree : TestFiles :=
  {["/r" := None; "/r/cmd" := None; "/r/cmd/a.go" := Some (bytes "package p");
    "/r/cmd/a_test.go" := Some []; "/r/cmd/b.go" := Some []; "/r/docs" := None;
    "/r/docs/cmd/b.mdx" := Some (bytes "kept")]}.
Definition test_flags : flags := mkFlags "" "docs" false false [].
Definition test_run : M TestFiles (Z * Z * string) :=
  main id (λ _, true) (λ _ n, n) test_ParseFile test_flags.

Lemma main_rerun_witness :
  (test_run test_tree).2 = Ok (1, 1, "/r/docs")
  ∧ os_ReadFile "/r/docs/cmd/b.mdx" (test_run test_tree).1 = Ok (bytes "kept")
  ∧ test_run (test_run test_tree).1 = ((test_run test_tree).1, Ok (0, 2, "/r/docs")).
Proof.
  destruct (main_rerun id (λ _, true) (λ _ n, n) test_ParseFile test_flags test_tree
    (test_run test_tree).1 (test_run test_tree).2) as (_ & Hr & Hm).
  - reflexivity.
  - exact (surjective_pairing (test_run test_tree)).
  - split; [vm_compute; reflexivity|]. split; [apply Hr; vm_compute; reflexivity|].
    assert ((test_run test_tree).2 = Ok (1, 1, "/r/docs")) as E by (vm_compute; reflexivity).
    rewrite E in Hm. destruct Hm as (repo & files & g & l & Hrepo & Hc & _ & _ & _ & _ & _ & Hagain).
    assert (repo = "/r") as -> by (vm_compute in Hrepo; congruence).
    assert (files = ["/r/cmd/a.go"; "/r/cmd/b.go"]) as -> by (vm_compute in Hc; congruence).
    apply Hagain. vm_compute. reflexivity.
Defined.
